(* ===== verification/_CoqProject ===== *)
-Q . S2P
Prelude.v
External.v
Text.v
Base64.v
Index.v
Chunking.v
FanOut.v
Manifest.v
Retention.v
Float.v
FloatTheorems.v
Number.v
Scheduler.v
Compression.v
ClientConfig.v
Crypto.v
StoreIO.v
Store.v
StoreLogic.v
StoreSpec.v
Rpc.v
StoreRefine.v
StoreOps.v
StoreTheorems.v
AtomicFile.v
Identity.v
IdentityTheorems.v
Enroll.v
EnrollTheorems.v
Keys.v
KeysTheorems.v
Service.v
ServiceTheorems.v
Enrollment.v
Snapshots.v
Backup.v
Records.v
DaemonCli.v
WalkTheorems.v
Bench.v
PolicyBench.v
BenchCmd.v
BackupTheorems.v
Restore.v
RestoreTheorems.v
RestoreLawful.v
Progress.v
Run.v
ClientCli.v
WinService.v
EndToEnd.v
System.v
