(* ===== verification/Prelude.v ===== *)
(** * BusyNCR verification library

    BusyNCR is a versioned backup tool.  A client ([crates/busyncr-client]) cuts the
    files of some folders into content-defined chunks, compresses and encrypts them,
    and ships those that a daemon ([crates/busyncr-daemon]) does not have yet over
    mutually authenticated TLS; a manifest, encrypted as well, makes a snapshot of
    them.  The daemon keeps chunks, snapshots and reference counts, thins the
    snapshots out along a retention grid and collects the chunks that nothing refers
    to.  What both share is in [crates/busyncr-core].  All paths below are under
    [src/crates/].

    This library is a shallow embedding of the three crates.  Pure functions are
    functions; Rust's [Result] is [result] (below); a 64-bit integer is a [Z] with its
    wrap-around, saturation or check written out; an [f64] is a binary64 number of the
    Standard Library's [SpecFloat]; a [str] is the list of its UTF-8 bytes.  Code that
    changes the file system or the database is a program of the monad [StoreIO.M],
    whose every primitive consumes one entry of a schedule of faults: it succeeds,
    fails, perhaps half done, or the machine stops there.  Theorems quantify over the
    schedules, and [reboot] says what a restart finds.  Code that talks to a server,
    draws random numbers or counts is a state-and-error program ([SE]).

    ** The parts, and the files that model them

    Shared.
    - [Prelude]: results, the state-and-error monad and its weakest precondition,
      machine integers, bytes, fixed-size arrays, list lemmas, tactics, hints.
    - [External]: the third-party packages, each as a class of its operations and a
      class of the documented laws that theorems may use; [External.Reference] has a
      concrete instance of each, with its laws, that the closed examples run on.
    - [Text], [Base64], [Number]: UTF-8, hexadecimal, paths; [str::lines], [str::trim],
      PEM and base64 ([pem_to_der] of [identity.rs]); printed and parsed numbers.
    - [Float], [FloatTheorems]: binary64 and bounds on its operations.

    The core crate ([busyncr-core/src/]).
    - [Index] ([index.rs]), [Chunking] ([chunking.rs]), [Manifest] ([manifest.rs]),
      [Retention] ([retention.rs]), [Scheduler] ([scheduler.rs]), [Compression]
      ([compression.rs]), [Crypto] ([crypto.rs]): one file each, all operations.
    - [FanOut] and [Bench] ([bench.rs]), [PolicyBench] ([policy_bench.rs]): the two
      benchmarks; [FanOut] has the threads and channels as a step relation.

    The daemon ([busyncr-daemon/src/]).
    - [StoreIO], [Store] ([store.rs]): the store's environment, and every operation of
      [ChunkStore].  [StoreSpec] is the abstract store (chunks, snapshots with their
      references, grace marks; no counts), [StoreLogic] the program logic,
      [StoreRefine] and [StoreOps] the simulation of the abstract store by each
      operation, [StoreTheorems] what follows for histories.
    - [AtomicFile] ([write_atomic]), [Identity] and [IdentityTheorems]
      ([identity.rs]): CA, tokens, registry, enrollment, revocation.
    - [Service], [ServiceTheorems] ([service.rs]): authorization and every handler.
    - [Records] ([config.rs], and [status.rs] of the client): two TOML files.
    - [DaemonCli] ([main.rs]): the subcommands.

    The client ([busyncr-client/src/]).
    - [ClientConfig] ([config.rs], and the sizes and intervals of the command lines).
    - [Enroll], [EnrollTheorems] ([enroll.rs]), [Keys], [KeysTheorems] ([keys.rs]): the
      state directory.
    - [Rpc]: the wire between the two ends, as a class of a server's operations
      ([Busyncr]) with the laws of one that keeps an abstract store ([BusyncrLaws]).
    - [Backup] with [WalkTheorems] and [BackupTheorems] ([backup.rs]); [Restore] with
      [RestoreTheorems] and [RestoreLawful] ([restore.rs]); [Snapshots]
      ([snapshots.rs]); [Run] ([run.rs]); [Progress] ([progress.rs]); [BenchCmd]
      ([bench_cmd.rs]); [ClientCli] ([main.rs]); [WinService] ([service.rs]).

    Together.
    - [Enrollment]: the client's enrollment against the daemon's handler.
    - [EndToEnd]: a backup and the restore of its snapshot, over any server that keeps
      the laws of [Rpc].
    - [System]: the same over the daemon itself, which implements those laws.

    ** What is shown

    - The store.  Whatever happened (operations, faults, crashes, restarts) it
      represents a well-formed abstract store: exact counts, no reference without a
      chunk, no index entry without its whole object ([store_invariant],
      [crash_recovery], [reachable_reads_are_clean]); storing a snapshot is atomic,
      and a collection takes exactly what is unreferenced and has been marked for the
      grace period ([put_snapshot_atomic], [gc_exact]); [prune] and two [gc]s leave what
      the grid keeps and nothing else ([maintenance_reclaims], [plan_one_per_cell]).
    - The identity.  Tokens are spent once, names are active once, the revoked stay
      out, and whoever is not enrolled does not reach the store ([token_spent_once],
      [active_names_unique], [revoked_stays_revoked], [revoke_locks_out],
      [unauthorized_call_is_refused], [enrollment_grants_access]).
    - The wire.  For an enrolled client the daemon is a server that keeps an abstract
      store ([daemon_refines_store]); the pipelines are verified against that
      interface only.
    - Backup and restore.  A backup that succeeds has stored every source file, one
      that fails has stored no snapshot, a restore writes verified bytes below its
      target only, and a restore after a backup gives the files back
      ([backup_stores_sources], [failed_backup_stores_no_snapshot],
      [restore_is_verified], [sanitize_path_spec], [collect_files_spec],
      [backup_restore_roundtrip]); [status] tells the truth about the last backup
      ([backup_is_recorded]).
    - The schedule.  It ends at the signal and bridges outages
      ([run_ends_at_shutdown], [outage_is_bridged]), as a service as well
      ([service_runs_the_command]).
    - Keys.  No key is ever lost, and a keyfile carries them to another machine
      ([key_material_survives], [import_key_spec], [export_import_migrates],
      [decrypt_accepts_exactly_sealed]).
    - Codecs and syntax: [decode_encode], [decode_encode_chunk], [format_utc_ms_spec],
      [chunker_well_formed].
    - The benchmarks measure what a backup does ([build_report_spec], [chunk_tree_spec],
      [simulate_policy_is_backup], [compression_mode_agrees]); the threads of the
      fan-out end with the sequential result ([fan_out_every_interleaving]).
    - The progress display: [terminal_shows_lines], [rendering_is_throttled],
      [backup_stream_ends_with_report].

    Where the code does not do what its comments say, a closed execution shows it: the
    modules named [Limits] and some of those named [Examples].

    ** Fuel and bounds

    Recursion is structural, but for a few loops that get fuel: [strip_while] (the
    length of the string, and every turn shortens it), the slots of a key backup (the
    code's own limit of 1000), the chunk stream (a turn takes one item of what the
    cutter yields, the fuel is one more than their number),
    and [run_scheduler], which does not end by itself: its fuel is the number of
    rounds that are looked at, and the theorems on it say that a signal within them
    ends it.  Sizes and counts are assumed to fit their 64-bit fields where a theorem
    says so ([allowed], [starts_sources]).

    ** Parameters, and what is assumed of them

    ULID (identities are 16 bytes and ordered by time), BLAKE3 (a function to 32
    bytes; that no two chunks of a backup collide is a hypothesis where it is
    needed), FastCDC (cuts within the sizes it is given), zstd and lz4 (decompression
    inverts compression), XChaCha20-Poly1305 (opens exactly what was sealed under the
    key, nonce and associated data), Argon2id (a function), redb (its key order and
    table iteration; transactions are modelled in [StoreIO]), rcgen (a certificate has
    the subject of its request), the TOML and JSON libraries (parsing inverts
    printing), the random range (stays in the range).  Time, new identities, random
    numbers, the trees of the sources and what a TLS connection reaches are arguments.

    ** Not modelled

    The transport: TLS, HTTP/2, the protobuf code that is generated from
    [busyncr-proto], and tokio's tasks; a call of the daemon runs on its own, except
    where a theorem of [Limits] interleaves two.  The parsing of command lines, which
    [clap] generates, and the texts that are printed, the tables of the benchmarks
    among them.  The handlers that only call one modelled function (the client's
    [restore] subcommand).  The calls of the Windows service manager ([install],
    [start], [stop], [restart], [uninstall]) and of the event log.  File permissions,
    except where restoring sets them. *)

From Stdlib Require Export ZArith Lia.
From Stdlib Require Export Strings.Byte.
From stdpp Require Export prelude gmap vector sorting strings.

#[global] Open Scope Z_scope.
#[export] Set Warnings "-clear-no-such-hyp".

(** ** Results

    Rust's [Result<A, E>].  [result E] is a stdpp monad, so the [?] operator is
    written [x ← e; k], and [collect::<Result<Vec<_>, _>>()] is [mapM]. *)

Inductive result (E A : Type) : Type :=
  | Ok (a : A)
  | Err (e : E).
Arguments Ok {E A} a.
Arguments Err {E A} e.

#[global] Instance result_ret {E} : MRet (result E) := λ A a, Ok a.
#[global] Instance result_bind {E} : MBind (result E) := λ A B f m,
  match m with Ok a => f a | Err e => Err e end.
#[global] Instance result_fmap {E} : FMap (result E) := λ A B f m,
  match m with Ok a => Ok (f a) | Err e => Err e end.

#[global] Instance result_eq_dec {E A} `{EqDecision E, EqDecision A} :
  EqDecision (result E A).
Proof. solve_decision. Defined.

#[global] Instance Ok_inj {E A} : Inj (=) (=) (@Ok E A).
Proof. by intros a b [= ->]. Qed.

(** [Result::map_err], [Option::ok_or] and [Result::ok]. *)
Definition map_err {E F A} (f : E → F) (r : result E A) : result F A :=
  match r with Ok a => Ok a | Err e => Err (f e) end.

Definition ok_or {E A} (e : E) (o : option A) : result E A :=
  match o with Some a => Ok a | None => Err e end.

Definition result_ok {E A} (r : result E A) : option A :=
  match r with Ok a => Some a | Err _ => None end.

Lemma result_ok_Some {E A} (r : result E A) a : result_ok r = Some a → r = Ok a.
Proof. destruct r; cbn; congruence. Qed.

Definition is_ok {E A} (r : result E A) : bool :=
  match r with Ok _ => true | Err _ => false end.

Section result_lemmas.
Context {E A B : Type}.

Lemma bind_Ok (f : A → result E B) (m : result E A) b :
  (m ≫= f) = Ok b ↔ ∃ a, m = Ok a ∧ f a = Ok b.
Proof. destruct m; cbn; naive_solver. Qed.

Lemma bind_Err (f : A → result E B) (m : result E A) e :
  (m ≫= f) = Err e ↔ m = Err e ∨ ∃ a, m = Ok a ∧ f a = Err e.
Proof. destruct m; cbn; naive_solver. Qed.

Lemma ok_or_Ok (e : E) (o : option A) a : ok_or e o = Ok a ↔ o = Some a.
Proof. destruct o; cbn; naive_solver. Qed.

Lemma map_err_Ok {F} (f : E → F) (r : result E A) a :
  map_err f r = Ok a ↔ r = Ok a.
Proof. destruct r; cbn; naive_solver. Qed.

Lemma map_err_Err {F} (f : E → F) (r : result E A) x :
  map_err f r = Err x ↔ ∃ e, r = Err e ∧ x = f e.
Proof. destruct r; cbn; naive_solver. Qed.
End result_lemmas.

(** A [collect] into a [Result] succeeds exactly when every element does. *)
Lemma mapM_Ok {E A B} (f : A → result E B) l k :
  mapM f l = Ok k ↔ Forall2 (λ a b, f a = Ok b) l k.
Proof.
  revert k; induction l as [|a l IH]; intros k; cbn.
  - split; [intros [= <-]; constructor|by inversion 1].
  - split.
    + intros (b & Hb & (k' & Hk' & [= <-])%bind_Ok)%bind_Ok.
      constructor; [done|by apply IH].
    + inversion 1 as [|? b ? k' Hb Hk']; subst.
      rewrite Hb; cbn. apply IH in Hk'. by rewrite Hk'.
Qed.

(** An equation that holds by evaluation; only its two sides are evaluated. *)
Ltac compute_eq := lazymatch goal with |- ?a = ?b => exact (@eq_refl _ b <: a = b) end.

(** A [for] loop over [l] whose body may leave the function early. *)
Fixpoint foldM {M : Type → Type} `{MRet M, MBind M} {A B} (f : B → A → M B) (b : B)
    (l : list A) : M B :=
  match l with
  | [] => mret b
  | a :: l => b ← f b a; foldM f b l
  end.

Lemma foldM_app {A B} (f : B → A → option B) b l k :
  foldM f b (l ++ k) = (b ← foldM f b l; foldM f b k).
Proof.
  revert b; induction l as [|a l IH]; intros b; cbn; [done|].
  destruct (f b a) as [b'|]; cbn; [apply IH|done].
Qed.

(** Programs with state and errors: a function over [&mut S] that returns a
    [Result]. *)
Definition SE (S E A : Type) : Type := S → result E A * S.
#[global] Instance SE_ret {S E} : MRet (SE S E) := λ A a s, (Ok a, s).
#[global] Instance SE_bind {S E} : MBind (SE S E) := λ A B f m s,
  match m s with
  | (Ok a, s) => f a s
  | (Err e, s) => (Err e, s)
  end.

Section state_and_errors.
Context {S E : Type}.
Definition throw {A} (e : E) : SE S E A := λ s, (Err e, s).
Definition lift_result {A} (r : result E A) : SE S E A := λ s, (r, s).
Definition gets {A} (f : S → A) : SE S E A := λ s, (Ok (f s), s).
Definition modify (f : S → S) : SE S E unit := λ s, (Ok (), f s).

(** What holds of the result and the state afterwards. *)
Definition se_wp {A} (m : SE S E A) (Q : result E A → S → Prop) (s : S) : Prop :=
  Q (m s).1 (m s).2.

Lemma se_wp_ret {A} (a : A) (Q : result E A → S → Prop) s : Q (Ok a) s → se_wp (mret a) Q s.
Proof. done. Qed.

Lemma se_wp_throw {A} e (Q : result E A → S → Prop) s : Q (Err e) s → se_wp (throw e) Q s.
Proof. done. Qed.

Lemma se_wp_lift {A} r (Q : result E A → S → Prop) s : Q r s → se_wp (lift_result r) Q s.
Proof. done. Qed.

Lemma se_wp_gets {A} (f : S → A) (Q : result E A → S → Prop) s : Q (Ok (f s)) s → se_wp (gets f) Q s.
Proof. done. Qed.

Lemma se_wp_modify (f : S → S) (Q : result E unit → S → Prop) s :
  Q (Ok ()) (f s) → se_wp (modify f) Q s.
Proof. done. Qed.

Lemma se_wp_bind {A B} (m : SE S E A) (f : A → SE S E B) (Q : result E B → S → Prop) s :
  se_wp m (λ r s', match r with Ok a => se_wp (f a) Q s' | Err e => Q (Err e) s' end) s →
  se_wp (m ≫= f) Q s.
Proof. unfold se_wp, mbind, SE_bind. by destruct (m s) as [[a|e] s']. Qed.

Lemma se_wp_mono {A} (m : SE S E A) (P Q : result E A → S → Prop) s :
  se_wp m P s → (∀ r s', P r s' → Q r s') → se_wp m Q s.
Proof. unfold se_wp. auto. Qed.

(** A loop, by an invariant on the items that are done and still to come. *)
Lemma se_wp_foldM {A B} (f : B → A → SE S E B) (Q : result E B → S → Prop)
    (I : B → list A → list A → S → Prop) b l s :
  I b [] l s →
  (∀ b x pre l s, I b pre (x :: l) s → se_wp (f b x) (λ r s', match r with
     | Ok b' => I b' (pre ++ [x]) l s' | Err e => Q (Err e) s' end) s) →
  (∀ b s, I b l [] s → Q (Ok b) s) →
  se_wp (foldM f b l) Q s.
Proof.
  intros Hi Hstep Hend.
  assert (∀ pre k b s, l = pre ++ k → I b pre k s → se_wp (foldM f b k) Q s) as H; [|by apply (H [])].
  intros pre k. revert pre. induction k as [|x k IH]; intros pre b' s' Hl Hi'; cbn [foldM].
  - apply se_wp_ret, Hend. rewrite app_nil_r in Hl. by subst.
  - apply se_wp_bind. eapply se_wp_mono; [by apply Hstep|].
    intros [b''|e] s'' H; [|done]. apply (IH (pre ++ [x])); [by rewrite <- app_assoc|done].
Qed.
End state_and_errors.

(** What a program does to its state, step by step, is in a preorder. *)
Section steps.
Context {S E : Type} (R : relation S) `{!PreOrder R}.

Definition steps {A} (m : SE S E A) : Prop := ∀ s, R s (m s).2.

Lemma steps_ret {A} (a : A) : steps (mret a).
Proof. by intros s. Qed.
Lemma steps_throw {A} e : steps (A := A) (throw e).
Proof. by intros s. Qed.
Lemma steps_lift {A} (r : result E A) : steps (lift_result r).
Proof. by intros s. Qed.
Lemma steps_gets {A} (f : S → A) : steps (gets f).
Proof. by intros s. Qed.
Lemma steps_modify (f : S → S) : (∀ s, R s (f s)) → steps (modify f).
Proof. done. Qed.
Lemma steps_bind {A B} (m : SE S E A) (f : A → SE S E B) : steps m → (∀ a, steps (f a)) → steps (m ≫= f).
Proof.
  intros Hm Hf s. specialize (Hm s). unfold mbind, SE_bind. destruct (m s) as [[a|e] s']; [|done].
  etrans; [exact Hm|apply Hf].
Qed.
Lemma steps_foldM {A B} (f : B → A → SE S E B) b l : (∀ b a, steps (f b a)) → steps (foldM f b l).
Proof.
  intros Hf. revert b. induction l as [|a l IH]; intros b; cbn [foldM]; [apply steps_ret|]. by apply steps_bind.
Qed.
End steps.

(** Goes down a program to its updates and its calls, which are the client's hints. *)
Create HintDb steps.
Ltac steps :=
  repeat match goal with
  | |- steps _ (_ ≫= _) => apply steps_bind; [apply _|..]
  | |- steps _ (foldM _ _ _) => apply steps_foldM; [apply _|..]
  | |- steps _ (mret _) => apply steps_ret; apply _
  | |- steps _ (throw _) => apply steps_throw; apply _
  | |- steps _ (lift_result _) => apply steps_lift; apply _
  | |- steps _ (gets _) => apply steps_gets; apply _
  | |- steps _ (match ?x with _ => _ end) => destruct x
  | |- ∀ _, _ => intros ?
  end; auto with steps.

(** Pairwise related lists, by element. *)
Lemma Forall2_elem_l {A B} (P : A → B → Prop) l k x :
  Forall2 P l k → x ∈ l → ∃ y, y ∈ k ∧ P x y.
Proof.
  intros HP (i & Hi)%list_elem_of_lookup.
  destruct (Forall2_lookup_l _ _ _ _ _ HP Hi) as (y & Hy & ?).
  exists y. split; [by eapply list_elem_of_lookup_2|done].
Qed.

Lemma Forall2_elem_r {A B} (P : A → B → Prop) l k y :
  Forall2 P l k → y ∈ k → ∃ x, x ∈ l ∧ P x y.
Proof. intros HP%Forall2_flip Hy. by apply (Forall2_elem_l _ _ _ y HP). Qed.

(** [Iterator::enumerate]. *)
Definition enumerate {A} (l : list A) : list (nat * A) := imap pair l.

Lemma forallb_elem {A} (f : A → bool) l : forallb f l = true → ∀ x, x ∈ l → f x = true.
Proof. intros Hf x Hx. rewrite forallb_forall in Hf. by apply Hf, list_elem_of_In. Qed.

Lemma pair_fst {A B} (p : A * B) a : p.1 = a → p = (a, p.2).
Proof. intros <-. by destruct p. Qed.

(** A list of pairs with distinct keys is a function. *)
Lemma NoDup_fst_elem {K A} (l : list (K * A)) k a b : NoDup l.*1 → (k, a) ∈ l → (k, b) ∈ l → a = b.
Proof.
  induction l as [|[k' c] l IH]; [by intros _ ?%elem_of_nil|]. cbn. intros [Hk Hl]%NoDup_cons.
  assert (∀ x, (k', x) ∉ l) as Hno.
  { intros x Hx. apply Hk, list_elem_of_fmap. by exists (k', x). }
  rewrite !elem_of_cons. intros [Ha|Ha] [Hb|Hb]; simplify_eq; [done|by destruct (Hno b)|by destruct (Hno a)|by auto].
Qed.

Lemma enumerate_app {A} (l k : list A) :
  enumerate (l ++ k) = enumerate l ++ imap (λ i x, (length l + i, x)%nat) k.
Proof. unfold enumerate. rewrite imap_app. f_equal. Qed.

Lemma enumerate_snoc {A} (l : list A) x : enumerate (l ++ [x]) = enumerate l ++ [(length l, x)].
Proof. rewrite enumerate_app. cbn. by rewrite Nat.add_0_r. Qed.

Lemma list_elem_of_enumerate {A} (l : list A) i x : (i, x) ∈ enumerate l ↔ l !! i = Some x.
Proof.
  unfold enumerate. rewrite elem_of_lookup_imap. naive_solver.
Qed.

Lemma enumerate_snd {A} (l : list A) : (enumerate l).*2 = l.
Proof.
  unfold enumerate. rewrite fmap_imap. transitivity (id <$> l); [|apply list_fmap_id].
  apply (imap_const id).
Qed.

Lemma omap_filter {A B} (P : A → Prop) `{!∀ x, Decision (P x)} (f : A → option B) (l : list A) :
  omap f (filter P l) = omap (λ x, if decide (P x) then f x else None) l.
Proof.
  induction l as [|x l IH]; [done|]. rewrite filter_cons. cbn [omap list_omap].
  destruct (decide (P x)); cbn [omap list_omap]; [by destruct (f x); rewrite <- IH|done].
Qed.

Section list_filter.
Context {A : Type} (P Q : A → Prop) `{!∀ x, Decision (P x), !∀ x, Decision (Q x)}.

Lemma list_filter_iff' (l : list A) : (∀ x, x ∈ l → P x ↔ Q x) → filter P l = filter Q l.
Proof.
  induction l as [|x l IH]; intros Hl; [done|]. rewrite !filter_cons, IH by set_solver.
  assert (P x ↔ Q x) by set_solver. repeat case_decide; naive_solver.
Qed.

Lemma list_filter_all (l : list A) : (∀ x, P x) → filter P l = l.
Proof. intros Hl. induction l as [|x l IH]; [done|]. by rewrite filter_cons_True, IH. Qed.

Lemma list_filter_all' (l : list A) : (∀ x, x ∈ l → P x) → filter P l = l.
Proof.
  intros Hl. induction l as [|x l IH]; [done|].
  rewrite filter_cons_True, IH; [done|set_solver|set_solver].
Qed.

Lemma list_filter_none (l : list A) : (∀ x, ¬ P x) → filter P l = [].
Proof. intros Hl. induction l as [|x l IH]; [done|]. by rewrite filter_cons_False, IH. Qed.
End list_filter.

Lemma list_filter_fmap {A B} (f : A → B) (P : B → Prop) `{!∀ x, Decision (P x)} (l : list A) :
  filter P (f <$> l) = f <$> filter (λ x, P (f x)) l.
Proof.
  induction l as [|x l IH]; [done|]. csimpl. rewrite !filter_cons, IH. by case_decide.
Qed.

(** ** Machine integers

    A [w]-bit integer is a [Z] in range.  [usize] is the 64-bit one.  The
    operations that the code names ([saturating_add], [checked_mul], ...) are
    written out; a plain [+] on counters is [u64_add], the release profile's
    wrap-around. *)

Definition u8_max : Z := 2 ^ 8 - 1.
Definition u32_max : Z := 2 ^ 32 - 1.
Definition u64_max : Z := 2 ^ 64 - 1.
Definition i64_min : Z := - 2 ^ 63.
Definition i64_max : Z := 2 ^ 63 - 1.

Definition in_u8 (z : Z) : Prop := 0 ≤ z ≤ u8_max.
Definition in_u32 (z : Z) : Prop := 0 ≤ z ≤ u32_max.
Definition in_u64 (z : Z) : Prop := 0 ≤ z ≤ u64_max.
Definition in_i64 (z : Z) : Prop := i64_min ≤ z ≤ i64_max.

#[global] Instance in_u8_dec z : Decision (in_u8 z).
Proof. unfold in_u8; apply _. Defined.
#[global] Instance in_u32_dec z : Decision (in_u32 z).
Proof. unfold in_u32; apply _. Defined.
#[global] Instance in_u64_dec z : Decision (in_u64 z).
Proof. unfold in_u64; apply _. Defined.
#[global] Instance in_i64_dec z : Decision (in_i64 z).
Proof. unfold in_i64; apply _. Defined.

Definition u64_add (a b : Z) : Z := (a + b) mod 2 ^ 64.
Definition u64_mul (a b : Z) : Z := (a * b) mod 2 ^ 64.
Definition u64_saturating_add (a b : Z) : Z := Z.min u64_max (a + b).
Definition u64_saturating_sub (a b : Z) : Z := Z.max 0 (a - b).
Definition u64_saturating_mul (a b : Z) : Z := Z.min u64_max (a * b).
Definition i64_saturating_sub (a b : Z) : Z := Z.max i64_min (Z.min i64_max (a - b)).
Definition u64_checked_mul (a b : Z) : option Z :=
  if decide (a * b ≤ u64_max) then Some (a * b) else None.
Definition i64_try_from (z : Z) : option Z :=
  if decide (in_i64 z) then Some z else None.
Definition u32_try_from (z : Z) : option Z :=
  if decide (in_u32 z) then Some z else None.
(** [u64::div_ceil]. *)
Definition div_ceil (a b : Z) : Z := (a + b - 1) / b.

(** Unfolds the integer vocabulary before calling [lia]. *)
Ltac ints :=
  unfold u64_add, u64_mul, u64_saturating_add, u64_saturating_sub,
    u64_saturating_mul, i64_saturating_sub,
    in_u8, in_u32, in_u64, in_i64, u8_max, u32_max, u64_max, i64_min, i64_max in *.
Ltac int_lia := ints; lia.

Lemma u64_add_small a b : 0 ≤ a → 0 ≤ b → a + b ≤ u64_max → u64_add a b = a + b.
Proof. ints. intros. apply Z.mod_small. lia. Qed.

Lemma u64_add_range a b : in_u64 (u64_add a b).
Proof. ints. pose proof (Z.mod_pos_bound (a + b) (2 ^ 64)). lia. Qed.

Lemma u64_add_assoc (x y z : Z) : u64_add (u64_add x y) z = u64_add x (y + z).
Proof. unfold u64_add. rewrite Zplus_mod_idemp_l. f_equal. lia. Qed.

(** Appending [k] bits. *)
Lemma lor_shiftl v d k : 0 ≤ k → 0 ≤ d < 2 ^ k → Z.lor (Z.shiftl v k) d = 2 ^ k * v + d.
Proof.
  intros Hk Hd. rewrite Z.shiftl_mul_pow2 by done.
  assert (Z.land (v * 2 ^ k) d = 0) as Hl.
  { apply Z.bits_inj'. intros i Hi. rewrite Z.land_spec, Z.bits_0.
    destruct (decide (i < k)).
    - by rewrite Z.mul_pow2_bits_low.
    - destruct (decide (d = 0)) as [->|]; [by rewrite Z.bits_0, andb_false_r|].
      rewrite andb_comm, Z.bits_above_log2; [done|lia|].
      apply Z.log2_lt_pow2; [lia|]. apply Z.lt_le_trans with (2 ^ k); [lia|].
      apply Z.pow_le_mono_r; lia. }
  rewrite (Z.mul_comm (2 ^ k)). pose proof (Z.add_lor_land (v * 2 ^ k) d) as E.
  rewrite Hl in E. lia.
Qed.

Lemma i64_saturating_sub_range a b : in_i64 (i64_saturating_sub a b).
Proof. int_lia. Qed.

(** ** Bytes *)

Abbreviation bytes := (list byte).

(** [Vec::len], [[T]::len], [str::len]: a [usize]. *)
Definition len {A} (l : list A) : Z := Z.of_nat (length l).

Lemma len_app {A} (l k : list A) : len (l ++ k) = len l + len k.
Proof. unfold len. rewrite length_app. lia. Qed.

#[global] Instance byte_eq_dec : EqDecision byte.
Proof. intros a b. destruct (Byte.byte_eq_dec a b); [left|right]; done. Defined.

#[global] Program Instance byte_countable : Countable byte :=
  inj_countable Byte.to_N Byte.of_N _.
Next Obligation. intros b. apply Byte.of_to_N. Qed.

Definition byte_to_Z (b : byte) : Z := Z.of_N (Byte.to_N b).
(** The low byte of [z]: the [as u8] cast. *)
Definition byte_of_Z (z : Z) : byte :=
  default x00 (Byte.of_N (Z.to_N (z mod 256))).

Lemma byte_to_Z_range b : 0 ≤ byte_to_Z b < 256.
Proof. unfold byte_to_Z. pose proof (Byte.to_N_bounded b). lia. Qed.

Lemma byte_to_of_Z z : byte_to_Z (byte_of_Z z) = z mod 256.
Proof.
  unfold byte_to_Z, byte_of_Z. pose proof (Z.mod_pos_bound z 256).
  destruct (Byte.of_N (Z.to_N (z mod 256))) as [b|] eqn:E; cbn.
  - apply Byte.to_of_N in E. lia.
  - apply Byte.of_N_None_iff in E. lia.
Qed.

Lemma byte_of_to_Z b : byte_of_Z (byte_to_Z b) = b.
Proof.
  unfold byte_of_Z. rewrite Z.mod_small by apply byte_to_Z_range.
  unfold byte_to_Z. rewrite N2Z.id, Byte.of_to_N. done.
Qed.

Lemma byte_to_Z_inj a b : byte_to_Z a = byte_to_Z b → a = b.
Proof. intros E. rewrite <- (byte_of_to_Z a), E. apply byte_of_to_Z. Qed.

(** *** Little-endian encoding ([to_le_bytes], [from_le_bytes]) *)

Fixpoint le_bytes (n : nat) (z : Z) : bytes :=
  match n with
  | O => []
  | S n => byte_of_Z z :: le_bytes n (z / 256)
  end.

Fixpoint le_value (bs : bytes) : Z :=
  match bs with
  | [] => 0
  | b :: bs => byte_to_Z b + 256 * le_value bs
  end.

Definition u32_to_le (z : Z) : bytes := le_bytes 4 z.
Definition u64_to_le (z : Z) : bytes := le_bytes 8 z.
Definition i64_to_le (z : Z) : bytes := le_bytes 8 (z mod 2 ^ 64).
Definition i64_from_le (bs : bytes) : Z :=
  let u := le_value bs in if decide (u < 2 ^ 63) then u else u - 2 ^ 64.

Lemma length_le_bytes n z : length (le_bytes n z) = n.
Proof. revert z; induction n; intros; cbn; auto. Qed.

Lemma le_value_range bs : 0 ≤ le_value bs < 256 ^ len bs.
Proof.
  unfold len. induction bs as [|b bs IH]; [cbn; lia|].
  cbn [le_value length]. rewrite Nat2Z.inj_succ, Z.pow_succ_r by lia.
  pose proof (byte_to_Z_range b). lia.
Qed.

Lemma le_value_bytes n z : le_value (le_bytes n z) = z mod 256 ^ Z.of_nat n.
Proof.
  revert z; induction n as [|n IH]; intros z; [cbn; by rewrite Z.mod_1_r|].
  cbn [le_value le_bytes]. rewrite IH, byte_to_of_Z.
  rewrite Nat2Z.inj_succ, Z.pow_succ_r by lia.
  rewrite Z.rem_mul_r by lia. lia.
Qed.

Lemma le_bytes_value bs : le_bytes (length bs) (le_value bs) = bs.
Proof.
  induction bs as [|b bs IH]; [done|]. cbn [le_value le_bytes length].
  pose proof (byte_to_Z_range b). f_equal.
  - apply byte_to_Z_inj. rewrite byte_to_of_Z.
    rewrite Z.mul_comm, Z.mod_add by lia. by rewrite Z.mod_small.
  - rewrite Z.mul_comm, Z.div_add, Z.div_small by lia. done.
Qed.

#[global] Arguments le_bytes : simpl never.
#[global] Arguments le_value : simpl never.
#[global] Arguments u32_to_le : simpl never.
#[global] Arguments u64_to_le : simpl never.
#[global] Arguments i64_to_le : simpl never.

Lemma length_u32_to_le z : length (u32_to_le z) = 4%nat.
Proof. apply length_le_bytes. Qed.
Lemma length_u64_to_le z : length (u64_to_le z) = 8%nat.
Proof. apply length_le_bytes. Qed.
Lemma length_i64_to_le z : length (i64_to_le z) = 8%nat.
Proof. apply length_le_bytes. Qed.

Lemma u32_from_to_le z : in_u32 z → le_value (u32_to_le z) = z.
Proof. ints. intros. unfold u32_to_le. rewrite le_value_bytes. apply Z.mod_small. lia. Qed.
Lemma u64_from_to_le z : in_u64 z → le_value (u64_to_le z) = z.
Proof. ints. intros. unfold u64_to_le. rewrite le_value_bytes. apply Z.mod_small. lia. Qed.
Lemma i64_from_to_le z : in_i64 z → i64_from_le (i64_to_le z) = z.
Proof.
  ints. intros. unfold i64_from_le, i64_to_le. rewrite le_value_bytes.
  change (256 ^ Z.of_nat 8) with (2 ^ 64). rewrite Z.mod_mod by lia.
  destruct (decide (0 ≤ z)).
  - rewrite Z.mod_small by lia. case_decide; lia.
  - replace (z mod 2 ^ 64) with (z + 2 ^ 64) by
      (symmetry; rewrite <- (Z.mod_add _ 1) by lia; apply Z.mod_small; lia).
    case_decide; lia.
Qed.

Lemma u32_to_from_le bs : length bs = 4%nat → u32_to_le (le_value bs) = bs.
Proof. unfold u32_to_le. intros <-. apply le_bytes_value. Qed.
Lemma u64_to_from_le bs : length bs = 8%nat → u64_to_le (le_value bs) = bs.
Proof. unfold u64_to_le. intros <-. apply le_bytes_value. Qed.
Lemma i64_to_from_le bs : length bs = 8%nat → i64_to_le (i64_from_le bs) = bs.
Proof.
  intros H. unfold i64_to_le, i64_from_le.
  pose proof (le_value_range bs) as Hr. unfold len in Hr. rewrite H in Hr.
  change (256 ^ Z.of_nat 8) with (2 ^ 64) in Hr.
  transitivity (le_bytes (length bs) (le_value bs)); [|apply le_bytes_value].
  rewrite H. f_equal. case_decide.
  - apply Z.mod_small; lia.
  - rewrite <- (Z.mod_add _ 1) by lia. rewrite Z.mod_small; lia.
Qed.

Lemma le_value_u32 bs : length bs = 4%nat → in_u32 (le_value bs).
Proof.
  intros H. pose proof (le_value_range bs) as Hr. unfold len in Hr. rewrite H in Hr.
  change (256 ^ Z.of_nat 4) with (2 ^ 32) in Hr. int_lia.
Qed.
Lemma le_value_u64 bs : length bs = 8%nat → in_u64 (le_value bs).
Proof.
  intros H. pose proof (le_value_range bs) as Hr. unfold len in Hr. rewrite H in Hr.
  change (256 ^ Z.of_nat 8) with (2 ^ 64) in Hr. int_lia.
Qed.
Lemma i64_from_le_range bs : length bs = 8%nat → in_i64 (i64_from_le bs).
Proof.
  intros H. pose proof (le_value_u64 _ H). unfold i64_from_le.
  case_decide; int_lia.
Qed.

(** *** Fixed-size arrays

    [[u8; N]] is stdpp's [vec byte N].  [array_of_list] is
    [<[u8; N]>::try_from(slice)]. *)

Abbreviation array n := (vec byte n).

Fixpoint array_of_list (n : nat) (l : bytes) : option (array n) :=
  match n, l with
  | O, [] => Some [#]
  | S n, b :: l => vcons b <$> array_of_list n l
  | _, _ => None
  end.

Lemma array_of_vec n (v : array n) : array_of_list n (vec_to_list v) = Some v.
Proof. induction v as [|b n v IH]; cbn; [done|]. by rewrite IH. Qed.

(** stdpp's own instance does not compute. *)
#[global] Instance array_countable n : Countable (array n) :=
  inj_countable vec_to_list (array_of_list n) (array_of_vec n).

Lemma array_of_list_Some n l v : array_of_list n l = Some v ↔ vec_to_list v = l.
Proof.
  split; [|intros <-; apply array_of_vec].
  revert l; induction n as [|n IH]; intros [|b l]; cbn; try done.
  - by intros [= <-].
  - destruct (array_of_list n l) as [w|] eqn:E; cbn; [|done].
    intros [= <-]. cbn. f_equal. by apply IH.
Qed.

Lemma array_of_list_None n l : array_of_list n l = None ↔ length l ≠ n.
Proof.
  revert l; induction n as [|n IH]; intros [|b l]; cbn; try naive_solver lia.
  rewrite fmap_None, IH. lia.
Qed.

Lemma array_of_list_length n l : length l = n → ∃ v, array_of_list n l = Some v.
Proof.
  intros H. destruct (array_of_list n l) as [v|] eqn:E; [eauto|].
  by apply array_of_list_None in E.
Qed.

(** [let mut out = [0u8; N]; out.copy_from_slice(l)]. *)
Definition to_array (n : nat) (l : bytes) : array n :=
  default (vreplicate n x00) (array_of_list n l).

Lemma to_array_list n l : length l = n → vec_to_list (to_array n l) = l.
Proof.
  intros H. unfold to_array. destruct (array_of_list_length n l H) as [v Hv].
  rewrite Hv; cbn. by apply array_of_list_Some.
Qed.
Lemma to_array_vec n (v : array n) : to_array n (vec_to_list v) = v.
Proof. unfold to_array. by rewrite array_of_vec. Qed.

#[global] Arguments array_of_list : simpl never.
#[global] Arguments to_array : simpl never.

(** *** Byte-wise lexicographic order ([Ord] of [[u8]], the key order of redb) *)

Fixpoint bytes_leb (l k : bytes) : bool :=
  match l, k with
  | [], _ => true
  | _ :: _, [] => false
  | a :: l, b :: k =>
      match Z.compare (byte_to_Z a) (byte_to_Z b) with
      | Lt => true
      | Eq => bytes_leb l k
      | Gt => false
      end
  end.
Definition bytes_le (l k : bytes) : Prop := bytes_leb l k = true.
#[global] Instance bytes_le_dec : RelDecision bytes_le.
Proof. intros l k. unfold bytes_le. apply _. Defined.

#[global] Instance bytes_le_total : Total bytes_le.
Proof.
  unfold bytes_le. intros l. induction l as [|a l IH]; intros [|b k]; cbn; auto.
  rewrite (Z.compare_antisym (byte_to_Z a)).
  destruct (byte_to_Z a ?= byte_to_Z b); cbn; auto.
Qed.
#[global] Instance bytes_le_trans : Transitive bytes_le.
Proof.
  unfold bytes_le. intros l. induction l as [|a l IH]; intros [|b k] [|c m]; cbn; auto; try done.
  destruct (Z.compare_spec (byte_to_Z a) (byte_to_Z b)) as [E|E|E]; try done;
  destruct (Z.compare_spec (byte_to_Z b) (byte_to_Z c)) as [F|F|F]; try done;
  destruct (Z.compare_spec (byte_to_Z a) (byte_to_Z c)); try lia; eauto.
Qed.
#[global] Instance bytes_le_antisymm : AntiSymm (=) bytes_le.
Proof.
  unfold bytes_le. intros l. induction l as [|a l IH]; intros [|b k]; cbn; auto; try done.
  rewrite (Z.compare_antisym (byte_to_Z a)).
  destruct (Z.compare_spec (byte_to_Z a) (byte_to_Z b)) as [E|E|E]; cbn; try done.
  intros. f_equal; [by apply byte_to_Z_inj|auto].
Qed.
#[global] Instance bytes_le_refl : Reflexive bytes_le.
Proof. intros l. by destruct (bytes_le_total l l). Qed.

(** ** Durations

    [std::time::Duration], as its total number of nanoseconds. *)

Abbreviation Duration := Z.
Definition Duration_MAX : Duration := u64_max * 1000000000 + 999999999.
Definition Duration_from_secs (s : Z) : Duration := s * 1000000000.
Definition Duration_from_millis (ms : Z) : Duration := ms * 1000000.
Definition Duration_as_millis (d : Duration) : Z := d / 1000000.
Definition Duration_is_zero (d : Duration) : bool := bool_decide (d = 0).
Definition Duration_wf (d : Duration) : Prop := 0 ≤ d ≤ Duration_MAX.

(** ** Automation *)

Create Rewrite HintDb length.
#[export] Hint Rewrite @length_app @length_take @length_drop @length_vec_to_list
  @length_replicate @length_fmap length_le_bytes length_u32_to_le length_u64_to_le
  length_i64_to_le : length.

(** Decides goals about lengths of concatenations of fixed-size fields. *)
Ltac len_lia :=
  unfold len in *; repeat progress (autorewrite with length in *; cbn [length] in *); lia.

(** Proves a closed decidable proposition by evaluating its decision procedure. *)
Ltac evaluate :=
  lazymatch goal with |- ?P => refine (bool_decide_unpack P _) end; vm_compute; exact I.

(** Decomposes hypotheses [m ≫= f = Ok a]. *)
Ltac inv_ok :=
  repeat match goal with
  | H : _ ≫= _ = Ok _ |- _ => apply bind_Ok in H as (?&?&?)
  | H : ok_or _ _ = Ok _ |- _ => apply ok_or_Ok in H
  | H : map_err _ _ = Ok _ |- _ => apply map_err_Ok in H
  | H : Ok _ = Ok _ |- _ => injection H as H
  | H : mret _ = Ok _ |- _ => injection H as H
  | H : Err _ = Ok _ |- _ => discriminate H
  | H : Ok _ = Err _ |- _ => discriminate H
  end; subst.

#[export] Hint Resolve i64_saturating_sub_range u64_add_range byte_to_Z_range : core.
