(* ===== verification/External.v ===== *)
(** * Third-party packages the crates call

    One operational class per package, and a class in [Prop] with the
    documented behaviour that theorems may rely on.  The development is
    parametric in all of them.  Module [Reference] has one small concrete
    instance of each, which satisfies the laws: the closed examples of the other
    files evaluate the program with it. *)

From S2P Require Import Prelude.

(** ** [ulid] *)

Class UlidPkg := {
  Ulid : Type;
  Ulid_eq_dec :: EqDecision Ulid;
  Ulid_to_bytes : Ulid → array 16;
  Ulid_from_bytes : array 16 → Ulid;
  Ulid_timestamp_ms : Ulid → Z;
  Ulid_to_string : Ulid → bytes;
}.

(** A ULID is a 128-bit value: 48 bits of milliseconds, then 80 random bits, in
    big-endian order, so that the byte order sorts by time. *)
Class UlidLaws `{UlidPkg} : Prop := {
  Ulid_from_to u : Ulid_from_bytes (Ulid_to_bytes u) = u;
  Ulid_to_from b : Ulid_to_bytes (Ulid_from_bytes b) = b;
  Ulid_timestamp_range u : 0 ≤ Ulid_timestamp_ms u < 2 ^ 48;
  Ulid_timestamp_mono u v :
    bytes_le (Ulid_to_bytes u) (Ulid_to_bytes v) →
    Ulid_timestamp_ms u ≤ Ulid_timestamp_ms v;
}.

(** ** [blake3] *)

Class Blake3Pkg := {
  blake3_hash : bytes → array 32;
  blake3_keyed_hash : array 32 → bytes → array 32;
}.

(** ** [chacha20poly1305]: the XChaCha20-Poly1305 AEAD

    [None] is the crate's opaque [Error]. *)

Class AeadPkg := {
  aead_encrypt : array 32 → array 24 → (* aad *) bytes → (* msg *) bytes → option bytes;
  aead_decrypt : array 32 → array 24 → (* aad *) bytes → (* ciphertext *) bytes → option bytes;
}.

(** Decryption recomputes the tag over the associated data and the ciphertext
    and then removes the key stream: it accepts exactly the ciphertexts that
    encryption produces under the same key, nonce and associated data.  The tag
    has 16 bytes; a message has fewer than 2^32 blocks of 64 bytes. *)
Class AeadLaws `{AeadPkg} : Prop := {
  aead_decrypt_encrypt k n aad m c :
    aead_encrypt k n aad m = Some c → aead_decrypt k n aad c = Some m;
  aead_encrypt_decrypt k n aad m c :
    aead_decrypt k n aad c = Some m → aead_encrypt k n aad m = Some c;
  aead_encrypt_length k n aad m c :
    aead_encrypt k n aad m = Some c → length c = (length m + 16)%nat;
  aead_encrypt_limit k n aad m c : aead_encrypt k n aad m = Some c → len m ≤ 2 ^ 38;
}.

(** ** [zstd] and [lz4_flex] *)

Class ZstdPkg := {
  zstd_encode_all : bytes → (* level *) Z → result string bytes;
  zstd_decode_all : bytes → result string bytes;
  lz4_compress : bytes → bytes;
}.

(** A frame decodes to the data it was made from; a frame is never empty. *)
Class ZstdLaws `{ZstdPkg} : Prop := {
  zstd_decode_encode data level c :
    zstd_encode_all data level = Ok c → zstd_decode_all c = Ok data;
  zstd_frame_nonempty data level c :
    zstd_encode_all data level = Ok c → c ≠ [];
}.

(** ** [argon2] *)

Class Argon2Pkg := {
  Argon2Params : Type;
  argon2_params_new : Z → Z → Z → Z → result string Argon2Params;
  (** Argon2id, version 0x13, into a 32-byte output *)
  argon2id_hash_into : Argon2Params → (* password *) bytes → (* salt *) bytes →
    result string (array 32);
}.

(** ** [fastcdc::v2020] *)

(** What [StreamCDC] yields. *)
Inductive v2020_Error :=
  | Empty
  | IoError (kind : string)
  | Other (msg : string).

Record ChunkData := { cd_offset : Z; cd_data : bytes }.

(** A [Read] source: the bytes it delivers, then the error it ends with. *)
Record Source := { src_data : bytes; src_error : option string }.

Class FastCdcPkg := {
  MINIMUM_MIN : Z;
  MINIMUM_MAX : Z;
  AVERAGE_MIN : Z;
  AVERAGE_MAX : Z;
  MAXIMUM_MIN : Z;
  MAXIMUM_MAX : Z;
  (** [FastCDC::new(data, min, avg, max)], collected: (offset, length) *)
  FastCDC : bytes → Z → Z → Z → list (Z * Z);
  (** [StreamCDC::new(source, min, avg, max)], collected *)
  StreamCDC : Source → Z → Z → Z → list (result v2020_Error ChunkData);
}.

(** Cut points tile a buffer from [off] on. *)
Fixpoint tiles (off : Z) (total : Z) (cuts : list (Z * Z)) : Prop :=
  match cuts with
  | [] => off = total
  | (o, l) :: cuts => o = off ∧ 0 < l ∧ tiles (off + l) total cuts
  end.

(** [&data[o..o + l]]. *)
Definition slice (data : bytes) (o l : Z) : bytes :=
  take (Z.to_nat l) (drop (Z.to_nat o) data).

Class FastCdcLaws `{FastCdcPkg} : Prop := {
  FastCDC_tiles data mn avg mx :
    MINIMUM_MIN ≤ mn → mn ≤ avg → avg ≤ mx → tiles 0 (len data) (FastCDC data mn avg mx);
  FastCDC_max data mn avg mx o l :
    MINIMUM_MIN ≤ mn → mn ≤ avg → avg ≤ mx → (o, l) ∈ FastCDC data mn avg mx → l ≤ mx;
  (** every chunk but the last has at least the minimum size *)
  FastCDC_min data mn avg mx cuts o l cuts' :
    MINIMUM_MIN ≤ mn → mn ≤ avg → avg ≤ mx →
    FastCDC data mn avg mx = cuts ++ (o, l) :: cuts' → cuts' ≠ [] → mn ≤ l;
  StreamCDC_clean data mn avg mx :
    StreamCDC {| src_data := data; src_error := None |} mn avg mx =
    (λ '(o, l), Ok {| cd_offset := o; cd_data := slice data o l |}) <$>
      FastCDC data mn avg mx;
  FastCDC_limits :
    MINIMUM_MIN = 64 ∧ MINIMUM_MAX = 1048576 ∧ AVERAGE_MIN = 256 ∧
    AVERAGE_MAX = 4194304 ∧ MAXIMUM_MIN = 1024 ∧ MAXIMUM_MAX = 16777216;
}.

(** ** [redb]: an embedded database of ordered key-value tables

    [T] is the type of the table definitions that a program declares.  [Db] is
    what a transaction sees of the database: its tables with their records.  The
    transactions themselves are part of the store's environment ([StoreIO]). *)

Class RedbPkg (T : Type) := {
  Db : Type;
  (** a new database; [table.get], [insert], [remove] and [iter] *)
  redb_create : Db;
  redb_get : T → bytes → Db → option bytes;
  redb_insert : T → bytes → bytes → Db → Db;
  redb_remove : T → bytes → Db → Db;
  redb_iter : T → Db → list (bytes * bytes);
}.

(** Every table is a map, and is iterated over in ascending order of keys. *)
Class RedbLaws (T : Type) `{RedbPkg T} : Prop := {
  redb_get_create t k : redb_get t k redb_create = None;
  redb_get_insert t k v db : redb_get t k (redb_insert t k v db) = Some v;
  redb_get_insert_other t k t' k' v db :
    (t, k) ≠ (t', k') → redb_get t' k' (redb_insert t k v db) = redb_get t' k' db;
  redb_get_remove t k db : redb_get t k (redb_remove t k db) = None;
  redb_get_remove_other t k t' k' db :
    (t, k) ≠ (t', k') → redb_get t' k' (redb_remove t k db) = redb_get t' k' db;
  redb_iter_records t k v db : (k, v) ∈ redb_iter t db ↔ redb_get t k db = Some v;
  redb_iter_keys t db : NoDup (redb_iter t db).*1;
  redb_iter_ascending t db : StronglySorted bytes_le (redb_iter t db).*1;
}.

(** ** [rand]: a source of random bytes, threaded by the callers *)

Class CryptoRng (R : Type) := fill_bytes : ∀ n : nat, R → array n * R.

(** ** Reference instances *)

Module Reference.

(** A ULID is its 16 big-endian bytes. *)
Definition be_value (bs : bytes) : Z := foldl (λ acc b, 256 * acc + byte_to_Z b) 0 bs.

#[export] Instance ulid : UlidPkg := {|
  Ulid := array 16;
  Ulid_to_bytes u := u;
  Ulid_from_bytes b := b;
  Ulid_timestamp_ms u := be_value (take 6 (vec_to_list u));
  Ulid_to_string u := vec_to_list u;
|}.

Lemma be_value_acc acc bs :
  foldl (λ acc b, 256 * acc + byte_to_Z b) acc bs = acc * 256 ^ len bs + be_value bs.
Proof.
  unfold be_value, len. revert acc; induction bs as [|b bs IH]; intros acc; cbn [foldl length].
  - change (256 ^ Z.of_nat 0) with 1. lia.
  - rewrite IH, (IH (256 * 0 + byte_to_Z b)), Nat2Z.inj_succ, Z.pow_succ_r by lia. lia.
Qed.

Lemma be_value_cons b bs : be_value (b :: bs) = byte_to_Z b * 256 ^ len bs + be_value bs.
Proof. unfold be_value at 1. cbn [foldl]. rewrite be_value_acc. lia. Qed.

Lemma be_value_range bs : 0 ≤ be_value bs < 256 ^ len bs.
Proof.
  induction bs as [|b bs IH]; [done|].
  rewrite be_value_cons. unfold len in *. cbn [length].
  rewrite Nat2Z.inj_succ, Z.pow_succ_r by lia. pose proof (byte_to_Z_range b).
  set (P := 256 ^ Z.of_nat (length bs)) in *.
  assert ((byte_to_Z b + 1) * P ≤ 256 * P) by (apply Z.mul_le_mono_nonneg_r; lia).
  assert (0 ≤ byte_to_Z b * P) by (apply Z.mul_nonneg_nonneg; lia). lia.
Qed.

Lemma be_value_mono n l k :
  bytes_le l k → length l = length k → be_value (take n l) ≤ be_value (take n k).
Proof.
  unfold bytes_le. revert l k; induction n as [|n IH]; intros l k; [done|].
  destruct l as [|a l], k as [|b k]; cbn [take bytes_leb length]; try done.
  intros H [= Hl]. rewrite !be_value_cons.
  pose proof (be_value_range (take n l)). pose proof (be_value_range (take n k)).
  assert (len (take n l) = len (take n k)) as El by (unfold len; rewrite !length_take; lia).
  rewrite El in *. destruct (Z.compare_spec (byte_to_Z a) (byte_to_Z b)) as [E|E|E]; try done.
  - rewrite E. specialize (IH _ _ H Hl). lia.
  - set (P := 256 ^ len (take n k)) in *.
    assert ((byte_to_Z a + 1) * P ≤ byte_to_Z b * P) by (apply Z.mul_le_mono_nonneg_r; lia).
    lia.
Qed.

#[export] Instance ulid_laws : UlidLaws.
Proof.
  split; try done.
  - intros u. cbn. pose proof (be_value_range (take 6 (vec_to_list u))) as H.
    unfold len in H. rewrite length_take, length_vec_to_list in H.
    change (256 ^ Z.of_nat (6 `min` 16)) with (2 ^ 48) in H. done.
  - intros u v H. apply be_value_mono; [done|]. by rewrite !length_vec_to_list.
Qed.

(** The digest of [data]: its length and its first 31 bytes. *)
Definition digest (data : bytes) : array 32 :=
  to_array 32 (take 32 (byte_of_Z (len data) :: data ++ replicate 32 x00)).

#[export] Instance blake3 : Blake3Pkg := {|
  blake3_hash := digest;
  blake3_keyed_hash key data := digest (take 1 (vec_to_list key) ++ data);
|}.

(** The ciphertext is the message followed by 16 bytes of checksums of the key,
    the nonce, the associated data and the message. *)
Definition checksum (bs : bytes) : byte :=
  byte_of_Z (foldl (λ acc b, (31 * acc + byte_to_Z b + 1) mod 256) 0 bs).
Definition tag (k : array 32) (n : array 24) (aad m : bytes) : bytes :=
  [checksum (vec_to_list k); checksum (vec_to_list n); checksum aad; checksum m] ++
  replicate 12 x00.

#[global] Arguments tag : simpl never.

Lemma length_tag k n aad m : length (tag k n aad m) = 16%nat.
Proof. done. Qed.

#[export] Instance aead : AeadPkg := {|
  aead_encrypt k n aad m := if decide (len m ≤ 2 ^ 38) then Some (m ++ tag k n aad m) else None;
  aead_decrypt k n aad c :=
    let m := take (length c - 16) c in
    if decide (len m ≤ 2 ^ 38 ∧ c = m ++ tag k n aad m) then Some m else None;
|}.

#[export] Instance aead_laws : AeadLaws.
Proof.
  split; cbn.
  - intros k n aad m c. destruct (decide (len m ≤ 2 ^ 38)); intros [= <-]. rewrite length_app, length_tag.
    replace (length m + 16 - 16)%nat with (length m) by lia.
    rewrite take_app_length. by rewrite decide_True.
  - intros k n aad m c. destruct (decide (_ ∧ _)) as [[Hl Hc]|]; [|done]. intros [= <-].
    rewrite decide_True by done. by f_equal.
  - intros k n aad m c. destruct (decide _); intros [= <-]. by rewrite length_app, length_tag.
  - intros k n aad m c. by destruct (decide _).
Qed.

(** Run-length compression of constant data; anything else is stored. *)
#[export] Instance zstd : ZstdPkg := {|
  zstd_encode_all data level :=
    match data with
    | b :: _ =>
        if decide (data = replicate (length data) b ∧ in_u64 (len data))
        then Ok (x01 :: b :: u64_to_le (len data)) else Ok (x00 :: data)
    | [] => Ok [x00]
    end;
  zstd_decode_all frame :=
    match frame with
    | x00 :: data => Ok data
    | x01 :: b :: l => Ok (replicate (Z.to_nat (le_value l)) b)
    | _ => Err "unknown frame"%string
    end;
  lz4_compress data := data;
|}.

#[export] Instance zstd_laws : ZstdLaws.
Proof.
  split; cbn; intros [|b data] level c; try by intros [= <-].
  - case_decide as H; intros [= <-]; [|done]. destruct H as [H Hr]. cbn.
    rewrite u64_from_to_le by done. unfold len. rewrite Nat2Z.id. by rewrite H at 2.
  - case_decide; by intros [= <-].
Qed.

#[export] Instance argon2 : Argon2Pkg := {|
  Argon2Params := Z * Z * Z;
  argon2_params_new m t p outlen :=
    if decide (8 * p ≤ m ∧ 1 ≤ t ∧ 1 ≤ p) then Ok (m, t, p) else Err "params"%string;
  argon2id_hash_into '(m, t, p) pw salt :=
    Ok (digest (byte_of_Z m :: byte_of_Z t :: byte_of_Z p :: pw ++ salt));
|}.

(** Cuts a buffer every [avg] bytes. *)
Fixpoint fixed_cuts (fuel : nat) (off total avg : Z) : list (Z * Z) :=
  match fuel with
  | O => []
  | S fuel =>
      if decide (off < total)
      then (off, Z.min avg (total - off)) :: fixed_cuts fuel (off + Z.min avg (total - off)) total avg
      else []
  end.

#[export] Instance fastcdc : FastCdcPkg := {|
  MINIMUM_MIN := 64; MINIMUM_MAX := 1048576;
  AVERAGE_MIN := 256; AVERAGE_MAX := 4194304;
  MAXIMUM_MIN := 1024; MAXIMUM_MAX := 16777216;
  FastCDC data mn avg mx := fixed_cuts (length data) 0 (len data) avg;
  StreamCDC src mn avg mx :=
    ((λ '(o, l), Ok {| cd_offset := o; cd_data := slice (src_data src) o l |}) <$>
      fixed_cuts (length (src_data src)) 0 (len (src_data src)) avg)
    ++ match src_error src with None => [] | Some e => [Err (IoError e)] end;
|}.

Lemma fixed_cuts_tiles fuel off total avg :
  0 < avg → off ≤ total → total - off ≤ Z.of_nat fuel →
  tiles off total (fixed_cuts fuel off total avg).
Proof.
  intros Ha. revert off; induction fuel as [|fuel IH]; intros off Ho Hf; cbn.
  - lia.
  - case_decide; cbn; [|lia]. split_and!; [done|lia|]. apply IH; lia.
Qed.

Lemma fixed_cuts_max fuel off total avg o l :
  (o, l) ∈ fixed_cuts fuel off total avg → l ≤ avg.
Proof.
  revert off; induction fuel as [|fuel IH]; intros off; cbn; [by intros ?%elem_of_nil|].
  case_decide; [|by intros ?%elem_of_nil].
  intros [[= -> ->]|H']%elem_of_cons; [lia|eauto].
Qed.

Lemma fixed_cuts_min fuel off total avg cuts o l cuts' :
  fixed_cuts fuel off total avg = cuts ++ (o, l) :: cuts' → cuts' ≠ [] → avg ≤ l.
Proof.
  revert off cuts; induction fuel as [|fuel IH]; intros off cuts; cbn.
  - by destruct cuts.
  - case_decide; [|by destruct cuts]. destruct cuts as [|c cuts]; cbn.
    + intros [= <- <- E] Hne. destruct (decide (total - off ≤ avg)); [|lia].
      exfalso. apply Hne. rewrite <- E. replace (off + _) with total by lia.
      destruct fuel; cbn; [done|]. by case_decide; [lia|].
    + intros [= <- E]. eauto.
Qed.

#[export] Instance fastcdc_laws : FastCdcLaws.
Proof.
  split; cbn.
  - intros. apply fixed_cuts_tiles; unfold len; lia.
  - intros. assert (l ≤ avg) by by eapply fixed_cuts_max. lia.
  - intros. assert (avg ≤ l) by by eapply fixed_cuts_min. lia.
  - intros. by rewrite app_nil_r.
  - done.
Qed.

(** A database is one finite map from tables and keys. *)
Section redb.
Context {T : Type} `{Countable T}.

Definition key_le (a b : bytes * bytes) : Prop := bytes_le a.1 b.1.
#[export] Instance key_le_dec : RelDecision key_le.
Proof. intros a b. unfold key_le. apply _. Defined.
#[export] Instance key_le_total : Total key_le.
Proof. intros a b. apply bytes_le_total. Qed.
#[export] Instance key_le_trans : Transitive key_le.
Proof. intros a b c. apply bytes_le_trans. Qed.

Definition in_table (t : T) (r : (T * bytes) * bytes) : option (bytes * bytes) :=
  if decide (r.1.1 = t) then Some (r.1.2, r.2) else None.

#[export] Instance redb : RedbPkg T := {|
  Db := gmap (T * bytes) bytes;
  redb_create := ∅;
  redb_get t k db := db !! (t, k);
  redb_insert t k v db := <[(t, k) := v]> db;
  redb_remove t k db := delete (t, k) db;
  redb_iter t db := merge_sort key_le (omap (in_table t) (map_to_list db));
|}.

Lemma omap_keys_NoDup t (l : list ((T * bytes) * bytes)) :
  NoDup l.*1 → NoDup (omap (in_table t) l).*1.
Proof.
  induction l as [|[[t' k] v] l IH]; cbn [fmap list_fmap omap list_omap]; [constructor|].
  intros [Hn Hnd]%NoDup_cons. unfold in_table at 1; cbn.
  case_decide as Ht; [|by apply IH]. cbn. apply NoDup_cons. split; [|by apply IH].
  rewrite list_elem_of_fmap. intros ([k' v'] & ? & Hin). cbn in *; subst.
  apply list_elem_of_omap in Hin as ([[t'' k''] v''] & Hin & Hx).
  unfold in_table in Hx; cbn in Hx. case_decide; simplify_eq/=.
  apply Hn, list_elem_of_fmap. eexists; split; [|exact Hin]. done.
Qed.

#[export] Instance redb_laws : RedbLaws T.
Proof.
  split; cbn; intros.
  - apply lookup_empty.
  - apply lookup_insert_eq.
  - by apply lookup_insert_ne.
  - apply lookup_delete_eq.
  - by apply lookup_delete_ne.
  - rewrite merge_sort_Permutation, list_elem_of_omap. split.
    + intros ([[t' k'] v'] & Hin%elem_of_map_to_list & Hx). unfold in_table in Hx; cbn in Hx.
      case_decide; simplify_eq. done.
    + intros Hin. exists ((t, k), v). split; [by apply elem_of_map_to_list|].
      unfold in_table; cbn. by rewrite decide_True.
  - rewrite merge_sort_Permutation. apply omap_keys_NoDup, NoDup_fst_map_to_list.
  - assert (StronglySorted key_le (merge_sort key_le (omap (in_table t) (map_to_list db)))) as Hs
      by (apply StronglySorted_merge_sort; apply _).
    induction Hs as [|[k v] l Hs IH Hall]; constructor; [done|].
    apply Forall_fmap. by eapply Forall_impl.
Qed.
End redb.

(** A counter that fills every buffer with its current value. *)
#[export] Instance counter_rng : CryptoRng Z := λ n s, (vreplicate n (byte_of_Z s), s + 1).

End Reference.
