(* ===== verification/Text.v ===== *)
(** * Strings: UTF-8, hexadecimal

    A Rust [str] is the list of its UTF-8 bytes, as [str::len] and
    [str::as_bytes] see it.  [utf8_decode] is [std::str::from_utf8] and
    [str::chars] in one: it gives the scalar values of a well-formed string and
    [None] for any other byte sequence. *)

From S2P Require Import Prelude.

(** A [char]: a Unicode scalar value. *)
Abbreviation char := Z.

Definition between (lo hi z : Z) : bool := bool_decide (lo ≤ z ≤ hi).
Definition is_cont (b : byte) : bool := between 128 191 (byte_to_Z b).

(** Second-byte ranges of three- and four-byte sequences: no overlong form, no
    surrogate, nothing above U+10FFFF. *)
Definition three_byte_ok (z0 z1 : Z) : bool :=
  (between 224 224 z0 && between 160 191 z1)
  || (between 225 236 z0 && between 128 191 z1)
  || (between 237 237 z0 && between 128 159 z1)
  || (between 238 239 z0 && between 128 191 z1).
Definition four_byte_ok (z0 z1 : Z) : bool :=
  (between 240 240 z0 && between 144 191 z1)
  || (between 241 243 z0 && between 128 191 z1)
  || (between 244 244 z0 && between 128 143 z1).

Fixpoint utf8_decode (bs : bytes) : option (list char) :=
  match bs with
  | [] => Some []
  | b0 :: r0 =>
      let z0 := byte_to_Z b0 in
      if between 0 127 z0 then cons z0 <$> utf8_decode r0 else
      match r0 with
      | [] => None
      | b1 :: r1 =>
          let z1 := byte_to_Z b1 in
          if between 194 223 z0 && is_cont b1
          then cons ((z0 - 192) * 64 + (z1 - 128)) <$> utf8_decode r1 else
          match r1 with
          | [] => None
          | b2 :: r2 =>
              let z2 := byte_to_Z b2 in
              if three_byte_ok z0 z1 && is_cont b2
              then cons ((z0 - 224) * 4096 + (z1 - 128) * 64 + (z2 - 128)) <$> utf8_decode r2
              else
              match r2 with
              | [] => None
              | b3 :: r3 =>
                  let z3 := byte_to_Z b3 in
                  if four_byte_ok z0 z1 && is_cont b2 && is_cont b3
                  then cons ((z0 - 240) * 262144 + (z1 - 128) * 4096
                             + (z2 - 128) * 64 + (z3 - 128)) <$> utf8_decode r3
                  else None
              end
          end
      end
  end.

Definition utf8_valid (bs : bytes) : bool := bool_decide (is_Some (utf8_decode bs)).
(** [str::chars]; total on a [str], whose bytes are always well-formed. *)
Definition str_chars (s : bytes) : list char := default [] (utf8_decode s).

(** A string literal. *)
Definition str (s : string) : bytes := String.list_byte_of_string s.

Lemma str_inj a b : str a = str b → a = b.
Proof.
  intros E. rewrite <- (String.string_of_list_byte_of_string a), <- (String.string_of_list_byte_of_string b).
  unfold str in E. by rewrite E.
Qed.

Definition is_ascii_byte (b : byte) : Prop := byte_to_Z b < 128.

Lemma utf8_decode_ascii s : Forall is_ascii_byte s → utf8_decode s = Some (byte_to_Z <$> s).
Proof.
  induction 1 as [|b s Hb Hs IH]; [done|]. cbn [utf8_decode fmap list_fmap].
  pose proof (byte_to_Z_range b). unfold is_ascii_byte, between in *.
  rewrite bool_decide_true by lia. by rewrite IH.
Qed.

(** ** Hexadecimal *)

(** One digit of [{:x}]. *)
Definition hex_digit (d : Z) : byte :=
  byte_of_Z (if decide (d < 10) then 48 + d else 87 + d).
(** [{byte:02x}]. *)
Definition hex_byte (b : byte) : bytes :=
  [hex_digit (byte_to_Z b / 16); hex_digit (byte_to_Z b mod 16)].
Definition hex_bytes (bs : bytes) : bytes := bs ≫= hex_byte.

(** [char::to_digit(16)]. *)
Definition to_digit16 (c : char) : option Z :=
  if between 48 57 c then Some (c - 48)
  else if between 97 102 c then Some (c - 87)
  else if between 65 70 c then Some (c - 55)
  else None.

Lemma hex_digit_value d : 0 ≤ d < 16 →
  byte_to_Z (hex_digit d) = (if decide (d < 10) then 48 + d else 87 + d).
Proof. intros. unfold hex_digit. rewrite byte_to_of_Z. case_decide; apply Z.mod_small; lia. Qed.

Lemma to_digit16_hex_digit d : 0 ≤ d < 16 → to_digit16 (byte_to_Z (hex_digit d)) = Some d.
Proof.
  intros. rewrite hex_digit_value by done. unfold to_digit16, between.
  case_decide; repeat case_bool_decide; (f_equal; lia) || lia.
Qed.

Lemma to_digit16_range c d : to_digit16 c = Some d → 0 ≤ d < 16.
Proof. unfold to_digit16, between. repeat case_bool_decide; intros [= <-]; lia. Qed.

Lemma hex_digit_ascii d : 0 ≤ d < 16 → is_ascii_byte (hex_digit d).
Proof. intros. unfold is_ascii_byte. rewrite hex_digit_value by done. case_decide; lia. Qed.

Lemma hex_digit_inj d e : 0 ≤ d < 16 → 0 ≤ e < 16 → hex_digit d = hex_digit e → d = e.
Proof.
  intros Hd He E. pose proof (to_digit16_hex_digit d Hd) as A. rewrite E in A.
  rewrite to_digit16_hex_digit in A by done. congruence.
Qed.

Lemma nibbles b : 0 ≤ byte_to_Z b / 16 < 16 ∧ 0 ≤ byte_to_Z b mod 16 < 16.
Proof.
  pose proof (byte_to_Z_range b). split; [|apply Z.mod_pos_bound; lia].
  split; [apply Z.div_pos; lia|apply Z.div_lt_upper_bound; lia].
Qed.
#[export] Hint Resolve nibbles : core.

Lemma hex_bytes_cons b bs : hex_bytes (b :: bs) = hex_byte b ++ hex_bytes bs.
Proof. done. Qed.
#[global] Arguments hex_bytes : simpl never.

Lemma length_hex_bytes bs : length (hex_bytes bs) = (2 * length bs)%nat.
Proof.
  induction bs as [|b bs IH]; [done|].
  rewrite hex_bytes_cons, length_app, IH. cbn. lia.
Qed.
#[export] Hint Rewrite length_hex_bytes : length.

Lemma hex_bytes_ascii bs : Forall is_ascii_byte (hex_bytes bs).
Proof.
  induction bs as [|b bs IH]; [constructor|]. rewrite hex_bytes_cons.
  apply Forall_app; split; [|done]. destruct (nibbles b). repeat constructor; auto using hex_digit_ascii.
Qed.

Lemma hex_bytes_inj bs cs : hex_bytes bs = hex_bytes cs → bs = cs.
Proof.
  revert cs; induction bs as [|b bs IH]; intros [|c cs];
    rewrite ?hex_bytes_cons; try done.
  intros [= E1 E2 E]. destruct (nibbles b), (nibbles c).
  apply hex_digit_inj in E1; [|done..]. apply hex_digit_inj in E2; [|done..].
  f_equal; [|by apply IH]. apply byte_to_Z_inj.
  pose proof (Z.div_mod (byte_to_Z b) 16). pose proof (Z.div_mod (byte_to_Z c) 16). lia.
Qed.

(** ** Paths: [str::split('/')] *)

Definition SLASH : byte := x2f.

Fixpoint split_slash (s : bytes) : list bytes :=
  match s with
  | [] => [[]]
  | b :: s =>
      if decide (b = SLASH) then [] :: split_slash s
      else match split_slash s with
           | part :: parts => (b :: part) :: parts
           | [] => [[b]]
           end
  end.

(** Joining what was split. *)
Fixpoint join_slash (parts : list bytes) : bytes :=
  match parts with
  | [] => []
  | [part] => part
  | part :: parts => part ++ SLASH :: join_slash parts
  end.

Lemma split_slash_ne s : split_slash s ≠ [].
Proof. destruct s as [|b s]; cbn; [done|]. case_decide; [done|]. by destruct (split_slash s). Qed.

Lemma join_split_slash s : join_slash (split_slash s) = s.
Proof.
  induction s as [|b s IH]; [done|]. cbn [split_slash]. pose proof (split_slash_ne s) as Hne.
  case_decide as Hb.
  - subst b. cbn [join_slash]. destruct (split_slash s); [done|]. by rewrite IH.
  - destruct (split_slash s) as [|part parts]; [done|]. rewrite <- IH. by destruct parts.
Qed.

Lemma split_slash_parts s : Forall (λ part, SLASH ∉ part) (split_slash s).
Proof.
  induction s as [|b s IH]; cbn; [by repeat constructor; apply not_elem_of_nil|].
  case_decide as Hb; [constructor; [apply not_elem_of_nil|done]|].
  destruct (split_slash s) as [|part parts].
  - constructor; [|constructor]. rewrite list_elem_of_singleton. congruence.
  - apply Forall_cons in IH as [Hp IH]. constructor; [|done]. apply not_elem_of_cons. by split; [congruence|].
Qed.

Lemma split_slash_part s : SLASH ∉ s → split_slash s = [s].
Proof.
  induction s as [|b s IH]; [done|]. intros [Hb Hs]%not_elem_of_cons. cbn.
  rewrite decide_False by congruence. by rewrite IH.
Qed.

Lemma split_slash_app s part :
  SLASH ∉ part → split_slash (s ++ SLASH :: part) = split_slash s ++ [part].
Proof.
  intros Hp. induction s as [|b s IH]; cbn [app split_slash].
  - rewrite decide_True by done. by rewrite split_slash_part.
  - case_decide; [by rewrite IH|]. rewrite IH. pose proof (split_slash_ne s).
    by destruct (split_slash s).
Qed.

Lemma split_slash_head part s :
  SLASH ∉ part → split_slash (part ++ SLASH :: s) = part :: split_slash s.
Proof.
  induction part as [|b part IH]; [done|]. intros [Hb Hp]%not_elem_of_cons. cbn.
  rewrite decide_False by congruence. by rewrite IH.
Qed.

Lemma split_join_slash parts :
  parts ≠ [] → Forall (λ part, SLASH ∉ part) parts → split_slash (join_slash parts) = parts.
Proof.
  intros Hne Hparts. induction Hparts as [|part parts Hp _ IH]; [done|].
  destruct parts as [|next parts]; [by apply split_slash_part|].
  change (join_slash (part :: next :: parts)) with (part ++ SLASH :: join_slash (next :: parts)).
  rewrite split_slash_head by done. by rewrite IH.
Qed.

(** [std::path] on Unix: a path is its bytes, and [Component]s are read off it. *)
Inductive Component := RootDir | CurDir | ParentDir | Normal (name : bytes).

Definition component (absolute : bool) (i : nat) (part : bytes) : option Component :=
  if decide (part = []) then None
  else if decide (part = str ".") then
    if negb absolute && bool_decide (i = 0%nat) then Some CurDir else None
  else if decide (part = str "..") then Some ParentDir
  else Some (Normal part).

(** [Path::components]: repeated separators and inner dots vanish. *)
Definition components (path : bytes) : list Component :=
  let absolute := bool_decide (head path = Some SLASH) in
  (if absolute then [RootDir] else []) ++
  omap (λ '(i, part), component absolute i part) (enumerate (split_slash path)).

(** [Path::file_name]. *)
Definition file_name (path : bytes) : option bytes :=
  match last (components path) with Some (Normal name) => Some name | _ => None end.

(** [PathBuf::push]. *)
Definition push (path part : bytes) : bytes :=
  if decide (head part = Some SLASH) then part
  else if decide (path = [] ∨ last path = Some SLASH) then path ++ part
  else path ++ SLASH :: part.

(** A file name: neither empty nor a dot, without a separator. *)
Definition name_wf (name : bytes) : Prop :=
  name ≠ [] ∧ name ≠ str "." ∧ name ≠ str ".." ∧ SLASH ∉ name.

Lemma component_Normal absolute i part name :
  SLASH ∉ part → component absolute i part = Some (Normal name) → name = part ∧ name_wf name.
Proof. unfold component, name_wf. intros. repeat case_decide; try destruct (_ && _); naive_solver. Qed.

Lemma component_name absolute i name : name_wf name → component absolute i name = Some (Normal name).
Proof. unfold component, name_wf. intros. repeat case_decide; naive_solver. Qed.

Lemma components_Normal path name : Normal name ∈ components path → name_wf name.
Proof.
  unfold components. rewrite elem_of_app. intros [Hin|Hin].
  - destruct (bool_decide _); [|by apply elem_of_nil in Hin]. by apply list_elem_of_singleton in Hin.
  - apply list_elem_of_omap in Hin as ([i part] & Hin & Hc).
    apply list_elem_of_enumerate, list_elem_of_lookup_2 in Hin.
    eapply component_Normal; [|exact Hc]. by apply (proj1 (Forall_forall _ _) (split_slash_parts path)).
Qed.

Lemma file_name_wf path name : file_name path = Some name → name_wf name.
Proof.
  unfold file_name. destruct (last (components path)) as [c|] eqn:E; [|done].
  apply last_Some_elem_of in E. destruct c; try done. intros [= <-]. by eapply components_Normal.
Qed.

(** A path made of names has them as its components. *)
Lemma components_join names :
  names ≠ [] → Forall name_wf names → components (join_slash names) = Normal <$> names.
Proof.
  intros Hne Hw. unfold components.
  assert (Forall (λ n, SLASH ∉ n) names) as Hs by (eapply Forall_impl; [exact Hw|by intros n (_ & _ & _ & ?)]).
  assert (head (join_slash names) ≠ Some SLASH) as Hh.
  { destruct names as [|n names]; [done|]. apply Forall_cons in Hw as [(Hn & _ & _ & Hn') _].
    destruct n as [|b n]; [done|]. assert (head (join_slash ((b :: n) :: names)) = Some b) as ->
      by (by destruct names). intros [= ->]. apply Hn'. by left. }
  rewrite bool_decide_false by done. cbn [app]. rewrite split_join_slash by done.
  clear Hne Hs Hh. assert (∀ f : nat → nat, omap (λ '(i, part), component false i part)
    (imap (λ i part, (f i, part)) names) = Normal <$> names) as Hf; [|exact (Hf id)].
  induction Hw as [|n names Hn _ IH]; intros f; [done|]. rewrite imap_cons. cbn.
  rewrite (component_name _ _ _ Hn). f_equal. exact (IH (f ∘ S)).
Qed.

(** Pushing names one after the other joins them. *)
Lemma push_name path name :
  path ≠ [] → last path ≠ Some SLASH → name_wf name → push path name = path ++ SLASH :: name.
Proof.
  intros Hp Hl (Hn & _ & _ & Hs). unfold push. rewrite !decide_False; [done|naive_solver|].
  destruct name as [|b name]; [done|]. intros [= ->]. apply Hs. by left.
Qed.

Lemma join_slash_snoc names name :
  names ≠ [] → join_slash (names ++ [name]) = join_slash names ++ SLASH :: name.
Proof.
  induction names as [|n names IH]; [done|]. intros _. destruct names as [|m names]; [done|].
  change (join_slash ((n :: m :: names) ++ [name])) with (n ++ SLASH :: join_slash ((m :: names) ++ [name])).
  rewrite IH by done. cbn [join_slash]. by rewrite <- app_assoc.
Qed.

Lemma join_slash_last names :
  names ≠ [] → Forall name_wf names → join_slash names ≠ [] ∧ last (join_slash names) ≠ Some SLASH.
Proof.
  intros Hne Hw. destruct names as [|name names _] using rev_ind; [done|].
  apply Forall_app in Hw as [_ [(Hn & _ & _ & Hs) _]%Forall_cons].
  assert (∀ pre, last (pre ++ name) ≠ Some SLASH ∧ pre ++ name ≠ []) as Hl.
  { intros pre. rewrite last_app. destruct (last name) as [b|] eqn:E.
    - apply last_Some_elem_of in E. split; [naive_solver|]. intros Hnil. apply app_nil in Hnil as [_ ->]. by apply elem_of_nil in E.
    - by apply last_None in E. }
  destruct names as [|m names]; [split; apply (Hl [])|].
  rewrite join_slash_snoc by done.
  change (SLASH :: name) with ([SLASH] ++ name). rewrite app_assoc. split; apply Hl.
Qed.

Lemma fold_push names : Forall name_wf names → foldl push [] names = join_slash names.
Proof.
  induction names as [|name names IH] using rev_ind; [done|]. intros [Hw Hn]%Forall_app.
  rewrite Forall_singleton in Hn. rewrite foldl_app. cbn [foldl]. rewrite IH by done.
  destruct names as [|m names].
  - unfold push. rewrite decide_False; [by rewrite decide_True by by left|].
    destruct Hn as (Hn & _ & _ & Hs). destruct name as [|b name]; [done|]. intros [= ->]. apply Hs. by left.
  - destruct (join_slash_last (m :: names)) as [? ?]; [done..|]. by rewrite push_name, join_slash_snoc.
Qed.

(** ** Concatenations of strings *)

Lemma utf8_decode_app a b l :
  utf8_decode a = Some l → utf8_decode (a ++ b) = (app l) <$> utf8_decode b.
Proof.
  revert l. remember (length a) as n eqn:Hn. revert a Hn.
  induction n as [n IH] using lt_wf_ind. intros a -> l.
  assert (Hcons : ∀ c r l, (length r < length a)%nat → cons c <$> utf8_decode r = Some l →
    cons c <$> utf8_decode (r ++ b) = app l <$> utf8_decode b).
  { intros c r l' Hr Hl. destruct (utf8_decode r) as [k|] eqn:E; [|done]. injection Hl as <-.
    rewrite (IH (length r) Hr r eq_refl k E). by destruct (utf8_decode b). }
  destruct a as [|b0 r0]; [intros [= <-]; change ([] ++ b) with b; by destruct (utf8_decode b)|].
  cbn [app utf8_decode length] in *. destruct (between 0 127 _); [apply Hcons; lia|].
  destruct r0 as [|b1 r1]; [done|]. cbn [app length] in *.
  destruct (between 194 223 _ && _); [apply Hcons; lia|].
  destruct r1 as [|b2 r2]; [done|]. cbn [app length] in *.
  destruct (three_byte_ok _ _ && _); [apply Hcons; lia|].
  destruct r2 as [|b3 r3]; [done|]. cbn [app length] in *.
  destruct (four_byte_ok _ _ && _ && _); [apply Hcons; lia|done].
Qed.

Lemma utf8_valid_app a b : utf8_valid a = true → utf8_valid b = true → utf8_valid (a ++ b) = true.
Proof.
  unfold utf8_valid. rewrite !bool_decide_eq_true. intros [l Hl] [k Hk].
  rewrite (utf8_decode_app _ _ _ Hl), Hk. by eexists.
Qed.
