(* ===== verification/Base64.v ===== *)
(** * PEM and base64 ([pem_to_der], [base64_decode] of [busyncr-daemon/src/identity.rs])

    The decoder that the daemon uses on its own certificate, and the part of
    [str] it relies on ([lines], [trim]).  [base64_encode] is RFC 4648, the
    reference that the decoder is measured against. *)

From S2P Require Import Prelude Text.

(** ** [str::lines] and [str::trim] *)

(** A line without its terminator: a newline, or a carriage return and a newline. *)
Definition strip_cr (l : bytes) : bytes :=
  match reverse l with
  | x0d :: r => reverse r
  | _ => l
  end.

Fixpoint lines_from (cur s : bytes) : list bytes :=
  match s with
  | [] => match cur with [] => [] | _ => [cur] end
  | b :: s => if decide (b = x0a) then strip_cr cur :: lines_from [] s else lines_from (cur ++ [b]) s
  end.
Definition lines (s : bytes) : list bytes := lines_from [] s.

(** The UTF-8 encodings of the characters with the property White_Space. *)
Definition white_space : list bytes :=
  [[x09]; [x0a]; [x0b]; [x0c]; [x0d]; [x20]; [xc2; x85]; [xc2; xa0]; [xe1; x9a; x80];
   [xe2; x80; x80]; [xe2; x80; x81]; [xe2; x80; x82]; [xe2; x80; x83]; [xe2; x80; x84];
   [xe2; x80; x85]; [xe2; x80; x86]; [xe2; x80; x87]; [xe2; x80; x88]; [xe2; x80; x89];
   [xe2; x80; x8a]; [xe2; x80; xa8]; [xe2; x80; xa9]; [xe2; x80; xaf]; [xe2; x81; x9f];
   [xe3; x80; x80]].

(** Drops a first occurrence of one of [ws], as often as there is one. *)
Fixpoint strip_while (fuel : nat) (ws : list bytes) (s : bytes) : bytes :=
  match fuel with
  | O => s
  | S fuel =>
      match list_find (λ w, w `prefix_of` s) ws with
      | Some (_, w) => strip_while fuel ws (drop (length w) s)
      | None => s
      end
  end.
Definition trim_start (s : bytes) : bytes := strip_while (length s) white_space s.
Definition trim_end (s : bytes) : bytes :=
  reverse (strip_while (length s) (reverse <$> white_space) (reverse s)).
Definition trim (s : bytes) : bytes := trim_end (trim_start s).

(** ** The decoder *)

Definition ALPHABET : bytes :=
  str "ABCDEFGHIJKLMNOPQRSTUVWXYZabcdefghijklmnopqrstuvwxyz0123456789+/".

(** The table [rev]: the position of a byte in the alphabet, or 255. *)
Definition rev_table (c : byte) : Z :=
  match list_find (λ x, x = c) ALPHABET with Some (i, _) => Z.of_nat i | None => 255 end.

Definition is_ascii_whitespace (b : byte) : bool :=
  bool_decide (b ∈ [x20; x09; x0a; x0c; x0d]).

(** [slice::chunks(n)]: pieces of [n], the last one possibly shorter. *)
Fixpoint chunks_fuel {A} (fuel n : nat) (l : list A) : list (list A) :=
  match fuel, l with
  | S fuel, _ :: _ => take n l :: chunks_fuel fuel n (drop n l)
  | _, _ => []
  end.
Definition chunks {A} (n : nat) (l : list A) : list (list A) := chunks_fuel (length l) n l.

(** [Iterator::take_while]. *)
Fixpoint take_while {A} (f : A → bool) (l : list A) : list A :=
  match l with
  | a :: l => if f a then a :: take_while f l else []
  | [] => []
  end.

(** [u32::to_be_bytes]. *)
Definition u32_to_be (z : Z) : bytes := reverse (u32_to_le z).

(** The body of the loop over the bytes of a piece. *)
Definition b64_push (acc : Z) (c : byte) : option Z :=
  let v := rev_table c in
  if decide (v = 255) then None else Some (Z.lor (Z.shiftl acc 6 mod 2 ^ 32) v).

(** The body of the loop over the pieces of four. *)
Definition decode_piece (out chunk : bytes) : option bytes :=
  if decide (length chunk = 1%nat) then None
  else
    acc ← foldM b64_push 0 chunk;
    let acc := Z.shiftl acc (6 * (4 - len chunk)) mod 2 ^ 32 in
    Some (out ++ drop 1 (take (length chunk) (u32_to_be acc))).

Definition base64_decode (s : bytes) : option bytes :=
  let raw := filter (λ b, is_ascii_whitespace b = false) s in
  let pad := length (take_while (λ b, bool_decide (b = x3d)) (reverse raw)) in
  if decide (pad ≤ 2)%nat
  then foldM decode_piece [] (chunks 4 (take (length raw - pad) raw))
  else None.

Definition pem_to_der (pem : bytes) : option bytes :=
  let body := concat (filter (λ l, ¬ str "-----" `prefix_of` l) (lines pem)) in
  base64_decode (trim body).

(** ** The reference encoder *)

Definition b64_char (d : Z) : byte := default x00 (ALPHABET !! Z.to_nat d).

(** The digits of up to three bytes: [n] of them, of the 24-bit number [z]. *)
Definition b64_digits (n : nat) (z : Z) : bytes :=
  take n [b64_char (z / 2 ^ 18); b64_char (z / 2 ^ 12 mod 64); b64_char (z / 2 ^ 6 mod 64);
          b64_char (z mod 64)].

Fixpoint base64_digits (bs : bytes) : bytes :=
  match bs with
  | [] => []
  | [a] => b64_digits 2 (byte_to_Z a * 2 ^ 16)
  | [a; b] => b64_digits 3 (byte_to_Z a * 2 ^ 16 + byte_to_Z b * 2 ^ 8)
  | a :: b :: c :: bs =>
      b64_digits 4 (byte_to_Z a * 2 ^ 16 + byte_to_Z b * 2 ^ 8 + byte_to_Z c) ++ base64_digits bs
  end.

Definition base64_padding (bs : bytes) : bytes :=
  match (length bs mod 3)%nat with 1%nat => [x3d; x3d] | 2%nat => [x3d] | _ => [] end.
Definition base64_encode (bs : bytes) : bytes := base64_digits bs ++ base64_padding bs.

(** A PEM block: a header, the body broken into lines, a footer. *)
Definition pem_armor (label : bytes) (body : list bytes) : bytes :=
  str "-----BEGIN " ++ label ++ str "-----" ++ [x0a] ++
  (body ≫= (λ l, l ++ [x0a])) ++
  str "-----END " ++ label ++ str "-----" ++ [x0a].

(** ** Decoding what was encoded *)

Lemma list_ind_three {A} (P : list A → Prop) :
  P [] → (∀ a, P [a]) → (∀ a b, P [a; b]) → (∀ a b c l, P l → P (a :: b :: c :: l)) → ∀ l, P l.
Proof.
  intros H0 H1 H2 H3 l. assert (P l ∧ (∀ a, P (a :: l)) ∧ ∀ a b, P (a :: b :: l)) as [? _]; [|done].
  induction l as [|x l (IH0 & IH1 & IH2)]; naive_solver.
Qed.

Lemma chunks_fuel_enough {A} n (l : list A) j k :
  (0 < n)%nat → (length l ≤ j)%nat → (length l ≤ k)%nat → chunks_fuel j n l = chunks_fuel k n l.
Proof.
  intros Hn. revert l j; induction k as [|k IH]; intros [|a l] [|j] Hj Hk;
    cbn [length chunks_fuel] in *; try done; try lia.
  f_equal. apply IH; rewrite length_drop; cbn [length]; lia.
Qed.

Lemma chunks_app {A} (l k : list A) : l ≠ [] → chunks (length l) (l ++ k) = l :: chunks (length l) k.
Proof.
  intros Hl. unfold chunks at 1. destruct l as [|a l]; [done|].
  cbn [length app chunks_fuel]. change (a :: l ++ k) with ((a :: l) ++ k).
  change (S (length l)) with (length (a :: l)). rewrite take_app_length, drop_app_length.
  f_equal. apply chunks_fuel_enough; cbn [length]; rewrite ?length_app; lia.
Qed.

(** A letter of the text: a digit of the alphabet. *)
Definition is_digit (b : byte) : Prop := b ∈ ALPHABET.

Lemma rev_b64_char d : 0 ≤ d < 64 → rev_table (b64_char d) = d ∧ is_digit (b64_char d).
Proof.
  intros Hd. assert (Forall (λ i, rev_table (b64_char (Z.of_nat i)) = Z.of_nat i ∧
    is_digit (b64_char (Z.of_nat i))) (seq 0 64)) as Hall.
  { apply Forall_forall. intros i Hi. apply (bool_decide_unpack _). revert i Hi.
    apply Forall_forall, (bool_decide_unpack _). vm_compute. done. }
  rewrite Forall_forall in Hall. specialize (Hall (Z.to_nat d)).
  rewrite Z2Nat.id in Hall by lia. apply Hall. apply elem_of_seq. lia.
Qed.

Lemma b64_push_digit acc d : 0 ≤ acc < 2 ^ 26 → 0 ≤ d < 64 →
  b64_push acc (b64_char d) = Some (2 ^ 6 * acc + d).
Proof.
  intros Ha Hd. unfold b64_push. destruct (rev_b64_char d Hd) as [-> _].
  rewrite decide_False by lia. f_equal.
  rewrite Z.mod_small by (rewrite Z.shiftl_mul_pow2 by lia; lia).
  apply lor_shiftl; lia.
Qed.

Lemma u32_to_be_eq z : u32_to_be z =
  [byte_of_Z (z / 256 / 256 / 256); byte_of_Z (z / 256 / 256); byte_of_Z (z / 256); byte_of_Z z].
Proof. done. Qed.

(** A piece of [n] digits gives the [n - 1] bytes that they stand for. *)
Lemma decode_piece_digits out n a b c :
  2 ≤ Z.of_nat n ≤ 4 → 0 ≤ a < 256 → 0 ≤ b < 256 → 0 ≤ c < 256 →
  (n = 2%nat → b = 0 ∧ c = 0) → (n = 3%nat → c = 0) →
  decode_piece out (b64_digits n (a * 2 ^ 16 + b * 2 ^ 8 + c)) =
    Some (out ++ take (n - 1) [byte_of_Z a; byte_of_Z b; byte_of_Z c]).
Proof.
  intros Hn Ha Hb Hc H2 H3. set (z := a * 2 ^ 16 + b * 2 ^ 8 + c).
  assert (Hz : 0 ≤ z < 2 ^ 24) by (unfold z; lia).
  assert (0 ≤ z / 2 ^ 18 < 64) by (split; [apply Z.div_pos; lia|apply Z.div_lt_upper_bound; lia]).
  assert (Hm : ∀ x, 0 ≤ x mod 64 < 64) by (intros; apply Z.mod_pos_bound; lia).
  assert (E1 : 2 ^ 6 * (z / 2 ^ 18) + z / 2 ^ 12 mod 64 = z / 2 ^ 12).
  { replace (2 ^ 18) with (2 ^ 12 * 64) by done. rewrite <- Z.div_div by lia.
    symmetry. apply (Z.div_mod _ 64). lia. }
  assert (E2 : 2 ^ 6 * (z / 2 ^ 12) + z / 2 ^ 6 mod 64 = z / 2 ^ 6).
  { replace (2 ^ 12) with (2 ^ 6 * 64) by done. rewrite <- Z.div_div by lia.
    symmetry. apply (Z.div_mod _ 64). lia. }
  assert (E3 : 2 ^ 6 * (z / 2 ^ 6) + z mod 64 = z) by (symmetry; apply (Z.div_mod _ 64); lia).
  assert (0 ≤ z / 2 ^ 12 < 2 ^ 12) by (split; [apply Z.div_pos; lia|apply Z.div_lt_upper_bound; lia]).
  assert (0 ≤ z / 2 ^ 6 < 2 ^ 18) by (split; [apply Z.div_pos; lia|apply Z.div_lt_upper_bound; lia]).
  assert (Hbytes : u32_to_be z = [x00; byte_of_Z a; byte_of_Z b; byte_of_Z c]).
  { rewrite u32_to_be_eq, !Z.div_div by lia.
    assert (z / (256 * (256 * 256)) = 0) as -> by (apply Z.div_small; lia).
    assert (z / (256 * 256) = a) as ->.
    { symmetry. apply (Z.div_unique _ _ _ (b * 2 ^ 8 + c)); unfold z; lia. }
    f_equal. f_equal. f_equal; [|f_equal]; apply byte_to_Z_inj; rewrite !byte_to_of_Z.
    - assert (z / 256 = a * 256 + b) as ->.
      { symmetry. apply (Z.div_unique _ _ _ c); unfold z; lia. }
      rewrite Z.add_comm, Z_mod_plus_full. done.
    - unfold z. replace (a * 2 ^ 16 + b * 2 ^ 8 + c) with (c + (a * 256 + b) * 256) by lia.
      by rewrite Z_mod_plus_full. }
  assert (Hshift : ∀ k, 0 ≤ k → z mod 2 ^ k = 0 → Z.shiftl (z / 2 ^ k) k mod 2 ^ 32 = z).
  { intros k Hk Hmod. rewrite Z.shiftl_mul_pow2 by done.
    assert (z / 2 ^ k * 2 ^ k = z) as ->; [|apply Z.mod_small; lia].
    pose proof (Z.div_mod z (2 ^ k) ltac:(lia)). lia. }
  unfold decode_piece.
  assert (n = 2 ∨ n = 3 ∨ n = 4)%nat as [->|[->| ->]] by lia;
    cbn [b64_digits take length]; rewrite decide_False by done; cbn [foldM];
    unfold mbind, option_bind; rewrite !b64_push_digit by (rewrite ?E1, ?E2; auto; lia);
    unfold mret, option_ret; rewrite Z.mul_0_r, Z.add_0_l, ?E1, ?E2, ?E3; unfold len; cbn [length].
  - destruct H2 as [-> ->]; [done|]. rewrite Hshift; [by rewrite Hbytes|lia..|].
    unfold z. change (2 ^ (6 * (4 - Z.of_nat 2))) with (2 ^ 12).
    replace (a * 2 ^ 16 + 0 * 2 ^ 8 + 0) with (a * 16 * 2 ^ 12) by lia. by rewrite Z.mod_mul.
  - specialize (H3 eq_refl). rewrite Hshift; [by rewrite Hbytes|lia..|].
    unfold z. rewrite H3. change (2 ^ (6 * (4 - Z.of_nat 3))) with (2 ^ 6).
    replace (a * 2 ^ 16 + b * 2 ^ 8 + 0) with ((a * 2 ^ 10 + b * 2 ^ 2) * 2 ^ 6) by lia.
    by rewrite Z.mod_mul.
  - change (6 * (4 - Z.of_nat 4)) with 0. rewrite Z.shiftl_0_r, Z.mod_small by lia. by rewrite Hbytes.
Qed.

Lemma decode_pieces out bs :
  foldM decode_piece out (chunks 4 (base64_digits bs)) = Some (out ++ bs).
Proof.
  revert out; induction bs as [|a|a b|a b c bs IH] using list_ind_three; intros out.
  - cbn. by rewrite app_nil_r.
  - cbn [base64_digits]. pose proof (byte_to_Z_range a).
    replace (byte_to_Z a * 2 ^ 16) with (byte_to_Z a * 2 ^ 16 + 0 * 2 ^ 8 + 0) by lia.
    change (chunks 4 (b64_digits 2 _)) with [b64_digits 2 (byte_to_Z a * 2 ^ 16 + 0 * 2 ^ 8 + 0)].
    cbn [foldM]. unfold mbind, option_bind. rewrite decode_piece_digits by (done || lia).
    cbn [take Nat.sub]. by rewrite byte_of_to_Z.
  - cbn [base64_digits]. pose proof (byte_to_Z_range a). pose proof (byte_to_Z_range b).
    replace (byte_to_Z a * 2 ^ 16 + byte_to_Z b * 2 ^ 8)
      with (byte_to_Z a * 2 ^ 16 + byte_to_Z b * 2 ^ 8 + 0) by lia.
    change (chunks 4 (b64_digits 3 _))
      with [b64_digits 3 (byte_to_Z a * 2 ^ 16 + byte_to_Z b * 2 ^ 8 + 0)].
    cbn [foldM]. unfold mbind, option_bind. rewrite decode_piece_digits by (done || lia).
    cbn [take Nat.sub]. by rewrite !byte_of_to_Z.
  - cbn [base64_digits]. pose proof (byte_to_Z_range a). pose proof (byte_to_Z_range b).
    pose proof (byte_to_Z_range c).
    set (z := byte_to_Z a * 2 ^ 16 + byte_to_Z b * 2 ^ 8 + byte_to_Z c).
    assert (chunks 4 (b64_digits 4 z ++ base64_digits bs) =
      b64_digits 4 z :: chunks 4 (base64_digits bs)) as ->.
    { by apply (chunks_app (b64_digits 4 z)). }
    cbn [foldM]. unfold mbind, option_bind. unfold z. rewrite decode_piece_digits by (done || lia).
    cbn [take Nat.sub]. rewrite !byte_of_to_Z. rewrite IH. f_equal. by rewrite <- app_assoc.
Qed.

(** ** PEM *)

Lemma base64_digits_digits bs : Forall is_digit (base64_digits bs).
Proof.
  assert (Hd : ∀ n z, 0 ≤ z < 2 ^ 24 → Forall is_digit (b64_digits n z)).
  { intros n z Hz. apply Forall_take.
    assert (0 ≤ z / 2 ^ 18 < 64) by (split; [apply Z.div_pos; lia|apply Z.div_lt_upper_bound; lia]).
    assert (∀ x, is_digit (b64_char (x mod 64))) by (intros; apply rev_b64_char, Z.mod_pos_bound; lia).
    rewrite !Forall_cons. split_and!; auto; by apply rev_b64_char. }
  induction bs as [|a|a b|a b c bs IH] using list_ind_three; cbn [base64_digits];
    [constructor|apply Hd|apply Hd|apply Forall_app; split; [apply Hd|done]];
    pose proof (byte_to_Z_range a); try pose proof (byte_to_Z_range b);
    try pose proof (byte_to_Z_range c); lia.
Qed.

(** The text of an encoding: digits and padding. *)
Definition is_text (b : byte) : Prop := b ∈ x3d :: ALPHABET.
#[global] Instance is_text_dec b : Decision (is_text b).
Proof. unfold is_text. apply _. Defined.

Lemma base64_encode_text bs : Forall is_text (base64_encode bs).
Proof.
  apply Forall_app. split.
  - eapply Forall_impl; [apply base64_digits_digits|]. intros b Hb. by right.
  - unfold base64_padding. destruct (_ mod 3)%nat as [|[|[|?]]]; repeat constructor.
Qed.

(** Nothing of it is white space, a dash or the end of a line. *)
Lemma is_text_facts b : is_text b →
  is_ascii_whitespace b = false ∧ b ≠ x2d ∧ b ≠ x0a ∧ b ≠ x0d.
Proof.
  intros Hb.
  assert (negb (is_ascii_whitespace b) && bool_decide (b ∉ [x2d; x0a; x0d]) = true) as Hf.
  { revert b Hb. apply forallb_elem. vm_compute. reflexivity. }
  apply andb_true_iff in Hf as [H1%negb_true_iff H2%bool_decide_eq_true]. set_solver.
Qed.

Lemma is_digit_not_pad b : is_digit b → b ≠ x3d.
Proof.
  intros Hb. apply (bool_decide_eq_true_1 (b ≠ x3d)). revert b Hb.
  apply forallb_elem. vm_compute. reflexivity.
Qed.

Definition foreign (w : bytes) : bool := if w is h :: _ then bool_decide (¬ is_text h) else false.

Lemma white_space_foreign :
  forallb foreign white_space = true ∧ forallb foreign (reverse <$> white_space) = true.
Proof. vm_compute. done. Qed.

Lemma strip_while_text fuel ws s :
  forallb foreign ws = true → Forall is_text s → strip_while fuel ws s = s.
Proof.
  intros Hws Hs. destruct fuel as [|fuel]; [done|]. cbn [strip_while].
  destruct (list_find _ ws) as [[i w]|] eqn:E; [|done]. exfalso.
  apply list_find_Some in E as (Hi & [s' ->] & _). apply list_elem_of_lookup_2 in Hi.
  apply (forallb_elem _ _ Hws) in Hi. destruct w as [|h w]; [done|].
  apply bool_decide_eq_true in Hi. apply Hi. by inversion Hs.
Qed.

Lemma trim_text s : Forall is_text s → trim s = s.
Proof.
  intros Hs. unfold trim, trim_start, trim_end.
  destruct white_space_foreign. rewrite (strip_while_text _ white_space) by done.
  rewrite strip_while_text; [apply reverse_involutive|done|].
  rewrite Forall_forall in *. intros b Hb. apply Hs. by apply elem_of_reverse.
Qed.

(** A byte of no white space survives trimming. *)
Lemma strip_while_elem fuel ws s b : Forall (λ w : bytes, b ∉ w) ws → b ∈ s → b ∈ strip_while fuel ws s.
Proof.
  intros Hws. revert s; induction fuel as [|fuel IH]; intros s Hb; [done|]. cbn [strip_while].
  destruct (list_find _ ws) as [[i w]|] eqn:E; [|done]. apply IH.
  apply list_find_Some in E as (Hi & [s' ->] & _). apply list_elem_of_lookup_2 in Hi.
  rewrite drop_app_length. apply elem_of_app in Hb as [Hb|Hb]; [|done].
  rewrite Forall_forall in Hws. by destruct (Hws w Hi).
Qed.

Lemma trim_elem s b : Forall (λ w : bytes, b ∉ w) white_space → b ∈ s → b ∈ trim s.
Proof.
  intros Hws Hb. unfold trim, trim_end, trim_start. apply elem_of_reverse, strip_while_elem.
  - apply Forall_fmap. eapply Forall_impl; [exact Hws|]. intros w Hw. cbn. by rewrite elem_of_reverse.
  - by apply elem_of_reverse, strip_while_elem.
Qed.

Lemma take_while_app {A} (f : A → bool) l k :
  Forall (λ x, f x = true) l → (∀ x, head k = Some x → f x = false) → take_while f (l ++ k) = l.
Proof.
  intros Hl Hk. induction Hl as [|x l Hx Hl IH]; cbn.
  - destruct k as [|y k]; [done|]. cbn. by rewrite Hk.
  - by rewrite Hx, IH.
Qed.

Lemma base64_decode_encode bs : base64_decode (base64_encode bs) = Some bs.
Proof.
  unfold base64_decode.
  assert (filter (λ b, is_ascii_whitespace b = false) (base64_encode bs) = base64_encode bs) as ->.
  { pose proof (base64_encode_text bs) as Ht. revert Ht. generalize (base64_encode bs) as l.
    induction 1 as [|b l Hb Hl IH]; [done|]. rewrite filter_cons_True by by apply is_text_facts.
    by rewrite IH. }
  assert (take_while (λ b, bool_decide (b = x3d)) (reverse (base64_encode bs)) = base64_padding bs) as ->.
  { unfold base64_encode. rewrite reverse_app.
    assert (reverse (base64_padding bs) = base64_padding bs) as ->
      by (unfold base64_padding; by destruct (_ mod 3)%nat as [|[|[|?]]]).
    apply take_while_app.
    - unfold base64_padding. by destruct (_ mod 3)%nat as [|[|[|?]]]; repeat constructor.
    - intros b Hb. apply bool_decide_eq_false. apply is_digit_not_pad.
      pose proof (base64_digits_digits bs) as Hd. rewrite Forall_forall in Hd. apply Hd.
      rewrite <- elem_of_reverse. by apply head_Some_elem_of. }
  rewrite decide_True by (unfold base64_padding; destruct (_ mod 3)%nat as [|[|[|?]]]; cbn; lia).
  unfold base64_encode. rewrite length_app, Nat.add_sub, take_app_length. apply decode_pieces.
Qed.

(** Lines that end with a newline and contain none are found again. *)
Lemma lines_from_line cur l s : x0a ∉ l →
  lines_from cur (l ++ x0a :: s) = strip_cr (cur ++ l) :: lines_from [] s.
Proof.
  revert cur; induction l as [|b l IH]; intros cur Hl; cbn [app lines_from].
  - by rewrite app_nil_r.
  - rewrite decide_False by (intros ->; apply Hl; by left). rewrite IH by (intros ?; apply Hl; by right).
    by rewrite <- app_assoc.
Qed.

Lemma strip_cr_id l : x0d ∉ l → strip_cr l = l.
Proof.
  intros Hl. unfold strip_cr. destruct (reverse l) as [|b r] eqn:E; [done|].
  assert (b ≠ x0d); [|by destruct b].
  intros ->. apply Hl. apply elem_of_reverse. rewrite E. by left.
Qed.

Lemma lines_body body : Forall (λ l, (x0a ∉ l) ∧ x0d ∉ l) body →
  lines (body ≫= (λ l, l ++ [x0a])) = body.
Proof.
  induction 1 as [|l body [Hn Hr] Hb IH]; [done|]. rewrite bind_cons, <- !app_assoc. cbn [app].
  unfold lines. rewrite lines_from_line by done. cbn [app]. rewrite strip_cr_id by done.
  f_equal. exact IH.
Qed.

(** A PEM block decodes to the bytes it was made from, however its body is
    broken into lines. *)
Theorem pem_to_der_armor label body der :
  x0a ∉ label → x0d ∉ label → concat body = base64_encode der →
  pem_to_der (pem_armor label body) = Some der.
Proof.
  intros Hn Hr Hbody.
  assert (Ht : Forall (Forall is_text) body).
  { apply Forall_concat. rewrite Hbody. apply base64_encode_text. }
  assert (Hl : Forall (λ l, (x0a ∉ l) ∧ x0d ∉ l) body).
  { eapply Forall_impl; [exact Ht|]. intros l Hl. rewrite Forall_forall in Hl.
    split; intros Hin; apply Hl, is_text_facts in Hin; naive_solver. }
  set (hd := str "-----BEGIN " ++ label ++ str "-----").
  set (ft := str "-----END " ++ label ++ str "-----").
  assert (pem_armor label body = (hd :: body ++ [ft]) ≫= (λ l, l ++ [x0a])) as ->.
  { unfold pem_armor, hd, ft. rewrite bind_cons, bind_app, bind_singleton.
    by rewrite <- !app_assoc. }
  unfold pem_to_der. rewrite lines_body.
  - rewrite filter_cons_False, filter_app, (filter_cons_False _ ft), app_nil_r.
    + rewrite list_filter_all', Hbody; [|].
      * rewrite trim_text by apply base64_encode_text. apply base64_decode_encode.
      * intros l Hin [s' ->]. rewrite Forall_forall in Ht. specialize (Ht _ Hin).
        inversion Ht as [|? ? Hd]; subst. by apply is_text_facts in Hd as (_ & ? & _).
    + intros Hp. apply Hp. unfold ft. by eexists.
    + intros Hp. apply Hp. unfold hd. by eexists.
  - assert (Hs : ∀ c, c = x0a ∨ c = x0d → (c ∉ str "-----BEGIN ") ∧ (c ∉ str "-----") ∧ c ∉ str "-----END ").
    { intros c [->| ->]; (split_and!; apply (bool_decide_unpack _); vm_compute; done). }
    destruct (Hs x0a) as (?&?&?); [by left|]. destruct (Hs x0d) as (?&?&?); [by right|].
    constructor; [|apply Forall_app; split; [done|constructor; [|constructor]]];
      unfold hd, ft; rewrite !elem_of_app; naive_solver.
Qed.

Module Examples.

Lemma pem_to_der_armor_witness :
  pem_to_der (pem_armor (str "CERTIFICATE") [str "aGVs"; str "bG8="]) = Some (str "hello").
Proof.
  apply (pem_to_der_armor (str "CERTIFICATE") [str "aGVs"; str "bG8="] (str "hello")).
  - apply (bool_decide_unpack _). vm_compute. done.
  - apply (bool_decide_unpack _). vm_compute. done.
  - vm_compute. reflexivity.
Defined.

(** A piece of one digit, more than two pads and foreign bytes are refused. *)
Example base64_decode_refuses :
  base64_decode (str "aGVsb") = None ∧ base64_decode (str "aG=====") = None ∧
  base64_decode (str "aG-s") = None ∧ base64_decode (str " aG Vs ") = Some (str "hel").
Proof. vm_compute. done. Qed.
End Examples.
