(* ===== verification/Index.v ===== *)
(** * The chunk index record ([busyncr-core/src/index.rs])

    [IndexEntry] and its 16-byte wire value: the layout that the daemon's
    [chunks] table stores and that the [bench-chunking] projections price. *)

From S2P Require Import Prelude.

Definition ChunkId_LEN : Z := 32.

Record IndexEntry := {
  chunk_len : Z;
  refcount : Z;
}.

#[global] Instance IndexEntry_eq_dec : EqDecision IndexEntry.
Proof. solve_decision. Defined.

(** Both fields are [u64]. *)
Definition IndexEntry_wf (e : IndexEntry) : Prop :=
  in_u64 (chunk_len e) ∧ in_u64 (refcount e).

Definition VALUE_SIZE : Z := 16.
Definition WIRE_SIZE : Z := ChunkId_LEN + VALUE_SIZE.

Definition to_wire_value (e : IndexEntry) : array 16 :=
  to_array 16 (u64_to_le (chunk_len e) ++ u64_to_le (refcount e)).

Definition from_wire_value (bs : array 16) : IndexEntry := {|
  chunk_len := le_value (take 8 (vec_to_list bs));
  refcount := le_value (drop 8 (vec_to_list bs));
|}.

Lemma to_wire_value_list e :
  vec_to_list (to_wire_value e) = u64_to_le (chunk_len e) ++ u64_to_le (refcount e).
Proof. apply to_array_list. len_lia. Qed.

Lemma from_to_wire e : IndexEntry_wf e → from_wire_value (to_wire_value e) = e.
Proof.
  intros [Hl Hr]. unfold from_wire_value. rewrite to_wire_value_list.
  rewrite take_app_length', drop_app_length' by len_lia.
  rewrite !u64_from_to_le by done. by destruct e.
Qed.

Lemma to_from_wire bs : to_wire_value (from_wire_value bs) = bs.
Proof.
  unfold to_wire_value, from_wire_value; cbn [chunk_len refcount].
  rewrite !u64_to_from_le by len_lia. rewrite take_drop. apply to_array_vec.
Qed.

Lemma from_wire_wf bs : IndexEntry_wf (from_wire_value bs).
Proof. split; cbn; apply le_value_u64; len_lia. Qed.
#[export] Hint Resolve from_wire_wf : core.

(** The index record codec is a bijection between entries with
    [u64] fields and 16-byte values; a record with its 32-byte key takes
    [WIRE_SIZE] = 48 bytes, the figure the sizing tool multiplies by. *)
Theorem wire_bijection :
  (∀ e, IndexEntry_wf e ↔ ∃ bs, from_wire_value bs = e) ∧
  (∀ e, IndexEntry_wf e → from_wire_value (to_wire_value e) = e) ∧
  (∀ bs, to_wire_value (from_wire_value bs) = bs) ∧
  (∀ e (id : array 32),
    len (vec_to_list id ++ vec_to_list (to_wire_value e)) = WIRE_SIZE) ∧ WIRE_SIZE = 48.
Proof.
  split_and!.
  - intros e; split; [|by intros [bs <-]]. intros He. exists (to_wire_value e).
    by apply from_to_wire.
  - apply from_to_wire.
  - apply to_from_wire.
  - intros. unfold len. by rewrite length_app, !length_vec_to_list.
  - done.
Qed.
