(* ===== verification/Chunking.v ===== *)
(** * Content-defined chunking ([busyncr-core/src/chunking.rs])

    Chunk identities and their hexadecimal form, the validated chunker
    configuration, and the chunkers over FastCDC: in memory and streaming,
    keyed and unkeyed. *)

From S2P Require Import Prelude External Text.

(** ** Chunk identities *)

(** [struct ChunkId([u8; 32])] and [struct ChunkIdKey([u8; 32])]. *)
Abbreviation ChunkId := (array 32).
Abbreviation ChunkIdKey := (array 32).

Inductive ChunkIdParseError :=
  | BadLength (n : Z)
  | BadChar (c : char).

Section identity.
Context `{Blake3Pkg}.

Definition ChunkId_of (content : bytes) : ChunkId := blake3_hash content.
Definition ChunkId_keyed (key : ChunkIdKey) (content : bytes) : ChunkId :=
  blake3_keyed_hash key content.
End identity.

(** [ChunkIdKey::generate]. *)
Definition ChunkIdKey_generate {R} `{CryptoRng R} (rng : R) : ChunkIdKey * R :=
  fill_bytes 32 rng.

(** [Display]: 64 lowercase hexadecimal characters. *)
Definition ChunkId_to_string (id : ChunkId) : bytes := hex_bytes (vec_to_list id).

(** One draw of [chars.next()] in [from_str]'s inner loop. *)
Definition next_digit (value : Z) (chars : list char) :
    result ChunkIdParseError (Z * list char) :=
  match chars with
  | [] => Err (BadLength 64)
  | c :: chars =>
      digit ← ok_or (BadChar c) (to_digit16 c);
      Ok (Z.lor (Z.shiftl value 4 mod 256) digit, chars)
  end.

(** The loop [for byte in &mut bytes]. *)
Fixpoint parse_hex (n : nat) (chars : list char) : result ChunkIdParseError bytes :=
  match n with
  | O => Ok []
  | S n =>
      '(value, chars) ← next_digit 0 chars;
      '(value, chars) ← next_digit value chars;
      rest ← parse_hex n chars;
      Ok (byte_of_Z value :: rest)
  end.

Definition ChunkId_from_str (s : bytes) : result ChunkIdParseError ChunkId :=
  if decide (len (str_chars s) = 64)
  then to_array 32 <$> parse_hex 32 (str_chars s)
  else Err (BadLength (len (str_chars s))).

(** ** Configuration *)

(** Which of the four checks of [ChunkerConfig::new] failed, with the sizes its
    message prints. *)
Inductive ConfigMessage :=
  | MinOutside (min_size : Z)
  | TargetOutside (target_size : Z)
  | MaxOutside (max_size : Z)
  | NotOrdered (min_size target_size max_size : Z).

Inductive ChunkingError :=
  | InvalidConfig (msg : ConfigMessage)
  | Io (kind : string)
  | Internal (msg : string).

Record ChunkerConfig := {
  min_size : Z;
  target_size : Z;
  max_size : Z;
}.

#[global] Instance ChunkerConfig_eq_dec : EqDecision ChunkerConfig.
Proof. solve_decision. Defined.

Section config.
Context `{FastCdcPkg}.

Definition MIN_SIZE_FLOOR : Z := MINIMUM_MIN.
Definition MIN_SIZE_CEILING : Z := MINIMUM_MAX.
Definition TARGET_SIZE_FLOOR : Z := AVERAGE_MIN.
Definition TARGET_SIZE_CEILING : Z := AVERAGE_MAX.
Definition MAX_SIZE_FLOOR : Z := MAXIMUM_MIN.
Definition MAX_SIZE_CEILING : Z := MAXIMUM_MAX.

Definition DEFAULT_TARGET_SIZE : Z := 1024 * 1024.

Definition ChunkerConfig_new (mn target mx : Z) : result ChunkingError ChunkerConfig :=
  if decide (¬ (MIN_SIZE_FLOOR ≤ mn ≤ MIN_SIZE_CEILING)) then Err (InvalidConfig (MinOutside mn))
  else if decide (¬ (TARGET_SIZE_FLOOR ≤ target ≤ TARGET_SIZE_CEILING))
  then Err (InvalidConfig (TargetOutside target))
  else if decide (¬ (MAX_SIZE_FLOOR ≤ mx ≤ MAX_SIZE_CEILING))
  then Err (InvalidConfig (MaxOutside mx))
  else if decide (¬ (mn ≤ target ∧ target ≤ mx))
  then Err (InvalidConfig (NotOrdered mn target mx))
  else Ok {| min_size := mn; target_size := target; max_size := mx |}.

Definition ChunkerConfig_with_target (target : Z) : result ChunkingError ChunkerConfig :=
  ChunkerConfig_new (target / 4) target (u64_saturating_mul target 4).

Definition ChunkerConfig_default : ChunkerConfig := {|
  min_size := DEFAULT_TARGET_SIZE / 4;
  target_size := DEFAULT_TARGET_SIZE;
  max_size := DEFAULT_TARGET_SIZE * 4;
|}.

(** The fields are private: every configuration a chunker sees comes from
    [new] (or is the default, which [new] accepts too). *)
Definition ChunkerConfig_wf (cfg : ChunkerConfig) : Prop :=
  ChunkerConfig_new (min_size cfg) (target_size cfg) (max_size cfg) = Ok cfg.
End config.

(** ** Chunks *)

Record Chunk := {
  Chunk_id : ChunkId;
  Chunk_offset : Z;
  Chunk_data : bytes;
}.

Definition Chunk_len (c : Chunk) : Z := len (Chunk_data c).

(** The state of a [ChunkStream]: what the inner iterator has left. *)
Record ChunkStream := {
  inner : list (result v2020_Error ChunkData);
  id_key : option ChunkIdKey;
}.

Section chunkers.
Context `{Blake3Pkg, FastCdcPkg}.

(** The identity a stream gives a chunk. *)
Definition chunk_id (k : option ChunkIdKey) (content : bytes) : ChunkId :=
  match k with
  | Some key => ChunkId_keyed key content
  | None => ChunkId_of content
  end.

(** [Iterator::next]. *)
Definition ChunkStream_next (s : ChunkStream) :
    option (result ChunkingError Chunk) * ChunkStream :=
  match inner s with
  | [] => (None, s)
  | item :: rest =>
      let s' := {| inner := rest; id_key := id_key s |} in
      match item with
      | Ok cd =>
          (Some (Ok {| Chunk_id := chunk_id (id_key s) (cd_data cd);
                       Chunk_offset := cd_offset cd; Chunk_data := cd_data cd |}), s')
      | Err Empty => (None, s')
      | Err (IoError e) => (Some (Err (Io e)), s')
      | Err (Other msg) => (Some (Err (Internal msg)), s')
      end
  end.

(** The items a [for] loop draws: [next] until it answers [None]. *)
Fixpoint drain (fuel : nat) (s : ChunkStream) : list (result ChunkingError Chunk) :=
  match fuel with
  | O => []
  | S fuel =>
      match ChunkStream_next s with
      | (None, _) => []
      | (Some item, s') => item :: drain fuel s'
      end
  end.
Definition ChunkStream_items (s : ChunkStream) := drain (S (length (inner s))) s.

Definition chunk_reader (source : Source) (cfg : ChunkerConfig) : ChunkStream := {|
  inner := StreamCDC source (min_size cfg) (target_size cfg) (max_size cfg);
  id_key := None;
|}.

Definition chunk_reader_keyed (source : Source) (cfg : ChunkerConfig) (key : ChunkIdKey) :
    ChunkStream := {|
  inner := StreamCDC source (min_size cfg) (target_size cfg) (max_size cfg);
  id_key := Some key;
|}.

Definition chunk_bytes (d : bytes) (cfg : ChunkerConfig) : list Chunk :=
  (λ '(o, l), {| Chunk_id := ChunkId_of (slice d o l); Chunk_offset := o;
                Chunk_data := slice d o l |}) <$>
    FastCDC d (min_size cfg) (target_size cfg) (max_size cfg).

Definition chunk_bytes_keyed (d : bytes) (cfg : ChunkerConfig) (key : ChunkIdKey) :
    list Chunk :=
  (λ '(o, l), {| Chunk_id := ChunkId_keyed key (slice d o l); Chunk_offset := o;
                Chunk_data := slice d o l |}) <$>
    FastCDC d (min_size cfg) (target_size cfg) (max_size cfg).
End chunkers.

(** ** Parsing and printing identities *)

Lemma nibble_lor v d : 0 ≤ v < 16 → 0 ≤ d < 16 →
  Z.lor (Z.shiftl v 4 mod 256) d = 16 * v + d.
Proof.
  intros Hv Hd. rewrite Z.mod_small by (rewrite Z.shiftl_mul_pow2 by lia; lia).
  rewrite lor_shiftl by lia. lia.
Qed.

Lemma next_digit_hex v d chars : 0 ≤ v < 16 → 0 ≤ d < 16 →
  next_digit v (byte_to_Z (hex_digit d) :: chars) = Ok (16 * v + d, chars).
Proof.
  intros. unfold next_digit. rewrite to_digit16_hex_digit by done. cbn.
  by rewrite nibble_lor.
Qed.

Lemma parse_hex_bytes bs :
  parse_hex (length bs) (byte_to_Z <$> hex_bytes bs) = Ok bs.
Proof.
  induction bs as [|b bs IH]; [done|]. rewrite hex_bytes_cons.
  destruct (nibbles b) as [H1 H2].
  change (byte_to_Z <$> hex_byte b ++ hex_bytes bs) with
    (byte_to_Z (hex_digit (byte_to_Z b / 16)) ::
     byte_to_Z (hex_digit (byte_to_Z b mod 16)) :: (byte_to_Z <$> hex_bytes bs)).
  cbn [parse_hex length].
  rewrite next_digit_hex by lia. cbn [mbind result_bind].
  rewrite next_digit_hex by lia. cbn [mbind result_bind].
  rewrite IH. cbn [mbind result_bind].
  replace (16 * (16 * 0 + byte_to_Z b / 16) + byte_to_Z b mod 16) with (byte_to_Z b)
    by (pose proof (Z.div_mod (byte_to_Z b) 16); lia).
  by rewrite byte_of_to_Z.
Qed.

Lemma str_chars_hex bs : str_chars (hex_bytes bs) = byte_to_Z <$> hex_bytes bs.
Proof. unfold str_chars. by rewrite utf8_decode_ascii by apply hex_bytes_ascii. Qed.

(** Every identity survives printing and parsing. *)
Theorem ChunkId_print_parse id : ChunkId_from_str (ChunkId_to_string id) = Ok id.
Proof.
  unfold ChunkId_from_str, ChunkId_to_string. rewrite str_chars_hex.
  rewrite decide_True by len_lia.
  pose proof (parse_hex_bytes (vec_to_list id)) as H.
  rewrite length_vec_to_list in H. rewrite H. cbn. by rewrite to_array_vec.
Qed.

Definition is_hex (c : char) : Prop := is_Some (to_digit16 c).
#[global] Instance is_hex_dec c : Decision (is_hex c).
Proof. unfold is_hex; apply _. Defined.

(** What the digits of a string spell. *)
Fixpoint spells (chars : list char) : bytes :=
  match chars with
  | c1 :: c2 :: chars =>
      byte_of_Z (16 * default 0 (to_digit16 c1) + default 0 (to_digit16 c2)) :: spells chars
  | _ => []
  end.

Lemma parse_hex_spec n chars : length chars = (2 * n)%nat →
  parse_hex n chars =
    match list_find (λ c, ¬ is_hex c) chars with
    | None => Ok (spells chars)
    | Some (_, c) => Err (BadChar c)
    end.
Proof.
  revert chars; induction n as [|n IH]; intros [|c1 [|c2 chars]]; cbn [length]; try lia; [done|].
  intros Hl. cbn [parse_hex list_find spells next_digit].
  destruct (decide (is_hex c1)) as [[d1 E1]|E1].
  2:{ rewrite decide_True by done. apply eq_None_not_Some in E1. by rewrite E1. }
  rewrite (decide_False (P := ¬ is_hex c1)) by (unfold is_hex; rewrite E1; eauto).
  rewrite E1. cbn [ok_or mbind result_bind].
  destruct (decide (is_hex c2)) as [[d2 E2]|E2].
  2:{ rewrite decide_True by done. apply eq_None_not_Some in E2. cbn. by rewrite E2. }
  rewrite (decide_False (P := ¬ is_hex c2)) by (unfold is_hex; rewrite E2; eauto).
  cbn [next_digit]. rewrite E2. cbn [ok_or mbind result_bind default].
  apply to_digit16_range in E1, E2.
  rewrite (nibble_lor 0 d1) by lia. rewrite nibble_lor by lia.
  rewrite IH by lia. destruct (list_find _ chars) as [[i c]|]; cbn; [done|].
  unfold id; cbn. repeat f_equal; lia.
Qed.

(** [from_str] on any string: it accepts exactly 64 hexadecimal characters of
    either case; otherwise it reports the number of characters, or the first
    character that is not a digit. *)
Theorem ChunkId_from_str_spec s :
  ChunkId_from_str s =
    let chars := str_chars s in
    if decide (len chars ≠ 64) then Err (BadLength (len chars)) else
    match list_find (λ c, ¬ is_hex c) chars with
    | Some (_, c) => Err (BadChar c)
    | None => Ok (to_array 32 (spells chars))
    end.
Proof.
  unfold ChunkId_from_str. cbv zeta. destruct (decide (len (str_chars s) = 64)) as [E|E].
  - rewrite (decide_False (P := len (str_chars s) ≠ 64)) by auto.
    rewrite parse_hex_spec by (unfold len in E; lia).
    by destruct (list_find _ _) as [[]|].
  - by rewrite (decide_True (P := len (str_chars s) ≠ 64)).
Qed.

(** ** Configurations *)

Section config_lemmas.
Context `{FastCdcLaws}.

Lemma ChunkerConfig_new_Ok mn target mx cfg :
  ChunkerConfig_new mn target mx = Ok cfg ↔
  64 ≤ mn ≤ 1048576 ∧ 256 ≤ target ≤ 4194304 ∧ 1024 ≤ mx ≤ 16777216 ∧
  mn ≤ target ≤ mx ∧
  cfg = {| min_size := mn; target_size := target; max_size := mx |}.
Proof.
  destruct FastCDC_limits as (E1&E2&E3&E4&E5&E6).
  unfold ChunkerConfig_new, MIN_SIZE_FLOOR, MIN_SIZE_CEILING, TARGET_SIZE_FLOOR,
    TARGET_SIZE_CEILING, MAX_SIZE_FLOOR, MAX_SIZE_CEILING.
  rewrite E1, E2, E3, E4, E5, E6.
  repeat case_decide; split; intros; destruct_and?; try done; try lia.
  - simplify_eq. split_and!; lia || done.
  - by subst.
Qed.

Lemma ChunkerConfig_wf_bounds cfg : ChunkerConfig_wf cfg →
  MINIMUM_MIN ≤ min_size cfg ∧ min_size cfg ≤ target_size cfg ∧
  target_size cfg ≤ max_size cfg ∧ max_size cfg ≤ MAXIMUM_MAX.
Proof.
  destruct FastCDC_limits as (E1&E2&E3&E4&E5&E6).
  intros (?&?&?&?&_)%ChunkerConfig_new_Ok. lia.
Qed.

(** [with_target] accepts exactly the target sizes FastCDC
    supports as an average, derives min = target / 4 and max = target * 4,
    and accepts the documented 1 MiB default. *)
Theorem ChunkerConfig_with_target_spec target :
  in_u64 target →
  (∀ cfg, ChunkerConfig_with_target target = Ok cfg ↔
    TARGET_SIZE_FLOOR ≤ target ≤ TARGET_SIZE_CEILING ∧
    cfg = {| min_size := target / 4; target_size := target; max_size := target * 4 |}) ∧
  ChunkerConfig_with_target DEFAULT_TARGET_SIZE = Ok ChunkerConfig_default.
Proof.
  destruct FastCDC_limits as (E1&E2&E3&E4&E5&E6).
  intros Hr. unfold ChunkerConfig_with_target, TARGET_SIZE_FLOOR, TARGET_SIZE_CEILING.
  rewrite E3, E4. split.
  - intros cfg. rewrite ChunkerConfig_new_Ok. ints.
    assert (target / 4 ≤ target) by (apply Z.div_le_upper_bound; lia).
    split; intros; destruct_and?; subst.
    + split; [done|]. f_equal. lia.
    + split_and!; try lia.
      * apply Z.div_le_lower_bound; lia.
      * apply Z.div_le_upper_bound; lia.
      * f_equal. lia.
  - by apply ChunkerConfig_new_Ok.
Qed.
End config_lemmas.

(** ** Chunks *)

Lemma slice_app_drop d o l : 0 ≤ o → 0 ≤ l →
  slice d o l ++ drop (Z.to_nat (o + l)) d = drop (Z.to_nat o) d.
Proof.
  intros. unfold slice. rewrite Z2Nat.inj_add by lia.
  rewrite <- (drop_drop d). apply take_drop.
Qed.

Lemma tiles_le off total cuts : tiles off total cuts → off ≤ total.
Proof.
  revert off; induction cuts as [|[o l] cuts IH]; intros off; cbn; [lia|].
  intros (-> & Hl & H%IH). lia.
Qed.

Lemma length_slice d o l : 0 ≤ o → 0 ≤ l → o + l ≤ len d → len (slice d o l) = l.
Proof. unfold slice, len. intros. rewrite length_take, length_drop. lia. Qed.

(** The slices of a tiling, in order, with what each one's offset is. *)
Lemma tiles_slices off d cuts : 0 ≤ off → tiles off (len d) cuts →
  mjoin ((λ '(o, l), slice d o l) <$> cuts) = drop (Z.to_nat off) d ∧
  ∀ i o l, cuts !! i = Some (o, l) →
    o = off + len (mjoin ((λ '(o, l), slice d o l) <$> take i cuts)) ∧
    0 < l ∧ len (slice d o l) = l.
Proof.
  revert off; induction cuts as [|[o l] cuts IH]; intros off Hoff Ht; cbn in Ht.
  - split; [|done]. cbn. symmetry. apply drop_ge. unfold len in *. lia.
  - destruct Ht as (-> & Hl & Ht). pose proof (tiles_le _ _ _ Ht) as Hle.
    destruct (IH (off + l)) as [IH1 IH2]; [lia|done|]. split.
    + csimpl. rewrite IH1. apply slice_app_drop; lia.
    + intros [|i] o l' Hi; cbn in Hi.
      * simplify_eq. cbn [take fmap list_fmap mjoin list_join]. unfold len at 1. cbn [length].
        split_and!; [lia|lia|]. apply length_slice; lia.
      * destruct (IH2 i o l' Hi) as (-> & Hl' & Hs). split_and!; [|done|done].
        csimpl. unfold len in *. rewrite length_app, Nat2Z.inj_add.
        fold (len (slice d off l)). rewrite length_slice by (unfold len; lia). lia.
Qed.

Section chunk_lemmas.
Context `{Blake3Pkg, FastCdcLaws}.

(** The four chunkers differ only in the identity they attach. *)
Lemma chunk_bytes_keyed_eq d cfg key :
  chunk_bytes_keyed d cfg key =
    (λ c, {| Chunk_id := ChunkId_keyed key (Chunk_data c);
             Chunk_offset := Chunk_offset c; Chunk_data := Chunk_data c |}) <$>
      chunk_bytes d cfg.
Proof.
  unfold chunk_bytes, chunk_bytes_keyed. rewrite <- list_fmap_compose.
  by apply list_fmap_ext; intros ? [o l] _.
Qed.

Lemma chunk_bytes_data d cfg :
  Chunk_data <$> chunk_bytes d cfg =
    (λ '(o, l), slice d o l) <$> FastCDC d (min_size cfg) (target_size cfg) (max_size cfg).
Proof.
  unfold chunk_bytes. rewrite <- list_fmap_compose.
  by apply list_fmap_ext; intros ? [o l] _.
Qed.

(** The chunks of a buffer are its bytes, cut: joined in order
    they give the buffer back, each one's offset is the length of what
    precedes it, its identity is the hash of its bytes, no chunk is empty or
    longer than [max_size], and only the last may be shorter than [min_size].
    The keyed chunker cuts at the same places. *)
Theorem chunk_bytes_partition d cfg (key : ChunkIdKey) :
  ChunkerConfig_wf cfg →
  mjoin (Chunk_data <$> chunk_bytes d cfg) = d ∧
  (∀ i c, chunk_bytes d cfg !! i = Some c →
    Chunk_offset c = len (mjoin (Chunk_data <$> take i (chunk_bytes d cfg))) ∧
    Chunk_id c = ChunkId_of (Chunk_data c) ∧
    0 < Chunk_len c ≤ max_size cfg ∧
    ((S i < length (chunk_bytes d cfg))%nat → min_size cfg ≤ Chunk_len c)) ∧
  Chunk_data <$> chunk_bytes_keyed d cfg key = Chunk_data <$> chunk_bytes d cfg ∧
  Chunk_offset <$> chunk_bytes_keyed d cfg key = Chunk_offset <$> chunk_bytes d cfg ∧
  Forall (λ c, Chunk_id c = ChunkId_keyed key (Chunk_data c)) (chunk_bytes_keyed d cfg key).
Proof.
  intros Hwf. destruct (ChunkerConfig_wf_bounds _ Hwf) as (Hmin&Hmt&Htm&_).
  pose proof (FastCDC_tiles d _ _ _ Hmin Hmt Htm) as Ht.
  destruct (tiles_slices 0 d _ (Z.le_refl 0) Ht) as [Hcat Hcut].
  split_and!.
  - rewrite chunk_bytes_data. apply Hcat.
  - intros i c Hi. rewrite fmap_take, chunk_bytes_data, <- fmap_take.
    unfold chunk_bytes in Hi. apply list_lookup_fmap_Some in Hi as ([o l] & -> & Hi).
    destruct (Hcut i o l Hi) as (Ho & Hl & Hs). cbn.
    unfold Chunk_len; cbn. rewrite Hs. split_and!; [done|done|lia| |].
    + eapply FastCDC_max; [done..|]. by eapply list_elem_of_lookup_2.
    + unfold chunk_bytes. rewrite length_fmap. intros Hlt.
      eapply FastCDC_min; [done..| |].
      * symmetry. by apply take_drop_middle.
      * intros E%(f_equal length). rewrite length_drop in E. cbn in E. lia.
  - rewrite chunk_bytes_keyed_eq, <- list_fmap_compose. done.
  - rewrite chunk_bytes_keyed_eq, <- list_fmap_compose. done.
  - rewrite chunk_bytes_keyed_eq. apply Forall_fmap. by apply Forall_true.
Qed.

(** A stream ends at the first end-of-stream item; before it, every item is
    passed on. *)
Lemma ChunkStream_items_eq s :
  ChunkStream_items s =
    match inner s with
    | [] | Err Empty :: _ => []
    | item :: rest =>
        (match item with
         | Ok cd => Ok {| Chunk_id := chunk_id (id_key s) (cd_data cd);
                          Chunk_offset := cd_offset cd; Chunk_data := cd_data cd |}
         | Err (IoError e) => Err (Io e)
         | Err (Other msg) => Err (Internal msg)
         | Err Empty => Err (Internal "")
         end) :: ChunkStream_items {| inner := rest; id_key := id_key s |}
    end.
Proof.
  destruct s as [[|[cd|[]] rest] k]; done.
Qed.

Lemma ChunkStream_items_Ok cds k :
  ChunkStream_items {| inner := Ok <$> cds; id_key := k |} =
    (λ cd, Ok {| Chunk_id := chunk_id k (cd_data cd);
                 Chunk_offset := cd_offset cd; Chunk_data := cd_data cd |}) <$> cds.
Proof.
  induction cds as [|cd cds IH]; [done|].
  rewrite ChunkStream_items_eq. cbn [inner id_key fmap list_fmap]. f_equal. apply IH.
Qed.

(** Every chunk carries the keyed hash of its bytes, which are not empty; together
    they are the buffer. *)
Lemma chunk_bytes_keyed_spec d cfg key :
  ChunkerConfig_wf cfg →
  mjoin (Chunk_data <$> chunk_bytes_keyed d cfg key) = d ∧
  Forall (λ c, Chunk_id c = ChunkId_keyed key (Chunk_data c) ∧ 0 < Chunk_len c ≤ max_size cfg)
    (chunk_bytes_keyed d cfg key).
Proof.
  intros Hwf. destruct (ChunkerConfig_wf_bounds _ Hwf) as (Hmin&Hmt&Htm&_).
  pose proof (FastCDC_tiles d _ _ _ Hmin Hmt Htm) as Ht.
  destruct (tiles_slices 0 d _ (Z.le_refl 0) Ht) as [Hcat Hcut]. split.
  - rewrite chunk_bytes_keyed_eq, <- list_fmap_compose.
    transitivity (mjoin (Chunk_data <$> chunk_bytes d cfg)); [done|]. by rewrite chunk_bytes_data.
  - unfold chunk_bytes_keyed. apply Forall_fmap, Forall_lookup. intros i [o l] Hi. cbn.
    destruct (Hcut i o l Hi) as (_ & Hl & Hs). split; [done|]. unfold Chunk_len; cbn. rewrite Hs.
    split; [done|]. eapply FastCDC_max; [done..|]. by eapply list_elem_of_lookup_2.
Qed.

(** A clean source, streamed. *)
Lemma clean_stream (f : bytes → ChunkId) cds k d :
  (∀ x, chunk_id k x = f x) →
  ChunkStream_items {| inner := (λ '(o, l), Ok {| cd_offset := o; cd_data := slice d o l |}) <$> cds;
                       id_key := k |} =
    Ok <$> ((λ '(o, l), {| Chunk_id := f (slice d o l); Chunk_offset := o;
                           Chunk_data := slice d o l |}) <$> cds).
Proof.
  intros Hf. induction cds as [|[o l] cds IH]; [done|].
  rewrite ChunkStream_items_eq. cbn [inner id_key fmap list_fmap cd_offset cd_data]. rewrite Hf.
  f_equal. apply IH.
Qed.

Lemma chunk_reader_keyed_items d cfg key :
  ChunkStream_items (chunk_reader_keyed {| src_data := d; src_error := None |} cfg key) =
    Ok <$> chunk_bytes_keyed d cfg key.
Proof.
  unfold chunk_reader_keyed, chunk_bytes_keyed. rewrite StreamCDC_clean.
  by apply clean_stream.
Qed.

(** Streaming a source that ends cleanly gives the chunks of its
    bytes, in order, with the identity of the chosen kind; and a stream whose
    source fails midway passes the chunks before the failure and then the
    failure. *)
Theorem chunk_reader_eq d cfg key :
  ChunkStream_items (chunk_reader {| src_data := d; src_error := None |} cfg) =
    Ok <$> chunk_bytes d cfg ∧
  ChunkStream_items (chunk_reader_keyed {| src_data := d; src_error := None |} cfg key) =
    Ok <$> chunk_bytes_keyed d cfg key ∧
  (∀ cds e k, ChunkStream_items {| inner := (Ok <$> cds) ++ [Err (IoError e)]; id_key := k |} =
    ChunkStream_items {| inner := Ok <$> cds; id_key := k |} ++ [Err (Io e)]).
Proof.
  split_and!.
  - unfold chunk_reader, chunk_bytes. rewrite StreamCDC_clean. by apply clean_stream.
  - apply chunk_reader_keyed_items.
  - intros cds e k. induction cds as [|cd cds IH]; [done|].
    change ((Ok <$> cd :: cds) ++ [Err (IoError e)]) with
      (Ok cd :: ((Ok <$> cds) ++ [@Err v2020_Error ChunkData (IoError e)])).
    rewrite ChunkStream_items_eq. cbn [inner id_key]. rewrite IH.
    by rewrite !ChunkStream_items_Ok.
Qed.
End chunk_lemmas.


(** ** Examples *)

Module Examples.
Import Reference.

Definition small : ChunkerConfig := {| min_size := 64; target_size := 256; max_size := 1024 |}.
Definition data : bytes := replicate 600 x07.

Lemma ChunkerConfig_with_target_spec_witness :
  ChunkerConfig_with_target DEFAULT_TARGET_SIZE = Ok ChunkerConfig_default ∧
  ChunkerConfig_with_target 100 = Err (InvalidConfig (MinOutside 25)).
Proof.
  split; [|vm_compute; reflexivity].
  refine (proj2 (ChunkerConfig_with_target_spec 512 _)). evaluate.
Defined.

Lemma chunk_bytes_partition_witness :
  Chunk_len <$> chunk_bytes data small = [256; 256; 88] ∧
  mjoin (Chunk_data <$> chunk_bytes data small) = data.
Proof.
  split; [vm_compute; reflexivity|].
  refine (proj1 (chunk_bytes_partition data small (vreplicate 32 x01) _)).
  vm_compute; reflexivity.
Defined.

Lemma chunk_reader_eq_witness :
  ChunkStream_items (chunk_reader {| src_data := data; src_error := None |} small) =
    Ok <$> chunk_bytes data small.
Proof. exact (proj1 (chunk_reader_eq data small (vreplicate 32 x01))). Defined.
End Examples.
