(* ===== verification/FanOut.v ===== *)
(** * One read, many chunkers ([busyncr-core/src/bench.rs], [fan_out_chunks])

    The benchmark reads a file once and broadcasts its blocks over bounded channels
    to one chunker thread per candidate size.  [fan_out_chunks] is what the call
    returns; [fan_step] is how the threads interleave, and every interleaving ends,
    without a deadlock, with that result. *)

From S2P Require Import Prelude External Text Chunking.

(** Identity and length of a chunk. *)
Record ChunkMeta := { meta_id : ChunkId; meta_len : Z }.

#[global] Instance ChunkMeta_eq_dec : EqDecision ChunkMeta.
Proof. solve_decision. Defined.

Record FanOut := { fan_per_candidate : list (list ChunkMeta); bytes_read : Z }.

Definition FAN_OUT_BLOCK_SIZE : Z := 256 * 1024.
Definition FAN_OUT_CHANNEL_DEPTH : nat := 4.

(** ** A channel as a [Read] *)

(** [rx]: the blocks that [recv] will return before the sender is dropped. *)
Record ChannelReader := { rx : list bytes; current : option bytes; pos : nat }.

(** The loop of [read] into a buffer of [n > 0] bytes. *)
Fixpoint recv_read (n : nat) (rx : list bytes) : bytes * ChannelReader :=
  match rx with
  | [] => ([], {| rx := []; current := None; pos := 0 |})
  | block :: rx =>
      if decide (0 < length block)%nat then
        let k := Nat.min n (length block) in
        (take k block, {| rx := rx; current := Some block; pos := k |})
      else recv_read n rx
  end.

Definition ChannelReader_read (n : nat) (r : ChannelReader) : bytes * ChannelReader :=
  if decide (n = 0%nat) then ([], r)
  else
    match current r with
    | Some cur =>
        if decide (pos r < length cur)%nat then
          let k := Nat.min n (length cur - pos r) in
          (take k (drop (pos r) cur), {| rx := rx r; current := Some cur; pos := pos r + k |})
        else recv_read n (rx r)
    | None => recv_read n (rx r)
    end.

(** What is still to be read. *)
Definition unread (r : ChannelReader) : bytes :=
  match current r with Some cur => drop (pos r) cur | None => [] end ++ mjoin (rx r).

Lemma recv_read_spec n rx : (0 < n)%nat →
  let '(out, r) := recv_read n rx in
  mjoin rx = out ++ unread r ∧ (length out ≤ n)%nat ∧ (out = [] → mjoin rx = []).
Proof.
  intros Hn. induction rx as [|block rx IH]; cbn [recv_read]; [by split_and!; [..|cbn; lia|]|].
  destruct (decide (0 < length block)%nat) as [Hb|Hb].
  - change (mjoin (block :: rx)) with (block ++ mjoin rx). unfold unread. cbn [current pos FanOut.rx].
    rewrite app_assoc, take_drop. split; [done|]. rewrite length_take. split; [lia|].
    intros Hout. apply (f_equal length) in Hout. rewrite length_take in Hout. cbn in Hout. lia.
  - destruct block; [|cbn in Hb; lia]. exact IH.
Qed.

(** A read returns the next bytes, as many as fit the buffer at most, and nothing
    only at the end. *)
Lemma ChannelReader_read_spec n r : (0 < n)%nat →
  let '(out, r') := ChannelReader_read n r in
  unread r = out ++ unread r' ∧ (length out ≤ n)%nat ∧ (out = [] ↔ unread r = []).
Proof.
  intros Hn. unfold ChannelReader_read. rewrite decide_False by lia.
  assert (∀ x, match current r with Some cur => drop (pos r) cur | None => [] end = [] → recv_read n (rx r) = x →
    unread r = x.1 ++ unread x.2 ∧ (length x.1 ≤ n)%nat ∧ (x.1 = [] ↔ unread r = [])) as Hrecv.
  { intros x Hcur <-. pose proof (recv_read_spec n (rx r) Hn) as Hs. destruct (recv_read n (rx r)) as [out r'].
    destruct Hs as (Hj & Hl & He). cbn [fst snd]. unfold unread at 1 3. rewrite Hcur. split_and!; [done..|].
    split; [done|]. rewrite app_nil_l, Hj. by intros [-> _]%app_nil. }
  destruct (current r) as [cur|] eqn:Ec; [destruct (decide (pos r < length cur)%nat) as [Hp|Hp]|].
  - unfold unread at 1 2 3. rewrite Ec. cbn [current pos FanOut.rx]. rewrite app_assoc.
    rewrite <- drop_drop, take_drop. split; [done|]. rewrite length_take, length_drop. split; [lia|].
    split; intros Ho; apply (f_equal length) in Ho; revert Ho; rewrite ?length_app, ?length_take, ?length_drop; cbn; lia.
  - destruct (recv_read n (rx r)) as [out r'] eqn:Er. apply (Hrecv (out, r')); [apply drop_ge; lia|done].
  - destruct (recv_read n (rx r)) as [out r'] eqn:Er. by apply (Hrecv (out, r')).
Qed.

(** ** The call *)

Section fan_out.
Context `{Blake3Pkg, FastCdcPkg}.

(** What the thread of a chunker returns, given the bytes it reads. *)
Definition worker (received : bytes) (cfg : ChunkerConfig) : result ChunkingError (list ChunkMeta) :=
  mapM (λ res, c ← res; Ok {| meta_id := Chunk_id c; meta_len := Chunk_len c |})
    (ChunkStream_items (chunk_reader {| src_data := received; src_error := None |} cfg)).

(** The joins: the chunks of every thread, and the first error. *)
Definition join_worker (acc : list (list ChunkMeta) * option ChunkingError)
    (joined : result ChunkingError (list ChunkMeta)) : list (list ChunkMeta) * option ChunkingError :=
  let '(per_candidate, worker_err) := acc in
  match joined with
  | Ok chunks => (per_candidate ++ [chunks], worker_err)
  | Err e => (per_candidate ++ [[]], match worker_err with None => Some e | Some _ => worker_err end)
  end.

Definition finish (read_err : option string) (bytes_read : Z)
    (joined : list (result ChunkingError (list ChunkMeta))) : result ChunkingError FanOut :=
  let '(per_candidate, worker_err) := foldl join_worker ([], None) joined in
  match read_err, worker_err with
  | Some e, _ => Err (Io e)
  | None, Some e => Err e
  | None, None => Ok {| fan_per_candidate := per_candidate; bytes_read := bytes_read |}
  end.

(** The count of bytes, block after block, is a [u64]. *)
Definition fan_out_chunks (source : Source) (configs : list ChunkerConfig) : result ChunkingError FanOut :=
  match configs with
  | [] =>
      match src_error source with
      | None => Ok {| fan_per_candidate := []; bytes_read := len (src_data source) mod 2 ^ 64 |}
      | Some e => Err (Io e)
      end
  | _ => finish (src_error source) (len (src_data source) mod 2 ^ 64) (worker (src_data source) <$> configs)
  end.

(** ** The threads *)

(** A chunker's channel, and the blocks that its thread has taken out of it. *)
Record Chan := { queue : list bytes; got : list bytes }.

(** The calling thread: at [source.read], in its loop over the senders, or past
    [drop(senders)]. *)
Inductive Producer :=
  | Reading
  | Sending (block : bytes) (next : nat)
  | Closed.

(** [blocks]: what the following reads will return, up to the end of the source
    or to its error. *)
Record Net := { blocks : list bytes; producer : Producer; chans : list Chan; total : Z }.

Definition set_chan (i : nat) (c : Chan) (n : Net) : Net :=
  {| blocks := blocks n; producer := producer n; chans := <[i := c]> (chans n); total := total n |}.
Definition set_producer (p : Producer) (n : Net) : Net :=
  {| blocks := blocks n; producer := p; chans := chans n; total := total n |}.

Inductive fan_step : Net → Net → Prop :=
  | step_read n block rest :
      producer n = Reading → blocks n = block :: rest →
      fan_step n {| blocks := rest; producer := Sending block 0; chans := chans n;
                    total := u64_add (total n) (len block) |}
  | step_end n :
      producer n = Reading → blocks n = [] → fan_step n (set_producer Closed n)
  | step_send n block i c :
      producer n = Sending block i → chans n !! i = Some c →
      (length (queue c) < FAN_OUT_CHANNEL_DEPTH)%nat →
      fan_step n (set_chan i {| queue := queue c ++ [block]; got := got c |}
                    (set_producer (Sending block (S i)) n))
  | step_sent n block i :
      producer n = Sending block i → chans n !! i = None → fan_step n (set_producer Reading n)
  | step_recv n i c block q :
      chans n !! i = Some c → queue c = block :: q →
      fan_step n (set_chan i {| queue := q; got := got c ++ [block] |} n).

Definition fan_start (blocks : list bytes) (k : nat) : Net :=
  {| blocks := blocks; producer := Reading; chans := replicate k {| queue := []; got := [] |}; total := 0 |}.

(** No thread can go on. *)
Definition stuck (n : Net) : Prop := ∀ n', ¬ fan_step n n'.

(** What the call returns once the threads have been joined. *)
Definition fan_result (read_err : option string) (configs : list ChunkerConfig) (n : Net) : result ChunkingError FanOut :=
  finish read_err (total n) (zip_with (λ c cfg, worker (mjoin (got c)) cfg) (chans n) configs).
End fan_out.

(** ** Every interleaving *)

(** What is on its way to channel [i]. *)
Definition in_flight (n : Net) (i : nat) : list bytes :=
  match producer n with Sending block j => if decide (j ≤ i)%nat then [block] else [] | _ => [] end ++ blocks n.

Record fan_inv (src : bytes) (k : nat) (n : Net) : Prop := {
  inv_chans : length (chans n) = k;
  inv_streams i c : chans n !! i = Some c → mjoin (got c ++ queue c ++ in_flight n i) = src;
  inv_bounded i c : chans n !! i = Some c → (length (queue c) ≤ FAN_OUT_CHANNEL_DEPTH)%nat;
  inv_total : total n = (len src - len (mjoin (blocks n))) mod 2 ^ 64;
  inv_closed : producer n = Closed → blocks n = [];
}.

Lemma fan_inv_start blocks k : fan_inv (mjoin blocks) k (fan_start blocks k).
Proof.
  split; cbn [fan_start chans producer total FanOut.blocks].
  - by rewrite length_replicate.
  - intros i c [-> _]%lookup_replicate. done.
  - intros i c [-> _]%lookup_replicate. cbn. lia.
  - by rewrite Z.sub_diag.
  - done.
Qed.

Lemma fan_inv_step src k n n' : fan_inv src k n → fan_step n n' → fan_inv src k n'.
Proof.
  intros [Hk Hs Hb Ht Hc] Hstep. unfold in_flight in Hs.
  destruct Hstep as [n block rest Hp Hbl|n Hp Hbl|n block i c Hp Hi Hq|n block i Hp Hi|n i c block q Hi Hq];
    split; unfold in_flight in *; cbn [set_chan set_producer chans producer blocks total] in *;
    rewrite ?length_insert; try done.
  - intros j c Hj. specialize (Hs j c Hj). rewrite Hp, Hbl in Hs. by rewrite decide_True by lia.
  - unfold u64_add. rewrite Ht, Hbl, Zplus_mod_idemp_l. f_equal.
    change (mjoin (block :: rest)) with (block ++ mjoin rest). unfold len. rewrite length_app. lia.
  - intros j c Hj. specialize (Hs j c Hj). by rewrite Hp in Hs.
  - intros j c' [(-> & <- & _)|[Hne Hj]]%list_lookup_insert_Some; cbn [got queue].
    + specialize (Hs j c Hi). rewrite Hp, decide_True in Hs by lia. rewrite decide_False by lia.
      by rewrite <- (assoc_L (++)).
    + specialize (Hs j c' Hj). rewrite Hp in Hs. rewrite <- Hs.
      destruct (decide (i ≤ j)%nat); [rewrite decide_True by lia|rewrite decide_False by lia]; done.
  - intros j c' [(-> & <- & _)|[Hne Hj]]%list_lookup_insert_Some; cbn [queue]; [|by eapply Hb].
    rewrite length_app. cbn [length]. lia.
  - intros j c Hj. specialize (Hs j c Hj). rewrite Hp in Hs. apply lookup_ge_None in Hi.
    rewrite decide_False in Hs; [done|]. apply lookup_lt_Some in Hj. lia.
  - intros j c' [(-> & <- & _)|[Hne Hj]]%list_lookup_insert_Some; cbn [got queue]; [|by eapply Hs].
    specialize (Hs j c Hi). rewrite Hq in Hs. by rewrite <- (assoc_L (++)).
  - intros j c' [(-> & <- & _)|[Hne Hj]]%list_lookup_insert_Some; cbn [queue]; [|by eapply Hb].
    specialize (Hb j c Hi). rewrite Hq in Hb. cbn [length] in Hb. lia.
Qed.

(** There is no deadlock: when no thread can go on, the source is read to its end
    and every channel is empty. *)
Lemma stuck_done src k n : fan_inv src k n → stuck n →
  producer n = Closed ∧ blocks n = [] ∧ ∀ i c, chans n !! i = Some c → mjoin (got c) = src.
Proof.
  intros [Hk Hs Hb Ht Hc] Hstuck.
  assert (∀ i c, chans n !! i = Some c → queue c = []) as Hempty.
  { intros i c Hi. destruct (queue c) as [|block q] eqn:Hq; [done|]. by destruct (Hstuck _ (step_recv n i c block q Hi Hq)). }
  assert (producer n = Closed) as Hp.
  { destruct (producer n) as [|block i|] eqn:Hp; [| |done].
    - destruct (blocks n) as [|block rest] eqn:Hbl.
      + by destruct (Hstuck _ (step_end n Hp Hbl)).
      + by destruct (Hstuck _ (step_read n block rest Hp Hbl)).
    - destruct (chans n !! i) as [c|] eqn:Hi.
      + destruct (Hstuck _ (step_send n block i c Hp Hi ltac:(rewrite (Hempty _ _ Hi); cbn; unfold FAN_OUT_CHANNEL_DEPTH; lia))).
      + by destruct (Hstuck _ (step_sent n block i Hp Hi)). }
  split_and!; [done|by apply Hc|]. intros i c Hi. specialize (Hs i c Hi). unfold in_flight in Hs.
  by rewrite Hp, (Hc Hp), (Hempty _ _ Hi), !app_nil_r in Hs.
Qed.

(** ** They all end *)

(** Steps left: for each block a read, a send and a receive per channel, and the end
    of the loop over the senders. *)
Definition producer_work (k : nat) (p : Producer) : nat :=
  match p with Reading => 1 | Sending _ i => 2 * (k - i) + 2 | Closed => 0 end.
Definition queued (l : list Chan) : nat := sum_list ((λ c, length (queue c)) <$> l).
Definition work (n : Net) : nat :=
  (length (blocks n) * (2 * length (chans n) + 3) + producer_work (length (chans n)) (producer n) + queued (chans n))%nat.

Lemma queued_insert l i c c' : l !! i = Some c →
  (queued (<[i := c']> l) + length (queue c) = queued l + length (queue c'))%nat.
Proof.
  assert (∀ x l, queued (x :: l) = length (queue x) + queued l)%nat as Hcons by done.
  revert i. induction l as [|x l IH]; intros [|i] Hi; [done|done| |].
  - injection Hi as <-. change (<[0%nat := c']> (x :: l)) with (c' :: l). rewrite !Hcons. lia.
  - specialize (IH i Hi). change (<[S i := c']> (x :: l)) with (x :: <[i := c']> l). rewrite !Hcons. lia.
Qed.

Lemma fan_step_work n n' : fan_step n n' → (work n' < work n)%nat.
Proof.
  intros Hstep. unfold work.
  destruct Hstep as [n block rest Hp Hbl|n Hp Hbl|n block i c Hp Hi Hq|n block i Hp Hi|n i c block q Hi Hq];
    cbn [set_chan set_producer chans producer blocks]; rewrite ?length_insert.
  - rewrite Hp, Hbl. cbn [producer_work length]. lia.
  - rewrite Hp. cbn [producer_work]. lia.
  - pose proof (queued_insert _ i c {| queue := queue c ++ [block]; got := got c |} Hi) as Hqi.
    apply lookup_lt_Some in Hi. rewrite Hp. cbn [producer_work queue] in *. rewrite length_app in Hqi. cbn [length] in Hqi. lia.
  - apply lookup_ge_None in Hi. rewrite Hp. cbn [producer_work]. lia.
  - pose proof (queued_insert _ i c {| queue := q; got := got c ++ [block] |} Hi) as Hqi.
    cbn [queue] in Hqi. rewrite Hq in Hqi. cbn [length] in Hqi. lia.
Qed.

Lemma fan_inv_steps src k n n' j : fan_inv src k n → nsteps fan_step j n n' →
  fan_inv src k n' ∧ (j + work n' ≤ work n)%nat.
Proof.
  intros Hi Hj. revert Hi. induction Hj as [n|j n n1 n2 Hstep _ IH]; intros Hi; [by split|].
  pose proof (fan_step_work _ _ Hstep). destruct (IH (fan_inv_step _ _ _ _ Hi Hstep)). split; [done|lia].
Qed.

Lemma work_start blocks k : work (fan_start blocks k) = (length blocks * (2 * k + 3) + 1)%nat.
Proof.
  unfold work, fan_start. cbn [FanOut.blocks chans producer producer_work]. rewrite length_replicate.
  assert (queued (replicate k {| queue := []; got := [] |}) = 0%nat) as ->; [|lia].
  induction k as [|k IH]; [done|exact IH].
Qed.

Lemma stuck_or_step n : stuck n ∨ ∃ n', fan_step n n'.
Proof.
  destruct (decide (Exists (λ c, queue c ≠ []) (chans n))) as [He|He].
  { apply Exists_exists in He as (c & Hin & Hne). apply list_elem_of_lookup_1 in Hin as [i Hi].
    destruct (queue c) as [|block q] eqn:Hq; [done|]. right. eexists. by eapply step_recv. }
  assert (∀ i c, chans n !! i = Some c → queue c = []) as Hempty.
  { intros i c Hi. apply dec_stable. intros Hne. apply He, Exists_exists. exists c. split; [|done].
    by eapply list_elem_of_lookup_2. }
  destruct (producer n) as [|block i|] eqn:Hp.
  - right. destruct (blocks n) eqn:Hbl; eexists; [by apply step_end|by eapply step_read].
  - right. destruct (chans n !! i) as [c|] eqn:Hi; eexists; [|by eapply step_sent].
    eapply step_send; [done..|]. rewrite (Hempty _ _ Hi). cbn. unfold FAN_OUT_CHANNEL_DEPTH. lia.
  - left. intros n' Hstep. destruct Hstep; try congruence. by rewrite (Hempty i c) in *.
Qed.

Section result.
Context `{Blake3Pkg, FastCdcPkg}.

Lemma zip_workers src (l : list Chan) (configs : list ChunkerConfig) :
  length l = length configs → (∀ i c, l !! i = Some c → mjoin (got c) = src) →
  zip_with (λ c cfg, worker (mjoin (got c)) cfg) l configs = worker src <$> configs.
Proof.
  revert configs. induction l as [|c l IH]; intros [|cfg configs]; [done..|]. cbn [length zip_with fmap list_fmap].
  intros [= Hl] Hg. rewrite (Hg 0%nat c eq_refl), IH; [done..|]. intros i c' Hi. by apply (Hg (S i)).
Qed.

(** C16. However the threads interleave and whatever sizes the reads return, the
    broadcast ends: after at most [2k + 3] steps per block, for [k] candidates, and
    one more, no thread can go on, and then each chunker has read exactly the bytes
    of the source and the call returns what running each chunker alone over the
    source gives. *)
Theorem fan_out_every_interleaving (source : Source) (configs : list ChunkerConfig) (blocks : list bytes) j n :
  configs ≠ [] → mjoin blocks = src_data source →
  nsteps fan_step j (fan_start blocks (length configs)) n →
  (j ≤ length blocks * (2 * length configs + 3) + 1)%nat ∧
  ((∃ n', fan_step n n') ∨
   stuck n ∧ (∀ i c, chans n !! i = Some c → mjoin (got c) = src_data source) ∧
   fan_result (src_error source) configs n = fan_out_chunks source configs).
Proof.
  intros Hne Hb Hj. pose proof (fan_inv_start blocks (length configs)) as Hinv. rewrite Hb in Hinv.
  destruct (fan_inv_steps _ _ _ _ _ Hinv Hj) as [Hi Hw]. rewrite work_start in Hw. split; [lia|].
  destruct (stuck_or_step n) as [Hst|Hst]; [right|by left].
  destruct (stuck_done _ _ _ Hi Hst) as (_ & Hbl & Hg). split_and!; [done..|].
  unfold fan_result. rewrite (zip_workers (src_data source)); [|apply Hi|done].
  rewrite (inv_total _ _ _ Hi), Hbl. change (len (mjoin [])) with 0. rewrite Z.sub_0_r.
  by destruct configs.
Qed.
End result.

(** ** Examples *)

Module Examples.
Import Reference.

Definition small : ChunkerConfig := {| min_size := 64; target_size := 256; max_size := 1024 |}.
Definition large : ChunkerConfig := {| min_size := 256; target_size := 1024; max_size := 4096 |}.
Definition source : Source := {| src_data := str "some bytes and more"; src_error := None |}.
Definition two : list bytes := [str "some bytes"; str " and more"].

(** The first turn of the loop: a read, and a send to each chunker. *)
Lemma fan_out_every_interleaving_witness : ∃ n,
  nsteps fan_step 3 (fan_start two 2) n ∧ ((∃ n', fan_step n n') ∨
   stuck n ∧ (∀ i c, chans n !! i = Some c → mjoin (got c) = src_data source) ∧
   fan_result None [small; large] n = fan_out_chunks source [small; large]).
Proof.
  set (n := {| blocks := [str " and more"]; producer := Sending (str "some bytes") 2;
               chans := replicate 2 {| queue := [str "some bytes"]; got := [] |}; total := 10 |}).
  assert (nsteps fan_step 3 (fan_start two 2) n) as Hn.
  { eapply nsteps_l; [by eapply step_read|].
    do 2 (eapply nsteps_l; [eapply step_send; [reflexivity..|cbn; unfold FAN_OUT_CHANNEL_DEPTH; lia]|]). apply nsteps_O. }
  exists n.
  split; [exact Hn|]. exact (proj2 (fan_out_every_interleaving source [small; large] two 3 _ ltac:(done) eq_refl Hn)).
Defined.

(** A read across an exhausted block, and the end. *)
Example channel_read : let r := {| rx := [str "cd"; []; str "e"]; current := Some (str "ab"); pos := 2 |} in
  let '(x, r) := ChannelReader_read 8 r in let '(y, r) := ChannelReader_read 8 r in
  let '(z, r) := ChannelReader_read 8 r in (x, y, z) = (str "cd", str "e", []).
Proof. reflexivity. Qed.
End Examples.
