(* ===== verification/Manifest.v ===== *)
(** * Snapshot manifests ([busyncr-core/src/manifest.rs])

    The manifest record, its canonical wire format and the strict decoder.  The
    decoder is a parser that threads the remaining input, as the code advances
    its [input] slice.  [Codec] states what a field's printer and parser promise
    each other; the file format's theorems are proved from those promises. *)

From S2P Require Import Prelude External Text Index Chunking.

Definition MANIFEST_HEADER_BYTES : Z := 16 + 8 + 4.
Definition MANIFEST_FILE_FIXED_BYTES : Z := 4 + 8 + 8 + 4 + 4 + 4.

(** [InvalidPath]'s [source], the standard library's description of the
    malformed byte, is left out. *)
Inductive ManifestError : Set :=
  | TooLarge (what : string) (value limit : Z)
  | Truncated (what : string) (needed : Z)
  | TrailingBytes (n : Z)
  | InvalidPath (index : nat).

Record FileEntry := {
  path : bytes;
  size : Z;
  mtime_secs : Z;
  mtime_nanos : Z;
  mode : Z;
  chunks : list ChunkId;
}.

#[global] Instance FileEntry_eq_dec : EqDecision FileEntry.
Proof. solve_decision. Defined.

(** What the field types guarantee of a value: [path] is a [String]. *)
Definition FileEntry_wf (f : FileEntry) : Prop :=
  utf8_valid (path f) ∧ in_u64 (size f) ∧ in_i64 (mtime_secs f) ∧
  in_u32 (mtime_nanos f) ∧ in_u32 (mode f).

#[global] Instance FileEntry_wf_dec f : Decision (FileEntry_wf f).
Proof. unfold FileEntry_wf; apply _. Defined.

(** A parser consumes a prefix of its input. *)
Definition Parser (A : Type) : Type := bytes → result ManifestError (A * bytes).

#[global] Instance Parser_ret : MRet Parser := λ A a input, Ok (a, input).
#[global] Instance Parser_bind : MBind Parser := λ A B f p input,
  match p input with
  | Ok (a, input) => f a input
  | Err e => Err e
  end.

(** [take::<N>]. *)
Definition take_array (n : nat) (what : string) : Parser (array n) := λ input,
  if decide (len input < Z.of_nat n) then Err (Truncated what (Z.of_nat n - len input))
  else Ok (to_array n (take n input), drop n input).

Definition take_slice (l : Z) (what : string) : Parser bytes := λ input,
  if decide (len input < l) then Err (Truncated what (l - len input))
  else Ok (take (Z.to_nat l) input, drop (Z.to_nat l) input).

Definition take_u32 (what : string) : Parser Z :=
  a ← take_array 4 what; mret (le_value (vec_to_list a)).
Definition take_u64 (what : string) : Parser Z :=
  a ← take_array 8 what; mret (le_value (vec_to_list a)).
Definition take_i64 (what : string) : Parser Z :=
  a ← take_array 8 what; mret (i64_from_le (vec_to_list a)).

Definition fit_u32 (value : Z) (what : string) : result ManifestError Z :=
  ok_or (TooLarge what value u32_max) (u32_try_from value).

(** [std::str::from_utf8(path_bytes)], failing at file [index]. *)
Definition path_from_utf8 (index : nat) (path_bytes : bytes) : Parser bytes := λ input,
  if utf8_valid path_bytes then Ok (path_bytes, input) else Err (InvalidPath index).

(** The loop that reads [n] chunk identities. *)
Fixpoint decode_chunks (n : nat) : Parser (list ChunkId) :=
  match n with
  | O => mret []
  | S n =>
      id ← take_array 32 "chunk id";
      rest ← decode_chunks n;
      mret (id :: rest)
  end.

(** The body of the loop over the files. *)
Definition decode_file (index : nat) : Parser FileEntry :=
  path_len ← take_u32 "path length";
  path_bytes ← take_slice path_len "path bytes";
  path ← path_from_utf8 index path_bytes;
  size ← take_u64 "file size";
  mtime_secs ← take_i64 "mtime seconds";
  mtime_nanos ← take_u32 "mtime nanos";
  mode ← take_u32 "mode";
  chunk_count ← take_u32 "chunk count";
  chunks ← decode_chunks (Z.to_nat chunk_count);
  mret {| path := path; size := size; mtime_secs := mtime_secs;
          mtime_nanos := mtime_nanos; mode := mode; chunks := chunks |}.

(** The loop over the files, from [index] on. *)
Fixpoint decode_files (index n : nat) : Parser (list FileEntry) :=
  match n with
  | O => mret []
  | S n =>
      file ← decode_file index;
      rest ← decode_files (S index) n;
      mret (file :: rest)
  end.

Definition encode_file (file : FileEntry) : result ManifestError bytes :=
  path_len ← fit_u32 (len (path file)) "path length";
  chunk_count ← fit_u32 (len (chunks file)) "chunk count";
  Ok (u32_to_le path_len ++ path file ++ u64_to_le (size file) ++
      i64_to_le (mtime_secs file) ++ u32_to_le (mtime_nanos file) ++
      u32_to_le (mode file) ++ u32_to_le chunk_count ++
      (chunks file ≫= λ id, vec_to_list id)).

Section manifest.
Context `{UlidPkg}.

Record Manifest := {
snapshot_id : Ulid;
created_at : Z;
files : list FileEntry;
}.

#[global] Instance Manifest_eq_dec : EqDecision Manifest.
Proof. solve_decision. Defined.

Definition Manifest_wf (m : Manifest) : Prop :=
in_i64 (created_at m) ∧ Forall FileEntry_wf (files m).

#[global] Instance Manifest_wf_dec m : Decision (Manifest_wf m).
Proof. unfold Manifest_wf; apply _. Defined.

(** [u64] arithmetic, which wraps. *)
Definition encoded_len (m : Manifest) : Z :=
foldl (λ total file,
  u64_add total
    (u64_add (u64_add MANIFEST_FILE_FIXED_BYTES (len (path file)))
             (u64_mul ChunkId_LEN (len (chunks file)))))
  MANIFEST_HEADER_BYTES (files m).

Definition chunk_refs (m : Manifest) : list ChunkId := files m ≫= chunks.

Definition encode (m : Manifest) : result ManifestError bytes :=
file_count ← fit_u32 (len (files m)) "file count";
entries ← mapM encode_file (files m);
Ok (vec_to_list (Ulid_to_bytes (snapshot_id m)) ++ i64_to_le (created_at m) ++
    u32_to_le file_count ++ concat entries).

(** [decode] before its check for trailing bytes. *)
Definition decode_prefix : Parser Manifest :=
ulid_bytes ← take_array 16 "snapshot id";
created_at ← take_i64 "created_at";
file_count ← take_u32 "file count";
files ← decode_files 0 (Z.to_nat file_count);
mret {| snapshot_id := Ulid_from_bytes ulid_bytes; created_at := created_at;
        files := files |}.

Definition decode (input : bytes) : result ManifestError Manifest :=
'(m, rest) ← decode_prefix input;
match rest with
| [] => Ok m
| _ => Err (TrailingBytes (len rest))
end.
End manifest.

(** ** The promises of a field *)

(** [print] and [p] are inverse on [wf] values: the parser reads back what was
    printed, and whatever it reads is the print of its result. *)
Class Codec {A} (p : Parser A) (print : A → bytes) (wf : A → Prop) : Prop := {
  codec_print a rest : wf a → p (print a ++ rest) = Ok (a, rest);
  codec_parse input a rest : p input = Ok (a, rest) → wf a ∧ input = print a ++ rest;
}.

(** On a prefix of an input it accepts, the parser gives the same value or runs
    out of input. *)
Class Cut {A} (p : Parser A) : Prop :=
  cut input a rest input' : p input = Ok (a, rest) → input' `prefix_of` input →
    (∃ rest', p input' = Ok (a, rest') ∧ rest' `prefix_of` rest) ∨
    ∃ what needed, 0 < needed ∧ p input' = Err (Truncated what needed).

Lemma parser_bind_Ok {A B} (p : Parser A) (f : A → Parser B) input b rest :
  (p ≫= f) input = Ok (b, rest) ↔
  ∃ a input', p input = Ok (a, input') ∧ f a input' = Ok (b, rest).
Proof.
  unfold mbind, Parser_bind. destruct (p input) as [[a i]|e]; naive_solver.
Qed.

Lemma bind_print {A B} (p : Parser A) print wf `{!Codec p print wf} (f : A → Parser B) a rest :
  wf a → (p ≫= f) (print a ++ rest) = f a rest.
Proof. intros Ha. unfold mbind, Parser_bind. by rewrite codec_print. Qed.

#[global] Instance cut_ret {A} (a : A) : Cut (mret a).
Proof. intros input b rest input' [= <- <-] Hp. left. by exists input'. Qed.

#[global] Instance cut_bind {A B} (p : Parser A) (f : A → Parser B) :
  Cut p → (∀ a, Cut (f a)) → Cut (p ≫= f).
Proof.
  intros Hp Hf input b rest input' (a & i & Ha & Hb)%parser_bind_Ok Hpre.
  destruct (cut _ _ _ _ Ha Hpre) as [(i' & Ha' & Hi)|(w & n & Hn & Ha')].
  - destruct (cut _ _ _ _ Hb Hi) as [(r & Hb' & Hr)|(w & n & Hn & Hb')].
    + left. exists r. split; [|done]. apply parser_bind_Ok. eauto.
    + right. exists w, n. split; [done|]. unfold mbind, Parser_bind. by rewrite Ha'.
  - right. exists w, n. split; [done|]. unfold mbind, Parser_bind. by rewrite Ha'.
Qed.

Lemma take_prefix {A} n (l k : list A) :
  l `prefix_of` k → (n ≤ length l)%nat → take n l = take n k ∧ drop n l `prefix_of` drop n k.
Proof.
  intros [m ->] Hn. rewrite take_app_le, drop_app_le by done. split; [done|by eexists].
Qed.

#[global] Instance take_array_cut n what : Cut (take_array n what).
Proof.
  intros input a rest input' Ha Hpre. unfold take_array in *.
  case_decide as Hl; [done|]. injection Ha as <- <-. case_decide as Hl'.
  - right. eexists _, _. split; [|done]. lia.
  - left. destruct (take_prefix n _ _ Hpre) as [-> ?]; [unfold len in Hl'; lia|]. eauto.
Qed.

#[global] Instance take_slice_cut l what : Cut (take_slice l what).
Proof.
  intros input a rest input' Ha Hpre. unfold take_slice in *.
  case_decide as Hl; [done|]. injection Ha as <- <-. case_decide as Hl'.
  - right. eexists _, _. split; [|done]. lia.
  - left. destruct (take_prefix (Z.to_nat l) _ _ Hpre) as [-> ?]; [unfold len in Hl'; lia|]. eauto.
Qed.

#[global] Instance path_from_utf8_cut i b : Cut (path_from_utf8 i b).
Proof.
  intros input a rest input' Ha Hpre. unfold path_from_utf8 in *.
  destruct (utf8_valid b); [|done]. injection Ha as <- <-. left. eauto.
Qed.

#[global] Instance take_array_codec n what :
  Codec (take_array n what) vec_to_list (λ _, True).
Proof.
  split.
  - intros a rest _. unfold take_array. rewrite decide_False by len_lia.
    rewrite take_app_length', drop_app_length' by len_lia. by rewrite to_array_vec.
  - intros input a rest. unfold take_array. case_decide as Hl; [done|].
    intros [= <- <-]. split; [done|].
    rewrite to_array_list by (unfold len in Hl; rewrite length_take; lia).
    by rewrite take_drop.
Qed.

#[global] Instance take_slice_codec l what :
  Codec (take_slice l what) (λ b, b) (λ b, len b = Z.max 0 l).
Proof.
  split.
  - intros a rest Hl. unfold take_slice. rewrite decide_False by len_lia.
    rewrite take_app_length', drop_app_length' by (unfold len in Hl; lia). done.
  - intros input a rest. unfold take_slice. case_decide as Hl; [done|].
    intros [= <- <-]. rewrite take_drop. split; [len_lia|done].
Qed.

#[global] Instance path_from_utf8_codec i b :
  Codec (path_from_utf8 i b) (λ _, []) (λ p, p = b ∧ utf8_valid b).
Proof.
  split.
  - intros a rest [-> Hv]. unfold path_from_utf8. by destruct (utf8_valid b).
  - intros input a rest. unfold path_from_utf8. destruct (utf8_valid b) eqn:E; [|done].
    intros [= <- <-]. done.
Qed.

(** Consumes the first printed field of the input. *)
Ltac print_field tac :=
  lazymatch goal with
  | |- context [(?p ≫= ?f) (_ ++ ?rest)] =>
      let C := constr:(_ : Codec p _ _) in
      lazymatch type of C with
      | Codec _ ?print ?wf =>
          let E := fresh in
          pose proof (λ a, bind_print p print wf f a rest) as E; cbv beta in E;
          rewrite E by tac; clear E
      end
  end.

(** A field whose parser converts what it took. *)
Lemma codec_map {A B} (p : Parser A) print wf `{!Codec p print wf}
    (f : A → B) (print' : B → bytes) (wf' : B → Prop) :
  (∀ b, wf' b → ∃ a, wf a ∧ f a = b ∧ print a = print' b) →
  (∀ a, wf a → wf' (f a) ∧ print' (f a) = print a) →
  Codec (a ← p; mret (f a)) print' wf'.
Proof.
  intros Hb Ha. split.
  - intros b rest (a & Hwf & <- & <-)%Hb. by rewrite (bind_print p print wf).
  - intros input b rest (a & i & [Hwf ->]%codec_parse & [= <- <-])%parser_bind_Ok.
    apply Ha in Hwf as [? ->]. done.
Qed.

#[global] Instance take_u32_codec what : Codec (take_u32 what) u32_to_le in_u32.
Proof.
  apply (codec_map _ vec_to_list (λ _, True)).
  - intros z Hz. exists (to_array 4 (u32_to_le z)).
    rewrite to_array_list by len_lia. by rewrite u32_from_to_le.
  - intros a _. split; [apply le_value_u32|apply u32_to_from_le]; len_lia.
Qed.
#[global] Instance take_u64_codec what : Codec (take_u64 what) u64_to_le in_u64.
Proof.
  apply (codec_map _ vec_to_list (λ _, True)).
  - intros z Hz. exists (to_array 8 (u64_to_le z)).
    rewrite to_array_list by len_lia. by rewrite u64_from_to_le.
  - intros a _. split; [apply le_value_u64|apply u64_to_from_le]; len_lia.
Qed.
#[global] Instance take_i64_codec what : Codec (take_i64 what) i64_to_le in_i64.
Proof.
  apply (codec_map _ vec_to_list (λ _, True)).
  - intros z Hz. exists (to_array 8 (i64_to_le z)).
    rewrite to_array_list by len_lia. by rewrite i64_from_to_le.
  - intros a _. split; [apply i64_from_le_range|apply i64_to_from_le]; len_lia.
Qed.

#[global] Instance decode_chunks_cut n : Cut (decode_chunks n).
Proof. induction n; cbn [decode_chunks]; apply _. Qed.

Definition print_chunks (ids : list ChunkId) : bytes := ids ≫= λ id, vec_to_list id.

#[global] Instance decode_chunks_codec n :
  Codec (decode_chunks n) print_chunks (λ ids, length ids = n).
Proof.
  split.
  - intros ids rest <-. induction ids as [|id ids IH]; [done|].
    cbn [decode_chunks length]. unfold print_chunks in *; csimpl. rewrite <- app_assoc.
    print_field done. unfold mbind at 1, Parser_bind. by rewrite IH.
  - induction n as [|n IH]; intros input ids rest; cbn [decode_chunks].
    + by intros [= <- <-].
    + intros (id & i & [_ ->]%codec_parse & (ids' & i' & [<- ->]%IH & [= <- <-])%parser_bind_Ok)%parser_bind_Ok.
      split; [done|]. unfold print_chunks; csimpl. by rewrite <- app_assoc.
Qed.

(** ** Files *)

(** The counts that the format can carry. *)
Definition file_fits (f : FileEntry) : Prop := in_u32 (len (path f)) ∧ in_u32 (len (chunks f)).

Definition print_file (f : FileEntry) : bytes :=
  u32_to_le (len (path f)) ++ path f ++ u64_to_le (size f) ++
  i64_to_le (mtime_secs f) ++ u32_to_le (mtime_nanos f) ++
  u32_to_le (mode f) ++ u32_to_le (len (chunks f)) ++ print_chunks (chunks f).

Lemma fit_u32_Ok v w z : fit_u32 v w = Ok z ↔ in_u32 v ∧ z = v.
Proof.
  unfold fit_u32, u32_try_from. rewrite ok_or_Ok. case_decide; naive_solver.
Qed.

Lemma encode_file_Ok f b : encode_file f = Ok b ↔ file_fits f ∧ b = print_file f.
Proof.
  unfold encode_file, file_fits. rewrite bind_Ok. setoid_rewrite bind_Ok.
  setoid_rewrite fit_u32_Ok. split.
  - intros (? & [? ->] & ? & [? ->] & [= <-]). done.
  - intros [[? ?] ->]. eauto 10.
Qed.

Lemma in_u32_len {A} (l : list A) : in_u32 (len l) → 0 ≤ len l.
Proof. unfold len. lia. Qed.

#[global] Instance decode_file_cut i : Cut (decode_file i).
Proof. unfold decode_file. apply _. Qed.

(** Reads back a printed file, whatever its path. *)
Lemma decode_file_print_path i f rest :
  file_fits f → in_u64 (size f) → in_i64 (mtime_secs f) → in_u32 (mtime_nanos f) →
  in_u32 (mode f) →
  decode_file i (print_file f ++ rest) =
    if utf8_valid (path f) then Ok (f, rest) else Err (InvalidPath i).
Proof.
  intros [Hp Hc] ????. unfold decode_file, print_file. rewrite <- !app_assoc.
  print_field done.
  print_field ltac:(unfold len; lia).
  destruct (utf8_valid (path f)) eqn:Hv.
  - unfold mbind at 1, Parser_bind, path_from_utf8 at 1. rewrite Hv.
    do 5 print_field done.
    print_field ltac:(unfold len; lia). by destruct f.
  - unfold mbind at 1, Parser_bind, path_from_utf8 at 1. by rewrite Hv.
Qed.

#[global] Instance decode_file_codec i :
  Codec (decode_file i) print_file (λ f, FileEntry_wf f ∧ file_fits f).
Proof.
  split.
  - intros f rest [(Hv&?&?&?&?) ?]. rewrite decode_file_print_path by done.
    by destruct (utf8_valid (path f)).
  - intros input f rest Hd. unfold decode_file in Hd.
    repeat lazymatch goal with
    | H : (_ ≫= _) _ = Ok _ |- _ => apply parser_bind_Ok in H as (? & ? & [? ?]%codec_parse & H)
    end.
    injection Hd as <- <-. destruct_and?; subst. unfold FileEntry_wf, file_fits, print_file.
    cbn [path size mtime_secs mtime_nanos mode chunks].
    match goal with H : len ?x = 0 `max` ?l |- _ => assert (len x = l) as -> by int_lia end.
    match goal with H : length ?x = Z.to_nat ?l |- _ =>
      assert (len x = l) as -> by (unfold len; int_lia) end.
    rewrite <- !app_assoc. split_and!; done.
Qed.

Definition concat_files (fs : list FileEntry) : bytes := fs ≫= print_file.

Lemma concat_files_cons f fs : concat_files (f :: fs) = print_file f ++ concat_files fs.
Proof. done. Qed.

Lemma concat_files_eq fs : concat (print_file <$> fs) = concat_files fs.
Proof. induction fs as [|f fs IH]; [done|]. rewrite concat_files_cons, <- IH. done. Qed.

#[global] Instance decode_files_cut i n : Cut (decode_files i n).
Proof. revert i; induction n; intros i; cbn [decode_files]; apply _. Qed.

#[global] Instance decode_files_codec i n :
  Codec (decode_files i n) concat_files
    (λ fs, length fs = n ∧ Forall (λ f, FileEntry_wf f ∧ file_fits f) fs).
Proof.
  split; revert i.
  - intros i fs rest [<- Hall]. revert i; induction Hall as [|f fs [Hf Hs] Hall IH]; intros i; [done|].
    cbn [decode_files length]. rewrite concat_files_cons, <- app_assoc.
    print_field done. unfold mbind at 1, Parser_bind. by rewrite IH.
  - induction n as [|n IH]; intros i input fs rest; cbn [decode_files].
    + by intros [= <- <-].
    + intros (f & i1 & [Hf ->]%codec_parse & (fs' & i2 & [[<- Hall] ->]%IH & [= <- <-])%parser_bind_Ok)%parser_bind_Ok.
      split; [split; [done|by constructor]|].
      by rewrite concat_files_cons, <- app_assoc.
Qed.

(** ** Manifests *)

Section manifest_lemmas.
Context `{UlidLaws}.

Definition manifest_fits (m : Manifest) : Prop :=
in_u32 (len (files m)) ∧ Forall file_fits (files m).

Definition print_manifest (m : Manifest) : bytes :=
vec_to_list (Ulid_to_bytes (snapshot_id m)) ++ i64_to_le (created_at m) ++
u32_to_le (len (files m)) ++ concat_files (files m).

Lemma mapM_encode_file fs bs :
mapM encode_file fs = Ok bs ↔ Forall file_fits fs ∧ bs = print_file <$> fs.
Proof.
rewrite mapM_Ok. split.
- induction 1 as [|f b fs bs [? ->]%encode_file_Ok _ [? ->]]; auto.
- intros [Hf ->]. induction Hf; constructor; [by apply encode_file_Ok|done].
Qed.

Lemma encode_Ok m b : encode m = Ok b ↔ manifest_fits m ∧ b = print_manifest m.
Proof.
unfold encode, manifest_fits, print_manifest. rewrite bind_Ok. setoid_rewrite bind_Ok.
setoid_rewrite fit_u32_Ok. setoid_rewrite mapM_encode_file. split.
- intros (? & [? ->] & ? & [? ->] & [= <-]). by rewrite concat_files_eq.
- intros [[? ?] ->]. eexists; split; [done|]. eexists; split; [done|]. by rewrite concat_files_eq.
Qed.

#[global] Instance decode_prefix_cut : Cut decode_prefix.
Proof. unfold decode_prefix. apply _. Qed.

#[global] Instance decode_prefix_codec :
Codec decode_prefix print_manifest (λ m, Manifest_wf m ∧ manifest_fits m).
Proof.
split.
- intros m rest [[Hc Hw] [Hl Hf]]. unfold decode_prefix, print_manifest.
  rewrite <- !app_assoc. do 3 print_field done.
  print_field ltac:(split; [unfold len; lia|by apply Forall_and]).
  rewrite Ulid_from_to. by destruct m.
- intros input m rest Hd. unfold decode_prefix in Hd.
  repeat lazymatch goal with
  | H : (_ ≫= _) _ = Ok _ |- _ => apply parser_bind_Ok in H as (? & ? & [? ?]%codec_parse & H)
  end.
  injection Hd as <- <-. destruct_and?; subst.
  unfold Manifest_wf, manifest_fits, print_manifest. cbn [snapshot_id created_at files].
  match goal with H : length ?x = Z.to_nat ?l |- _ =>
    assert (len x = l) as -> by (unfold len; int_lia) end.
  match goal with H : Forall _ _ |- _ => apply Forall_and in H as [? ?] end.
  rewrite Ulid_to_from, <- !app_assoc. split_and!; done.
Qed.

Lemma decode_Ok b m : decode b = Ok m ↔ decode_prefix b = Ok (m, []).
Proof.
unfold decode. destruct (decode_prefix b) as [[m' [|]]|]; cbn; naive_solver.
Qed.

Lemma decode_wf_fits b m :
decode b = Ok m ↔ (Manifest_wf m ∧ manifest_fits m) ∧ b = print_manifest m.
Proof.
rewrite decode_Ok. split.
- intros [? ->]%codec_parse. by rewrite app_nil_r.
- intros [? ->]. rewrite <- (app_nil_r (print_manifest m)). by apply codec_print.
Qed.

(** C24. The wire format is canonical: a byte string decodes to a manifest exactly
  when the manifest is well-formed (its numbers in the ranges of their types,
  its paths UTF-8) and encodes to that very byte string. *)
Theorem decode_encode b m :
decode b = Ok m ↔ Manifest_wf m ∧ encode m = Ok b.
Proof. rewrite decode_wf_fits, encode_Ok. naive_solver. Qed.

(** Every strict prefix of a valid manifest is reported as
  truncated, with a positive number of missing bytes; any bytes after it are
  counted in the trailing-bytes error. *)
Theorem decode_truncated_trailing b m :
decode b = Ok m →
(∀ pre post, b = pre ++ post → post ≠ [] →
  ∃ what needed, 0 < needed ∧ decode pre = Err (Truncated what needed)) ∧
(∀ extra, extra ≠ [] → decode (b ++ extra) = Err (TrailingBytes (len extra))).
Proof.
rewrite decode_wf_fits. intros [Hm ->]. split.
- intros pre post E Hne.
  destruct (cut (print_manifest m) m [] pre) as [(r & Hr & Hn)|(w & n & Hn & He)].
  + rewrite <- (app_nil_r (print_manifest m)). by apply codec_print.
  + by exists post.
  + apply prefix_nil_inv in Hn as ->. apply codec_parse in Hr as [_ Hr].
    rewrite app_nil_r in Hr. subst pre. exfalso. apply Hne.
    by apply (app_inv_head (print_manifest m)); rewrite app_nil_r, <- E.
  + exists w, n. split; [done|]. unfold decode. by rewrite He.
- intros extra Hne. unfold decode. rewrite codec_print by done. cbn.
  by destruct extra.
Qed.

(** The first path that is not UTF-8 is reported with its index. *)
Lemma decode_files_bad_path i fs f fs' rest n :
Forall (λ f, FileEntry_wf f ∧ file_fits f) fs →
file_fits f → in_u64 (size f) → in_i64 (mtime_secs f) → in_u32 (mtime_nanos f) →
in_u32 (mode f) → ¬ utf8_valid (path f) → n = length (fs ++ f :: fs') →
decode_files i n (concat_files (fs ++ f :: fs') ++ rest) = Err (InvalidPath (i + length fs)%nat).
Proof.
intros Hall Hf ???? Hp ->. revert i; induction Hall as [|g fs Hg Hall IH]; intros i; cbn [app length decode_files].
- rewrite concat_files_cons, <- app_assoc. unfold mbind at 1, Parser_bind.
  rewrite decode_file_print_path by done.
  destruct (utf8_valid (path f)); [done|]. by rewrite Nat.add_0_r.
- rewrite concat_files_cons, <- app_assoc. print_field done.
  unfold mbind at 1, Parser_bind. rewrite IH. by rewrite Nat.add_succ_comm.
Qed.

(** Decoding fails on the first file whose path is not UTF-8, naming
  its index, whatever follows it. *)
Theorem decode_invalid_path u t fs f fs' extra :
in_i64 t → in_u32 (len (fs ++ f :: fs')) →
Forall (λ f, FileEntry_wf f ∧ file_fits f) fs →
file_fits f → in_u64 (size f) → in_i64 (mtime_secs f) → in_u32 (mtime_nanos f) →
in_u32 (mode f) → ¬ utf8_valid (path f) →
decode (print_manifest {| snapshot_id := u; created_at := t; files := fs ++ f :: fs' |} ++ extra)
  = Err (InvalidPath (length fs)).
Proof.
intros. unfold decode, decode_prefix, print_manifest; cbn [snapshot_id created_at files].
rewrite <- !app_assoc.
assert (∀ A (g : A → Parser Manifest) i e p, p i = Err e → (p ≫= g) i = Err e) as Hb.
{ intros A g i e p E. unfold mbind, Parser_bind. by rewrite E. }
do 3 print_field done.
erewrite Hb; [|apply (decode_files_bad_path 0); try done; unfold len; lia]. done.
Qed.

Lemma len_print_chunks ids : len (print_chunks ids) = ChunkId_LEN * len ids.
Proof.
unfold print_chunks. induction ids as [|id ids IH]; [done|].
change ((id :: ids) ≫= _) with (vec_to_list id ++ (ids ≫= λ i, vec_to_list i)).
unfold len, ChunkId_LEN in *. rewrite length_app, length_vec_to_list. cbn [length]. lia.
Qed.

Lemma len_print_file f :
len (print_file f) = MANIFEST_FILE_FIXED_BYTES + len (path f) + ChunkId_LEN * len (chunks f).
Proof. rewrite <- len_print_chunks. unfold print_file, MANIFEST_FILE_FIXED_BYTES. len_lia. Qed.

(** [encoded_len] is the length of what [encode] writes, modulo the width of
  its [u64] accumulator, and [encode] fails exactly when one of the counts
  does not fit in 32 bits. *)
Theorem encoded_len_exact m :
(∀ b, encode m = Ok b → encoded_len m = len b mod 2 ^ 64) ∧
(is_ok (encode m) ↔
  in_u32 (len (files m)) ∧
  Forall (λ f, in_u32 (len (path f)) ∧ in_u32 (len (chunks f))) (files m)).
Proof.
split.
- intros b [_ ->]%encode_Ok. unfold encoded_len, print_manifest.
  set (F := λ total file, u64_add total _).
  assert (∀ t fs, foldl F (t mod 2 ^ 64) fs = (t + len (concat_files fs)) mod 2 ^ 64) as Hf.
  { intros t fs. revert t; induction fs as [|f fs IH]; intros t; cbn [foldl].
    - by rewrite Z.add_0_r.
    - rewrite concat_files_cons. unfold F at 2, u64_add, u64_mul.
      set (M := 2 ^ 64) in *.
      assert (∀ a b c d, (a mod M + ((b + c) mod M + d mod M) mod M) mod M
                         = (a + (b + c + d)) mod M) as -> by (intros; by rewrite <- (Zplus_mod (b + c)), <- Zplus_mod).
      rewrite IH. f_equal. pose proof (len_print_file f). len_lia. }
  transitivity (foldl F (MANIFEST_HEADER_BYTES mod 2 ^ 64) (files m)); [done|].
  rewrite Hf. f_equal. unfold MANIFEST_HEADER_BYTES. len_lia.
- unfold is_ok. destruct (encode m) as [b|e] eqn:E.
  + apply encode_Ok in E as [[? ?] _]. done.
  + split; [done|]. intros Hf. assert (encode m = Ok (print_manifest m)) as E' by by apply encode_Ok.
    by rewrite E in E'.
Qed.
End manifest_lemmas.

(** ** Examples *)

Module Examples.
Import Reference.

Definition entry (name : string) (n : nat) : FileEntry := {|
  path := str name; size := 700; mtime_secs := -5; mtime_nanos := 999999999;
  mode := 33188; chunks := [vreplicate 32 x0a; vreplicate 32 x0b] |}.

Definition manifest : Manifest := {|
  snapshot_id := vreplicate 16 x01; created_at := 1750000000;
  files := [entry "a.txt" 1; entry "dir/b" 2] |}.

Definition bad_path : FileEntry := {|
  path := [xff]; size := 0; mtime_secs := 0; mtime_nanos := 0; mode := 0; chunks := [] |}.

Lemma decode_encode_witness :
  Manifest_wf manifest ∧ encode manifest = Ok (print_manifest manifest) ∧
  decode (print_manifest manifest) = Ok manifest.
Proof.
  split_and!; [evaluate|vm_compute; reflexivity|].
  apply decode_encode. split; [evaluate|vm_compute; reflexivity].
Defined.

Lemma decode_truncated_trailing_witness :
  decode (print_manifest manifest) = Ok manifest ∧
  decode (print_manifest manifest ++ [x00; x00]) = Err (TrailingBytes 2).
Proof.
  split; [vm_compute; reflexivity|].
  refine (proj2 (decode_truncated_trailing (print_manifest manifest) manifest _) [x00; x00] _);
    [vm_compute; reflexivity|discriminate].
Defined.

Lemma decode_invalid_path_witness :
  decode (print_manifest {| snapshot_id := vreplicate 16 x01; created_at := 7;
                            files := [entry "a.txt" 1; bad_path] |} ++ [x07])
    = Err (InvalidPath 1).
Proof.
  refine (decode_invalid_path _ _ [_] bad_path [] [x07] _ _ _ _ _ _ _ _ _); try evaluate.
Defined.

Lemma encoded_len_exact_witness :
  encoded_len manifest = len (print_manifest manifest) mod 2 ^ 64.
Proof.
  refine (proj1 (encoded_len_exact manifest) _ _). vm_compute; reflexivity.
Defined.
End Examples.
