(* ===== verification/Retention.v ===== *)
(** * The retention grid ([busyncr-core/src/retention.rs])

    Tiers and their validation, the choice of a tier for an age, and the
    thinning plan, with its hash map of cell winners.  [survives] is the plan's
    specification: a snapshot stays unless its cell holds a newer one. *)

From S2P Require Import Prelude.

Inductive RetentionError :=
  | NoTiers
  | ZeroCell (index : nat)
  | Unordered (index : nat).

Record Tier := { max_age : Duration; cell : Duration }.

#[global] Instance Tier_eq_dec : EqDecision Tier.
Proof. solve_decision. Defined.

Definition Tier_wf (t : Tier) : Prop := Duration_wf (max_age t) ∧ Duration_wf (cell t).

Definition cell_ms (t : Tier) : Z :=
  Z.max (default i64_max (i64_try_from (Duration_as_millis (cell t)))) 1.

Record RetentionPolicy := { tiers : list Tier }.

Definition THREE_HOURS : Duration := Duration_from_secs (3 * 60 * 60).
Definition ONE_DAY : Duration := Duration_from_secs (24 * 60 * 60).
Definition FOUR_DAYS : Duration := Duration_from_secs (4 * 24 * 60 * 60).
Definition SIXTEEN_DAYS : Duration := Duration_from_secs (16 * 24 * 60 * 60).

Definition default_grid : RetentionPolicy := {|
  tiers := [ {| max_age := ONE_DAY; cell := THREE_HOURS |};
             {| max_age := FOUR_DAYS; cell := ONE_DAY |};
             {| max_age := SIXTEEN_DAYS; cell := FOUR_DAYS |};
             {| max_age := Duration_MAX; cell := SIXTEEN_DAYS |} ]
|}.

(** The body of [from_tiers]'s loop. *)
Definition check_tier (ts : list Tier) (_ : unit) (it : nat * Tier) : result RetentionError unit :=
  let '(index, tier) := it in
  if Duration_is_zero (cell tier) then Err (ZeroCell index)
  else match ts !! (index - 1)%nat with
       | Some before =>
           if decide ((0 < index)%nat ∧ max_age tier < max_age before)
           then Err (Unordered index) else Ok ()
       | None => Ok ()
       end.

Definition from_tiers (ts : list Tier) : result RetentionError RetentionPolicy :=
  match ts with
  | [] => Err NoTiers
  | _ => _ ← foldM (check_tier ts) () (enumerate ts); Ok {| tiers := ts |}
  end.

(** [None]: the panic of an index into an empty tier list. *)
Definition tier_for (policy : RetentionPolicy) (age : Duration) : option (nat * Tier) :=
  match list_find (λ t, age < max_age t) (tiers policy) with
  | Some it => Some it
  | None => let last := (length (tiers policy) - 1)%nat in pair last <$> tiers policy !! last
  end.

Record Plan (T : Type) := { keep : list T; dropped : list T }.
Arguments keep {T}.
Arguments dropped {T}.
Arguments Build_Plan {T}.

(** The grid cell of a snapshot taken at [time_ms]. *)
Definition cell_key (now_ms : Z) (policy : RetentionPolicy) (time_ms : Z) : option (nat * Z) :=
  let age_ms := Z.max (i64_saturating_sub now_ms time_ms) 0 in
  '(tier_index, tier) ← tier_for policy (Duration_from_millis age_ms);
  Some (tier_index, time_ms / cell_ms tier).

(** Per cell, the best time so far and the input index of the survivor. *)
Abbreviation Best := (gmap (nat * Z) (Z * nat)).

(** The body of [plan]'s first loop. *)
Definition plan_step {T : Type} (now_ms : Z) (policy : RetentionPolicy) (best : Best)
    (s : nat * (Z * T)) : option Best :=
  let '(idx, (time_ms, _)) := s in
  key ← cell_key now_ms policy time_ms;
  Some match best !! key with
       | Some (best_time, _) =>
           if decide (time_ms < best_time) then best else <[key := (time_ms, idx)]> best
       | None => <[key := (time_ms, idx)]> best
       end.

Definition plan {T : Type} (now_ms : Z) (snapshots : list (Z * T)) (policy : RetentionPolicy) :
    option (Plan T) :=
  match tiers policy with
  | [] => Some {| keep := snapshots.*2; dropped := [] |}
  | _ =>
      best ← foldM (plan_step now_ms policy) ∅ (enumerate snapshots);
      let survivors : gset nat := list_to_set ((map_to_list best).*2.*2) in
      Some {|
        keep := (filter (λ s, s.1 ∈ survivors) (enumerate snapshots)).*2.*2;
        dropped := (filter (λ s, s.1 ∉ survivors) (enumerate snapshots)).*2.*2
      |}
  end.

(** ** The specification *)

Section plan_spec.
Context {T : Type} (now_ms : Z) (policy : RetentionPolicy).

(** An enumerated snapshot. *)
Abbreviation Snap := (nat * (Z * T))%type.
Definition snap_key (s : Snap) : option (nat * Z) := cell_key now_ms policy s.2.1.

(** [a] takes the cell that it shares with [b]: it is newer, or as new and
    later in the input. *)
Definition beats (a b : Snap) : Prop :=
  snap_key a = snap_key b ∧ is_Some (snap_key b) ∧
  (b.2.1 < a.2.1 ∨ b.2.1 = a.2.1 ∧ (b.1 < a.1)%nat).
#[global] Instance beats_dec a b : Decision (beats a b).
Proof. unfold beats; apply _. Defined.

Definition survives (l : list Snap) (s : Snap) : Prop := Forall (λ s', ¬ beats s' s) l.
#[global] Instance survives_dec l s : Decision (survives l s).
Proof. unfold survives; apply _. Defined.

(** What [best] holds once the snapshots [l] have been seen. *)
Record best_ok (l : list Snap) (best : Best) : Prop := {
  best_winner key t i : best !! key = Some (t, i) →
    ∃ id, (i, (t, id)) ∈ l ∧ snap_key (i, (t, id)) = Some key ∧ survives l (i, (t, id));
  best_complete s key : s ∈ l → snap_key s = Some key →
    ∃ t i, best !! key = Some (t, i) ∧ (s.2.1 < t ∨ s.2.1 = t ∧ (s.1 ≤ i)%nat);
}.

Lemma survives_snoc l s x : survives (l ++ [x]) s ↔ survives l s ∧ ¬ beats x s.
Proof. unfold survives. rewrite Forall_app, Forall_singleton. done. Qed.

Lemma best_ok_keep l best n t id key bt bi :
  best_ok l best → snap_key (n, (t, id)) = Some key → best !! key = Some (bt, bi) → t < bt →
  best_ok (l ++ [(n, (t, id))]) best.
Proof.
  intros [Hw Hc] Hk Hb Ht. split.
  - intros key' t' i' Hb'. destruct (Hw _ _ _ Hb') as (id' & Hin & Hk' & Hs). exists id'.
    rewrite elem_of_app, survives_snoc. split_and!; [auto..|].
    intros (E & _ & Hlt). rewrite Hk, Hk' in E. simplify_eq. cbn in Hlt. lia.
  - intros s' key' [Hin | ->%list_elem_of_singleton]%elem_of_app Hk'; [eauto|].
    exists bt, bi. cbn in *. split; [congruence|lia].
Qed.

Lemma best_ok_insert l best n t id key :
  best_ok l best → Forall (λ s, s.1 < n)%nat l → snap_key (n, (t, id)) = Some key →
  (∀ bt bi, best !! key = Some (bt, bi) → bt ≤ t) →
  best_ok (l ++ [(n, (t, id))]) (<[key := (t, n)]> best).
Proof.
  intros [Hw Hc] Hn Hk Hb. rewrite Forall_forall in Hn.
  assert (∀ s, s ∈ l → snap_key s = Some key → s.2.1 ≤ t ∧ (s.1 < n)%nat) as Hle.
  { intros s Hs Hks. destruct (Hc s key Hs Hks) as (bt & bi & Hbk & Ho).
    apply Hb in Hbk. specialize (Hn s Hs). lia. }
  split.
  - intros key' t' i' [[<- [= <- <-]]|[Hne (id' & Hin & Hk' & Hs)%Hw]]%lookup_insert_Some.
    + exists id. rewrite elem_of_app, survives_snoc, list_elem_of_singleton.
      split_and!; [auto|auto| |].
      * apply Forall_forall. intros s Hs (E & _ & Hlt). cbn in Hlt.
        destruct (Hle s Hs); [congruence|lia].
      * intros (_ & _ & Hlt). cbn in Hlt. lia.
    + exists id'. rewrite elem_of_app, survives_snoc. split_and!; [auto..|].
      intros (E & _). congruence.
  - intros s key' [Hin | ->%list_elem_of_singleton]%elem_of_app Hk'.
    + destruct (decide (key = key')) as [<-|Hne].
      * exists t, n. rewrite lookup_insert_eq. split; [done|].
        destruct (Hle s Hin Hk'). lia.
      * rewrite lookup_insert_ne by done. eauto.
    + assert (key' = key) as -> by congruence. exists t, n.
      rewrite lookup_insert_eq. cbn. split; [done|lia].
Qed.

Lemma tier_for_Some age : tiers policy ≠ [] → ∃ it, tier_for policy age = Some it.
Proof.
  intros Hne. unfold tier_for. destruct (list_find _ _) as [it|]; [eauto|].
  destruct (tiers policy !! (length (tiers policy) - 1)%nat) as [t|] eqn:E; cbn; [eauto|].
  apply lookup_ge_None in E. destruct (tiers policy); [done|]. cbn in E. lia.
Qed.

Lemma cell_key_Some time_ms : tiers policy ≠ [] → ∃ key, cell_key now_ms policy time_ms = Some key.
Proof.
  intros Hne. unfold cell_key.
  destruct (tier_for_Some (Duration_from_millis (i64_saturating_sub now_ms time_ms `max` 0)) Hne)
    as [[i t] ->]. cbn. eauto.
Qed.

Lemma plan_step_ok l best n t (id : T) :
  tiers policy ≠ [] → best_ok l best → Forall (λ s, s.1 < n)%nat l →
  ∃ best', plan_step now_ms policy best (n, (t, id)) = Some best' ∧
           best_ok (l ++ [(n, (t, id))]) best'.
Proof.
  intros Hne Hok Hn. destruct (cell_key_Some t Hne) as [key Hk].
  unfold plan_step. rewrite Hk. cbn [mbind option_bind].
  eexists; split; [done|].
  destruct (best !! key) as [[bt bi]|] eqn:Hb; [case_decide|].
  - by eapply best_ok_keep.
  - apply best_ok_insert; [done..|]. intros ? ? E. rewrite Hb in E. simplify_eq. lia.
  - apply best_ok_insert; [done..|]. intros ? ? E. by rewrite Hb in E.
Qed.

Lemma plan_loop_ok (snapshots : list (Z * T)) : tiers policy ≠ [] →
  ∃ best, foldM (plan_step now_ms policy) ∅ (enumerate snapshots) = Some best ∧
          best_ok (enumerate snapshots) best.
Proof.
  intros Hne. induction snapshots as [|[t id] l IH] using rev_ind.
  - exists ∅. split; [done|]. split; [|by intros ? ? ?%elem_of_nil].
    intros key t i. by rewrite lookup_empty.
  - destruct IH as (best & Hf & Hok). rewrite enumerate_snoc, foldM_app, Hf.
    cbn [mbind option_bind foldM].
    destruct (plan_step_ok _ _ (length l) t id Hne Hok) as (best' & -> & Hok').
    + apply Forall_forall. intros [i x] Hin%list_elem_of_enumerate.
      by apply lookup_lt_Some in Hin.
    + cbn. eauto.
Qed.

Lemma best_survivors snapshots best s :
  best_ok (enumerate snapshots) best → s ∈ enumerate snapshots → tiers policy ≠ [] →
  s.1 ∈ (list_to_set (map_to_list best).*2.*2 : gset nat) ↔ survives (enumerate snapshots) s.
Proof.
  intros [Hw Hc] Hs Hne. rewrite elem_of_list_to_set, list_elem_of_fmap.
  setoid_rewrite list_elem_of_fmap. destruct s as [i [t id]]. split.
  - intros ([t' i'] & Hi & ([key v] & Hv & Hin)). cbn in *; subst.
    apply elem_of_map_to_list in Hin. destruct (Hw _ _ _ Hin) as (id' & Hin' & _ & Hsv).
    apply list_elem_of_enumerate in Hin', Hs. rewrite Hs in Hin'. by simplify_eq.
  - intros Hsv. destruct (cell_key_Some t Hne) as [key Hk].
    destruct (Hc _ key Hs Hk) as (t' & i' & Hb & Ho).
    destruct (Hw _ _ _ Hb) as (id' & Hin' & Hk' & _).
    assert (t' = t ∧ i' = i) as [-> ->].
    { unfold survives in Hsv. rewrite Forall_forall in Hsv. specialize (Hsv _ Hin').
      cbn in Ho. destruct (decide (t' = t ∧ i' = i)); [done|]. exfalso. apply Hsv.
      split_and!; cbn; [unfold snap_key in *; cbn in *; congruence|by exists key|lia]. }
    exists (t, i). split; [done|]. exists (key, (t, i)). split; [done|].
    by apply elem_of_map_to_list.
Qed.

(** The plan partitions the snapshots, in input order, into those that no
    other snapshot of their cell beats, and the rest.  It never fails: with no
    tiers nothing shares a cell and all are kept. *)
Theorem plan_spec (snapshots : list (Z * T)) :
  plan now_ms snapshots policy =
    let l := enumerate snapshots in
    Some {| keep := (filter (survives l) l).*2.*2;
            dropped := (filter (λ s, ¬ survives l s) l).*2.*2 |}.
Proof.
  unfold plan. destruct (decide (tiers policy = [])) as [E|Hne].
  - assert (∀ s, survives (enumerate snapshots) s) as Hall.
    { intros s. apply Forall_true. intros s' (_ & [key Hk] & _).
      unfold snap_key, cell_key, tier_for in Hk. by rewrite E in Hk. }
    rewrite E. cbv zeta. rewrite list_filter_all, list_filter_none, enumerate_snd by naive_solver.
    done.
  - destruct (plan_loop_ok snapshots Hne) as (best & Hf & Hok).
    destruct (tiers policy) as [|tier ts] eqn:E; [done|]. rewrite Hf.
    cbn [mbind option_bind]. do 2 f_equal; f_equal; f_equal;
      apply list_filter_iff'; intros s Hs;
      rewrite (best_survivors _ _ _ Hok Hs) by (by rewrite E); done.
Qed.
End plan_spec.

(** ** Consequences for snapshots with distinct identities *)

Section plan_cells.
Context {T : Type} `{EqDecision T} (now_ms : Z) (policy : RetentionPolicy).
Implicit Types (snapshots : list (Z * T)) (a b : nat * (Z * T)).

Lemma beats_total a b :
  snap_key now_ms policy a = snap_key now_ms policy b → is_Some (snap_key now_ms policy a) →
  beats now_ms policy a b ∨ beats now_ms policy b a ∨ a.2.1 = b.2.1 ∧ a.1 = b.1.
Proof.
  intros E Hs. unfold beats. rewrite E in *.
  destruct (Z.lt_trichotomy a.2.1 b.2.1) as [|[|]]; [naive_solver| |naive_solver].
  destruct (Nat.lt_trichotomy a.1 b.1) as [|[|]]; naive_solver.
Qed.

Lemma beats_trans a b c :
  beats now_ms policy a b → beats now_ms policy b c → beats now_ms policy a c.
Proof. unfold beats. intros (E1&?&?) (E2&?&?). split_and!; [congruence|done|lia]. Qed.

(** Two survivors of one cell are the same snapshot. *)
Lemma survivors_unique snapshots a b :
  a ∈ enumerate snapshots → b ∈ enumerate snapshots →
  survives now_ms policy (enumerate snapshots) a →
  survives now_ms policy (enumerate snapshots) b →
  snap_key now_ms policy a = snap_key now_ms policy b → is_Some (snap_key now_ms policy a) → a = b.
Proof.
  unfold survives. rewrite !Forall_forall. intros Ha Hb Sa Sb E Hk.
  destruct (beats_total a b E Hk) as [H|[H|[_ Hi]]]; [by apply Sb in H|by apply Sa in H|].
  destruct a as [i x], b as [j y]; cbn in *; subst j.
  apply list_elem_of_enumerate in Ha, Hb. congruence.
Qed.

(** Every cell that is occupied has a survivor at least as new as any of its
    snapshots. *)
Lemma survivor_exists (l : list (nat * (Z * T))) s : s ∈ l →
  ∃ w, w ∈ l ∧ survives now_ms policy l w ∧
    (w = s ∨ beats now_ms policy w s).
Proof.
  revert s. induction l as [|x l IH]; intros s; [by intros ?%elem_of_nil|].
  assert (Hx : ∀ w, survives now_ms policy (x :: l) w ↔
    ¬ beats now_ms policy x w ∧ survives now_ms policy l w) by (intros; unfold survives; by rewrite Forall_cons).
  assert (Hirr : ∀ w : nat * (Z * T), ¬ beats now_ms policy w w) by (intros w (_&_&?); lia).
  assert (Hs : ∀ w, beats now_ms policy x w → survives now_ms policy l w →
    survives now_ms policy (x :: l) x).
  { intros w Hxw Hw. apply Hx. split; [apply Hirr|].
    unfold survives in *. rewrite Forall_forall in *. intros y Hy Hyx.
    eapply Hw, beats_trans; done. }
  intros [->|Hin]%elem_of_cons.
  - destruct (decide (survives now_ms policy l x)) as [Hsx|Hnx].
    + exists x. split_and!; [set_solver|by apply Hx|by left].
    + unfold survives in Hnx. apply not_Forall_Exists, Exists_exists in Hnx as (y & Hy & Hb); [|apply _].
      apply dec_stable in Hb. destruct (IH y Hy) as (w & Hw & Sw & Ho).
      assert (beats now_ms policy w x) as Hwx by (destruct Ho as [->|]; [done|by eapply beats_trans]).
      exists w. split_and!; [set_solver|apply Hx; split; [|done]|by right].
      intros Hxw. eapply (Hirr x), beats_trans; done.
  - destruct (IH s Hin) as (w & Hw & Sw & Ho).
    destruct (decide (beats now_ms policy x w)) as [Hxw|Hnw].
    + exists x. split_and!; [set_solver|by eapply Hs|right].
      destruct Ho as [->|]; [done|by eapply beats_trans].
    + exists w. split_and!; [set_solver|by apply Hx|done].
Qed.

Lemma NoDup_snd_inj snapshots t t' id :
  NoDup snapshots.*2 → (t, id) ∈ snapshots → (t', id) ∈ snapshots → t = t'.
Proof.
  intros Hnd (i & Hi)%list_elem_of_lookup (j & Hj)%list_elem_of_lookup.
  assert (i = j) as ->; [|congruence].
  eapply NoDup_lookup; [done| |]; by rewrite list_lookup_fmap, ?Hi, ?Hj.
Qed.

Lemma survivor_kept snapshots t id :
  NoDup snapshots.*2 → (t, id) ∈ snapshots →
  id ∈ (filter (survives now_ms policy (enumerate snapshots)) (enumerate snapshots)).*2.*2 ↔
  ∃ i, snapshots !! i = Some (t, id) ∧ survives now_ms policy (enumerate snapshots) (i, (t, id)).
Proof.
  intros Hnd Hin. rewrite list_elem_of_fmap. setoid_rewrite list_elem_of_fmap.
  setoid_rewrite list_elem_of_filter. split.
  - intros ([t' id'] & E & ([i x] & E' & Hs & Hi%list_elem_of_enumerate)). simplify_eq/=.
    assert (t = t') as ->; [|by eauto].
    eapply NoDup_snd_inj; [done..|]. by eapply list_elem_of_lookup_2.
  - intros (i & Hi & Hs). exists (t, id). split; [done|]. exists (i, (t, id)).
    split_and!; [done..|]. by apply list_elem_of_enumerate.
Qed.

(** C27. The plan loses and invents nothing, and thins every occupied cell
    to exactly one snapshot, none of the cell being newer than it.  In
    particular it never prunes everything. *)
Theorem plan_one_per_cell snapshots p :
  tiers policy ≠ [] → NoDup snapshots.*2 → plan now_ms snapshots policy = Some p →
  keep p ++ dropped p ≡ₚ snapshots.*2 ∧
  (∀ t id, (t, id) ∈ snapshots → ∃ t' id',
    (t', id') ∈ snapshots ∧ id' ∈ keep p ∧ t ≤ t' ∧
    cell_key now_ms policy t' = cell_key now_ms policy t ∧
    ∀ t'' id'', (t'', id'') ∈ snapshots → id'' ∈ keep p →
      cell_key now_ms policy t'' = cell_key now_ms policy t → id'' = id').
Proof.
  intros Hne Hnd. rewrite plan_spec. cbv zeta. intros [= <-]. cbn [keep dropped]. split.
  - rewrite <- !fmap_app, filter_app_complement, enumerate_snd. done.
  - intros t id [i Hi]%list_elem_of_lookup.
    destruct (survivor_exists (enumerate snapshots) (i, (t, id))) as ([j [t' id']] & Hj & Sj & Ho).
    { by apply list_elem_of_enumerate. }
    assert (t ≤ t' ∧ cell_key now_ms policy t' = cell_key now_ms policy t) as [Ht Hk].
    { destruct Ho as [[= -> -> ->]|(E & _ & Hlt)]; [done|]. cbn in *. split; [lia|done]. }
    exists t', id'. pose proof (proj1 (list_elem_of_enumerate _ _ _) Hj) as Hj'.
    assert ((t', id') ∈ snapshots) as Hin by by eapply list_elem_of_lookup_2.
    split_and!; [done|apply (survivor_kept _ t'); eauto|done..|].
    intros t'' id'' Hin'' (k & Hkk & Sk)%(survivor_kept _ t'') E''; [|done..].
    destruct (cell_key_Some now_ms policy t Hne) as [key Ekey].
    assert ((k, (t'', id'')) = (j, (t', id'))) as [= -> -> ->]; [|done].
    eapply survivors_unique; [by apply list_elem_of_enumerate|done..| |];
      unfold snap_key; cbn; rewrite ?E'', ?Hk, ?Ekey; eauto.
Qed.

(** Planning again at the same instant, over what was kept, keeps all of it. *)
Theorem plan_idempotent snapshots p :
  NoDup snapshots.*2 → plan now_ms snapshots policy = Some p →
  plan now_ms (filter (λ s, s.2 ∈ keep p) snapshots) policy =
    Some {| keep := keep p; dropped := [] |}.
Proof.
  intros Hnd Hp. destruct (decide (tiers policy = [])) as [E|Hne].
  { unfold plan in *. rewrite E in *. injection Hp as <-. cbn.
    rewrite (list_filter_iff' _ (λ _, True)), list_filter_all; [done..|].
    intros s Hs. split; [done|]. intros _. by apply list_elem_of_fmap_2. }
  rewrite plan_spec in Hp. injection Hp as <-. cbn [keep].
  set (l := enumerate snapshots).
  assert (filter (λ s, s.2 ∈ (filter (survives now_ms policy l) l).*2.*2) snapshots
          = (filter (survives now_ms policy l) l).*2) as Hkept.
  { rewrite <- (enumerate_snd snapshots) at 1. fold l. rewrite list_filter_fmap.
    f_equal. apply list_filter_iff'. intros [i [t id]] Hi%list_elem_of_enumerate. cbn.
    unfold l. rewrite (survivor_kept _ t) by (done || by eapply list_elem_of_lookup_2).
    split; [|by eauto]. intros (j & Hj & Sj). assert (i = j) as ->; [|done].
    eapply NoDup_lookup; [done| |]; by rewrite list_lookup_fmap, ?Hi, ?Hj. }
  rewrite Hkept, plan_spec. cbv zeta. set (kept := (filter _ l).*2).
  assert (Hall : ∀ s, s ∈ enumerate kept → survives now_ms policy (enumerate kept) s).
  { intros [j y] Hj. apply Forall_forall. intros [i x] Hi (Ek & Hk & Hlt).
    apply list_elem_of_enumerate in Hi, Hj.
    assert (∀ n z, kept !! n = Some z → ∃ m, (m, z) ∈ l ∧ survives now_ms policy l (m, z)) as Hfrom.
    { intros n z Hz%list_elem_of_lookup_2. unfold kept in Hz.
      apply list_elem_of_fmap in Hz as ([m z'] & -> & [? ?]%list_elem_of_filter). eauto. }
    destruct (Hfrom _ _ Hi) as (m & Hm & Sm), (Hfrom _ _ Hj) as (n & Hn & Sn).
    assert ((m, x) = (n, y)) as [= _ ->].
    { eapply survivors_unique; [done..| |]; unfold snap_key in *; cbn in *; [done|].
      by rewrite Ek. }
    assert (i = j) as ->; [|cbn in Hlt; lia].
    eapply (NoDup_lookup kept); [|done..].
    unfold kept. apply (NoDup_fmap_1 snd).
    rewrite <- Hkept. eapply sublist_NoDup; [exact Hnd|]. apply fmap_sublist, sublist_filter. }
  rewrite (list_filter_iff' _ (λ _, True)), list_filter_all, enumerate_snd by naive_solver.
  rewrite (list_filter_iff' (λ s, ¬ survives _ _ _ s) (λ _, False)) by naive_solver.
  rewrite list_filter_none; [|tauto]. reflexivity.
Qed.
End plan_cells.

(** ** Building a policy *)

(** A tier at its place in a policy. *)
Definition tier_ordered (ts : list Tier) (i : nat) (t : Tier) : Prop :=
  ∀ j t', ts !! j = Some t' → (j ≤ i)%nat → max_age t' ≤ max_age t.

(** The adjacent comparison that the loop makes at index [i]. *)
Definition tier_checked (ts : list Tier) (i : nat) (t : Tier) : Prop :=
  cell t ≠ 0 ∧ ∀ before, ts !! (i - 1)%nat = Some before → (0 < i)%nat → max_age before ≤ max_age t.

Lemma check_tier_Ok ts i t : check_tier ts () (i, t) = Ok () ↔ tier_checked ts i t.
Proof.
  unfold check_tier, tier_checked, Duration_is_zero. case_bool_decide; [naive_solver|].
  destruct (ts !! (i - 1)%nat) as [b|]; [|naive_solver].
  case_decide as Hd; split; try done.
  - intros [_ Ho]. specialize (Ho b eq_refl). lia.
  - intros _. split; [done|]. intros ? [= <-] ?. lia.
Qed.

Lemma check_tiers_Ok ts l :
  foldM (check_tier ts) () l = Ok () ↔ Forall (λ it, tier_checked ts it.1 it.2) l.
Proof.
  induction l as [|[i t] l IH]; cbn [foldM]; [done|].
  rewrite Forall_cons, bind_Ok, <- IH, <- check_tier_Ok. split.
  - intros ([] & ? & ?). done.
  - intros [? ?]. by exists ().
Qed.

Lemma tiers_ordered ts :
  (∀ i t, ts !! i = Some t → tier_checked ts i t) →
  ∀ i t, ts !! i = Some t → tier_ordered ts i t.
Proof.
  intros Hc i. induction i as [|i IH]; intros t Hi j t' Hj Hle.
  - replace j with 0%nat in Hj by lia. assert (t' = t) as -> by congruence. done.
  - destruct (decide (j = S i)) as [->|]; [by replace t with t' by congruence|].
    assert (is_Some (ts !! i)) as [b Hb].
    { apply lookup_lt_is_Some. apply lookup_lt_Some in Hi. lia. }
    destruct (Hc _ _ Hi) as [_ Ho]. replace (S i - 1)%nat with i in Ho by lia.
    transitivity (max_age b); [|apply Ho; [done|lia]]. eapply IH; [done|done|lia].
Qed.

Lemma check_tiers_Err ts l e :
  foldM (check_tier ts) () l = Err e →
  ∃ l1 i t l2, l = l1 ++ (i, t) :: l2 ∧ Forall (λ it, tier_checked ts it.1 it.2) l1 ∧
    check_tier ts () (i, t) = Err e.
Proof.
  induction l as [|[i t] l IH]; cbn [foldM]; [done|].
  intros [H|([] & Hok%check_tier_Ok & H)]%bind_Err.
  - by exists [], i, t, l.
  - destruct (IH H) as (l1 & i' & t' & l2 & -> & Hall & He).
    exists ((i, t) :: l1), i', t', l2. split_and!; [done|by constructor|done].
Qed.

(** [from_tiers] accepts exactly the non-empty lists of tiers with
    non-zero cells whose age bounds never decrease, and keeps them as they are;
    otherwise the error names the first tier that breaks a rule, and which rule.
    The default grid is such a policy. *)
Theorem from_tiers_spec ts :
  match from_tiers ts with
  | Ok p => tiers p = ts ∧ ts ≠ [] ∧
      ∀ i t, ts !! i = Some t → cell t ≠ 0 ∧ tier_ordered ts i t
  | Err NoTiers => ts = []
  | Err (ZeroCell i) => (∃ t, ts !! i = Some t ∧ cell t = 0) ∧
      ∀ j t, (j < i)%nat → ts !! j = Some t → cell t ≠ 0 ∧ tier_ordered (take i ts) j t
  | Err (Unordered i) =>
      (∃ t b, ts !! i = Some t ∧ ts !! (i - 1)%nat = Some b ∧ (0 < i)%nat ∧
        cell t ≠ 0 ∧ max_age t < max_age b) ∧
      ∀ j t, (j < i)%nat → ts !! j = Some t → cell t ≠ 0 ∧ tier_ordered (take i ts) j t
  end ∧ from_tiers (tiers default_grid) = Ok default_grid.
Proof.
  split; [|reflexivity]. destruct ts as [|t0 ts0]; [done|]. set (ts := t0 :: ts0).
  change (from_tiers ts) with (_ ← foldM (check_tier ts) () (enumerate ts);
                               Ok (E := RetentionError) {| tiers := ts |}).
  destruct (foldM (check_tier ts) () (enumerate ts)) as [[]|e] eqn:E; cbn [mbind result_bind tiers].
  - split_and!; [done|done|]. apply check_tiers_Ok in E. rewrite Forall_forall in E.
    assert (∀ i t, ts !! i = Some t → tier_checked ts i t) as Hc.
    { intros i t Hi%list_elem_of_enumerate. by apply (E (i, t)). }
    intros i t Hi. split; [by apply (Hc i t)|by apply tiers_ordered].
  - apply check_tiers_Err in E as (l1 & i & t & l2 & El & Hall & He).
    assert (i = length l1 ∧ ts !! i = Some t) as [-> Hi].
    { assert (enumerate ts !! length l1 = Some (i, t)) as Hl
        by by rewrite El, list_lookup_middle.
      unfold enumerate in Hl. apply list_lookup_imap_Some in Hl as (y & Hy & [= -> ->]). done. }
    assert (∀ j t', (j < length l1)%nat → ts !! j = Some t' → tier_checked ts j t') as Hc.
    { intros j t' Hj Hjt. rewrite Forall_forall in Hall. apply (Hall (j, t')).
      assert (enumerate ts !! j = Some (j, t')) as Hl
        by (unfold enumerate; by rewrite list_lookup_imap, Hjt).
      rewrite El, lookup_app_l in Hl by done. by eapply list_elem_of_lookup_2. }
    assert (∀ j t', (j < length l1)%nat → ts !! j = Some t' →
      cell t' ≠ 0 ∧ tier_ordered (take (length l1) ts) j t') as Hbefore.
    { intros j t' Hj Hjt. split; [by apply (Hc j t')|].
      apply tiers_ordered; [|by rewrite lookup_take_lt].
      intros k b [Hk Hlt]%lookup_take_Some. destruct (Hc k b Hlt Hk) as [? Ho]. split; [done|].
      intros b' [Hb' _]%lookup_take_Some. by apply Ho. }
    unfold check_tier, Duration_is_zero in He. case_bool_decide.
    + injection He as <-. split; [by exists t|done].
    + destruct (ts !! (length l1 - 1)%nat) as [b|] eqn:Hb; [|done].
      case_decide as Hd; [|done]. injection He as <-. split; [|done].
      destruct Hd. by exists t, b.
Qed.

(** ** Examples *)

Module Examples.

Definition snaps : list (Z * string) := [(5, "a"); (6, "b"); (7, "c")]%string.
Definition grid : RetentionPolicy := {| tiers := [ {| max_age := Duration_MAX; cell := 4000000 |} ] |}.

(** Sixty days of snapshots taken every three hours, [t_k = k * 3h], planned at
    the last: the default grid keeps the ones computed by hand. *)
Definition three_hourly : list (Z * Z) :=
  (λ k, (Z.of_nat k * (3 * 60 * 60 * 1000), Z.of_nat k)) <$> seq 0 481.
Definition hand_computed : list Z :=
  [127; 255; 352; 383; 415; 447; 448; 455; 463; 471; 472; 473; 474; 475; 476; 477; 478; 479; 480].

Example sixty_day_simulation :
  (keep <$> plan (480 * (3 * 60 * 60 * 1000)) three_hourly default_grid) = Some hand_computed.
Proof. vm_compute. reflexivity. Qed.

Lemma plan_one_per_cell_witness :
  plan 7 snaps grid = Some {| keep := ["c"]; dropped := ["a"; "b"] |}%string ∧
  ["c"; "a"; "b"]%string ≡ₚ snaps.*2.
Proof.
  split; [vm_compute; reflexivity|].
  refine (proj1 (plan_one_per_cell 7 grid snaps
    {| keep := ["c"]; dropped := ["a"; "b"] |}%string _ _ _)).
  - discriminate.
  - evaluate.
  - vm_compute; reflexivity.
Defined.

Lemma plan_idempotent_witness :
  plan 7 (filter (λ s, s.2 ∈ ["c"]%string) snaps) grid = Some {| keep := ["c"]; dropped := [] |}%string.
Proof.
  refine (plan_idempotent 7 grid snaps {| keep := ["c"]; dropped := ["a"; "b"] |}%string _ _).
  - evaluate.
  - vm_compute; reflexivity.
Defined.
End Examples.
