(* ===== verification/Float.v ===== *)
(** * [f64]: IEEE 754 binary64

    The Standard Library's executable specification of floating-point
    arithmetic, at precision 53 and maximal exponent 1024, rounding to nearest,
    ties to even, as Rust's [f64] operators and [as f64] casts do. *)

From Stdlib Require Export Floats.SpecFloat.
From S2P Require Import Prelude.

Abbreviation f64 := spec_float.

(** [n as f64]. *)
Definition f64_of_Z (z : Z) : f64 := binary_normalize 53 1024 z 0 false.
Definition f64_add : f64 → f64 → f64 := SFadd 53 1024.
Definition f64_sub : f64 → f64 → f64 := SFsub 53 1024.
Definition f64_mul : f64 → f64 → f64 := SFmul 53 1024.
Definition f64_div : f64 → f64 → f64 := SFdiv 53 1024.

(** The comparison operators: all false when an operand is a NaN. *)
Definition f64_ltb : f64 → f64 → bool := SFltb.
Definition f64_leb : f64 → f64 → bool := SFleb.
Definition f64_gtb (x y : f64) : bool := SFltb y x.
Definition f64_eqb : f64 → f64 → bool := SFeqb.
Definition f64_geb (x y : f64) : bool := SFleb y x.

Definition f64_neg : f64 → f64 := SFopp.

(** The literal [a / b], correctly rounded when [a] and [b] are exact. *)
Definition f64_lit (a b : Z) : f64 := f64_div (f64_of_Z a) (f64_of_Z b).

#[global] Instance f64_eq_dec : EqDecision f64.
Proof. solve_decision. Defined.

(** [f64::max]: a NaN loses. *)
Definition f64_max (x y : f64) : f64 :=
  match x, y with
  | S754_nan, _ => y
  | _, S754_nan => x
  | _, _ => if f64_ltb x y then y else x
  end.

(** [f64::min]. *)
Definition f64_min (x y : f64) : f64 :=
  match x, y with
  | S754_nan, _ => y
  | _, S754_nan => x
  | _, _ => if f64_ltb y x then y else x
  end.

Definition f64_infinity : f64 := S754_infinity false.
Definition f64_MIN_POSITIVE : f64 := S754_finite false 4503599627370496 (-1074).
Definition f64_is_finite (x : f64) : bool :=
  match x with S754_zero _ | S754_finite _ _ _ => true | _ => false end.

(** [x.clamp(lo, hi)]. *)
Definition f64_clamp (x lo hi : f64) : f64 :=
  let x := if f64_ltb x lo then lo else x in if f64_ltb hi x then hi else x.

(** [f64::round]: to the nearest integer, halves away from zero. *)
Definition f64_round (x : f64) : f64 :=
  match x with
  | S754_finite s m e =>
      if decide (0 ≤ e) then x
      else
        let n := (2 * Z.pos m + 2 ^ (- e)) / 2 ^ (1 - e) in
        binary_normalize 53 1024 (if s then - n else n) 0 s
  | _ => x
  end.

(** [x as u64], which saturates. *)
Definition f64_to_u64 (x : f64) : Z :=
  match x with
  | S754_infinity false => u64_max
  | S754_finite false m e => Z.min u64_max (if decide (0 ≤ e) then Z.pos m * 2 ^ e else Z.pos m / 2 ^ (- e))
  | _ => 0
  end.

Definition f64_zero : f64 := S754_zero false.
Definition f64_one : f64 := f64_of_Z 1.

(** ** [std::time::Duration] *)

(** [n * 2^e], rounded to the nearest integer, ties to even. *)
Definition round_scaled (n e : Z) : Z :=
  if decide (0 ≤ e) then n * 2 ^ e
  else
    let d := 2 ^ (- e) in
    match 2 * (n mod d) ?= d with
    | Lt => n / d
    | Gt => n / d + 1
    | Eq => if Z.even (n / d) then n / d else n / d + 1
    end.

Definition Duration_as_secs_f64 (d : Duration) : f64 :=
  f64_add (f64_of_Z (d / 1000000000)) (f64_div (f64_of_Z (d mod 1000000000)) (f64_of_Z 1000000000)).

(** [Duration::from_secs_f64] panics, here [None], on a number that is negative,
    too large or not finite. *)
Definition Duration_from_secs_f64 (x : f64) : option Duration :=
  match x with
  | S754_zero _ => Some 0
  | S754_finite false m e =>
      let n := round_scaled (Z.pos m * 1000000000) e in
      if decide (n ≤ Duration_MAX) then Some n else None
  | _ => None
  end.
