(* ===== verification/FloatTheorems.v ===== *)
(** * Bounds on [f64] arithmetic

    When a non-negative exact value is at most a power of two, so is its rounding,
    which is then finite: [at_most k x].  Sums, products and quotients of such
    numbers are bounded accordingly. *)

From S2P Require Import Prelude Float.

(** [0 ≤ x ≤ 2^k] *)
Definition at_most (k : Z) (x : f64) : Prop :=
  match x with
  | S754_zero _ => True
  | S754_finite false m e => Z.pos m ≤ 2 ^ (k - e)
  | _ => False
  end.

(** ** Shifting a mantissa out *)

(** The integer above the exact mantissa. *)
Definition ceiling (r : shr_record) : Z := shr_m r + (if shr_r r || shr_s r then 1 else 0).

Lemma shr_1_bound r j : 0 ≤ shr_m r → ceiling r ≤ 2 ^ (j + 1) → 0 ≤ j →
  0 ≤ shr_m (shr_1 r) ∧ ceiling (shr_1 r) ≤ 2 ^ j.
Proof.
  destruct r as [m r s]. unfold ceiling. cbn [shr_m shr_r shr_s]. intros Hm Hc Hj.
  rewrite Z.pow_add_r in Hc by lia. pose proof (Z.pow_pos_nonneg 2 j ltac:(lia) Hj).
  destruct m as [|[p|p|]|p]; [| | | |lia]; cbn [shr_1 shr_m shr_r shr_s]; destruct r, s; cbn [orb] in *; lia.
Qed.

Lemma iter_shr_bound n r j : 0 ≤ shr_m r → ceiling r ≤ 2 ^ (j + Z.pos n) → 0 ≤ j →
  0 ≤ shr_m (iter_pos shr_1 n r) ∧ ceiling (iter_pos shr_1 n r) ≤ 2 ^ j.
Proof.
  revert r j. induction n as [n IH|n IH|]; intros r j Hm Hc Hj; cbn [iter_pos].
  - destruct (shr_1_bound r (j + 2 * Z.pos n)) as [Hm1 Hc1]; [done| |lia|].
    { by replace (j + 2 * Z.pos n + 1) with (j + Z.pos n~1) by lia. }
    destruct (IH (shr_1 r) (j + Z.pos n)) as [Hm2 Hc2]; [done| |lia|].
    { by replace (j + Z.pos n + Z.pos n) with (j + 2 * Z.pos n) by lia. }
    by apply IH.
  - destruct (IH r (j + Z.pos n)) as [Hm2 Hc2]; [done| |lia|].
    { by replace (j + Z.pos n + Z.pos n) with (j + Z.pos n~0) by lia. }
    by apply IH.
  - by apply shr_1_bound.
Qed.

Lemma digits2_lower p : 2 ^ (Z.pos (digits2_pos p) - 1) ≤ Z.pos p.
Proof.
  induction p as [p IH|p IH|]; cbn [digits2_pos]; [| |done].
  all: replace (Z.pos (Pos.succ (digits2_pos p)) - 1) with (1 + (Z.pos (digits2_pos p) - 1)) by lia;
    rewrite Z.pow_add_r by lia; lia.
Qed.

Lemma digits2_upper p : Z.pos p < 2 ^ Z.pos (digits2_pos p).
Proof.
  induction p as [p IH|p IH|]; cbn [digits2_pos]; [| |done].
  all: replace (Z.pos (Pos.succ (digits2_pos p))) with (1 + Z.pos (digits2_pos p)) by lia;
    rewrite Z.pow_add_r by lia; lia.
Qed.

(** A number of [d] digits that is below a power of two. *)
Lemma Zdigits2_bound m j : 0 ≤ m → m ≤ 2 ^ j → 0 ≤ j → Zdigits2 m ≤ j + 1.
Proof.
  intros Hm Hj H0. destruct m as [|p|p]; [cbn; lia| |lia]. cbn [Zdigits2].
  pose proof (digits2_lower p). apply Z.nlt_ge. intros Hlt.
  assert (2 ^ (j + 1) ≤ 2 ^ (Z.pos (digits2_pos p) - 1)) by (apply Z.pow_le_mono_r; lia).
  rewrite Z.pow_add_r in * by lia. pose proof (Z.pow_pos_nonneg 2 j). lia.
Qed.

Section rounding.
(** A bound within the normal range. *)
Context (k : Z) (Hk : -1074 ≤ k ≤ 900).

Lemma pow_nonneg_arg m e : 0 < m → m ≤ 2 ^ (k - e) → 0 ≤ k - e.
Proof. intros Hm H. destruct (decide (0 ≤ k - e)); [done|]. rewrite Z.pow_neg_r in H by lia. lia. Qed.

Lemma shr_fexp_bound m e l : 0 ≤ m → ceiling (shr_record_of_loc m l) ≤ 2 ^ (k - e) → e ≤ k →
  let '(r, e') := shr_fexp 53 1024 m e l in
  0 ≤ shr_m r ∧ ceiling r ≤ 2 ^ (k - e') ∧ e' ≤ k.
Proof.
  intros Hm Hc He. unfold shr_fexp, shr.
  assert (Hm' : shr_m (shr_record_of_loc m l) = m) by by destruct l as [|[]].
  assert (m ≤ 2 ^ (k - e)).
  { etrans; [|exact Hc]. unfold ceiling. rewrite Hm'. destruct (_ || _); lia. }
  pose proof (Zdigits2_bound m (k - e) ltac:(done) ltac:(done) ltac:(lia)) as Hd.
  destruct (fexp 53 1024 (Zdigits2 m + e) - e) as [|p|p] eqn:Ep; [by rewrite Hm'| |by rewrite Hm'].
  assert (e + Z.pos p ≤ k) as He' by (rewrite <- Ep; unfold fexp, emin; lia).
  destruct (iter_shr_bound p (shr_record_of_loc m l) (k - (e + Z.pos p))) as [Hm2 Hc2]; [by rewrite Hm'| |lia|done].
  by replace (k - (e + Z.pos p) + Z.pos p) with (k - e) by lia.
Qed.

(** Rounding. *)
Lemma binary_round_aux_bound m e l : 0 ≤ m → ceiling (shr_record_of_loc m l) ≤ 2 ^ (k - e) → e ≤ k →
  at_most k (binary_round_aux 53 1024 false m e l).
Proof.
  intros Hm Hc He. unfold binary_round_aux.
  pose proof (shr_fexp_bound m e l Hm Hc He) as H1. destruct (shr_fexp 53 1024 m e l) as [r1 e1].
  destruct H1 as (Hm1 & Hc1 & He1).
  set (m2 := round_nearest_even (shr_m r1) (loc_of_shr_record r1)).
  assert (0 ≤ m2 ∧ m2 ≤ 2 ^ (k - e1)) as [Hm2 Hc2].
  { unfold m2. destruct r1 as [m1 [] []]; unfold ceiling in Hc1; cbn [shr_m shr_r shr_s orb loc_of_shr_record round_nearest_even] in *;
      [|destruct (Z.even m1)|..]; lia. }
  pose proof (shr_fexp_bound m2 e1 loc_Exact Hm2) as H2. destruct (shr_fexp 53 1024 m2 e1 loc_Exact) as [r3 e3].
  destruct H2 as (Hm3 & Hc3 & He3); [unfold ceiling; cbn; lia|done|].
  destruct r3 as [m3 r3 s3]. unfold ceiling in Hc3. cbn [shr_m shr_r shr_s] in *.
  destruct m3 as [|m3|m3]; [done| |lia]. rewrite (proj2 (Z.leb_le _ _)) by lia.
  cbn [at_most]. destruct (r3 || s3); lia.
Qed.

(** Left shifts are exact. *)
Lemma iter_xO m d : Z.pos (Pos.iter xO m d) = Z.pos m * 2 ^ Z.pos d.
Proof.
  induction d as [|d IH] using Pos.peano_ind; [cbn; lia|].
  rewrite Pos.iter_succ. change (Z.pos (Pos.iter xO m d)~0) with (2 * Z.pos (Pos.iter xO m d)).
  rewrite IH. replace (Z.pos (Pos.succ d)) with (1 + Z.pos d) by lia. rewrite Z.pow_add_r by lia. lia.
Qed.

Lemma shl_align_bound m e e' : Z.pos m ≤ 2 ^ (k - e) →
  Z.pos (shl_align m e e').1 ≤ 2 ^ (k - (shl_align m e e').2) ∧ (shl_align m e e').2 ≤ k.
Proof.
  intros Hm. pose proof (pow_nonneg_arg (Z.pos m) e ltac:(done) Hm). unfold shl_align.
  destruct (e' - e) as [|d|d] eqn:Ed; cbn [fst snd]; [split; [done|lia]..|]. rewrite iter_xO.
  split; [|lia]. replace (k - e') with (k - e + Z.pos d) by lia. rewrite Z.pow_add_r by lia.
  apply Z.mul_le_mono_nonneg_r; [lia|done].
Qed.

Lemma binary_normalize_bound z e s : 0 ≤ z → z ≤ 2 ^ (k - e) → at_most k (binary_normalize 53 1024 z e s).
Proof.
  intros Hz Hb. destruct z as [|p|p]; [done| |lia]. cbn [binary_normalize]. unfold binary_round.
  pose proof (shl_align_bound p e (fexp 53 1024 (Z.pos (digits2_pos p) + e)) Hb) as [Hs He].
  destruct (shl_align _ _ _) as [mz ez]; cbn [fst snd] in *.
  apply binary_round_aux_bound; [lia|unfold ceiling; cbn; lia|done].
Qed.
End rounding.

(** ** Operations *)

Lemma at_most_mono k j x : at_most k x → k ≤ j → at_most j x.
Proof.
  destruct x as [| | |[] m e]; try done. cbn. intros Hm Hkj. etrans; [exact Hm|].
  apply Z.pow_le_mono_r; lia.
Qed.

Lemma f64_of_Z_at_most k n : 0 ≤ k ≤ 900 → 0 ≤ n ≤ 2 ^ k → at_most k (f64_of_Z n).
Proof. intros Hk Hn. apply binary_normalize_bound; [lia..|]. rewrite Z.sub_0_r; lia. Qed.

Lemma shifted_mantissa k m e ez : Z.pos m ≤ 2 ^ (k - e) → ez ≤ e → Z.pos (shl_align m e ez).1 ≤ 2 ^ (k - ez).
Proof.
  intros Hm He. pose proof (pow_nonneg_arg k (Z.pos m) e ltac:(done) Hm). unfold shl_align.
  destruct (ez - e) as [|d|d] eqn:Ed; cbn [fst]; [by replace ez with e by lia|lia|].
  rewrite iter_xO. replace (k - ez) with (k - e + Z.pos d) by lia. rewrite Z.pow_add_r by lia.
  apply Z.mul_le_mono_nonneg_r; [lia|done].
Qed.

Lemma f64_add_at_most k x y : -1074 ≤ k + 1 ≤ 900 → at_most k x → at_most k y → at_most (k + 1) (f64_add x y).
Proof.
  intros Hk Hx Hy. destruct x as [sx| | |[] mx ex], y as [sy| | |[] my ey]; try done.
  - by destruct sx, sy.
  - eapply at_most_mono; [exact Hy|lia].
  - eapply at_most_mono; [exact Hx|lia].
  - unfold f64_add, SFadd. cbn [cond_Zopp]. set (ez := Z.min ex ey).
    pose proof (shifted_mantissa k mx ex ez Hx ltac:(lia)). pose proof (shifted_mantissa k my ey ez Hy ltac:(lia)).
    pose proof (pow_nonneg_arg k (Z.pos mx) ex ltac:(done) Hx).
    apply binary_normalize_bound; [done|lia|]. replace (k + 1 - ez) with (1 + (k - ez)) by lia.
    rewrite Z.pow_add_r by lia. lia.
Qed.

Lemma f64_mul_at_most k j x y : -1074 ≤ k + j ≤ 900 → at_most k x → at_most j y → at_most (k + j) (f64_mul x y).
Proof.
  intros Hk Hx Hy. destruct x as [sx| | |[] mx ex], y as [sy| | |[] my ey]; try done.
  unfold f64_mul, SFmul. cbn [xorb]. cbn [at_most] in Hx, Hy.
  pose proof (pow_nonneg_arg k (Z.pos mx) ex ltac:(done) Hx). pose proof (pow_nonneg_arg j (Z.pos my) ey ltac:(done) Hy).
  apply binary_round_aux_bound; [lia|lia| |lia]. unfold ceiling. cbn [shr_record_of_loc shr_m shr_r shr_s orb].
  rewrite Z.add_0_r, Pos2Z.inj_mul. replace (k + j - (ex + ey)) with (k - ex + (j - ey)) by lia.
  rewrite Z.pow_add_r by lia. apply Z.mul_le_mono_nonneg; lia.
Qed.

(** The fraction of a second. *)
Lemma f64_nanos_at_most n : 0 ≤ n < 1000000000 → at_most 1 (f64_div (f64_of_Z n) (f64_of_Z 1000000000)).
Proof.
  intros Hn. pose proof (f64_of_Z_at_most 30 n ltac:(lia) ltac:(lia)) as Hx.
  assert (f64_of_Z 1000000000 = S754_finite false 8388608000000000 (-23)) as -> by (vm_compute; reflexivity).
  destruct (f64_of_Z n) as [s| | |[] m e]; try done. unfold f64_div, SFdiv, SFdiv_core_binary. cbn [xorb at_most] in *.
  set (e' := Z.min _ _). assert (He' : e' ≤ e - -23) by (unfold e'; lia).
  pose proof (pow_nonneg_arg 30 (Z.pos m) e ltac:(done) Hx) as He.
  set (m' := match e - -23 - e' with Z0 => Z.pos m | Z.pos _ => Z.shiftl (Z.pos m) (e - -23 - e') | Z.neg _ => 0 end).
  assert (Hm' : m' = Z.pos m * 2 ^ (e - -23 - e')).
  { unfold m'. destruct (e - -23 - e') eqn:Es; [lia|by rewrite Z.shiftl_mul_pow2 by lia|lia]. }
  destruct (Z.div_eucl m' 8388608000000000) as [q r] eqn:Eq.
  pose proof (Z_div_mod m' 8388608000000000 ltac:(lia)) as Hqr. rewrite Eq in Hqr. destruct Hqr as [Hqr Hr].
  assert (He1 : e' ≤ 1).
  { unfold e'. assert (Zdigits2 (Z.pos m) ≤ 31 - e); [|change (Zdigits2 8388608000000000) with 53; unfold fexp, emin; lia].
    replace (31 - e) with (30 - e + 1) by lia. apply Zdigits2_bound; lia. }
  assert (Hm2 : m' ≤ 2 ^ 52 * 2 ^ (1 - e')).
  { rewrite <- Z.pow_add_r by lia. replace (52 + (1 - e')) with (30 - e + (e - -23 - e')) by lia.
    rewrite Z.pow_add_r, Hm' by lia. apply Z.mul_le_mono_nonneg_r; lia. }
  assert (0 ≤ m') by (rewrite Hm'; lia).
  assert (Hp : 0 < 2 ^ (1 - e')) by lia. set (P := 2 ^ (1 - e')) in *.
  apply binary_round_aux_bound; [lia|lia| |done]. fold P. unfold ceiling, new_location, new_location_even. cbn [Z.even].
  destruct (Z.eqb_spec r 0) as [->|Hr0].
  - cbn [shr_record_of_loc shr_m shr_r shr_s orb]. lia.
  - destruct (2 * r ?= 8388608000000000); cbn [shr_record_of_loc shr_m shr_r shr_s orb]; lia.
Qed.

Lemma as_secs_at_most k d : 1 ≤ k < 900 → 0 ≤ d < 2 ^ k * 1000000000 → at_most (k + 1) (Duration_as_secs_f64 d).
Proof.
  intros Hk Hd. apply f64_add_at_most; [lia|apply f64_of_Z_at_most; [lia|]|].
  - split; [apply Z.div_pos; lia|]. assert (d / 1000000000 < 2 ^ k); [|lia]. apply Z.div_lt_upper_bound; lia.
  - eapply at_most_mono; [apply f64_nanos_at_most, Z.mod_pos_bound; lia|lia].
Qed.

(** ** Back to a duration *)

Lemma round_scaled_bound n e b : 0 ≤ n → (if decide (0 ≤ e) then n * 2 ^ e ≤ b else n ≤ b * 2 ^ (- e)) →
  0 ≤ round_scaled n e ≤ b.
Proof.
  intros Hn Hb. unfold round_scaled. destruct (decide (0 ≤ e)) as [He|He].
  - split; [apply Z.mul_nonneg_nonneg; lia|done].
  - set (d := 2 ^ (- e)) in *. assert (0 < d) by (apply Z.pow_pos_nonneg; lia).
    pose proof (Z.div_mod n d ltac:(lia)) as Hdm. pose proof (Z.mod_pos_bound n d ltac:(lia)).
    assert (0 ≤ n / d) by (apply Z.div_pos; lia). assert (n / d ≤ b) by (apply Z.div_le_upper_bound; lia).
    assert (n mod d ≠ 0 → n / d + 1 ≤ b) as Hup.
    { intros Hne. apply Zlt_le_succ, Z.div_lt_upper_bound; [lia|]. destruct (decide (n = d * b)) as [E|]; [|lia].
      exfalso. apply Hne. rewrite E, Z.mul_comm. by apply Z.mod_mul; lia. }
    destruct (2 * (n mod d) ?= d) eqn:Ec; [destruct (Z.even (n / d))| |]; try lia.
    + apply Z.compare_eq in Ec. lia.
    + apply Z.compare_gt_iff in Ec. lia.
Qed.

Lemma from_secs_at_most k x : 0 ≤ k ≤ 63 → at_most k x →
  ∃ d, Duration_from_secs_f64 x = Some d ∧ 0 ≤ d ≤ 2 ^ k * 1000000000.
Proof.
  intros Hk Hx. assert (Hp : 1 ≤ 2 ^ k) by (pose proof (Z.pow_pos_nonneg 2 k); lia).
  destruct x as [s| | |[] m e]; try done; cbn [Duration_from_secs_f64 at_most] in *.
  - exists 0. split; [done|lia].
  - pose proof (pow_nonneg_arg k (Z.pos m) e ltac:(done) Hx) as He.
    destruct (round_scaled_bound (Z.pos m * 1000000000) e (2 ^ k * 1000000000)) as [Hl Hu]; [lia| |].
    { destruct (decide (0 ≤ e)).
      - assert (Z.pos m * 2 ^ e ≤ 2 ^ k); [|lia]. replace k with (k - e + e) at 1 by lia.
        rewrite Z.pow_add_r by lia. apply Z.mul_le_mono_nonneg_r; lia.
      - assert (Z.pos m ≤ 2 ^ k * 2 ^ (- e)); [|lia]. rewrite <- Z.pow_add_r by lia. done. }
    assert (2 ^ k ≤ 2 ^ 63) by (apply Z.pow_le_mono_r; lia).
    exists (round_scaled (Z.pos m * 1000000000) e). split; [|done].
    rewrite decide_True; [done|]. unfold Duration_MAX, u64_max. lia.
Qed.

(** ** The shape of a rounded number *)

Lemma iter_shr_mantissa n r : 0 ≤ shr_m r →
  0 ≤ shr_m (iter_pos shr_1 n r) ∧ shr_m (iter_pos shr_1 n r) * 2 ^ Z.pos n ≤ shr_m r.
Proof.
  assert (∀ r, 0 ≤ shr_m r → 0 ≤ shr_m (shr_1 r) ∧ shr_m (shr_1 r) * 2 ≤ shr_m r) as H1.
  { intros [m ? ?]. cbn [shr_m]. intros Hm. destruct m as [|[p|p|]|p]; cbn [shr_1 shr_m]; lia. }
  revert r. induction n as [n IH|n IH|]; intros r Hm; cbn [iter_pos]; [| |by apply H1].
  - destruct (H1 r Hm) as [Ha Hb]. destruct (IH _ Ha) as [Hc Hd]. destruct (IH _ Hc) as [He Hf]. split; [done|].
    replace (Z.pos n~1) with (1 + Z.pos n + Z.pos n) by lia. rewrite !Z.pow_add_r by lia. nia.
  - destruct (IH _ Hm) as [Hc Hd]. destruct (IH _ Hc) as [He Hf]. split; [done|].
    replace (Z.pos n~0) with (Z.pos n + Z.pos n) by lia. rewrite Z.pow_add_r by lia. nia.
Qed.

Lemma shr_fexp_mantissa m e l : 0 ≤ m → 0 ≤ shr_m (shr_fexp 53 1024 m e l).1 < 2 ^ 53.
Proof.
  intros Hm. unfold shr_fexp, shr.
  assert (Hm' : shr_m (shr_record_of_loc m l) = m) by by destruct l as [|[]].
  assert (m < 2 ^ Zdigits2 m) as Hd.
  { destruct m as [|p|p]; [cbn; lia|apply digits2_upper|lia]. }
  destruct (fexp 53 1024 (Zdigits2 m + e) - e) as [|p|p] eqn:Ep; cbn [fst].
  2: { destruct (iter_shr_mantissa p (shr_record_of_loc m l)) as [Ha Hb]; [by rewrite Hm'|]. split; [done|].
       rewrite Hm' in Hb. assert (0 < 2 ^ Z.pos p) by lia.
       assert (2 ^ Zdigits2 m ≤ 2 ^ 53 * 2 ^ Z.pos p); [|nia].
       rewrite <- Z.pow_add_r by lia. apply Z.pow_le_mono_r; [lia|]. rewrite <- Ep. unfold fexp, emin. lia. }
  all: rewrite Hm'; split; [done|]; eapply Z.lt_le_trans; [exact Hd|]; apply Z.pow_le_mono_r; [lia|].
  all: revert Ep; unfold fexp, emin; lia.
Qed.

(** Rounding a number of the sign [s]. *)
Definition rounded (s : bool) (x : f64) : Prop :=
  match x with
  | S754_zero s' | S754_infinity s' => s' = s
  | S754_finite s' m _ => s' = s ∧ Z.pos m < 2 ^ 53
  | S754_nan => False
  end.

Lemma binary_round_aux_rounded s m e l : 0 ≤ m → rounded s (binary_round_aux 53 1024 s m e l).
Proof.
  intros Hm. unfold binary_round_aux. pose proof (shr_fexp_mantissa m e l Hm) as H1.
  destruct (shr_fexp 53 1024 m e l) as [r1 e1]. cbn [fst] in H1.
  set (m2 := round_nearest_even (shr_m r1) (loc_of_shr_record r1)).
  assert (0 ≤ m2) as Hm2.
  { unfold m2. destruct r1 as [m1 [] []]; cbn [shr_m loc_of_shr_record round_nearest_even] in *; [|destruct (Z.even m1)|..]; lia. }
  pose proof (shr_fexp_mantissa m2 e1 loc_Exact Hm2) as H2.
  destruct (shr_fexp 53 1024 m2 e1 loc_Exact) as [r3 e3]. cbn [fst] in H2.
  destruct (shr_m r3) as [|p|p]; [done| |lia]. destruct (Z.leb _ _); [split; [done|lia]|done].
Qed.

(** ** Comparisons *)

Definition one_mantissa : positive := 4503599627370496.

Lemma f64_one_eq : f64_one = S754_finite false one_mantissa (-52).
Proof. vm_compute. reflexivity. Qed.

(** Being at most another number, by the exponents and then the mantissas. *)
Lemma SFleb_pos m e m' e' :
  SFleb (S754_finite false m e) (S754_finite false m' e') = true ↔ e < e' ∨ e = e' ∧ Z.pos m ≤ Z.pos m'.
Proof.
  unfold SFleb, SFcompare. destruct (Z.compare_spec e e') as [->|He|He].
  - change (Pos.compare_cont Eq m m') with (Pos.compare m m').
    destruct (Pos.compare_spec m m') as [->|Hm|Hm]; split; lia.
  - split; [lia|done].
  - split; [done|lia].
Qed.

Lemma SFleb_neg m e m' e' :
  SFleb (S754_finite true m' e') (S754_finite true m e) = true ↔
  SFleb (S754_finite false m e) (S754_finite false m' e') = true.
Proof.
  rewrite SFleb_pos. unfold SFleb, SFcompare. destruct (Z.compare_spec e' e) as [->|He|He].
  - change (Pos.compare_cont Eq m' m) with (Pos.compare m' m).
    destruct (Pos.compare_spec m' m) as [->|Hm|Hm]; cbn [CompOpp]; split; lia.
  - split; [done|lia].
  - split; [lia|done].
Qed.

(** Below one, for a number of 53 bits. *)
Lemma at_most_one m e : Z.pos m < 2 ^ 53 → SFleb (S754_finite false m e) f64_one = true →
  Z.pos m ≤ 2 ^ (0 - e) ∧ e ≤ -52.
Proof.
  intros Hm. rewrite f64_one_eq, SFleb_pos. intros [He|[-> Hle]]; [|split; [exact Hle|lia]].
  assert (2 ^ 53 ≤ 2 ^ (0 - e)) by (apply Z.pow_le_mono_r; lia). lia.
Qed.

Lemma SFltb_leb m e m' e' :
  SFltb (S754_finite false m' e') (S754_finite false m e) = false →
  SFleb (S754_finite false m e) (S754_finite false m' e') = true.
Proof.
  unfold SFltb, SFleb, SFcompare. rewrite (Z.compare_antisym e). destruct (e ?= e'); cbn [CompOpp]; try done.
  change (Pos.compare_cont Eq m' m) with (Pos.compare m' m). change (Pos.compare_cont Eq m m') with (Pos.compare m m').
  rewrite (Pos.compare_antisym m). by destruct (m ?= m')%positive.
Qed.

Lemma clamp_unit s x : rounded s x → at_most 0 (f64_clamp x f64_zero f64_one).
Proof.
  intros Hx. destruct x as [s'|[]| |[] m e]; try done. destruct Hx as [_ Hm]. unfold f64_clamp.
  change (f64_ltb (S754_finite false m e) f64_zero) with false. cbn iota beta.
  destruct (f64_ltb f64_one (S754_finite false m e)) eqn:E; [done|].
  apply at_most_one; [done|]. rewrite f64_one_eq in *. by apply SFltb_leb.
Qed.

(** A quotient by a positive number. *)
Lemma f64_div_rounded x d e : x ≠ S754_nan → ∃ s, rounded s (f64_div x (S754_finite false d e)).
Proof.
  intros Hx. destruct x as [s|s| |s m e1]; [by exists s; destruct s..|done|]. exists s. unfold f64_div, SFdiv, SFdiv_core_binary.
  match goal with |- context [Z.div_eucl ?m' _] => set (n := m'); assert (0 ≤ n) as Hn end.
  { unfold n. destruct (_ - _ - _); [lia| |done]. rewrite Z.shiftl_mul_pow2 by lia. lia. }
  pose proof (Z_div_mod n (Z.pos d) ltac:(lia)) as Hq. destruct (Z.div_eucl n (Z.pos d)) as [q r].
  replace s with (xorb s false) at 1 by by destruct s. apply binary_round_aux_rounded.
  destruct Hq. nia.
Qed.
