(* ===== verification/Number.v ===== *)
(** * Numbers as text

    What [u64]'s and [f64]'s [Display] print and [str::parse::<u64>] reads. *)

From stdpp Require Import pretty.
From S2P Require Import Prelude Text Base64 Float.

(** ** [str::parse::<u64>] *)

Definition digit (b : byte) : option Z :=
  let z := byte_to_Z b in if decide (48 ≤ z ≤ 57) then Some (z - 48) else None.

(** One more digit, unless it overflows. *)
Definition take_digit (acc : Z) (b : byte) : option Z :=
  d ← digit b; let n := 10 * acc + d in if decide (n ≤ u64_max) then Some n else None.

Definition parse_u64 (s : bytes) : option Z :=
  let digits := match s with b :: rest => if decide (b = x2b) then rest else s | [] => [] end in
  match digits with [] => None | _ => foldM take_digit 0 digits end.

(** ** [Display] *)

(** [u64]'s [Display]. *)
Definition decimal (n : Z) : bytes := str (pretty (Z.to_N n)).

Definition is_digit (b : byte) : Prop := is_Some (digit b).

Lemma digit_char (d : N) : (d < 10)%N →
  ∃ b, str (String (pretty_N_char d) "") = [b] ∧ digit b = Some (Z.of_N d).
Proof.
  intros Hd. assert (d = 0 ∨ d = 1 ∨ d = 2 ∨ d = 3 ∨ d = 4 ∨ d = 5 ∨ d = 6 ∨ d = 7 ∨ d = 8 ∨ d = 9)%N as Hc by lia.
  repeat destruct Hc as [->|Hc]; [..|subst d]; eexists; (split; [reflexivity|vm_compute; reflexivity]).
Qed.

Lemma str_cons c s : str (String c s) = str (String c "") ++ str s.
Proof. done. Qed.

Lemma pretty_go_digits (x : N) s : ∃ l, str (pretty_N_go x s) = l ++ str s ∧ Forall is_digit l ∧
  ((0 < x)%N → l ≠ []) ∧ (Z.of_N x ≤ u64_max → foldM take_digit 0 l = Some (Z.of_N x)).
Proof.
  revert s. induction (N.lt_wf_0 x) as [x _ IH]; intros s. destruct (decide (x = 0)%N) as [->|Hx].
  { exists []. by split_and!. }
  rewrite pretty_N_go_step by lia. destruct (IH (x / 10)%N ltac:(apply N.div_lt; lia) (String (pretty_N_char (x mod 10)) s))
    as (l & -> & Hl & _ & Hv).
  pose proof (N.mod_lt x 10 ltac:(lia)) as Hm. destruct (digit_char (x mod 10) Hm) as (b & Hb & Hd).
  exists (l ++ [b]). rewrite str_cons, Hb. split_and!; [by rewrite <- app_assoc| |by destruct l|].
  { apply Forall_app. split; [done|]. constructor; [by eexists|constructor]. }
  intros Hmax. pose proof (N.div_mod x 10 ltac:(lia)) as Hdm.
  set (q := (x / 10)%N) in *. set (r := (x mod 10)%N) in *. clearbody q r. rewrite foldM_app, Hv by lia.
  cbn [mbind option_bind foldM]. unfold take_digit. rewrite Hd. cbn [mbind option_bind].
  rewrite decide_True by lia. cbn. f_equal. lia.
Qed.

Lemma decimal_digits n : in_u64 n → decimal n ≠ [] ∧ Forall is_digit (decimal n) ∧ foldM take_digit 0 (decimal n) = Some n.
Proof.
  unfold in_u64. intros Hn. unfold decimal, pretty, pretty_N. destruct (decide (Z.to_N n = 0)%N) as [Hz|Hz].
  { assert (n = 0) as -> by lia. split_and!; [done| |by vm_compute]. constructor; [by vm_compute; eexists|constructor]. }
  destruct (pretty_go_digits (Z.to_N n) "") as (l & -> & Hl & Hne & Hv). rewrite app_nil_r.
  split_and!; [apply Hne; lia|done|]. rewrite Hv by lia. f_equal. lia.
Qed.

Lemma digit_text b : is_digit b → is_text b ∧ b ≠ x2b.
Proof. intros [d Hd]. destruct b; try discriminate Hd; (split; [apply (bool_decide_unpack _); vm_compute; done|done]). Qed.

Lemma parse_u64_decimal n : in_u64 n → parse_u64 (decimal n) = Some n.
Proof.
  intros Hn. destruct (decimal_digits n Hn) as (Hne & Hd & Hv). unfold parse_u64.
  destruct (decimal n) as [|b rest]; [done|]. apply Forall_cons in Hd as [[_ Hb]%digit_text _].
  by rewrite decide_False.
Qed.

Lemma decimal_text n : Forall is_text (decimal n).
Proof.
  unfold decimal, pretty, pretty_N. destruct (decide (Z.to_N n = 0)%N) as [_|_].
  { apply Forall_singleton. by apply digit_text; vm_compute; eexists. }
  destruct (pretty_go_digits (Z.to_N n) "") as (l & -> & Hl & _). rewrite app_nil_r.
  eapply Forall_impl; [exact Hl|]. by intros b [? _]%digit_text.
Qed.

(** ** [f64] *)

Definition f64_sign (x : f64) : bytes :=
  match x with
  | S754_zero true | S754_infinity true | S754_finite true _ _ => str "-"
  | _ => []
  end.

(** [{x:.2}]: the exact value to two decimals, ties to even. *)
Definition f64_fixed2 (x : f64) : bytes :=
  match x with
  | S754_nan => str "NaN"
  | S754_infinity _ => f64_sign x ++ str "inf"
  | S754_zero _ => f64_sign x ++ str "0.00"
  | S754_finite _ m e =>
      let n := round_scaled (Z.pos m * 100) e in
      let cents := decimal (n mod 100) in
      f64_sign x ++ decimal (n / 100) ++ str "." ++ replicate (2 - length cents) x30 ++ cents
  end.

(** The shortest digits that are read back as the integer [n]: the multiple of the
    highest power of ten that rounds to it. *)
Fixpoint shortest (k : nat) (n : Z) : Z :=
  match k with
  | 0%nat => n
  | S k =>
      let p := 10 ^ Z.of_nat (S k) in
      let c := (n + p / 2) / p * p in
      if decide (f64_of_Z c = f64_of_Z n) then c else shortest k n
  end.

(** [{x}] of an integral number; the others are not printed so. *)
Definition f64_integral (x : f64) : bytes :=
  match x with
  | S754_nan => str "NaN"
  | S754_infinity _ => f64_sign x ++ str "inf"
  | S754_zero _ => f64_sign x ++ str "0"
  | S754_finite _ m e => f64_sign x ++ decimal (shortest 309 (round_scaled (Z.pos m) e))
  end.

Lemma f64_sign_text_or_dash x b : b ∈ f64_sign x → b = x2d.
Proof. destruct x as [[]|[]| |[] m e]; cbn; rewrite ?elem_of_nil, ?list_elem_of_singleton; tauto. Qed.

Lemma f64_examples :
  f64_fixed2 (f64_lit 5 4) = str "1.25" ∧ f64_fixed2 (f64_lit 1 8) = str "0.12" ∧
  f64_fixed2 (f64_lit 1 10) = str "0.10" ∧ f64_fixed2 (f64_lit (-9999) 1000) = str "-10.00" ∧
  f64_integral (f64_of_Z 10) = str "10" ∧
  f64_integral (f64_of_Z (2 ^ 64)) = str "18446744073709552000".
Proof. by vm_compute. Qed.
