(* ===== verification/Scheduler.v ===== *)
(** * The schedule ([busyncr-core/src/scheduler.rs])

    A fixed interval and a jitter fraction, a random number generator's
    [random_range] being a parameter ([RandPkg], [RandLaws]). *)

From S2P Require Import Prelude External Float FloatTheorems.

(** [rand::RngExt::random_range] over an inclusive range of [f64]s: a number of the
    range. *)
Class RandPkg (R : Type) := random_range : f64 → f64 → R → f64 * R.

Definition f64_valid (x : f64) : Prop := valid_binary 53 1024 x = true.

Class RandLaws (R : Type) `{RandPkg R} := random_range_in : ∀ lo hi rng x rng',
  f64_valid lo → f64_valid hi → f64_leb lo hi = true → random_range lo hi rng = (x, rng') →
  f64_valid x ∧ f64_leb lo x = true ∧ f64_leb x hi = true.

Definition DEFAULT_INTERVAL : Duration := Duration_from_secs (3 * 60 * 60).
Definition DEFAULT_JITTER : f64 := f64_lit 1 10.

Inductive ScheduleError :=
  | ZeroInterval
  | JitterOutOfRange (jitter : f64).

Record SchedulePolicy := { interval : Duration; jitter : f64 }.

Definition SchedulePolicy_new (interval : Duration) (jitter : f64) : result ScheduleError SchedulePolicy :=
  if Duration_is_zero interval then Err ZeroInterval
  else if f64_leb f64_zero jitter && f64_leb jitter f64_one
  then Ok {| interval := interval; jitter := jitter |}
  else Err (JitterOutOfRange jitter).

Definition default_policy : SchedulePolicy := {| interval := DEFAULT_INTERVAL; jitter := DEFAULT_JITTER |}.

(** The delay before the next run; [None] when [Duration::from_secs_f64] panics. *)
Definition next_delay {R} `{RandPkg R} (p : SchedulePolicy) (rng : R) : option Duration * R :=
  if f64_eqb (jitter p) f64_zero then (Some (interval p), rng)
  else
    let base := Duration_as_secs_f64 (interval p) in
    let '(offset, rng) := random_range (f64_neg (jitter p)) (jitter p) rng in
    (Duration_from_secs_f64 (f64_max (f64_mul base (f64_add f64_one offset)) f64_zero), rng).

(** ** What [new] accepts *)

Record policy_wf (p : SchedulePolicy) : Prop := {
  wf_interval : interval p ≠ 0;
  wf_jitter_valid : f64_valid (jitter p);
  wf_jitter_low : f64_leb f64_zero (jitter p) = true;
  wf_jitter_high : f64_leb (jitter p) f64_one = true;
}.

Lemma new_wf i j p : f64_valid j → SchedulePolicy_new i j = Ok p ↔
  p = {| interval := i; jitter := j |} ∧ policy_wf p.
Proof.
  intros Hv. unfold SchedulePolicy_new, Duration_is_zero. case_bool_decide as Hi.
  - split; [done|]. intros [-> []]. done.
  - destruct (f64_leb f64_zero j) eqn:Hj0, (f64_leb j f64_one) eqn:Hj1; cbn [andb].
    all: split; [try done|intros [-> []]; cbn [jitter] in *; congruence]. by intros [= <-].
Qed.

(** ** Fractions *)

(** [|x| ≤ 1]. *)
Definition unit_frac (x : f64) : Prop :=
  match x with
  | S754_zero _ => True
  | S754_finite _ m e => Z.pos m ≤ 2 ^ (0 - e) ∧ e ≤ -52
  | _ => False
  end.

(** A mantissa has at most 53 bits. *)
Lemma valid_mantissa s m e : f64_valid (S754_finite s m e) → Z.pos m < 2 ^ 53.
Proof.
  unfold f64_valid. cbn [valid_binary]. unfold bounded, canonical_mantissa, fexp.
  intros [Hc _]%andb_prop. apply Z.eqb_eq in Hc. eapply Z.lt_le_trans; [apply digits2_upper|].
  apply Z.pow_le_mono_r; lia.
Qed.

Lemma unit_frac_below_one s m e : f64_valid (S754_finite s m e) →
  SFleb (S754_finite false m e) f64_one = true → unit_frac (S754_finite s m e).
Proof. intros Hv. apply at_most_one. by apply (valid_mantissa s m e). Qed.

(** Whatever lies within the jitter. *)
Lemma unit_frac_between j x : f64_valid x → f64_leb f64_zero j = true → f64_leb j f64_one = true →
  f64_leb (f64_neg j) x = true → f64_leb x j = true → unit_frac x.
Proof.
  unfold f64_leb, f64_neg. intros Hv H0 H1 Hl Hu.
  destruct j as [sj|[]| |[] mj ej]; try done.
  - destruct x as [?|[]| |[] m e]; try done; by destruct sj.
  - destruct x as [?|[]| |[] m e]; try done; cbn [SFopp negb] in *.
    all: apply unit_frac_below_one; [done|]; try rewrite SFleb_neg in Hl; revert H1.
    all: rewrite f64_one_eq, !SFleb_pos; rewrite SFleb_pos in *; lia.
Qed.

(** One plus such a fraction lies between zero and two. *)
Lemma one_plus_at_most x : unit_frac x → at_most 1 (f64_add f64_one x).
Proof.
  intros Hx. rewrite f64_one_eq. destruct x as [s| | |[] m e]; try done.
  - destruct Hx as [Hm He]. eapply (at_most_mono 0); [|lia]. unfold f64_add, SFadd. cbn [cond_Zopp].
    set (ez := Z.min (-52) e). unfold shl_align at 1. assert (ez = e) as -> by lia.
    pose proof (shifted_mantissa 0 one_mantissa (-52) e ltac:(done) He) as Ho.
    unfold shl_align in *. rewrite Z.sub_diag. cbn [fst] in *. destruct (e - -52) as [|d|d] eqn:Ed; [|lia|].
    + assert (e = -52) as -> by lia. cbn [fst]. unfold one_mantissa in *.
      apply binary_normalize_bound; [lia| |]; change (2 ^ (0 - -52)) with 4503599627370496 in *; lia.
    + cbn [fst] in *. rewrite iter_xO in *.
      assert (Hp : 2 ^ (0 - e) = Z.pos one_mantissa * 2 ^ Z.pos d).
      { replace (0 - e) with (52 + Z.pos d) by lia. by rewrite Z.pow_add_r by lia. }
      apply binary_normalize_bound; lia.
  - destruct Hx as [Hm He]. by apply (f64_add_at_most 0).
Qed.

Lemma f64_max_zero k x : at_most k x → at_most k (f64_max x f64_zero).
Proof. by destruct x as [[]| | |[] m e]. Qed.

(** Zero compares equal to the zeros alone. *)
Lemma f64_eqb_zero x : f64_eqb x f64_zero = true ↔ ∃ s, x = S754_zero s.
Proof. split; [destruct x as [s|[]| |[] m e]; [eauto|done..]|by intros [s ->]]. Qed.

Lemma next_delay_draws {R} `{RandLaws R} (p : SchedulePolicy) (k : Z) (rng : R) :
  policy_wf p → 1 ≤ k ≤ 61 → 0 ≤ interval p < 2 ^ k * 1000000000 →
  ∃ d rng', next_delay p rng = (Some d, rng') ∧ 0 ≤ d ≤ 2 ^ (k + 2) * 1000000000 ∧
            ((∃ s, jitter p = S754_zero s) → d = interval p).
Proof.
  destruct p as [i j]. intros [_ Hv Hj0 Hj1] Hk Hi. cbn [interval jitter] in *.
  unfold next_delay. cbn [interval jitter]. destruct (f64_eqb j f64_zero) eqn:Ej.
  { exists i, rng. split; [done|]. split; [|done].
    pose proof (Z.pow_add_r 2 k 2 ltac:(lia) ltac:(lia)). lia. }
  destruct (random_range (f64_neg j) j rng) as [x rng'] eqn:Er.
  apply random_range_in in Er as (Hx & Hl & Hu); [|by destruct j|done|].
  2: { destruct j as [[]|[]| |[] m e]; try done. }
  assert (Hd : at_most (k + 2) (f64_max (f64_mul (Duration_as_secs_f64 i) (f64_add f64_one x)) f64_zero)).
  { apply f64_max_zero. replace (k + 2) with (k + 1 + 1) by lia.
    apply f64_mul_at_most; [lia|apply as_secs_at_most; lia|].
    apply one_plus_at_most. by apply (unit_frac_between j). }
  destruct (from_secs_at_most (k + 2) _ ltac:(lia) Hd) as (d & -> & Hb).
  exists d, rng'. split_and!; [done|lia|lia|]. intros Hs. by apply f64_eqb_zero in Hs; rewrite Hs in Ej.
Qed.

(** A policy that [new] accepts draws a delay without panicking, for every interval
    below [2^k] seconds ([k] at most 61, seventy billion years) and whatever the
    generator: the delay is non-negative and at most four times that bound, and it
    is the interval itself when there is no jitter. *)
Theorem next_delay_total {R} `{RandLaws R} (i : Duration) (j : f64) (p : SchedulePolicy) (k : Z) (rng : R) :
  SchedulePolicy_new i j = Ok p → f64_valid j → 1 ≤ k ≤ 61 → 0 ≤ i < 2 ^ k * 1000000000 →
  ∃ d rng', next_delay p rng = (Some d, rng') ∧ 0 ≤ d ≤ 2 ^ (k + 2) * 1000000000 ∧
            ((∃ s, j = S754_zero s) → d = i).
Proof.
  intros Hn Hv Hk Hi. apply new_wf in Hn as [-> Hwf]; [|done]. by apply next_delay_draws.
Qed.

(** ** Examples *)

Module Examples.

(** A generator that always draws the upper end of the range. *)
#[export] Instance upper_end : RandPkg Z := λ lo hi rng, (hi, rng).

#[export] Instance upper_end_laws : RandLaws Z.
Proof.
  intros lo hi rng x rng' Hlo Hhi Hle [= <- <-]. split_and!; [done..|].
  destruct hi as [|[]| |[] m e]; try done; [by destruct lo as [|[]| |[]]|..].
  all: unfold f64_leb, SFleb, SFcompare; rewrite Z.compare_refl.
  all: change (Pos.compare_cont Eq m m) with (Pos.compare m m); by rewrite Pos.compare_refl.
Qed.

Example default_accepted : SchedulePolicy_new DEFAULT_INTERVAL DEFAULT_JITTER = Ok default_policy.
Proof. vm_compute. reflexivity. Qed.

(** Three hours and eighteen minutes. *)
Example default_delay : next_delay default_policy 0 = (Some (Duration_from_secs (198 * 60)), 0).
Proof. vm_compute. reflexivity. Qed.

Example rejected :
  SchedulePolicy_new 0 DEFAULT_JITTER = Err ZeroInterval ∧
  SchedulePolicy_new 1 (f64_lit 3 2) = Err (JitterOutOfRange (f64_lit 3 2)) ∧
  SchedulePolicy_new 1 S754_nan = Err (JitterOutOfRange S754_nan).
Proof. vm_compute. done. Qed.

Lemma next_delay_total_witness : ∃ d rng', next_delay default_policy 0 = (Some d, rng') ∧
  0 ≤ d ≤ 2 ^ 16 * 1000000000 ∧ ((∃ s, DEFAULT_JITTER = S754_zero s) → d = DEFAULT_INTERVAL).
Proof.
  apply (next_delay_total DEFAULT_INTERVAL DEFAULT_JITTER default_policy 14 0);
    [vm_compute; reflexivity|vm_compute; reflexivity|lia|by vm_compute].
Defined.

(** An interval that [new] accepts and on which the first draw panics. *)
Lemma huge_interval_panics : ∃ p, SchedulePolicy_new Duration_MAX f64_one = Ok p ∧
  (next_delay p 0).1 = None.
Proof. eexists. split; [vm_compute; reflexivity|vm_compute; reflexivity]. Qed.

End Examples.
