(* ===== verification/Compression.v ===== *)
(** * Per-chunk compression ([busyncr-core/src/compression.rs])

    The codec byte in front of a chunk, and the policy engine that chooses
    between the raw chunk, the baseline zstd frame and the escalated one, with
    its counters threaded as the code mutates them. *)

From S2P Require Import Prelude External Float.

Inductive CodecId := Raw | Zstd.

#[global] Instance CodecId_eq_dec : EqDecision CodecId.
Proof. solve_decision. Defined.

Inductive CompressionError :=
  | CE_Empty
  | UnknownCodec (b : byte)
  | Compress (msg : string)
  | Decompress (msg : string).

Definition to_byte (c : CodecId) : byte :=
  match c with Raw => x00 | Zstd => x01 end.

Definition from_byte (b : byte) : result CompressionError CodecId :=
  match byte_to_Z b with
  | 0 => Ok Raw
  | 1 => Ok Zstd
  | _ => Err (UnknownCodec b)
  end.

Definition frame (codec : CodecId) (payload : bytes) : bytes := to_byte codec :: payload.

Definition unframe (framed : bytes) : result CompressionError (CodecId * bytes) :=
  match framed with
  | [] => Err CE_Empty
  | b :: rest =>
      codec ← from_byte b;
      Ok (codec, rest)
  end.

Inductive Phase := InitialFull | Incremental.

#[global] Instance Phase_eq_dec : EqDecision Phase.
Proof. solve_decision. Defined.

Definition DEFAULT_ZSTD_LEVEL : Z := 3.
Definition DEFAULT_ESCALATE_LEVEL : Z := 9.
Definition DEFAULT_KEEP_THRESHOLD : f64 := Eval vm_compute in f64_lit 95 100.
Definition DEFAULT_PROBE_THRESHOLD : f64 := Eval vm_compute in f64_lit 102 100.
Definition DEFAULT_ESCALATE_RATIO : f64 := Eval vm_compute in f64_lit 2 1.

Record PolicyConfig := {
  use_probe : bool;
  escalate : bool;
  zstd_level : Z;
  escalate_level : Z;
  keep_threshold : f64;
  probe_threshold : f64;
  escalate_ratio : f64;
}.

Definition PolicyConfig_default : PolicyConfig := {|
  use_probe := false;
  escalate := false;
  zstd_level := DEFAULT_ZSTD_LEVEL;
  escalate_level := DEFAULT_ESCALATE_LEVEL;
  keep_threshold := DEFAULT_KEEP_THRESHOLD;
  probe_threshold := DEFAULT_PROBE_THRESHOLD;
  escalate_ratio := DEFAULT_ESCALATE_RATIO;
|}.

(** [raw], [zstd3] and [bytes_in] are the source's field names. *)
Record PolicyCounters := {
  raw : Z;
  zstd3 : Z;
  escalated : Z;
  escalation_attempts : Z;
  bytes_in : Z;
  bytes_out : Z;
}.

#[global] Instance PolicyCounters_eq_dec : EqDecision PolicyCounters.
Proof. solve_decision. Defined.

(** [PolicyCounters::default]. *)
Definition PolicyCounters_default : PolicyCounters := {|
  raw := 0; zstd3 := 0; escalated := 0; escalation_attempts := 0; bytes_in := 0; bytes_out := 0 |}.

(** The updates [counters.f += n]. *)
Definition add_counts (c : PolicyCounters) (r z e a i o : Z) : PolicyCounters := {|
  raw := u64_add (raw c) r;
  zstd3 := u64_add (zstd3 c) z;
  escalated := u64_add (escalated c) e;
  escalation_attempts := u64_add (escalation_attempts c) a;
  bytes_in := u64_add (bytes_in c) i;
  bytes_out := u64_add (bytes_out c) o;
|}.

Definition total (c : PolicyCounters) : Z := u64_add (u64_add (raw c) (zstd3 c)) (escalated c).
Definition bytes_saved (c : PolicyCounters) : Z := u64_saturating_sub (bytes_in c) (bytes_out c).

Section policy.
Context `{ZstdPkg}.

Definition compress_zstd (data : bytes) (level : Z) : result CompressionError bytes :=
  map_err Compress (zstd_encode_all data level).

Definition decompress_zstd (data : bytes) : result CompressionError bytes :=
  map_err Decompress (zstd_decode_all data).

Definition decode_chunk (framed : bytes) : result CompressionError bytes :=
  '(codec, payload) ← unframe framed;
  match codec with
  | Raw => Ok payload
  | Zstd => decompress_zstd payload
  end.

Definition lz4_probe_len (chunk : bytes) : Z := len (lz4_compress chunk).

(** [usize as f64] over [usize as f64]. *)
Definition len_ratio (a b : Z) : f64 := f64_div (f64_of_Z a) (f64_of_Z b).

Definition choose_codec (chunk : bytes) (phase : Phase) (cfg : PolicyConfig)
    (counters : PolicyCounters) : (CodecId * bytes) * PolicyCounters :=
  let n := len chunk in
  let counters := add_counts counters 0 0 0 0 n 0 in
  match chunk with
  | [] => ((Raw, chunk), add_counts counters 1 0 0 0 0 0)
  | _ =>
      let store_raw := ((Raw, chunk), add_counts counters 1 0 0 0 0 n) in
      if use_probe cfg &&
         f64_ltb (len_ratio n (Z.max (lz4_probe_len chunk) 1)) (probe_threshold cfg)
      then store_raw else
      match compress_zstd chunk (zstd_level cfg) with
      | Err _ => store_raw
      | Ok z3 =>
          if f64_gtb (f64_of_Z (len z3)) (f64_mul (f64_of_Z n) (keep_threshold cfg))
          then store_raw else
          let baseline counters := ((Zstd, z3), add_counts counters 0 1 0 0 0 (len z3)) in
          if escalate cfg && bool_decide (phase = Incremental) &&
             f64_geb (len_ratio n (len z3)) (escalate_ratio cfg)
          then
            let counters := add_counts counters 0 0 0 1 0 0 in
            match compress_zstd chunk (escalate_level cfg) with
            | Ok z9 =>
                if decide (len z9 < len z3)
                then ((Zstd, z9), add_counts counters 0 0 1 0 0 (len z9))
                else baseline counters
            | Err _ => baseline counters
            end
          else baseline counters
      end
  end.

Definition encode_chunk (chunk : bytes) (phase : Phase) (cfg : PolicyConfig)
    (counters : PolicyCounters) : bytes * PolicyCounters :=
  let '((codec, payload), counters) := choose_codec chunk phase cfg counters in
  (frame codec payload, counters).
End policy.

(** ** Framing *)

(** [unframe] undoes [frame]; it accepts a non-empty plaintext exactly when its
    first byte is 0 or 1, and every reserved byte is reported with its value. *)
Theorem unframe_spec :
  (∀ codec payload, unframe (frame codec payload) = Ok (codec, payload)) ∧
  (∀ framed codec payload, unframe framed = Ok (codec, payload) → framed = frame codec payload) ∧
  unframe [] = Err CE_Empty ∧
  (∀ b rest, 2 ≤ byte_to_Z b ↔ unframe (b :: rest) = Err (UnknownCodec b)).
Proof.
  split_and!.
  - by intros [] payload.
  - intros [|b rest] codec payload; [done|].
    destruct b; cbn; try done; by intros [= <- <-].
  - done.
  - intros b rest. destruct b; cbn; split; intros; (done || lia).
Qed.

(** ** The policy *)

Section policy_lemmas.
Context `{ZstdPkg}.
Implicit Types (chunk : bytes) (phase : Phase) (cfg : PolicyConfig) (c : PolicyCounters).

(** What became of a chunk: stored raw; as the baseline frame, after an
    escalation attempt or without one; or as the escalated frame. *)
Inductive Outcome :=
  | StoredRaw
  | Baseline (z3 : bytes) (attempted : bool)
  | Escalated (z3 z9 : bytes).

(** The policy as a decision, apart from its counters. *)
Definition outcome chunk phase cfg : Outcome :=
  if decide (chunk = []) then StoredRaw else
  if use_probe cfg && f64_ltb (len_ratio (len chunk) (Z.max (lz4_probe_len chunk) 1))
                              (probe_threshold cfg) then StoredRaw else
  match compress_zstd chunk (zstd_level cfg) with
  | Err _ => StoredRaw
  | Ok z3 =>
      if f64_gtb (f64_of_Z (len z3)) (f64_mul (f64_of_Z (len chunk)) (keep_threshold cfg))
      then StoredRaw else
      if escalate cfg && bool_decide (phase = Incremental) &&
         f64_geb (len_ratio (len chunk) (len z3)) (escalate_ratio cfg)
      then match compress_zstd chunk (escalate_level cfg) with
           | Ok z9 => if decide (len z9 < len z3) then Escalated z3 z9 else Baseline z3 true
           | Err _ => Baseline z3 true
           end
      else Baseline z3 false
  end.

Definition outcome_stored chunk (o : Outcome) : CodecId * bytes :=
  match o with
  | StoredRaw => (Raw, chunk)
  | Baseline z3 _ => (Zstd, z3)
  | Escalated _ z9 => (Zstd, z9)
  end.

Definition outcome_counts chunk (o : Outcome) c : PolicyCounters :=
  match o with
  | StoredRaw => add_counts c 1 0 0 0 (len chunk) (len chunk)
  | Baseline z3 attempted => add_counts c 0 1 0 (if attempted then 1 else 0) (len chunk) (len z3)
  | Escalated _ z9 => add_counts c 0 0 1 1 (len chunk) (len z9)
  end.

Lemma add_counts_add c r z e a i o r' z' e' a' i' o' :
  add_counts (add_counts c r z e a i o) r' z' e' a' i' o' =
  add_counts c (r + r') (z + z') (e + e') (a + a') (i + i') (o + o').
Proof. unfold add_counts; cbn. by rewrite !u64_add_assoc. Qed.

Lemma choose_codec_eq chunk phase cfg c :
  choose_codec chunk phase cfg c =
    (outcome_stored chunk (outcome chunk phase cfg),
     outcome_counts chunk (outcome chunk phase cfg) c).
Proof.
  unfold choose_codec, outcome. case_decide as Hc.
  { subst. cbn. by rewrite add_counts_add. }
  destruct chunk as [|b chunk]; [done|]. set (ch := b :: chunk).
  destruct (use_probe cfg && _); [cbn; by rewrite add_counts_add|].
  destruct (compress_zstd ch (zstd_level cfg)) as [z3|]; [|cbn; by rewrite add_counts_add].
  destruct (f64_gtb _ _); [cbn; by rewrite add_counts_add|].
  destruct (escalate cfg && _ && _); [|cbn; by rewrite add_counts_add].
  destruct (compress_zstd ch (escalate_level cfg)) as [z9|];
    [case_decide|]; cbn; rewrite !add_counts_add; by rewrite ?Z.add_0_r, ?Z.add_0_l.
Qed.

(** The parts of a decision. *)
Lemma outcome_Baseline chunk phase cfg z3 attempted :
  outcome chunk phase cfg = Baseline z3 attempted →
  compress_zstd chunk (zstd_level cfg) = Ok z3 ∧
  f64_gtb (f64_of_Z (len z3)) (f64_mul (f64_of_Z (len chunk)) (keep_threshold cfg)) = false ∧
  (attempted → escalate cfg ∧ phase = Incremental).
Proof.
  unfold outcome. repeat case_decide; try done.
  all: destruct (use_probe cfg && _); [done|].
  all: destruct (compress_zstd chunk (zstd_level cfg)) as [z|]; [|done].
  all: destruct (f64_gtb _ _) eqn:Hk; [done|].
  all: destruct (escalate cfg && _ && _) eqn:He; [|by intros [= <- <-]].
  all: rewrite !andb_true_iff, bool_decide_eq_true in He; destruct He as [[He ?] _].
  all: destruct (compress_zstd chunk (escalate_level cfg)); [case_decide; [done|]|];
    intros [= <- <-]; by rewrite He.
Qed.

Lemma outcome_Escalated chunk phase cfg z3 z9 :
  outcome chunk phase cfg = Escalated z3 z9 →
  compress_zstd chunk (zstd_level cfg) = Ok z3 ∧ compress_zstd chunk (escalate_level cfg) = Ok z9 ∧
  f64_gtb (f64_of_Z (len z3)) (f64_mul (f64_of_Z (len chunk)) (keep_threshold cfg)) = false ∧
  f64_geb (len_ratio (len chunk) (len z3)) (escalate_ratio cfg) = true ∧
  len z9 < len z3 ∧ escalate cfg ∧ phase = Incremental.
Proof.
  unfold outcome. case_decide; [done|].
  destruct (use_probe cfg && _); [done|].
  destruct (compress_zstd chunk (zstd_level cfg)) as [z|]; [|done].
  destruct (f64_gtb _ _) eqn:Hk; [done|].
  destruct (escalate cfg && _ && _) eqn:He; [|done].
  destruct (compress_zstd chunk (escalate_level cfg)); [|done]. destruct (decide (len _ < len _)); [|done].
  intros [= <- <-]. rewrite !andb_true_iff, bool_decide_eq_true in He.
  destruct He as [[He ?] ?]. by rewrite He.
Qed.

(** What is stored is either the chunk itself under the raw codec, or a zstd
    frame of it, made at the baseline level and within the keep threshold, or at
    the escalation level when the baseline reached the escalation ratio, the
    configuration and the phase allow it and the retry is strictly smaller. *)
Theorem choose_codec_stored chunk phase cfg c :
  match choose_codec chunk phase cfg c with
  | ((Raw, payload), _) => payload = chunk
  | ((Zstd, payload), _) => chunk ≠ [] ∧ ∃ z3, compress_zstd chunk (zstd_level cfg) = Ok z3 ∧
      f64_gtb (f64_of_Z (len z3)) (f64_mul (f64_of_Z (len chunk)) (keep_threshold cfg)) = false ∧
      (payload = z3 ∨
       compress_zstd chunk (escalate_level cfg) = Ok payload ∧ len payload < len z3 ∧
       f64_geb (len_ratio (len chunk) (len z3)) (escalate_ratio cfg) = true ∧
       escalate cfg ∧ phase = Incremental)
  end.
Proof.
  rewrite choose_codec_eq. destruct (outcome chunk phase cfg) as [|z3 at3|z3 z9] eqn:E; cbn; [done| |];
    (assert (chunk ≠ []) by (intros ->; unfold outcome in E; by case_decide)); (split; [done|]).
  - apply outcome_Baseline in E as (?&?&_). eauto.
  - apply outcome_Escalated in E as (?&?&?&?&?&?&?). exists z3. split_and!; [done..|right; done].
Qed.

(** Each chunk is counted exactly once, in the bucket of what was stored; the
    byte counters grow by the chunk's length and the stored payload's length;
    an escalation is attempted only when the configuration and the phase allow
    it, and every escalated chunk was an attempt.  All of it wraps at 64 bits. *)
Theorem choose_codec_counters chunk phase cfg c :
  let '((codec, payload), c') := choose_codec chunk phase cfg c in
  ∃ r z e a, c' = add_counts c r z e a (len chunk) (len payload) ∧
    0 ≤ r ∧ 0 ≤ z ∧ 0 ≤ e ≤ a ∧ a ≤ 1 ∧ r + z + e = 1 ∧
    (codec = Raw ↔ r = 1) ∧ (a = 1 → escalate cfg ∧ phase = Incremental) ∧
    total c' = u64_add (total c) 1.
Proof.
  rewrite choose_codec_eq.
  assert (∀ r z e a i o, r + z + e = 1 → total (add_counts c r z e a i o) = u64_add (total c) 1) as Ht.
  { intros r z e a i o <-. unfold total, add_counts, u64_add; cbn.
    assert (∀ M x y w u v s, ((((x + u) mod M + (y + v) mod M) mod M) + (w + s) mod M) mod M
      = (((x + y) mod M + w) mod M + (u + v + s)) mod M) as ->; [|done].
    intros. rewrite <- (Zplus_mod (x + u)), <- Zplus_mod.
    rewrite !Zplus_mod_idemp_l, <- ?Z.add_assoc, ?Zplus_mod_idemp_l. f_equal. lia. }
  destruct (outcome chunk phase cfg) as [|z3 at3|z3 z9] eqn:E; cbn [outcome_stored outcome_counts].
  - exists 1, 0, 0, 0. split_and!; try done; try lia. by apply Ht.
  - apply outcome_Baseline in E as (_&_&Ha). exists 0, 1, 0, (if at3 then 1 else 0).
    destruct at3; split_and!; try done; try lia; try (intros _; apply Ha; done); try by apply Ht.
  - apply outcome_Escalated in E as (_&_&_&_&_&?&?). exists 0, 0, 1, 1.
    split_and!; try done; try lia. by apply Ht.
Qed.

(** During the initial full backup the escalation flag has no effect at all:
    the same payload and counters as with the flag off. *)
Theorem initial_full_never_escalates chunk cfg c :
  let off := {| use_probe := use_probe cfg; escalate := false; zstd_level := zstd_level cfg;
                escalate_level := escalate_level cfg; keep_threshold := keep_threshold cfg;
                probe_threshold := probe_threshold cfg; escalate_ratio := escalate_ratio cfg |} in
  choose_codec chunk InitialFull cfg c = choose_codec chunk InitialFull off c ∧
  let '(_, c') := choose_codec chunk InitialFull cfg c in
  escalated c' = u64_add (escalated c) 0 ∧
  escalation_attempts c' = u64_add (escalation_attempts c) 0.
Proof.
  intros off. rewrite !choose_codec_eq.
  assert (outcome chunk InitialFull cfg = outcome chunk InitialFull off) as E.
  { unfold outcome, off; cbn. by rewrite andb_false_r. }
  split; [by rewrite E|]. destruct (outcome chunk InitialFull cfg) as [|z3 at3|z3 z9] eqn:E'; cbn.
  - done.
  - apply outcome_Baseline in E' as (_&_&Ha). destruct at3; [|done].
    destruct Ha as [_ ?]; done.
  - by apply outcome_Escalated in E' as (_&_&_&_&_&_&?).
Qed.

Lemma decompress_compress `{!ZstdLaws} data level z :
  compress_zstd data level = Ok z → decompress_zstd z = Ok data.
Proof.
  unfold compress_zstd, decompress_zstd. intros E%map_err_Ok%zstd_decode_encode.
  by rewrite E.
Qed.

Lemma decode_chosen `{!ZstdLaws} chunk phase cfg c codec payload c' :
  choose_codec chunk phase cfg c = ((codec, payload), c') → decode_chunk (frame codec payload) = Ok chunk.
Proof.
  rewrite choose_codec_eq. destruct (outcome chunk phase cfg) as [|z3 at3|z3 z9] eqn:E; intros [= <- <- _].
  - done.
  - apply outcome_Baseline in E as (E&_). by eapply decompress_compress.
  - apply outcome_Escalated in E as (_&E&_). by eapply decompress_compress.
Qed.

(** C25. Restoring what was encoded gives the chunk back, in every phase, under
    every configuration (thresholds and levels of any value) and whatever the
    counters hold. *)
Theorem decode_encode_chunk `{!ZstdLaws} chunk phase cfg c :
  decode_chunk (encode_chunk chunk phase cfg c).1 = Ok chunk.
Proof.
  unfold encode_chunk. destruct (choose_codec chunk phase cfg c) as [[codec payload] c'] eqn:E.
  by eapply decode_chosen.
Qed.
End policy_lemmas.

(** ** Examples *)

Module Examples.
Import Reference.

Definition always_keep : PolicyConfig := {|
  use_probe := false; escalate := true; zstd_level := 3; escalate_level := 9;
  keep_threshold := f64_lit 2 1; probe_threshold := f64_lit 1 1; escalate_ratio := f64_lit 2 1 |}.

Lemma decode_encode_chunk_witness :
  (encode_chunk (replicate 40 x07) Incremental PolicyConfig_default PolicyCounters_default).1
    = x01 :: x01 :: x07 :: u64_to_le 40 ∧
  decode_chunk (encode_chunk (replicate 40 x07) Incremental PolicyConfig_default
    PolicyCounters_default).1 = Ok (replicate 40 x07).
Proof. split; [vm_compute; reflexivity|apply decode_encode_chunk]. Defined.

(** With a keep threshold above 1 a frame larger than the chunk is kept: more
    bytes are stored than came in, and [bytes_saved] reports 0 by saturation. *)
Theorem keep_threshold_above_one :
  let c := (choose_codec [x01; x02; x03] InitialFull always_keep PolicyCounters_default).2 in
  bytes_in c = 3 ∧ bytes_out c = 4 ∧ bytes_saved c = 0.
Proof. vm_compute. done. Qed.
End Examples.
