(* ===== verification/ClientConfig.v ===== *)
(** * Sizes, intervals and the client's configuration

    The number syntax of the command lines ([parse_size] of
    [busyncr-client/src/config.rs] and [bench_cmd.rs], [parse_duration] of
    [main.rs], [parse_interval] of [service.rs]) and [ClientConfig] of [config.rs],
    whose TOML parser is a parameter. *)

From S2P Require Import Prelude External Text Base64 Number Chunking Compression.

(** ** Numbers with a unit *)

(** The number and the multiplier of its unit; [units] are the suffixes. *)
Definition split_unit (units : list (byte * Z)) (t : bytes) : bytes * Z :=
  match last t with
  | Some b =>
      match list_find (λ u, u.1 = b) units with
      | Some (_, (_, multiplier)) => (removelast t, multiplier)
      | None => (t, 1)
      end
  | None => (t, 1)
  end.

(** The four parsers share their steps; [empty], [bad] and [overflow] are their errors. *)
Definition parse_quantity {E} (empty bad overflow : E) (units : list (byte * Z)) (s : bytes) : result E Z :=
  let t := trim s in
  match t with
  | [] => Err empty
  | _ =>
      let '(digits, multiplier) := split_unit units t in
      value ← ok_or bad (parse_u64 digits);
      ok_or overflow (u64_checked_mul value multiplier)
  end.

Definition size_units : list (byte * Z) := [(x6b, 1024); (x4b, 1024); (x6d, 1024 * 1024); (x4d, 1024 * 1024)].
Definition time_units : list (byte * Z) := [(x68, 3600); (x48, 3600); (x6d, 60); (x4d, 60); (x73, 1); (x53, 1)].

(** ** [config.rs] *)

(** The paths and sources inside are left out. *)
Inductive ConfigError :=
  | ConfigIo
  | ConfigParse
  | NoFolders
  | ChunkSizeUnset
  | BadChunkSize (value : bytes) (reason : string)
  | ConfigChunking (e : ChunkingError).

Definition parse_size (s : bytes) : result ConfigError Z :=
  let bad := BadChunkSize s in
  parse_quantity (bad "empty size") (bad "not a number") (bad "overflows") size_units s.

Record ClientConfig := {
  daemon : bytes;
  folders : list bytes;
  chunk_target_size : option bytes;
  compression : PolicyConfig;
}.

(** [toml::from_str::<ClientConfig>]. *)
Class ClientConfigToml := parse_client_config : bytes → option ClientConfig.

(** [Path::parent]: what is before the last component, the spelling of separators
    apart. *)
Definition parent (path : bytes) : option bytes :=
  match last (components path) with
  | None | Some RootDir => None
  | _ => Some (foldl push [] ((λ c, match c with
      | RootDir => [SLASH] | CurDir => str "." | ParentDir => str ".." | Normal n => n end) <$>
      removelast (components path)))
  end.

Definition is_relative (path : bytes) : bool := negb (bool_decide (head path = Some SLASH)).

Definition resolve_folder (base folder : bytes) : bytes :=
  if is_relative folder then push base folder else folder.

(** [text]: what [fs::read_to_string] answers, [None] being an error. *)
Definition load `{ClientConfigToml} (path : bytes) (text : option bytes) : result ConfigError ClientConfig :=
  text ← ok_or ConfigIo text;
  config ← ok_or ConfigParse (parse_client_config text);
  match folders config with
  | [] => Err NoFolders
  | _ =>
      match parent path with
      | Some base => Ok {| daemon := daemon config; folders := resolve_folder base <$> folders config;
                           chunk_target_size := chunk_target_size config; compression := compression config |}
      | None => Ok config
      end
  end.

Definition chunker `{FastCdcPkg} (config : ClientConfig) (allow_default : bool) : result ConfigError ChunkerConfig :=
  match chunk_target_size config with
  | Some value => bytes ← parse_size value; map_err ConfigChunking (ChunkerConfig_with_target bytes)
  | None =>
      if allow_default then map_err ConfigChunking (ChunkerConfig_with_target DEFAULT_TARGET_SIZE)
      else Err ChunkSizeUnset
  end.

(** ** The other parsers *)

Inductive ServiceError := BadInterval (s : bytes) | IntervalOverflow.

(** Whole seconds. *)
Definition parse_interval (s : bytes) : result ServiceError Duration :=
  Duration_from_secs <$> parse_quantity (BadInterval s) (BadInterval s) IntervalOverflow time_units s.

(** [anyhow] errors, as their messages. *)
Definition parse_duration (s : bytes) : result string Duration :=
  Duration_from_secs <$>
    parse_quantity "empty interval" "not a valid interval (e.g. 3h, 90m, 5400s)" "interval overflows" time_units s.

Definition bench_parse_size (s : bytes) : result string Z :=
  parse_quantity "empty size in --sizes" "invalid size (use e.g. 256K, 1M, or bytes)" "size overflows" size_units s.

(** ** Printed numbers are read back *)

(** A number and its unit, if any. *)
Lemma parse_quantity_decimal {E} (empty bad overflow : E) units n : in_u64 n →
  Forall (λ u, is_text u.1 ∧ digit u.1 = None) units → NoDup units.*1 →
  parse_quantity empty bad overflow units (decimal n) = Ok n ∧
  ∀ u m, (u, m) ∈ units → parse_quantity empty bad overflow units (decimal n ++ [u]) =
    if decide (n * m ≤ u64_max) then Ok (n * m) else Err overflow.
Proof.
  intros Hn Hu Hnd. destruct (decimal_digits n Hn) as (Hne & Hd & _).
  assert (Forall is_text (decimal n)) as Ht by (eapply Forall_impl; [exact Hd|]; by intros b [? _]%digit_text).
  unfold parse_quantity, split_unit. split.
  - rewrite trim_text by done. destruct (decimal n) as [|b rest] eqn:Edec; [done|]. rewrite <- Edec in *.
    assert (match last (decimal n) with
      | Some b => match list_find (λ u, u.1 = b) units with Some (_, (_, m)) => (removelast (decimal n), m) | None => (decimal n, 1) end
      | None => (decimal n, 1) end = (decimal n, 1)) as ->.
    { destruct (last (decimal n)) as [c|] eqn:El; [|done]. destruct (list_find _ units) as [[i [u m]]|] eqn:Ef; [|done].
      apply list_find_Some in Ef as (Hi & Huc & _). cbn in Huc. subst u.
      apply last_Some_elem_of in El. apply (proj1 (Forall_forall _ _) Hd) in El as [d Hdc].
      apply list_elem_of_lookup_2 in Hi. destruct (proj1 (Forall_forall _ _) Hu _ Hi) as [_ Hno]. cbn in Hno. congruence. }
    rewrite parse_u64_decimal by done. cbn. unfold u64_checked_mul. rewrite Z.mul_1_r, decide_True by apply Hn. done.
  - intros u m Hin. destruct (proj1 (Forall_forall _ _) Hu _ Hin) as [Hut _]. cbn in Hut.
    rewrite trim_text by (apply Forall_app; split; [done|by apply Forall_singleton]).
    assert (decimal n ++ [u] ≠ []) as Hne' by by destruct (decimal n). destruct (decimal n ++ [u]) eqn:Edec; [done|]. rewrite <- Edec.
    rewrite last_snoc. destruct (list_find _ units) as [[i [u' m']]|] eqn:Ef.
    2: { apply list_find_None in Ef. by destruct (proj1 (Forall_forall _ _) Ef _ Hin). }
    apply list_find_Some in Ef as (Hi & Huu & _). cbn in Huu. subst u'. apply list_elem_of_lookup_2 in Hi.
    assert (m' = m) as -> by by eapply NoDup_fst_elem.
    rewrite removelast_last, parse_u64_decimal by done. cbn. unfold u64_checked_mul. by destruct (decide _).
Qed.

(** What is printed with a unit is read back: for every count, the sizes with K or
    M (in either case) or without a unit, and the intervals in hours, minutes and
    seconds, are the count times the unit, or the overflow error when that exceeds
    64 bits, for the configuration file, the two command lines and the Windows
    service alike. *)
Theorem quantities_round_trip n : in_u64 n →
  let with_unit {E} (parse : bytes → result E Z) overflow '(u, m) :=
    parse (decimal n ++ [u]) = if decide (n * m ≤ u64_max) then Ok (n * m) else Err (overflow (decimal n ++ [u])) in
  let seconds {E} (parse : bytes → result E Duration) overflow '(u, m) :=
    parse (decimal n ++ [u]) =
      if decide (n * m ≤ u64_max) then Ok (Duration_from_secs (n * m)) else Err (overflow (decimal n ++ [u])) in
  (parse_size (decimal n) = Ok n ∧ Forall (with_unit parse_size (λ s, BadChunkSize s "overflows")) size_units) ∧
  (bench_parse_size (decimal n) = Ok n ∧ Forall (with_unit bench_parse_size (λ _, "size overflows"%string)) size_units) ∧
  (parse_interval (decimal n) = Ok (Duration_from_secs n) ∧
   Forall (seconds parse_interval (λ _, IntervalOverflow)) time_units) ∧
  (parse_duration (decimal n) = Ok (Duration_from_secs n) ∧
   Forall (seconds parse_duration (λ _, "interval overflows"%string)) time_units).
Proof.
  intros Hn.
  assert (∀ units, units = size_units ∨ units = time_units →
    Forall (λ u, is_text u.1 ∧ digit u.1 = None) units ∧ NoDup units.*1) as Hunits.
  { intros units [->| ->]; (split; [|apply (bool_decide_unpack _); vm_compute; done]).
    all: repeat constructor; apply (bool_decide_unpack _); vm_compute; done. }
  destruct (Hunits size_units) as [Hs1 Hs2]; [by left|]. destruct (Hunits time_units) as [Ht1 Ht2]; [by right|].
  assert (∀ {E} (e1 e2 e3 : E) units, Forall (λ u, is_text u.1 ∧ digit u.1 = None) units → NoDup units.*1 →
    parse_quantity e1 e2 e3 units (decimal n) = Ok n) as Hplain by (intros; by apply parse_quantity_decimal).
  assert (∀ {E} (e1 e2 e3 : E) units u m, Forall (λ u, is_text u.1 ∧ digit u.1 = None) units → NoDup units.*1 →
    (u, m) ∈ units → parse_quantity e1 e2 e3 units (decimal n ++ [u]) =
      if decide (n * m ≤ u64_max) then Ok (n * m) else Err e3) as Hunit by (intros; by apply parse_quantity_decimal).
  cbn zeta. unfold parse_size, bench_parse_size, parse_interval, parse_duration.
  split_and!; try (rewrite Hplain by done; done); apply Forall_forall; intros [u m] Hin; rewrite (Hunit _ _ _ _ _ u m) by done;
    by destruct (decide _).
Qed.

(** ** The committed chunk size *)

Section chunker.
Context `{FastCdcLaws}.

Lemma with_target_Ok target cfg : ChunkerConfig_with_target target = Ok cfg →
  ChunkerConfig_wf cfg ∧ target_size cfg = target ∧ min_size cfg = target / 4 ∧
  max_size cfg = u64_saturating_mul target 4.
Proof.
  unfold ChunkerConfig_with_target. intros Hc.
  pose proof Hc as (H1 & H2 & H3 & H4 & ->)%ChunkerConfig_new_Ok. cbn [target_size min_size max_size].
  repeat split; try done.
Qed.

(** C40. A backup is chunked with a well-formed configuration or not at all: with the
    committed size, a quarter and four times of it as bounds, whatever the flag; and
    without a committed size only on request, with one mebibyte.  The refusal names
    its reason: nothing committed, a size that does not parse, or one that is out of
    range. *)
Theorem chunker_well_formed (config : ClientConfig) (allow_default : bool) :
  match chunker config allow_default with
  | Ok cfg => ChunkerConfig_wf cfg ∧ min_size cfg = target_size cfg / 4 ∧
      max_size cfg = u64_saturating_mul (target_size cfg) 4 ∧
      match chunk_target_size config with
      | Some value => parse_size value = Ok (target_size cfg)
      | None => allow_default = true ∧ target_size cfg = 1048576
      end
  | Err e =>
      match chunk_target_size config with
      | None => allow_default = false ∧ e = ChunkSizeUnset
      | Some value => parse_size value = Err e ∨
          ∃ n m, parse_size value = Ok n ∧ ChunkerConfig_with_target n = Err (InvalidConfig m) ∧ e = ConfigChunking (InvalidConfig m)
      end
  end.
Proof.
  unfold chunker. destruct (chunk_target_size config) as [value|].
  - destruct (parse_size value) as [n|e]; cbn [mbind result_bind]; [|by left].
    destruct (ChunkerConfig_with_target n) as [cfg|e] eqn:Ec; cbn [map_err].
    + apply with_target_Ok in Ec as (Hwf & <- & -> & ->). done.
    + assert (∃ m, e = InvalidConfig m) as [m ->]; [|right; by exists n, m].
      revert Ec. unfold ChunkerConfig_with_target, ChunkerConfig_new. repeat destruct (decide _); intros [= <-]; eauto.
  - destruct allow_default; [|done].
    assert (ChunkerConfig_with_target DEFAULT_TARGET_SIZE = Ok ChunkerConfig_default) as Hdef
      by by apply ChunkerConfig_new_Ok.
    rewrite Hdef. apply with_target_Ok in Hdef as (Hwf & _). cbn [map_err].
    split; [exact Hwf|]. by repeat split.
Qed.
End chunker.

(** ** On concrete inputs *)

Module Examples.
Import Reference.

Lemma quantities_round_trip_witness :
  in_u64 1048576 ∧ parse_size (decimal 1048576 ++ [x4b]) = Ok 1073741824 ∧
  parse_interval (decimal 1048576 ++ [x68]) = Ok (Duration_from_secs 3774873600).
Proof.
  assert (in_u64 1048576) as Hn by (split; vm_compute; congruence).
  destruct (quantities_round_trip 1048576 Hn) as ((_ & Hs) & _ & (_ & Ht) & _).
  apply Forall_cons in Hs as [_ Hs]. apply Forall_cons in Hs as [Hs _]. apply Forall_cons in Ht as [Ht _].
  split; [exact Hn|]. split; [exact Hs|exact Ht].
Defined.

Definition committed (size : option bytes) : ClientConfig := {|
  daemon := str "https://backup:47820"; folders := [str "/home"]; chunk_target_size := size;
  compression := PolicyConfig_default |}.

(** A committed size, no size, and no size with the flag. *)
Lemma chunker_well_formed_witness :
  chunker (committed (Some (str "256K"))) false = Ok {| min_size := 65536; target_size := 262144; max_size := 1048576 |} ∧
  chunker (committed None) false = Err ChunkSizeUnset ∧
  ∃ cfg, chunker (committed None) true = Ok cfg ∧ ChunkerConfig_wf cfg ∧ target_size cfg = 1048576.
Proof.
  split; [vm_compute; reflexivity|]. split; [reflexivity|].
  pose proof (chunker_well_formed (committed None) true) as Hc. destruct (chunker (committed None) true) as [cfg|e].
  - exists cfg. destruct Hc as (Hwf & _ & _ & _ & Ht). exact (conj eq_refl (conj Hwf Ht)).
  - exfalso. destruct Hc as [Hf _]. discriminate Hf.
Defined.

(** White space around it, a sign and a suffix in either case; no number, no unit. *)
Lemma parse_size_examples :
  parse_size (str " 256k ") = Ok 262144 ∧ parse_size (str "+4M") = Ok 4194304 ∧
  parse_size (str "") = Err (BadChunkSize (str "") "empty size") ∧
  is_ok (parse_size (str "12Q")) = false ∧ is_ok (parse_size (str "K")) = false ∧
  is_ok (parse_size (str "18446744073709551616")) = false.
Proof. by vm_compute. Qed.
End Examples.
