(* ===== verification/Crypto.v ===== *)
(** * Client-side encryption and keyfiles ([busyncr-core/src/crypto.rs])

    Sealing and opening of blobs, chunk and manifest encryption, key derivation
    and the version-2 keyfile.  A function that draws from the random source
    returns the source's next state next to its result. *)

From S2P Require Import Prelude External Text Index Chunking.

Definition DATA_KEY_LEN : Z := 32.
Definition CHUNK_ID_KEY_LEN : Z := 32.
Definition NONCE_LEN : Z := 24.
Definition TAG_LEN : Z := 16.
Definition BLOB_OVERHEAD : Z := NONCE_LEN + TAG_LEN.

Definition KEYFILE_MAGIC : bytes := str "BUSYNCRK".
Definition KEYFILE_VERSION : byte := x02.
Definition KEYFILE_SALT_LEN : Z := 16.
Definition KEYFILE_PAYLOAD_LEN : Z := DATA_KEY_LEN + CHUNK_ID_KEY_LEN.
Definition KEYFILE_HEADER_LEN : Z := 8 + 1 + 4 + 4 + 4 + KEYFILE_SALT_LEN.
Definition KEYFILE_LEN : Z := KEYFILE_HEADER_LEN + NONCE_LEN + KEYFILE_PAYLOAD_LEN + TAG_LEN.

Inductive CryptoError :=
  | Encrypt
  | Decrypt
  | BlobTooShort (got : Z)
  | KeyfileFormat (msg : string)
  | KeyfileVersion (v : byte)
  | Kdf (msg : string)
  | KeyfileUnlock.

(** [struct DataKey([u8; 32])]. *)
Abbreviation DataKey := (array 32).

Record KdfParams := { m_cost_kib : Z; t_cost : Z; p_cost : Z }.

#[global] Instance KdfParams_eq_dec : EqDecision KdfParams.
Proof. solve_decision. Defined.

Definition KdfParams_wf (p : KdfParams) : Prop :=
  in_u32 (m_cost_kib p) ∧ in_u32 (t_cost p) ∧ in_u32 (p_cost p).

Definition KdfParams_default : KdfParams :=
  {| m_cost_kib := 64 * 1024; t_cost := 3; p_cost := 1 |}.

(** [DataKey::generate]. *)
Definition DataKey_generate {R : Type} `{CryptoRng R} (rng : R) : DataKey * R := fill_bytes 32 rng.

Section blobs.
Context `{AeadPkg} {R : Type} `{CryptoRng R}.

Definition seal (key : DataKey) (aad plaintext : bytes) (rng : R) :
    result CryptoError bytes * R :=
  let '(nonce, rng) := fill_bytes 24 rng in
  (ciphertext ← ok_or Encrypt (aead_encrypt key nonce aad plaintext);
   Ok (vec_to_list nonce ++ ciphertext), rng).

Definition open (key : DataKey) (aad blob : bytes) : result CryptoError bytes :=
  if decide (len blob < BLOB_OVERHEAD) then Err (BlobTooShort (len blob))
  else
    let nonce := to_array 24 (take (Z.to_nat NONCE_LEN) blob) in
    let ciphertext := drop (Z.to_nat NONCE_LEN) blob in
    ok_or Decrypt (aead_decrypt key nonce aad ciphertext).

Definition encrypt_chunk (key : DataKey) (id : ChunkId) (plaintext : bytes) (rng : R) :=
  seal key (vec_to_list id) plaintext rng.

Definition decrypt_chunk (key : DataKey) (id : ChunkId) (blob : bytes) :=
  open key (vec_to_list id) blob.

Definition encrypt_manifest `{UlidPkg} (key : DataKey) (snapshot_id : Ulid) (plaintext : bytes)
    (rng : R) :=
  seal key (vec_to_list (Ulid_to_bytes snapshot_id)) plaintext rng.

Definition decrypt_manifest `{UlidPkg} (key : DataKey) (snapshot_id : Ulid) (blob : bytes) :=
  open key (vec_to_list (Ulid_to_bytes snapshot_id)) blob.
End blobs.

Section keyfile.
Context `{AeadPkg, Argon2Pkg} {R : Type} `{CryptoRng R}.

Definition derive_kek (passphrase : bytes) (salt : array 16) (params : KdfParams) :
    result CryptoError DataKey :=
  argon_params ← map_err Kdf
    (argon2_params_new (m_cost_kib params) (t_cost params) (p_cost params) DATA_KEY_LEN);
  map_err Kdf (argon2id_hash_into argon_params passphrase (vec_to_list salt)).

Definition keyfile_header (params : KdfParams) (salt : array 16) : bytes :=
  KEYFILE_MAGIC ++ [KEYFILE_VERSION] ++ u32_to_le (m_cost_kib params) ++
  u32_to_le (t_cost params) ++ u32_to_le (p_cost params) ++ vec_to_list salt.

Definition export_keyfile (data_key : DataKey) (chunk_id_key : ChunkIdKey) (passphrase : bytes)
    (params : KdfParams) (rng : R) : result CryptoError bytes * R :=
  let '(salt, rng) := fill_bytes 16 rng in
  match derive_kek passphrase salt params with
  | Err e => (Err e, rng)
  | Ok kek =>
      let header := keyfile_header params salt in
      let payload := vec_to_list data_key ++ vec_to_list chunk_id_key in
      let '(sealed, rng) := seal kek header payload rng in
      (sealed ← sealed; Ok (header ++ sealed), rng)
  end.

(** The closure [read_u32]. *)
Definition read_u32 (bs : bytes) (offset : nat) : result CryptoError Z :=
  if decide (offset + 4 ≤ length bs)%nat then Ok (le_value (take 4 (drop offset bs)))
  else Err (KeyfileFormat "file too short").

Definition import_keyfile (bs passphrase : bytes) : result CryptoError (DataKey * ChunkIdKey) :=
  if decide (len bs < 9) then Err (KeyfileFormat "file too short")
  else if decide (take 8 bs ≠ KEYFILE_MAGIC) then Err (KeyfileFormat "bad magic bytes")
  else
    let version := default x00 (bs !! 8%nat) in
    if decide (version ≠ KEYFILE_VERSION) then Err (KeyfileVersion version)
    else if decide (len bs ≠ KEYFILE_LEN) then Err (KeyfileFormat "wrong length for version 2")
    else
      m_cost ← read_u32 bs 9;
      t_cost ← read_u32 bs 13;
      p_cost ← read_u32 bs 17;
      let params := {| m_cost_kib := m_cost; t_cost := t_cost; p_cost := p_cost |} in
      let salt := to_array 16 (take 16 (drop 21 bs)) in
      let header := take (Z.to_nat KEYFILE_HEADER_LEN) bs in
      let sealed := drop (Z.to_nat KEYFILE_HEADER_LEN) bs in
      kek ← derive_kek passphrase salt params;
      payload ← map_err (λ e, match e with Decrypt | BlobTooShort _ => KeyfileUnlock | _ => e end)
        (open kek header sealed);
      if decide (len payload ≠ KEYFILE_PAYLOAD_LEN)
      then Err (KeyfileFormat "sealed payload is not a 64-byte data key + chunk-ID key")
      else Ok (to_array 32 (take 32 payload), to_array 32 (drop 32 payload)).
End keyfile.

(** ** Blobs *)

(** [blob] is what [seal] makes of [m] when the random source gives [nonce]. *)
Definition sealed_as `{AeadPkg} (key : DataKey) (aad m : bytes) (nonce : array 24) (blob : bytes) :
    Prop :=
  ∃ c, aead_encrypt key nonce aad m = Some c ∧ blob = vec_to_list nonce ++ c.

Section blob_lemmas.
Context `{AeadLaws} {R : Type} `{!CryptoRng R}.

Lemma seal_Ok key aad m (rng rng' : R) blob :
  seal key aad m rng = (Ok blob, rng') ↔
  sealed_as key aad m (fill_bytes 24 rng).1 blob ∧ rng' = (fill_bytes 24 rng).2.
Proof.
  unfold seal, sealed_as. destruct (fill_bytes 24 rng) as [nonce r]; cbn.
  destruct (aead_encrypt key nonce aad m) as [c|]; cbn; naive_solver.
Qed.

Lemma sealed_length key aad m nonce blob :
  sealed_as key aad m nonce blob → len blob = len m + BLOB_OVERHEAD.
Proof.
  intros (c & Hc%aead_encrypt_length & ->). unfold BLOB_OVERHEAD, NONCE_LEN, TAG_LEN. len_lia.
Qed.

Lemma open_Ok key aad blob m :
  open key aad blob = Ok m ↔ ∃ nonce, sealed_as key aad m nonce blob.
Proof.
  unfold open. split.
  - case_decide as Hl; [done|]. intros Hd%ok_or_Ok%aead_encrypt_decrypt.
    eexists _, _. split; [exact Hd|].
    rewrite to_array_list by (unfold BLOB_OVERHEAD, NONCE_LEN, TAG_LEN in *; len_lia).
    by rewrite take_drop.
  - intros (nonce & Hs). pose proof (sealed_length _ _ _ _ _ Hs) as Hl.
    destruct Hs as (c & Hc & ->).
    rewrite decide_False by (unfold len in *; lia). apply ok_or_Ok.
    rewrite take_app_length', drop_app_length' by (rewrite length_vec_to_list; done).
    rewrite to_array_vec. by apply aead_decrypt_encrypt.
Qed.

Lemma open_Err key aad blob e : open key aad blob = Err e →
  if decide (len blob < BLOB_OVERHEAD) then e = BlobTooShort (len blob) else e = Decrypt.
Proof.
  unfold open. case_decide; [by intros [= <-]|].
  by destruct (aead_decrypt _ _ _ _); intros [= <-].
Qed.
End blob_lemmas.

Section chunk_blobs.
Context `{AeadLaws, UlidPkg} {R : Type} `{!CryptoRng R}.

(** C26. Decryption accepts exactly the blobs that encryption makes under
    the same key, of this plaintext, for this very chunk identity (snapshot
    identity, for manifests), with some nonce.  Any other blob is rejected as
    truncated, with its length, when it has fewer than 40 bytes, and as
    failing authentication otherwise. *)
Theorem decrypt_accepts_exactly_sealed key (id : ChunkId) (snap : Ulid) blob :
  (∀ m, decrypt_chunk key id blob = Ok m ↔
    ∃ nonce, sealed_as key (vec_to_list id) m nonce blob) ∧
  (∀ m, decrypt_manifest key snap blob = Ok m ↔
    ∃ nonce, sealed_as key (vec_to_list (Ulid_to_bytes snap)) m nonce blob) ∧
  (∀ e, decrypt_chunk key id blob = Err e ∨ decrypt_manifest key snap blob = Err e →
    if decide (len blob < 40) then e = BlobTooShort (len blob) else e = Decrypt).
Proof.
  split_and!; [intros m; apply open_Ok..|].
  intros e [He|He]; by apply open_Err in He.
Qed.

(** What was encrypted decrypts under the same key and identity, and
    the blob is 40 bytes longer than its plaintext; successive calls use
    successive draws of the random source. *)
Theorem encrypt_decrypt_chunk key (id : ChunkId) (snap : Ulid) m (rng rng' : R) blob :
  (encrypt_chunk key id m rng = (Ok blob, rng') →
    decrypt_chunk key id blob = Ok m ∧ len blob = len m + 40 ∧
    rng' = (fill_bytes 24 rng).2 ∧ take 24 blob = vec_to_list (fill_bytes 24 rng).1) ∧
  (encrypt_manifest key snap m rng = (Ok blob, rng') →
    decrypt_manifest key snap blob = Ok m ∧ len blob = len m + 40).
Proof.
  split; intros [Hs ->]%seal_Ok.
  - split_and!; [apply open_Ok; eauto|by eapply sealed_length|done|].
    destruct Hs as (c & _ & ->). by rewrite take_app_length' by (by rewrite length_vec_to_list).
  - split; [apply open_Ok; eauto|by eapply sealed_length].
Qed.
End chunk_blobs.

(** ** Keyfiles *)

Section keyfile_lemmas.
Context `{AeadLaws, Argon2Pkg} {R : Type} `{!CryptoRng R}.

(** [bs] is the keyfile of these keys under [passphrase], for some parameters,
    salt and nonce. *)
Definition is_keyfile (bs passphrase : bytes) (data_key : DataKey) (chunk_id_key : ChunkIdKey) :
    Prop :=
  ∃ params salt nonce kek sealed,
    KdfParams_wf params ∧ derive_kek passphrase salt params = Ok kek ∧
    sealed_as kek (keyfile_header params salt)
      (vec_to_list data_key ++ vec_to_list chunk_id_key) nonce sealed ∧
    bs = keyfile_header params salt ++ sealed.

Lemma length_keyfile_header params salt : length (keyfile_header params salt) = 37%nat.
Proof. unfold keyfile_header. rewrite !length_app, length_vec_to_list. done. Qed.

(** The header's fields, read back. *)
Lemma keyfile_header_fields params salt rest :
  KdfParams_wf params →
  let bs := keyfile_header params salt ++ rest in
  take 8 bs = KEYFILE_MAGIC ∧ bs !! 8%nat = Some KEYFILE_VERSION ∧
  read_u32 bs 9 = Ok (m_cost_kib params) ∧ read_u32 bs 13 = Ok (t_cost params) ∧
  read_u32 bs 17 = Ok (p_cost params) ∧ to_array 16 (take 16 (drop 21 bs)) = salt.
Proof.
  intros (Hm & Ht & Hp) bs.
  assert (∀ pre mid post, bs = pre ++ u32_to_le mid ++ post → in_u32 mid →
    read_u32 bs (length pre) = Ok mid) as Hread.
  { intros pre mid post -> Hmid. unfold read_u32.
    rewrite decide_True by len_lia. rewrite drop_app_length, take_app_length' by len_lia.
    by rewrite u32_from_to_le. }
  unfold bs in *; clear bs. unfold keyfile_header in *. rewrite <- !app_assoc in *.
  split_and!.
  - by rewrite take_app_length' by done.
  - done.
  - apply (Hread (KEYFILE_MAGIC ++ [KEYFILE_VERSION]) _
      (u32_to_le (t_cost params) ++ u32_to_le (p_cost params) ++ vec_to_list salt ++ rest));
      [by rewrite <- !app_assoc|done].
  - apply (Hread (KEYFILE_MAGIC ++ [KEYFILE_VERSION] ++ u32_to_le (m_cost_kib params)) _
      (u32_to_le (p_cost params) ++ vec_to_list salt ++ rest)); [by rewrite <- !app_assoc|done].
  - apply (Hread (KEYFILE_MAGIC ++ [KEYFILE_VERSION] ++ u32_to_le (m_cost_kib params) ++
      u32_to_le (t_cost params)) _ (vec_to_list salt ++ rest)); [by rewrite <- !app_assoc|done].
  - rewrite !app_assoc, <- (app_assoc _ (vec_to_list salt)).
    rewrite drop_app_length' by (rewrite !length_app; done).
    rewrite take_app_length' by (rewrite length_vec_to_list; done). apply to_array_vec.
Qed.

Lemma take_split {A} n k (l : list A) : take (n + k) l = take n l ++ take k (drop n l).
Proof.
  revert l; induction n as [|n IH]; intros [|x l]; cbn; [done|done|by destruct k|].
  by rewrite IH.
Qed.

Lemma read_u32_Ok bs n : (n + 4 ≤ length bs)%nat →
  ∃ v, read_u32 bs n = Ok v ∧ in_u32 v ∧ u32_to_le v = take 4 (drop n bs).
Proof.
  intros Hl. unfold read_u32. rewrite decide_True by done. eexists; split; [done|].
  split; [apply le_value_u32|apply u32_to_from_le]; len_lia.
Qed.

(** What [import_keyfile] has in hand when its structural checks have passed. *)
Lemma import_keyfile_structure bs passphrase :
  take 8 bs = KEYFILE_MAGIC → bs !! 8%nat = Some KEYFILE_VERSION → len bs = KEYFILE_LEN →
  ∃ params salt sealed, KdfParams_wf params ∧ bs = keyfile_header params salt ++ sealed ∧
    len sealed = 64 + BLOB_OVERHEAD ∧
    import_keyfile bs passphrase =
      (kek ← derive_kek passphrase salt params;
       payload ← map_err (λ e, match e with Decrypt | BlobTooShort _ => KeyfileUnlock | _ => e end)
         (open kek (keyfile_header params salt) sealed);
       if decide (len payload ≠ KEYFILE_PAYLOAD_LEN)
       then Err (KeyfileFormat "sealed payload is not a 64-byte data key + chunk-ID key")
       else Ok (to_array 32 (take 32 payload), to_array 32 (drop 32 payload))).
Proof.
  intros Hm Hv Hlen. assert (length bs = 141%nat) as Hl.
  { unfold len in Hlen. change KEYFILE_LEN with 141 in Hlen. lia. }
  destruct (read_u32_Ok bs 9) as (m & Em & Rm & Lm); [lia|].
  destruct (read_u32_Ok bs 13) as (t & Et & Rt & Lt); [lia|].
  destruct (read_u32_Ok bs 17) as (p & Ep & Rp & Lp); [lia|].
  set (params := {| m_cost_kib := m; t_cost := t; p_cost := p |}).
  set (salt := to_array 16 (take 16 (drop 21 bs))).
  assert (take 37 bs = keyfile_header params salt) as Hh.
  { unfold keyfile_header, params, salt; cbn [m_cost_kib t_cost p_cost].
    rewrite Lm, Lt, Lp, to_array_list by len_lia.
    rewrite (take_split 8 29), (take_split 1 28), (take_split 4 24), (take_split 4 20),
      (take_split 4 16), !drop_drop, Hm.
    rewrite (drop_S _ _ _ Hv). done. }
  exists params, salt, (drop 37 bs). split_and!; [done| | |].
  - by rewrite <- Hh, take_drop.
  - change BLOB_OVERHEAD with 40. len_lia.
  - unfold import_keyfile. rewrite Hv; cbn [default].
    rewrite decide_False by (unfold len; lia). rewrite decide_False by naive_solver.
    rewrite decide_False by naive_solver. rewrite decide_False by naive_solver.
    rewrite Em, Et, Ep. cbn [mbind result_bind]. fold params salt.
    change (Z.to_nat KEYFILE_HEADER_LEN) with 37%nat. by rewrite Hh.
Qed.

Lemma import_keyfile_genuine bs passphrase dk ck :
  is_keyfile bs passphrase dk ck → import_keyfile bs passphrase = Ok (dk, ck).
Proof.
  intros (params & salt & nonce & kek & sealed & Hp & Hk & Hs & ->).
  pose proof (keyfile_header_fields params salt sealed Hp) as (Fm & Fv & F1 & F2 & F3 & F4).
  pose proof (sealed_length _ _ _ _ _ Hs) as Hl. rewrite len_app in Hl.
  change BLOB_OVERHEAD with 40 in Hl.
  assert (len (keyfile_header params salt ++ sealed) = KEYFILE_LEN) as Hlen.
  { rewrite len_app, Hl. unfold len. rewrite length_keyfile_header, !length_vec_to_list. done. }
  unfold import_keyfile. rewrite Fv; cbn [default].
  rewrite decide_False by (rewrite Hlen; done).
  rewrite decide_False by naive_solver. rewrite decide_False by naive_solver.
  rewrite decide_False by naive_solver.
  rewrite F1, F2, F3, F4. cbn [mbind result_bind].
  replace {| m_cost_kib := _; t_cost := _; p_cost := _ |} with params by by destruct params.
  rewrite Hk. cbn [mbind result_bind].
  rewrite take_app_length', drop_app_length' by (rewrite length_keyfile_header; done).
  rewrite (proj2 (open_Ok _ _ _ _)) by eauto. cbn [map_err mbind result_bind].
  rewrite decide_False by (unfold len; rewrite length_app, !length_vec_to_list; naive_solver).
  rewrite take_app_length', drop_app_length' by (rewrite length_vec_to_list; done).
  by rewrite !to_array_vec.
Qed.

(** [import_keyfile] on any byte string: it succeeds exactly on genuine
    version-2 keyfiles for this passphrase; a file that is not one is
    reported by its first defect (length, magic, version, total length), and a
    well-formed file that does not unlock as such.  Nothing else can
    happen: in particular the sealed payload never has a wrong length. *)
Theorem import_keyfile_spec bs passphrase :
  match import_keyfile bs passphrase with
  | Ok (dk, ck) => is_keyfile bs passphrase dk ck
  | Err (KeyfileFormat _) => len bs < 9 ∨ take 8 bs ≠ KEYFILE_MAGIC ∨
      bs !! 8%nat = Some KEYFILE_VERSION ∧ len bs ≠ KEYFILE_LEN
  | Err (KeyfileVersion v) =>
      take 8 bs = KEYFILE_MAGIC ∧ bs !! 8%nat = Some v ∧ v ≠ KEYFILE_VERSION
  | Err (Kdf _) | Err KeyfileUnlock =>
      take 8 bs = KEYFILE_MAGIC ∧ bs !! 8%nat = Some KEYFILE_VERSION ∧ len bs = KEYFILE_LEN ∧
      ∀ dk ck, ¬ is_keyfile bs passphrase dk ck
  | Err _ => False
  end.
Proof.
  destruct (decide (len bs < 9)) as [H9|H9].
  { unfold import_keyfile. rewrite decide_True by done. by left. }
  assert (is_Some (bs !! 8%nat)) as [v Hv] by (apply lookup_lt_is_Some; unfold len in H9; lia).
  destruct (decide (take 8 bs = KEYFILE_MAGIC)) as [Hm|Hm].
  2:{ unfold import_keyfile. rewrite decide_False, decide_True by done. auto. }
  destruct (decide (v = KEYFILE_VERSION)) as [->|Hver].
  2:{ unfold import_keyfile. rewrite decide_False, decide_False, Hv by naive_solver. cbn [default].
      by rewrite decide_True by done. }
  destruct (decide (len bs = KEYFILE_LEN)) as [Hlen|Hlen].
  2:{ unfold import_keyfile. rewrite decide_False, decide_False, Hv by naive_solver. cbn [default].
      rewrite decide_False, decide_True by naive_solver. auto. }
  assert (∀ e, import_keyfile bs passphrase = Err e → ∀ dk ck, ¬ is_keyfile bs passphrase dk ck) as Hno.
  { intros e He dk ck Hk%import_keyfile_genuine. congruence. }
  destruct (import_keyfile_structure bs passphrase Hm Hv Hlen)
    as (params & salt & sealed & Hp & Hbs & Hl & Himp).
  destruct (import_keyfile bs passphrase) as [[dk ck]|e] eqn:E.
  - symmetry in Himp. apply bind_Ok in Himp as (kek & Hkek & (payload & Ho%map_err_Ok & Hd)%bind_Ok).
    apply open_Ok in Ho as [nonce Hs]. case_decide as Hpl; [done|].
    exists params, salt, nonce, kek, sealed. injection Hd as <- <-.
    change KEYFILE_PAYLOAD_LEN with 64 in Hpl.
    rewrite !to_array_list by len_lia. by rewrite take_drop.
  - specialize (Hno e eq_refl). symmetry in Himp.
    apply bind_Err in Himp as [Hk|(kek & Hkek & [Ho|(payload & Ho%map_err_Ok & Hd)]%bind_Err)].
    + assert (∃ msg, e = Kdf msg) as [msg ->]; [|done].
      unfold derive_kek in Hk. apply bind_Err in Hk as [Hk|(? & _ & Hk)];
        apply map_err_Err in Hk as (? & _ & ->); eauto.
    + apply map_err_Err in Ho as (e' & He' & ->). apply open_Err in He'.
      case_decide; subst; done.
    + apply open_Ok in Ho as [nonce Hs%sealed_length].
      change KEYFILE_PAYLOAD_LEN with 64 in Hd. rewrite decide_False in Hd; [done|]. lia.
Qed.

(** What [export_keyfile] writes is a keyfile of its arguments. *)
Lemma export_is_keyfile dk ck passphrase params (rng rng' : R) file :
  KdfParams_wf params →
  export_keyfile dk ck passphrase params rng = (Ok file, rng') →
  is_keyfile file passphrase dk ck ∧ rng' = (fill_bytes 24 (fill_bytes 16 rng).2).2.
Proof.
  intros Hp. unfold export_keyfile. destruct (fill_bytes 16 rng) as [salt r] eqn:Er; cbn [snd].
  destruct (derive_kek passphrase salt params) as [kek|] eqn:Hk; [|done].
  destruct (seal kek _ _ r) as [[sealed|] r'] eqn:Hs; cbn [mbind result_bind]; [|done].
  intros E. assert (file = keyfile_header params salt ++ sealed) as -> by congruence.
  assert (rng' = r') as -> by congruence. apply seal_Ok in Hs as [Hs ->]. split; [|done].
  by exists params, salt, (fill_bytes 24 r).1, kek, sealed.
Qed.

(** A keyfile that was exported is 141 bytes long and imports, under the same
    passphrase, to the same two keys; the salt and the nonce are two successive
    draws. *)
Theorem export_import_keyfile dk ck passphrase params (rng rng' : R) file :
  KdfParams_wf params →
  export_keyfile dk ck passphrase params rng = (Ok file, rng') →
  import_keyfile file passphrase = Ok (dk, ck) ∧ len file = 141 ∧
  rng' = (fill_bytes 24 (fill_bytes 16 rng).2).2.
Proof.
  intros Hp [Hf ->]%export_is_keyfile; [|done]. split_and!; [by apply import_keyfile_genuine| |done].
  destruct Hf as (params' & salt & nonce & kek & sealed & _ & _ & Hs & ->).
  apply sealed_length in Hs. rewrite len_app, Hs, len_app. unfold len.
  rewrite length_keyfile_header, !length_vec_to_list. done.
Qed.
End keyfile_lemmas.

(** ** Examples *)

Module Examples.
Import Reference.

Definition key : DataKey := vreplicate 32 x41.
Definition id_key : ChunkIdKey := vreplicate 32 x42.
Definition chunk : bytes := [x01; x02; x03].
Definition snap : @Ulid ulid := vreplicate 16 x00.
Definition blob : bytes := default [] (result_ok (encrypt_chunk key (ChunkId_of chunk) chunk 7).1).
Definition file : bytes :=
  default [] (result_ok (export_keyfile key id_key (str "pass") KdfParams_default 7).1).

Lemma decrypt_accepts_exactly_sealed_witness :
  decrypt_chunk key (ChunkId_of [x09]) blob = Err Decrypt ∧
  (∃ nonce, sealed_as key (vec_to_list (ChunkId_of chunk)) chunk nonce blob).
Proof.
  split; [vm_compute; reflexivity|].
  apply (proj1 (decrypt_accepts_exactly_sealed key (ChunkId_of chunk) snap blob)).
  vm_compute; reflexivity.
Defined.

Lemma encrypt_decrypt_chunk_witness :
  decrypt_chunk key (ChunkId_of chunk) blob = Ok chunk ∧ len blob = 43.
Proof.
  destruct (proj1 (encrypt_decrypt_chunk key (ChunkId_of chunk) snap chunk
    (7 : Z) 8 blob)) as (H1 & H2 & _).
  - vm_compute; reflexivity.
  - split; [exact H1|exact H2].
Defined.

Lemma import_keyfile_spec_witness :
  import_keyfile file (str "pass") = Ok (key, id_key) ∧
  is_keyfile file (str "pass") key id_key.
Proof.
  assert (E : import_keyfile file (str "pass") = Ok (key, id_key)) by (vm_compute; reflexivity).
  split; [exact E|]. pose proof (import_keyfile_spec file (str "pass")) as H.
  rewrite E in H. exact H.
Defined.

Lemma export_import_keyfile_witness :
  import_keyfile file (str "pass") = Ok (key, id_key) ∧ len file = 141.
Proof.
  destruct (export_import_keyfile key id_key (str "pass") KdfParams_default (7 : Z) 9 file)
    as (H1 & H2 & _).
  - split_and!; evaluate.
  - vm_compute; reflexivity.
  - split; [exact H1|exact H2].
Defined.

Example tampered_keyfile :
  import_keyfile (take 140 file ++ [xff]) (str "pass") = Err KeyfileUnlock ∧
  import_keyfile file (str "word") = Err KeyfileUnlock ∧
  import_keyfile (take 8 file ++ [x01] ++ drop 9 file) (str "pass") = Err (KeyfileVersion x01).
Proof. vm_compute. done. Qed.
End Examples.
