(* ===== verification/StoreIO.v ===== *)
(** * The store's environment: files, the redb database, faults and crashes

    What [store.rs] asks of the file system and of redb, as a state monad over
    a [World].  Every primitive consumes one entry of a fault schedule: it
    succeeds, fails (possibly half done), or the machine stops there.  A
    program's theorems quantify over all schedules.

    A file has contents and a flag that [sync_all] sets; after a crash an
    unsynced file keeps an arbitrary prefix ([reboot]).  A rename is atomic and,
    like a removal, durable once done.  A redb write transaction works on a
    private copy; [commit] installs it whole or, when the machine stops inside
    it, either whole or not at all. *)

From S2P Require Import Prelude External.

(** ** redb *)

(** The tables of the database, in the order that the code declares them. *)
Inductive Table := CHUNKS | SNAPSHOTS | SNAPSHOT_REFS | GC_MARKS | SNAPSHOT_OWNER | STATUS_META.

#[global] Instance Table_eq_dec : EqDecision Table.
Proof. solve_decision. Defined.

Definition Table_index (t : Table) : nat :=
  match t with
  | CHUNKS => 0 | SNAPSHOTS => 1 | SNAPSHOT_REFS => 2 | GC_MARKS => 3
  | SNAPSHOT_OWNER => 4 | STATUS_META => 5
  end.
Definition Table_of (n : nat) : option Table :=
  [CHUNKS; SNAPSHOTS; SNAPSHOT_REFS; GC_MARKS; SNAPSHOT_OWNER; STATUS_META] !! n.

#[global] Program Instance Table_countable : Countable Table :=
  inj_countable Table_index Table_of _.
Next Obligation. by intros []. Qed.

Section redb.
Context {Redb : RedbPkg Table}.

(** A record is found by its table and key. *)
#[global] Instance Db_lookup : Lookup (Table * bytes) bytes Db := λ r db, redb_get r.1 r.2 db.
#[global] Instance Db_insert : Insert (Table * bytes) bytes Db := λ r v db, redb_insert r.1 r.2 v db.
#[global] Instance Db_delete : Delete (Table * bytes) Db := λ r db, redb_remove r.1 r.2 db.

#[global] Instance Db_empty : base.Empty Db := redb_create.

(** [table.iter()]: the records of a table in ascending key order. *)
Definition items (db : Db) (t : Table) : list (bytes * bytes) := redb_iter t db.

(** A transaction's body: reads and writes of the private copy; an error leaves
    the function, dropping the transaction. *)
Definition Txn (E A : Type) : Type := Db → result E A * Db.
#[global] Instance Txn_ret {E} : MRet (Txn E) := λ A a db, (Ok a, db).
#[global] Instance Txn_bind {E} : MBind (Txn E) := λ A B f m db,
  match m db with
  | (Ok a, db) => f a db
  | (Err e, db) => (Err e, db)
  end.

Definition t_get {E} (t : Table) (k : bytes) : Txn E (option bytes) := λ db, (Ok (db !! (t, k)), db).
Definition t_insert {E} (t : Table) (k v : bytes) : Txn E unit := λ db, (Ok (), <[(t, k) := v]> db).
Definition t_remove {E} (t : Table) (k : bytes) : Txn E (option bytes) :=
  λ db, (Ok (db !! (t, k)), delete (t, k) db).
Definition t_iter {E} (t : Table) : Txn E (list (bytes * bytes)) := λ db, (Ok (items db t), db).
Definition t_lift {E A} (r : result E A) : Txn E A := λ db, (r, db).

End redb.

(** ** Files *)

(** A file under [objects/]: its shard directory and its name. *)
Abbreviation FPath := (bytes * bytes)%type.
Record File := { content : bytes; synced : bool }.

(** How a program ends. *)
Inductive outcome (E A : Type) :=
  | Done (a : A)
  | Failed (e : E)
  | Crashed.
Arguments Done {E A} a.
Arguments Failed {E A} e.
Arguments Crashed {E A}.

Inductive Fault := NoFault | FailAt (n : nat) | CrashAt (n : nat).

Section environment.
Context {Redb : RedbPkg Table}.

Record World := {
  files : gmap FPath File;
  disk : Db;             (** what is committed *)
  work : Db;             (** the write transaction's copy *)
  faults : list Fault;   (** what happens to the next primitives *)
}.

Definition set_files (f : gmap FPath File) (w : World) : World :=
  {| files := f; disk := disk w; work := work w; faults := faults w |}.
Definition set_disk (d : Db) (w : World) : World :=
  {| files := files w; disk := d; work := work w; faults := faults w |}.
Definition set_work (d : Db) (w : World) : World :=
  {| files := files w; disk := disk w; work := d; faults := faults w |}.
Definition set_faults (l : list Fault) (w : World) : World :=
  {| files := files w; disk := disk w; work := work w; faults := l |}.

(** ** The monad *)


Definition M (E A : Type) : Type := World → outcome E A * World.
#[global] Instance M_ret {E} : MRet (M E) := λ A a w, (Done a, w).
#[global] Instance M_bind {E} : MBind (M E) := λ A B f m w,
  match m w with
  | (Done a, w) => f a w
  | (Failed e, w) => (Failed e, w)
  | (Crashed, w) => (Crashed, w)
  end.

Definition fail {E A} (e : E) : M E A := λ w, (Failed e, w).
(** [let _ = m;]: an error is dropped, a crash is not. *)
Definition ignore {E A} (m : M E A) : M E unit := λ w,
  match m w with
  | (Crashed, w) => (Crashed, w)
  | (_, w) => (Done (), w)
  end.
(** [m.map_err(..)] and friends: [match m { Err(e) => h(e), ok => ok }]. *)
Definition catch {E A} (m : M E A) (h : E → M E A) : M E A := λ w,
  match m w with
  | (Failed e, w) => h e w
  | r => r
  end.

(** One primitive: its effect when it succeeds; what is left of it when it
    fails with [err]; and when the machine stops inside it. *)
Definition step {E A} (err : E) (ok : World → A * World)
    (failed crashed : nat → World → World) : M E A := λ w,
  let w0 := set_faults (tail (faults w)) w in
  match head (faults w) with
  | None | Some NoFault => let '(a, w') := ok w0 in (Done a, w')
  | Some (FailAt n) => (Failed err, failed n w0)
  | Some (CrashAt n) => (Crashed, crashed n w0)
  end.

Definition untouched (n : nat) (w : World) : World := w.

Section primitives.
Context {E : Type} (err : E).

(** [Database::create(path)]: opens the database that is there. *)
Definition db_create : M E unit := step err (λ w, ((), w)) untouched untouched.

(** [db.begin_write()]. *)
Definition begin_write : M E unit := step err (λ w, ((), set_work (disk w) w)) untouched untouched.

(** Reads and writes within the transaction; a storage error anywhere in the
    body drops it. *)
Definition in_txn {A} (body : Txn E A) : M E A :=
  r ← step err (λ w, ((body (work w)).1, set_work (body (work w)).2 w)) untouched untouched;
  match r with Ok a => mret a | Err e => fail e end.

(** [txn.commit()]. *)
Definition commit : M E unit :=
  step err (λ w, ((), set_disk (work w) w)) untouched
    (λ n w, match n with O => w | S _ => set_disk (work w) w end).

(** A whole write transaction: begin, body, commit. *)
Definition transaction {A} (body : Txn E A) : M E A :=
  begin_write;;
  r ← in_txn body;
  commit;;
  mret r.

(** [db.begin_read()] and the reads under it. *)
Definition in_read {A} (body : Db → result E A) : M E A :=
  r ← step err (λ w, (body (disk w), w)) untouched untouched;
  match r with Ok a => mret a | Err e => fail e end.

Definition create_dir_all : M E unit := step err (λ w, ((), w)) untouched untouched.

Definition file_create (p : FPath) : M E unit :=
  let eff w := set_files (<[p := {| content := []; synced := false |}]> (files w)) w in
  step err (λ w, ((), eff w)) untouched (λ n w, match n with O => w | S _ => eff w end).

(** [file.write_all(bs)]; interrupted, it has appended a prefix. *)
Definition append (p : FPath) (bs : bytes) (w : World) : World :=
  set_files (alter (λ f, {| content := content f ++ bs; synced := false |}) p (files w)) w.
Definition write_all (p : FPath) (bs : bytes) : M E unit :=
  step err (λ w, ((), append p bs w)) (λ n, append p (take n bs)) (λ n, append p (take n bs)).

Definition sync_all (p : FPath) : M E unit :=
  let eff w := set_files (alter (λ f, {| content := content f; synced := true |}) p (files w)) w in
  step err (λ w, ((), eff w)) untouched untouched.

(** [fs::rename(from, to)], replacing [to]. *)
Definition rename (from to : FPath) : M E unit :=
  let eff w :=
    match files w !! from with
    | Some f => set_files (<[to := f]> (delete from (files w))) w
    | None => w
    end in
  step err (λ w, ((), eff w)) untouched (λ n w, match n with O => w | S _ => eff w end).

(** [path.exists()] does not fail. *)
Definition path_exists (p : FPath) : M E bool := λ w, (Done (bool_decide (is_Some (files w !! p))), w).

(** [fs::remove_file]: [false] is [ErrorKind::NotFound]. *)
Definition remove_file (p : FPath) : M E bool :=
  let eff w := set_files (delete p (files w)) w in
  step err (λ w, (bool_decide (is_Some (files w !! p)), eff w)) untouched
    (λ n w, match n with O => w | S _ => eff w end).

(** [fs::read]: [None] is [ErrorKind::NotFound]. *)
Definition fs_read (p : FPath) : M E (option bytes) :=
  step err (λ w, (content <$> files w !! p, w)) untouched untouched.

(** [fs::read_dir] of [objects/], and of one of its shards.  Only the shard
    directories are under [objects/], and only files are in a shard. *)
Definition read_shards : M E (list bytes) :=
  step err (λ w, (remove_dups (map_to_list (files w)).*1.*1, w)) untouched untouched.
Definition read_dir (shard : bytes) : M E (list FPath) :=
  step err (λ w, (filter (λ p, p.1 = shard) (map_to_list (files w)).*1, w)) untouched untouched.
End primitives.

(** What a machine finds after a stop: unsynced files hold some prefix of what
    was written, chosen by [keep]; everything else is as it was. *)
Definition reboot (keep : FPath → nat) (w : World) : World :=
  {| files := map_imap (λ p f,
       Some (if synced f then f
             else {| content := take (keep p) (content f); synced := true |})) (files w);
     disk := disk w; work := ∅; faults := [] |}.
End environment.
