(* ===== verification/Store.v ===== *)
(** * The daemon's chunk store ([busyncr-daemon/src/store.rs])

    Every operation of [ChunkStore], over the environment of [StoreIO]: the
    index transactions with their loops and early returns, the object files
    with their integrity header, and the order in which the two are touched. *)

From S2P Require Import Prelude External Text Index Chunking Manifest Retention StoreIO.

(** Keys of the [status_meta] table. *)
Definition LAST_PRUNE_KEY : bytes := str "last_prune".
Definition LAST_GC_KEY : bytes := str "last_gc".
Definition OBJECT_HEADER_LEN : Z := 32.
Definition TMP_PREFIX : bytes := str ".tmp-".

Inductive IntegrityError :=
  | HashMismatch (chunk actual : ChunkId)
  | LengthMismatch (chunk : ChunkId) (expected actual : Z)
  | MissingBlob (chunk : ChunkId).

(** The [io::Error] and the [redb::Error] inside are left out. *)
Inductive StoreError `{UlidPkg} :=
  | Integrity (e : IntegrityError)
  | ChunkNotFound (id : ChunkId)
  | SnapshotNotFound (snapshot : Ulid)
  | SnapshotExists (snapshot : Ulid)
  | UnknownChunkRef (snapshot : Ulid) (chunk : ChunkId)
  | StillReferenced (chunk : ChunkId) (refcount : Z)
  | ManifestE (e : ManifestError)
  | StoreIo
  | IndexE.

Inductive PruneMode := Auto | Manual.

#[global] Instance PruneMode_eq_dec : EqDecision PruneMode.
Proof. solve_decision. Defined.

Definition PruneMode_to_byte (m : PruneMode) : byte :=
  match m with Auto => x00 | Manual => x01 end.
Definition PruneMode_from_byte (b : byte) : PruneMode :=
  if decide (b = x00) then Auto else Manual.

Record PruneOutcome `{UlidPkg} := { kept : list Ulid; pruned : list Ulid; prune_mode : PruneMode }.
Record GcOutcome := { reclaimed : list ChunkId; bytes_reclaimed : Z; pending : Z }.
Record PruneEvent := { prune_at_ms : Z; event_mode : PruneMode }.
Record GcEvent := { gc_at_ms : Z }.
Record DaemonStatus := {
  snapshots_total : Z;
  snapshots_by_client : gmap bytes Z;
  chunks_unique : Z;
  store_bytes : Z;
  zero_ref : Z;
  last_prune : option PruneEvent;
  last_gc : option GcEvent;
}.

(** ** Record codecs *)

Definition chunk_id_from_key (k : bytes) : option ChunkId := array_of_list 32 k.

Definition decode_mark (v : bytes) : Z :=
  i64_from_le (if decide (len v = 8) then v else replicate 8 x00).

Definition encode_prune_event (now_ms : Z) (mode : PruneMode) : bytes :=
  i64_to_le now_ms ++ [PruneMode_to_byte mode].

Definition decode_prune_event (v : bytes) : option PruneEvent :=
  bs ← array_of_list 9 v;
  Some {| prune_at_ms := i64_from_le (take 8 (vec_to_list bs));
          event_mode := PruneMode_from_byte (default x00 (vec_to_list bs !! 8%nat)) |}.

Definition decode_gc_event (v : bytes) : option GcEvent :=
  bs ← array_of_list 8 v;
  Some {| gc_at_ms := i64_from_le (vec_to_list bs) |}.

Definition decode_entry (v : bytes) : IndexEntry :=
  from_wire_value (if decide (len v = 16) then to_array 16 v else vreplicate 16 x00).

(** [chunks_exact(n)]: the whole pieces of [n] bytes; a shorter rest is left out. *)
Fixpoint chunks_exact_fuel (fuel n : nat) (l : bytes) : list bytes :=
  match fuel with
  | O => []
  | S fuel =>
      if decide (n ≤ length l)%nat
      then take n l :: chunks_exact_fuel fuel n (drop n l) else []
  end.
Definition chunks_exact (n : nat) (l : bytes) : list bytes := chunks_exact_fuel (length l) n l.

Section ulid_time.
Context `{UlidPkg}.
Definition ulid_time_ms (id : Ulid) : Z := default i64_max (i64_try_from (Ulid_timestamp_ms id)).
Definition snapshot_key (id : Ulid) : bytes := vec_to_list (Ulid_to_bytes id).
End ulid_time.

(** ** Object files *)

Definition object_path (id : ChunkId) : FPath :=
  let hex := ChunkId_to_string id in (take 2 hex, hex).

Section store.
Context {Redb : RedbPkg Table} `{UlidPkg, Blake3Pkg}.
Abbreviation M := (M StoreError).
Abbreviation Txn := (Txn StoreError).

(** The loop bodies of [sweep_tmp_files]. *)
Definition sweep_entry (_ : unit) (p : FPath) : M unit :=
  if bool_decide (TMP_PREFIX `prefix_of` p.2)
  then _ ← remove_file StoreIo p; mret ()
  else mret ().

Definition sweep_shard (_ : unit) (shard : bytes) : M unit :=
  entries ← read_dir StoreIo shard;
  foldM sweep_entry () entries.

Definition sweep_tmp_files : M unit :=
  shards ← read_shards StoreIo;
  foldM sweep_shard () shards.

(** [ChunkStore::open]: creating the tables leaves existing records alone. *)
Definition Store_open : M unit :=
  create_dir_all StoreIo;;
  db_create IndexE;;
  transaction IndexE (mret ());;
  sweep_tmp_files.

(** [write_object]; [ulid] is the name that [Ulid::new()] draws. *)
Definition write_object (ulid : bytes) (id : ChunkId) (data : bytes) : M unit :=
  let final_path := object_path id in
  let tmp_path := (final_path.1, TMP_PREFIX ++ ulid) in
  create_dir_all StoreIo;;
  file_create StoreIo tmp_path;;
  let header := blake3_hash data in
  catch
    (write_all StoreIo tmp_path (vec_to_list header);;
     write_all StoreIo tmp_path data;;
     sync_all StoreIo tmp_path)
    (λ e, ignore (remove_file StoreIo tmp_path);; fail e);;
  catch
    (rename StoreIo tmp_path final_path)
    (λ e,
      ex ← path_exists final_path;
      if ex : bool
      then ignore (remove_file StoreIo tmp_path);; mret ()
      else ignore (remove_file StoreIo tmp_path);; fail e).

Definition put_chunk (ulid : bytes) (id : ChunkId) (data : bytes) : M bool :=
  begin_write IndexE;;
  existing ← in_txn IndexE (t_get CHUNKS (vec_to_list id));
  newly_stored ←
    match existing with
    | Some _ => mret false
    | None =>
        write_object ulid id data;;
        let entry := {| chunk_len := len data; refcount := 0 |} in
        in_txn IndexE (t_insert CHUNKS (vec_to_list id) (vec_to_list (to_wire_value entry)));;
        mret true
    end;
  commit IndexE;;
  mret newly_stored.

Definition chunk_entry (id : ChunkId) : M (option IndexEntry) :=
  in_read IndexE (λ db, Ok (decode_entry <$> db !! (CHUNKS, vec_to_list id))).

Definition has_chunk (id : ChunkId) : M bool :=
  e ← chunk_entry id; mret (bool_decide (is_Some e)).

(** The checks of [get_chunk] on the raw file. *)
Definition verify_object (id : ChunkId) (entry : IndexEntry) (raw : bytes) :
    result StoreError bytes :=
  if decide (len raw < OBJECT_HEADER_LEN)
  then Err (Integrity (LengthMismatch id (chunk_len entry)
              (u64_saturating_sub (len raw) OBJECT_HEADER_LEN)))
  else
    let header := take 32 raw in
    let data := drop 32 raw in
    if decide (len data ≠ chunk_len entry)
    then Err (Integrity (LengthMismatch id (chunk_len entry) (len data)))
    else
      let actual := blake3_hash data in
      if decide (vec_to_list actual ≠ header)
      then Err (Integrity (HashMismatch id actual))
      else Ok data.

Definition get_chunk (id : ChunkId) : M bytes :=
  e ← chunk_entry id;
  match e with
  | None => fail (ChunkNotFound id)
  | Some entry =>
      raw ← fs_read StoreIo (object_path id);
      match raw with
      | None => fail (Integrity (MissingBlob id))
      | Some raw =>
          match verify_object id entry raw with
          | Ok data => mret data
          | Err e => fail e
          end
      end
  end.

(** One reference taken by [put_snapshot_as]. *)
Definition bump_ref (snapshot : Ulid) (_ : unit) (chunk : ChunkId) : Txn unit :=
  v ← t_get CHUNKS (vec_to_list chunk);
  match v with
  | None => t_lift (Err (UnknownChunkRef snapshot chunk))
  | Some v =>
      let entry := decode_entry v in
      let bumped := {| chunk_len := chunk_len entry;
                       refcount := u64_saturating_add (refcount entry) 1 |} in
      t_insert CHUNKS (vec_to_list chunk) (vec_to_list (to_wire_value bumped))
  end.

Definition put_snapshot_txn (snapshot : Ulid) (blob : bytes) (refs : list ChunkId)
    (owner : option bytes) : Txn unit :=
  let key := snapshot_key snapshot in
  existing ← t_get SNAPSHOTS key;
  match existing with
  | Some _ => t_lift (Err (SnapshotExists snapshot))
  | None =>
      foldM (bump_ref snapshot) () refs;;
      let ref_bytes := refs ≫= λ chunk, vec_to_list chunk in
      t_insert SNAPSHOT_REFS key ref_bytes;;
      t_insert SNAPSHOTS key blob;;
      match owner with
      | Some owner => t_insert SNAPSHOT_OWNER key owner
      | None => mret ()
      end
  end.

Definition put_snapshot_as (snapshot : Ulid) (blob : bytes) (refs : list ChunkId)
    (owner : option bytes) : M unit :=
  transaction IndexE (put_snapshot_txn snapshot blob refs owner).

Definition put_snapshot (snapshot : Ulid) (blob : bytes) (refs : list ChunkId) : M unit :=
  put_snapshot_as snapshot blob refs None.

(** [?] on a [ManifestError]. *)
Definition lift_manifest {A} (r : result ManifestError A) : M A :=
  match r with Ok a => mret a | Err e => fail (ManifestE e) end.

Definition put_manifest (manifest : Manifest) : M unit :=
  blob ← lift_manifest (encode manifest);
  put_snapshot (snapshot_id manifest) blob (chunk_refs manifest).

Definition get_manifest_blob (snapshot : Ulid) : M bytes :=
  in_read IndexE (λ db, ok_or (SnapshotNotFound snapshot) (db !! (SNAPSHOTS, snapshot_key snapshot))).

Definition get_manifest (snapshot : Ulid) : M Manifest :=
  blob ← get_manifest_blob snapshot;
  lift_manifest (decode blob).

Definition list_snapshots : M (list Ulid) :=
  in_read IndexE (λ db, Ok (omap (λ '(k, _), Ulid_from_bytes <$> array_of_list 16 k)
                                 (items db SNAPSHOTS))).

(** One reference dropped by [delete_snapshot]. *)
Definition drop_ref (_ : unit) (raw : bytes) : Txn unit :=
  let chunk := to_array 32 raw : ChunkId in
  v ← t_get CHUNKS (vec_to_list chunk);
  match v with
  | None => mret ()
  | Some v =>
      let entry := decode_entry v in
      let dropped := {| chunk_len := chunk_len entry;
                        refcount := u64_saturating_sub (refcount entry) 1 |} in
      t_insert CHUNKS (vec_to_list chunk) (vec_to_list (to_wire_value dropped))
  end.

Definition delete_snapshot_txn (snapshot : Ulid) : Txn unit :=
  let key := snapshot_key snapshot in
  removed ← t_remove SNAPSHOTS key;
  match removed with
  | None => t_lift (Err (SnapshotNotFound snapshot))
  | Some _ =>
      t_remove SNAPSHOT_OWNER key;;
      ref_bytes ← t_remove SNAPSHOT_REFS key;
      foldM drop_ref () (chunks_exact 32 (default [] ref_bytes))
  end.

Definition delete_snapshot (snapshot : Ulid) : M unit :=
  transaction IndexE (delete_snapshot_txn snapshot).

Definition zero_ref_chunks : M (list ChunkId) :=
  in_read IndexE (λ db, Ok (omap (λ '(k, v),
    if decide (refcount (decode_entry v) = 0) then chunk_id_from_key k else None)
    (items db CHUNKS))).

Definition delete_chunk_txn (id : ChunkId) : Txn unit :=
  v ← t_get CHUNKS (vec_to_list id);
  match v with
  | None => t_lift (Err (ChunkNotFound id))
  | Some v =>
      let entry := decode_entry v in
      if decide (0 < refcount entry)
      then t_lift (Err (StillReferenced id (refcount entry)))
      else t_remove CHUNKS (vec_to_list id);; mret ()
  end.

(** The unlinking of an object file, shared by [delete_chunk] and [gc]. *)
Definition unlink_object (id : ChunkId) : M unit :=
  remove_file StoreIo (object_path id);; mret ().

Definition delete_chunk (id : ChunkId) : M unit :=
  transaction IndexE (delete_chunk_txn id);;
  unlink_object id.

Definition record_prune (now_ms : Z) (mode : PruneMode) : M unit :=
  transaction IndexE (t_insert STATUS_META LAST_PRUNE_KEY (encode_prune_event now_ms mode)).

(** The loop body of [prune]. *)
Definition prune_one (_ : unit) (snapshot : Ulid) : M unit :=
  catch (delete_snapshot snapshot)
    (λ e, match e with SnapshotNotFound _ => mret () | _ => fail e end).

(** [plan] always answers ([Retention.plan_spec]); the branch for [None] is
    never taken. *)
Definition prune (now_ms : Z) (policy : RetentionPolicy) (mode : PruneMode) : M PruneOutcome :=
  snapshots ← list_snapshots;
  let its := (λ u, (ulid_time_ms u, u)) <$> snapshots in
  match plan now_ms its policy with
  | None => fail IndexE
  | Some plan =>
      foldM prune_one () (dropped plan);;
      record_prune now_ms mode;;
      mret {| kept := keep plan; pruned := dropped plan; prune_mode := mode |}
  end.
End store.

(** ** Garbage collection *)

(** The iteration order of a [HashMap] is arbitrary. *)
Class HashOrder := { hash_iter : ∀ V : Type, gmap ChunkId V → list (ChunkId * V) }.
Arguments hash_iter {_ V} m.
Class HashOrderLaws `{HashOrder} : Prop :=
  hash_iter_perm (V : Type) (m : gmap ChunkId V) : hash_iter m ≡ₚ map_to_list m.

Section gc.
Context {Redb : RedbPkg Table} `{UlidPkg, Blake3Pkg, HashOrder}.
Abbreviation M := (M StoreError).
Abbreviation Txn := (Txn StoreError).

(** Loads a table into a [HashMap], skipping keys of the wrong width. *)
Definition load_table {V} (f : bytes → V) (its : list (bytes * bytes)) : gmap ChunkId V :=
  foldl (λ m '(k, v), match chunk_id_from_key k with Some id => <[id := f v]> m | None => m end)
    ∅ its.

(** What the reconciliation loop accumulates. *)
Record Sweep := {
  to_delete : list (ChunkId * Z);
  marks_to_remove : list ChunkId;
  pending_marked : Z;
}.

(** The loop body over the existing marks. *)
Definition reconcile (now_ms grace_ms : Z) (entries : gmap ChunkId IndexEntry) (s : Sweep)
    (m : ChunkId * Z) : Sweep :=
  let '(id, marked_at) := m in
  match entries !! id with
  | Some entry =>
      if decide (refcount entry = 0) then
        if decide (grace_ms ≤ i64_saturating_sub now_ms marked_at)
        then {| to_delete := to_delete s ++ [(id, chunk_len entry)];
                marks_to_remove := marks_to_remove s ++ [id];
                pending_marked := pending_marked s |}
        else {| to_delete := to_delete s; marks_to_remove := marks_to_remove s;
                pending_marked := pending_marked s + 1 |}
      else {| to_delete := to_delete s; marks_to_remove := marks_to_remove s ++ [id];
              pending_marked := pending_marked s |}
  | None => {| to_delete := to_delete s; marks_to_remove := marks_to_remove s ++ [id];
               pending_marked := pending_marked s |}
  end.

Definition gc_txn (now_ms grace_ms : Z) : Txn (list (ChunkId * Z) * Z) :=
  chunk_items ← t_iter CHUNKS;
  mark_items ← t_iter GC_MARKS;
  let entries := load_table decode_entry chunk_items in
  let existing := load_table decode_mark mark_items in
  let s := foldl (reconcile now_ms grace_ms entries)
             {| to_delete := []; marks_to_remove := []; pending_marked := 0 |}
             (hash_iter existing) in
  let marks_to_insert :=
    (filter (λ '(id, entry), refcount entry = 0 ∧ existing !! id = None) (hash_iter entries)).*1 in
  foldM (λ _ '(id, _), t_remove CHUNKS (vec_to_list id);; mret ()) () (to_delete s);;
  foldM (λ _ id, t_remove GC_MARKS (vec_to_list id);; mret ()) () (marks_to_remove s);;
  foldM (λ _ id, t_insert GC_MARKS (vec_to_list id) (i64_to_le now_ms)) () marks_to_insert;;
  t_insert STATUS_META LAST_GC_KEY (i64_to_le now_ms);;
  mret (to_delete s, pending_marked s + len marks_to_insert).

(** The loop body of the unlinking phase. *)
Definition gc_unlink (acc : list ChunkId * Z) (r : ChunkId * Z) : M (list ChunkId * Z) :=
  unlink_object r.1;;
  mret (acc.1 ++ [r.1], u64_add acc.2 r.2).

(** The index phase of [gc], up to its commit. *)
Definition gc_index (now_ms grace_ms : Z) : M (list (ChunkId * Z) * Z) :=
  transaction IndexE (gc_txn now_ms grace_ms).

Definition gc (now_ms : Z) (grace : Duration) : M GcOutcome :=
  let grace_ms := default i64_max (i64_try_from (Duration_as_millis grace)) in
  '(reclaimed, pending) ← gc_index now_ms grace_ms;
  '(ids, bytes_reclaimed) ← foldM gc_unlink ([], 0) reclaimed;
  mret {| reclaimed := ids; bytes_reclaimed := bytes_reclaimed; pending := pending |}.

(** ** Status *)

(** The loop bodies of [status]. *)
Definition count_snapshot (db : Db) (acc : Z * gmap bytes Z) (kv : bytes * bytes) :
    Z * gmap bytes Z :=
  let owner := default [] (db !! (SNAPSHOT_OWNER, kv.1)) in
  (u64_add acc.1 1, <[owner := u64_add (default 0 (acc.2 !! owner)) 1]> acc.2).

Definition count_chunk (acc : Z * Z * Z) (kv : bytes * bytes) : Z * Z * Z :=
  let '(unique, total, zero) := acc in
  let entry := decode_entry kv.2 in
  (u64_add unique 1, u64_add total (chunk_len entry),
   if decide (refcount entry = 0) then u64_add zero 1 else zero).

Definition status : M DaemonStatus :=
  in_read IndexE (λ db,
    let '(snapshots, by_client) := foldl (count_snapshot db) (0, ∅) (items db SNAPSHOTS) in
    let '(unique, total, zero) := foldl count_chunk (0, 0, 0) (items db CHUNKS) in
    Ok {| snapshots_total := snapshots; snapshots_by_client := by_client;
          chunks_unique := unique; store_bytes := total; zero_ref := zero;
          last_prune := db !! (STATUS_META, LAST_PRUNE_KEY) ≫= decode_prune_event;
          last_gc := db !! (STATUS_META, LAST_GC_KEY) ≫= decode_gc_event |}).
End gc.
