(* ===== verification/StoreLogic.v ===== *)
(** * Reasoning about the store's programs

    A weakest precondition over all three outcomes, its rules for the
    primitives of [StoreIO], and the rule for a whole write transaction. *)

From S2P Require Import Prelude External StoreIO.

(** ** The database *)

Section database.
Context {Redb : RedbPkg Table} {RedbL : RedbLaws Table}.
Implicit Types (db : Db) (r : Table * bytes).

Lemma db_lookup_empty r : (∅ : Db) !! r = None.
Proof. apply redb_get_create. Qed.
Lemma db_lookup_insert r v db : <[r := v]> db !! r = Some v.
Proof. apply redb_get_insert. Qed.
Lemma db_lookup_insert_ne r r' v db : r ≠ r' → <[r := v]> db !! r' = db !! r'.
Proof. destruct r, r'. apply redb_get_insert_other. Qed.
Lemma db_lookup_delete r db : delete r db !! r = None.
Proof. apply redb_get_remove. Qed.
Lemma db_lookup_delete_ne r r' db : r ≠ r' → delete r db !! r' = db !! r'.
Proof. destruct r, r'. apply redb_get_remove_other. Qed.

Lemma elem_of_items db t k v : (k, v) ∈ items db t ↔ db !! (t, k) = Some v.
Proof. apply redb_iter_records. Qed.
Lemma items_keys_NoDup db t : NoDup (items db t).*1.
Proof. apply redb_iter_keys. Qed.
Lemma items_sorted db t : StronglySorted bytes_le (items db t).*1.
Proof. apply redb_iter_ascending. Qed.
End database.

(** ** The logic *)

Section logic.
Context {Redb : RedbPkg Table}.

(** [Q] holds of the outcome and the final world. *)
Definition wp {E A} (m : M E A) (Q : outcome E A → World → Prop) (w : World) : Prop :=
  Q (m w).1 (m w).2.

(** [w'] is [w] up to the transaction's private copy and used-up faults. *)
Definition later (w w' : World) : Prop := ∀ f, f ∈ faults w' → f ∈ faults w.
Definition same (w w' : World) : Prop :=
  files w' = files w ∧ disk w' = disk w ∧ later w w'.

#[global] Instance later_preorder : PreOrder later.
Proof. split; [by intros w f|]. intros a b c Hab Hbc f Hf. auto. Qed.
#[global] Instance same_preorder : PreOrder same.
Proof.
  split; [by intros w; split_and!|]. intros a b c (?&?&?) (?&?&?).
  split_and!; [congruence..|by etrans].
Qed.

(** A fault of each kind lies ahead. *)
Definition may_fail (w : World) : Prop := ∃ n, FailAt n ∈ faults w.
Definition may_crash (w : World) : Prop := ∃ n, CrashAt n ∈ faults w.

Lemma may_fail_later w w' : later w w' → may_fail w' → may_fail w.
Proof. intros Hl [n Hn]. exists n. auto. Qed.
Lemma may_crash_later w w' : later w w' → may_crash w' → may_crash w.
Proof. intros Hl [n Hn]. exists n. auto. Qed.

Lemma later_pop w : later w (set_faults (tail (faults w)) w).
Proof. intros f Hf. cbn in *. destruct (faults w); [done|by right]. Qed.

Lemma no_faults w w' : faults w = [] → later w w' → faults w' = [].
Proof.
  intros Hf Hl. destruct (faults w') as [|f l] eqn:E; [done|].
  assert (f ∈ faults w) as Hin by (apply Hl; rewrite E; by left). rewrite Hf in Hin. set_solver.
Qed.

Lemma no_fault_fails w : faults w = [] → ¬ may_fail w ∧ ¬ may_crash w.
Proof. intros Hf. split; intros [n Hn]; rewrite Hf in Hn; set_solver. Qed.

End logic.

Section rules.
Context {Redb : RedbPkg Table}.
Context {E : Type}.

Lemma wp_ret {A} (a : A) (Q : outcome E A → World → Prop) w : Q (Done a) w → wp (mret a) Q w.
Proof. done. Qed.

Lemma wp_fail {A} (e : E) (Q : outcome E A → World → Prop) w : Q (Failed e) w → wp (fail e) Q w.
Proof. done. Qed.

Lemma wp_bind {A B} (m : M E A) (f : A → M E B) (Q : outcome E B → World → Prop) w :
  wp m (λ o w', match o with
    | Done a => wp (f a) Q w' | Failed e => Q (Failed e) w' | Crashed => Q Crashed w' end) w →
  wp (m ≫= f) Q w.
Proof. unfold wp, mbind, M_bind. by destruct (m w) as [[a|e|] w']. Qed.

Lemma wp_mono {A} (m : M E A) (P Q : outcome E A → World → Prop) w :
  wp m P w → (∀ o w', P o w' → Q o w') → wp m Q w.
Proof. unfold wp. eauto. Qed.

Lemma wp_catch {A} (m : M E A) (h : E → M E A) (Q : outcome E A → World → Prop) w :
  wp m (λ o w', match o with
    | Done a => Q (Done a) w' | Failed e => wp (h e) Q w' | Crashed => Q Crashed w' end) w →
  wp (catch m h) Q w.
Proof. unfold wp, catch. by destruct (m w) as [[a|e|] w']. Qed.

Lemma wp_ignore {A} (m : M E A) (Q : outcome E unit → World → Prop) w :
  wp m (λ o w', match o with Crashed => Q Crashed w' | _ => Q (Done ()) w' end) w →
  wp (ignore m) Q w.
Proof. unfold wp, ignore. by destruct (m w) as [[a|e|] w']. Qed.

Lemma wp_step {A} (err : E) (ok : World → A * World) failed crashed
    (Q : outcome E A → World → Prop) w :
  (∀ w0, same w w0 → work w0 = work w → Q (Done (ok w0).1) (ok w0).2) →
  (∀ n w0, may_fail w → same w w0 → work w0 = work w → Q (Failed err) (failed n w0)) →
  (∀ n w0, may_crash w → same w w0 → work w0 = work w → Q Crashed (crashed n w0)) →
  wp (step err ok failed crashed) Q w.
Proof.
  intros Hok Hf Hc. unfold wp, step.
  assert (same w (set_faults (tail (faults w)) w)) as Hs by (split_and!; [done..|apply later_pop]).
  destruct (head (faults w)) as [[|n|n]|] eqn:Eh.
  - destruct (ok _) as [a w'] eqn:Eo; cbn. specialize (Hok _ Hs). rewrite Eo in Hok. by apply Hok.
  - apply Hf; [|done..]. exists n. apply head_Some_elem_of, Eh.
  - apply Hc; [|done..]. exists n. apply head_Some_elem_of, Eh.
  - destruct (ok _) as [a w'] eqn:Eo; cbn. specialize (Hok _ Hs). rewrite Eo in Hok. by apply Hok.
Qed.

(** A loop, by an invariant on the items still to come. *)
Lemma wp_foldM {A B} (f : B → A → M E B) (Q : outcome E B → World → Prop)
    (I : B → list A → World → Prop) b l w :
  I b l w →
  (∀ b x l w, I b (x :: l) w → wp (f b x) (λ o w', match o with
     | Done b' => I b' l w' | Failed e => Q (Failed e) w' | Crashed => Q Crashed w' end) w) →
  (∀ b w, I b [] w → Q (Done b) w) →
  wp (foldM f b l) Q w.
Proof.
  intros Hi Hstep Hend. revert b w Hi. induction l as [|x l IH]; intros b w Hi; cbn [foldM].
  - by apply wp_ret, Hend.
  - apply wp_bind. eapply wp_mono; [by apply Hstep|].
    intros [b'|e|] w' H; [by apply IH|done..].
Qed.

(** A primitive that leaves files and database alone. *)
Lemma wp_step_pure {A} (err : E) (a : World → A) (Q : outcome E A → World → Prop) w :
  (∀ w0, same w w0 → work w0 = work w → Q (Done (a w0)) w0) →
  (∀ w0, may_fail w → same w w0 → Q (Failed err) w0) →
  (∀ w0, may_crash w → same w w0 → Q Crashed w0) →
  wp (step err (λ w, (a w, w)) untouched untouched) Q w.
Proof. intros H1 H2 H3. apply wp_step; cbn; auto. Qed.

(** A read transaction sees the committed database. *)
Lemma wp_in_read {A} (err : E) (body : Db → result E A) (Q : outcome E A → World → Prop) w :
  (∀ w', same w w' → match body (disk w) with Ok a => Q (Done a) w' | Err e => Q (Failed e) w' end) →
  (∀ w', may_fail w → same w w' → Q (Failed err) w') →
  (∀ w', may_crash w → same w w' → Q Crashed w') →
  wp (in_read err body) Q w.
Proof.
  intros H1 H2 H3. unfold in_read. apply wp_bind, wp_step_pure; [|auto..].
  intros w0 Hs _. specialize (H1 w0 Hs). destruct Hs as (_ & Hd & _). rewrite Hd.
  by destruct (body (disk w)).
Qed.

Lemma wp_begin_write (err : E) (Q : outcome E unit → World → Prop) w :
  (∀ w', same w w' → work w' = disk w → Q (Done ()) w') →
  (∀ w', may_fail w → same w w' → Q (Failed err) w') →
  (∀ w', may_crash w → same w w' → Q Crashed w') →
  wp (begin_write err) Q w.
Proof.
  intros H1 H2 H3. apply wp_step; [|intros n w0 ???; by apply H2|intros n w0 ???; by apply H3].
  intros w0 (Hf & Hd & Hl) _. by apply H1.
Qed.

Lemma wp_in_txn {A} (err : E) (body : Txn E A) (Q : outcome E A → World → Prop) w :
  (∀ w', same w w' → match body (work w) with
     | (Ok a, db) => work w' = db → Q (Done a) w'
     | (Err e, _) => Q (Failed e) w'
     end) →
  (∀ w', may_fail w → same w w' → Q (Failed err) w') →
  (∀ w', may_crash w → same w w' → Q Crashed w') →
  wp (in_txn err body) Q w.
Proof.
  intros H1 H2 H3. unfold in_txn. apply wp_bind, wp_step; [|auto..].
  intros w0 (Hf & Hd & Hl) Hw. rewrite Hw. cbn [fst snd].
  specialize (H1 (set_work (body (work w)).2 w0)).
  destruct (body (work w)) as [[a|e] db]; cbn [fst snd] in *; by apply H1.
Qed.

Lemma wp_commit (err : E) (Q : outcome E unit → World → Prop) w :
  (∀ w', files w' = files w → disk w' = work w → later w w' → Q (Done ()) w') →
  (∀ w', may_fail w → same w w' → Q (Failed err) w') →
  (∀ w', may_crash w → same w w' → Q Crashed w') →
  (∀ w', may_crash w → files w' = files w → disk w' = work w → later w w' → Q Crashed w') →
  wp (commit err) Q w.
Proof.
  intros H1 H2 H3 H4. apply wp_step.
  - intros w0 (Hf & Hd & Hl) Hw. by apply H1.
  - intros n w0 ???. by apply H2.
  - intros [|n] w0 Hc Hs Hw; [by apply H3|]. destruct Hs as (Hf & Hd & Hl). by apply H4.
Qed.

(** A write transaction: the body runs on the committed database; its result is
    committed whole, or not at all. *)
Lemma wp_transaction {A} (err : E) (body : Txn E A) (Q : outcome E A → World → Prop) w :
  match body (disk w) with
  | (Ok a, db) =>
      (∀ w', files w' = files w → disk w' = db → later w w' → Q (Done a) w') ∧
      (∀ w', may_crash w → files w' = files w → disk w' = db → later w w' → Q Crashed w')
  | (Err e, _) => ∀ w', same w w' → Q (Failed e) w'
  end →
  (∀ w', may_fail w → same w w' → Q (Failed err) w') →
  (∀ w', may_crash w → same w w' → Q Crashed w') →
  wp (transaction err body) Q w.
Proof.
  intros H1 H2 H3. unfold transaction.
  assert (Hf : ∀ w1 w2, may_fail w1 → same w w1 → same w1 w2 → Q (Failed err) w2).
  { intros w1 w2 Hm Hs1 Hs2. apply H2; [|by etrans]. eapply may_fail_later; [apply Hs1|done]. }
  assert (Hc : ∀ w1 w2, may_crash w1 → same w w1 → same w1 w2 → Q Crashed w2).
  { intros w1 w2 Hm Hs1 Hs2. apply H3; [|by etrans]. eapply may_crash_later; [apply Hs1|done]. }
  apply wp_bind, wp_begin_write; [|by eauto..]. intros w1 Hs1 Hw1.
  apply wp_bind, wp_in_txn; [|by eauto..]. intros w2 Hs2. rewrite Hw1.
  assert (same w w2) as Hs by by etrans. destruct Hs as (Hfi & Hd & Hl).
  destruct (body (disk w)) as [[a|e] db]; [|by apply H1].
  destruct H1 as [H1 H1']. intros Hw2. apply wp_bind, wp_commit.
  - intros w3 Hf3 Hd3 Hl3. apply wp_ret, H1; [congruence..|by etrans].
  - intros w3 Hm Hs3. eapply Hf; [exact Hm|by split_and!|done].
  - intros w3 Hm Hs3. eapply Hc; [exact Hm|by split_and!|done].
  - intros w3 Hm Hf3 Hd3 Hl3. apply H1'; [by eapply may_crash_later|congruence..|by etrans].
Qed.

(** Beginning a write transaction with a lookup. *)
Lemma wp_begin_get {A} (err : E) t k (f : option bytes → M E A) (Q : outcome E A → World → Prop) w :
  (∀ w', same w w' → work w' = disk w → wp (f (disk w !! (t, k))) Q w') →
  (∀ w', same w w' → may_fail w → Q (Failed err) w') →
  (∀ w', same w w' → may_crash w → Q Crashed w') →
  wp (begin_write err;; v ← in_txn err (t_get t k); f v) Q w.
Proof.
  intros HQ Hf Hc. apply wp_bind, wp_begin_write; [|by auto..].
  intros w1 Hs1 Hw1. apply wp_bind, wp_in_txn.
  - intros w2 Hs2. cbn [t_get]. rewrite Hw1. intros Hw2. apply HQ; [by etrans|done].
  - intros w2 Hm Hs2. apply Hf; [by etrans|]. eapply may_fail_later; [apply Hs1|done].
  - intros w2 Hm Hs2. apply Hc; [by etrans|]. eapply may_crash_later; [apply Hs1|done].
Qed.
End rules.

(** ** Files *)

Section near.
Context {Redb : RedbPkg Table}.

(** Only the file [p] may differ. *)
Record near (p : FPath) (w w' : World) : Prop := {
  near_disk : disk w' = disk w;
  near_work : work w' = work w;
  near_later : later w w';
  near_files q : q ≠ p → files w' !! q = files w !! q;
}.

#[global] Instance near_preorder p : PreOrder (near p).
Proof.
  split; [by intros w; split|]. intros a b c [D1 W1 L1 F1] [D2 W2 L2 F2].
  split; [congruence..|by etrans|]. intros q Hq. by rewrite F2, F1.
Qed.

End near.

Section file_rules.
Context {Redb : RedbPkg Table}.
Context {E : Type} (err : E).
Implicit Types (p : FPath) (w : World).

(** The fault cases that the file rules share: nothing but [p] has changed. *)
Definition faulty {A} (p : FPath) (Q : outcome E A → World → Prop) (w : World) : Prop :=
  (∀ w', may_fail w → near p w w' → Q (Failed err) w') ∧
  (∀ w', may_crash w → near p w w' → Q Crashed w').

Lemma faulty_near {A} p (Q : outcome E A → World → Prop) w w' :
  near p w w' → faulty p Q w → faulty p Q w'.
Proof.
  intros Hn [Hf Hc]. split; intros w2 Hm Hn2.
  - apply Hf; [|by etrans]. eapply may_fail_later; [apply Hn|done].
  - apply Hc; [|by etrans]. eapply may_crash_later; [apply Hn|done].
Qed.

(** Faults of a later step of a sequence. *)
Lemma faulty_bind {A B} p (Q : outcome E B → World → Prop) (R : A → World → Prop) w :
  faulty p Q w → faulty p (λ o w', match o with
    | Done a => R a w' | Failed e => Q (Failed e) w' | Crashed => Q Crashed w' end) w.
Proof. intros [Hf Hc]. by split. Qed.

Lemma near_set p w w0 f :
  same w w0 → work w0 = work w → (∀ q, q ≠ p → f !! q = files w !! q) → near p w (set_files f w0).
Proof. intros (Hf & Hd & Hl) Hw Hq. split; cbn; done. Qed.

Lemma near_same p w w0 : same w w0 → work w0 = work w → near p w w0.
Proof. intros (Hf & Hd & Hl) Hw. split; [done..|]. intros q _. by rewrite Hf. Qed.

Lemma wp_create_dir_all p (Q : outcome E unit → World → Prop) w :
  (∀ w', near p w w' → files w' = files w → Q (Done ()) w') → faulty p Q w →
  wp (create_dir_all err) Q w.
Proof.
  intros HQ [Hf Hc]. apply wp_step; cbn.
  - intros w0 Hs Hw. apply HQ; [by apply near_same|apply Hs].
  - intros n w0 Hm Hs Hw. by apply Hf, near_same.
  - intros n w0 Hm Hs Hw. by apply Hc, near_same.
Qed.

Lemma wp_file_create p (Q : outcome E unit → World → Prop) w :
  (∀ w', near p w w' → files w' !! p = Some {| content := []; synced := false |} →
    Q (Done ()) w') → faulty p Q w →
  wp (file_create err p) Q w.
Proof.
  intros HQ [Hf Hc].
  assert (∀ w0, same w w0 → work w0 = work w →
    near p w (set_files (<[p := {| content := []; synced := false |}]> (files w0)) w0)) as Hn.
  { intros w0 Hs Hw. apply near_set; [done..|]. intros q Hq. destruct Hs as (-> & _).
    by rewrite lookup_insert_ne. }
  apply wp_step; cbn.
  - intros w0 Hs Hw. apply HQ; [by apply Hn|]. cbn. by rewrite lookup_insert_eq.
  - intros n w0 Hm Hs Hw. by apply Hf, near_same.
  - intros [|n] w0 Hm Hs Hw; apply Hc; [done|by apply near_same|done|by apply Hn].
Qed.

Lemma near_append p bs w w0 : same w w0 → work w0 = work w → near p w (append p bs w0).
Proof.
  intros Hs Hw. apply near_set; [done..|]. intros q Hq. destruct Hs as (-> & _).
  by rewrite lookup_alter_ne.
Qed.

Lemma wp_write_all p bs c b (Q : outcome E unit → World → Prop) w :
  files w !! p = Some {| content := c; synced := b |} →
  (∀ w', near p w w' → files w' !! p = Some {| content := c ++ bs; synced := false |} →
    Q (Done ()) w') → faulty p Q w →
  wp (write_all err p bs) Q w.
Proof.
  intros Hp HQ [Hf Hc]. apply wp_step; cbn.
  - intros w0 Hs Hw. apply HQ; [by apply near_append|]. cbn.
    destruct Hs as (-> & _). by rewrite lookup_alter_eq, Hp.
  - intros n w0 Hm Hs Hw. by apply Hf, near_append.
  - intros n w0 Hm Hs Hw. by apply Hc, near_append.
Qed.

Lemma wp_sync_all p c b (Q : outcome E unit → World → Prop) w :
  files w !! p = Some {| content := c; synced := b |} →
  (∀ w', near p w w' → files w' !! p = Some {| content := c; synced := true |} →
    Q (Done ()) w') → faulty p Q w →
  wp (sync_all err p) Q w.
Proof.
  intros Hp HQ [Hf Hc]. apply wp_step; cbn.
  - intros w0 Hs Hw. destruct Hs as (Hfi & Hs). apply HQ.
    + apply near_set; [done..|]. intros q Hq. rewrite Hfi. by rewrite lookup_alter_ne.
    + cbn. by rewrite Hfi, lookup_alter_eq, Hp.
  - intros n w0 Hm Hs Hw. by apply Hf, near_same.
  - intros n w0 Hm Hs Hw. by apply Hc, near_same.
Qed.

Lemma wp_remove_file p (Q : outcome E bool → World → Prop) w :
  (∀ b w', near p w w' → files w' !! p = None → Q (Done b) w') → faulty p Q w →
  wp (remove_file err p) Q w.
Proof.
  intros HQ [Hf Hc].
  assert (∀ w0, same w w0 → work w0 = work w → near p w (set_files (delete p (files w0)) w0)) as Hn.
  { intros w0 Hs Hw. apply near_set; [done..|]. intros q Hq. destruct Hs as (-> & _).
    by rewrite lookup_delete_ne. }
  apply wp_step; cbn.
  - intros w0 Hs Hw. apply HQ; [by apply Hn|]. cbn. by rewrite lookup_delete_eq.
  - intros n w0 Hm Hs Hw. by apply Hf, near_same.
  - intros [|n] w0 Hm Hs Hw; apply Hc; [done|by apply near_same|done|by apply Hn].
Qed.

(** Removal whose error is dropped. *)
Lemma wp_ignore_remove p (Q : outcome E unit → World → Prop) w :
  (∀ w', near p w w' → Q (Done ()) w') → (∀ w', may_crash w → near p w w' → Q Crashed w') →
  wp (ignore (remove_file err p)) Q w.
Proof.
  intros HQ Hc. apply wp_ignore, wp_remove_file; [by eauto|]. by split; eauto.
Qed.

Lemma wp_rename from to f (Q : outcome E unit → World → Prop) w :
  files w !! from = Some f → from ≠ to →
  (∀ w', disk w' = disk w → work w' = work w → later w w' →
    files w' = <[to := f]> (delete from (files w)) →
    Q (Done ()) w' ∧ (may_crash w → Q Crashed w')) →
  faulty from Q w →
  wp (rename err from to) Q w.
Proof.
  intros Hp Hne HQ [Hf Hc].
  assert (Hr : ∀ w0, same w w0 → work w0 = work w →
    let w' := match files w0 !! from with
              | Some f => set_files (<[to := f]> (delete from (files w0))) w0
              | None => w0 end in
    Q (Done ()) w' ∧ (may_crash w → Q Crashed w')).
  { intros w0 (Hfi & Hd & Hl) Hw. rewrite Hfi, Hp. by apply HQ. }
  apply wp_step; cbn.
  - intros w0 Hs Hw. by apply Hr.
  - intros n w0 Hm Hs Hw. by apply Hf, near_same.
  - intros [|n] w0 Hm Hs Hw; [by apply Hc, near_same|by apply Hr].
Qed.
End file_rules.
