(* ===== verification/StoreSpec.v ===== *)
(** * What the store promises: an abstract store, and how the database holds it

    An [AStore] is a set of chunk blobs, a set of snapshots with their
    references, and the grace marks.  It has no reference counts: a count is
    the number of occurrences of the chunk in the references of all snapshots,
    and [db_rep] says that this is what the [chunks] table records. *)

From S2P Require Import Prelude External Text Index Chunking Manifest Retention StoreIO Store.

(** ** The abstract store *)

Record Snap := { s_blob : bytes; s_refs : list ChunkId; s_owner : option bytes }.

Record AStore := {
  a_chunks : gmap ChunkId bytes;
  a_snaps : gmap (array 16) Snap;
  a_marks : gmap ChunkId Z;
}.

Definition a_empty : AStore := {| a_chunks := ∅; a_snaps := ∅; a_marks := ∅ |}.

(** Every reference of every snapshot. *)
Definition refs_in (snaps : gmap (array 16) Snap) : list ChunkId :=
  map_to_list snaps ≫= λ kv, s_refs kv.2.
Definition a_refs (a : AStore) : list ChunkId := refs_in (a_snaps a).

(** Occurrences of a chunk in a list of references. *)
Definition occ (id : ChunkId) (l : list ChunkId) : Z := len (filter (λ x, x = id) l).

Definition set_chunks (m : gmap ChunkId bytes) (a : AStore) : AStore :=
  {| a_chunks := m; a_snaps := a_snaps a; a_marks := a_marks a |}.
Definition set_snaps (m : gmap (array 16) Snap) (a : AStore) : AStore :=
  {| a_chunks := a_chunks a; a_snaps := m; a_marks := a_marks a |}.

Definition a_put_chunk (id : ChunkId) (data : bytes) (a : AStore) : bool * AStore :=
  match a_chunks a !! id with
  | Some _ => (false, a)
  | None => (true, set_chunks (<[id := data]> (a_chunks a)) a)
  end.

Definition a_delete_chunk (id : ChunkId) (a : AStore) : AStore :=
  set_chunks (delete id (a_chunks a)) a.

Definition a_put_snapshot (key : array 16) (s : Snap) (a : AStore) : AStore :=
  set_snaps (<[key := s]> (a_snaps a)) a.

Definition a_delete_snapshot (key : array 16) (a : AStore) : AStore :=
  set_snaps (delete key (a_snaps a)) a.

(** A chunk that a garbage collection reclaims: unreferenced, with a mark at
    least [grace_ms] old. *)
Definition expired (now_ms grace_ms : Z) (a : AStore) (id : ChunkId) : Prop :=
  occ id (a_refs a) = 0 ∧ is_Some (a_chunks a !! id) ∧
  ∃ mark, a_marks a !! id = Some mark ∧ grace_ms ≤ i64_saturating_sub now_ms mark.

#[global] Instance expired_dec now_ms grace_ms a id : Decision (expired now_ms grace_ms a id).
Proof.
  unfold expired. destruct (a_marks a !! id) as [m|].
  - destruct (decide (grace_ms ≤ i64_saturating_sub now_ms m)).
    + destruct (decide (occ id (a_refs a) = 0 ∧ is_Some (a_chunks a !! id))) as [[? ?]|];
        [left|right]; naive_solver.
    + right. naive_solver.
  - right. naive_solver.
Defined.

Definition a_gc (now_ms grace_ms : Z) (a : AStore) : AStore := {|
  a_chunks := filter (λ kv, ¬ expired now_ms grace_ms a kv.1) (a_chunks a);
  a_snaps := a_snaps a;
  a_marks := map_imap (λ id _,
    if decide (occ id (a_refs a) = 0 ∧ ¬ expired now_ms grace_ms a id)
    then Some (default now_ms (a_marks a !! id)) else None) (a_chunks a);
|}.

(** Well-formedness: references are to chunks that are there, and every number
    fits its field. *)
Record a_ok (a : AStore) : Prop := {
  ok_closed id : id ∈ a_refs a → is_Some (a_chunks a !! id);
  ok_refs : len (a_refs a) ≤ u64_max;
  ok_blob id blob : a_chunks a !! id = Some blob → len blob ≤ u64_max;
  ok_mark id t : a_marks a !! id = Some t → in_i64 t;
}.

(** ** Counting *)

Section occ.
Implicit Types (id : ChunkId) (l : list ChunkId).

Lemma occ_app id l k : occ id (l ++ k) = occ id l + occ id k.
Proof. unfold occ. by rewrite filter_app, len_app. Qed.

Lemma occ_cons id x l : occ id (x :: l) = (if decide (x = id) then 1 else 0) + occ id l.
Proof.
  unfold occ. destruct (decide (x = id)).
  - rewrite filter_cons_True by done. unfold len. cbn [length]. lia.
  - rewrite filter_cons_False by done. lia.
Qed.

Lemma occ_nonneg id l : 0 ≤ occ id l.
Proof. unfold occ, len. lia. Qed.

Lemma occ_len id l : occ id l ≤ len l.
Proof. unfold occ, len. pose proof (length_filter (λ x, x = id) l). lia. Qed.

Lemma occ_pos id l : 0 < occ id l ↔ id ∈ l.
Proof.
  induction l as [|x l IH].
  - split; [intros H; unfold occ, len in H; cbn in H; lia|by intros ?%elem_of_nil].
  - rewrite occ_cons, elem_of_cons, <- IH. pose proof (occ_nonneg id l).
    case_decide; [|naive_solver lia]. split; [by left|lia].
Qed.

#[global] Instance occ_perm id : Proper ((≡ₚ) ==> (=)) (occ id).
Proof. intros l k H. unfold occ, len. by rewrite H. Qed.
End occ.

Lemma refs_insert snaps key s : snaps !! key = None →
  refs_in (<[key := s]> snaps) ≡ₚ s_refs s ++ refs_in snaps.
Proof. intros H. unfold refs_in. by rewrite map_to_list_insert. Qed.

Lemma refs_delete snaps key s : snaps !! key = Some s →
  refs_in snaps ≡ₚ s_refs s ++ refs_in (delete key snaps).
Proof. intros H. unfold refs_in. by rewrite <- (map_to_list_delete _ _ _ H). Qed.

Lemma len_perm {A} (l k : list A) : l ≡ₚ k → len l = len k.
Proof. intros H. unfold len. by rewrite H. Qed.

(** The abstract operations keep a store well-formed. *)
Lemma a_ok_empty : a_ok a_empty.
Proof.
  split; cbn; try done.
  unfold a_refs, refs_in, a_empty; cbn. rewrite map_to_list_empty. by intros id ?%elem_of_nil.
Qed.

Lemma a_ok_put_chunk id data a :
  a_ok a → len data ≤ u64_max → a_ok (a_put_chunk id data a).2.
Proof.
  intros [H1 H2 H3 H4] Hd. unfold a_put_chunk. destruct (a_chunks a !! id) eqn:E; [done|].
  split; cbn; try done.
  - intros id' Hin. destruct (decide (id = id')) as [<-|]; [rewrite lookup_insert_eq; eauto|].
    rewrite lookup_insert_ne by done. by apply H1.
  - intros id' blob [[<- <-]|[? ?]]%lookup_insert_Some; eauto.
Qed.

Lemma a_ok_delete_chunk id a : a_ok a → occ id (a_refs a) = 0 → a_ok (a_delete_chunk id a).
Proof.
  intros [H1 H2 H3 H4] Ho. split; cbn; try done.
  - intros id' Hin. destruct (decide (id = id')) as [<-|]; [|rewrite lookup_delete_ne by done; by apply H1].
    apply occ_pos in Hin. unfold a_refs in *. cbn in Hin. lia.
  - intros id' blob [? ?]%lookup_delete_Some. eauto.
Qed.

Lemma a_ok_put_snapshot key s a :
  a_ok a → a_snaps a !! key = None → Forall (λ id, is_Some (a_chunks a !! id)) (s_refs s) →
  len (s_refs s) + len (a_refs a) ≤ u64_max → a_ok (a_put_snapshot key s a).
Proof.
  intros [H1 H2 H3 H4] Hk Hall Hlen. rewrite Forall_forall in Hall.
  pose proof (refs_insert _ _ s Hk) as Hp. split; cbn; try done.
  - intros id. unfold a_refs; cbn. rewrite Hp. intros [?|?]%elem_of_app; [by apply Hall|by apply H1].
  - unfold a_refs; cbn. by rewrite (len_perm _ _ Hp), len_app.
Qed.

Lemma a_ok_delete_snapshot key a : a_ok a → a_ok (a_delete_snapshot key a).
Proof.
  intros [H1 H2 H3 H4]. destruct (a_snaps a !! key) as [s|] eqn:Hk.
  - pose proof (refs_delete _ _ _ Hk) as Hp. split; cbn; try done.
    + intros id Hin. apply H1. unfold a_refs in *; cbn in Hin. rewrite Hp. set_solver.
    + unfold a_refs in *; cbn. rewrite (len_perm _ _ Hp), len_app in H2. unfold len in *. lia.
  - unfold a_delete_snapshot. rewrite delete_id by done. by destruct a.
Qed.

Lemma a_ok_gc now_ms grace_ms a : a_ok a → in_i64 now_ms → a_ok (a_gc now_ms grace_ms a).
Proof.
  intros [H1 H2 H3 H4] Hnow. split; cbn; try done.
  - intros id Hin. destruct (H1 id Hin) as [blob Hb]. exists blob.
    apply map_lookup_filter_Some. split; [done|]. intros (Ho & _). cbn in Ho.
    apply occ_pos in Hin. unfold a_refs in *; cbn in *. lia.
  - intros id blob [? _]%map_lookup_filter_Some. eauto.
  - intros id t. rewrite map_lookup_imap. destruct (a_chunks a !! id) as [b|]; cbn; [|done].
    case_decide; [|done]. intros [= <-]. destruct (a_marks a !! id) eqn:E; cbn; eauto.
Qed.
