(* ===== verification/Rpc.v ===== *)
(** * The wire between client and daemon ([busyncr.v1])

    The messages and status codes of the service, and the interface between its
    two ends: [Busyncr] has the operations of a server as a connected client sees
    them, and [BusyncrLaws] says that a server with no faults keeps an abstract
    store ([StoreSpec]).  The daemon implements it (ServiceTheorems); the backup
    and restore pipelines are programs over it. *)

From S2P Require Import Prelude External Chunking StoreSpec.

(** [tonic::Code], as far as either end uses it; [Unavailable] is what a client
    sees of a connection that breaks. *)
Inductive Code :=
  | InvalidArgument | NotFound | AlreadyExists | FailedPrecondition | DataLoss | Internal
  | Unauthenticated | PermissionDenied | Unimplemented | Unavailable.

#[global] Instance Code_eq_dec : EqDecision Code.
Proof. solve_decision. Defined.

(** ** Messages *)

Record ChunkBlob := { blob_chunk_id : bytes; blob_data : bytes }.
Record EnrollResponse := { resp_cert_pem : bytes; resp_ca_cert_pem : bytes }.
Record UploadChunksResponse := { stored : Z; already_present : Z }.
Record PutManifestRequest := { manifest : bytes; put_snapshot_id : bytes; put_chunk_ids : list bytes }.

(** A chunk identity and a blob on the wire. *)
Definition wire_id (id : ChunkId) : bytes := vec_to_list id.
Definition wire_blob (b : ChunkId * bytes) : ChunkBlob :=
  {| blob_chunk_id := wire_id b.1; blob_data := b.2 |}.

(** ** The server, as a connected client sees it *)

Class Busyncr (S : Type) := {
  rpc_list_snapshots : S → result Code (list bytes) * S;
  rpc_has_chunks : list bytes → S → result Code (list bytes) * S;
  rpc_upload_chunks : list ChunkBlob → S → result Code UploadChunksResponse * S;
  rpc_put_manifest : PutManifestRequest → S → result Code unit * S;
  rpc_get_manifest : bytes → S → result Code bytes * S;
  (** the items of the response stream *)
  rpc_get_chunks : list bytes → S → result Code (list (result Code ChunkBlob)) * S;
}.

(** Blobs that arrive one after the other; the first one under an identity is
    kept. *)
Definition a_put_chunks (blobs : list (ChunkId * bytes)) (a : AStore) : AStore :=
  foldl (λ a b, (a_put_chunk b.1 b.2 a).2) a blobs.

(** A server without faults, which holds an abstract store. *)
Class BusyncrLaws (S : Type) `{Busyncr S} := {
  serves : S → AStore → Prop;
  serves_ok s a : serves s a → a_ok a;
  list_snapshots_law s a :
    serves s a → ∃ ids s', rpc_list_snapshots s = (Ok ids, s') ∧ serves s' a ∧
      (ids = [] ↔ a_snaps a = ∅);
  has_chunks_law s a ids :
    serves s a → ∃ s', serves s' a ∧ rpc_has_chunks (wire_id <$> ids) s =
      (Ok (wire_id <$> filter (λ id, a_chunks a !! id = None) ids), s');
  upload_chunks_law s a blobs :
    serves s a → Forall (λ b, len b.2 ≤ u64_max) blobs →
    ∃ resp s', rpc_upload_chunks (wire_blob <$> blobs) s = (Ok resp, s') ∧
      u64_add (stored resp) (already_present resp) = len blobs mod 2 ^ 64 ∧
      serves s' (a_put_chunks blobs a);
  put_manifest_law s a m (snap : array 16) ids :
    serves s a → a_snaps a !! snap = None → Forall (λ id, is_Some (a_chunks a !! id)) ids →
    len ids + len (a_refs a) ≤ u64_max →
    ∃ owner s', rpc_put_manifest {| manifest := m; put_snapshot_id := vec_to_list snap;
                                    put_chunk_ids := wire_id <$> ids |} s = (Ok (), s') ∧
      serves s' (a_put_snapshot snap {| s_blob := m; s_refs := ids; s_owner := owner |} a);
  get_manifest_law s a (snap : array 16) sn :
    serves s a → a_snaps a !! snap = Some sn →
    ∃ s', rpc_get_manifest (vec_to_list snap) s = (Ok (s_blob sn), s') ∧ serves s' a;
  get_chunks_law s a ids blobs :
    serves s a → Forall2 (λ id b, a_chunks a !! id = Some b) ids blobs →
    ∃ s', serves s' a ∧ rpc_get_chunks (wire_id <$> ids) s =
      (Ok ((λ b, Ok (wire_blob b)) <$> zip ids blobs), s');
}.

(** ** What uploads do to an abstract store *)

Lemma a_put_chunk_lookup id data a id' :
  a_chunks (a_put_chunk id data a).2 !! id' =
    match a_chunks a !! id' with
    | Some b => Some b
    | None => if decide (id' = id) then Some data else None
    end.
Proof.
  unfold a_put_chunk. destruct (a_chunks a !! id) eqn:E; cbn [snd set_chunks a_chunks].
  - destruct (a_chunks a !! id') eqn:E'; [done|]. case_decide; congruence.
  - destruct (decide (id' = id)) as [->|Hne]; [by rewrite lookup_insert_eq, E|].
    rewrite lookup_insert_ne by done. by destruct (a_chunks a !! id').
Qed.

Lemma a_put_chunk_snaps id data a : a_snaps (a_put_chunk id data a).2 = a_snaps a.
Proof. unfold a_put_chunk. by destruct (a_chunks a !! id). Qed.

Lemma a_put_chunks_snaps blobs a : a_snaps (a_put_chunks blobs a) = a_snaps a.
Proof.
  revert a; induction blobs as [|b blobs IH]; intros a; [done|].
  cbn [a_put_chunks foldl]. etrans; [apply IH|apply a_put_chunk_snaps].
Qed.

(** What is there stays. *)
Lemma a_put_chunks_mono blobs a id b :
  a_chunks a !! id = Some b → a_chunks (a_put_chunks blobs a) !! id = Some b.
Proof.
  revert a; induction blobs as [|[i d] blobs IH]; intros a Hid; [done|].
  apply IH. by rewrite a_put_chunk_lookup, Hid.
Qed.

(** What is there was there before or was uploaded. *)
Lemma a_put_chunks_Some blobs a id b :
  a_chunks (a_put_chunks blobs a) !! id = Some b → a_chunks a !! id = Some b ∨ (id, b) ∈ blobs.
Proof.
  revert a; induction blobs as [|[i d] blobs IH]; intros a Hid; [by left|].
  apply IH in Hid as [Hid|Hid]; [|by right; right]. rewrite a_put_chunk_lookup in Hid.
  destruct (a_chunks a !! id); [by left|]. cbn in Hid. case_decide; simplify_eq. right. by left.
Qed.

Lemma a_put_chunks_stored blobs a id b :
  (id, b) ∈ blobs → is_Some (a_chunks (a_put_chunks blobs a) !! id).
Proof.
  revert a; induction blobs as [|[i d] blobs IH]; intros a; [by intros ?%elem_of_nil|].
  rewrite elem_of_cons. intros [[= <- <-]|Hin]; [|cbn; by apply IH].
  assert (is_Some (a_chunks (a_put_chunk id b a).2 !! id)) as [x Hx].
  { rewrite a_put_chunk_lookup. destruct (a_chunks a !! id); [eauto|]. by rewrite decide_True; [eexists|]. }
  exists x. exact (a_put_chunks_mono blobs _ _ _ Hx).
Qed.

(** ** A server in memory: the store itself *)

Module MemoryServer.

Definition reply {A B} (o : option A) (k : A → B * AStore) (a : AStore) : result Code B * AStore :=
  match o with
  | Some x => let '(y, a') := k x in (Ok y, a')
  | None => (Err InvalidArgument, a)
  end.

Definition parse_ids (ids : list bytes) : option (list ChunkId) := mapM (array_of_list 32) ids.

Definition parse_blobs (blobs : list ChunkBlob) : option (list (ChunkId * bytes)) :=
  mapM (λ b, id ← array_of_list 32 (blob_chunk_id b); Some (id, blob_data b)) blobs.

#[export] Instance memory : Busyncr AStore := {|
  rpc_list_snapshots a := (Ok ((λ s, vec_to_list s.1) <$> map_to_list (a_snaps a)), a);
  rpc_has_chunks ids a := reply (parse_ids ids) (λ ids,
    (wire_id <$> filter (λ id, a_chunks a !! id = None) ids, a)) a;
  rpc_upload_chunks blobs a := reply (parse_blobs blobs) (λ blobs,
    ({| stored := len blobs mod 2 ^ 64; already_present := 0 |}, a_put_chunks blobs a)) a;
  rpc_put_manifest req a := reply (snap ← array_of_list 16 (put_snapshot_id req);
      ids ← parse_ids (put_chunk_ids req); Some (snap, ids)) (λ '(snap, ids),
    ((), a_put_snapshot snap {| s_blob := manifest req; s_refs := ids; s_owner := None |} a)) a;
  rpc_get_manifest snap a :=
    match snap ← array_of_list 16 snap; a_snaps a !! snap with
    | Some sn => (Ok (s_blob sn), a)
    | None => (Err NotFound, a)
    end;
  rpc_get_chunks ids a := reply (parse_ids ids) (λ ids, ((λ id,
    match a_chunks a !! id with
    | Some b => Ok (wire_blob (id, b))
    | None => Err NotFound
    end) <$> ids, a)) a;
|}.

Lemma parse_ids_wire ids : parse_ids (wire_id <$> ids) = Some ids.
Proof.
  apply mapM_Some, Forall2_fmap_l. induction ids; constructor; [apply array_of_vec|done].
Qed.

Lemma parse_blobs_wire blobs : parse_blobs (wire_blob <$> blobs) = Some blobs.
Proof.
  apply mapM_Some, Forall2_fmap_l. induction blobs as [|[id b] blobs IH]; constructor; [|done].
  cbn. unfold wire_id. by rewrite array_of_vec.
Qed.

Lemma a_ok_put_chunks blobs a :
  a_ok a → Forall (λ b, len b.2 ≤ u64_max) blobs → a_ok (a_put_chunks blobs a).
Proof.
  intros Ha Hb. revert a Ha. induction Hb as [|[id b] blobs Hb _ IH]; intros a Ha; [done|].
  apply IH. by apply a_ok_put_chunk.
Qed.

#[export] Instance memory_laws : BusyncrLaws AStore.
Proof.
  refine {| serves := λ s a, s = a ∧ a_ok a |}.
  - by intros s a [_ ?].
  - intros s a [-> Ha]. eexists _, _. split; [done|]. split; [done|]. split.
    + intros Hn%fmap_nil_inv. by apply map_to_list_empty_iff.
    + intros ->. by rewrite map_to_list_empty.
  - intros s a ids [-> Ha]. exists a. split; [done|]. cbn. by rewrite parse_ids_wire.
  - intros s a blobs [-> Ha] Hb. cbn. rewrite parse_blobs_wire. cbn. do 2 eexists. split; [done|].
    split; [|split; [done|by apply a_ok_put_chunks]]. cbn. unfold u64_add. by rewrite Z.add_0_r, Z.mod_mod.
  - intros s a m snap ids [-> Ha] Hn Hids Hl. exists None. cbn. rewrite array_of_vec, parse_ids_wire. cbn.
    eexists. split; [done|]. split; [done|]. by apply a_ok_put_snapshot.
  - intros s a snap sn [-> Ha] Hsn. cbn. rewrite array_of_vec. cbn. rewrite Hsn. by exists a.
  - intros s a ids blobs [-> Ha] Hall. exists a. split; [done|]. cbn. rewrite parse_ids_wire. cbn.
    f_equal. f_equal. induction Hall as [|id b ids blobs Hb _ IH]; [done|]. cbn. by rewrite Hb, IH.
Defined.

End MemoryServer.
