(* ===== verification/StoreRefine.v ===== *)
(** * The store implements its specification

    [db_rep] and [blobs_rep] relate the database and the object files to an
    abstract store.  Each operation of [Store] simulates its abstract
    counterpart under every fault schedule: a result means the abstract step
    was made, an error or a stop leaves the store before the step, or, for a
    stop, possibly just after it. *)

From S2P Require Import Prelude External Text Index Chunking Manifest Retention.
From S2P Require Import StoreIO Store StoreLogic StoreSpec.

(** ** The database *)

(** The index record of a chunk. *)
Definition wire (blob : bytes) (count : Z) : bytes :=
  vec_to_list (to_wire_value {| chunk_len := len blob; refcount := count |}).

Section db_rep.
Context {Redb : RedbPkg Table} {RedbL : RedbLaws Table}.

(** The [chunks] table holds the chunks of [m] with the counts of [cnt]. *)
Definition chunk_counts (db : Db) (m : gmap ChunkId bytes) (cnt : ChunkId → Z) : Prop :=
  ∀ id, db !! (CHUNKS, vec_to_list id) = (λ blob, wire blob (cnt id)) <$> m !! id.

Record db_rep (db : Db) (a : AStore) : Prop := {
  rep_chunks : chunk_counts db (a_chunks a) (λ id, occ id (a_refs a));
  rep_chunk_key k v : db !! (CHUNKS, k) = Some v → length k = 32%nat;
  rep_snaps key : db !! (SNAPSHOTS, vec_to_list key) = s_blob <$> a_snaps a !! key;
  rep_snap_key k v : db !! (SNAPSHOTS, k) = Some v → length k = 16%nat;
  rep_refs key : db !! (SNAPSHOT_REFS, vec_to_list key) =
    (λ s, print_chunks (s_refs s)) <$> a_snaps a !! key;
  rep_owner key : db !! (SNAPSHOT_OWNER, vec_to_list key) = a_snaps a !! key ≫= s_owner;
  rep_marks id : db !! (GC_MARKS, vec_to_list id) = i64_to_le <$> a_marks a !! id;
  rep_mark_key k v : db !! (GC_MARKS, k) = Some v → length k = 32%nat;
}.

(** The same database but for the records of chunks. *)
Definition frame (db db' : Db) : Prop :=
  ∀ t k, t ≠ CHUNKS ∨ length k ≠ 32%nat → db' !! (t, k) = db !! (t, k).

#[global] Instance frame_preorder : PreOrder frame.
Proof. split; [done|]. intros a b c Hab Hbc t k H. by rewrite Hbc, Hab. Qed.

Lemma frame_insert (id : ChunkId) (v : bytes) (db : Db) : frame db (<[(CHUNKS, vec_to_list id) := v]> db).
Proof.
  intros t k H. rewrite db_lookup_insert_ne; [done|]. intros [= <- <-].
  rewrite length_vec_to_list in H. naive_solver.
Qed.

Lemma decode_entry_wire blob count :
  len blob ≤ u64_max → in_u64 count →
  decode_entry (wire blob count) = {| chunk_len := len blob; refcount := count |}.
Proof.
  intros Hl Hc. unfold decode_entry, wire. rewrite decide_True by len_lia.
  rewrite to_array_vec. apply from_to_wire. split; cbn; [|done]. unfold len in *. int_lia.
Qed.

Lemma chunk_counts_insert (db : Db) m cnt cnt' id blob :
  chunk_counts db m cnt → m !! id = Some blob →
  (∀ id', id' ≠ id → cnt' id' = cnt id') →
  chunk_counts (<[(CHUNKS, vec_to_list id) := wire blob (cnt' id)]> db) m cnt'.
Proof.
  intros Hc Hm Hne id'. destruct (decide (id = id')) as [<-|Hd].
  - by rewrite db_lookup_insert, Hm.
  - rewrite db_lookup_insert_ne by (intros [= ?%vec_to_list_inj2]; done).
    rewrite Hc. by rewrite Hne.
Qed.

End db_rep.

(** ** The loops over references *)

Section loops.
Context {Redb : RedbPkg Table} {RedbL : RedbLaws Table}.

Lemma foldM_txn_cons {E A B} (f : B → A → Txn E B) b a l db :
  foldM f b (a :: l) db =
    match f b a db with
    | (Ok b', db') => foldM f b' l db'
    | (Err e, db') => (Err e, db')
    end.
Proof. done. Qed.

Context `{UlidPkg}.

Lemma bump_ref_eq snapshot u chunk db :
  bump_ref snapshot u chunk db =
    match db !! (CHUNKS, vec_to_list chunk) with
    | None => (Err (UnknownChunkRef snapshot chunk), db)
    | Some v =>
        (Ok (), <[(CHUNKS, vec_to_list chunk) := vec_to_list (to_wire_value
          {| chunk_len := chunk_len (decode_entry v);
             refcount := u64_saturating_add (refcount (decode_entry v)) 1 |})]> db)
    end.
Proof. unfold bump_ref, mbind, Txn_bind, t_get. by destruct (db !! _). Qed.

Lemma bump_loop snapshot refs (db : Db) m cnt :
  chunk_counts db m cnt →
  (∀ id blob, m !! id = Some blob → len blob ≤ u64_max) →
  (∀ id, 0 ≤ cnt id ∧ cnt id + occ id refs ≤ u64_max) →
  match foldM (bump_ref snapshot) () refs db with
  | (Ok _, db') =>
      Forall (λ id, is_Some (m !! id)) refs ∧
      chunk_counts db' m (λ id, cnt id + occ id refs) ∧ frame db db'
  | (Err e, _) => ∃ pre c post, refs = pre ++ c :: post ∧
      Forall (λ id, is_Some (m !! id)) pre ∧ m !! c = None ∧ e = UnknownChunkRef snapshot c
  end.
Proof.
  intros Hc Hb. revert db cnt Hc. induction refs as [|c refs IH]; intros db cnt Hc Hcnt.
  - split_and!; [by constructor| |done]. intros id. rewrite Hc.
    change (occ id []) with 0. by rewrite Z.add_0_r.
  - rewrite foldM_txn_cons, bump_ref_eq, Hc.
    destruct (m !! c) as [blob|] eqn:Em; cbn [fmap option_fmap option_map].
    2:{ exists [], c, refs. by split_and!. }
    assert (Hr : in_u64 (cnt c) ∧ cnt c + 1 ≤ u64_max).
    { destruct (Hcnt c) as [? Hle]. rewrite occ_cons, decide_True in Hle by done.
      pose proof (occ_nonneg c refs). int_lia. }
    rewrite decode_entry_wire by naive_solver. cbn [chunk_len refcount t_insert].
    set (cnt' := λ id, cnt id + occ id [c]).
    assert (u64_saturating_add (cnt c) 1 = cnt' c) as ->.
    { unfold cnt'. rewrite occ_cons, decide_True by done. change (occ c []) with 0. int_lia. }
    fold (wire blob (cnt' c)).
    specialize (IH (<[(CHUNKS, vec_to_list c) := wire blob (cnt' c)]> db) cnt').
    destruct (foldM (bump_ref snapshot) () refs _) as [[[]|e] db'].
    + destruct IH as (Hall & Hc' & Hf).
      * eapply chunk_counts_insert; [done..|]. intros id' Hne. unfold cnt'.
        rewrite occ_cons, decide_False by congruence. change (occ id' []) with 0. lia.
      * intros id. specialize (Hcnt id). unfold cnt'. rewrite occ_cons in *.
        change (occ id []) with 0. case_decide; lia.
      * split_and!; [by constructor; eauto| |].
        -- intros id. rewrite Hc'. unfold cnt'. rewrite (occ_cons id c refs), (occ_cons id c []).
           change (occ id []) with 0. by rewrite Z.add_0_r, Z.add_assoc.
        -- etrans; [apply frame_insert|done].
    + destruct IH as (pre & c' & post & -> & Hall & Hn & ->).
      * eapply chunk_counts_insert; [done..|]. intros id' Hne. unfold cnt'.
        rewrite occ_cons, decide_False by congruence. change (occ id' []) with 0. lia.
      * intros id. specialize (Hcnt id). unfold cnt'. rewrite occ_cons in *.
        change (occ id []) with 0. case_decide; lia.
      * exists (c :: pre), c', post. split_and!; [done|by constructor; eauto|done..].
Qed.

Lemma print_chunks_cons (id : ChunkId) ids :
  print_chunks (id :: ids) = vec_to_list id ++ print_chunks ids.
Proof. done. Qed.

Lemma chunks_exact_print (ids : list ChunkId) :
  chunks_exact 32 (print_chunks ids) = (λ id : ChunkId, vec_to_list id) <$> ids.
Proof.
  unfold chunks_exact.
  assert (∀ fuel, (length (print_chunks ids) ≤ fuel)%nat →
    chunks_exact_fuel fuel 32 (print_chunks ids) = (λ id : ChunkId, vec_to_list id) <$> ids) as Hx;
    [|by apply Hx].
  induction ids as [|id ids IH]; intros fuel Hf.
  - destruct fuel; [done|]. cbn [chunks_exact_fuel]. by rewrite decide_False by (cbn; lia).
  - rewrite print_chunks_cons in *. rewrite length_app, length_vec_to_list in Hf.
    destruct fuel as [|fuel]; [lia|]. cbn [chunks_exact_fuel].
    rewrite decide_True by (rewrite length_app, length_vec_to_list; lia).
    rewrite take_app_length', drop_app_length' by (by rewrite length_vec_to_list).
    rewrite IH by lia. done.
Qed.

Lemma drop_ref_eq u (chunk : ChunkId) db :
  drop_ref u (vec_to_list chunk) db =
    match db !! (CHUNKS, vec_to_list chunk) with
    | None => (Ok (), db)
    | Some v =>
        (Ok (), <[(CHUNKS, vec_to_list chunk) := vec_to_list (to_wire_value
          {| chunk_len := chunk_len (decode_entry v);
             refcount := u64_saturating_sub (refcount (decode_entry v)) 1 |})]> db)
    end.
Proof.
  unfold drop_ref, mbind, Txn_bind, t_get. rewrite to_array_vec.
  by destruct (db !! _).
Qed.

Lemma drop_loop refs (db : Db) m cnt :
  chunk_counts db m cnt →
  (∀ id blob, m !! id = Some blob → len blob ≤ u64_max) →
  (∀ id, occ id refs ≤ cnt id ≤ u64_max) →
  ∃ db', foldM drop_ref () ((λ id : ChunkId, vec_to_list id) <$> refs) db = (Ok (), db') ∧
    chunk_counts db' m (λ id, cnt id - occ id refs) ∧ frame db db'.
Proof.
  intros Hc Hb. revert db cnt Hc. induction refs as [|c refs IH]; intros db cnt Hc Hcnt.
  - exists db. split_and!; [done| |done]. intros id. rewrite Hc.
    change (occ id []) with 0. by rewrite Z.sub_0_r.
  - rewrite fmap_cons, foldM_txn_cons, drop_ref_eq, Hc.
    assert (Hocc : ∀ id, occ id refs ≤ cnt id - occ id [c] ≤ u64_max).
    { intros id. specialize (Hcnt id). rewrite occ_cons in *. change (occ id []) with 0.
      pose proof (occ_nonneg id refs). case_decide; lia. }
    set (cnt' := λ id, cnt id - occ id [c]).
    destruct (m !! c) as [blob|] eqn:Em; cbn [fmap option_fmap option_map].
    + pose proof (Hcnt c) as Hcc. rewrite occ_cons, decide_True in Hcc by done.
      pose proof (occ_nonneg c refs).
      rewrite decode_entry_wire by (eauto || int_lia). cbn [chunk_len refcount].
      assert (u64_saturating_sub (cnt c) 1 = cnt' c) as ->.
      { unfold cnt'. rewrite occ_cons, decide_True by done. change (occ c []) with 0. int_lia. }
      fold (wire blob (cnt' c)).
      destruct (IH (<[(CHUNKS, vec_to_list c) := wire blob (cnt' c)]> db) cnt')
        as (db' & Hf & Hc' & Hfr); [|done|].
      { eapply chunk_counts_insert; [done..|]. intros id' Hne. unfold cnt'.
        rewrite occ_cons, decide_False by congruence. change (occ id' []) with 0. lia. }
      exists db'. split_and!; [done| |etrans; [apply frame_insert|done]].
      intros id. rewrite Hc'. unfold cnt'. rewrite (occ_cons id c refs), (occ_cons id c []).
      change (occ id []) with 0. by rewrite Z.add_0_r, Z.sub_add_distr.
    + destruct (IH db cnt') as (db' & Hf & Hc' & Hfr); [|done|].
      { intros id. rewrite Hc. destruct (decide (id = c)) as [->|Hne]; [by rewrite Em|].
        unfold cnt'. rewrite occ_cons, decide_False by congruence. change (occ id []) with 0.
        by rewrite !Z.add_0_r, Z.sub_0_r. }
      exists db'. split_and!; [done| |done].
      intros id. rewrite Hc'. unfold cnt'. rewrite (occ_cons id c refs), (occ_cons id c []).
      change (occ id []) with 0. by rewrite Z.add_0_r, Z.sub_add_distr.
Qed.
End loops.

(** ** Transactions on the database *)

Section tables.
Context {Redb : RedbPkg Table} {RedbL : RedbLaws Table}.
Context (db : Db) (t t' : Table) (k k' v : bytes).

Lemma insert_other_table : t ≠ t' → <[(t, k) := v]> db !! (t', k') = db !! (t', k').
Proof. intros. by rewrite db_lookup_insert_ne by congruence. Qed.
Lemma delete_other_table : t ≠ t' → delete (t, k) db !! (t', k') = db !! (t', k').
Proof. intros. by rewrite db_lookup_delete_ne by congruence. Qed.
Lemma insert_table_key :
  <[(t, k) := v]> db !! (t, k') = if decide (k = k') then Some v else db !! (t, k').
Proof.
  case_decide; subst; [by rewrite db_lookup_insert|by rewrite db_lookup_insert_ne by congruence].
Qed.
Lemma delete_table_key :
  delete (t, k) db !! (t, k') = if decide (k = k') then None else db !! (t, k').
Proof.
  case_decide; subst; [by rewrite db_lookup_delete|by rewrite db_lookup_delete_ne by congruence].
Qed.
End tables.

(** Reads a record through the updates of a transaction. *)
Ltac read_table :=
  repeat first
    [ rewrite insert_other_table by done | rewrite delete_other_table by done
    | rewrite insert_table_key | rewrite delete_table_key ].
Ltac read_table_in H :=
  repeat first
    [ rewrite insert_other_table in H by done | rewrite delete_other_table in H by done
    | rewrite insert_table_key in H | rewrite delete_table_key in H ].

Section frame.
Context {Redb : RedbPkg Table} {RedbL : RedbLaws Table}.

Lemma db_rep_frame db db' a a' :
  db_rep db a → frame db db' → a_snaps a' = a_snaps a → a_marks a' = a_marks a →
  chunk_counts db' (a_chunks a') (λ id, occ id (a_refs a')) → db_rep db' a'.
Proof.
  intros [] Hf Hs Hm Hc. split; rewrite ?Hs, ?Hm; try done;
    intros; rewrite ?Hf in * by (by left); eauto.
  destruct (decide (length k = 32%nat)) as [|Hl]; [done|].
  rewrite Hf in * by (by right). eauto.
Qed.

End frame.

Section txns.
Context {Redb : RedbPkg Table} {RedbL : RedbLaws Table} `{UlidPkg}.
Implicit Types (db : Db) (a : AStore).

Lemma put_snapshot_rep db db' a key s :
  db_rep db a → frame db db' → a_snaps a !! key = None →
  chunk_counts db' (a_chunks a) (λ id, occ id (a_refs a) + occ id (s_refs s)) →
  let db1 := <[(SNAPSHOTS, vec_to_list key) := s_blob s]>
    (<[(SNAPSHOT_REFS, vec_to_list key) := print_chunks (s_refs s)]> db') in
  db_rep (match s_owner s with
          | Some o => <[(SNAPSHOT_OWNER, vec_to_list key) := o]> db1 | None => db1 end)
    (a_put_snapshot key s a).
Proof.
  intros [H1 H2 H3 H4 H5 H6 H7 H8] Hf Hk Hc db1.
  assert (Hfr : ∀ t k, t ≠ CHUNKS → db' !! (t, k) = db !! (t, k)) by (intros; apply Hf; by left).
  assert (Hkeys : ∀ k v, db' !! (CHUNKS, k) = Some v → length k = 32%nat).
  { intros k v Hv. destruct (decide (length k = 32%nat)); [done|].
    rewrite Hf in Hv by (by right). eauto. }
  assert (Hno : db !! (SNAPSHOT_OWNER, vec_to_list key) = None) by by rewrite H6, Hk.
  split; cbn [a_put_snapshot set_snaps a_chunks a_snaps a_marks].
  - intros id. transitivity (db' !! (CHUNKS, vec_to_list id)).
    { unfold db1. by destruct (s_owner s); read_table. }
    assert (occ id (a_refs (a_put_snapshot key s a)) = occ id (a_refs a) + occ id (s_refs s)) as ->.
    { unfold a_refs; cbn. rewrite (refs_insert _ _ s Hk), occ_app. lia. }
    apply Hc.
  - intros k v Hv. apply (Hkeys k v). unfold db1 in Hv. by destruct (s_owner s); read_table_in Hv.
  - intros key'. transitivity (db1 !! (SNAPSHOTS, vec_to_list key')).
    { by destruct (s_owner s); read_table. }
    unfold db1. read_table. rewrite Hfr by done.
    destruct (decide (key = key')) as [<-|Hne].
    + by rewrite decide_True, lookup_insert_eq by done.
    + rewrite decide_False, lookup_insert_ne by (done || by intros ?%vec_to_list_inj2). apply H3.
  - intros k v Hv. assert (db1 !! (SNAPSHOTS, k) = Some v) as Hv'
      by by destruct (s_owner s); read_table_in Hv.
    unfold db1 in Hv'. read_table_in Hv'. case_decide; [subst; apply length_vec_to_list|].
    rewrite Hfr in Hv' by done. eauto.
  - intros key'. transitivity (db1 !! (SNAPSHOT_REFS, vec_to_list key')).
    { by destruct (s_owner s); read_table. }
    unfold db1. read_table. rewrite Hfr by done.
    destruct (decide (key = key')) as [<-|Hne].
    + by rewrite decide_True, lookup_insert_eq by done.
    + rewrite decide_False, lookup_insert_ne by (done || by intros ?%vec_to_list_inj2). apply H5.
  - intros key'. destruct (decide (key = key')) as [<-|Hne].
    + rewrite lookup_insert_eq; cbn. unfold db1. destruct (s_owner s); read_table.
      * by rewrite decide_True.
      * by rewrite Hfr.
    + rewrite lookup_insert_ne by done. rewrite <- H6. unfold db1. destruct (s_owner s); read_table.
      * rewrite decide_False by (by intros ?%vec_to_list_inj2). by apply Hfr.
      * by apply Hfr.
  - intros id. rewrite <- H7. unfold db1. destruct (s_owner s); read_table; by apply Hfr.
  - intros k v Hv. apply (H8 k v). rewrite <- Hfr by done. unfold db1 in Hv.
    by destruct (s_owner s); read_table_in Hv.
Qed.

(** [put_snapshot_as]'s transaction. *)
Lemma put_snapshot_txn_spec snapshot blob refs owner db a :
  db_rep db a → a_ok a → len refs + len (a_refs a) ≤ u64_max →
  let key := Ulid_to_bytes snapshot in
  let s := {| s_blob := blob; s_refs := refs; s_owner := owner |} in
  match put_snapshot_txn snapshot blob refs owner db with
  | (Ok _, db') => a_snaps a !! key = None ∧
      Forall (λ id, is_Some (a_chunks a !! id)) refs ∧ db_rep db' (a_put_snapshot key s a)
  | (Err e, _) =>
      (is_Some (a_snaps a !! key) ∧ e = SnapshotExists snapshot) ∨
      (a_snaps a !! key = None ∧ ∃ pre c post, refs = pre ++ c :: post ∧
        Forall (λ id, is_Some (a_chunks a !! id)) pre ∧ a_chunks a !! c = None ∧
        e = UnknownChunkRef snapshot c)
  end.
Proof.
  intros Hr Hok Hlen key s. pose proof (rep_snaps _ _ Hr key) as Hs.
  unfold put_snapshot_txn, snapshot_key. fold key.
  unfold mbind at 1, Txn_bind at 1, t_get at 1. rewrite Hs.
  destruct (a_snaps a !! key) as [s0|] eqn:Hk; cbn [fmap option_fmap option_map].
  { left. split; [by eexists|done]. }
  unfold mbind at 1, Txn_bind at 1.
  pose proof (bump_loop snapshot refs db (a_chunks a) (λ id, occ id (a_refs a))
    (rep_chunks _ _ Hr) (ok_blob _ Hok)) as Hl.
  destruct (foldM (bump_ref snapshot) () refs db) as [[[]|e] db'].
  2:{ right. split; [done|]. apply Hl. intros id. pose proof (occ_nonneg id (a_refs a)).
      pose proof (occ_len id (a_refs a)). pose proof (occ_len id refs). lia. }
  destruct Hl as (Hall & Hc & Hf).
  { intros id. pose proof (occ_nonneg id (a_refs a)).
    pose proof (occ_len id (a_refs a)). pose proof (occ_len id refs). lia. }
  fold (print_chunks refs). fold s.
  set (db1 := <[(SNAPSHOTS, vec_to_list key) := blob]>
    (<[(SNAPSHOT_REFS, vec_to_list key) := print_chunks refs]> db')).
  assert (db_rep (match owner with
                  | Some o => <[(SNAPSHOT_OWNER, vec_to_list key) := o]> db1 | None => db1 end)
            (a_put_snapshot key s a)) as Hrep.
  { exact (put_snapshot_rep db db' a key s Hr Hf Hk Hc). }
  destruct owner; done.
Qed.

(** The three records that [delete_snapshot] removes. *)
Definition delete_records (key : array 16) db : Db :=
  delete (SNAPSHOT_REFS, vec_to_list key)
    (delete (SNAPSHOT_OWNER, vec_to_list key) (delete (SNAPSHOTS, vec_to_list key) db)).

Lemma delete_snapshot_rep db db' a key s :
  db_rep db a → a_snaps a !! key = Some s → frame (delete_records key db) db' →
  chunk_counts db' (a_chunks a) (λ id, occ id (a_refs a) - occ id (s_refs s)) →
  db_rep db' (a_delete_snapshot key a).
Proof.
  intros [H1 H2 H3 H4 H5 H6 H7 H8] Hk Hf Hc.
  assert (Hfr : ∀ t k, t ≠ CHUNKS → db' !! (t, k) = delete_records key db !! (t, k))
    by (intros; apply Hf; by left).
  unfold delete_records in *.
  assert (Hd : ∀ (key' : array 16) {A} (x y : option A),
    (if decide (vec_to_list key = vec_to_list key') then x else y)
    = if decide (key = key') then x else y).
  { intros key' A x y. destruct (decide (key = key')) as [<-|]; [by rewrite decide_True|].
    by rewrite decide_False by by intros ?%vec_to_list_inj2. }
  assert (Hl : ∀ (key' : array 16), delete key (a_snaps a) !! key' =
    if decide (key = key') then None else a_snaps a !! key').
  { intros key'. case_decide; subst; [by rewrite lookup_delete_eq|by rewrite lookup_delete_ne]. }
  split; cbn [a_delete_snapshot set_snaps a_chunks a_snaps a_marks].
  - intros id. rewrite Hc.
    assert (occ id (a_refs (a_delete_snapshot key a)) = occ id (a_refs a) - occ id (s_refs s)) as ->;
      [|done].
    unfold a_refs; cbn. rewrite (refs_delete _ _ _ Hk), occ_app. lia.
  - intros k v Hv. destruct (decide (length k = 32%nat)); [done|].
    rewrite Hf in Hv by (by right). read_table_in Hv. eauto.
  - intros key'. rewrite Hfr by done. read_table. rewrite Hd, Hl, H3. by case_decide.
  - intros k v. rewrite Hfr by done. read_table. case_decide; [done|]. eauto.
  - intros key'. rewrite Hfr by done. read_table. rewrite Hd, Hl, H5. by case_decide.
  - intros key'. rewrite Hfr by done. read_table. rewrite Hd, Hl, H6. by case_decide.
  - intros id. rewrite Hfr by done. read_table. apply H7.
  - intros k v. rewrite Hfr by done. read_table. eauto.
Qed.

(** [delete_snapshot]'s transaction. *)
Lemma delete_snapshot_txn_spec snapshot db a :
  db_rep db a → a_ok a →
  let key := Ulid_to_bytes snapshot in
  match delete_snapshot_txn snapshot db with
  | (Ok _, db') => is_Some (a_snaps a !! key) ∧ db_rep db' (a_delete_snapshot key a)
  | (Err e, _) => a_snaps a !! key = None ∧ e = SnapshotNotFound snapshot
  end.
Proof.
  intros Hr Hok key. unfold delete_snapshot_txn, snapshot_key. fold key.
  unfold mbind at 1, Txn_bind at 1, t_remove at 1. rewrite (rep_snaps _ _ Hr key).
  destruct (a_snaps a !! key) as [s|] eqn:Hk; cbn [fmap option_fmap option_map]; [|done].
  unfold mbind at 1, Txn_bind at 1, t_remove at 1.
  unfold mbind at 1, Txn_bind at 1, t_remove at 1. fold (delete_records key db).
  read_table. rewrite (rep_refs _ _ Hr key), Hk. cbn [fmap option_fmap option_map from_option id].
  rewrite chunks_exact_print.
  destruct (drop_loop (s_refs s) (delete_records key db) (a_chunks a) (λ id, occ id (a_refs a)))
    as (db' & -> & Hc & Hf).
  - intros id. unfold delete_records. read_table. apply (rep_chunks _ _ Hr).
  - apply ok_blob, Hok.
  - intros id. pose proof (occ_len id (a_refs a)). pose proof (ok_refs _ Hok).
    assert (occ id (a_refs a) =
      occ id (s_refs s) + occ id (refs_in (delete (Ulid_to_bytes snapshot) (a_snaps a)))) as Hp
      by (rewrite <- occ_app; apply occ_perm, refs_delete, Hk).
    pose proof (occ_nonneg id (refs_in (delete (Ulid_to_bytes snapshot) (a_snaps a)))). lia.
  - split; [by eexists|]. by eapply delete_snapshot_rep.
Qed.

(** [delete_chunk]'s transaction. *)
Lemma delete_chunk_txn_spec id db a :
  db_rep db a → a_ok a →
  match delete_chunk_txn id db with
  | (Ok _, db') => is_Some (a_chunks a !! id) ∧ occ id (a_refs a) = 0 ∧
      db_rep db' (a_delete_chunk id a)
  | (Err e, _) =>
      (a_chunks a !! id = None ∧ e = ChunkNotFound id) ∨
      (is_Some (a_chunks a !! id) ∧ 0 < occ id (a_refs a) ∧
       e = StillReferenced id (occ id (a_refs a)))
  end.
Proof.
  intros Hr Hok. unfold delete_chunk_txn.
  unfold mbind at 1, Txn_bind at 1, t_get at 1. rewrite (rep_chunks _ _ Hr id).
  destruct (a_chunks a !! id) as [blob|] eqn:Hb; cbn [fmap option_fmap option_map]; [|by left].
  pose proof (occ_nonneg id (a_refs a)). pose proof (occ_len id (a_refs a)).
  pose proof (ok_refs _ Hok).
  rewrite decode_entry_wire by (eauto using ok_blob || int_lia). cbn [refcount].
  case_decide; [right; by split; [eexists|]|].
  split; [by eexists|]. split; [lia|]. destruct Hr as [R1 R2 R3 R4 R5 R6 R7 R8].
  split; cbn [a_delete_chunk set_chunks a_chunks a_snaps a_marks].
  - intros id'. read_table. change (a_refs (a_delete_chunk id a)) with (a_refs a).
    destruct (decide (id = id')) as [<-|Hne].
    + by rewrite decide_True, lookup_delete_eq.
    + rewrite decide_False, lookup_delete_ne by (done || by intros ?%vec_to_list_inj2). apply R1.
  - intros k v Hv. read_table_in Hv. case_decide; [done|eauto].
  - intros k. read_table. apply R3.
  - intros k v Hv. read_table_in Hv. eauto.
  - intros k. read_table. apply R5.
  - intros k. read_table. apply R6.
  - intros k. read_table. apply R7.
  - intros k v Hv. read_table_in Hv. eauto.
Qed.
End txns.

(** ** Iterating over tables *)

Section iteration.
Context {Redb : RedbPkg Table} {RedbL : RedbLaws Table}.

Lemma load_table_snoc {V} (f : bytes → V) its k v :
  load_table f (its ++ [(k, v)]) =
    match chunk_id_from_key k with
    | Some id => <[id := f v]> (load_table f its) | None => load_table f its end.
Proof. unfold load_table. by rewrite foldl_snoc. Qed.

Lemma load_table_lookup {V} (f : bytes → V) (db : Db) t id :
  load_table f (items db t) !! id = f <$> db !! (t, vec_to_list id).
Proof.
  assert (∀ its, (∀ id x, load_table f its !! id = Some x →
      ∃ v, (vec_to_list id, v) ∈ its ∧ x = f v) ∧
    (NoDup its.*1 → ∀ (id : ChunkId) v, (vec_to_list id, v) ∈ its → load_table f its !! id = Some (f v)))
    as Hl.
  { intros its. induction its as [|[k v] its [IH1 IH2]] using rev_ind.
    { split; [by intros id' x ?|by intros _ id' v ?%elem_of_nil]. }
    rewrite load_table_snoc, fmap_app. split.
    - intros id' x. destruct (chunk_id_from_key k) as [i|] eqn:Ek.
      + apply array_of_list_Some in Ek as <-.
        intros [[<- <-]|[_ (v' & ? & ?)%IH1]]%lookup_insert_Some; set_solver.
      + intros (v' & ? & ?)%IH1. set_solver.
    - intros (Hnd & Hdis & _)%NoDup_app id' v' [Hin|[= <- <-]%list_elem_of_singleton]%elem_of_app.
      + assert (Hne : k ≠ vec_to_list id').
        { intros ->. apply (Hdis (vec_to_list id')); [|set_solver].
          apply list_elem_of_fmap. by exists (vec_to_list id', v'). }
        destruct (chunk_id_from_key k) as [i|] eqn:Ek; [|by apply IH2].
        apply array_of_list_Some in Ek as <-.
        rewrite lookup_insert_ne by (intros ->; done). by apply IH2.
      + unfold chunk_id_from_key. by rewrite array_of_vec, lookup_insert_eq. }
  destruct (Hl (items db t)) as [H1 H2]. specialize (H2 (items_keys_NoDup db t)).
  destruct (db !! (t, vec_to_list id)) as [v|] eqn:Ev; cbn.
  - apply elem_of_items in Ev. by apply H2.
  - destruct (load_table f (items db t) !! id) as [x|] eqn:El; [|done].
    apply H1 in El as (v & Hv%elem_of_items & _). congruence.
Qed.

(** ** Garbage collection *)

Lemma foldM_txn_total {E A} (f : unit → A → Txn E unit) (g : Db → A → Db) l db :
  (∀ a db, f () a db = (Ok (), g db a)) → foldM f () l db = (Ok (), foldl g db l).
Proof.
  intros Hf. revert db; induction l as [|a l IH]; intros db; [done|].
  rewrite foldM_txn_cons, Hf. apply IH.
Qed.

Lemma foldl_delete_lookup {A} (t : Table) (key : A → bytes) l (db : Db) t' k :
  foldl (λ db a, delete (t, key a) db) db l !! (t', k) =
    if decide (t = t' ∧ k ∈ key <$> l) then None else db !! (t', k).
Proof.
  revert db; induction l as [|a l IH]; intros db; cbn [foldl].
  - rewrite decide_False by (intros [_ ?%elem_of_nil]; done). done.
  - rewrite IH. rewrite fmap_cons. destruct (decide (t = t' ∧ k ∈ key <$> l)) as [[-> Hin]|Hn].
    + by rewrite decide_True by (split; [done|by right]).
    + destruct (decide (t = t' ∧ k = key a)) as [[-> ->]|Hne].
      * rewrite db_lookup_delete, decide_True; [done|]. split; [done|by left].
      * rewrite db_lookup_delete_ne by naive_solver. rewrite decide_False; [done|].
        rewrite elem_of_cons. naive_solver.
Qed.

Lemma foldl_insert_lookup {A} (t : Table) (key : A → bytes) (v : bytes) l (db : Db) t' k :
  foldl (λ db a, <[(t, key a) := v]> db) db l !! (t', k) =
    if decide (t = t' ∧ k ∈ key <$> l) then Some v else db !! (t', k).
Proof.
  revert db; induction l as [|a l IH]; intros db; cbn [foldl].
  - rewrite decide_False by (intros [_ ?%elem_of_nil]; done). done.
  - rewrite IH. rewrite fmap_cons. destruct (decide (t = t' ∧ k ∈ key <$> l)) as [[-> Hin]|Hn].
    + by rewrite decide_True by (split; [done|by right]).
    + destruct (decide (t = t' ∧ k = key a)) as [[-> ->]|Hne].
      * rewrite db_lookup_insert, decide_True; [done|]. split; [done|by left].
      * rewrite db_lookup_insert_ne by naive_solver. rewrite decide_False; [done|].
        rewrite elem_of_cons. naive_solver.
Qed.

End iteration.

(** What the reconciliation loop computes, mark by mark. *)
Section reconcile.
Context (now_ms grace_ms : Z) (entries : gmap ChunkId IndexEntry).

Definition mark_expired (m : ChunkId * Z) : option (ChunkId * Z) :=
  e ← entries !! m.1;
  if decide (refcount e = 0 ∧ grace_ms ≤ i64_saturating_sub now_ms m.2)
  then Some (m.1, chunk_len e) else None.

Definition mark_pending (m : ChunkId * Z) : Prop :=
  (∃ e, entries !! m.1 = Some e ∧ refcount e = 0) ∧ i64_saturating_sub now_ms m.2 < grace_ms.
#[global] Instance mark_pending_dec m : Decision (mark_pending m).
Proof.
  unfold mark_pending. destruct (entries !! m.1) as [e|].
  - destruct (decide (refcount e = 0 ∧ i64_saturating_sub now_ms m.2 < grace_ms));
      [left|right]; naive_solver.
  - right. naive_solver.
Defined.

Lemma reconcile_loop l s :
  foldl (reconcile now_ms grace_ms entries) s l =
    {| to_delete := to_delete s ++ omap mark_expired l;
       marks_to_remove := marks_to_remove s ++ (filter (λ m, ¬ mark_pending m) l).*1;
       pending_marked := pending_marked s + len (filter mark_pending l) |}.
Proof.
  revert s; induction l as [|[id m] l IH]; intros s; cbn [foldl].
  - destruct s; cbn. by rewrite !app_nil_r, Z.add_0_r.
  - rewrite IH. unfold reconcile, mark_expired at 2. cbn [omap list_omap fst snd].
    destruct (entries !! id) as [e|] eqn:Ee; cbn [mbind option_bind].
    + destruct (decide (refcount e = 0)) as [E0|E0].
      * destruct (decide (grace_ms ≤ i64_saturating_sub now_ms m)) as [Hg|Hg].
        -- rewrite (decide_True (P := _ ∧ _)) by done.
           rewrite filter_cons_True, (filter_cons_False mark_pending) by
             (unfold mark_pending; cbn; naive_solver lia).
           cbn. by rewrite <- !app_assoc.
        -- rewrite (decide_False (P := _ ∧ _)) by naive_solver.
           rewrite filter_cons_False, (filter_cons_True mark_pending) by
             (unfold mark_pending; cbn; naive_solver lia).
           unfold len; cbn [to_delete marks_to_remove pending_marked length]. f_equal. lia.
      * rewrite (decide_False (P := _ ∧ _)) by naive_solver.
        rewrite filter_cons_True, (filter_cons_False mark_pending) by
          (unfold mark_pending; cbn; naive_solver lia).
        cbn. by rewrite <- !app_assoc.
    + rewrite filter_cons_True, (filter_cons_False mark_pending) by
        (unfold mark_pending; cbn; naive_solver lia).
      cbn. by rewrite <- !app_assoc.
Qed.
End reconcile.

Section gc_refine.
Context {Redb : RedbPkg Table} {RedbL : RedbLaws Table} `{UlidPkg, Blake3Pkg, HashOrderLaws}.
Implicit Types (db : Db) (a : AStore) (id : ChunkId).

Lemma elem_of_hash_iter {V} (m : gmap ChunkId V) id x : (id, x) ∈ hash_iter m ↔ m !! id = Some x.
Proof. rewrite hash_iter_perm. apply elem_of_map_to_list. Qed.

Lemma hash_iter_NoDup {V} (m : gmap ChunkId V) : NoDup (hash_iter m).*1.
Proof. rewrite hash_iter_perm. apply NoDup_fst_map_to_list. Qed.

(** The two hash maps that [gc] loads. *)
Lemma gc_entries db a id : db_rep db a → a_ok a →
  load_table decode_entry (items db CHUNKS) !! id =
    (λ blob, {| chunk_len := len blob; refcount := occ id (a_refs a) |}) <$> a_chunks a !! id.
Proof.
  intros Hr Hok. rewrite load_table_lookup, (rep_chunks _ _ Hr).
  destruct (a_chunks a !! id) as [blob|] eqn:Hb; [|done]. cbn [fmap option_fmap option_map].
  f_equal. apply decode_entry_wire; [by eapply ok_blob|].
  pose proof (occ_nonneg id (a_refs a)). pose proof (occ_len id (a_refs a)).
  pose proof (ok_refs _ Hok). int_lia.
Qed.

Lemma gc_existing db a id : db_rep db a → a_ok a →
  load_table decode_mark (items db GC_MARKS) !! id = a_marks a !! id.
Proof.
  intros Hr Hok. rewrite load_table_lookup, (rep_marks _ _ Hr).
  destruct (a_marks a !! id) as [t|] eqn:Ht; [|done]. cbn. f_equal.
  unfold decode_mark. rewrite decide_True by len_lia.
  by eapply i64_from_to_le, ok_mark.
Qed.

Section run.
Context (now_ms grace_ms : Z) (db : Db) (a : AStore).
Context (Hr : db_rep db a) (Hok : a_ok a).
Let entries := load_table decode_entry (items db CHUNKS).
Let existing := load_table decode_mark (items db GC_MARKS).
Let dels := omap (mark_expired now_ms grace_ms entries) (hash_iter existing).
Let rms := (filter (λ m, ¬ mark_pending now_ms grace_ms entries m) (hash_iter existing)).*1.
Let ins := (filter (λ '(id, entry), refcount entry = 0 ∧ existing !! id = None) (hash_iter entries)).*1.

Lemma gc_dels id l : (id, l) ∈ dels ↔
  expired now_ms grace_ms a id ∧ ∃ blob, a_chunks a !! id = Some blob ∧ l = len blob.
Proof.
  unfold dels. rewrite list_elem_of_omap. split.
  - intros ([id' m] & Hm%elem_of_hash_iter & He). unfold mark_expired in He; cbn [fst snd] in He.
    unfold entries in He. unfold existing in Hm.
    rewrite (gc_entries db a) in He by done. rewrite (gc_existing db a) in Hm by done.
    destruct (a_chunks a !! id') as [blob|] eqn:Hb; cbn in He; [|done].
    case_decide as Hd; simplify_eq/=. destruct Hd. split; [|eauto].
    split_and!; [done|by eexists|by exists m].
  - intros ((Ho & _ & m & Hm & Hg) & blob & Hb & ->). exists (id, m).
    split; [apply elem_of_hash_iter; unfold existing; by rewrite (gc_existing db a)|].
    unfold mark_expired; cbn [fst snd]. unfold entries. rewrite (gc_entries db a), Hb by done.
    cbn. by rewrite decide_True.
Qed.

Lemma gc_dels_NoDup : NoDup dels.*1.
Proof.
  unfold dels. pose proof (hash_iter_NoDup existing) as Hnd.
  induction (hash_iter existing) as [|[id m] l IH]; [constructor|].
  apply NoDup_cons in Hnd as [Hn Hnd]. cbn [omap list_omap].
  destruct (mark_expired _ _ _ _) as [[id' x]|] eqn:E; [|by apply IH].
  unfold mark_expired in E; cbn in E. destruct (entries !! id); cbn in E; [|done].
  case_decide; simplify_eq/=. apply NoDup_cons. split; [|by apply IH].
  rewrite list_elem_of_fmap. intros ([id'' y] & -> & Hin). apply Hn.
  apply list_elem_of_omap in Hin as ([id3 z] & Hin & Hz). unfold mark_expired in Hz; cbn in Hz.
  destruct (entries !! id3); cbn in Hz; [|done]. case_decide; simplify_eq/=.
  by apply (list_elem_of_fmap_2 fst) in Hin.
Qed.

Definition still_pending (id : ChunkId) : Prop :=
  is_Some (a_chunks a !! id) ∧ occ id (a_refs a) = 0 ∧ ¬ expired now_ms grace_ms a id.

Lemma gc_pending_mark id m : a_marks a !! id = Some m →
  mark_pending now_ms grace_ms entries (id, m) ↔ still_pending id.
Proof.
  intros Hm. unfold mark_pending, still_pending, expired; cbn. unfold entries.
  rewrite (gc_entries db a) by done. destruct (a_chunks a !! id) as [blob|] eqn:Hb; cbn.
  - split.
    + intros [(e & [= <-] & Ho) Hlt]. split_and!; [by eexists|done|].
      intros (_ & _ & m' & Hm' & Hg). simplify_eq. lia.
    + intros (_ & Ho & Hne). split; [by eexists|].
      apply Znot_ge_lt. intros Hg. apply Hne. split_and!; [done|by eexists|].
      exists m. split; [done|lia].
  - split; [intros [(e & He & _) _]; done|]. intros ([? ?] & _). done.
Qed.

Lemma gc_rms id : id ∈ rms ↔ ∃ m, a_marks a !! id = Some m ∧ ¬ still_pending id.
Proof.
  unfold rms. rewrite list_elem_of_fmap. split.
  - intros ([id' m] & -> & [Hp Hm%elem_of_hash_iter]%list_elem_of_filter). cbn.
    unfold existing in Hm. rewrite (gc_existing db a) in Hm by done.
    exists m. split; [done|]. by rewrite <- gc_pending_mark.
  - intros (m & Hm & Hp). exists (id, m). split; [done|]. apply list_elem_of_filter.
    split; [by rewrite gc_pending_mark|]. apply elem_of_hash_iter. unfold existing.
    by rewrite (gc_existing db a).
Qed.

Lemma gc_ins id : id ∈ ins ↔ still_pending id ∧ a_marks a !! id = None.
Proof.
  unfold ins. rewrite list_elem_of_fmap. split.
  - intros ([id' e] & -> & [[Ho Hn] He%elem_of_hash_iter]%list_elem_of_filter). cbn.
    unfold existing in Hn. rewrite (gc_existing db a) in Hn by done.
    unfold entries in He. rewrite (gc_entries db a) in He by done.
    destruct (a_chunks a !! id') as [blob|] eqn:Hb; cbn in He; simplify_eq/=.
    split; [|done]. split_and!; [by eexists|done|]. intros (_ & _ & m & Hm & _). congruence.
  - intros (([blob Hb] & Ho & _) & Hn).
    exists (id, {| chunk_len := len blob; refcount := occ id (a_refs a) |}). split; [done|].
    apply list_elem_of_filter. split.
    + split; [done|]. unfold existing. by rewrite (gc_existing db a).
    + apply elem_of_hash_iter. unfold entries. by rewrite (gc_entries db a), Hb.
Qed.

Lemma gc_marks_lookup id : a_marks (a_gc now_ms grace_ms a) !! id =
  if decide (still_pending id) then Some (default now_ms (a_marks a !! id)) else None.
Proof.
  cbn. rewrite map_lookup_imap. unfold still_pending.
  destruct (a_chunks a !! id) as [blob|] eqn:Hb; cbn.
  - destruct (decide (occ id (a_refs a) = 0 ∧ ¬ expired now_ms grace_ms a id)).
    + rewrite decide_True; [done|]. split; [by eexists|done].
    + rewrite decide_False; [done|]. naive_solver.
  - rewrite decide_False; [done|]. by intros ([? ?] & _).
Qed.

(** The database that the transaction leaves. *)
Definition gc_db : Db :=
  <[(STATUS_META, LAST_GC_KEY) := i64_to_le now_ms]>
    (foldl (λ db id, <[(GC_MARKS, vec_to_list id) := i64_to_le now_ms]> db)
      (foldl (λ db id, delete (GC_MARKS, vec_to_list id) db)
        (foldl (λ db r, delete (CHUNKS, vec_to_list r.1) db) db dels) rms) ins).

Lemma gc_txn_eq :
  gc_txn now_ms grace_ms db =
    (Ok (dels, len (filter (mark_pending now_ms grace_ms entries) (hash_iter existing)) + len ins),
     gc_db).
Proof.
  unfold gc_txn. unfold mbind at 1 2, Txn_bind at 1 2, t_iter at 1 2. fold entries existing.
  rewrite reconcile_loop. cbn [to_delete marks_to_remove pending_marked app]. rewrite Z.add_0_l.
  fold dels rms ins.
  unfold mbind at 1, Txn_bind at 1.
  rewrite (foldM_txn_total _ (λ db r, delete (CHUNKS, vec_to_list r.1) db)) by by intros [? ?] ?.
  unfold mbind at 1, Txn_bind at 1.
  rewrite (foldM_txn_total _ (λ db id, delete (GC_MARKS, vec_to_list id) db)) by done.
  unfold mbind at 1, Txn_bind at 1.
  rewrite (foldM_txn_total _ (λ db id, <[(GC_MARKS, vec_to_list id) := i64_to_le now_ms]> db)) by done.
  done.
Qed.

Lemma vec_in_fmap {A} (f : A → ChunkId) (l : list A) id :
  vec_to_list id ∈ (λ x, vec_to_list (f x)) <$> l ↔ id ∈ f <$> l.
Proof.
  rewrite !list_elem_of_fmap. split.
  - intros (x & ->%vec_to_list_inj2 & Hx). eauto.
  - intros (x & -> & Hx). eauto.
Qed.

Lemma gc_chunks_lookup k : gc_db !! (CHUNKS, k) =
  if decide (k ∈ (λ r, vec_to_list r.1) <$> dels) then None else db !! (CHUNKS, k).
Proof.
  unfold gc_db. read_table. rewrite foldl_insert_lookup, decide_False by naive_solver.
  rewrite foldl_delete_lookup, decide_False by naive_solver.
  rewrite (foldl_delete_lookup CHUNKS (λ r : ChunkId * Z, vec_to_list r.1)).
  destruct (decide (k ∈ _)); [rewrite decide_True by done|rewrite decide_False by naive_solver]; done.
Qed.

Lemma gc_marks_db_lookup k : gc_db !! (GC_MARKS, k) =
  if decide (k ∈ (λ id : ChunkId, vec_to_list id) <$> ins) then Some (i64_to_le now_ms)
  else if decide (k ∈ (λ id : ChunkId, vec_to_list id) <$> rms) then None else db !! (GC_MARKS, k).
Proof.
  unfold gc_db. read_table. rewrite (foldl_insert_lookup GC_MARKS (λ id : ChunkId, vec_to_list id)).
  destruct (decide (k ∈ _ <$> ins)).
  { by rewrite decide_True. }
  rewrite decide_False by naive_solver.
  rewrite (foldl_delete_lookup GC_MARKS (λ id : ChunkId, vec_to_list id)).
  destruct (decide (k ∈ _ <$> rms)); [by rewrite decide_True|].
  rewrite decide_False by naive_solver.
  by rewrite foldl_delete_lookup, decide_False by naive_solver.
Qed.

Lemma gc_other_lookup t k : t ≠ CHUNKS → t ≠ GC_MARKS → t ≠ STATUS_META →
  gc_db !! (t, k) = db !! (t, k).
Proof.
  intros. unfold gc_db. read_table. rewrite foldl_insert_lookup, decide_False by naive_solver.
  rewrite foldl_delete_lookup, decide_False by naive_solver.
  by rewrite foldl_delete_lookup, decide_False by naive_solver.
Qed.

Lemma gc_db_rep : db_rep gc_db (a_gc now_ms grace_ms a).
Proof.
  assert (Hdel : ∀ id : ChunkId, vec_to_list id ∈ (λ r : ChunkId * Z, vec_to_list r.1) <$> dels
    ↔ expired now_ms grace_ms a id).
  { intros id. rewrite vec_in_fmap, list_elem_of_fmap. split.
    - intros ([id' l] & -> & [He _]%gc_dels). done.
    - intros He. destruct (proj1 (proj2 He)) as [blob Hb]. exists (id, len blob).
      split; [done|]. apply gc_dels. eauto. }
  destruct Hr as [R1 R2 R3 R4 R5 R6 R7 R8].
  split; intros; try (rewrite gc_other_lookup by done; by auto).
  - intros id. rewrite gc_chunks_lookup. cbn [a_gc a_chunks].
    change (a_refs (a_gc now_ms grace_ms a)) with (a_refs a).
    destruct (decide (expired now_ms grace_ms a id)) as [He|He].
    + rewrite decide_True by by apply Hdel.
      rewrite map_lookup_filter_None_2; [done|]. right. by intros b _ Hn.
    + rewrite decide_False by by rewrite Hdel. rewrite R1.
      destruct (a_chunks a !! id) as [b|] eqn:Hb.
      * by rewrite (proj2 (map_lookup_filter_Some _ _ _ b)) by done.
      * by rewrite map_lookup_filter_None_2 by by left.
  - rewrite gc_chunks_lookup in *. case_decide; [done|eauto].
  - rewrite gc_other_lookup in * by done. eauto.
  - rewrite gc_marks_db_lookup, gc_marks_lookup.
    assert (Hi : vec_to_list id ∈ (λ id : ChunkId, vec_to_list id) <$> ins ↔
      still_pending id ∧ a_marks a !! id = None) by by rewrite (vec_in_fmap (λ x, x)), list_fmap_id, gc_ins.
    assert (Hm : vec_to_list id ∈ (λ id : ChunkId, vec_to_list id) <$> rms ↔
      ∃ m, a_marks a !! id = Some m ∧ ¬ still_pending id)
      by by rewrite (vec_in_fmap (λ x, x)), list_fmap_id, gc_rms.
    destruct (decide (still_pending id)) as [Hp|Hp].
    + destruct (a_marks a !! id) as [m|] eqn:Em.
      * rewrite decide_False, decide_False by (rewrite ?Hi, ?Hm; naive_solver).
        by rewrite R7, Em.
      * rewrite decide_True by by rewrite Hi. done.
    + rewrite decide_False by (rewrite Hi; naive_solver).
      destruct (a_marks a !! id) as [m|] eqn:Em.
      * rewrite decide_True by (rewrite Hm; eauto). done.
      * rewrite decide_False by (rewrite Hm; naive_solver). by rewrite R7, Em.
  - rewrite gc_marks_db_lookup in *. repeat case_decide; simplify_eq; [|eauto].
    match goal with Hin : _ ∈ _ <$> ins |- _ =>
      apply list_elem_of_fmap in Hin as (? & -> & _) end.
    apply length_vec_to_list.
Qed.

Lemma gc_pending_count :
  len (filter (mark_pending now_ms grace_ms entries) (hash_iter existing)) + len ins =
    Z.of_nat (base.size (a_marks (a_gc now_ms grace_ms a))).
Proof.
  set (pend := filter (mark_pending now_ms grace_ms entries) (hash_iter existing)).
  assert (Hpend : ∀ id, id ∈ pend.*1 ↔ still_pending id ∧ is_Some (a_marks a !! id)).
  { intros id. unfold pend. rewrite list_elem_of_fmap. split.
    - intros ([id' m] & -> & [Hp Hm%elem_of_hash_iter]%list_elem_of_filter).
      unfold existing in Hm. rewrite (gc_existing db a) in Hm by done. cbn.
      split; [by eapply gc_pending_mark|by eexists].
    - intros (Hp & m & Hm). exists (id, m). split; [done|]. apply list_elem_of_filter.
      split; [by apply gc_pending_mark|]. apply elem_of_hash_iter. unfold existing.
      by rewrite (gc_existing db a). }
  assert (Hperm : pend.*1 ++ ins ≡ₚ (map_to_list (a_marks (a_gc now_ms grace_ms a))).*1).
  { apply NoDup_Permutation.
    - apply NoDup_app. split_and!.
      + eapply sublist_NoDup; [apply (hash_iter_NoDup existing)|].
        apply fmap_sublist, sublist_filter.
      + intros id [_ [m Hm]]%Hpend [_ Hn]%gc_ins. congruence.
      + eapply sublist_NoDup; [apply (hash_iter_NoDup entries)|].
        apply fmap_sublist, sublist_filter.
    - apply NoDup_fst_map_to_list.
    - intros id. rewrite elem_of_app, Hpend, gc_ins.
      transitivity (is_Some (a_marks (a_gc now_ms grace_ms a) !! id)).
      + rewrite gc_marks_lookup. pose proof (is_Some_None (A := Z)).
        destruct (a_marks a !! id) as [m|] eqn:Em; case_decide; naive_solver.
      + rewrite list_elem_of_fmap. split.
        * intros [m Hm]. exists (id, m). split; [done|]. by apply elem_of_map_to_list.
        * intros ([id' m] & -> & Hm%elem_of_map_to_list). by eexists. }
  apply len_perm in Hperm. rewrite len_app in Hperm. unfold len in *.
  rewrite !length_fmap, length_map_to_list in Hperm. lia.
Qed.

Lemma gc_txn_spec : ∃ pending,
  gc_txn now_ms grace_ms db = (Ok (dels, pending), gc_db) ∧
  pending = Z.of_nat (base.size (a_marks (a_gc now_ms grace_ms a))).
Proof. eexists. split; [apply gc_txn_eq|apply gc_pending_count]. Qed.
End run.
End gc_refine.
