(* ===== verification/StoreOps.v ===== *)
(** * The store's operations, under every fault schedule

    For each operation of [ChunkStore]: its result against the abstract store,
    and what an error or a stop in the middle leaves behind. *)

From S2P Require Import Prelude External Text Index Chunking Manifest Retention.
From S2P Require Import StoreIO Store StoreLogic StoreSpec StoreRefine.

Section represents.
Context {Redb : RedbPkg Table} {RedbL : RedbLaws Table} `{UlidPkg, Blake3Pkg}.

(** The object file of a blob. *)
Definition object_file (blob : bytes) : File :=
  {| content := vec_to_list (blake3_hash blob) ++ blob; synced := true |}.

Definition blobs_rep (fs : gmap FPath File) (a : AStore) : Prop :=
  ∀ id blob, a_chunks a !! id = Some blob → fs !! object_path id = Some (object_file blob).

(** The world holds the abstract store. *)
Record represents (w : World) (a : AStore) : Prop := {
  rep_db : db_rep (disk w) a;
  rep_blobs : blobs_rep (files w) a;
  rep_ok : a_ok a;
}.

Lemma represents_same w w' a : same w w' → represents w a → represents w' a.
Proof. intros (Hf & Hd & _) []. split; rewrite ?Hf, ?Hd; done. Qed.

Lemma represents_disk w w' a a' :
  represents w a → files w' = files w → db_rep (disk w') a' → a_ok a' →
  (∀ id blob, a_chunks a' !! id = Some blob → a_chunks a !! id = Some blob) → represents w' a'.
Proof. intros [_ Hb _] Hf Hd Hok Hc. split; [done| |done]. rewrite Hf. intros id blob ?. eauto. Qed.

Lemma object_path_inj id id' : object_path id = object_path id' → id = id'.
Proof. intros [= _ E]. apply vec_to_list_inj2. by apply hex_bytes_inj. Qed.

(** A temporary name is no chunk's name: it starts with a dot. *)
Lemma tmp_ne_object shard ulid id : (shard, TMP_PREFIX ++ ulid) ≠ object_path id.
Proof.
  intros [= _ E]. pose proof (hex_bytes_ascii (vec_to_list id)) as _.
  unfold ChunkId_to_string in E. destruct (vec_to_list id) as [|b bs]; [done|].
  rewrite hex_bytes_cons in E. cbn in E. injection E as E _. destruct (nibbles b) as [Hn _].
  assert (byte_to_Z (hex_digit (byte_to_Z b / 16)) = 46) as E' by by rewrite <- E.
  rewrite hex_digit_value in E' by done. case_decide; lia.
Qed.
Lemma object_ne_tmp shard ulid id : object_path id ≠ (shard, TMP_PREFIX ++ ulid).
Proof. intros E. by eapply tmp_ne_object. Qed.

(** ** Writing an object *)

(** What a program leaves that may change [tmp], and puts [f] at [final] or
    leaves [final] alone.  It may do the latter and still succeed, when a
    rename onto an existing destination failed. *)
Definition written (tmp final : FPath) (f : File) (w : World)
    (o : outcome StoreError unit) (w' : World) : Prop :=
  disk w' = disk w ∧ work w' = work w ∧ later w w' ∧
  (∀ p, p ≠ tmp → p ≠ final → files w' !! p = files w !! p) ∧
  match o with
  | Done _ => files w' !! final = Some f ∨
      (may_fail w ∧ is_Some (files w !! final) ∧ files w' !! final = files w !! final)
  | Failed e => e = StoreIo ∧ may_fail w ∧ files w' !! final = files w !! final
  | Crashed => may_crash w ∧
      (files w' !! final = files w !! final ∨ files w' !! final = Some f)
  end.

Lemma written_near tmp final f w w1 o w' :
  tmp ≠ final → near tmp w w1 → written tmp final f w1 o w' → written tmp final f w o w'.
Proof.
  intros Hne [D W L F] (D' & W' & L' & F' & Ho). rewrite F in Ho by done.
  split_and!; [congruence..|by etrans|intros p H1' H2'; by rewrite F', F|].
  destruct o; naive_solver eauto using may_fail_later, may_crash_later.
Qed.

(** Dropping the temporary file on an error. *)
Lemma wp_drop_tmp tmp w w1 :
  near tmp w w1 → may_fail w →
  wp (ignore (remove_file StoreIo tmp);; fail StoreIo : M StoreError unit)
    (λ o w', near tmp w w' ∧ match o with
      | Done _ => False | Failed e => e = StoreIo ∧ may_fail w | Crashed => may_crash w end) w1.
Proof.
  intros Hn Hm. apply wp_bind, wp_ignore_remove.
  - intros w2 Hn2. apply wp_fail. split; [by etrans|done].
  - intros w2 Hc Hn2. split; [by etrans|]. eapply may_crash_later; [apply Hn|done].
Qed.

(** Filling the temporary file: header, data, fsync. *)
Lemma wp_fill_tmp tmp header data b w :
  files w !! tmp = Some {| content := []; synced := b |} →
  wp (catch
        (write_all StoreIo tmp header;; write_all StoreIo tmp data;; sync_all StoreIo tmp)
        (λ e, ignore (remove_file StoreIo tmp);; fail e))
    (λ o w', near tmp w w' ∧ match o with
      | Done _ => files w' !! tmp = Some {| content := header ++ data; synced := true |}
      | Failed e => e = StoreIo ∧ may_fail w
      | Crashed => may_crash w
      end) w.
Proof.
  intros Hf. set (Q := λ (o : outcome StoreError unit) w', _).
  assert (HF : ∀ w1 w2, near tmp w w1 → may_fail w1 → near tmp w1 w2 →
    wp (ignore (remove_file StoreIo tmp);; fail StoreIo) Q w2).
  { intros w1 w2 Hn Hm Hn2. eapply wp_mono; [apply (wp_drop_tmp tmp w w2)|].
    - by etrans.
    - eapply may_fail_later; [apply Hn|done].
    - by intros [u|e|] w' [? ?]. }
  assert (HC : ∀ w1 w2, near tmp w w1 → may_crash w1 → near tmp w1 w2 → Q Crashed w2).
  { intros w1 w2 Hn Hm Hn2. split; [by etrans|]. eapply may_crash_later; [apply Hn|done]. }
  apply wp_catch, wp_bind. eapply wp_write_all; [exact Hf| |split; intros w' Hm Hn; [by apply (HF w)|by apply (HC w)]].
  intros w3 Hn3 Hf3. apply wp_bind.
  eapply wp_write_all; [exact Hf3| |split; intros w' Hm Hn; [by apply (HF w3)|by apply (HC w3)]].
  intros w4 Hn4 Hf4. assert (Hnt4 : near tmp w w4) by by etrans.
  eapply wp_sync_all; [exact Hf4| |split; intros w' Hm Hn; [by apply (HF w4)|by apply (HC w4)]].
  intros w5 Hn5 Hf5. split; [by etrans|done].
Qed.

(** Moving the temporary file into place. *)
Lemma wp_install tmp final f w :
  tmp ≠ final → files w !! tmp = Some f →
  wp (catch (rename StoreIo tmp final)
        (λ e,
          ex ← path_exists final;
          if ex : bool
          then ignore (remove_file StoreIo tmp);; mret ()
          else ignore (remove_file StoreIo tmp);; fail e))
    (written tmp final f w) w.
Proof.
  intros Hne Hf. apply wp_catch. eapply wp_rename; [exact Hf|done| |split].
  - intros w6 Hd6 Hw6 Hl6 Hf6.
    assert (Hoth : ∀ p, p ≠ tmp → p ≠ final → files w6 !! p = files w !! p).
    { intros p Hp1 Hp2. by rewrite Hf6, lookup_insert_ne, lookup_delete_ne. }
    assert (Hfin : files w6 !! final = Some f) by by rewrite Hf6, lookup_insert_eq.
    split; [split_and!; auto|]. intros Hm. split_and!; auto.
  - intros w6 Hm Hn6. apply wp_bind. unfold wp at 1, path_exists. cbn [fst snd].
    pose proof (near_files _ _ _ Hn6 final) as Hfin.
    case_bool_decide as Hex; rewrite Hfin in Hex by done.
    + apply wp_bind, wp_ignore_remove.
      * intros w7 Hn7. apply wp_ret. assert (near tmp w w7) as [D7 W7 L7 F7] by by etrans.
        split_and!; [done..|by auto|]. right. by rewrite F7.
      * intros w7 Hm7 Hn7. assert (near tmp w w7) as [D7 W7 L7 F7] by by etrans.
        split_and!; [done..|by auto|eapply may_crash_later; [apply Hn6|done]|left; by apply F7].
    + eapply wp_mono; [by apply (wp_drop_tmp tmp w w6)|]. intros o w' [[D W L F] Ho].
      split_and!; [done..|by auto|]. rewrite F by done. destruct o; naive_solver.
  - intros w6 Hm6 [D W L F]. split_and!; [done..|by auto|done|left; by apply F].
Qed.

(** [write_object] touches its temporary file and the final one only. *)
Lemma wp_write_object ulid id data w :
  wp (write_object ulid id data)
    (written ((object_path id).1, TMP_PREFIX ++ ulid) (object_path id) (object_file data) w) w.
Proof.
  unfold write_object. set (final := object_path id). set (tmp := (final.1, TMP_PREFIX ++ ulid)).
  assert (Hne : tmp ≠ final) by (symmetry; apply object_ne_tmp).
  assert (HF : ∀ w1 (o : outcome StoreError unit), near tmp w w1 →
    match o with
    | Done _ => False | Failed e => e = StoreIo ∧ may_fail w | Crashed => may_crash w end →
    written tmp final (object_file data) w o w1).
  { intros w1 o [D W L F] Ho. split_and!; [done..|by auto|]. rewrite F by done.
    destruct o; naive_solver. }
  assert (Hfy : ∀ w1, near tmp w w1 → faulty StoreIo tmp (written tmp final (object_file data) w) w1).
  { intros w1 Hn1. split; intros w2 Hm Hn2; (apply HF; [by etrans|]).
    - split; [done|]. eapply may_fail_later; [apply Hn1|done].
    - eapply may_crash_later; [apply Hn1|done]. }
  apply wp_bind, (wp_create_dir_all _ tmp); [|by apply faulty_bind, Hfy].
  intros w1 Hn1 _. apply wp_bind, wp_file_create; [|by apply faulty_bind, Hfy].
  intros w2 Hn2 Hf2. assert (Hnt2 : near tmp w w2) by by etrans.
  apply wp_bind. eapply wp_mono; [by eapply wp_fill_tmp|]. intros o w3 [Hn3 Ho].
  assert (Hnt3 : near tmp w w3) by by etrans. destruct o as [u|e|].
  - eapply wp_mono; [by apply wp_install|]. intros o w4. by apply written_near.
  - apply HF; [done|]. destruct Ho as [-> Hm]. split; [done|]. eapply may_fail_later; [apply Hnt2|done].
  - apply HF; [done|]. eapply may_crash_later; [apply Hnt2|done].
Qed.

(** ** Chunks *)

(** The destination of an upload is free of stale bytes, or no rename will fail
    onto them. *)
Definition put_safe (id : ChunkId) (data : bytes) (w : World) : Prop :=
  (∀ f, files w !! object_path id = Some f → f = object_file data) ∨ ¬ may_fail w.

Lemma db_rep_put_chunk id data db a :
  db_rep db a → a_ok a → a_chunks a !! id = None →
  db_rep (<[(CHUNKS, vec_to_list id) := wire data 0]> db)
    (set_chunks (<[id := data]> (a_chunks a)) a).
Proof.
  intros [R1 R2 R3 R4 R5 R6 R7 R8] Hok Hn.
  assert (occ id (a_refs a) = 0) as Ho.
  { pose proof (occ_nonneg id (a_refs a)). destruct (decide (0 < occ id (a_refs a))) as [Hp|]; [|lia].
    apply occ_pos in Hp. apply (ok_closed _ Hok) in Hp as [? ?]. congruence. }
  split; cbn [set_chunks a_chunks a_snaps a_marks].
  - intros id'. read_table. change (a_refs (set_chunks _ a)) with (a_refs a).
    destruct (decide (id = id')) as [<-|Hne].
    + by rewrite decide_True, lookup_insert_eq, Ho.
    + rewrite decide_False, lookup_insert_ne by (done || by intros ?%vec_to_list_inj2). apply R1.
  - intros k v Hv. read_table_in Hv. case_decide; [subst; apply length_vec_to_list|eauto].
  - intros k. read_table. apply R3.
  - intros k v Hv. read_table_in Hv. eauto.
  - intros k. read_table. apply R5.
  - intros k. read_table. apply R6.
  - intros k. read_table. apply R7.
  - intros k v Hv. read_table_in Hv. eauto.
Qed.

(** A store whose files differ only at temporary names and at the path of a
    chunk that it does not hold represents the same thing. *)
Lemma represents_files w w' a id :
  represents w a → disk w' = disk w → a_chunks a !! id = None →
  (∀ p, (∀ shard ulid, p ≠ (shard, TMP_PREFIX ++ ulid)) → p ≠ object_path id →
    files w' !! p = files w !! p) →
  represents w' a.
Proof.
  intros [Hd Hb Hok] Hdisk Hn Hf. split; [by rewrite Hdisk| |done].
  intros id' blob Hid. rewrite Hf; [eauto|intros; apply object_ne_tmp|].
  intros E%object_path_inj. congruence.
Qed.

(** The second half of an upload of a new chunk: the object is in place and
    the index record is in the transaction, or nothing that counts has changed. *)
Lemma put_object_sim ulid id data w a :
  represents w a → a_chunks a !! id = None → put_safe id data w → work w = disk w →
  wp (write_object ulid id data;;
      in_txn IndexE (t_insert CHUNKS (vec_to_list id) (wire data 0));; mret true)
    (λ o w', later w w' ∧ represents w' a ∧ match o with
    | Done b => b = true ∧ files w' !! object_path id = Some (object_file data) ∧
        work w' = <[(CHUNKS, vec_to_list id) := wire data 0]> (disk w')
    | Failed e => (e = StoreIo ∨ e = IndexE) ∧ may_fail w
    | Crashed => may_crash w
    end) w.
Proof.
  intros Hr Hid Hsafe Hwk. apply wp_bind. eapply wp_mono; [apply wp_write_object|].
  intros o w3 (Hd3 & Hwk3 & Hl3 & Hf3 & Ho).
  assert (Hr3 : represents w3 a).
  { eapply represents_files; [done..|]. intros p Hp1 Hp2. by apply Hf3. }
  destruct o as [u|e|].
  2:{ destruct Ho as (-> & Hm & _). split_and!; [done..|by left|done]. }
  2:{ by destruct Ho. }
  assert (Hobj : files w3 !! object_path id = Some (object_file data)).
  { destruct Ho as [|(Hm & [f Hf] & Hsame)]; [done|]. destruct Hsafe as [Hold|Hno]; [|done].
    rewrite Hsame, Hf. f_equal. by apply Hold. }
  apply wp_bind, wp_in_txn; cbn [t_insert].
  - intros w4 Hs4 Hw4. apply wp_ret. rewrite Hwk3, Hwk in Hw4.
    split_and!; [etrans; [done|apply Hs4]|by eapply represents_same|done| |].
    + by destruct Hs4 as (-> & _).
    + destruct Hs4 as (_ & -> & _). by rewrite Hd3.
  - intros w4 Hm Hs4. split_and!; [etrans; [done|apply Hs4]|by eapply represents_same|by right|].
    by eauto using may_fail_later.
  - intros w4 Hm Hs4. split_and!; [etrans; [done|apply Hs4]|by eapply represents_same|].
    by eauto using may_crash_later.
Qed.

(** What the commit of the index record makes of the store. *)
Lemma represents_put_chunk id data w w' a :
  represents w a → a_chunks a !! id = None → len data ≤ u64_max →
  files w !! object_path id = Some (object_file data) →
  files w' = files w → disk w' = <[(CHUNKS, vec_to_list id) := wire data 0]> (disk w) →
  represents w' (a_put_chunk id data a).2.
Proof.
  intros Hr Hid Hlen Hobj Hf Hd. pose proof (a_ok_put_chunk id data a (rep_ok _ _ Hr) Hlen) as Hok.
  unfold a_put_chunk in *. rewrite Hid in *. cbn [snd] in *. split; [|intros id' blob Hb|done].
  - rewrite Hd. apply db_rep_put_chunk; [apply Hr..|done].
  - rewrite Hf. cbn in Hb. apply lookup_insert_Some in Hb as [[<- <-]|[_ Hb]]; [done|]. by apply Hr.
Qed.

(** Uploading a chunk stores it unless it was there, and says which; the
    existing blob is untouched.  Failing or stopped anywhere, it leaves the
    store as it was, or (stopped at the commit) with the chunk. *)
Lemma put_chunk_sim ulid id data w a :
  represents w a → len data ≤ u64_max → put_safe id data w →
  wp (put_chunk ulid id data) (λ o w', later w w' ∧ match o with
    | Done b => b = (a_put_chunk id data a).1 ∧ represents w' (a_put_chunk id data a).2
    | Failed e => (e = StoreIo ∨ e = IndexE) ∧ may_fail w ∧ represents w' a
    | Crashed => may_crash w ∧ (represents w' a ∨ represents w' (a_put_chunk id data a).2)
    end) w.
Proof.
  intros Hr Hlen Hsafe. set (Q := λ (o : outcome StoreError bool) w', _).
  assert (HF : ∀ w1 e, (e = StoreIo ∨ e = IndexE) → later w w1 → represents w1 a → may_fail w →
    Q (Failed e) w1) by (intros w1 e ????; split; [done|by split_and!]).
  assert (HC : ∀ w1, later w w1 → represents w1 a → may_crash w → Q Crashed w1)
    by (intros w1 ???; split; [done|split; [done|by left]]).
  unfold put_chunk. apply wp_begin_get.
  2: intros w1 Hs Hm; by apply HF; [right|apply Hs|eapply represents_same|].
  2: intros w1 Hs Hm; by apply HC; [apply Hs|eapply represents_same|].
  intros w2 Hs Hw2. rewrite (rep_chunks _ _ (rep_db _ _ Hr) id).
  assert (Hr2 : represents w2 a) by by eapply represents_same. destruct Hs as (Hf & Hd & Hl).
  assert (HF2 : ∀ w3 e, (e = StoreIo ∨ e = IndexE) → later w2 w3 → represents w3 a → may_fail w2 →
    Q (Failed e) w3) by (intros; apply HF; [done|by etrans|done|by eapply may_fail_later]).
  assert (HC2 : ∀ w3, later w2 w3 → represents w3 a → may_crash w2 → Q Crashed w3)
    by (intros; apply HC; [by etrans|done|by eapply may_crash_later]).
  apply wp_bind. destruct (a_chunks a !! id) as [blob|] eqn:Hid; cbn [fmap option_fmap option_map].
  - assert (a_put_chunk id data a = (false, a)) as Ea by (unfold a_put_chunk; by rewrite Hid).
    assert (Hw3 : ∀ w3, files w3 = files w2 → disk w3 = work w2 → later w2 w3 → represents w3 a).
    { intros w3 Hf3 Hd3 Hl3. eapply (represents_same w2); [|done]. split_and!; congruence || done. }
    apply wp_ret, wp_bind, wp_commit.
    + intros w3 Hf3 Hd3 Hl3. apply wp_ret. unfold Q. rewrite Ea. split; [by etrans|]. split; [done|auto].
    + intros w3 Hm Hs3. by apply HF2; [right|apply Hs3|eapply represents_same|].
    + intros w3 Hm Hs3. by apply HC2; [apply Hs3|eapply represents_same|].
    + intros w3 Hm Hf3 Hd3 Hl3. by apply HC2; [|auto|].
  - eapply wp_mono; [apply (put_object_sim ulid id data w2 a Hr2 Hid)|].
    { destruct Hsafe as [Hold|Hno]; [left; by rewrite Hf|right]. intros Hm. by apply Hno, (may_fail_later w w2). }
    { congruence. }
    intros o w3 (Hl3 & Hr3 & Ho). destruct o as [b|e|]; [|by apply HF2; naive_solver|by apply HC2].
    destruct Ho as (-> & Hobj & Hwk3).
    assert (Ea : (a_put_chunk id data a).1 = true) by (unfold a_put_chunk; by rewrite Hid).
    apply wp_bind, wp_commit.
    + intros w4 Hf4 Hd4 Hl4. apply wp_ret. split; [by do 2 (etrans; [eassumption|])|].
      split; [done|]. eapply (represents_put_chunk id data w3); congruence || done.
    + intros w4 Hm Hs4. by apply HF2; [right|etrans; [|apply Hs4]|eapply represents_same|eapply may_fail_later].
    + intros w4 Hm Hs4. by apply HC2; [etrans; [|apply Hs4]|eapply represents_same|eapply may_crash_later].
    + intros w4 Hm Hf4 Hd4 Hl4. split; [by do 2 (etrans; [eassumption|])|].
      split; [by eapply may_crash_later, may_crash_later|]. right.
      eapply (represents_put_chunk id data w3); congruence || done.
Qed.

(** Reading a chunk gives the bytes that were stored for it, or says that it is
    not there; no other error is possible but a failing read. *)
Lemma get_chunk_sim id w a :
  represents w a →
  wp (get_chunk id) (λ o w', same w w' ∧ match o with
    | Done data => a_chunks a !! id = Some data
    | Failed e => (e = ChunkNotFound id ∧ a_chunks a !! id = None) ∨
        ((e = StoreIo ∨ e = IndexE) ∧ may_fail w)
    | Crashed => may_crash w
    end) w.
Proof.
  intros Hr. unfold get_chunk, chunk_entry. apply wp_bind, wp_in_read; [|by auto..].
  intros w1 Hs1. rewrite (rep_chunks _ _ (rep_db _ _ Hr) id).
  destruct (a_chunks a !! id) as [blob|] eqn:Hid; cbn [fmap option_fmap option_map].
  2:{ apply wp_fail. auto. }
  pose proof (ok_blob _ (rep_ok _ _ Hr) _ _ Hid) as Hlen.
  pose proof (occ_nonneg id (a_refs a)). pose proof (occ_len id (a_refs a)).
  pose proof (ok_refs _ (rep_ok _ _ Hr)).
  rewrite decode_entry_wire by (done || int_lia).
  apply wp_bind. unfold fs_read. apply wp_step_pure.
  2,3: intros w2 Hm Hs2; (split; [by etrans|]).
  2: right; split; [by left|]; eapply may_fail_later; [apply Hs1|done].
  2: eapply may_crash_later; [apply Hs1|done].
  intros w2 Hs2 _. assert (Hs : same w w2) by by etrans.
  destruct (Hs) as (Hf & _). rewrite Hf, (rep_blobs _ _ Hr _ _ Hid).
  cbn [fmap option_fmap option_map object_file content].
  assert (verify_object id {| chunk_len := len blob; refcount := occ id (a_refs a) |}
    (vec_to_list (blake3_hash blob) ++ blob) = Ok blob) as ->; [|by apply wp_ret].
  unfold verify_object, OBJECT_HEADER_LEN.
  rewrite decide_False by len_lia.
  rewrite take_app_length', drop_app_length' by (by rewrite length_vec_to_list).
  cbn [chunk_len]. by rewrite decide_False, decide_False by auto.
Qed.

(** The index record of a chunk has its length and its exact reference count. *)
Lemma chunk_entry_sim id w a :
  represents w a →
  wp (chunk_entry id) (λ o w', same w w' ∧ match o with
    | Done e => e = (λ blob, {| chunk_len := len blob; refcount := occ id (a_refs a) |}) <$>
        a_chunks a !! id
    | Failed e => e = IndexE ∧ may_fail w
    | Crashed => may_crash w
    end) w.
Proof.
  intros Hr. unfold chunk_entry. apply wp_in_read; [|by auto..].
  intros w1 Hs1. rewrite (rep_chunks _ _ (rep_db _ _ Hr) id). split; [done|].
  destruct (a_chunks a !! id) as [blob|] eqn:Hid; [|done]. cbn [fmap option_fmap option_map].
  pose proof (ok_blob _ (rep_ok _ _ Hr) _ _ Hid) as Hlen.
  pose proof (occ_nonneg id (a_refs a)). pose proof (occ_len id (a_refs a)).
  pose proof (ok_refs _ (rep_ok _ _ Hr)).
  by rewrite decode_entry_wire by (done || int_lia).
Qed.

(** Unlinking the object of a chunk that the store no longer holds. *)
Lemma wp_unlink_object id (Q : outcome StoreError unit → World → Prop) w a :
  represents w a → a_chunks a !! id = None →
  (∀ w', later w w' → represents w' a → Q (Done ()) w') →
  (∀ w', may_fail w → later w w' → represents w' a → Q (Failed StoreIo) w') →
  (∀ w', may_crash w → later w w' → represents w' a → Q Crashed w') →
  wp (unlink_object id) Q w.
Proof.
  intros Hr Hn HQ Hf Hc.
  assert (Hn' : ∀ w', near (object_path id) w w' → later w w' ∧ represents w' a).
  { intros w' [D W L F]. split; [done|]. eapply represents_files; [done|done|done|].
    intros p _ Hp. by apply F. }
  apply wp_bind, wp_remove_file; [|split].
  - intros b w' Hw' _. apply wp_ret. by apply HQ; apply Hn'.
  - intros w' Hm Hw'. by apply Hf; [|apply Hn'..].
  - intros w' Hm Hw'. by apply Hc; [|apply Hn'..].
Qed.

(** Deleting a chunk happens only when no snapshot references it; an error or a
    stop after the commit leaves the chunk deleted, at worst with its file. *)
Lemma delete_chunk_sim id w a :
  represents w a →
  wp (delete_chunk id) (λ o w', later w w' ∧ match o with
    | Done _ => is_Some (a_chunks a !! id) ∧ occ id (a_refs a) = 0 ∧
        represents w' (a_delete_chunk id a)
    | Failed e =>
        (represents w' a ∧ (e = IndexE ∧ may_fail w ∨
          e = ChunkNotFound id ∧ a_chunks a !! id = None ∨
          e = StillReferenced id (occ id (a_refs a)) ∧ id ∈ a_refs a)) ∨
        (represents w' (a_delete_chunk id a) ∧ occ id (a_refs a) = 0 ∧ e = StoreIo ∧ may_fail w)
    | Crashed => may_crash w ∧ (represents w' a ∨
        (occ id (a_refs a) = 0 ∧ represents w' (a_delete_chunk id a)))
    end) w.
Proof.
  intros Hr. unfold delete_chunk. apply wp_bind, wp_transaction.
  2:{ intros w' Hm Hs. split; [apply Hs|]. left. split; [by eapply represents_same|]. auto. }
  2:{ intros w' Hm Hs. split; [apply Hs|]. split; [done|]. left. by eapply represents_same. }
  pose proof (delete_chunk_txn_spec id (disk w) a (rep_db _ _ Hr) (rep_ok _ _ Hr)) as Ht.
  destruct (delete_chunk_txn id (disk w)) as [[[]|e] db].
  2:{ intros w' Hs. split; [apply Hs|]. left. split; [by eapply represents_same|].
      destruct Ht as [[? ->]|(_ & Hp & ->)]; [auto|]. right; right. split; [done|]. by apply occ_pos. }
  destruct Ht as (Hin & Ho & Hd).
  assert (Hrep : ∀ w', files w' = files w → disk w' = db → represents w' (a_delete_chunk id a)).
  { intros w' Hf' Hd'. eapply represents_disk; [done..|by rewrite Hd'|by apply a_ok_delete_chunk; [apply Hr|]|].
    cbn. intros id' blob [_ ?]%lookup_delete_Some. done. }
  split.
  - intros w1 Hf1 Hd1 Hl1. eapply wp_unlink_object; [by apply Hrep|apply lookup_delete_eq|..].
    + intros w2 Hl2 Hr2. split; [by etrans|]. done.
    + intros w2 Hm Hl2 Hr2. split; [by etrans|]. right. split_and!; eauto using may_fail_later.
    + intros w2 Hm Hl2 Hr2. split; [by etrans|]. split; eauto using may_crash_later.
  - intros w1 Hm Hf1 Hd1 Hl1. split; [done|]. split; [done|]. right. split; [done|]. by apply Hrep.
Qed.

(** ** Snapshots *)

(** Storing a snapshot is atomic: it happens whole, when the identity is new and
    every reference names a stored chunk, or not at all; the error names the
    reason, and the first missing chunk. *)
Lemma put_snapshot_as_sim snapshot blob refs owner w a :
  represents w a → len refs + len (a_refs a) ≤ u64_max →
  let key := Ulid_to_bytes snapshot in
  let a' := a_put_snapshot key {| s_blob := blob; s_refs := refs; s_owner := owner |} a in
  let allowed := a_snaps a !! key = None ∧ Forall (λ id, is_Some (a_chunks a !! id)) refs in
  wp (put_snapshot_as snapshot blob refs owner) (λ o w', later w w' ∧ match o with
    | Done _ => allowed ∧ represents w' a'
    | Failed e => represents w' a ∧ (e = IndexE ∧ may_fail w ∨
        e = SnapshotExists snapshot ∧ is_Some (a_snaps a !! key) ∨
        a_snaps a !! key = None ∧ ∃ pre c post, refs = pre ++ c :: post ∧
          Forall (λ id, is_Some (a_chunks a !! id)) pre ∧ a_chunks a !! c = None ∧
          e = UnknownChunkRef snapshot c)
    | Crashed => may_crash w ∧ (represents w' a ∨ allowed ∧ represents w' a')
    end) w.
Proof.
  intros Hr Hlen key a' allowed. apply wp_transaction.
  2:{ intros w' Hm Hs. split; [apply Hs|]. split; [by eapply represents_same|]. auto. }
  2:{ intros w' Hm Hs. split; [apply Hs|]. split; [done|]. left. by eapply represents_same. }
  pose proof (put_snapshot_txn_spec snapshot blob refs owner (disk w) a
    (rep_db _ _ Hr) (rep_ok _ _ Hr) Hlen) as Ht.
  destruct (put_snapshot_txn snapshot blob refs owner (disk w)) as [[[]|e] db].
  2:{ intros w' Hs. split; [apply Hs|]. split; [by eapply represents_same|].
      destruct Ht as [[? ->]|?]; auto. }
  destruct Ht as (Hk & Hall & Hd).
  assert (Hrep : ∀ w', files w' = files w → disk w' = db → represents w' a').
  { intros w' Hf' Hd'. eapply represents_disk; [done..|by rewrite Hd'| |done].
    apply a_ok_put_snapshot; [apply Hr|done..]. }
  split.
  - intros w' Hf' Hd' Hl'. split; [done|]. split; [done|by apply Hrep].
  - intros w' Hm Hf' Hd' Hl'. split; [done|]. split; [done|]. right. split; [done|by apply Hrep].
Qed.

(** Deleting a snapshot drops exactly the references it had taken. *)
Lemma delete_snapshot_sim snapshot w a :
  represents w a →
  let key := Ulid_to_bytes snapshot in
  wp (delete_snapshot snapshot) (λ o w', later w w' ∧ match o with
    | Done _ => is_Some (a_snaps a !! key) ∧ represents w' (a_delete_snapshot key a)
    | Failed e => represents w' a ∧ (e = IndexE ∧ may_fail w ∨
        e = SnapshotNotFound snapshot ∧ a_snaps a !! key = None)
    | Crashed => may_crash w ∧ (represents w' a ∨ represents w' (a_delete_snapshot key a))
    end) w.
Proof.
  intros Hr key. apply wp_transaction.
  2:{ intros w' Hm Hs. split; [apply Hs|]. split; [by eapply represents_same|]. auto. }
  2:{ intros w' Hm Hs. split; [apply Hs|]. split; [done|]. left. by eapply represents_same. }
  pose proof (delete_snapshot_txn_spec snapshot (disk w) a (rep_db _ _ Hr) (rep_ok _ _ Hr)) as Ht.
  destruct (delete_snapshot_txn snapshot (disk w)) as [[[]|e] db].
  2:{ intros w' Hs. destruct Ht as [? ->]. split; [apply Hs|].
      split; [by eapply represents_same|]. auto. }
  destruct Ht as (Hk & Hd).
  assert (Hrep : ∀ w', files w' = files w → disk w' = db → represents w' (a_delete_snapshot key a)).
  { intros w' Hf' Hd'. eapply represents_disk; [done..|by rewrite Hd'| |done].
    apply a_ok_delete_snapshot, Hr. }
  split.
  - intros w' Hf' Hd' Hl'. split; [done|]. split; [done|by apply Hrep].
  - intros w' Hm Hf' Hd' Hl'. split; [done|]. split; [done|]. right. by apply Hrep.
Qed.
End represents.

(** ** Starting up after a crash *)

Section recovery.
Context {Redb : RedbPkg Table} {RedbL : RedbLaws Table} `{UlidPkg, Blake3Pkg}.

(** A crash loses nothing that the store holds: its objects are synced. *)
Lemma represents_reboot keep w a : represents w a → represents (reboot keep w) a.
Proof.
  intros [Hd Hb Hok]. split; [done| |done]. intros id blob Hid. cbn.
  by rewrite map_lookup_imap, (Hb _ _ Hid).
Qed.

Definition is_tmp (p : FPath) : Prop := TMP_PREFIX `prefix_of` p.2.
#[global] Instance is_tmp_dec p : Decision (is_tmp p).
Proof. unfold is_tmp. apply _. Defined.

Lemma object_not_tmp id : ¬ is_tmp (object_path id).
Proof.
  intros [rest E]. destruct (object_path id) as [shard name] eqn:Ep. cbn in E; subst name.
  by apply (object_ne_tmp shard rest id).
Qed.

(** Only temporary files differ. *)
Definition swept (w w' : World) : Prop :=
  disk w' = disk w ∧ later w w' ∧
  (∀ p, ¬ is_tmp p → files w' !! p = files w !! p) ∧
  (∀ p, files w !! p = None → files w' !! p = None).

#[global] Instance swept_preorder : PreOrder swept.
Proof.
  split; [by intros w; split_and!|]. intros w1 w2 w3 (D1&L1&F1&N1) (D2&L2&F2&N2).
  split_and!; [congruence|by etrans| |auto]. intros p Hp. by rewrite F2, F1.
Qed.

Lemma represents_swept w w' a : swept w w' → represents w a → represents w' a.
Proof.
  intros (D & _ & F & _) [Hd Hb Hok]. split; [by rewrite D| |done].
  intros id blob Hid. rewrite F by apply object_not_tmp. eauto.
Qed.

Lemma same_swept w w' : same w w' → swept w w'.
Proof. intros (Hf & Hd & Hl). split_and!; [done|done|intros; by rewrite Hf|intros; by rewrite Hf]. Qed.

Lemma delete_swept w w' p :
  same w w' → is_tmp p → swept w (set_files (delete p (files w')) w').
Proof.
  intros (Hf & Hd & Hl) Ht. split_and!; [done..| |]; cbn; rewrite Hf.
  - intros q Hq. rewrite lookup_delete_ne; [done|]. by intros ->.
  - intros q Hq. apply lookup_delete_None. auto.
Qed.

(** One entry of the sweep: the temporary files still there are among those to
    come, or in a shard to come. *)
Lemma sweep_entry_sim (R : FPath → Prop) u p l w :
  (∀ q, is_tmp q → is_Some (files w !! q) → q ∈ p :: l ∨ R q) →
  wp (sweep_entry u p) (λ o w', swept w w' ∧ match o with
    | Done _ => ∀ q, is_tmp q → is_Some (files w' !! q) → q ∈ l ∨ R q
    | Failed e => e = StoreIo ∧ may_fail w
    | Crashed => may_crash w
    end) w.
Proof.
  intros Hin. unfold sweep_entry. case_bool_decide as Ht.
  - unfold remove_file. apply wp_bind, wp_step; cbn.
    + intros w5 Hs _. split; [by apply delete_swept|]. cbn. intros q Hq Hsome.
      destruct Hs as (Hf & _). rewrite Hf in Hsome.
      destruct (decide (q = p)) as [->|Hne]; [by rewrite lookup_delete_eq in Hsome; destruct Hsome|].
      rewrite lookup_delete_ne in Hsome by done.
      destruct (Hin q Hq Hsome) as [[?|?]%elem_of_cons|?]; [done|by left|by right].
    + intros n w5 Hm Hs _. split; [by apply same_swept|done].
    + intros [|n] w5 Hm Hs _; (split; [|done]); [by apply same_swept|by apply delete_swept].
  - apply wp_ret. split; [done|]. intros q Hq Hsome.
    destruct (Hin q Hq Hsome) as [[->|?]%elem_of_cons|?]; [done|by left|by right].
Qed.

(** Faults of the sweep, later in its course. *)
Definition sweep_post (P : World → Prop) (w : World) (o : outcome StoreError unit) (w' : World) :=
  swept w w' ∧ match o with
    | Done _ => P w'
    | Failed e => (e = StoreIo ∨ e = IndexE) ∧ may_fail w
    | Crashed => may_crash w
    end.

Lemma sweep_post_later P w w1 o w' : swept w w1 → sweep_post P w1 o w' → sweep_post P w o w'.
Proof.
  intros Hs [Hs' Ho]. split; [by etrans|]. destruct Hs as (_ & Hl & _).
  destruct o; naive_solver eauto using may_fail_later, may_crash_later.
Qed.

Lemma sweep_shard_sim u shard l w :
  (∀ q, is_tmp q → is_Some (files w !! q) → q.1 ∈ shard :: l) →
  wp (sweep_shard u shard)
    (sweep_post (λ w', ∀ q, is_tmp q → is_Some (files w' !! q) → q.1 ∈ l) w) w.
Proof.
  intros Hin. unfold sweep_shard. apply wp_bind, wp_step_pure.
  2: intros w' Hm Hs; split; [by apply same_swept|split; [by left|done]].
  2: intros w' Hm Hs; split; [by apply same_swept|done].
  intros w1 Hs1 Hl1. pose proof (same_swept _ _ Hs1) as Hsw.
  apply (wp_foldM _ _ (λ _ es w', swept w w' ∧
    ∀ q, is_tmp q → is_Some (files w' !! q) → q ∈ es ∨ q.1 ∈ l)).
  - split; [done|]. intros q Hq [f Hq']. destruct Hs1 as (Hf & _).
    pose proof (Hin q Hq) as Hin'. rewrite <- Hf, Hq' in Hin'.
    apply elem_of_cons in Hin' as [Eq|?]; [left|by right|by eexists].
    apply list_elem_of_filter. split; [done|].
    apply list_elem_of_fmap. exists (q, f). split; [done|]. by apply elem_of_map_to_list.
  - intros u' p es w4 [Hs4 Hin4]. eapply wp_mono; [by apply (sweep_entry_sim (λ q, q.1 ∈ l))|].
    intros [u''|e|] w5 [Hs5 Ho]; [split; [by etrans|done]| |].
    + apply (sweep_post_later _ w w4); [done|]. split; [done|]. destruct Ho. by split; [left|].
    + by apply (sweep_post_later _ w w4).
  - intros u' w4 [Hs4 Hin4]. split; [done|]. intros q Hq Hsome.
    by destruct (Hin4 q Hq Hsome) as [?%elem_of_nil|].
Qed.

(** Opening a store after a crash keeps what it represents; once it succeeds,
    no temporary file is left. *)
Lemma Store_open_sim w :
  wp Store_open (sweep_post (λ w', ∀ p, is_tmp p → files w' !! p = None) w) w.
Proof.
  set (Q := sweep_post _ w).
  assert (HF : ∀ w1 w2 e, (e = StoreIo ∨ e = IndexE) → swept w w1 → may_fail w1 → same w1 w2 →
    Q (Failed e) w2).
  { intros w1 w2 e He H1 Hm H2. apply (sweep_post_later _ w w1); [done|].
    split; [by apply same_swept|done]. }
  assert (HC : ∀ w1 w2, swept w w1 → may_crash w1 → same w1 w2 → Q Crashed w2).
  { intros w1 w2 H1 Hm H2. apply (sweep_post_later _ w w1); [done|].
    split; [by apply same_swept|done]. }
  unfold Store_open. apply wp_bind, wp_step_pure.
  2: intros w' Hm Hs; by eapply HF; [left| | |].
  2: intros w' Hm Hs; by eapply HC.
  intros w1 Hs1%same_swept _. apply wp_bind, wp_step_pure.
  2: intros w' Hm Hs; by eapply HF; [right|apply Hs1| |].
  2: intros w' Hm Hs; by eapply HC; [apply Hs1| |].
  intros w2 Hs2%same_swept _. assert (Hw2 : swept w w2) by by etrans.
  apply wp_bind, wp_transaction.
  2: intros w' Hm Hs; by eapply HF; [right|apply Hw2| |].
  2: intros w' Hm Hs; by eapply HC; [apply Hw2| |].
  cbn. split; [|intros w3 Hm Hf Hd Hl; by eapply HC; [apply Hw2| |]].
  intros w3 Hf3 Hd3 Hl3. assert (Hw3 : swept w w3) by (etrans; [done|by apply same_swept]).
  unfold sweep_tmp_files. apply wp_bind, wp_step_pure.
  2: intros w' Hm Hs; by eapply HF; [left|apply Hw3| |].
  2: intros w' Hm Hs; by eapply HC; [apply Hw3| |].
  intros w4 Hs4 _. assert (Hw4 : swept w w4) by (etrans; [done|by apply same_swept]).
  apply (wp_foldM _ Q (λ _ l w', swept w w' ∧ ∀ p, is_tmp p → is_Some (files w' !! p) → p.1 ∈ l)).
  - split; [done|]. intros p _ [f Hp]. apply elem_of_remove_dups.
    rewrite <- list_fmap_compose. apply list_elem_of_fmap. exists (p, f).
    split; [done|]. by apply elem_of_map_to_list.
  - intros u shard l w5 [Hs5 Hin]. eapply wp_mono; [by apply sweep_shard_sim|].
    intros [u'|e|] w6 Ho; apply (sweep_post_later _ w w5) in Ho; done.
  - intros u w5 [Hs5 Hin]. split; [done|]. intros p Ht.
    destruct (files w5 !! p) eqn:E; [|done]. exfalso.
    assert (p.1 ∈ []) as ?%elem_of_nil; [|done]. apply Hin; [done|by eexists].
Qed.
End recovery.

(** ** Garbage collection *)

Section gc.
Context {Redb : RedbPkg Table} {RedbL : RedbLaws Table} `{UlidPkg, Blake3Pkg, HashOrderLaws}.

Lemma a_gc_chunks now_ms grace_ms a id blob :
  a_chunks (a_gc now_ms grace_ms a) !! id = Some blob →
  a_chunks a !! id = Some blob ∧ ¬ expired now_ms grace_ms a id.
Proof. intros [? ?]%map_lookup_filter_Some. done. Qed.

Lemma a_gc_expired now_ms grace_ms a id :
  expired now_ms grace_ms a id → a_chunks (a_gc now_ms grace_ms a) !! id = None.
Proof. intros He. apply map_lookup_filter_None. right. by intros x _ Hn. Qed.

(** The index phase: the whole collection, or nothing. *)
Lemma gc_index_sim now_ms grace_ms w a :
  represents w a → in_i64 now_ms →
  let a' := a_gc now_ms grace_ms a in
  wp (gc_index now_ms grace_ms) (λ o w', later w w' ∧ match o with
    | Done (dels, pending) => represents w' a' ∧ NoDup dels.*1 ∧
        (∀ id l, (id, l) ∈ dels ↔ expired now_ms grace_ms a id ∧
          ∃ blob, a_chunks a !! id = Some blob ∧ l = len blob) ∧
        pending = Z.of_nat (base.size (a_marks a'))
    | Failed e => e = IndexE ∧ may_fail w ∧ represents w' a
    | Crashed => may_crash w ∧ (represents w' a ∨ represents w' a')
    end) w.
Proof.
  intros Hr Hnow a'. apply wp_transaction.
  2:{ intros w' Hm Hs. split; [apply Hs|]. split_and!; [done..|by eapply represents_same]. }
  2:{ intros w' Hm Hs. split; [apply Hs|]. split; [done|]. left. by eapply represents_same. }
  destruct (gc_txn_spec now_ms grace_ms (disk w) a (rep_db _ _ Hr) (rep_ok _ _ Hr))
    as (pending & -> & Hp).
  assert (Hrep : ∀ w' : World, files w' = files w →
    disk w' = gc_db now_ms grace_ms (disk w) → represents w' a').
  { intros w' Hf' Hd'. eapply represents_disk; [done..| | |].
    - rewrite Hd'. apply gc_db_rep; apply Hr.
    - apply a_ok_gc; [apply Hr|done].
    - intros id blob ?%a_gc_chunks. naive_solver. }
  split.
  - intros w' Hf Hd Hl. split; [done|]. split_and!; [by apply Hrep| | |done].
    + eapply gc_dels_NoDup.
    + intros id l. by apply gc_dels; apply Hr.
  - intros w' Hm Hf Hd Hl. split; [done|]. split; [done|]. right. by apply Hrep.
Qed.

(** Lengths added up as the unlinking loop does. *)
Definition total_len (l : list (ChunkId * Z)) : Z := foldl (λ t r, u64_add t r.2) 0 l.

(** [gc] reclaims exactly the expired chunks, whatever the iteration order of
    its hash maps, and counts the others that await their grace period.  The
    index changes all at once, before any file is touched: an error or a stop
    during the unlinking leaves the collection done. *)
Lemma gc_sim now_ms grace w a :
  represents w a → in_i64 now_ms →
  let grace_ms := default i64_max (i64_try_from (Duration_as_millis grace)) in
  let a' := a_gc now_ms grace_ms a in
  wp (gc now_ms grace) (λ o w', later w w' ∧ match o with
    | Done r => represents w' a' ∧ NoDup (reclaimed r) ∧
        (∀ id, id ∈ reclaimed r ↔ expired now_ms grace_ms a id) ∧
        bytes_reclaimed r = foldl (λ t id, u64_add t (len (default [] (a_chunks a !! id)))) 0
          (reclaimed r) ∧
        pending r = Z.of_nat (base.size (a_marks a'))
    | Failed e => may_fail w ∧ (e = IndexE ∧ represents w' a ∨ e = StoreIo ∧ represents w' a')
    | Crashed => may_crash w ∧ (represents w' a ∨ represents w' a')
    end) w.
Proof.
  intros Hr Hnow grace_ms a'. unfold gc. fold grace_ms. apply wp_bind.
  eapply wp_mono; [by apply gc_index_sim|]. fold a'.
  intros [[dels pend]|e|] w1 [Hl1 Ho].
  2:{ destruct Ho as (-> & Hm & Hr1). split; [done|]. split; [done|]. by left. }
  2:{ done. }
  destruct Ho as (Hr1 & Hnd & Hdels & Hpend). apply wp_bind.
  assert (Hids : ∀ id, id ∈ dels.*1 ↔ expired now_ms grace_ms a id).
  { intros id. rewrite list_elem_of_fmap. split.
    - by intros ([id' l] & -> & [He _]%Hdels).
    - intros He. destruct (proj1 (proj2 He)) as [blob Hb]. exists (id, len blob).
      split; [done|]. apply Hdels. eauto. }
  assert (Hlen : ∀ l t, l ⊆ dels → foldl (λ t r, u64_add t r.2) t l =
    foldl (λ t id, u64_add t (len (default [] (a_chunks a !! id)))) t l.*1).
  { intros l. induction l as [|[id n] l IH]; intros t Hsub; [done|]. cbn.
    rewrite IH by set_solver. do 2 f_equal.
    destruct (proj1 (Hdels id n)) as (_ & blob & -> & ->); [set_solver|done]. }
  apply (wp_foldM gc_unlink _ (λ acc l w', later w w' ∧ represents w' a' ∧
    ∃ done, dels = done ++ l ∧ acc = (done.*1, total_len done))).
  - split_and!; [done..|]. by exists [].
  - intros [ids t] [id n] l w2 (Hl2 & Hr2 & dn & Hd & Hacc). apply wp_bind.
    assert (a_chunks a' !! id = None) as Hnone.
    { apply a_gc_expired, Hids. rewrite Hd, fmap_app. set_solver. }
    eapply wp_unlink_object; [done|done|..].
    + intros w3 Hl3 Hr3. apply wp_ret. split_and!; [by etrans|done|].
      exists (dn ++ [(id, n)]). rewrite <- app_assoc. split; [done|].
      injection Hacc as -> ->. cbn. unfold total_len. by rewrite fmap_app, foldl_snoc.
    + intros w3 Hm Hl3 Hr3. split; [by etrans|]. split; [by eauto using may_fail_later|]. by right.
    + intros w3 Hm Hl3 Hr3. split; [by etrans|]. split; [by eauto using may_crash_later|]. by right.
  - intros [ids t] w2 (Hl2 & Hr2 & dn & Hd & Hacc). apply wp_ret. rewrite app_nil_r in Hd. subst dn.
    injection Hacc as -> ->. cbn [reclaimed bytes_reclaimed pending].
    split_and!; [done|done|done|done|by apply Hlen|done].
Qed.
End gc.

(** ** Listing, pruning, status *)

Section listing.
Context {Redb : RedbPkg Table} {RedbL : RedbLaws Table} `{UlidLaws, Blake3Pkg}.

(** The snapshots that a listing shows. *)
Definition lists (a : AStore) (l : list Ulid) : Prop :=
  StronglySorted bytes_le (snapshot_key <$> l) ∧ NoDup l ∧
  ∀ u, u ∈ l ↔ is_Some (a_snaps a !! Ulid_to_bytes u).

Lemma omap_keys {X} (P : bytes → option X) (Q : X → bytes) (l : list (bytes * bytes)) :
  (∀ k v, (k, v) ∈ l → ∃ x, P k = Some x ∧ Q x = k) →
  Q <$> omap (λ '(k, _), P k) l = l.*1.
Proof.
  induction l as [|[k v] l IH]; intros Hp; [done|]. cbn.
  destruct (Hp k v) as (x & Hx & Hq); [by left|]. rewrite Hx. cbn. rewrite Hq. f_equal.
  apply IH. intros k' v' Hin. apply (Hp k' v'). by right.
Qed.

Lemma list_snapshots_keys (db : Db) a : db_rep db a →
  snapshot_key <$> omap (λ '(k, _), Ulid_from_bytes <$> array_of_list 16 k) (items db SNAPSHOTS) =
    (items db SNAPSHOTS).*1.
Proof.
  intros Hr. apply (omap_keys (λ k, Ulid_from_bytes <$> array_of_list 16 k)).
  intros k v Hin%elem_of_items. pose proof (rep_snap_key _ _ Hr _ _ Hin) as Hl.
  destruct (array_of_list_length 16 k Hl) as [b Hb]. rewrite Hb. eexists; split; [done|].
  unfold snapshot_key. rewrite Ulid_to_from. by apply array_of_list_Some.
Qed.

Lemma snapshot_key_inj u u' : snapshot_key u = snapshot_key u' → u = u'.
Proof. intros E%vec_to_list_inj2. by rewrite <- (Ulid_from_to u), E, Ulid_from_to. Qed.

(** Listing shows every snapshot once, in ascending order. *)
Lemma list_snapshots_sim w a :
  represents w a →
  wp list_snapshots (λ o w', same w w' ∧ match o with
    | Done l => lists a l
    | Failed e => e = IndexE ∧ may_fail w
    | Crashed => may_crash w
    end) w.
Proof.
  intros Hr. apply wp_in_read; [|by auto..]. intros w' Hs. split; [done|].
  pose proof (list_snapshots_keys _ _ (rep_db _ _ Hr)) as Hk.
  set (l := omap _ _) in *. split_and!.
  - rewrite Hk. apply items_sorted.
  - apply (NoDup_fmap_1 snapshot_key). rewrite Hk. apply items_keys_NoDup.
  - intros u. transitivity (snapshot_key u ∈ (items (disk w) SNAPSHOTS).*1).
    + rewrite <- Hk, list_elem_of_fmap. split; [by eauto|].
      intros (u' & ->%snapshot_key_inj & Hu). done.
    + rewrite list_elem_of_fmap. unfold snapshot_key. split.
      * intros ([k v] & Ek & Hin%elem_of_items). cbn in Ek; subst.
        rewrite (rep_snaps _ _ (rep_db _ _ Hr)) in Hin.
        destruct (a_snaps a !! Ulid_to_bytes u); [by eexists|done].
      * intros [s Hsn]. exists (vec_to_list (Ulid_to_bytes u), s_blob s). split; [done|].
        apply elem_of_items. by rewrite (rep_snaps _ _ (rep_db _ _ Hr)), Hsn.
Qed.

Lemma get_manifest_blob_sim snapshot w a :
  represents w a →
  wp (get_manifest_blob snapshot) (λ o w', same w w' ∧ match o with
    | Done blob => ∃ s, a_snaps a !! Ulid_to_bytes snapshot = Some s ∧ blob = s_blob s
    | Failed e => (e = SnapshotNotFound snapshot ∧ a_snaps a !! Ulid_to_bytes snapshot = None) ∨
        (e = IndexE ∧ may_fail w)
    | Crashed => may_crash w
    end) w.
Proof.
  intros Hr. apply wp_in_read; [|by auto..]. intros w' Hs.
  unfold snapshot_key. rewrite (rep_snaps _ _ (rep_db _ _ Hr)).
  destruct (a_snaps a !! Ulid_to_bytes snapshot) as [s|]; cbn; split; eauto.
Qed.

(** The status records are no part of what the store represents. *)
Lemma db_rep_meta db a k v : db_rep db a → db_rep (<[(STATUS_META, k) := v]> db) a.
Proof.
  intros [R1 R2 R3 R4 R5 R6 R7 R8]. split.
  - intros id. read_table. apply R1.
  - intros k' v'. read_table. eauto.
  - intros key. read_table. apply R3.
  - intros k' v'. read_table. eauto.
  - intros key. read_table. apply R5.
  - intros key. read_table. apply R6.
  - intros id. read_table. apply R7.
  - intros k' v'. read_table. eauto.
Qed.

Lemma represents_meta w w' k v a :
  represents w a → files w' = files w → disk w' = <[(STATUS_META, k) := v]> (disk w) →
  represents w' a.
Proof. intros Hr Hf Hd. eapply represents_disk; [done..| |apply Hr|done]. rewrite Hd. apply db_rep_meta, Hr. Qed.

Definition delete_all (us : list Ulid) (a : AStore) : AStore :=
  foldl (λ a u, a_delete_snapshot (Ulid_to_bytes u) a) a us.

Lemma a_delete_absent key a : a_snaps a !! key = None → a_delete_snapshot key a = a.
Proof. intros Hn. unfold a_delete_snapshot. rewrite delete_id by done. by destruct a. Qed.

Lemma prune_one_sim u w a :
  represents w a →
  wp (prune_one () u) (λ o w', later w w' ∧ match o with
    | Done _ => represents w' (a_delete_snapshot (Ulid_to_bytes u) a)
    | Failed e => e = IndexE ∧ may_fail w ∧ represents w' a
    | Crashed => may_crash w ∧ (represents w' a ∨
        represents w' (a_delete_snapshot (Ulid_to_bytes u) a))
    end) w.
Proof.
  intros Hr. apply wp_catch. eapply wp_mono; [by apply delete_snapshot_sim|].
  intros [[]|e|] w' [Hl Ho]; [by destruct Ho| |done].
  destruct Ho as [Hr' [[-> Hm]|[-> Hn]]]; [by apply wp_fail|].
  apply wp_ret. split; [done|]. by rewrite a_delete_absent.
Qed.

(** Pruning deletes, one transaction after the other, the snapshots that the
    retention plan for the listed ones drops.  Interrupted, it has deleted some
    first part of them. *)
Definition prune_result (now_ms : Z) (policy : RetentionPolicy) (a : AStore) (p : Plan Ulid) : Prop :=
  ∃ l, lists a l ∧ plan now_ms ((λ u, (ulid_time_ms u, u)) <$> l) policy = Some p.

Lemma prune_sim now_ms policy mode w a :
  represents w a →
  wp (prune now_ms policy mode) (λ o w', later w w' ∧ match o with
    | Done r => ∃ p, prune_result now_ms policy a p ∧
        r = {| kept := keep p; pruned := dropped p; prune_mode := mode |} ∧
        represents w' (delete_all (dropped p) a)
    | Failed _ | Crashed => (may_fail w ∨ may_crash w) ∧ (represents w' a ∨
        ∃ p us rest, prune_result now_ms policy a p ∧ dropped p = us ++ rest ∧
          represents w' (delete_all us a))
    end) w.
Proof.
  intros Hr. unfold prune. apply wp_bind.
  eapply wp_mono; [by apply list_snapshots_sim|]. intros [l|e|] w1 [Hs1 Ho].
  2:{ split; [apply Hs1|]. split; [left; apply Ho|]. left. by eapply represents_same. }
  2:{ split; [apply Hs1|]. split; [by right|]. left. by eapply represents_same. }
  rewrite plan_spec. cbv zeta. set (p := Build_Plan _ _).
  assert (Hp : prune_result now_ms policy a p) by (exists l; split; [done|apply plan_spec]).
  apply wp_bind, (wp_foldM prune_one _ (λ _ rest w', later w w' ∧
    ∃ us, dropped p = us ++ rest ∧ represents w' (delete_all us a))).
  - split; [apply Hs1|]. exists []. split; [done|]. by eapply represents_same.
  - intros [] u rest w2 (Hl2 & us & Hd & Hr2). eapply wp_mono; [by apply prune_one_sim|].
    assert (Hsnoc : delete_all (us ++ [u]) a = a_delete_snapshot (Ulid_to_bytes u) (delete_all us a))
      by (unfold delete_all; by rewrite foldl_snoc).
    assert (Hd' : dropped p = (us ++ [u]) ++ rest) by by rewrite <- app_assoc.
    intros [[]|e|] w3 [Hl3 Ho3]; cbn.
    + split; [by etrans|]. exists (us ++ [u]). by rewrite Hsnoc.
    + destruct Ho3 as (-> & Hm & Hr3). split; [by etrans|].
      split; [left; by eauto using may_fail_later|]. right. by exists p, us, (u :: rest).
    + destruct Ho3 as (Hm & Hr3). split; [by etrans|].
      split; [right; by eauto using may_crash_later|]. right.
      destruct Hr3 as [Hr3|Hr3]; [by exists p, us, (u :: rest)|].
      exists p, (us ++ [u]), rest. by rewrite Hsnoc.
  - intros [] w2 (Hl2 & us & Hd & Hr2). rewrite app_nil_r in Hd. subst us.
    assert (Hpart : ∀ w3, represents w3 (delete_all (dropped p) a) → represents w3 a ∨
      ∃ p us rest, prune_result now_ms policy a p ∧ dropped p = us ++ rest ∧
        represents w3 (delete_all us a)).
    { intros w3 Hr3. right. exists p, (dropped p), []. by rewrite app_nil_r. }
    unfold record_prune. apply wp_bind, wp_transaction; cbn.
    + split.
      * intros w3 Hf3 Hd3 Hl3. split; [by etrans|]. exists p. split_and!; [done..|].
        by eapply represents_meta.
      * intros w3 Hm Hf3 Hd3 Hl3. split; [by etrans|].
        split; [right; by eauto using may_crash_later|]. apply Hpart. by eapply represents_meta.
    + intros w3 Hm Hs3. split; [etrans; [done|apply Hs3]|].
      split; [left; by eauto using may_fail_later|]. apply Hpart. by eapply represents_same.
    + intros w3 Hm Hs3. split; [etrans; [done|apply Hs3]|].
      split; [right; by eauto using may_crash_later|]. apply Hpart. by eapply represents_same.
Qed.

End listing.
