(* ===== verification/StoreTheorems.v ===== *)
(** * What holds of the chunk store

    The invariant over all histories of operations, faults, crashes and
    restarts; the functional behaviour of each operation; and the limits:
    closed executions in which the grace period and the unlinking phase of the
    garbage collection do not give what their comments promise. *)

From S2P Require Import Prelude External Text Index Chunking Manifest Retention.
From S2P Require Import StoreIO Store StoreLogic StoreSpec StoreRefine StoreOps.

(** ** Histories *)

Section histories.
Context {Redb : RedbPkg Table} {RedbL : RedbLaws Table} `{UlidLaws, Blake3Pkg, HashOrderLaws}.

(** The operations that write. *)
Inductive Op :=
  | OpOpen
  | OpPutChunk (ulid : bytes) (id : ChunkId) (data : bytes)
  | OpPutSnapshot (snapshot : Ulid) (blob : bytes) (refs : list ChunkId) (owner : option bytes)
  | OpDeleteSnapshot (snapshot : Ulid)
  | OpDeleteChunk (id : ChunkId)
  | OpPrune (now_ms : Z) (policy : RetentionPolicy) (mode : PruneMode)
  | OpGc (now_ms : Z) (grace : Duration).

Definition run (op : Op) : M StoreError unit :=
  match op with
  | OpOpen => Store_open
  | OpPutChunk ulid id data => put_chunk ulid id data;; mret ()
  | OpPutSnapshot snapshot blob refs owner => put_snapshot_as snapshot blob refs owner
  | OpDeleteSnapshot snapshot => delete_snapshot snapshot
  | OpDeleteChunk id => delete_chunk id
  | OpPrune now_ms policy mode => prune now_ms policy mode;; mret ()
  | OpGc now_ms grace => gc now_ms grace;; mret ()
  end.

(** What the machine and the callers guarantee: sizes and counts fit in 64
    bits, times in an [i64], and an upload meets no stale file that it would
    fail to replace. *)
Definition allowed (op : Op) (w : World) : Prop :=
  match op with
  | OpPutChunk _ id data => len data ≤ u64_max ∧ put_safe id data w
  | OpPutSnapshot _ _ refs _ => ∀ a, represents w a → len refs + len (a_refs a) ≤ u64_max
  | OpGc now_ms _ => in_i64 now_ms
  | _ => True
  end.

(** One operation under some fault schedule; if the machine stops, it is
    started again, with whatever the unsynced files still hold. *)
Inductive history_step : World → World → Prop :=
  | step_ends op fl w o w' :
      allowed op (set_faults fl w) → run op (set_faults fl w) = (o, w') → o ≠ Crashed →
      history_step w w'
  | step_stops op fl w w' keep :
      allowed op (set_faults fl w) → run op (set_faults fl w) = (Crashed, w') →
      history_step w (reboot keep w').

(** A new store. *)
Definition fresh : World := {| files := ∅; disk := ∅; work := ∅; faults := [] |}.
Definition reachable (w : World) : Prop := rtc history_step fresh w.

Lemma fresh_represents : represents fresh a_empty.
Proof.
  split; [|by intros id blob|apply a_ok_empty].
  split; cbn [fresh disk a_empty a_chunks a_snaps a_marks]; try intros id; intros;
    rewrite ?db_lookup_empty, ?lookup_empty in *; done.
Qed.

Lemma delete_all_ok us a : a_ok a → a_ok (delete_all us a).
Proof.
  revert a; induction us as [|u us IH]; intros a Ha; [done|].
  by apply IH, a_ok_delete_snapshot.
Qed.

(** A sequel that only drops the result keeps any outcome-independent claim. *)
Lemma wp_drop {A} (m : M StoreError A) (P : World → Prop) w :
  wp m (λ _ w', P w') w → wp (m;; mret ()) (λ _ w', P w') w.
Proof. intros H'. apply wp_bind. eapply wp_mono; [exact H'|]. by intros []. Qed.

Lemma run_represents op w a :
  represents w a → allowed op w → wp (run op) (λ _ w', ∃ a', represents w' a') w.
Proof.
  intros Hr Ha. destruct op; cbn [run allowed] in *; try apply wp_drop.
  - eapply wp_mono; [apply Store_open_sim|]. intros o w' [Hs _]. exists a. by eapply represents_swept.
  - destruct Ha. eapply wp_mono; [by apply put_chunk_sim|].
    intros [b|e|] w' [_ Ho]; [destruct Ho; eauto|naive_solver|naive_solver].
  - eapply wp_mono; [apply put_snapshot_as_sim; eauto|].
    intros [b|e|] w' [_ Ho]; naive_solver.
  - eapply wp_mono; [by apply delete_snapshot_sim|]. intros [b|e|] w' [_ Ho]; naive_solver.
  - eapply wp_mono; [by apply delete_chunk_sim|]. intros [b|e|] w' [_ Ho]; naive_solver.
  - eapply wp_mono; [by apply prune_sim|]. intros [r|e|] w' [_ Ho].
    + destruct Ho as (p & _ & _ & Hr'). eauto.
    + destruct Ho as [_ [Hr'|(p & us & rest & _ & _ & Hr')]]; eauto.
    + destruct Ho as [_ [Hr'|(p & us & rest & _ & _ & Hr')]]; eauto.
  - eapply wp_mono; [by apply gc_sim|]. intros [b|e|] w' [_ Ho]; naive_solver.
Qed.

Lemma history_represents w w' : history_step w w' → (∃ a, represents w a) → ∃ a, represents w' a.
Proof.
  intros Hstep [a Hr].
  assert (Hr' : ∀ fl, represents (set_faults fl w) a) by (intros fl; by destruct Hr).
  destruct Hstep as [op fl w o w' Ha Hrun _|op fl w w' keep Ha Hrun].
  - pose proof (run_represents op _ a (Hr' fl) Ha) as Hwp. unfold wp in Hwp. by rewrite Hrun in Hwp.
  - pose proof (run_represents op _ a (Hr' fl) Ha) as Hwp. unfold wp in Hwp. rewrite Hrun in Hwp.
    destruct Hwp as [a' Hwp]. exists a'. by apply represents_reboot.
Qed.

Lemma reachable_represents w : reachable w → ∃ a, represents w a.
Proof.
  unfold reachable. intros Hrtc. assert (∃ a, represents fresh a) as Hf by eauto using fresh_represents.
  induction Hrtc as [|w1 w2 w3 Hstep _ IH]; [done|]. apply IH. by eapply history_represents.
Qed.


End histories.

(** ** Single operations *)

Section operations.
Context {Redb : RedbPkg Table} {RedbL : RedbLaws Table} `{UlidLaws, Blake3Pkg, HashOrderLaws}.
Implicit Types (w : World) (a : AStore).

(** A chunk that was uploaded reads back byte for byte; uploading under the same
    identity again answers [false] and keeps the first bytes. *)
Theorem put_get_chunk ulid ulid' id data data' w a :
  represents w a → faults w = [] → a_chunks a !! id = None →
  len data ≤ u64_max → len data' ≤ u64_max →
  let '(o1, w1) := put_chunk ulid id data w in
  let '(o2, w2) := get_chunk id w1 in
  let '(o3, w3) := put_chunk ulid' id data' w2 in
  let '(o4, _) := get_chunk id w3 in
  o1 = Done true ∧ o2 = Done data ∧ o3 = Done false ∧ o4 = Done data.
Proof.
  intros Hr Hfl Hn Hlen Hlen'.
  assert (Hno : ∀ w', later w w' → ¬ may_fail w' ∧ ¬ may_crash w').
  { intros w' Hl. assert (∀ f, f ∉ faults w') as Hf.
    { intros f Hin%Hl. rewrite Hfl in Hin. by apply elem_of_nil in Hin. }
    split; intros [n Hin]; by apply Hf in Hin. }
  assert (Hput : a_put_chunk id data a = (true, set_chunks (<[id := data]> (a_chunks a)) a))
    by (unfold a_put_chunk; by rewrite Hn).
  destruct (Hno w) as [Hf Hc]; [done|].
  pose proof (put_chunk_sim ulid id data w a Hr Hlen (or_intror Hf)) as H1'. unfold wp in H1'.
  destruct (put_chunk ulid id data w) as [[b|e|] w1]; [|naive_solver..].
  destruct H1' as (Hl1 & -> & Hr1). rewrite Hput in *. cbn [fst snd] in *.
  destruct (Hno w1 Hl1) as [Hf1 Hc1].
  set (a1 := set_chunks _ a) in *.
  assert (Hid : a_chunks a1 !! id = Some data) by apply lookup_insert_eq.
  pose proof (get_chunk_sim id w1 a1 Hr1) as H2'. unfold wp in H2'.
  destruct (get_chunk id w1) as [[d|e|] w2]; [|naive_solver..].
  destruct H2' as (Hs2 & Hd). assert (Hr2 : represents w2 a1) by by eapply represents_same.
  assert (Hl2 : later w w2) by (etrans; [done|apply Hs2]).
  destruct (Hno w2 Hl2) as [Hf2 Hc2].
  pose proof (put_chunk_sim ulid' id data' w2 a1 Hr2 Hlen' (or_intror Hf2)) as H3'. unfold wp in H3'.
  destruct (put_chunk ulid' id data' w2) as [[b3|e|] w3]; [|naive_solver..].
  destruct H3' as (Hl3 & -> & Hr3). unfold a_put_chunk in *. rewrite Hid in *. cbn [fst snd] in *.
  destruct (Hno w3) as [Hf3 Hc3]; [by etrans|].
  pose proof (get_chunk_sim id w3 a1 Hr3) as H4'. unfold wp in H4'.
  destruct (get_chunk id w3) as [[d4|e|] w4]; [|naive_solver..].
  naive_solver.
Qed.

(** The reference count that the index shows. *)
Definition refcount_of (w : World) (id : ChunkId) : option Z :=
  (λ v, refcount (decode_entry v)) <$> disk w !! (CHUNKS, vec_to_list id).

Lemma refcount_of_rep w a id : represents w a →
  refcount_of w id = (λ _, occ id (a_refs a)) <$> a_chunks a !! id.
Proof.
  intros Hr. unfold refcount_of. rewrite (rep_chunks _ _ (rep_db _ _ Hr)).
  destruct (a_chunks a !! id) as [blob|] eqn:Hb; [|done]. cbn [fmap option_fmap option_map].
  pose proof (ok_blob _ (rep_ok _ _ Hr) _ _ Hb). pose proof (occ_nonneg id (a_refs a)).
  pose proof (occ_len id (a_refs a)). pose proof (ok_refs _ (rep_ok _ _ Hr)).
  by rewrite decode_entry_wire by (done || int_lia).
Qed.

(** C2. Storing a snapshot either counts every occurrence in [refs] of every chunk
    and records the manifest, or changes no count at all; it is refused exactly
    when the identity is taken or a chunk is missing. *)
Theorem put_snapshot_atomic snapshot blob refs owner w a :
  represents w a → len refs + len (a_refs a) ≤ u64_max →
  let key := Ulid_to_bytes snapshot in
  let a' := a_put_snapshot key {| s_blob := blob; s_refs := refs; s_owner := owner |} a in
  let allowed := a_snaps a !! key = None ∧ Forall (λ id, is_Some (a_chunks a !! id)) refs in
  let counted w' := ∀ id, refcount_of w' id = (λ n, n + occ id refs) <$> refcount_of w id in
  let unchanged w' := ∀ id, refcount_of w' id = refcount_of w id in
  let '(o, w') := put_snapshot_as snapshot blob refs owner w in
  match o with
  | Done _ => allowed ∧ represents w' a' ∧ counted w'
  | Failed e => represents w' a ∧ unchanged w' ∧
      (e = IndexE ∧ may_fail w ∨ e = SnapshotExists snapshot ∧ is_Some (a_snaps a !! key) ∨
       ∃ c, c ∈ refs ∧ a_chunks a !! c = None ∧ e = UnknownChunkRef snapshot c)
  | Crashed => may_crash w ∧
      (represents w' a ∧ unchanged w' ∨ allowed ∧ represents w' a' ∧ counted w')
  end.
Proof.
  intros Hr Hlen key a' allowed counted unchanged.
  assert (Hcnt : ∀ w', a_snaps a !! key = None → represents w' a' → counted w').
  { intros w' Hk Hr' id. rewrite (refcount_of_rep w' a'), (refcount_of_rep w a) by done.
    unfold a_refs; cbn. rewrite <- option_fmap_compose. destruct (a_chunks a !! id); [|done]. cbn.
    rewrite (refs_insert _ _ _ Hk), occ_app. cbn [s_refs]. f_equal. lia. }
  assert (Hsame : ∀ w', represents w' a → unchanged w').
  { intros w' Hr' id. by rewrite !(refcount_of_rep _ a). }
  pose proof (put_snapshot_as_sim snapshot blob refs owner w a Hr Hlen) as Hwp. unfold wp in Hwp.
  destruct (put_snapshot_as snapshot blob refs owner w) as [[u|e|] w']; destruct Hwp as [_ Ho].
  - destruct Ho as [[Hk Hall] Hr']. split; [done|]. split; [done|by apply Hcnt].
  - destruct Ho as [Hr' Hwhy]. split_and!; [done|by apply Hsame|].
    destruct Hwhy as [?|[[-> ?]|(_ & pre & c & post & -> & _ & Hc & ->)]]; [by auto|by auto|].
    right; right. exists c. split_and!; [set_solver|done..].
  - destruct Ho as [Hm [Hr'|[[Hk Hall] Hr']]]; (split; [done|]); [left|right].
    + split; [done|by apply Hsame].
    + split; [done|]. split; [done|by apply Hcnt].
Qed.

(** Deleting a snapshot undoes storing it: the store is as before, counts
    included. *)
Theorem put_delete_snapshot snapshot blob refs owner w a :
  represents w a → len refs + len (a_refs a) ≤ u64_max → faults w = [] →
  a_snaps a !! Ulid_to_bytes snapshot = None →
  Forall (λ id, is_Some (a_chunks a !! id)) refs →
  let '(o1, w1) := put_snapshot_as snapshot blob refs owner w in
  let '(o2, w2) := delete_snapshot snapshot w1 in
  o1 = Done () ∧ o2 = Done () ∧ represents w2 a ∧ ∀ id, refcount_of w2 id = refcount_of w id.
Proof.
  intros Hr Hlen Hfl Hk Hall.
  assert (Hno : ∀ w', later w w' → ¬ may_fail w' ∧ ¬ may_crash w').
  { intros w' Hl. split; intros [n Hin%Hl]; rewrite Hfl in Hin; by apply elem_of_nil in Hin. }
  destruct (Hno w) as [Hf Hc]; [done|]. rewrite Forall_forall in Hall.
  pose proof (put_snapshot_as_sim snapshot blob refs owner w a Hr Hlen) as H1'. unfold wp in H1'.
  destruct (put_snapshot_as snapshot blob refs owner w) as [[[]|e|] w1]; destruct H1' as [Hl1 Ho1].
  2:{ destruct Ho1 as (_ & [[_ ?]|[[_ [? Hs]]|(_ & pre & c & post & -> & _ & Hn & _)]]);
        [done|congruence|]. destruct (Hall c) as [? ?]; [set_solver|congruence]. }
  2:{ by destruct Ho1. }
  destruct Ho1 as [_ Hr1]. set (a1 := a_put_snapshot _ _ a) in *.
  assert (Hback : a_delete_snapshot (Ulid_to_bytes snapshot) a1 = a).
  { unfold a1, a_delete_snapshot, a_put_snapshot, set_snaps; cbn. rewrite delete_insert_id by done.
    by destruct a. }
  destruct (Hno w1 Hl1) as [Hf1 Hc1].
  pose proof (delete_snapshot_sim snapshot w1 a1 Hr1) as H2'. unfold wp in H2'.
  destruct (delete_snapshot snapshot w1) as [[[]|e|] w2]; destruct H2' as [Hl2 Ho2].
  2:{ destruct Ho2 as (_ & [[_ ?]|[_ Hn]]); [done|]. unfold a1 in Hn; cbn in Hn.
      by rewrite lookup_insert_eq in Hn. }
  2:{ by destruct Ho2. }
  destruct Ho2 as [_ Hr2]. rewrite Hback in Hr2. split_and!; [done..|].
  intros id. by rewrite !(refcount_of_rep _ a).
Qed.


(** The snapshots that a prune leaves are those it kept. *)
Lemma delete_all_snaps us a u : is_Some (a_snaps (delete_all us a) !! Ulid_to_bytes u) ↔
  is_Some (a_snaps a !! Ulid_to_bytes u) ∧ u ∉ us.
Proof.
  revert a; induction us as [|v us IH]; intros a.
  - split; [intros ?; split; [done|apply not_elem_of_nil]|by intros [? _]].
  - change (delete_all (v :: us) a) with (delete_all us (a_delete_snapshot (Ulid_to_bytes v) a)).
    rewrite IH, not_elem_of_cons. cbn. destruct (decide (u = v)) as [->|Hne].
    + rewrite lookup_delete_eq. split; [by intros [[? ?] _]|naive_solver].
    + rewrite lookup_delete_ne; [naive_solver|]. intros E. apply Hne.
      by rewrite <- (Ulid_from_to u), <- E, Ulid_from_to.
Qed.

Lemma pruned_snaps now_ms policy a p u : prune_result now_ms policy a p →
  is_Some (a_snaps (delete_all (dropped p) a) !! Ulid_to_bytes u) ↔ u ∈ keep p.
Proof.
  intros (l & Hl & Hp).
  rewrite delete_all_snaps. destruct Hl as (_ & Hnd & Hin). rewrite <- Hin.
  rewrite plan_spec in Hp. injection Hp as <-. cbn [keep dropped].
  set (its := (λ u, (ulid_time_ms u, u)) <$> l).
  assert (Hu : ∀ u, u ∈ l ↔ u ∈ (enumerate its).*2.*2).
  { intros v. rewrite enumerate_snd. unfold its. by rewrite <- list_fmap_compose, list_fmap_id. }
  assert (Hnd' : NoDup (enumerate its).*2.*2).
  { rewrite enumerate_snd. unfold its. by rewrite <- list_fmap_compose, list_fmap_id. }
  rewrite Hu. rewrite <- (filter_app_complement (survives now_ms policy (enumerate its))) in Hnd'.
  rewrite <- (filter_app_complement (survives now_ms policy (enumerate its)) (enumerate its)) at 1.
  rewrite !fmap_app, elem_of_app in *. apply NoDup_app in Hnd' as (_ & Hd & _). naive_solver.
Qed.

(** Pruning keeps and drops exactly what the retention plan says of the listed
    snapshots, and the snapshots that remain are those that were kept. *)
Theorem prune_follows_plan now_ms policy mode w a :
  represents w a → faults w = [] →
  let '(o, w') := prune now_ms policy mode w in
  ∃ l p, lists a l ∧ plan now_ms ((λ u, (ulid_time_ms u, u)) <$> l) policy = Some p ∧
    o = Done {| kept := keep p; pruned := dropped p; prune_mode := mode |} ∧
    represents w' (delete_all (dropped p) a) ∧
    ∀ u, is_Some (a_snaps (delete_all (dropped p) a) !! Ulid_to_bytes u) ↔ u ∈ keep p.
Proof.
  intros Hr Hfl. pose proof (prune_sim now_ms policy mode w a Hr) as Hwp. unfold wp in Hwp.
  assert (¬ may_fail w ∧ ¬ may_crash w) as [Hf Hc].
  { split; intros [n Hin]; rewrite Hfl in Hin; by apply elem_of_nil in Hin. }
  destruct (prune now_ms policy mode w) as [[r|e|] w']; destruct Hwp as [_ Ho]; [|naive_solver..].
  destruct Ho as (p & Hres & -> & Hr'). pose proof (λ u, pruned_snaps _ _ _ _ u Hres) as Hk.
  destruct Hres as (l & Hl & Hp). exists l, p. by split_and!.
Qed.

(** C29. A crash at any point followed by opening the store again: what it holds is
    as before the restart, the sweep touches temporary files only, and once it
    ends none is left. *)
Theorem crash_recovery keep w a :
  represents w a →
  let '(o, w') := Store_open (reboot keep w) in
  o = Done () ∧ represents w' a ∧ (∀ p, is_tmp p → files w' !! p = None) ∧
  (∀ id f, files w !! object_path id = Some f → synced f = true →
    files w' !! object_path id = Some f).
Proof.
  intros Hr. pose proof (Store_open_sim (reboot keep w)) as Hwp. unfold wp in Hwp.
  assert (¬ may_fail (reboot keep w) ∧ ¬ may_crash (reboot keep w)) as [Hf Hc].
  { split; intros [n Hin]; by apply elem_of_nil in Hin. }
  destruct (Store_open (reboot keep w)) as [[[]|e|] w']; destruct Hwp as [Hs Ho]; [|naive_solver..].
  split_and!; [done| |done|].
  - eapply represents_swept; [done|by apply represents_reboot].
  - intros id f Hfile Hsync. destruct Hs as (_ & _ & F & _). rewrite F by apply object_not_tmp.
    cbn. by rewrite map_lookup_imap, Hfile; cbn; rewrite Hsync.
Qed.

(** *** Status *)

Lemma items_chunks (db : Db) a : db_rep db a →
  items db CHUNKS ≡ₚ (λ kv, (vec_to_list kv.1, wire kv.2 (occ kv.1 (a_refs a)))) <$>
    map_to_list (a_chunks a).
Proof.
  intros Hr. apply NoDup_Permutation.
  - apply (NoDup_fmap_1 fst), items_keys_NoDup.
  - apply NoDup_fmap_2_strong; [|apply NoDup_map_to_list].
    intros [k v] [k' v'] Hx Hy [= E%vec_to_list_inj2 _]. cbn in E. subst k'.
    apply elem_of_map_to_list in Hx, Hy. congruence.
  - intros [k v]. rewrite elem_of_items, list_elem_of_fmap. split.
    + intros Hv. destruct (array_of_list_length 32 k (rep_chunk_key _ _ Hr _ _ Hv)) as [id Hid].
      apply array_of_list_Some in Hid as <-. rewrite (rep_chunks _ _ Hr) in Hv.
      apply fmap_Some in Hv as (blob & Hb & ->). exists (id, blob).
      split; [done|]. by apply elem_of_map_to_list.
    + intros ([id blob] & [= -> ->] & Hb%elem_of_map_to_list). cbn.
      by rewrite (rep_chunks _ _ Hr), Hb.
Qed.

Lemma items_snaps (db : Db) a : db_rep db a →
  items db SNAPSHOTS ≡ₚ (λ kv, (vec_to_list kv.1, s_blob kv.2)) <$> map_to_list (a_snaps a).
Proof.
  intros Hr. apply NoDup_Permutation.
  - apply (NoDup_fmap_1 fst), items_keys_NoDup.
  - apply NoDup_fmap_2_strong; [|apply NoDup_map_to_list].
    intros [k v] [k' v'] Hx Hy [= E%vec_to_list_inj2 _]. cbn in E. subst k'.
    apply elem_of_map_to_list in Hx, Hy. congruence.
  - intros [k v]. rewrite elem_of_items, list_elem_of_fmap. split.
    + intros Hv. destruct (array_of_list_length 16 k (rep_snap_key _ _ Hr _ _ Hv)) as [key Hid].
      apply array_of_list_Some in Hid as <-. rewrite (rep_snaps _ _ Hr) in Hv.
      apply fmap_Some in Hv as (sn & Hb & ->). exists (key, sn).
      split; [done|]. by apply elem_of_map_to_list.
    + intros ([key sn] & [= -> ->] & Hb%elem_of_map_to_list). cbn.
      by rewrite (rep_snaps _ _ Hr), Hb.
Qed.

(** Sums in a [u64] accumulator. *)
Definition sum_by {X} (f : X → Z) (l : list X) : Z := foldr (λ x t, f x + t) 0 l.

Lemma sum_by_perm {X} (f : X → Z) l k : l ≡ₚ k → sum_by f l = sum_by f k.
Proof. unfold sum_by. induction 1; cbn; lia. Qed.

Lemma sum_by_fmap {X Y} (g : X → Y) (f : Y → Z) l : sum_by f (g <$> l) = sum_by (λ x, f (g x)) l.
Proof. unfold sum_by. induction l as [|x l IH]; [done|]. cbn. f_equal. apply IH. Qed.

Lemma sum_by_ext {X} (f g : X → Z) l : (∀ x, x ∈ l → f x = g x) → sum_by f l = sum_by g l.
Proof.
  unfold sum_by. induction l as [|x l IH]; intros Hfg; [done|]. cbn [foldr].
  rewrite (Hfg x) by left. f_equal. apply IH. intros y Hy. apply Hfg. by right.
Qed.

Lemma count_snapshots_loop (db : Db) l n m :
  let r := foldl (count_snapshot db) (n mod 2 ^ 64, m) l in
  r.1 = (n + len l) mod 2 ^ 64 ∧
  ∀ owner, (∀ o, 0 ≤ default 0 (m !! o) < 2 ^ 64) →
    default 0 (r.2 !! owner) = (default 0 (m !! owner) +
      sum_by (λ kv, if decide (default [] (db !! (SNAPSHOT_OWNER, kv.1)) = owner) then 1 else 0) l)
      mod 2 ^ 64.
Proof.
  revert n m; induction l as [|[k v] l IH]; intros n m; cbn [foldl].
  - cbn. split; [by rewrite Z.add_0_r|]. intros owner Hm. rewrite Z.add_0_r.
    symmetry. apply Z.mod_small, Hm.
  - unfold count_snapshot at 2 4, u64_add at 1 3. cbn [fst snd].
    rewrite Zplus_mod_idemp_l. set (o := default [] _). set (m' := <[o := _]> m).
    destruct (IH (n + 1) m') as [IH1 IH2]. split.
    + rewrite IH1. f_equal. unfold len; cbn [length]. lia.
    + intros owner Hm. rewrite IH2; clear IH1 IH2.
      * cbn [sum_by foldr fst]. fold o. unfold m'. destruct (decide (o = owner)) as [<-|Hne].
        -- rewrite lookup_insert_eq. cbn [default from_option id]. unfold u64_add.
           rewrite Zplus_mod_idemp_l. f_equal. unfold sum_by. lia.
        -- rewrite lookup_insert_ne by done. f_equal.
      * intros o'. unfold m'. destruct (decide (o = o')) as [<-|Hne].
        -- rewrite lookup_insert_eq. cbn. unfold u64_add. apply Z.mod_pos_bound. lia.
        -- rewrite lookup_insert_ne by done. apply Hm.
Qed.

Lemma count_chunks_loop l n t z :
  foldl count_chunk (n mod 2 ^ 64, t mod 2 ^ 64, z mod 2 ^ 64) l =
    ((n + len l) mod 2 ^ 64,
     (t + sum_by (λ kv, chunk_len (decode_entry kv.2)) l) mod 2 ^ 64,
     (z + sum_by (λ kv, if decide (refcount (decode_entry kv.2) = 0) then 1 else 0) l) mod 2 ^ 64).
Proof.
  revert n t z; induction l as [|[k v] l IH]; intros n t z; cbn [foldl].
  - cbn. by rewrite !Z.add_0_r.
  - unfold count_chunk at 2, u64_add. cbn [snd]. rewrite !Zplus_mod_idemp_l.
    replace (if decide (refcount (decode_entry v) = 0) then (z + 1) mod 2 ^ 64 else z mod 2 ^ 64)
      with ((z + if decide (refcount (decode_entry v) = 0) then 1 else 0) mod 2 ^ 64)
      by (case_decide; [done|by rewrite Z.add_0_r]).
    rewrite IH. cbn [sum_by foldr snd]. unfold len; cbn [length].
    f_equal; [f_equal|]; f_equal; unfold sum_by; lia.
Qed.

(** The stored index records, decoded, and the recorded owners are those of
    the abstract state. *)
Lemma sum_chunks (w : World) a f g : represents w a →
  (∀ id blob, a_chunks a !! id = Some blob →
     f {| chunk_len := len blob; refcount := occ id (a_refs a) |} = g (id, blob)) →
  sum_by (λ kv : bytes * bytes, f (decode_entry kv.2)) (items (disk w) CHUNKS) =
    sum_by g (map_to_list (a_chunks a)).
Proof.
  intros Hr Hfg. rewrite (sum_by_perm _ _ _ (items_chunks _ _ (rep_db _ _ Hr))), sum_by_fmap.
  apply sum_by_ext. intros [id blob] Hb%elem_of_map_to_list. cbn [fst snd].
  pose proof (ok_blob _ (rep_ok _ _ Hr) _ _ Hb). pose proof (occ_nonneg id (a_refs a)).
  pose proof (occ_len id (a_refs a)). pose proof (ok_refs _ (rep_ok _ _ Hr)).
  rewrite decode_entry_wire by (done || int_lia). by apply Hfg.
Qed.

Lemma sum_owners (w : World) a (owner : bytes) : represents w a →
  sum_by (λ kv : bytes * bytes,
      if decide (default [] (disk w !! (SNAPSHOT_OWNER, kv.1)) = owner) then 1 else 0)
    (items (disk w) SNAPSHOTS) =
  sum_by (λ kv, if decide (default [] (s_owner kv.2) = owner) then 1 else 0)
    (map_to_list (a_snaps a)).
Proof.
  intros Hr. rewrite (sum_by_perm _ _ _ (items_snaps _ _ (rep_db _ _ Hr))), sum_by_fmap.
  apply sum_by_ext. intros [key sn] Hs%elem_of_map_to_list. cbn [fst snd].
  by rewrite (rep_owner _ _ (rep_db _ _ Hr)), Hs.
Qed.

(** The status report counts what the store holds: snapshots, in all and per
    owner, distinct chunks, their stored bytes and those that no snapshot
    references (each in a wrapping [u64]). *)
Theorem status_counts w a :
  represents w a → faults w = [] →
  ∃ st, (status w).1 = Done st ∧
    snapshots_total st = Z.of_nat (base.size (a_snaps a)) mod 2 ^ 64 ∧
    chunks_unique st = Z.of_nat (base.size (a_chunks a)) mod 2 ^ 64 ∧
    store_bytes st = sum_by (λ kv, len kv.2) (map_to_list (a_chunks a)) mod 2 ^ 64 ∧
    zero_ref st = sum_by (λ kv, if decide (occ kv.1 (a_refs a) = 0) then 1 else 0)
      (map_to_list (a_chunks a)) mod 2 ^ 64 ∧
    ∀ owner, default 0 (snapshots_by_client st !! owner) =
      sum_by (λ kv, if decide (default [] (s_owner kv.2) = owner) then 1 else 0)
        (map_to_list (a_snaps a)) mod 2 ^ 64.
Proof.
  intros Hr Hfl. unfold status, in_read, mbind, M_bind, step. rewrite Hfl.
  cbn [head set_faults disk].
  destruct (count_snapshots_loop (disk w) (items (disk w) SNAPSHOTS) 0 ∅) as [Hn Ho].
  change (0 mod 2 ^ 64) with 0 in *.
  destruct (foldl (count_snapshot (disk w)) (0, ∅) _) as [n by_client]; cbn [fst snd] in *.
  pose proof (count_chunks_loop (items (disk w) CHUNKS) 0 0 0) as Hc.
  change (0 mod 2 ^ 64) with 0 in Hc. rewrite Hc, !Z.add_0_l. eexists; split; [done|].
  cbn [snapshots_total chunks_unique store_bytes zero_ref snapshots_by_client].
  split_and!.
  - rewrite Hn, Z.add_0_l, (len_perm _ _ (items_snaps _ _ (rep_db _ _ Hr))).
    unfold len. by rewrite length_fmap, length_map_to_list.
  - rewrite (len_perm _ _ (items_chunks _ _ (rep_db _ _ Hr))).
    unfold len. by rewrite length_fmap, length_map_to_list.
  - f_equal. apply (sum_chunks w a chunk_len (λ kv, len kv.2) Hr). done.
  - f_equal. set (f := λ e : IndexEntry, if decide (refcount e = 0) then 1 else 0).
    apply (sum_chunks w a f _ Hr). done.
  - intros owner. rewrite Ho by (intros o; by rewrite lookup_empty).
    rewrite lookup_empty, (sum_owners w a owner Hr). done.
Qed.
End operations.

(** ** Closed examples

    The store evaluated with the reference packages of [External.Reference]. *)

Module Examples.
Import Reference.

#[export] Instance hash_order : HashOrder := {| hash_iter V m := map_to_list m |}.
#[export] Instance hash_order_laws : HashOrderLaws.
Proof. by intros V m. Qed.

Definition c0 : ChunkId := blake3_hash (str "abc").
Definition s0 : Ulid := vreplicate 16 x01.
Definition data0 : bytes := str "abc".

(** A store with one unreferenced chunk. *)
Definition one_chunk : World := (put_chunk (str "t0") c0 data0 fresh).2.
Definition a_one_chunk : AStore := (a_put_chunk c0 data0 a_empty).2.

Lemma one_chunk_represents : represents one_chunk a_one_chunk.
Proof.
  assert ((put_chunk (str "t0") c0 data0 fresh).1 = Done true) as E by (vm_compute; reflexivity).
  pose proof (put_chunk_sim (str "t0") c0 data0 fresh a_empty fresh_represents) as Hwp.
  unfold wp in Hwp. rewrite E in Hwp. apply Hwp; [done|]. left. intros f. cbn [files fresh]. by rewrite lookup_empty.
Qed.

(** An upload that the machine interrupts inside the second write, and the
    restart: the temporary file keeps five bytes. *)
Definition interrupted : World := reboot (λ _, 5%nat)
  (put_chunk (str "t1") c0 data0 (set_faults (replicate 5 NoFault ++ [CrashAt 1]) fresh)).2.

Lemma interrupted_reachable : reachable interrupted.
Proof.
  apply rtc_once.
  apply (step_stops (OpPutChunk (str "t1") c0 data0) (replicate 5 NoFault ++ [CrashAt 1])).
  - split; [done|]. left. intros f. change (files _) with (∅ : gmap FPath File). by rewrite lookup_empty.
  - compute_eq.
Qed.

Example interrupted_leftover :
  map_to_list (files interrupted) =
    [((str "03", str ".tmp-t1"), {| content := take 5 (vec_to_list (blake3_hash data0)); synced := true |})].
Proof. compute_eq. Qed.



Lemma put_get_chunk_witness :
  let '(o1, w1) := put_chunk (str "t0") c0 data0 fresh in
  let '(o2, w2) := get_chunk c0 w1 in
  let '(o3, w3) := put_chunk (str "t1") c0 (str "other") w2 in
  let '(o4, _) := get_chunk c0 w3 in
  o1 = Done true ∧ o2 = Done data0 ∧ o3 = Done false ∧ o4 = Done data0.
Proof.
  apply (put_get_chunk (str "t0") (str "t1") c0 data0 (str "other") fresh a_empty).
  - exact fresh_represents.
  - reflexivity.
  - reflexivity.
  - vm_compute; discriminate.
  - vm_compute; discriminate.
Defined.

Lemma put_snapshot_atomic_witness :
  let '(o, w') := put_snapshot_as s0 (str "m") [c0; c0] None one_chunk in
  o = Done () ∧ refcount_of w' c0 = Some 2.
Proof.
  pose proof (put_snapshot_atomic s0 (str "m") [c0; c0] None one_chunk a_one_chunk
    one_chunk_represents) as Hs.
  assert ((put_snapshot_as s0 (str "m") [c0; c0] None one_chunk).1 = Done ()) as E
    by (vm_compute; reflexivity).
  destruct (put_snapshot_as s0 (str "m") [c0; c0] None one_chunk) as [o w']. cbn [fst] in E. subst o.
  destruct Hs as (_ & _ & Hs); [vm_compute; discriminate|].
  split; [done|]. rewrite Hs. vm_compute. reflexivity.
Defined.

Lemma put_delete_snapshot_witness :
  let '(o1, w1) := put_snapshot_as s0 (str "m") [c0; c0] None one_chunk in
  let '(o2, w2) := delete_snapshot s0 w1 in
  o1 = Done () ∧ o2 = Done () ∧ represents w2 a_one_chunk ∧
  ∀ id, refcount_of w2 id = refcount_of one_chunk id.
Proof.
  apply (put_delete_snapshot s0 (str "m") [c0; c0] None one_chunk a_one_chunk).
  - exact one_chunk_represents.
  - vm_compute; discriminate.
  - vm_compute; reflexivity.
  - vm_compute; reflexivity.
  - repeat constructor; vm_compute; eexists; reflexivity.
Defined.

(** The chunk is marked at 100 and reclaimed at 1100, the grace being 1 s. *)
Definition marked : World := (gc 100 (Duration_from_secs 1) one_chunk).2.


Example marked_chunk_reclaimed :
  (gc 1100 (Duration_from_secs 1) marked).1 =
    Done {| reclaimed := [c0]; bytes_reclaimed := 3; pending := 0 |}.
Proof. vm_compute. reflexivity. Qed.

Lemma prune_follows_plan_witness :
  let '(o, w') := prune 5 default_grid Manual one_chunk in
  ∃ l p, lists a_one_chunk l ∧ plan 5 ((λ u, (ulid_time_ms u, u)) <$> l) default_grid = Some p ∧
    o = Done {| kept := keep p; pruned := dropped p; prune_mode := Manual |} ∧
    represents w' (delete_all (dropped p) a_one_chunk) ∧
    ∀ u, is_Some (a_snaps (delete_all (dropped p) a_one_chunk) !! Ulid_to_bytes u) ↔ u ∈ keep p.
Proof.
  apply (prune_follows_plan 5 default_grid Manual one_chunk a_one_chunk one_chunk_represents).
  vm_compute; reflexivity.
Defined.

Lemma crash_recovery_witness :
  let '(o, w') := Store_open (reboot (λ _, O) one_chunk) in
  o = Done () ∧ represents w' a_one_chunk ∧ (∀ p, is_tmp p → files w' !! p = None) ∧
  (∀ id f, files one_chunk !! object_path id = Some f → synced f = true →
    files w' !! object_path id = Some f).
Proof. exact (crash_recovery (λ _, O) one_chunk a_one_chunk one_chunk_represents). Defined.

Lemma status_counts_witness :
  ∃ st, (status one_chunk).1 = Done st ∧ snapshots_total st = 0 ∧ chunks_unique st = 1 ∧
    store_bytes st = 3 ∧ zero_ref st = 1.
Proof.
  destruct (status_counts one_chunk a_one_chunk one_chunk_represents) as
    (st & Hst & H1 & H2 & H3 & H4 & _); [vm_compute; reflexivity|].
  exists st. split; [exact Hst|]. rewrite H1, H2, H3, H4. vm_compute. repeat split.
Defined.
End Examples.

(** ** Limits

    Closed executions where the grace period and the order of unlinking do not
    give what the comments of [store.rs] say.  [marked] holds one unreferenced
    chunk, marked at 100; the grace is one second. *)

Module Limits.
Import Reference Examples.

(** A chunk deleted from the index whose unlinking failed; the next upload's
    rename is going to fail. *)
Definition orphaned : World :=
  set_faults (replicate 7 NoFault ++ [FailAt 0])
    (delete_chunk c0 (set_faults (replicate 3 NoFault ++ [FailAt 0]) one_chunk)).2.

(** The upload of a chunk that is already there does not restart its timer:
    it is reclaimed at once, and the snapshot that counted on it is refused. *)
Theorem reupload_keeps_the_mark :
  ((uploaded ← put_chunk (str "t1") c0 data0;
    out ← gc 1100 (Duration_from_secs 1);
    catch (put_snapshot_as s0 (str "m") [c0] None;; mret (uploaded, reclaimed out, None))
      (λ e, mret (uploaded, reclaimed out, Some e))) marked).1 =
  Done (false, [c0], Some (UnknownChunkRef s0 c0)).
Proof. vm_compute. reflexivity. Qed.

(** A reference that comes and goes between two runs leaves the mark: the chunk
    is reclaimed although it has just lost its last reference. *)
Theorem mark_survives_a_reference :
  ((put_snapshot_as s0 (str "m") [c0] None;; delete_snapshot s0;;
    out ← gc 1100 (Duration_from_secs 1); mret (reclaimed out)) marked).1 = Done [c0].
Proof. vm_compute. reflexivity. Qed.

(** An upload between the commit of a collection and its unlinking: the
    index entry remains and its object file is gone. *)
Theorem unlink_races_with_upload :
  (('(reclaimed, _) ← gc_index 1100 1000;
    uploaded ← put_chunk (str "t1") c0 data0;
    foldM gc_unlink ([], 0) reclaimed;;
    catch (get_chunk c0;; mret (uploaded, None)) (λ e, mret (uploaded, Some e))) marked).1 =
  Done (true, Some (Integrity (MissingBlob c0))).
Proof. vm_compute. reflexivity. Qed.

(** An orphan that an unlinking error left, then an upload of other bytes
    under the same identity whose rename fails: the upload is reported stored,
    and the chunk cannot be read. *)
Theorem failed_rename_keeps_other_bytes :
  ((uploaded ← put_chunk (str "t1") c0 (str "other");
    catch (get_chunk c0;; mret (uploaded, None)) (λ e, mret (uploaded, Some e))) orphaned).1 =
  Done (true, Some (Integrity (LengthMismatch c0 5 3))).
Proof. vm_compute. reflexivity. Qed.
End Limits.
