(* ===== verification/AtomicFile.v ===== *)
(** * Writing files whole ([write_atomic] of [identity.rs] and [enroll.rs])

    The daemon's identity directory and the client's state directory are written
    through the same helper: the bytes go to a temporary sibling, are synced, and
    a rename puts them in place.  Its programs are over the files of [StoreIO],
    for any error type; with them, what holds of any program that changes files
    only this way. *)

From S2P Require Import Prelude External Text StoreIO StoreLogic.

Definition tmp_path (path : FPath) : FPath := (path.1, str ".tmp-" ++ path.2).

Section programs.
Context {Redb : RedbPkg Table} {E : Type}.

(** A pure step of a program. *)
Definition lift {A} (r : result E A) : M E A :=
  match r with Ok a => mret a | Err e => fail e end.

(** [m.map_err(f)] on what a caller's error type embeds. *)
Definition with_error {F A} (f : E → F) (m : M E A) : M F A := λ w,
  match m w with
  | (Done a, w) => (Done a, w)
  | (Failed e, w) => (Failed (f e), w)
  | (Crashed, w) => (Crashed, w)
  end.

(** The [Result] of a call as a value. *)
Definition outcome_of {F A} (m : M E A) : M F (result E A) := λ w,
  match m w with
  | (Done a, w) => (Done (Ok a), w)
  | (Failed e, w) => (Done (Err e), w)
  | (Crashed, w) => (Crashed, w)
  end.

(** [err] is the error that the caller wraps an [io::Error] in. *)
Context (err : E).

(** [fs::set_permissions]: the modes of files are not part of the model. *)
Definition set_permissions : M E unit := step err (λ w, ((), w)) untouched untouched.

(** [fs::read_to_string]: [None] is [ErrorKind::NotFound]. *)
Definition read_to_string (path : FPath) : M E (option bytes) :=
  raw ← fs_read err path;
  match raw with
  | Some raw => if utf8_valid raw then mret (Some raw) else fail err
  | None => mret None
  end.

Definition write_atomic (path : FPath) (data : bytes) (restrict : bool) : M E unit :=
  let tmp := tmp_path path in
  file_create err tmp;;
  write_all err tmp data;;
  sync_all err tmp;;
  (if restrict then set_permissions else mret ());;
  rename err tmp path.
End programs.

(** ** What programs do to a file *)

Section leaves.
Context {Redb : RedbPkg Table} {E : Type}.
Context (R : relation (option File)) `{!PreOrder R} (p : FPath).

(** Whatever happens, the file at [p] moves as [R] allows. *)
Definition leaves {A} (m : M E A) : Prop := ∀ w, R (files w !! p) (files (m w).2 !! p).

Lemma leaves_same {A} (m : M E A) : (∀ w, files (m w).2 !! p = files w !! p) → leaves m.
Proof. intros H w. by rewrite H. Qed.

Lemma leaves_ret {A} (a : A) : leaves (mret a : M E A).
Proof. by apply leaves_same. Qed.

Lemma leaves_fail {A} (e : E) : leaves (fail e : M E A).
Proof. by apply leaves_same. Qed.

(** The second program runs on a result that the first one can give. *)
Lemma leaves_bind_post {A B} (P : A → Prop) (m : M E A) (f : A → M E B) :
  leaves m → (∀ w, wp m (λ o _, match o with Done a => P a | _ => True end) w) →
  (∀ a, P a → leaves (f a)) → leaves (m ≫= f).
Proof.
  intros Hm HP Hf w. specialize (Hm w). specialize (HP w). unfold wp, mbind, M_bind in *.
  destruct (m w) as [[a|e|] w']; cbn in *; [|done..].
  etrans; [exact Hm|by apply Hf].
Qed.

Lemma leaves_bind {A B} (m : M E A) (f : A → M E B) :
  leaves m → (∀ a, leaves (f a)) → leaves (m ≫= f).
Proof.
  intros Hm Hf. apply (leaves_bind_post (λ _, True)); [done| |auto].
  intros w. unfold wp. by destruct (m w) as [[]].
Qed.

Lemma leaves_step {A} (err : E) (ok : World → A * World) failed crashed :
  (∀ w, files (ok w).2 !! p = files w !! p) → (∀ n w, files (failed n w) !! p = files w !! p) →
  (∀ n w, files (crashed n w) !! p = files w !! p) → leaves (step err ok failed crashed).
Proof.
  intros Hok Hf Hc. apply leaves_same. intros w.
  unfold step. specialize (Hok (set_faults (tail (faults w)) w)).
  destruct (head (faults w)) as [[|n|n]|]; try (destruct (ok _); exact Hok);
    cbn; rewrite ?Hf, ?Hc; done.
Qed.

Lemma leaves_pure {A} (err : E) (a : World → A) :
  leaves (step err (λ w, (a w, w)) untouched untouched).
Proof. by apply leaves_step. Qed.

Lemma leaves_foldM {A B} (f : B → A → M E B) b l :
  (∀ b a, a ∈ l → leaves (f b a)) → leaves (foldM f b l).
Proof.
  revert b; induction l as [|a l IH]; intros b Hf; cbn [foldM]; [apply leaves_ret|].
  apply leaves_bind; [apply Hf; by left|]. intros b'. apply IH. intros b'' a' Ha.
  apply Hf. by right.
Qed.

Lemma leaves_file q (err : E) (bs : bytes) :
  p ≠ q → leaves (file_create err q) ∧ leaves (write_all err q bs) ∧
    leaves (sync_all err q) ∧ leaves (remove_file err q).
Proof.
  intros Hne. unfold file_create, write_all, sync_all, remove_file, append.
  split_and!; apply leaves_step; intros; try destruct n; cbn;
    rewrite ?lookup_insert_ne, ?lookup_alter_ne, ?lookup_delete_ne by done; done.
Qed.

Lemma leaves_rename q r (err : E) : p ≠ q → p ≠ r → leaves (rename err q r).
Proof.
  intros Hq Hr.
  assert (∀ w, files match files w !! q with
    | Some f => set_files (<[r := f]> (delete q (files w))) w | None => w end !! p = files w !! p) as H.
  { intros w. destruct (files w !! q); [|done]. cbn.
    by rewrite lookup_insert_ne, lookup_delete_ne. }
  apply leaves_step; [|done|]; intros; try destruct n; cbn; done.
Qed.
End leaves.

Create HintDb leaves.
#[export] Hint Resolve leaves_ret leaves_fail leaves_pure : leaves.

Section placing.
Context {Redb : RedbPkg Table} {E : Type} (err : E).
Implicit Types (w : World) (p path : FPath).

Definition settled (data : bytes) : File := {| content := data; synced := true |}.

Lemma tmp_path_ne path : tmp_path path ≠ path.
Proof. destruct path as [d n]. intros [= H']%(f_equal (length ∘ snd)). cbn in H'. lia. Qed.

(** The outcome of writing [data] to [path]. *)
Definition placed path (data : bytes) w (o : outcome E unit) w' : Prop :=
  (∀ q, q ≠ path → q ≠ tmp_path path → files w' !! q = files w !! q) ∧ later w w' ∧
  match o with
  | Done _ => files w' !! path = Some (settled data) ∧ files w' !! tmp_path path = None
  | Failed _ => may_fail w ∧ files w' !! path = files w !! path
  | Crashed => may_crash w ∧
      (files w' !! path = files w !! path ∨ files w' !! path = Some (settled data))
  end.

Lemma placed_near path data w w' (o : outcome E unit) w2 :
  near (tmp_path path) w w' → placed path data w' o w2 → placed path data w o w2.
Proof.
  intros [_ _ L F] (Hq & Hl & Ho). pose proof (tmp_path_ne path) as Hne.
  rewrite F in Ho by done. split_and!.
  - intros q Hq1 Hq2. by rewrite Hq, F.
  - by etrans.
  - destruct o; naive_solver eauto using may_fail_later, may_crash_later.
Qed.

Lemma placed_faulty path data w : faulty err (tmp_path path) (placed path data w) w.
Proof.
  pose proof (tmp_path_ne path).
  split; intros w' Hm [_ _ L F]; (split_and!; [by auto|done|done|]); [|left]; by apply F.
Qed.
Hint Resolve placed_faulty : core.

Lemma wp_write_atomic path data restrict w :
  wp (write_atomic err path data restrict) (placed path data w) w.
Proof.
  unfold write_atomic. apply wp_bind, wp_file_create; [|by apply faulty_bind].
  intros w1 Hn1 Hf1. eapply wp_mono; [|intros o w2; by apply placed_near]. clear Hn1.
  apply wp_bind. eapply wp_write_all; [exact Hf1| |by apply faulty_bind].
  intros w2 Hn2 Hf2. eapply wp_mono; [|intros o w3; by apply placed_near]. clear Hn2.
  apply wp_bind. eapply wp_sync_all; [exact Hf2| |by apply faulty_bind].
  intros w3 Hn3 Hf3. eapply wp_mono; [|intros o w4; by apply placed_near]. clear Hn3.
  assert (Hmv : ∀ w4, near (tmp_path path) w3 w4 → files w4 = files w3 →
    wp (rename err (tmp_path path) path) (placed path data w3) w4).
  { intros w4 Hn4 Hf4. eapply wp_mono; [|intros o w5; by apply placed_near].
    eapply wp_rename; [by rewrite Hf4|apply tmp_path_ne| |done].
    intros w5 _ _ Hl Hf5. unfold placed. rewrite Hf5. pose proof (tmp_path_ne path).
    split; [split_and!|intros Hm; split_and!]; try done; try (intros q Hq1 Hq2).
    all: rewrite ?lookup_insert_eq, ?lookup_insert_ne, ?lookup_delete_eq, ?lookup_delete_ne by done.
    all: auto. }
  destruct restrict; [|by apply Hmv]. apply wp_bind, wp_step_pure.
  - intros w4 Hs Hw. apply Hmv; [by apply near_same|apply Hs].
  - intros w4 Hm (Hf & _ & Hl). split_and!; [by intros; rewrite Hf|done|done|by rewrite Hf].
  - intros w4 Hm (Hf & _ & Hl). split_and!; [by intros; rewrite Hf|done|done|left; by rewrite Hf].
Qed.

Lemma wp_read_to_string path w (Q : outcome E (option bytes) → World → Prop) :
  (∀ w', same w w' → match files w !! path with
     | Some f => if utf8_valid (content f) then Q (Done (Some (content f))) w' else Q (Failed err) w'
     | None => Q (Done None) w' end) →
  (∀ w', may_fail w → same w w' → Q (Failed err) w') →
  (∀ w', may_crash w → same w w' → Q Crashed w') →
  wp (read_to_string err path) Q w.
Proof.
  intros HQ Hf Hc. unfold read_to_string. apply wp_bind, wp_step_pure; [|by auto..].
  intros w' Hs _. specialize (HQ w' Hs). destruct Hs as (-> & _).
  destruct (files w !! path) as [f|]; [|done]. cbn. by destruct (utf8_valid _).
Qed.

Lemma wp_lift_bind {A B} (r : result E A) (f : A → M E B)
    (Q : outcome E B → World → Prop) w :
  match r with Ok a => wp (f a) Q w | Err e => Q (Failed e) w end → wp (lift r ≫= f) Q w.
Proof. by destruct r. Qed.


Lemma wp_path_exists p (Q : outcome E bool → World → Prop) w :
  Q (Done (bool_decide (is_Some (files w !! p)))) w → wp (path_exists p) Q w.
Proof. done. Qed.

Lemma wp_with_error {F A} (f : E → F) (m : M E A) (Q : outcome F A → World → Prop) w :
  wp m (λ o w', match o with
    | Done a => Q (Done a) w' | Failed e => Q (Failed (f e)) w' | Crashed => Q Crashed w' end) w →
  wp (with_error f m) Q w.
Proof. unfold wp, with_error. by destruct (m w) as [[a|e|] w']. Qed.

Lemma wp_outcome_of {F A} (m : M E A) (Q : outcome F (result E A) → World → Prop) w :
  wp m (λ o w', match o with
    | Done a => Q (Done (Ok a)) w' | Failed e => Q (Done (Err e)) w' | Crashed => Q Crashed w' end) w →
  wp (outcome_of m) Q w.
Proof. unfold wp, outcome_of. by destruct (m w) as [[a|e|] w']. Qed.
End placing.

(** ** Several files, one after the other *)

Section replacing.
Context {Redb : RedbPkg Table} {E : Type} (err : E).
Implicit Types (w : World) (p path : FPath) (all : list (FPath * bytes)).

(** No temporary file is a target, and targets are distinct. *)
Definition targets_ok all : Prop :=
  NoDup all.*1 ∧ ∀ p q, p ∈ all.*1 → q ∈ all.*1 → tmp_path p ≠ q.

(** Of the files to write, those in [done] are in place; each of the others is as
    it was, or in place. *)
Record replaced (done all : list (FPath * bytes)) w w' : Prop := {
  rp_later : later w w';
  rp_other q : q ∉ all.*1 → q ∉ tmp_path <$> all.*1 → files w' !! q = files w !! q;
  rp_each p data : (p, data) ∈ all →
    files w' !! p = files w !! p ∨ files w' !! p = Some (settled data);
  rp_done p data : (p, data) ∈ done → files w' !! p = Some (settled data);
  rp_sub x : x ∈ done → x ∈ all;
}.

Lemma replaced_start all w w' : same w w' → replaced [] all w w'.
Proof.
  intros (Hf & _ & Hl). split; [done|by intros; rewrite Hf|intros; left; by rewrite Hf|..].
  - by intros p data ?%elem_of_nil.
  - by intros x ?%elem_of_nil.
Qed.

Lemma replaced_placed done all w w1 path data o w2 :
  targets_ok all → (path, data) ∈ all → replaced done all w w1 →
  placed (E := E) path data w1 o w2 →
  replaced (match o with Done _ => (path, data) :: done | _ => done end) all w w2.
Proof.
  intros [Hnd Htmp] Hin [L O Ea D Hda] (Ho & Hl & Hp).
  assert (Hpath : path ∈ all.*1) by (apply list_elem_of_fmap; by exists (path, data)).
  assert (Hfun : ∀ d, (path, d) ∈ all → d = data) by (intros d Hd; by eapply NoDup_fst_elem).
  assert (Hall : ∀ p d, (p, d) ∈ all → p ≠ path → files w2 !! p = files w1 !! p).
  { intros p d Hd Hne. apply Ho; [done|]. apply not_eq_sym, Htmp; [done|].
    apply list_elem_of_fmap. by exists (p, d). }
  split.
  - by etrans.
  - intros q Hq Hqt. rewrite Ho; [by apply O|by intros ->|].
    intros ->. apply Hqt, list_elem_of_fmap. by exists path.
  - intros p d Hd. destruct (decide (p = path)) as [->|Hne].
    + rewrite (Hfun d Hd). destruct (Ea path data Hin), o; naive_solver congruence.
    + rewrite (Hall p d Hd Hne). by apply Ea.
  - assert (Hdn : ∀ p d, (p, d) ∈ done → files w2 !! p = Some (settled d)).
    { intros p d Hd. destruct (decide (p = path)) as [->|Hne].
      - rewrite (Hfun d (Hda _ Hd)). pose proof (D _ _ Hd) as Hd1. rewrite (Hfun d (Hda _ Hd)) in Hd1.
        destruct o; naive_solver congruence.
      - rewrite (Hall p d); auto. }
    destruct o; [|done..]. intros p d [[= -> ->]|Hd]%elem_of_cons; [apply Hp|by apply Hdn].
  - destruct o; [|done..]. intros x [->|Hx]%elem_of_cons; auto.
Qed.

Lemma wp_replace done all w w1 path data restrict (Q : outcome E unit → World → Prop) :
  targets_ok all → (path, data) ∈ all → replaced done all w w1 →
  (∀ w2, replaced ((path, data) :: done) all w w2 → Q (Done ()) w2) →
  (∀ e w2, replaced done all w w2 → may_fail w → Q (Failed e) w2) →
  (∀ w2, replaced done all w w2 → may_crash w → Q Crashed w2) →
  wp (write_atomic err path data restrict) Q w1.
Proof.
  intros Hok Hin Hr HQ Hf Hc. eapply wp_mono; [apply wp_write_atomic|]. intros o w2 Hp.
  pose proof (replaced_placed _ _ _ _ _ _ _ _ Hok Hin Hr Hp) as Hr2.
  destruct Hp as (_ & _ & Hp), o as [[]|e|]; [by apply HQ| |].
  - apply Hf; [done|]. eapply may_fail_later; [apply Hr|apply Hp].
  - apply Hc; [done|]. eapply may_crash_later; [apply Hr|apply Hp].
Qed.
End replacing.

Section leaves_files.
Context {Redb : RedbPkg Table} {E : Type} (err : E).
Context (R : relation (option File)) `{!PreOrder R} (p : FPath).

(** A program may write to [path]. *)
Definition may_place (path : FPath) : Prop :=
  p ≠ tmp_path path ∧ (p = path → ∀ f data, R f (Some (settled data))).

Lemma leaves_lift {A} (r : result E A) : leaves R p (lift r).
Proof. unfold lift. destruct r; auto with leaves. Qed.
Hint Resolve leaves_lift : leaves.

Lemma leaves_write_atomic path data restrict :
  may_place path → leaves R p (write_atomic err path data restrict).
Proof.
  intros [Ht Hp] w. pose proof (wp_write_atomic err path data restrict w) as (Ho & _ & Hw).
  destruct (decide (p = path)) as [->|Hne]; [|by rewrite Ho].
  destruct (write_atomic err path data restrict w) as [[u|e|] w']; cbn [fst snd] in *.
  - destruct Hw as [-> _]. auto.
  - destruct Hw as [_ ->]. done.
  - destruct Hw as [_ [-> | ->]]; [done|auto].
Qed.

Lemma leaves_read_to_string path : leaves R p (read_to_string err path).
Proof.
  apply leaves_bind; [done|apply leaves_pure; apply _|].
  intros [raw|]; [destruct (utf8_valid raw)|]; auto with leaves.
Qed.
Hint Resolve leaves_read_to_string : leaves.

Lemma leaves_bind_Ok {A B} (r : result E A) (f : A → M E B) :
  (∀ a, r = Ok a → leaves R p (f a)) → leaves R p (lift r ≫= f).
Proof.
  intros Hf. destruct r as [a|e]; [|by apply leaves_same].
  change (leaves R p (f a)). by apply Hf.
Qed.

End leaves_files.

#[export] Hint Resolve leaves_lift leaves_read_to_string : leaves.

(** Through a program's structure, down to its writes. *)
Ltac leaf Hw := lazymatch goal with
  | |- leaves _ _ (_ ≫= _) => apply leaves_bind; [done|leaf Hw|intros; leaf Hw]
  | |- leaves _ _ (let '(_, _) := ?x in _) => destruct x; leaf Hw
  | |- leaves _ _ (match ?x with _ => _ end) => destruct x; leaf Hw
  | _ => first [apply Hw|auto with leaves]
  end.
