(* ===== verification/Identity.v ===== *)
(** * The daemon's identity ([busyncr-daemon/src/identity.rs])

    The internal CA and the server certificate, the one-time enrollment tokens
    and the registry of enrolled clients, as programs over the files of the
    identity directory ([StoreIO]; its database is not used here).  A path is a
    subdirectory of the identity directory and a name, the directory itself
    being the empty one. *)

From S2P Require Import Prelude External Text Base64 StoreIO StoreLogic AtomicFile.

Definition CA_CERT_FILE : FPath := ([], str "ca-cert.pem").
Definition CA_KEY_FILE : FPath := ([], str "ca-key.pem").
Definition SERVER_CERT_FILE : FPath := ([], str "server-cert.pem").
Definition SERVER_KEY_FILE : FPath := ([], str "server-key.pem").
Definition TOKENS_DIR : bytes := str "tokens".
Definition CLIENTS_DIR : bytes := str "clients".
Definition TOKEN_LEN : nat := 32.
Definition MAX_NAME_LEN : Z := 64.
(** [busyncr_proto::TLS_SERVER_NAME]. *)
Definition TLS_SERVER_NAME : bytes := str "busyncr-daemon".

(** ** Certificates: what the code sets of [rcgen::CertificateParams] *)

Inductive DnValue :=
  | Utf8String (s : bytes)
  | PrintableString (s : bytes)
  | OtherDn.
Inductive IsCa := NoCa | ExplicitNoCa | CaUnconstrained.
Inductive KeyUsagePurpose := DigitalSignature | KeyCertSign | CrlSign | OtherUsage.
Inductive ExtendedKeyUsagePurpose := ServerAuth | ClientAuth | OtherExtendedUsage.

Record CertificateParams := {
  common_name_attr : option DnValue;
  is_ca : IsCa;
  key_usages : list KeyUsagePurpose;
  extended_key_usages : list ExtendedKeyUsagePurpose;
  subject_alt_names : list bytes;
}.

Record Certificate := { cert_der : bytes; cert_pem : bytes }.

(** [rcgen].  Generating a key and signing draw on [Entropy]. *)
Class RcgenPkg := {
  RcgenError : Type;
  Entropy : Type;
  KeyPair : Type;
  Issuer : Type;
  (** the public key in a request *)
  PublicKey : Type;
  KeyPair_generate : Entropy → result RcgenError KeyPair;
  KeyPair_serialize_pem : KeyPair → bytes;
  KeyPair_from_pem : bytes → result RcgenError KeyPair;
  CertificateParams_new : list bytes → result RcgenError CertificateParams;
  self_signed : Entropy → CertificateParams → KeyPair → result RcgenError Certificate;
  signed_by : Entropy → CertificateParams → KeyPair → Issuer → result RcgenError Certificate;
  Issuer_from_ca_cert_pem : bytes → KeyPair → result RcgenError Issuer;
  CSR_from_pem : bytes → result RcgenError (CertificateParams * PublicKey);
  CSR_signed_by : Entropy → CertificateParams → PublicKey → Issuer → result RcgenError Certificate;
}.

(** ** The registry *)

Record ClientRecord := {
  name : bytes;
  fingerprint : bytes;
  revoked : bool;
}.

#[global] Instance ClientRecord_eq_dec : EqDecision ClientRecord.
Proof. solve_decision. Defined.

Inductive ClientStatus := Unknown | Active | Revoked.

(** [toml], on records of clients. *)
Class TomlPkg := {
  toml_to_string_pretty : ClientRecord → option bytes;
  toml_from_str : bytes → option ClientRecord;
}.

(** What was written is read back; it is UTF-8, as every [String]. *)
Class TomlLaws `{TomlPkg} : Prop := {
  toml_from_to r s : toml_to_string_pretty r = Some s → toml_from_str s = Some r;
  toml_utf8 r s : toml_to_string_pretty r = Some s → utf8_valid s = true;
}.

(** The paths and the [io::Error] inside are left out. *)
Inductive IdentityError `{RcgenPkg} :=
  | Io
  | Cert (e : RcgenError)
  | CsrRejected (msg : option RcgenError)
  | BadName
  | NameTaken (name : bytes)
  | RegistryParse (path : FPath)
  | RegistryEncode.

Record IssuedCert := { issued_pem : bytes; issued_name : bytes; issued_fingerprint : bytes }.

Record DaemonIdentity := {
  ca_cert_pem : bytes;
  ca_cert_der : bytes;
  ca_key_pem : bytes;
  server_cert_pem : bytes;
  server_key_pem : bytes;
}.

(** [char::is_control]: the category Cc. *)
Definition is_control (c : char) : bool := between 0 31 c || between 127 159 c.

(** [char::is_ascii_alphanumeric], on the bytes of a string. *)
Definition is_ascii_alphanumeric (b : byte) : bool :=
  let z := byte_to_Z b in between 48 57 z || between 65 90 z || between 97 122 z.

(** [Path::extension] of a file name: what follows its last dot, unless that is
    its first character. *)
Definition extension (n : bytes) : option bytes :=
  let suffix := take_while (λ b, bool_decide (b ≠ x2e)) (reverse n) in
  if decide (S (length suffix) < length n)%nat then Some (reverse suffix) else None.

Definition common_name (params : CertificateParams) : option bytes :=
  name ← match common_name_attr params with
         | Some (Utf8String s) | Some (PrintableString s) => Some s
         | _ => None
         end;
  let ok_len := bool_decide (name ≠ [] ∧ len name ≤ MAX_NAME_LEN) in
  let ok_chars := forallb (λ c, negb (is_control c)) (str_chars name) in
  if ok_len && ok_chars then Some name else None.

(** ** Files *)

Section identity.
Context {Redb : RedbPkg Table} `{Blake3Pkg, RcgenPkg, TomlPkg}.

(** [blake3::hash(data).to_hex().to_string()]. *)
Definition blake3_hex (data : bytes) : bytes := hex_bytes (vec_to_list (blake3_hash data)).

Abbreviation M := (M IdentityError).

Abbreviation read_to_string := (AtomicFile.read_to_string Io).
Abbreviation write_atomic := (AtomicFile.write_atomic Io).

Definition read_string (path : FPath) : M bytes :=
  body ← read_to_string path;
  match body with Some body => mret body | None => fail Io end.

(** ** Tokens *)

Definition token_path (token : bytes) : FPath :=
  (TOKENS_DIR, blake3_hex token).

Definition mint_token {R} `{!CryptoRng R} (rng : R) : R * M bytes :=
  let '(raw, rng) := fill_bytes TOKEN_LEN rng in
  let token := hex_bytes (vec_to_list raw) in
  (rng, write_atomic (token_path token) [] false;; mret token).

Definition consume_token (token : bytes) : M bool := remove_file Io (token_path token).

(** ** The registry *)

Definition client_path (fingerprint : bytes) : FPath :=
  (CLIENTS_DIR, filter (λ b, is_ascii_alphanumeric b = true) fingerprint ++ str ".toml").

(** The loop body of [read_registry]. *)
Definition registry_entry (out : list (FPath * ClientRecord)) (path : FPath) :
    M (list (FPath * ClientRecord)) :=
  if decide (extension path.2 = Some (str "toml")) then
    body ← read_string path;
    record ← lift (ok_or (RegistryParse path) (toml_from_str body));
    mret (out ++ [(path, record)])
  else mret out.

Definition read_registry : M (list (FPath * ClientRecord)) :=
  entries ← read_dir Io CLIENTS_DIR;
  foldM registry_entry [] entries.

Definition active_client_named (n : bytes) : M (option bytes) :=
  registry ← read_registry;
  mret ((λ '(_, (_, r)), fingerprint r) <$>
    list_find (λ '(_, r), name r = n ∧ revoked r = false) registry).

(** The certificate profile that the daemon enforces. *)
Definition client_profile (params : CertificateParams) : CertificateParams := {|
  common_name_attr := common_name_attr params;
  is_ca := ExplicitNoCa;
  key_usages := [DigitalSignature];
  extended_key_usages := [ClientAuth];
  subject_alt_names := [];
|}.

Definition enroll_client (id : DaemonIdentity) (entropy : Entropy) (csr_pem : bytes) : M IssuedCert :=
  '(params, key) ← lift (map_err (λ e, CsrRejected (Some e)) (CSR_from_pem csr_pem));
  n ← lift (ok_or BadName (common_name params));
  taken ← active_client_named n;
  match taken with
  | Some _ => fail (NameTaken n)
  | None =>
      ca_key ← lift (map_err Cert (KeyPair_from_pem (ca_key_pem id)));
      issuer ← lift (map_err Cert (Issuer_from_ca_cert_pem (ca_cert_pem id) ca_key));
      cert ← lift (map_err Cert (CSR_signed_by entropy (client_profile params) key issuer));
      let fp := blake3_hex (cert_der cert) in
      let record := {| name := n; fingerprint := fp; revoked := false |} in
      body ← lift (ok_or RegistryEncode (toml_to_string_pretty record));
      write_atomic (client_path fp) body false;;
      mret {| issued_pem := cert_pem cert; issued_name := n; issued_fingerprint := fp |}
  end.

(** [toml::from_str(&body)] on the entry of a fingerprint; [None] when there is none. *)
Definition client_record (fp : bytes) : M (option ClientRecord) :=
  body ← read_to_string (client_path fp);
  match body with
  | None => mret None
  | Some body =>
      record ← lift (ok_or (RegistryParse (client_path fp)) (toml_from_str body));
      mret (Some record)
  end.

Definition client_status (fp : bytes) : M ClientStatus :=
  record ← client_record fp;
  mret match record with
       | None => Unknown
       | Some record => if revoked record then Revoked else Active
       end.

Definition client_name (fp : bytes) : M (option bytes) :=
  record ← client_record fp;
  mret (name <$> record).

(** The loop body of [revoke]. *)
Definition revoke_entry (n : bytes) (count : Z) (entry : FPath * ClientRecord) : M Z :=
  let '(path, record) := entry in
  if decide (name record = n ∧ revoked record = false) then
    let record := {| name := name record; fingerprint := fingerprint record; revoked := true |} in
    body ← lift (ok_or RegistryEncode (toml_to_string_pretty record));
    write_atomic path body false;;
    mret (u64_add count 1)
  else mret count.

Definition revoke (n : bytes) : M Z :=
  registry ← read_registry;
  foldM (revoke_entry n) 0 registry.

(** ** Bootstrap *)

Definition is_file (path : FPath) : M bool := path_exists path.

Definition cert_op {A} (r : result RcgenError A) : M A := lift (map_err Cert r).

(** The CA material: read, or generated and persisted. *)
Definition open_or_init_ca (entropy : Entropy * Entropy) : M (bytes * bytes) :=
  have_cert ← is_file CA_CERT_FILE;
  have_key ← is_file CA_KEY_FILE;
  if (have_cert : bool) && (have_key : bool)
  then
    cert ← read_string CA_CERT_FILE;
    key ← read_string CA_KEY_FILE;
    mret (cert, key)
  else
    key ← cert_op (KeyPair_generate entropy.1);
    params ← cert_op (CertificateParams_new []);
    let params := {|
      common_name_attr := Some (Utf8String (str "BusyNCR internal CA"));
      is_ca := CaUnconstrained;
      key_usages := [KeyCertSign; CrlSign; DigitalSignature];
      extended_key_usages := extended_key_usages params;
      subject_alt_names := subject_alt_names params;
    |} in
    cert ← cert_op (self_signed entropy.2 params key);
    write_atomic CA_CERT_FILE (cert_pem cert) false;;
    write_atomic CA_KEY_FILE (KeyPair_serialize_pem key) true;;
    mret (cert_pem cert, KeyPair_serialize_pem key).

(** The server's material, likewise, signed by the CA. *)
Definition open_or_init_server (entropy : Entropy * Entropy) (ca_cert ca_key : bytes) :
    M (bytes * bytes) :=
  have_cert ← is_file SERVER_CERT_FILE;
  have_key ← is_file SERVER_KEY_FILE;
  if (have_cert : bool) && (have_key : bool)
  then
    cert ← read_string SERVER_CERT_FILE;
    key ← read_string SERVER_KEY_FILE;
    mret (cert, key)
  else
    ca ← cert_op (KeyPair_from_pem ca_key);
    issuer ← cert_op (Issuer_from_ca_cert_pem ca_cert ca);
    key ← cert_op (KeyPair_generate entropy.1);
    params ← cert_op (CertificateParams_new
      [TLS_SERVER_NAME; str "localhost"; str "127.0.0.1"; str "::1"]);
    let params := {|
      common_name_attr := Some (Utf8String TLS_SERVER_NAME);
      is_ca := ExplicitNoCa;
      key_usages := [DigitalSignature];
      extended_key_usages := [ServerAuth];
      subject_alt_names := subject_alt_names params;
    |} in
    cert ← cert_op (signed_by entropy.2 params key issuer);
    write_atomic SERVER_CERT_FILE (cert_pem cert) false;;
    write_atomic SERVER_KEY_FILE (KeyPair_serialize_pem key) true;;
    mret (cert_pem cert, KeyPair_serialize_pem key).

Definition open_or_init (ca_entropy server_entropy : Entropy * Entropy) : M DaemonIdentity :=
  create_dir_all Io;; create_dir_all Io;; create_dir_all Io;;
  '(ca_cert, ca_key) ← open_or_init_ca ca_entropy;
  ca_der ← lift (ok_or (CsrRejected None) (pem_to_der ca_cert));
  '(server_cert, server_key) ← open_or_init_server server_entropy ca_cert ca_key;
  mret {| ca_cert_pem := ca_cert; ca_cert_der := ca_der; ca_key_pem := ca_key;
          server_cert_pem := server_cert; server_key_pem := server_key |}.

Definition ca_fingerprint (id : DaemonIdentity) : bytes :=
  blake3_hex (ca_cert_der id).
End identity.

(** ** Reference instances *)

Module IdentityReference.

Definition pem_of (der : bytes) : bytes := pem_armor (str "CERTIFICATE") [base64_encode der].

(** A key is the bytes that it was drawn from; a request is a name; a
    certificate is its randomness, its issuer and its subject. *)
#[export] Instance rcgen : RcgenPkg := {|
  RcgenError := ();
  Entropy := bytes;
  KeyPair := bytes;
  Issuer := bytes;
  PublicKey := bytes;
  KeyPair_generate e := Ok e;
  KeyPair_serialize_pem k := k;
  KeyPair_from_pem p := Ok p;
  CertificateParams_new sans := Ok {|
    common_name_attr := None; is_ca := NoCa; key_usages := []; extended_key_usages := [];
    subject_alt_names := sans |};
  self_signed e params k := Ok {| cert_der := e ++ k; cert_pem := pem_of (e ++ k) |};
  signed_by e params k i := Ok {| cert_der := e ++ k ++ i; cert_pem := pem_of (e ++ k ++ i) |};
  Issuer_from_ca_cert_pem p k := Ok p;
  CSR_from_pem p :=
    match p with
    | [] => Err ()
    | _ => Ok ({| common_name_attr := Some (Utf8String p); is_ca := NoCa; key_usages := [];
                  extended_key_usages := []; subject_alt_names := [] |}, p)
    end;
  CSR_signed_by e params k i := Ok {| cert_der := e ++ k; cert_pem := pem_of (e ++ k) |};
|}.

(** A record is a digit, its name, a line feed and its fingerprint. *)
#[export] Instance toml : TomlPkg := {|
  toml_to_string_pretty r :=
    let s := (if revoked r then x31 else x30) :: name r ++ [x0a] ++ fingerprint r in
    if decide ((x0a ∉ name r) ∧ utf8_valid s = true) then Some s else None;
  toml_from_str s :=
    match s with
    | [] => None
    | d :: s =>
        let n := take_while (λ b, bool_decide (b ≠ x0a)) s in
        match drop (length n) s with
        | [] => None
        | _ :: fp => Some {| name := n; fingerprint := fp; revoked := bool_decide (d = x31) |}
        end
    end;
|}.

Lemma take_while_line n s : x0a ∉ n → take_while (λ b, bool_decide (b ≠ x0a)) (n ++ x0a :: s) = n.
Proof.
  induction n as [|b n IH]; [done|]. rewrite not_elem_of_cons. intros [Hb Hn].
  cbn [app take_while]. rewrite bool_decide_true by done. by rewrite IH.
Qed.

#[export] Instance toml_laws : TomlLaws.
Proof.
  split; cbn [toml toml_to_string_pretty toml_from_str]; intros [n fp rv] s; cbn [name fingerprint revoked];
    destruct (decide _) as [[Hn Hu]|]; intros [= <-]; [|done].
  cbn [app]. rewrite take_while_line by done. rewrite drop_app_length. by destruct rv.
Qed.
End IdentityReference.
