(* ===== verification/IdentityTheorems.v ===== *)
(** * What holds of the daemon's identity

    A token buys at most one enrollment and a revoked certificate stays
    revoked, in every history of operations, faults, crashes and restarts; the
    registry, between faults, is a map from certificates to records that
    enrollment and revocation update as they should; and the limits: leftover
    temporary files and concurrent enrollments. *)

From S2P Require Import Prelude External Text Base64 StoreIO StoreLogic AtomicFile Identity.

Section identity_files.
Context {Redb : RedbPkg Table} `{Blake3Pkg, RcgenPkg, TomlPkg}.
Abbreviation read_to_string := (AtomicFile.read_to_string Io).
Abbreviation write_atomic := (AtomicFile.write_atomic Io).
Implicit Types (w : World) (p path : FPath).

(** ** Reading the registry *)

(** The record in a file. *)
Definition record_at w path : option ClientRecord :=
  f ← files w !! path; if utf8_valid (content f) then toml_from_str (content f) else None.

Lemma record_at_files w w' path : files w' = files w → record_at w' path = record_at w path.
Proof. unfold record_at. by intros ->. Qed.

(** The registry's files, in the order of the directory. *)
Definition registry_files w : list FPath :=
  filter (λ p, extension p.2 = Some (str "toml"))
    (filter (λ p, p.1 = CLIENTS_DIR) (map_to_list (files w)).*1).

Definition registry w : list (FPath * ClientRecord) :=
  omap (λ p, (p,.) <$> record_at w p) (registry_files w).

Lemma elem_of_registry_files w p :
  p ∈ registry_files w ↔
    extension p.2 = Some (str "toml") ∧ p.1 = CLIENTS_DIR ∧ is_Some (files w !! p).
Proof.
  unfold registry_files. rewrite !list_elem_of_filter, list_elem_of_fmap. split.
  - intros (? & ? & [q f] & -> & Hin%elem_of_map_to_list). split_and!; [done..|]. by exists f.
  - intros (? & ? & [f Hf]). split_and!; [done..|]. exists (p, f).
    split; [done|]. by apply elem_of_map_to_list.
Qed.

Lemma elem_of_registry w p r :
  (p, r) ∈ registry w ↔
    extension p.2 = Some (str "toml") ∧ p.1 = CLIENTS_DIR ∧ record_at w p = Some r.
Proof.
  unfold registry. rewrite list_elem_of_omap. split.
  - intros (q & Hq%elem_of_registry_files & Hr). destruct (record_at w q) eqn:E; naive_solver.
  - intros (? & ? & Hr). exists p. rewrite Hr. split; [|done].
    apply elem_of_registry_files. unfold record_at in Hr. destruct (files w !! p); naive_solver.
Qed.

Lemma registry_paths_NoDup w : NoDup (registry w).*1.
Proof.
  assert (NoDup (registry_files w)) as Hn.
  { apply NoDup_filter, NoDup_filter, NoDup_fst_map_to_list. }
  unfold registry. induction Hn as [|p l Hp Hn IH]; [constructor|].
  cbn [omap list_omap]. destruct (record_at w p); cbn [fmap option_fmap option_map]; [|done].
  cbn [fmap list_fmap fst]. constructor; [|done]. intros Hin. apply Hp.
  apply list_elem_of_fmap in Hin as ([q r] & -> & Hin). apply list_elem_of_omap in Hin as (q' & Hq & Hr).
  destruct (record_at w q'); naive_solver.
Qed.

Lemma registry_same w w' : files w' = files w → registry w' = registry w.
Proof. intros E. unfold registry, registry_files, record_at. by rewrite E. Qed.

(** Every file of the registry holds a record. *)
Definition registry_parses w : Prop :=
  ∀ p, p ∈ registry_files w → is_Some (record_at w p).

(** What the loop of [read_registry] takes from a path. *)
Definition entry w p : option (FPath * ClientRecord) :=
  if decide (extension p.2 = Some (str "toml")) then (p,.) <$> record_at w p else None.

Lemma wp_registry_entry out p w :
  wp (registry_entry out p) (λ o w', same w w' ∧ match o with
    | Done out' => out' = out ++ omap (entry w) [p] ∧
        (extension p.2 = Some (str "toml") → is_Some (record_at w p))
    | Failed e => may_fail w ∨ extension p.2 = Some (str "toml") ∧ record_at w p = None
    | Crashed => may_crash w end) w.
Proof.
  unfold registry_entry, entry. cbn [omap list_omap].
  destruct (decide (extension p.2 = Some (str "toml"))) as [Hx|Hx]; [|by rewrite app_nil_r].
  apply wp_bind, wp_bind, wp_read_to_string; [|by auto..].
  intros w' Hs. unfold record_at.
  destruct (files w !! p) as [f|]; cbn [mbind option_bind]; [|apply wp_fail; auto].
  destruct (utf8_valid (content f)); [|auto]. apply wp_ret, wp_bind.
  destruct (toml_from_str (content f)) as [r|]; cbn [ok_or lift]; [|apply wp_fail; auto].
  apply wp_ret, wp_ret. split; [done|]. eauto.
Qed.

Lemma wp_read_registry w :
  wp read_registry (λ o w', same w w' ∧ match o with
    | Done reg => reg = registry w ∧ registry_parses w
    | Failed e => may_fail w ∨ ¬ registry_parses w
    | Crashed => may_crash w end) w.
Proof.
  unfold read_registry, read_dir. apply wp_bind, wp_step_pure; [|by auto..].
  intros w1 Hs1 _. pose proof Hs1 as (Hf1 & _). rewrite Hf1.
  set (es := filter _ _).
  assert (Hreg : registry w = omap (entry w) es)
    by (unfold registry, registry_files; apply omap_filter).
  assert (Hes : ∀ p, p ∈ es → extension p.2 = Some (str "toml") → p ∈ registry_files w)
    by (intros p Hp Hx; by apply list_elem_of_filter).
  rewrite Hreg.
  apply (wp_foldM _ _ (λ out l w', same w w' ∧ ∃ pre, es = pre ++ l ∧ out = omap (entry w) pre ∧
    ∀ p, p ∈ pre → extension p.2 = Some (str "toml") → is_Some (record_at w p))).
  - split; [done|]. exists []. split_and!; [done..|]. by intros p ?%elem_of_nil.
  - intros out p l w2 (Hs2 & pre & Hpre & -> & Hok). eapply wp_mono; [apply wp_registry_entry|].
    pose proof Hs2 as (Hf2 & _ & Hl2).
    intros o w3 [Hs3 Ho]. assert (same w w3) by by etrans. rewrite (record_at_files w w2) in Ho by done.
    destruct o as [out'|e|]; (split; [done|]).
    + destruct Ho as [-> Hp]. exists (pre ++ [p]). split_and!.
      * by rewrite Hpre, <- app_assoc.
      * rewrite omap_app. f_equal. cbn. unfold entry. by rewrite (record_at_files w w2) by done.
      * intros q [Hq| ->%list_elem_of_singleton]%elem_of_app; [by apply Hok|done].
    + destruct Ho as [Hm|[Hx Hp]]; [left; by eapply may_fail_later|right].
      intros Hall. destruct (Hall p) as [r Hr]; [|congruence]. apply Hes; [|done].
      rewrite Hpre. set_solver.
    + by eapply may_crash_later.
  - intros out w2 (Hs2 & pre & Hpre & -> & Hok). rewrite app_nil_r in Hpre. subst pre.
    split_and!; [done..|]. intros p Hp%list_elem_of_filter. apply Hok; apply Hp.
Qed.
(** ** Revocation *)

Definition is_tmp p : Prop := ∃ n, p.2 = str ".tmp-" ++ n.

Lemma tmp_path_is_tmp path : is_tmp (tmp_path path).
Proof. by exists path.2. Qed.

Definition revoked_record (r : ClientRecord) : ClientRecord :=
  {| name := name r; fingerprint := fingerprint r; revoked := true |}.

Definition active_as (n : bytes) (r : ClientRecord) : Prop := name r = n ∧ revoked r = false.

(** The file at [p] now holds the revoked record. *)
Definition revoked_to w' p (r : ClientRecord) : Prop :=
  ∃ body, toml_to_string_pretty (revoked_record r) = Some body ∧ files w' !! p = Some (settled body).

(** [revoke n] has gone over the entries [es]. *)
Record revoking (n : bytes) (es : list (FPath * ClientRecord)) w w' : Prop := {
  rv_later : later w w';
  rv_other q : q.1 ≠ CLIENTS_DIR → files w' !! q = files w !! q;
  rv_same q : ¬ is_tmp q → (∀ r, (q, r) ∈ es → ¬ active_as n r) → files w' !! q = files w !! q;
  rv_done q r : ¬ is_tmp q → (q, r) ∈ es → active_as n r → revoked_to w' q r;
}.

(** A stop: the last of the entries may or may not have been written. *)
Definition stopped (n : bytes) w w' : Prop :=
  later w w' ∧ (∀ q, q.1 ≠ CLIENTS_DIR → files w' !! q = files w !! q) ∧
  ∀ q, ¬ is_tmp q → files w' !! q = files w !! q ∨
    ∃ r, (q, r) ∈ registry w ∧ active_as n r ∧ revoked_to w' q r.

Lemma revoking_stopped n es w w' :
  revoking n es w w' → (∀ e, e ∈ es → e ∈ registry w) → stopped n w w'.
Proof.
  intros [Hl Ho Hs Hd] Hes. split_and!; [done..|]. intros q Hq.
  destruct (decide (Exists (λ e, e.1 = q ∧ name e.2 = n ∧ revoked e.2 = false) es)) as [Hex|Hno].
  - apply Exists_exists in Hex as ([q' r] & Hin & <- & Hr). right. eauto 6.
  - left. apply Hs; [done|]. intros r Hin Hr. apply Hno, Exists_exists. by exists (q, r).
Qed.

Definition count_active (n : bytes) (es : list (FPath * ClientRecord)) : Z :=
  len (filter (λ e, name e.2 = n ∧ revoked e.2 = false) es).

Lemma wp_revoke_entry n es q r w w1 :
  revoking n es w w1 → (∀ e, e ∈ es ++ [(q, r)] → e ∈ registry w) → NoDup (es ++ [(q, r)]).*1 →
  wp (revoke_entry n (count_active n es mod 2 ^ 64) (q, r)) (λ o w2, match o with
    | Done k => k = count_active n (es ++ [(q, r)]) mod 2 ^ 64 ∧ revoking n (es ++ [(q, r)]) w w2
    | Failed e => (may_fail w ∨ toml_to_string_pretty (revoked_record r) = None) ∧ stopped n w w2
    | Crashed => may_crash w ∧ stopped n w w2 end) w1.
Proof.
  intros Hrv Hes Hnd. unfold revoke_entry.
  assert (Hcount : count_active n (es ++ [(q, r)]) = count_active n es +
    (if decide (name r = n ∧ revoked r = false) then 1 else 0)).
  { unfold count_active. rewrite filter_app, len_app. f_equal. rewrite filter_cons.
    cbn [fst snd]. by destruct (decide _). }
  rewrite Hcount. clear Hcount. assert (Hst : stopped n w w1).
  { eapply revoking_stopped; [done|]. intros e He. apply Hes. set_solver. }
  destruct Hrv as [Hl Ho Hs Hd].
  assert (Hqd : q.1 = CLIENTS_DIR) by (apply (elem_of_registry w _ r), Hes; set_solver).
  destruct (decide _) as [Ha|Ha].
  2: { apply wp_ret. split; [by rewrite Z.add_0_r|]. split; [done..| |].
    - intros q' Hq' Hno. apply Hs; [done|]. set_solver.
    - intros q' r' Hq' [Hin|[= -> ->]%list_elem_of_singleton]%elem_of_app Hr'; [by apply Hd|done]. }
  apply wp_bind. fold (revoked_record r).
  destruct (toml_to_string_pretty (revoked_record r)) as [body|] eqn:Eb; cbn [ok_or lift];
    [|apply wp_fail; auto]. apply wp_ret.
  assert (Hnew : ∀ q' r', ¬ is_tmp q' → (q', r') ∈ es → q' ≠ q).
  { intros q' r' _ Hin ->. rewrite fmap_app in Hnd. apply NoDup_app in Hnd as (_ & Hnd & _).
    apply (Hnd q); [apply list_elem_of_fmap; by exists (q, r')|]. cbn. set_solver. }
  apply wp_bind. eapply wp_mono; [apply wp_write_atomic|]. intros o w2 (Hoth & Hl2 & Hw2).
  assert (Htmp : ∀ q', ¬ is_tmp q' → q' ≠ tmp_path q) by (intros q' Hq' ->; by destruct Hq'; eexists).
  assert (Hkeep : ∀ q', q'.1 ≠ CLIENTS_DIR → files w2 !! q' = files w !! q').
  { intros q' Hq'. rewrite Hoth, Ho by (done || by intros ->). done. }
  assert (Hoth' : ∀ q', ¬ is_tmp q' → q' ≠ q → files w2 !! q' = files w1 !! q') by eauto.
  assert (Hst2 : files w2 !! q = files w1 !! q ∨ files w2 !! q = Some (settled body) → stopped n w w2).
  { destruct Hst as (_ & _ & Hst). intros Hq. split_and!; [by etrans|done|]. intros q' Hq'.
    unfold revoked_to in *. destruct (decide (q' = q)) as [->|Hne]; [|rewrite Hoth' by done; auto].
    destruct Hq as [-> | ->]; [by apply Hst|]. right. exists r. split; [apply Hes; set_solver|eauto]. }
  destruct o as [[]|e|].
  - apply wp_ret. split; [unfold u64_add; by rewrite Zplus_mod_idemp_l|]. destruct Hw2 as [Hw2 _].
    split; [by etrans|done| |].
    + intros q' Hq' Hno. assert (q' ≠ q) as Hne.
      { intros ->. apply (Hno r); [set_solver|done]. }
      rewrite Hoth' by done. apply Hs; [done|]. set_solver.
    + intros q' r' Hq' [Hin|[= -> ->]%list_elem_of_singleton]%elem_of_app Hr'; [|by exists body].
      unfold revoked_to. rewrite Hoth' by eauto. by apply Hd.
  - destruct Hw2 as [Hm Hw2]. split; [left; by eapply may_fail_later|auto].
  - destruct Hw2 as [Hm Hw2]. split; [by eapply may_crash_later|auto].
Qed.

Lemma wp_revoke n w :
  wp (revoke n) (λ o w', match o with
    | Done k => k = count_active n (registry w) mod 2 ^ 64 ∧ registry_parses w ∧ revoking n (registry w) w w'
    | Failed e => (may_fail w ∨ ¬ registry_parses w ∨
          ∃ q r, (q, r) ∈ registry w ∧ toml_to_string_pretty (revoked_record r) = None) ∧ stopped n w w'
    | Crashed => may_crash w ∧ stopped n w w' end) w.
Proof.
  assert (Hst : ∀ w', same w w' → stopped n w w').
  { intros w' (Hf & _ & Hl). unfold stopped. rewrite Hf. split_and!; auto. }
  unfold revoke. apply wp_bind. eapply wp_mono; [apply wp_read_registry|].
  intros [reg|e|] w1 [Hs1 Ho]; [|naive_solver..]. destruct Ho as [-> Hok].
  apply (wp_foldM _ _ (λ k es w', ∃ pre, registry w = pre ++ es ∧
    k = count_active n pre mod 2 ^ 64 ∧ revoking n pre w w')).
  - exists []. split_and!; [done..|]. destruct Hs1 as (Hf & _ & Hl).
    split; [done|by intros; rewrite Hf..|]. by intros q r _ ?%elem_of_nil.
  - intros k [q r] es w2 (pre & Hreg & -> & Hrv).
    assert (Hin : ∀ e, e ∈ pre ++ [(q, r)] → e ∈ registry w) by (rewrite Hreg; set_solver).
    eapply wp_mono; [apply wp_revoke_entry; [done|done|]|].
    { pose proof (registry_paths_NoDup w) as Hnd. rewrite Hreg in Hnd.
      rewrite (app_assoc pre [_] es : pre ++ (q, r) :: es = _), fmap_app in Hnd.
      by apply NoDup_app in Hnd as (? & _). }
    intros [k'|e|] w3 Ho3.
    + destruct Ho3 as [-> Hrv3]. exists (pre ++ [(q, r)]). rewrite <- app_assoc.
      by split_and!.
    + destruct Ho3 as [[Hm|Hn] Hst3]; (split; [|done]); [by left|]. right; right.
      exists q, r. split; [|done]. apply Hin. set_solver.
    + done.
  - intros k w2 (pre & Hreg & -> & Hrv). rewrite app_nil_r in Hreg. by subst pre.
Qed.

Lemma revoke_stopped n w : stopped n w (revoke n w).2.
Proof.
  pose proof (wp_revoke n w) as Hw. unfold wp in Hw.
  destruct (revoke n w) as [[k|e|] w']; cbn [fst snd] in *; [|naive_solver..].
  destruct Hw as (_ & _ & Hrv). by eapply revoking_stopped.
Qed.
End identity_files.

(** ** What the operations do to a file *)

Section identity_leaves.
Context {Redb : RedbPkg Table} `{Blake3Pkg, RcgenPkg, TomlPkg}.
Abbreviation read_to_string := (AtomicFile.read_to_string Io).
Abbreviation write_atomic := (AtomicFile.write_atomic Io).
Context (R : relation (option File)) `{!PreOrder R} (p : FPath).
Abbreviation may_place := (may_place R p).

Lemma leaves_cert_op {A} (r : result RcgenError A) : leaves R p (cert_op r).
Proof. by apply leaves_lift. Qed.
Hint Resolve leaves_cert_op : leaves.

Lemma leaves_read_string path : leaves R p (read_string path).
Proof. apply leaves_bind; [done|auto with leaves|]. intros []; auto with leaves. Qed.
Hint Resolve leaves_read_string : leaves.

Lemma leaves_reads (m : M IdentityError (list (FPath * ClientRecord))) :
  m = read_registry → leaves R p m.
Proof.
  intros ->. apply leaves_same; [done|]. intros w.
  pose proof (wp_read_registry w) as [(Hf & _) _]. by rewrite Hf.
Qed.

Lemma leaves_active_client_named n : leaves R p (active_client_named n).
Proof. apply leaves_bind; [done|by apply leaves_reads|]. intros. apply leaves_ret; apply _. Qed.

Lemma leaves_mint_token {Rng} `{!CryptoRng Rng} (rng : Rng) :
  may_place (token_path (hex_bytes (vec_to_list (fill_bytes TOKEN_LEN rng).1))) →
  leaves R p (mint_token rng).2.
Proof.
  intros Hp. unfold mint_token. destruct (fill_bytes TOKEN_LEN rng) as [raw rng'].
  cbn [fst snd] in *. apply leaves_bind; [done|by apply leaves_write_atomic|auto with leaves].
Qed.

Lemma leaves_consume_token token : p ≠ token_path token → leaves R p (consume_token token).
Proof. intros Hne. by apply (leaves_file R p _ Io []). Qed.

(** The registry file of the certificate that an enrollment issues. *)
Definition issues (entropy : Entropy) (path : FPath) : Prop :=
  ∃ params key issuer cert,
    CSR_signed_by entropy (client_profile params) key issuer = Ok cert ∧
    path = client_path (blake3_hex (cert_der cert)).

Lemma leaves_enroll_client id entropy csr :
  (∀ path, issues entropy path → may_place path) → leaves R p (enroll_client id entropy csr).
Proof.
  intros Hi. unfold enroll_client. apply leaves_bind_Ok; [done|]. intros [params key] _.
  apply leaves_bind_Ok; [done|]. intros n _. apply leaves_bind; [done|apply leaves_active_client_named|].
  intros [|]; [auto with leaves|]. do 2 (apply leaves_bind_Ok; [done|]; intros ? _).
  apply leaves_bind_Ok; [done|]. intros cert Hc%map_err_Ok. apply leaves_bind_Ok; [done|]. intros body _.
  apply leaves_bind; [done| |auto with leaves]. apply leaves_write_atomic; [done|]. apply Hi.
  by repeat eexists.
Qed.

Lemma leaves_is_file path : leaves R p (is_file path).
Proof. by apply leaves_same. Qed.
Hint Resolve leaves_is_file : leaves.

(** What the bootstrap writes is in the identity directory itself. *)
Lemma leaves_open_or_init ca server : p.1 ≠ [] → leaves R p (open_or_init ca server).
Proof.
  intros Hp. assert (Hpl : ∀ n, may_place ([], n)) by (intros n; split; [by intros ->|by intros ->]).
  assert (Hw : ∀ n data restrict, leaves R p (write_atomic ([], n) data restrict))
    by auto using leaves_write_atomic.
  unfold open_or_init, open_or_init_ca, open_or_init_server, create_dir_all.
  leaf Hw.
Qed.

Lemma leaves_revoke n :
  p.1 ≠ CLIENTS_DIR ∨ (¬ is_tmp p ∧ ∀ f data, R f (Some (settled data))) → leaves R p (revoke n).
Proof.
  intros Hp w. destruct (revoke_stopped n w) as (_ & Hoth & Hst), Hp as [Hp|[Hp HR]]; [by rewrite Hoth|].
  destruct (Hst p Hp) as [->|(r & _ & _ & body & _ & ->)]; [done|auto].
Qed.
End identity_leaves.

(** ** Histories *)

Section identity_histories.
Context {Redb : RedbPkg Table} `{Blake3Pkg, RcgenPkg, TomlPkg} {Rng : Type} `{!CryptoRng Rng}.
Abbreviation read_to_string := (AtomicFile.read_to_string Io).
Abbreviation write_atomic := (AtomicFile.write_atomic Io).
Implicit Types (w : World) (p path : FPath) (token fp : bytes).

(** The operations that write. *)
Inductive IdOp :=
  | IdOpen (ca server : Entropy * Entropy)
  | IdMint (rng : Rng)
  | IdConsume (token : bytes)
  | IdEnroll (id : DaemonIdentity) (entropy : Entropy) (csr_pem : bytes)
  | IdRevoke (n : bytes).

(** The answer is that of [consume_token]. *)
Definition run (op : IdOp) : M IdentityError bool :=
  match op with
  | IdOpen ca server => open_or_init ca server;; mret false
  | IdMint rng => (mint_token rng).2;; mret false
  | IdConsume token => consume_token token
  | IdEnroll id entropy csr => enroll_client id entropy csr;; mret false
  | IdRevoke n => revoke n;; mret false
  end.

(** One operation under some fault schedule and, when the machine stops, its
    restart; an event says whether a token was accepted. *)
Inductive id_step : World → IdOp * bool → World → Prop :=
  | id_ends op fl w o w' :
      run op (set_faults fl w) = (o, w') → o ≠ Crashed →
      id_step w (op, match o with Done b => b | _ => false end) w'
  | id_stops op fl w w' keep :
      run op (set_faults fl w) = (Crashed, w') → id_step w (op, false) (reboot keep w').

Inductive id_history : World → list (IdOp * bool) → World → Prop :=
  | id_nil w : id_history w [] w
  | id_cons w e w1 h w2 : id_step w e w1 → id_history w1 h w2 → id_history w (e :: h) w2.

Definition minted_token (rng : Rng) : bytes := hex_bytes (vec_to_list (fill_bytes TOKEN_LEN rng).1).

(** The events that are about the token's file. *)
Definition mints token (e : IdOp * bool) : bool :=
  match e.1 with
  | IdMint rng => bool_decide (token_path (minted_token rng) = token_path token)
  | _ => false
  end.
Definition spends token (e : IdOp * bool) : bool :=
  match e with
  | (IdConsume token', true) => bool_decide (token_path token' = token_path token)
  | _ => false
  end.

Definition count_events (f : IdOp * bool → bool) (h : list (IdOp * bool)) : nat :=
  length (filter (λ e, f e = true) h).

Lemma reboot_lookup keep w p :
  files (reboot keep w) !! p = (λ f, if synced f then f
    else {| content := take (keep p) (content f); synced := true |}) <$> files w !! p.
Proof. cbn [reboot files]. rewrite map_lookup_imap. by destruct (files w !! p). Qed.

Lemma leaves_drop (R : relation (option File)) `{!PreOrder R} {A} p (m : M IdentityError A) :
  leaves R p m → leaves R p (m;; mret false).
Proof. intros Hm. apply leaves_bind; [done|done|]. intros. apply leaves_ret; apply _. Qed.

Definition outstanding token w : nat := if files w !! token_path token is Some _ then 1%nat else 0%nat.

Lemma client_path_ne_token fp token : client_path fp ≠ token_path token.
Proof. intros [=]. Qed.

Lemma token_path_not_tmp token token' : token_path token ≠ tmp_path (token_path token').
Proof.
  intros H'%(f_equal (length ∘ snd)). cbn in H'.
  unfold blake3_hex in H'. rewrite !length_hex_bytes, !length_vec_to_list in H'. lia.
Qed.

(** An operation that neither mints nor spends a token leaves its file alone. *)
Lemma run_leaves_token op token :
  (∀ rng, op = IdMint rng → token_path token ≠ token_path (minted_token rng)) →
  (∀ token', op = IdConsume token' → token_path token ≠ token_path token') →
  leaves eq (token_path token) (run op).
Proof.
  intros Hm Hc. destruct op; cbn [run].
  - apply leaves_drop; [apply _|]. by apply leaves_open_or_init; [apply _|].
  - apply leaves_drop, leaves_mint_token; [apply _..|]. split; [apply token_path_not_tmp|].
    intros E. by destruct (Hm rng).
  - apply leaves_consume_token; [apply _|]. by eapply Hc.
  - apply leaves_drop, leaves_enroll_client; [apply _..|].
    intros path (? & ? & ? & ? & _ & ->). split; [by intros [=]|by intros [=]].
  - apply leaves_drop, leaves_revoke; [apply _..|]. by left.
Qed.

(** A token's file is spent with it. *)
Lemma consume_spends token token' w :
  token_path token' = token_path token →
  wp (consume_token token') (λ o w',
    (outstanding token w' + (if o is Done true then 1 else 0) ≤ outstanding token w)%nat) w.
Proof.
  intros E. unfold consume_token, outstanding. rewrite <- E. apply wp_step.
  - intros w0 (Hf & _) _. cbn. rewrite lookup_delete_eq, Hf.
    destruct (files w !! token_path token'); cbn; lia.
  - intros n w0 _ (Hf & _) _. cbv beta. unfold untouched. rewrite Hf. lia.
  - intros [|n] w0 _ (Hf & _) _; cbn; rewrite ?lookup_delete_eq, ?Hf; [lia|].
    destruct (files w !! token_path token'); lia.
Qed.

Lemma run_tokens token op fl w o w' :
  run op (set_faults fl w) = (o, w') →
  (Nat.b2n (spends token (op, if o is Done b then b else false)) + outstanding token w' ≤
   Nat.b2n (mints token (op, false)) + outstanding token w)%nat.
Proof.
  intros Hrun. destruct (decide (mints token (op, false) = true)) as [Hm|Hm].
  { rewrite Hm. destruct op; try done. unfold outstanding. cbn [spends].
    destruct (files w' !! _), (files w !! _); cbn; lia. }
  destruct (decide (spends token (op, true) = true)) as [Hc|Hc].
  { destruct op as [| |token'| |]; try done. apply bool_decide_eq_true in Hc as E. pose proof (consume_spends token token' (set_faults fl w) E) as Hw. unfold wp in Hw.
    cbn [run] in Hrun. rewrite Hrun in Hw. cbn [fst snd] in Hw.
    change (outstanding token (set_faults fl w)) with (outstanding token w) in Hw.
    cbn [spends mints]. destruct o as [[]|e|]; cbn [spends Nat.b2n];
      rewrite ?bool_decide_true by done; cbn [Nat.b2n]; lia. }
  assert (Hl : leaves eq (token_path token) (run op)).
  { apply run_leaves_token.
    - intros rng -> E. apply Hm. cbn. by apply bool_decide_eq_true.
    - intros token' -> E. apply Hc. cbn. by apply bool_decide_eq_true. }
  specialize (Hl (set_faults fl w)). rewrite Hrun in Hl. cbn [snd] in Hl.
  unfold outstanding. rewrite <- Hl. change (files (set_faults fl w)) with (files w).
  assert (spends token (op, if o is Done b then b else false) = false) as ->; [|cbn; lia].
  destruct op as [| |token'| |]; try done. cbn [spends]. destruct o as [[]|e|]; try done.
  apply bool_decide_eq_false. intros E. apply Hc. cbn. by apply bool_decide_eq_true.
Qed.

Lemma id_step_tokens token w e w' :
  id_step w e w' →
  (Nat.b2n (spends token e) + outstanding token w' ≤ Nat.b2n (mints token e) + outstanding token w)%nat.
Proof.
  intros [op fl ? o w1 Hrun _|op fl ? w1 keep Hrun]; apply (run_tokens token) in Hrun; [done|].
  unfold outstanding in *. rewrite reboot_lookup. cbn in *. by destruct (files w1 !! _).
Qed.

Lemma id_history_tokens token w h w' :
  id_history w h w' →
  (count_events (spends token) h + outstanding token w' ≤
   count_events (mints token) h + outstanding token w)%nat.
Proof.
  unfold count_events. induction 1 as [|w e w1 h w2 Hstep%(id_step_tokens token) _ IH]; [done|].
  rewrite !filter_cons.
  destruct (spends token e), (mints token e); cbn [Nat.b2n decide] in *;
    repeat destruct (decide _); try done; cbn [length] in *; lia.
Qed.

(** C19. However often it is presented, and across failures, crashes and restarts
    of the daemon, a token is accepted at most as often as it was minted: one
    that was minted once buys at most one enrollment, and one that was never
    minted buys none. *)
Theorem token_spent_once token w h w' :
  files w !! token_path token = None → id_history w h w' →
  (count_events (spends token) h ≤ count_events (mints token) h)%nat.
Proof.
  intros Hn Hh. apply (id_history_tokens token) in Hh. unfold outstanding in Hh.
  rewrite Hn in Hh. lia.
Qed.
(** ** Revoked certificates *)

(** A file is replaced by a complete one, or removed. *)
Definition settles (f g : option File) : Prop :=
  g = f ∨ g = None ∨ ∃ data, g = Some (settled data).

#[local] Instance settles_preorder : PreOrder settles.
Proof. split; [by left|]. unfold settles. intros f g h. naive_solver. Qed.

Lemma client_path_not_tmp fp : ¬ is_tmp (client_path fp).
Proof.
  intros [n Hn]. unfold client_path in Hn. cbn [snd] in Hn.
  destruct (filter (λ b, is_ascii_alphanumeric b = true) fp) as [|b l] eqn:E; [done|].
  assert (is_ascii_alphanumeric b = true) as Hb.
  { assert (b ∈ b :: l) as Hin by by left. rewrite <- E in Hin. by apply list_elem_of_filter in Hin as [? _]. }
  injection Hn as -> _. done.
Qed.

Definition enrolls fp (op : IdOp) : Prop :=
  match op with IdEnroll _ entropy _ => issues entropy (client_path fp) | _ => False end.

Lemma not_tmp_ne p path : ¬ is_tmp p → p ≠ tmp_path path.
Proof. intros Hp ->. apply Hp, tmp_path_is_tmp. Qed.

Lemma run_settles op p : ¬ is_tmp p → p.1 = CLIENTS_DIR → leaves settles p (run op).
Proof.
  intros Hp Hd. assert (Hpl : ∀ path, may_place settles p path).
  { intros path. split; [by apply not_tmp_ne|]. right; right. eauto. }
  destruct op; cbn [run]; try apply leaves_drop; try apply _.
  - apply leaves_open_or_init; [apply _|]. by rewrite Hd.
  - apply leaves_mint_token; [apply _|done].
  - apply leaves_consume_token; [apply _|]. by intros ->.
  - apply leaves_enroll_client; [apply _|auto].
  - apply leaves_revoke; [apply _|]. right. split; [done|]. right; right. eauto.
Qed.

(** The certificate's entry is complete and revoked. *)
Definition revoked_at w fp : Prop :=
  (∀ f, files w !! client_path fp = Some f → synced f = true) ∧
  ∃ r, record_at w (client_path fp) = Some r ∧ revoked r = true.

Lemma revoked_at_lookup w w' fp :
  files w' !! client_path fp = files w !! client_path fp → revoked_at w fp → revoked_at w' fp.
Proof. unfold revoked_at, record_at. by intros ->. Qed.

Lemma run_keeps_revoked op fp w :
  ¬ enrolls fp op → revoked_at w fp → revoked_at (run op w).2 fp.
Proof.
  intros Hop Hr.
  assert (Hl : leaves eq (client_path fp) (run op) ∨ ∃ n, op = IdRevoke n).
  { assert (Hpl : ∀ path, client_path fp ≠ path → may_place eq (client_path fp) path)
      by (intros path Hne; split; [apply not_tmp_ne, client_path_not_tmp|done]).
    destruct op; cbn [run]; [left..|eauto]; try apply leaves_drop; try apply _.
    - by apply leaves_open_or_init; [apply _|].
    - apply leaves_mint_token; [apply _|]. apply Hpl, client_path_ne_token.
    - apply leaves_consume_token; [apply _|]. apply client_path_ne_token.
    - apply leaves_enroll_client; [apply _|]. intros path Hi. apply Hpl. by intros <-. }
  destruct Hl as [Hl|[n ->]]; [by eapply revoked_at_lookup; [by rewrite (Hl w)|]|].
  apply (revoked_at_lookup w); [|done]. destruct Hr as (_ & r & Hr & Hrev).
  cbn [run]. unfold mbind, M_bind.
  destruct (revoke_stopped n w) as (_ & _ & Hst).
  assert (E : files (revoke n w).2 !! client_path fp = files w !! client_path fp).
  { destruct (Hst _ (client_path_not_tmp fp)) as [|(r' & Hin & [_ Hact] & _)]; [done|].
    apply elem_of_registry in Hin as (_ & _ & Hin). congruence. }
  by destruct (revoke n w) as [[]].
Qed.

Lemma id_step_revoked w e w' fp :
  id_step w e w' → ¬ enrolls fp e.1 → revoked_at w fp → revoked_at w' fp.
Proof.
  intros Hstep He Hr.
  assert (Hrun : ∀ op fl o w1, ¬ enrolls fp op → run op (set_faults fl w) = (o, w1) → revoked_at w1 fp).
  { intros op fl o w1 Hop E. pose proof (run_keeps_revoked op fp (set_faults fl w) Hop) as Hk.
    rewrite E in Hk. apply Hk. by eapply revoked_at_lookup. }
  destruct Hstep as [op fl ? o w1 E _|op fl ? w1 keep E]; specialize (Hrun _ _ _ _ He E); [done|].
  eapply revoked_at_lookup, Hrun. rewrite reboot_lookup. destruct Hrun as [Hsy _].
  destruct (files w1 !! client_path fp) as [f|] eqn:Ef; [|done]. cbn. by rewrite Hsy.
Qed.

Lemma id_history_revoked w h w' fp :
  id_history w h w' → (∀ e, e ∈ h → ¬ enrolls fp e.1) → revoked_at w fp → revoked_at w' fp.
Proof.
  induction 1 as [|w e w1 h w2 Hstep _ IH]; [done|]. intros Hh Hr. apply IH.
  - intros e' He'. apply Hh. by right.
  - eapply id_step_revoked; [done|apply Hh; by left|done].
Qed.

(** Between operations, no entry is half written. *)
Lemma id_history_settled w h w' p :
  id_history w h w' → ¬ is_tmp p → p.1 = CLIENTS_DIR →
  (∀ f, files w !! p = Some f → synced f = true) →
  ∀ f, files w' !! p = Some f → synced f = true.
Proof.
  intros Hh Hp Hd. induction Hh as [|w e w1 h w2 Hstep _ IH]; [done|]. intros Hw. apply IH. clear IH.
  destruct Hstep as [op fl w o w1 E _|op fl w w1 keep E].
  - intros f Hf. pose proof (run_settles op p Hp Hd (set_faults fl w)) as Hs. rewrite E in Hs. cbn in Hs.
    destruct Hs as [Hs|[Hs|[data Hs]]]; rewrite Hs in Hf; [by apply Hw|done|by injection Hf as <-].
  - intros f. rewrite reboot_lookup. destruct (files w1 !! _) as [g|]; cbn; [|done].
    intros [= <-]. by destruct (synced g) eqn:?.
Qed.

(** The file names of fingerprints. *)
Lemma hex_bytes_alphanumeric bs : Forall (λ b, is_ascii_alphanumeric b = true) (hex_bytes bs).
Proof.
  induction bs as [|b bs IH]; [constructor|]. rewrite hex_bytes_cons. apply Forall_app; split; [|done].
  assert (∀ d, 0 ≤ d < 16 → is_ascii_alphanumeric (hex_digit d) = true) as Hd.
  { intros d Hd. unfold is_ascii_alphanumeric. rewrite hex_digit_value by done. unfold between.
    case_decide; repeat case_bool_decide; lia || done. }
  destruct (nibbles b). repeat constructor; auto.
Qed.

Lemma client_path_hex bs : client_path (hex_bytes bs) = (CLIENTS_DIR, hex_bytes bs ++ str ".toml").
Proof.
  unfold client_path. f_equal. f_equal. apply list_filter_all'. intros b Hb.
  by eapply Forall_forall in Hb; [|apply hex_bytes_alphanumeric].
Qed.

Lemma client_path_inj data data' :
  client_path (blake3_hex data) = client_path (blake3_hex data') → blake3_hex data = blake3_hex data'.
Proof. unfold blake3_hex. rewrite !client_path_hex. by intros [= E%app_inv_tail]. Qed.

Lemma extension_client_path cert : extension (client_path (blake3_hex cert)).2 = Some (str "toml").
Proof.
  unfold blake3_hex. rewrite client_path_hex. unfold extension. cbn [snd]. rewrite reverse_app.
  change (reverse (str ".toml")) with (str "lmot.").
  assert (take_while (λ b, bool_decide (b ≠ x2e)) (str "lmot." ++
    reverse (hex_bytes (vec_to_list (blake3_hash cert)))) = str "lmot") as -> by done.
  rewrite decide_True; [done|]. rewrite length_app, length_hex_bytes, length_vec_to_list. cbn. lia.
Qed.

(** A revocation that succeeded took effect. *)
Lemma revoke_revokes `{!TomlLaws} n w k w' cert r :
  revoke n w = (Done k, w') →
  (∀ f, files w !! client_path (blake3_hex cert) = Some f → synced f = true) →
  record_at w (client_path (blake3_hex cert)) = Some r → name r = n →
  revoked_at w' (blake3_hex cert).
Proof.
  intros E Hsy Hr Hn. set (p := client_path _) in *.
  pose proof (wp_revoke n w) as Hw. unfold wp in Hw. rewrite E in Hw. cbn [fst snd] in Hw.
  destruct Hw as (_ & _ & [_ _ Hs Hd]).
  assert (Hin : (p, r) ∈ registry w)
    by (apply elem_of_registry; split_and!; [apply extension_client_path|done|done]).
  destruct (revoked r) eqn:Hrev.
  - apply (revoked_at_lookup w); [|by split; eauto]. apply Hs; [apply client_path_not_tmp|].
    intros r' (_ & _ & Hr')%elem_of_registry [_ Hact]. fold p in Hr'. congruence.
  - destruct (Hd p r) as (body & Hb & Hf); [apply client_path_not_tmp|done|done|].
    split; fold p; [intros f; rewrite Hf; by intros [= <-]|]. exists (revoked_record r).
    unfold record_at. rewrite Hf. cbn. by rewrite (toml_utf8 _ _ Hb), (toml_from_to _ _ Hb).
Qed.

Lemma revoked_status w fp o w' :
  revoked_at w fp → client_status fp w = (Done o, w') → o = Revoked.
Proof.
  intros (_ & r & Hr & Hrev) E.
  assert (wp (client_status fp) (λ o _, ∀ s, o = Done s → s = Revoked) w) as Hw.
  { unfold client_status, client_record. apply wp_bind, wp_bind, wp_read_to_string; [|done..].
    intros w1 _. unfold record_at in Hr. destruct (files w !! _) as [f|]; [|done]. cbn in Hr.
    destruct (utf8_valid _); [|done]. rewrite Hr. cbn. intros s [= <-]. by rewrite Hrev. }
  unfold wp in Hw. rewrite E in Hw. by apply Hw.
Qed.

(** C17. A client that was revoked stays out: once [revoke] has answered, the
    certificates enrolled under that name have the status [Revoked] whatever
    happens next (other operations, storage faults, crashes and restarts), as
    long as no enrollment issues the same certificate again. *)
Theorem revoked_stays_revoked `{!TomlLaws} w0 h w n fl k w1 cert r h' w2 fl' s w3 :
  files w0 = ∅ → id_history w0 h w →
  revoke n (set_faults fl w) = (Done k, w1) →
  record_at w (client_path (blake3_hex cert)) = Some r → name r = n →
  id_history w1 h' w2 → (∀ e, e ∈ h' → ¬ enrolls (blake3_hex cert) e.1) →
  client_status (blake3_hex cert) (set_faults fl' w2) = (Done s, w3) → s = Revoked.
Proof.
  intros Hw0 Hh Hrev Hr Hn Hh' Hno. apply revoked_status.
  apply (revoked_at_lookup w2); [done|]. apply (id_history_revoked w1 h'); [done..|].
  eapply revoke_revokes; [exact Hrev| |exact Hr|exact Hn].
  intros f. change (files (set_faults fl w)) with (files w).
  eapply (id_history_settled w0); [exact Hh|apply client_path_not_tmp|done|].
  intros g. by rewrite Hw0, lookup_empty.
Qed.
(** ** Enrollment *)

Lemma wp_active_client_named n w :
  wp (active_client_named n) (λ o w', same w w' ∧ match o with
    | Done t => registry_parses w ∧
        (t = None ↔ ∀ p r, (p, r) ∈ registry w → ¬ active_as n r)
    | Failed e => may_fail w ∨ ¬ registry_parses w
    | Crashed => may_crash w end) w.
Proof.
  unfold active_client_named. apply wp_bind. eapply wp_mono; [apply wp_read_registry|].
  intros [reg|e|] w' [Hs Ho]; [|done..]. destruct Ho as [-> Hok]. apply wp_ret.
  split_and!; [done..|]. rewrite fmap_None, list_find_None, Forall_forall. split.
  - intros Hno p r Hin. by apply (Hno (p, r)).
  - intros Hno [p r] Hin. by eapply Hno.
Qed.

(** What enrollment changes, whatever happens: the new entry, of a name that was
    free. *)
Definition enrolled (n : bytes) (cert : Certificate) : ClientRecord :=
  {| name := n; fingerprint := blake3_hex (cert_der cert); revoked := false |}.

Lemma wp_enroll_client id entropy csr w :
  wp (enroll_client id entropy csr) (λ _ w',
    files w' = files w ∨ ∃ n cert body o, toml_to_string_pretty (enrolled n cert) = Some body ∧
      (∀ p r, (p, r) ∈ registry w → ¬ active_as n r) ∧
      placed (E := IdentityError) (client_path (blake3_hex (cert_der cert))) body w o w') w.
Proof.
  unfold enroll_client. apply wp_lift_bind.
  destruct (CSR_from_pem csr) as [[params key]|e]; [cbn [map_err]|by left].
  apply wp_lift_bind. destruct (common_name params) as [n|]; [cbn [ok_or]|by left].
  apply wp_bind. eapply wp_mono; [apply wp_active_client_named|].
  intros [t|e|] w1 [Hs1 Ho]; [|by left; apply Hs1..]. destruct Ho as [_ Ht].
  assert (files w1 = files w) as Hf by apply Hs1. destruct t as [|]; [by left|].
  apply wp_lift_bind. destruct (KeyPair_from_pem _) as [k|]; [cbn [map_err]|by left].
  apply wp_lift_bind. destruct (Issuer_from_ca_cert_pem _ _) as [i|]; [cbn [map_err]|by left].
  apply wp_lift_bind. destruct (CSR_signed_by _ _ _ _) as [cert|]; [cbn [map_err]|by left].
  fold (enrolled n cert). apply wp_lift_bind.
  destruct (toml_to_string_pretty _) as [body|] eqn:Eb; [cbn [ok_or]|by left].
  apply wp_bind. eapply wp_mono; [apply wp_write_atomic|]. intros o w2 (Hoth & Hl & Hp).
  assert (placed (client_path (blake3_hex (cert_der cert))) body w o w2) as Hpl.
  { destruct Hs1 as (_ & _ & Hl1). split_and!; [intros; by rewrite Hoth, ?Hf|by etrans|].
    rewrite <- Hf. destruct o; naive_solver eauto using may_fail_later, may_crash_later. }
  assert (Hno : ∀ p r, (p, r) ∈ registry w → ¬ active_as n r) by by apply Ht.
  destruct o as [[]|e|]; right; do 4 eexists; (split_and!; [exact Eb|done|exact Hpl]).
Qed.

(** ** Names are unique *)

(** No two certificates are active under one name (files that a stop left
    behind aside). *)
Definition names_unique w : Prop :=
  ∀ p q r s, ¬ is_tmp p → ¬ is_tmp q → (p, r) ∈ registry w → (q, s) ∈ registry w →
    revoked r = false → active_as (name r) s → p = q.

(** Every entry is as before, revoked, or of a name that was free. *)
Definition renewed w w' : Prop :=
  (∃ p0, ∀ p r, ¬ is_tmp p → (p, r) ∈ registry w' → revoked r = false →
    (p, r) ∈ registry w ∨ p = p0 ∧ ∀ q s, (q, s) ∈ registry w → ¬ active_as (name r) s).

Lemma names_renewed w w' : renewed w w' → names_unique w → names_unique w'.
Proof.
  intros [p0 Hnew] Hu p q r s Hp Hq Hr Hs Hact [En Es].
  destruct (Hnew p r Hp Hr Hact) as [Hr0|[-> Hr0]], (Hnew q s Hq Hs Es) as [Hs0|[-> Hs0]].
  - by eapply Hu.
  - destruct (Hs0 p r Hr0). by split.
  - by destruct (Hr0 q s Hs0).
  - done.
Qed.

Lemma registry_lookup w w' p r :
  files w' !! p = files w !! p → (p, r) ∈ registry w' → (p, r) ∈ registry w.
Proof. rewrite !elem_of_registry. unfold record_at. by intros ->. Qed.

(** A record that was written is read back. *)
Lemma record_settled `{!TomlLaws} w p body r :
  toml_to_string_pretty r = Some body → files w !! p = Some (settled body) → record_at w p = Some r.
Proof.
  intros Hb Hf. unfold record_at. rewrite Hf. cbn.
  by rewrite (toml_utf8 _ _ Hb), (toml_from_to _ _ Hb).
Qed.

Lemma renewed_same w w' :
  (∀ p, ¬ is_tmp p → p.1 = CLIENTS_DIR → files w' !! p = files w !! p) → renewed w w'.
Proof.
  intros Hf. exists ([], []). intros p r Hp Hr _. left. eapply registry_lookup; [|done].
  apply Hf; [done|]. by apply elem_of_registry in Hr as (_ & ? & _).
Qed.

(** What neither enrolls nor revokes leaves the registry alone. *)
Lemma run_other op p :
  match op with IdEnroll _ _ _ | IdRevoke _ => False | _ => True end →
  ¬ is_tmp p → p.1 = CLIENTS_DIR → leaves eq p (run op).
Proof.
  intros Hop Hp Hd. destruct op as [ca server|rng|token|id entropy csr|n]; [..|done|done].
  - apply leaves_drop; [apply _|]. apply leaves_open_or_init; [apply _|]. by rewrite Hd.
  - apply leaves_drop; [apply _|]. apply leaves_mint_token; [apply _|].
    split; [by apply not_tmp_ne|by intros ->].
  - apply leaves_consume_token; [apply _|]. by intros ->.
Qed.

Lemma drop_world {A} (m : M IdentityError A) w : ((m;; mret false : M IdentityError bool) w).2 = (m w).2.
Proof. unfold mbind, M_bind. by destruct (m w) as [[]]. Qed.

(** A record at a path that held another one, or none. *)
Lemma record_renewed `{!TomlLaws} w w' p body r r' :
  toml_to_string_pretty r = Some body →
  files w' !! p = files w !! p ∨ files w' !! p = Some (settled body) →
  (p, r') ∈ registry w' → (p, r') ∈ registry w ∨ r' = r.
Proof.
  intros Hb [Hq|Hq] Hr; [left; by eapply registry_lookup|right].
  apply (record_settled _ _ _ _ Hb) in Hq. apply elem_of_registry in Hr as (_ & _ & Hr). congruence.
Qed.

Lemma enroll_renewed `{!TomlLaws} id entropy csr w : renewed w (enroll_client id entropy csr w).2.
Proof.
  pose proof (wp_enroll_client id entropy csr w) as Hw. unfold wp in Hw.
  destruct Hw as [Hf|(n & cert & body & o & Hb & Hno & Hoth & _ & Ho)].
  { apply renewed_same. intros. by rewrite Hf. }
  exists (client_path (blake3_hex (cert_der cert))). intros p r Hp Hr Hact.
  destruct (decide (p = client_path (blake3_hex (cert_der cert)))) as [->|Hne].
  - edestruct (record_renewed w) as [Hr'| ->];
      [exact Hb|destruct o; naive_solver|exact Hr|by left|right; by split].
  - left. eapply registry_lookup; [|done]. apply Hoth; [done|]. by apply not_tmp_ne.
Qed.

Lemma run_renewed `{!TomlLaws} op w : renewed w (run op w).2.
Proof.
  assert (Hop : match op with IdEnroll _ _ _ | IdRevoke _ => False | _ => True end →
    renewed w (run op w).2).
  { intros Hop. apply renewed_same. intros p Hp Hd. symmetry. by apply (run_other op p). }
  destruct op as [ca server|rng|token|id entropy csr|n]; [by apply Hop..| |]; clear Hop;
    cbn [run]; rewrite drop_world.
  - apply enroll_renewed.
  - destruct (revoke_stopped n w) as (_ & _ & Hst). exists ([], []). intros p r Hp Hr Hact. left.
    destruct (Hst p Hp) as [Hq|(r0 & _ & _ & body & Hb & Hq)]; [by eapply registry_lookup|].
    destruct (record_renewed w _ _ _ _ r Hb (or_intror Hq) Hr) as [| ->]; done.
Qed.

(** A restart does not change the registry. *)
Lemma registry_reboot keep w p r :
  ¬ is_tmp p → (∀ f, files w !! p = Some f → synced f = true) →
  (p, r) ∈ registry (reboot keep w) → (p, r) ∈ registry w.
Proof.
  intros Hp Hs. apply registry_lookup. rewrite reboot_lookup.
  destruct (files w !! p) as [f|]; [|done]. cbn. by rewrite (Hs f).
Qed.

(** C20. Whatever happens (failures, crashes and restarts included), no two
    certificates are ever active under one name: an enrollment succeeds only
    under a name that is free, and only revoking frees a name. *)
Theorem active_names_unique `{!TomlLaws} w0 h w :
  files w0 = ∅ → id_history w0 h w → names_unique w.
Proof.
  intros Hw0 Hh.
  assert (Hs : ∀ p f, ¬ is_tmp p → p.1 = CLIENTS_DIR → files w0 !! p = Some f → synced f = true)
    by (intros p f; by rewrite Hw0, lookup_empty).
  assert (Hu : names_unique w0).
  { intros p q r s _ _ (_ & _ & Hr)%elem_of_registry. unfold record_at in Hr. by rewrite Hw0, lookup_empty in Hr. }
  clear Hw0. induction Hh as [|w e w1 h w2 Hstep Hh IH]; [done|].
  assert (Hrun : ∀ op fl w', w' = (run op (set_faults fl w)).2 →
    (∀ p f, ¬ is_tmp p → p.1 = CLIENTS_DIR → files w' !! p = Some f → synced f = true) ∧ names_unique w').
  { intros op fl w' ->. split; [|by eapply names_renewed; [apply run_renewed|]].
    intros p f Hp Hd Hf. destruct (run_settles op p Hp Hd (set_faults fl w)) as [E|[E|[data E]]];
      rewrite E in Hf; [by eapply Hs|done|by injection Hf as <-]. }
  destruct Hstep as [op fl w o w1 E _|op fl w w1 keep E];
    destruct (Hrun op fl w1) as [Hs1 Hu1]; try by rewrite E.
  - by apply IH.
  - apply IH.
    + intros p f Hp Hd. rewrite reboot_lookup. destruct (files w1 !! p) as [g|]; [|done]. cbn.
      intros [= <-]. by destruct (synced g) eqn:?.
    + intros p q r s Hp Hq Hr Hs' Hact. assert (Hd := Hr). assert (Hd' := Hs').
      apply elem_of_registry in Hd as (_ & Hd & _), Hd' as (_ & Hd' & _).
      apply registry_reboot in Hr, Hs'; [|by eauto..]. by eapply Hu1.
Qed.
(** ** Enrollment without faults *)

Definition taken (n : bytes) w : Prop := ∃ p r, (p, r) ∈ registry w ∧ active_as n r.

(** The standing that a certificate has, by the file of its fingerprint. *)
Definition standing w fp : outcome IdentityError ClientStatus :=
  match files w !! client_path fp with
  | None => Done Unknown
  | Some f =>
      if utf8_valid (content f) then
        match toml_from_str (content f) with
        | None => Failed (RegistryParse (client_path fp))
        | Some r => Done (if revoked r then Revoked else Active)
        end
      else Failed Io
  end.

Lemma client_status_standing w fp : faults w = [] → (client_status fp w).1 = standing w fp.
Proof.
  intros Hf. destruct (no_fault_fails w Hf) as [Hnf Hnc].
  assert (wp (client_status fp) (λ o _, o = standing w fp) w) as Hw; [|exact Hw].
  unfold client_status, client_record. apply wp_bind, wp_bind, wp_read_to_string; [|by intros..].
  intros w' _. unfold standing. destruct (files w !! client_path fp) as [f|]; [|done].
  destruct (utf8_valid (content f)); [|done]. by destruct (toml_from_str (content f)).
Qed.

(** An enrollment between faults: its answer and, when it succeeds, the entry. *)
Lemma wp_enroll_client_ok id entropy csr w params key n ca issuer cert body :
  faults w = [] → registry_parses w →
  CSR_from_pem csr = Ok (params, key) → common_name params = Some n →
  KeyPair_from_pem (ca_key_pem id) = Ok ca →
  Issuer_from_ca_cert_pem (ca_cert_pem id) ca = Ok issuer →
  CSR_signed_by entropy (client_profile params) key issuer = Ok cert →
  toml_to_string_pretty (enrolled n cert) = Some body →
  let fp := blake3_hex (cert_der cert) in
  wp (enroll_client id entropy csr) (λ o w',
    (taken n w → o = Failed (NameTaken n) ∧ files w' = files w) ∧
    (¬ taken n w →
      o = Done {| issued_pem := cert_pem cert; issued_name := n; issued_fingerprint := fp |} ∧
      placed (E := IdentityError) (client_path fp) body w (Done ()) w')) w.
Proof.
  intros Hfl Hparse Hcsr Hn Hca Hissuer Hcert Hbody fp.
  destruct (no_fault_fails w Hfl) as [Hnf Hnc].
  unfold enroll_client. apply wp_lift_bind. rewrite Hcsr. apply wp_lift_bind. rewrite Hn.
  apply wp_bind. eapply wp_mono; [apply wp_active_client_named|].
  intros [t|e|] w1 [Hs1 Ho]; [|naive_solver..]. destruct Ho as [_ Ht].
  destruct t as [t|].
  { apply wp_fail. split; [intros _; split; [done|apply Hs1]|]. intros Hno.
    discriminate (proj2 Ht). intros p r Hin Hact. apply Hno. by exists p, r. }
  do 4 (apply wp_lift_bind; rewrite ?Hca, ?Hissuer, ?Hcert; cbn [map_err]).
  fold (enrolled n cert). rewrite Hbody. cbn [ok_or].
  apply wp_bind. eapply wp_mono; [apply wp_write_atomic|]. intros o w2 (Hoth & Hl & Hp).
  destruct Hs1 as (Hf & _ & Hl1). destruct o as [[]|e|].
  2: { destruct Hp as [Hm _]. by apply (may_fail_later w) in Hm. }
  2: { destruct Hp as [Hm _]. by apply (may_crash_later w) in Hm. }
  apply wp_ret. split.
  - intros (p & r & Hin & Hact). by destruct (proj1 Ht eq_refl p r Hin).
  - intros _. split; [done|]. split_and!; [intros; by rewrite Hoth, ?Hf|by etrans|apply Hp..].
Qed.

(** Between faults, a well-formed request under a free name is answered with
    a certificate that is active from then on, under that name, and no other
    certificate's standing changes; under a taken name it is refused and nothing
    changes.  The certificate has the profile that the daemon enforces. *)
Theorem enroll_client_spec `{!TomlLaws} id entropy csr w params key n ca issuer cert body :
  faults w = [] → registry_parses w →
  CSR_from_pem csr = Ok (params, key) → common_name params = Some n →
  KeyPair_from_pem (ca_key_pem id) = Ok ca →
  Issuer_from_ca_cert_pem (ca_cert_pem id) ca = Ok issuer →
  CSR_signed_by entropy (client_profile params) key issuer = Ok cert →
  toml_to_string_pretty (enrolled n cert) = Some body →
  let fp := blake3_hex (cert_der cert) in
  let '(o, w') := enroll_client id entropy csr w in
  (taken n w → o = Failed (NameTaken n) ∧ files w' = files w) ∧
  (¬ taken n w →
    o = Done {| issued_pem := cert_pem cert; issued_name := n; issued_fingerprint := fp |} ∧
    (client_status fp w').1 = Done Active ∧
    ∀ other, blake3_hex other ≠ fp →
      (client_status (blake3_hex other) w').1 = (client_status (blake3_hex other) w).1).
Proof.
  intros Hfl Hparse Hcsr Hn Hca Hissuer Hcert Hbody fp.
  pose proof (wp_enroll_client_ok id entropy csr w params key n ca issuer cert body
    Hfl Hparse Hcsr Hn Hca Hissuer Hcert Hbody) as Hw. fold fp in Hw.
  unfold wp in Hw. destruct (enroll_client id entropy csr w) as [o w']. cbn [fst snd] in Hw.
  destruct Hw as [Htk Hfree]. split; [exact Htk|]. intros Hno. destruct (Hfree Hno) as [-> (Hoth & Hl & Hp & _)].
  split; [done|]. rewrite !client_status_standing by (done || by eapply no_faults). split.
  - unfold standing. rewrite Hp. cbn. by rewrite (toml_utf8 _ _ Hbody), (toml_from_to _ _ Hbody).
  - intros other Hne. rewrite !client_status_standing by (done || by eapply no_faults).
    unfold standing. rewrite Hoth; [done|by intros ?%client_path_inj|].
    apply not_tmp_ne, client_path_not_tmp.
Qed.
End identity_histories.

(** ** Concrete histories *)

Module Examples.
Import Reference IdentityReference.
Abbreviation Op := (IdOp (Rng := Z)).

Definition fresh : World := {| files := ∅; disk := ∅; work := ∅; faults := [] |}.

(** An operation and, when it was stopped, the restart that keeps [n] bytes. *)
Definition play1 (n : nat) (fl : list Fault) (op : Op) (w : World) : (Op * bool) * World :=
  match run op (set_faults fl w) with
  | (Done b, w') => ((op, b), w')
  | (Failed _, w') => ((op, false), w')
  | (Crashed, w') => ((op, false), reboot (λ _, n) w')
  end.

Fixpoint play (ops : list Op) (w : World) : list (Op * bool) * World :=
  match ops with
  | [] => ([], w)
  | op :: ops =>
      let '(e, w1) := play1 0 [] op w in
      let '(h, w2) := play ops w1 in (e :: h, w2)
  end.

Lemma play1_step n fl op w : id_step w (play1 n fl op w).1 (play1 n fl op w).2.
Proof.
  unfold play1. destruct (run op (set_faults fl w)) as [[b|e|] w'] eqn:E.
  - by apply (id_ends op fl w (Done b) w').
  - by apply (id_ends op fl w (Failed e) w').
  - by apply (id_stops op fl w w').
Qed.

Lemma play_history ops w : id_history w (play ops w).1 (play ops w).2.
Proof.
  revert w. induction ops as [|op ops IH]; intros w; cbn [play]; [constructor|].
  pose proof (play1_step 0 [] op w) as Hs. destruct (play1 0 [] op w) as [e w1].
  specialize (IH w1). destruct (play ops w1) as [h w2]. by econstructor.
Qed.

Definition daemon : DaemonIdentity := {|
  ca_cert_pem := str "ca"; ca_cert_der := str "ca"; ca_key_pem := str "key";
  server_cert_pem := str "server"; server_key_pem := str "key" |}.

(** A token is minted, spent and presented again. *)
Definition tok : bytes := minted_token 7.
Definition spending : list Op := [IdMint 7; IdConsume tok; IdConsume tok].

Lemma token_spent_once_witness :
  count_events (spends tok) (play spending fresh).1 = 1%nat ∧
  (count_events (spends tok) (play spending fresh).1 ≤
   count_events (mints tok) (play spending fresh).1)%nat.
Proof.
  split; [compute_eq|].
  apply (token_spent_once tok fresh _ (play spending fresh).2); [|apply play_history].
  change (files fresh) with (∅ : gmap FPath File). apply lookup_empty.
Defined.

(** A client enrolls; then it is revoked; then another one enrolls. *)
Definition one_client : list Op := [IdEnroll daemon (str "r1") (str "laptop")].
Definition laptop : bytes := str "r1laptop".
Definition desk : list Op := [IdEnroll daemon (str "r2") (str "desk")].

Lemma active_names_unique_witness : names_unique (play (one_client ++ desk) fresh).2.
Proof. exact (active_names_unique fresh _ _ eq_refl (play_history _ _)). Defined.

Definition two_clients : World := (play (one_client ++ desk) fresh).2.

Example two_clients_standing :
  (client_status (blake3_hex laptop) two_clients).1 = Done Active ∧
  (client_name (blake3_hex laptop) two_clients).1 = Done (Some (str "laptop")) ∧
  (client_status (blake3_hex (str "r2desk")) two_clients).1 = Done Active ∧
  (client_status (blake3_hex (str "r3")) two_clients).1 = Done Unknown.
Proof. split; [|split; [|split]]; compute_eq. Qed.

(** The first client is revoked under a failing disk that recovers; the daemon
    restarts and mints a token. *)
Definition after_revoke : World := (revoke (str "laptop") (set_faults [] two_clients)).2.

Lemma revoked_stays_revoked_witness :
  (revoke (str "laptop") (set_faults [] two_clients)).1 = Done 1 ∧
  (client_status (blake3_hex laptop) (set_faults [] (play [IdMint 7] after_revoke).2)).1 = Done Revoked ∧
  ∀ s, (client_status (blake3_hex laptop) (set_faults [] (play [IdMint 7] after_revoke).2)).1 = Done s →
    s = Revoked.
Proof.
  split; [|split]; [compute_eq..|]. intros s Hs.
  destruct (client_status (blake3_hex laptop) (set_faults [] (play [IdMint 7] after_revoke).2))
    as [o w3] eqn:E; cbn [fst] in Hs; subst o.
  apply (revoked_stays_revoked fresh (play (one_client ++ desk) fresh).1 two_clients (str "laptop") [] 1 after_revoke laptop
    {| name := str "laptop"; fingerprint := blake3_hex laptop; revoked := false |}
    (play [IdMint 7] after_revoke).1 (play [IdMint 7] after_revoke).2 [] s w3).
  - reflexivity.
  - apply play_history.
  - unfold after_revoke. rewrite surjective_pairing at 1. apply (f_equal (λ o, (o, _))). compute_eq.
  - compute_eq.
  - reflexivity.
  - apply play_history.
  - intros e He. assert (e.1 = IdMint 7) as -> by (apply list_elem_of_singleton in He; by subst). exact id.
  - exact E.
Defined.

Lemma enroll_client_spec_witness :
  let fp := blake3_hex (str "r2desk") in
  let '(o, w') := enroll_client daemon (str "r2") (str "desk") (play one_client fresh).2 in
  o = Done {| issued_pem := pem_of (str "r2desk"); issued_name := str "desk"; issued_fingerprint := fp |} ∧
  (client_status fp w').1 = Done Active.
Proof.
  pose proof (enroll_client_spec daemon (str "r2" : @Entropy rcgen) (str "desk") (play one_client fresh).2
    {| common_name_attr := Some (Utf8String (str "desk")); is_ca := NoCa; key_usages := [];
       extended_key_usages := []; subject_alt_names := [] |} (str "desk" : @PublicKey rcgen) (str "desk")
    (str "key" : @KeyPair rcgen) (str "ca" : @Issuer rcgen) {| cert_der := str "r2desk"; cert_pem := pem_of (str "r2desk") |}
    (x30 :: str "desk" ++ [x0a] ++ blake3_hex (str "r2desk"))) as Hs.
  destruct (enroll_client daemon (str "r2" : @Entropy rcgen) (str "desk") (play one_client fresh).2) as [o w'].
  assert (Hreg : registry (play one_client fresh).2 = [(client_path (blake3_hex laptop),
    {| name := str "laptop"; fingerprint := blake3_hex laptop; revoked := false |})])
    by (compute_eq).
  destruct Hs as [_ Hs].
  - compute_eq.
  - intros p Hp. assert (registry_files (play one_client fresh).2 = [client_path (blake3_hex laptop)]) as E
      by (compute_eq).
    rewrite E in Hp. apply list_elem_of_singleton in Hp as ->. vm_compute. by eexists.
  - reflexivity.
  - compute_eq.
  - reflexivity.
  - reflexivity.
  - reflexivity.
  - compute_eq.
  - destruct Hs as (Ho & Hst & _).
    + intros (p & r & Hin & [Hname _]). rewrite Hreg in Hin. apply list_elem_of_singleton in Hin as [= _ ->].
      vm_compute in Hname. discriminate.
    + exact (conj Ho Hst).
Defined.
End Examples.

(** ** Limits *)

Module Limits.
Import Reference IdentityReference Examples.

(** The machine stops while an enrollment writes its entry; after the restart a
    byte of the temporary file is left.  Its name ends in [.toml]: the registry
    takes it for an entry, so that neither enrolling nor revoking works until the
    file is removed by hand. *)
Definition torn : World :=
  (play1 1 (replicate 2 NoFault ++ [CrashAt 1]) (IdEnroll daemon (str "r1") (str "laptop")) fresh).2.

Example leftover_entry_blocks_the_registry :
  let path := tmp_path (client_path (blake3_hex laptop)) in
  (enroll_client daemon (str "r2") (str "desk") torn).1 = Failed (RegistryParse path) ∧
  (revoke (str "desk") torn).1 = Failed (RegistryParse path).
Proof. split; compute_eq. Qed.

(** The machine stops before the rename: the entry that is left makes the name
    taken, by a certificate that nobody has. *)
Definition phantom : World :=
  (play1 100 (replicate 4 NoFault ++ [CrashAt 0]) (IdEnroll daemon (str "r1") (str "laptop")) fresh).2.

Example leftover_entry_takes_the_name :
  (client_status (blake3_hex laptop) phantom).1 = Done Unknown ∧
  (enroll_client daemon (str "r2") (str "laptop") phantom).1 = Failed (NameTaken (str "laptop")).
Proof. split; compute_eq. Qed.

(** Two enrollments under one name, the second running between the first one's
    look at the registry and its write, are both accepted. *)
Definition entry_of (der : bytes) : bytes := x30 :: str "laptop" ++ [x0a] ++ blake3_hex der.

Example concurrent_enrollments_share_a_name :
  let w1 := active_client_named (str "laptop") fresh in
  let w2 := enroll_client daemon (str "r2") (str "laptop") w1.2 in
  let w3 := write_atomic Io (client_path (blake3_hex laptop)) (entry_of laptop) false w2.2 in
  w1.1 = Done None ∧
  (client_status (blake3_hex laptop) w3.2).1 = Done Active ∧
  (client_status (blake3_hex (str "r2laptop")) w3.2).1 = Done Active ∧
  ∃ c, (enroll_client daemon (str "r1") (str "laptop") fresh).1 = Done c ∧
    issued_fingerprint c = blake3_hex laptop.
Proof. split; [|split; [|split]]; [compute_eq..|]. eexists. split; [reflexivity|compute_eq]. Qed.
End Limits.
