(* ===== verification/Enroll.v ===== *)
(** * The client's state directory ([busyncr-client/src/enroll.rs])

    Enrollment as the client sees it, and the files that it leaves behind: the
    TLS key and certificate, the pinned CA certificate, the enrollment name, and
    the backup set's two secret keys.  The state directory is a directory of the
    client's file system ([StoreIO]; its database is not used here), and the
    daemon is what a TLS connection that trusts the pinned CA reaches. *)

From S2P Require Import Prelude External Text Base64 Chunking Crypto Rpc StoreIO StoreLogic AtomicFile Identity.

Definition CLIENT_KEY_FILE : bytes := str "client-key.pem".
Definition CLIENT_CERT_FILE : bytes := str "client-cert.pem".
Definition CA_CERT_FILE : bytes := str "ca-cert.pem".
Definition DATA_KEY_FILE : bytes := str "data.key".
Definition CHUNK_ID_KEY_FILE : bytes := str "chunk-id.key".
Definition ENROLLMENT_NAME_FILE : bytes := str "enrollment-name".

(** [io::ErrorKind], as far as the client tells kinds apart. *)
Inductive IoErrorKind := IoNotFound | IoOther.

(** The paths and the [io::Error] inside are left out, except its kind. *)
Inductive EnrollError `{RcgenPkg} :=
  | EnrollIo (kind : IoErrorKind)
  | Keygen (e : RcgenError)
  | Transport
  | EnrollRpc (c : Code)
  | BadResponse (msg : string)
  | BadDataKey (path : FPath) (found : Z).

Record EnrollmentRequest := {
  daemon_url : bytes;
  req_ca_cert_pem : bytes;
  token : bytes;
  req_name : bytes;
}.

Record EnrolledIdentity := {
  id_cert_pem : bytes;
  id_key_pem : bytes;
  id_ca_cert_pem : bytes;
  id_name : bytes;
}.

(** [CertificateParams::serialize_request(&key)?.pem()] of [rcgen]. *)
Class RcgenCsrPkg `{RcgenPkg} := serialize_request : CertificateParams → KeyPair → result RcgenError bytes.

(** What is at the other end: the connection is a TLS handshake that trusts
    exactly a CA certificate, and the call it allows without a client
    certificate. *)
Class EnrollServer (S : Type) := {
  connect : bytes → bytes → S → bool;
  rpc_enroll : bytes → bytes → S → result Code EnrollResponse * S;
}.

(** ** Enrollment *)

Section request.
Context `{RcgenPkg, !RcgenCsrPkg} {S : Type} `{!EnrollServer S}.

(** [distinguished_name.push(DnType::CommonName, name)]. *)
Definition push_common_name (n : bytes) (params : CertificateParams) : CertificateParams := {|
  common_name_attr := Some (Utf8String n);
  is_ca := is_ca params;
  key_usages := key_usages params;
  extended_key_usages := extended_key_usages params;
  subject_alt_names := subject_alt_names params;
|}.

Definition enroll_rpc (req : EnrollmentRequest) (csr_pem : bytes) : SE S EnrollError EnrollResponse :=
  λ s, let '(r, s) := rpc_enroll (token req) csr_pem s in (map_err EnrollRpc r, s).

Definition request_enrollment (req : EnrollmentRequest) (entropy : Entropy) :
    SE S EnrollError EnrolledIdentity :=
  key ← lift_result (map_err Keygen (KeyPair_generate entropy));
  params ← lift_result (map_err Keygen (CertificateParams_new []));
  let params := push_common_name (req_name req) params in
  csr_pem ← lift_result (map_err Keygen (serialize_request params key));
  connected ← gets (connect (daemon_url req) (req_ca_cert_pem req));
  (if (connected : bool) then mret () else throw Transport);;
  response ← enroll_rpc req csr_pem;
  if decide (trim (resp_cert_pem response) = []) then throw (BadResponse "empty certificate")
  else mret {|
    id_cert_pem := resp_cert_pem response;
    id_key_pem := KeyPair_serialize_pem key;
    id_ca_cert_pem := req_ca_cert_pem req;
    id_name := req_name req;
  |}.
End request.

(** ** The state directory *)

Section state_dir.
Context {Redb : RedbPkg Table} `{Blake3Pkg, RcgenPkg} {R : Type} `{!CryptoRng R}.
Abbreviation M := (M EnrollError).

Definition write_atomic (path : FPath) (data : bytes) (restrict : bool) : M unit :=
  AtomicFile.write_atomic (EnrollIo IoOther) path data restrict.

(** [fs::read_to_string] whose every error is wrapped. *)
Definition read_text (path : FPath) : M bytes :=
  body ← read_to_string (EnrollIo IoOther) path;
  match body with Some body => mret body | None => fail (EnrollIo IoNotFound) end.

(** It may also find no file. *)
Definition load_raw_key (path : FPath) : M (array 32) :=
  raw ← fs_read (EnrollIo IoOther) path;
  match raw with
  | None => fail (EnrollIo IoNotFound)
  | Some bs => lift (ok_or (BadDataKey path (len bs)) (array_of_list 32 bs))
  end.

(** [fs::metadata(path)]: whether it found something. *)
Definition metadata_found (path : FPath) : M bool :=
  step (EnrollIo IoOther) (λ w, (bool_decide (is_Some (files w !! path)), w)) untouched untouched.

Section operations.
Context (state_dir : bytes).
Definition in_state (file : bytes) : FPath := (state_dir, file).

Definition save_identity (identity : EnrolledIdentity) : M unit :=
  create_dir_all (EnrollIo IoOther);;
  write_atomic (in_state CLIENT_KEY_FILE) (id_key_pem identity) true;;
  write_atomic (in_state CLIENT_CERT_FILE) (id_cert_pem identity) false;;
  write_atomic (in_state CA_CERT_FILE) (id_ca_cert_pem identity) false;;
  write_atomic (in_state ENROLLMENT_NAME_FILE) (id_name identity) false.

Definition load_enrollment_name : M bytes := read_text (in_state ENROLLMENT_NAME_FILE).

Definition cert_fingerprint : M bytes :=
  pem ← read_text (in_state CLIENT_CERT_FILE);
  der ← lift (ok_or (BadResponse "client certificate is not valid PEM") (pem_to_der pem));
  mret (blake3_hex der).

(** [make] draws the key; the caller's source of randomness moves only when it
    is called. *)
Definition ensure_key_file (file_name : bytes) (make : R → array 32 * R) (rng : R) : M (bool * R) :=
  let path := in_state file_name in
  present ← metadata_found path;
  if (present : bool) then load_raw_key path;; mret (false, rng)
  else
    create_dir_all (EnrollIo IoOther);;
    let '(key, rng) := make rng in
    write_atomic path (vec_to_list key) true;;
    mret (true, rng).

Definition ensure_data_key (rng : R) : M (bool * R) :=
  '(data_key_created, rng) ← ensure_key_file DATA_KEY_FILE DataKey_generate rng;
  '(_, rng) ← ensure_key_file CHUNK_ID_KEY_FILE ChunkIdKey_generate rng;
  mret (data_key_created, rng).

Definition load_data_key : M DataKey := load_raw_key (in_state DATA_KEY_FILE).
Definition load_chunk_id_key : M ChunkIdKey := load_raw_key (in_state CHUNK_ID_KEY_FILE).

(** [connect_authenticated]: [dial] is the mTLS connection that these PEM texts
    (CA, certificate, key) make to a daemon. *)
Definition connect_authenticated {C} (dial : bytes → bytes → bytes → bytes → option C)
    (url : bytes) : M C :=
  ca ← read_text (in_state CA_CERT_FILE);
  cert ← read_text (in_state CLIENT_CERT_FILE);
  key ← read_text (in_state CLIENT_KEY_FILE);
  lift (ok_or Transport (dial url ca cert key)).
End operations.
End state_dir.
