(* ===== verification/EnrollTheorems.v ===== *)
(** * What holds of the client's state directory

    The secret keys are created once and never rotated, whatever fails; what
    enrollment saves is what the later commands load. *)

From S2P Require Import Prelude External Text Base64 Chunking Crypto Rpc StoreIO StoreLogic AtomicFile Identity Enroll.

Section state_files.
Context {Redb : RedbPkg Table} `{Blake3Pkg, RcgenPkg} {R : Type} `{!CryptoRng R}.
Implicit Types (w : World) (p path : FPath).

(** ** Reading *)

(** The key in the file at [path], or why there is none. *)
Definition raw_key w path : result EnrollError (array 32) :=
  match files w !! path with
  | None => Err (EnrollIo IoNotFound)
  | Some f => ok_or (BadDataKey path (len (content f))) (array_of_list 32 (content f))
  end.

Lemma raw_key_files w w' path : files w' !! path = files w !! path → raw_key w' path = raw_key w path.
Proof. unfold raw_key. by intros ->. Qed.

Lemma raw_key_settled w path (key : array 32) :
  files w !! path = Some (settled (vec_to_list key)) → raw_key w path = Ok key.
Proof. unfold raw_key. intros ->. cbn [settled content]. by rewrite array_of_vec. Qed.

Lemma raw_key_Ok w path key :
  raw_key w path = Ok key → ∃ f, files w !! path = Some f ∧ content f = vec_to_list key.
Proof.
  unfold raw_key. destruct (files w !! path) as [f|]; [|done]. intros Hk. exists f. split; [done|].
  destruct (array_of_list 32 (content f)) as [v|] eqn:E; [|done]. cbn in Hk. simplify_eq.
  by apply array_of_list_Some in E.
Qed.

Lemma raw_key_bad w path f :
  files w !! path = Some f → length (content f) ≠ 32%nat →
  raw_key w path = Err (BadDataKey path (len (content f))).
Proof.
  unfold raw_key. intros -> Hl. destruct (array_of_list 32 (content f)) as [v|] eqn:E; [|done].
  apply array_of_list_Some in E. rewrite <- E, length_vec_to_list in Hl. done.
Qed.

Lemma wp_load_raw_key path w :
  wp (load_raw_key path) (λ o w', same w w' ∧ match o with
    | Done key => raw_key w path = Ok key
    | Failed e => raw_key w path = Err e ∨ may_fail w ∧ e = EnrollIo IoOther
    | Crashed => may_crash w end) w.
Proof.
  unfold load_raw_key. apply wp_bind, wp_step_pure; [|by auto..].
  intros w' Hs _. pose proof Hs as (-> & _). unfold raw_key.
  destruct (files w !! path) as [f|]; cbn [fmap option_fmap option_map]; [|apply wp_fail; auto].
  destruct (array_of_list 32 (content f)); cbn [ok_or lift]; [by apply wp_ret|apply wp_fail; auto].
Qed.

Lemma wp_read_text path w :
  wp (read_text path) (λ o w', same w w' ∧ match o with
    | Done body => (content <$> files w !! path) = Some body
    | Failed e => may_fail w ∨ (files w !! path = None ∧ e = EnrollIo IoNotFound) ∨
        (∃ f, files w !! path = Some f ∧ utf8_valid (content f) = false)
    | Crashed => may_crash w end) w.
Proof.
  unfold read_text. apply wp_bind, wp_read_to_string; [|by auto..]. intros w' Hs.
  destruct (files w !! path) as [f|]; [|apply wp_fail; auto].
  destruct (utf8_valid (content f)) eqn:E; [by apply wp_ret|]. split; [done|]. eauto.
Qed.

(** ** The keys are created once *)

Section keys.
Context (state_dir : bytes).
Abbreviation data_path := (in_state state_dir DATA_KEY_FILE).
Abbreviation chunk_path := (in_state state_dir CHUNK_ID_KEY_FILE).

(** What [ensure_key_file] has done at [path], where it draws [key] from [rng]
    and leaves [rng']. *)
Definition ensured path (key : array 32) (rng rng' : R) w (o : outcome EnrollError (bool * R)) w' : Prop :=
  (∀ q, q ≠ path → q ≠ tmp_path path → files w' !! q = files w !! q) ∧ later w w' ∧
  match files w !! path with
  | Some f => files w' !! path = Some f ∧
      match o with
      | Done r => r = (false, rng) ∧ length (content f) = 32%nat
      | Failed e => may_fail w ∨ length (content f) ≠ 32%nat ∧ e = BadDataKey path (len (content f))
      | Crashed => may_crash w
      end
  | None =>
      match o with
      | Done r => r = (true, rng') ∧ files w' !! path = Some (settled (vec_to_list key))
      | Failed e => may_fail w ∧ files w' !! path = None
      | Crashed => may_crash w ∧
          (files w' !! path = None ∨ files w' !! path = Some (settled (vec_to_list key)))
      end
  end.

Lemma wp_ensure_present path w f :
  files w !! path = Some f →
  wp (load_raw_key path) (λ o w', same w w' ∧ match o with
    | Done _ => length (content f) = 32%nat
    | Failed e => may_fail w ∨ length (content f) ≠ 32%nat ∧ e = BadDataKey path (len (content f))
    | Crashed => may_crash w end) w.
Proof.
  intros Hf. eapply wp_mono; [apply wp_load_raw_key|]. intros o w' [Hs Ho]. split; [done|].
  unfold raw_key in Ho. rewrite Hf in Ho.
  destruct (array_of_list 32 (content f)) as [v|] eqn:E; cbn [ok_or] in Ho.
  - apply array_of_list_Some in E. rewrite <- E, length_vec_to_list. destruct o; naive_solver.
  - apply array_of_list_None in E. destruct o; naive_solver.
Qed.

Lemma wp_ensure_key_file file_name (make : R → array 32 * R) rng w :
  wp (ensure_key_file state_dir file_name make rng)
    (ensured (in_state state_dir file_name) (make rng).1 rng (make rng).2 w) w.
Proof.
  unfold ensure_key_file, metadata_found. set (path := in_state state_dir file_name).
  assert (Hother : ∀ w', same w w' → ∀ q, files w' !! q = files w !! q) by (by intros w' (-> & _) q).
  apply wp_bind, wp_step_pure.
  2, 3: intros w' Hm Hs; split_and!; [by auto|apply Hs|];
    rewrite (Hother w' Hs path); destruct (files w !! path); auto.
  intros w1 Hs1 _. rewrite (Hother w1 Hs1). destruct (files w !! path) as [f|] eqn:E.
  - rewrite bool_decide_true by eauto. apply wp_bind.
    eapply wp_mono; [by apply wp_ensure_present; rewrite (Hother w1 Hs1)|].
    intros o w2 [Hs2 Ho]. assert (Hs : same w w2) by by etrans.
    destruct o as [key|e|]; [apply wp_ret| |]; (split_and!; [by auto|apply Hs|]);
      rewrite E, (Hother w2 Hs), E; (split; [done|]); [done| |].
    + destruct Ho as [Hm|Ho]; [left|by right]. eapply may_fail_later; [apply Hs1|done].
    + eapply may_crash_later; [apply Hs1|done].
  - rewrite bool_decide_false by (by intros []).
    assert (Hbad : ∀ w' o, same w w' → match o with
      | Done _ => False | Failed _ => may_fail w | Crashed => may_crash w end →
      ensured path (make rng).1 rng (make rng).2 w o w').
    { intros w' o Hs Ho. split_and!; [by auto|apply Hs|]. rewrite E, (Hother w' Hs), E.
      destruct o; naive_solver. }
    apply wp_bind, wp_step_pure.
    2, 3: intros w' Hm Hs; apply Hbad; [by etrans|].
    2: eapply may_fail_later; [apply Hs1|done]. 2: eapply may_crash_later; [apply Hs1|done].
    intros w2 Hs2 _. destruct (make rng) as [key rng'] eqn:Em; cbn [fst snd] in *.
    assert (Hs : same w w2) by by etrans. apply wp_bind. eapply wp_mono; [apply wp_write_atomic|].
    intros o w3 (Hq & Hl & Ho). assert (later w w3) by (etrans; [apply Hs|done]).
    assert (Hq' : ∀ q, q ≠ path → q ≠ tmp_path path → files w3 !! q = files w !! q)
      by (intros q ??; by rewrite Hq, (Hother w2 Hs)).
    rewrite (Hother w2 Hs), E in Ho. destruct o as [[]|e|]; [apply wp_ret| |];
      (split_and!; [done..|]); rewrite E; [by split; [|apply Ho]| |];
      destruct Ho as [Hm Ho]; (split; [|done]).
    + eapply may_fail_later; [apply Hs|done].
    + eapply may_crash_later; [apply Hs|done].
Qed.
(** Names in the state directory. *)
Lemma in_state_ne a b : a ≠ b → in_state state_dir a ≠ in_state state_dir b.
Proof. intros Hne [= ?]. done. Qed.

Lemma tmp_in_state a : tmp_path (in_state state_dir a) = in_state state_dir (str ".tmp-" ++ a).
Proof. done. Qed.

Ltac names_differ := rewrite ?tmp_in_state; apply in_state_ne; vm_compute; discriminate.

(** Of the state directory, only key files that were not there may have changed,
    besides the two temporary ones, and they are whole. *)
Record creates_keys w w' : Prop := {
  ck_other p : p ∉ [data_path; chunk_path; tmp_path data_path; tmp_path chunk_path] →
    files w' !! p = files w !! p;
  ck_kept p f : p = data_path ∨ p = chunk_path → files w !! p = Some f → files w' !! p = Some f;
  ck_new p f : p = data_path ∨ p = chunk_path → files w !! p = None → files w' !! p = Some f →
    ∃ g : R, f = settled (vec_to_list (fill_bytes 32 g).1);
}.

Lemma creates_keys_trans w1 w2 w3 : creates_keys w1 w2 → creates_keys w2 w3 → creates_keys w1 w3.
Proof.
  intros [O1 K1 N1] [O2 K2 N2]. split.
  - intros p Hp. by rewrite O2, O1.
  - eauto.
  - intros p f Hp H1 H3. destruct (files w2 !! p) as [g|] eqn:E; [|eauto].
    rewrite (K2 p g Hp E) in H3. simplify_eq. eauto.
Qed.

Lemma ensured_creates file (g : R) rng rng' w o w' :
  file = DATA_KEY_FILE ∨ file = CHUNK_ID_KEY_FILE →
  ensured (in_state state_dir file) (fill_bytes 32 g).1 rng rng' w o w' → creates_keys w w'.
Proof.
  intros Hfile (Ho & _ & He). set (path := in_state state_dir file) in *.
  assert (Hp : ∀ p, p = data_path ∨ p = chunk_path → p = path ∨ files w' !! p = files w !! p).
  { intros p Hp. destruct (decide (p = path)) as [->|Hne]; [by left|right]. apply Ho; [done|].
    destruct Hfile as [-> | ->], Hp as [-> | ->]; names_differ. }
  split.
  - intros p Hn. apply Ho; intros ->; apply Hn; destruct Hfile as [-> | ->]; set_solver.
  - intros p f [-> | Hs]%Hp Hf; [|by rewrite Hs]. rewrite Hf in He. apply He.
  - intros p f [-> | Hs]%Hp Hn Hf; [|congruence]. rewrite Hn in He.
    destruct o as [r|e|]; [|naive_solver..]. exists g. destruct He. congruence.
Qed.

Lemma wp_ensure_data_key (rng : R) w :
  wp (ensure_data_key state_dir rng) (λ o w', creates_keys w w' ∧
  match o with
  | Done (created, rng') =>
      created = bool_decide (files w !! data_path = None) ∧
      ∃ dk ck, raw_key w' data_path = Ok dk ∧ raw_key w' chunk_path = Ok ck ∧
        (files w !! data_path = None → dk = (fill_bytes 32 rng).1)
  | Failed e => may_fail w ∨ ∃ p f, (p = data_path ∨ p = chunk_path) ∧ files w !! p = Some f ∧
      length (content f) ≠ 32%nat ∧ e = BadDataKey p (len (content f))
  | Crashed => may_crash w
  end) w.
Proof.
  pose proof (wp_ensure_key_file DATA_KEY_FILE DataKey_generate rng w) as H1.
  unfold wp in *. unfold ensure_data_key, mbind, M_bind.
  destruct (ensure_key_file state_dir DATA_KEY_FILE DataKey_generate rng w) as [o1 w1]; cbn [fst snd] in H1.
  pose proof (ensured_creates _ _ _ _ _ _ _ (or_introl eq_refl) H1) as Hc1.
  destruct H1 as (Ho1 & Hl1 & H1), o1 as [[created g]|e|].
  2: { split; [done|]. destruct (files w !! data_path) as [f|] eqn:E; [|left; apply H1].
       destruct H1 as [_ [Hm|[Hl ->]]]; [by left|]. right. exists data_path, f. auto. }
  2: { split; [done|]. destruct (files w !! data_path) as [f|]; apply H1. }
  pose proof (wp_ensure_key_file CHUNK_ID_KEY_FILE ChunkIdKey_generate g w1) as H2.
  unfold wp in H2.
  destruct (ensure_key_file state_dir CHUNK_ID_KEY_FILE ChunkIdKey_generate g w1) as [o2 w2]; cbn [fst snd] in H2.
  pose proof (ensured_creates _ _ _ _ _ _ _ (or_intror eq_refl) H2) as Hc2.
  destruct H2 as (Ho2 & Hl2 & H2).
  assert (Hcw : files w1 !! chunk_path = files w !! chunk_path) by (apply Ho1; names_differ).
  assert (Hdw : files w2 !! data_path = files w1 !! data_path) by (apply Ho2; names_differ).
  rewrite Hcw in H2.
  destruct o2 as [[created2 g2]|e|]; (split; [by eapply creates_keys_trans|]).
  - assert (created = bool_decide (files w !! data_path = None)) as Hcr.
    { destruct (files w !! data_path); [by destruct H1 as [_ [[= -> _] _]]|by destruct H1 as [[= -> _] _]]. }
    assert (∃ dk, raw_key w2 data_path = Ok dk ∧ (files w !! data_path = None → dk = (fill_bytes 32 rng).1)).
    { rewrite (raw_key_files w1 w2 _ Hdw). destruct (files w !! data_path) as [f|].
      - destruct H1 as [Hf [_ Hl]]. unfold raw_key. rewrite Hf.
        destruct (array_of_list_length 32 _ Hl) as [v ->]. by exists v.
      - destruct H1 as [_ Hf]. eexists. split; [by eapply raw_key_settled|done]. }
    assert (∃ ck, raw_key w2 chunk_path = Ok ck).
    { destruct (files w !! chunk_path) as [f|].
      - destruct H2 as [Hf [_ Hl]]. unfold raw_key. rewrite Hf.
        destruct (array_of_list_length 32 _ Hl) as [v ->]. by exists v.
      - destruct H2 as [_ Hf]. eexists. by eapply raw_key_settled. }
    naive_solver.
  - destruct (files w !! chunk_path) as [f|] eqn:E; [|left; eapply may_fail_later; [exact Hl1|apply H2]].
    destruct H2 as [_ [Hm|[Hl ->]]]; [left; by eapply may_fail_later; [exact Hl1|]|].
    right. exists chunk_path, f. auto.
  - eapply may_crash_later; [done|]. destruct (files w !! chunk_path); apply H2.
Qed.

(** Creating the backup set's keys never rotates one: in every outcome, a stop
    of the machine included, an existing key file is as it was, every other file
    but the two temporary ones is untouched, and a new key file is whole and
    synced.  When it answers, both files hold 32 bytes, a new data key is what the
    source of randomness gave, and the answer says whether it is new; between
    faults it fails only on a key file of a wrong size. *)
Theorem ensure_data_key_spec (rng : R) w :
  let '(o, w') := ensure_data_key state_dir rng w in
  creates_keys w w' ∧
  match o with
  | Done (created, rng') =>
      created = bool_decide (files w !! data_path = None) ∧
      ∃ dk ck, raw_key w' data_path = Ok dk ∧ raw_key w' chunk_path = Ok ck ∧
        (files w !! data_path = None → dk = (fill_bytes 32 rng).1)
  | Failed e => may_fail w ∨ ∃ p f, (p = data_path ∨ p = chunk_path) ∧ files w !! p = Some f ∧
      length (content f) ≠ 32%nat ∧ e = BadDataKey p (len (content f))
  | Crashed => may_crash w
  end.
Proof.
  pose proof (wp_ensure_data_key rng w) as Hw. unfold wp in Hw.
  by destruct (ensure_data_key state_dir rng w) as [o w'].
Qed.

(** ** What enrollment saves *)

Definition identity_files (id : EnrolledIdentity) : list (FPath * bytes) := [
  (in_state state_dir CLIENT_KEY_FILE, id_key_pem id);
  (in_state state_dir CLIENT_CERT_FILE, id_cert_pem id);
  (in_state state_dir CA_CERT_FILE, id_ca_cert_pem id);
  (in_state state_dir ENROLLMENT_NAME_FILE, id_name id)].

Lemma identity_targets_ok id : targets_ok (identity_files id).
Proof.
  split; cbn [identity_files fmap list_fmap fst].
  - repeat (apply NoDup_cons_2; [rewrite ?elem_of_cons, elem_of_nil; intros Hin;
      repeat destruct Hin as [Hin|Hin]; first [done|revert Hin; names_differ]|]). constructor.
  - intros p q Hp Hq. rewrite ?elem_of_cons, elem_of_nil in Hp, Hq.
    repeat destruct Hp as [->|Hp]; try done; repeat destruct Hq as [->|Hq]; first [done|names_differ].
Qed.

Lemma wp_save_identity id w :
  wp (save_identity state_dir id) (λ o w', match o with
    | Done _ => replaced (reverse (identity_files id)) (identity_files id) w w'
    | Failed _ => may_fail w ∧ ∃ done, replaced done (identity_files id) w w'
    | Crashed => may_crash w ∧ ∃ done, replaced done (identity_files id) w w'
    end) w.
Proof.
  pose proof (identity_targets_ok id) as Hok. unfold save_identity, write_atomic.
  apply wp_bind, wp_step_pure; [|intros w1 Hm Hs; split; [done|]; exists []; by apply replaced_start..].
  intros w1 Hs _. pose proof (replaced_start (identity_files id) _ _ Hs) as Hr.
  do 3 (apply wp_bind; eapply wp_replace; [exact Hok|by repeat constructor|exact Hr| |by intros; eauto..];
    clear dependent w1; intros w1 Hr).
  eapply wp_replace; [exact Hok|by repeat constructor|exact Hr|done|by intros; eauto..].
Qed.

Lemma read_text_settled path data w :
  faults w = [] → files w !! path = Some (settled data) → utf8_valid data = true →
  ∃ w', read_text path w = (Done data, w').
Proof.
  intros Hf Hd Hu. destruct (no_fault_fails w Hf) as [Hnf Hnc].
  pose proof (wp_read_text path w) as [_ Ho]. destruct (read_text path w) as [[body|e|] w']; cbn [fst snd] in Ho.
  - rewrite Hd in Ho. cbn in Ho. simplify_eq. eauto.
  - rewrite Hd in Ho. destruct Ho as [Hm|[[Hn _]|(f & Hs & Hi)]]; [done..|]. simplify_eq. cbn in Hi. congruence.
  - done.
Qed.

(** What was saved is read back. *)
Lemma saved_identity_loads id der w :
  faults w = [] → utf8_valid (id_cert_pem id) = true → utf8_valid (id_name id) = true →
  pem_to_der (id_cert_pem id) = Some der →
  ∃ w', save_identity state_dir id w = (Done (), w') ∧
    (∀ p data, (p, data) ∈ identity_files id → files w' !! p = Some (settled data)) ∧
    (cert_fingerprint state_dir w').1 = Done (blake3_hex der) ∧
    (load_enrollment_name state_dir w').1 = Done (id_name id).
Proof.
  intros Hf Hc Hn Hder. destruct (no_fault_fails w Hf) as [Hnf Hnc].
  pose proof (wp_save_identity id w) as Hw. unfold wp in Hw.
  destruct (save_identity state_dir id w) as [[[]|e|] w']; cbn [fst snd] in Hw; [|naive_solver..].
  assert (Hin : ∀ p data, (p, data) ∈ identity_files id → files w' !! p = Some (settled data)).
  { intros p data Hp. apply Hw, elem_of_reverse, Hp. }
  assert (Hf' : faults w' = []) by (eapply no_faults; [exact Hf|apply Hw]).
  exists w'. split_and!; [done|done|..].
  - unfold cert_fingerprint. destruct (read_text_settled (in_state state_dir CLIENT_CERT_FILE) (id_cert_pem id) w')
      as [w2 Hr]; [done|apply Hin; by repeat constructor|done|].
    unfold mbind, M_bind. rewrite Hr. by rewrite Hder.
  - unfold load_enrollment_name. destruct (read_text_settled (in_state state_dir ENROLLMENT_NAME_FILE) (id_name id) w')
      as [w2 Hr]; [done|apply Hin; by repeat constructor|done|]. by rewrite Hr.
Qed.
End keys.
End state_files.
