(* ===== verification/Keys.v ===== *)
(** * Keyfile export and import ([busyncr-client/src/keys.rs])

    The two halves of a migration: the backup set's keys leave the state
    directory of one machine in a keyfile, sealed under a passphrase ([Crypto]),
    and enter that of another, where differing keys are first moved aside. *)

From stdpp Require Import pretty.
From S2P Require Import Prelude External Text Chunking Crypto StoreIO StoreLogic AtomicFile Identity Enroll.

(** How many backup slots are tried. *)
Definition MAX_KEY_BACKUPS : nat := 1000.

Section keys.
Context {Redb : RedbPkg Table} `{Blake3Pkg, RcgenPkg, AeadPkg, Argon2Pkg} {R : Type} `{!CryptoRng R}.

(** The paths of I/O errors are left out. *)
Inductive KeyError :=
  | KeyIo (kind : IoErrorKind)
  | State (e : EnrollError)
  | KeyCrypto (e : CryptoError)
  | OutputExists (path : FPath)
  | NoBackupSlot (state_dir : bytes).

Inductive ImportOutcome :=
  | Installed
  | AlreadyCurrent
  | Replaced (backed_up : FPath).

Abbreviation M := (M KeyError).

(** [?] on a result of [enroll.rs]. *)
Definition enrolled_op {A} (m : StoreIO.M EnrollError A) : M A := with_error State m.

Definition export_key (state_dir : bytes) (output : FPath) (passphrase : bytes) (params : KdfParams)
    (rng : R) : M R :=
  data_key ← enrolled_op (load_data_key state_dir);
  chunk_id_key ← enrolled_op (load_chunk_id_key state_dir);
  occupied ← path_exists output;
  if (occupied : bool) then fail (OutputExists output)
  else
    let '(file, rng) := export_keyfile data_key chunk_id_key passphrase params rng in
    file ← lift (map_err KeyCrypto file);
    enrolled_op (write_atomic output file true);;
    mret rng.

Definition load_optional {A} (r : result EnrollError A) : result KeyError (option A) :=
  match r with
  | Ok key => Ok (Some key)
  | Err (EnrollIo IoNotFound) => Ok None
  | Err (BadDataKey _ _) => Ok None
  | Err other => Err (State other)
  end.

(** [fs::rename], its error wrapped. *)
Definition move_aside (from to : FPath) : M unit := rename (KeyIo IoOther) from to.

Section backup.
Context (state_dir : bytes) (data_path chunk_path : FPath).

(** [{file}.old-{n}]. *)
Definition backup_name (file : bytes) (n : N) : FPath :=
  in_state state_dir (file ++ str ".old-" ++ str (pretty n)).

(** The loop body of [back_up_existing_keys], once slot [n] is free. *)
Definition back_up_in (n : N) : M FPath :=
  let data_bak := backup_name DATA_KEY_FILE n in
  let chunk_bak := backup_name CHUNK_ID_KEY_FILE n in
  have_data ← path_exists data_path;
  preserved ← (if (have_data : bool)
               then move_aside data_path data_bak;; mret (Some data_bak) else mret None);
  have_chunk ← path_exists chunk_path;
  preserved ← (if (have_chunk : bool)
               then move_aside chunk_path chunk_bak;; mret (Some (default chunk_bak preserved))
               else mret preserved);
  lift (ok_or (NoBackupSlot state_dir) preserved).

(** The loop, with [slots] of them left to try. *)
Fixpoint try_slots (slots : nat) (n : N) : M FPath :=
  match slots with
  | O => fail (NoBackupSlot state_dir)
  | S slots =>
      data_taken ← path_exists (backup_name DATA_KEY_FILE n);
      chunk_taken ← path_exists (backup_name CHUNK_ID_KEY_FILE n);
      if (data_taken : bool) || (chunk_taken : bool) then try_slots slots (N.succ n)
      else back_up_in n
  end.

Definition back_up_existing_keys : M FPath := try_slots MAX_KEY_BACKUPS 1.
End backup.

Definition import_key (state_dir : bytes) (keyfile_path : FPath) (passphrase : bytes) :
    M ImportOutcome :=
  raw ← fs_read (KeyIo IoOther) keyfile_path;
  bs ← lift (ok_or (KeyIo IoNotFound) raw);
  '(imported_data, imported_chunk) ← lift (map_err KeyCrypto (import_keyfile bs passphrase));
  let data_path := in_state state_dir DATA_KEY_FILE in
  let chunk_path := in_state state_dir CHUNK_ID_KEY_FILE in
  data ← outcome_of (load_data_key state_dir);
  existing_data ← lift (load_optional data);
  chunk ← outcome_of (load_chunk_id_key state_dir);
  existing_chunk ← lift (load_optional chunk);
  if decide (existing_data = Some imported_data ∧ existing_chunk = Some imported_chunk)
  then mret AlreadyCurrent
  else
    have_data ← path_exists data_path;
    have_chunk ← path_exists chunk_path;
    result ← (if (have_data : bool) || (have_chunk : bool) then
                backed_up ← back_up_existing_keys state_dir data_path chunk_path;
                mret (Replaced backed_up)
              else create_dir_all (KeyIo IoOther);; mret Installed);
    enrolled_op (write_atomic data_path (vec_to_list imported_data) true);;
    enrolled_op (write_atomic chunk_path (vec_to_list imported_chunk) true);;
    mret result.
End keys.
