(* ===== verification/KeysTheorems.v ===== *)
(** * What holds of keyfile export and import

    No key material is ever lost: in every history of enrollments, exports and
    imports, with faults, crashes and restarts, a key that was once on disk is
    still there, under its own name or in a backup slot.  Between faults, import
    does what its outcome says, and a keyfile carries both keys from one machine
    to another. *)

From stdpp Require Import pretty.
From S2P Require Import Prelude External Text Chunking Crypto StoreIO StoreLogic AtomicFile Identity Enroll EnrollTheorems Keys.

(** ** Moving a file *)

Definition moved (from to : FPath) (fs : gmap FPath File) : gmap FPath File :=
  match fs !! from with Some f => <[to := f]> (delete from fs) | None => fs end.

Lemma moved_ne from to fs p : p ≠ from → p ≠ to → moved from to fs !! p = fs !! p.
Proof.
  intros Hf Ht. unfold moved. destruct (fs !! from); [|done].
  by rewrite lookup_insert_ne, lookup_delete_ne.
Qed.

Lemma moved_from from to fs : from ≠ to → moved from to fs !! from = None.
Proof.
  intros Hne. unfold moved. destruct (fs !! from) eqn:E; [|done].
  by rewrite lookup_insert_ne, lookup_delete_eq.
Qed.

Lemma moved_to from to fs f : fs !! from = Some f → moved from to fs !! to = Some f.
Proof. unfold moved. intros ->. by rewrite lookup_insert_eq. Qed.

Lemma moved_to_none from to fs : fs !! from = None → moved from to fs = fs.
Proof. unfold moved. by intros ->. Qed.

Section keys.
Context {Redb : RedbPkg Table} `{Blake3Pkg, RcgenPkg, AeadPkg, Argon2Pkg} {R : Type} `{!CryptoRng R}.
Context (state_dir : bytes).
Implicit Types (w : World) (p path : FPath) (n : N).
Abbreviation data_path := (in_state state_dir DATA_KEY_FILE).
Abbreviation chunk_path := (in_state state_dir CHUNK_ID_KEY_FILE).
Abbreviation data_bak := (backup_name state_dir DATA_KEY_FILE).
Abbreviation chunk_bak := (backup_name state_dir CHUNK_ID_KEY_FILE).

Ltac names_differ := rewrite ?tmp_in_state; apply in_state_ne; vm_compute; discriminate.

(** ** Names *)

Lemma backup_name_inj file a b : backup_name state_dir file a = backup_name state_dir file b → a = b.
Proof. intros E%(f_equal snd). cbn [snd] in E. by apply app_inv_head, app_inv_head, str_inj, (inj pretty) in E. Qed.

(** A file's own name and its backups. *)
Definition names (file : bytes) p : Prop := p = in_state state_dir file ∨ ∃ n, p = backup_name state_dir file n.

(** The names in the state directory that begin like a key file. *)
Lemma names_prefix file p : names file p → ∃ rest, p = in_state state_dir (file ++ rest).
Proof. intros [->|[n ->]]; [exists []; by rewrite app_nil_r|by eexists]. Qed.

Lemma data_chunk_ne p q : names DATA_KEY_FILE p → names CHUNK_ID_KEY_FILE q → p ≠ q.
Proof. intros [a ->]%names_prefix [b ->]%names_prefix. intros [=]. Qed.

Lemma backup_ne file n : in_state state_dir file ≠ backup_name state_dir file n.
Proof. intros E%(f_equal (length ∘ snd)). cbn in E. rewrite !length_app in E. cbn in E. lia. Qed.

Lemma names_self file : names file (in_state state_dir file).
Proof. by left. Qed.
Lemma names_backup file n : names file (backup_name state_dir file n).
Proof. right. by exists n. Qed.
Hint Resolve names_self names_backup : core.

(** ** The search for a slot *)

Definition slot_free w n : Prop := files w !! data_bak n = None ∧ files w !! chunk_bak n = None.

(** The slot that is used: the first free one of the first thousand. *)
Definition chosen w n : Prop :=
  (1 ≤ n ≤ 1000)%N ∧ slot_free w n ∧ ∀ m, (1 ≤ m < n)%N → ¬ slot_free w m.
Definition no_slot w : Prop := ∀ n, (1 ≤ n ≤ 1000)%N → ¬ slot_free w n.

Lemma chosen_unique w a b : chosen w a → chosen w b → a = b.
Proof.
  intros ([Ha _] & Hfa & Hma) ([Hb _] & Hfb & Hmb).
  destruct (N.lt_trichotomy a b) as [Hlt|[Heq|Hlt]]; [|done|].
  - by destruct (Hmb a).
  - by destruct (Hma b).
Qed.

Lemma try_slots_S k n w (dp cp : FPath) :
  try_slots state_dir dp cp (S k) n w =
    if decide (slot_free w n) then back_up_in state_dir dp cp n w
    else try_slots state_dir dp cp k (N.succ n) w.
Proof.
  change (try_slots state_dir dp cp (S k) n w) with
    ((if bool_decide (is_Some (files w !! data_bak n)) || bool_decide (is_Some (files w !! chunk_bak n))
      then try_slots state_dir dp cp k (N.succ n) else back_up_in state_dir dp cp n) w).
  unfold slot_free. destruct (files w !! data_bak n), (files w !! chunk_bak n); cbn;
    destruct (decide _) as [[??]|Hn]; try done. by destruct Hn.
Qed.

Lemma try_slots_run k n w (dp cp : FPath) :
  (∃ m, (n ≤ m < n + N.of_nat k)%N ∧ slot_free w m ∧ (∀ j, (n ≤ j < m)%N → ¬ slot_free w j) ∧
     try_slots state_dir dp cp k n w = back_up_in state_dir dp cp m w) ∨
  ((∀ j, (n ≤ j < n + N.of_nat k)%N → ¬ slot_free w j) ∧
     try_slots state_dir dp cp k n w = (Failed (NoBackupSlot state_dir), w)).
Proof.
  revert n. induction k as [|k IH]; intros n.
  { right. split; [lia|done]. }
  rewrite try_slots_S. destruct (decide (slot_free w n)) as [Hfree|Hn].
  - left. exists n. split; [lia|]. split; [done|]. split; [lia|done].
  - assert (Hstep : ∀ j, (n ≤ j)%N → j = n ∨ (N.succ n ≤ j)%N) by lia.
    destruct (IH (N.succ n)) as [(m & Hm & Hf & Hmin & Hrun)|[Hall Hrun]]; [left|right].
    + exists m. split; [lia|]. split; [done|]. split; [|done].
      intros j [[->|Hj]%Hstep Hlt]; [done|]. by apply Hmin.
    + split; [|done]. intros j [[->|Hj]%Hstep Hlt]; [done|]. apply Hall. lia.
Qed.

Lemma back_up_run w (dp cp : FPath) :
  (∃ n, chosen w n ∧ back_up_existing_keys state_dir dp cp w = back_up_in state_dir dp cp n w) ∨
  (no_slot w ∧ back_up_existing_keys state_dir dp cp w = (Failed (NoBackupSlot state_dir), w)).
Proof.
  destruct (try_slots_run MAX_KEY_BACKUPS 1 w dp cp) as [(m & Hm & Hf & Hmin & Hrun)|[Hall Hrun]];
    change (1 + N.of_nat MAX_KEY_BACKUPS)%N with 1001%N in *; [left|right].
  - exists m. split; [|done]. split; [lia|done].
  - split; [|done]. intros n Hn. apply Hall. lia.
Qed.

(** ** Moving the keys aside *)

Lemma wp_move_aside from to w (Q : outcome KeyError unit → World → Prop) :
  is_Some (files w !! from) →
  (∀ w', files w' = moved from to (files w) → later w w' → Q (Done ()) w') →
  (∀ e w', files w' = files w → later w w' → may_fail w → Q (Failed e) w') →
  (∀ w', files w' = files w ∨ files w' = moved from to (files w) → later w w' → may_crash w → Q Crashed w') →
  wp (move_aside from to) Q w.
Proof.
  intros [f Hf] HQ HF HC.
  assert (Hm : ∀ w0, same w w0 → files match files w0 !! from with
    | Some f => set_files (<[to := f]> (delete from (files w0))) w0
    | None => w0 end = moved from to (files w) ∧ later w match files w0 !! from with
    | Some f => set_files (<[to := f]> (delete from (files w0))) w0
    | None => w0 end).
  { intros w0 (Hfi & _ & Hl). unfold moved. rewrite Hfi, Hf. done. }
  apply wp_step; cbn.
  - intros w0 Hs _. apply HQ; by apply Hm.
  - intros n w0 Hmf (Hfi & _ & Hl) _. by apply HF.
  - intros [|n] w0 Hmc Hs _; (apply HC; [| |done]); [left; apply Hs|apply Hs|right; by apply Hm|by apply Hm].
Qed.

(** Both files, moved to slot [n]. *)
Definition data_moved n w := moved data_path (data_bak n) (files w).
Definition both_moved n w := moved chunk_path (chunk_bak n) (data_moved n w).

(** Some of the moves have been made. *)
Definition partly_moved n w w' : Prop :=
  later w w' ∧ (files w' = files w ∨ files w' = data_moved n w ∨ files w' = both_moved n w).

(** Where the answer says that the old key is. *)
Definition preserved n w : FPath :=
  match files w !! data_path with Some _ => data_bak n | None => chunk_bak n end.

Lemma data_chunk_moved n w : data_moved n w !! chunk_path = files w !! chunk_path.
Proof. apply moved_ne; apply not_eq_sym, data_chunk_ne; auto. Qed.

Lemma wp_move_chunk n w w1 (found : option FPath) :
  files w1 = data_moved n w → later w w1 →
  wp (have_chunk ← path_exists chunk_path;
      found ← (if (have_chunk : bool)
               then move_aside chunk_path (chunk_bak n);; mret (Some (default (chunk_bak n) found))
               else mret found);
      lift (ok_or (NoBackupSlot state_dir) found)) (λ o w', partly_moved n w w' ∧ match o with
    | Done p => files w' = both_moved n w ∧ p = default (chunk_bak n) found
    | Failed e => may_fail w ∨ found = None ∧ files w !! chunk_path = None
    | Crashed => may_crash w end) w1.
Proof.
  intros Hf Hl. pose proof (data_chunk_moved n w) as Hc. rewrite <- Hf in Hc.
  apply wp_bind, wp_path_exists. case_bool_decide as Hd.
  - apply wp_bind, wp_bind, wp_move_aside; [done|..]; rewrite Hf; fold (both_moved n w).
    + intros w2 Hf2 Hl2. apply wp_ret. split; [split; [by etrans|auto]|done].
    + intros e w2 Hf2 Hl2 Hm. split; [split; [by etrans|auto]|left; by eapply may_fail_later].
    + intros w2 Hf2 Hl2 Hm. split; [split; [by etrans|naive_solver]|by eapply may_crash_later].
  - assert (Hn : files w1 !! chunk_path = None) by by apply eq_None_not_Some.
    assert (Hb : both_moved n w = data_moved n w) by (apply moved_to_none; congruence).
    apply wp_bind, wp_ret. destruct found as [p|].
    + apply wp_ret. rewrite Hb. split; [split; auto|done].
    + apply wp_fail. split; [split; auto|right; split; [done|congruence]].
Qed.

Lemma wp_back_up_in n w :
  wp (back_up_in state_dir data_path chunk_path n) (λ o w', partly_moved n w w' ∧ match o with
    | Done p => files w' = both_moved n w ∧ p = preserved n w
    | Failed e => may_fail w ∨ files w !! data_path = None ∧ files w !! chunk_path = None
    | Crashed => may_crash w end) w.
Proof.
  unfold back_up_in. apply wp_bind, wp_path_exists. unfold preserved. case_bool_decide as Hd.
  - destruct Hd as [f Hd]. rewrite Hd. apply wp_bind, wp_bind, wp_move_aside; [by eexists|..].
    + intros w1 Hf1 Hl1. apply wp_ret. eapply wp_mono; [by apply wp_move_chunk|].
      intros o w2 [Hp Ho]. split; [done|]. destruct o; naive_solver.
    + intros e w1 Hf1 Hl1 Hm. split; [split; auto|by left].
    + intros w1 Hf1 Hl1 Hm. split; [split; [done|naive_solver]|done].
  - assert (Hn : files w !! data_path = None) by by apply eq_None_not_Some.
    rewrite Hn. apply wp_bind, wp_ret. eapply wp_mono; [apply wp_move_chunk; [|done]|].
    + symmetry. by apply moved_to_none.
    + intros o w2 [Hp Ho]. split; [done|]. destruct o; naive_solver.
Qed.

(** ** No key is lost *)

(** Every key file of [w] is in [w'], under one of its names. *)
Definition keeps w w' : Prop :=
  ∀ file p f, file = DATA_KEY_FILE ∨ file = CHUNK_ID_KEY_FILE → names file p →
    files w !! p = Some f → ∃ q, names file q ∧ files w' !! q = Some f.

#[global] Instance keeps_preorder : PreOrder keeps.
Proof.
  split; [intros w file p f _ ??; eauto|]. intros a b c Hab Hbc file p f Hfile Hp Hf.
  destruct (Hab file p f Hfile Hp Hf) as (q & Hq & Hf'). eauto.
Qed.

(** Writing elsewhere, or where there was nothing, keeps them. *)
Lemma keeps_other w w' :
  (∀ file p f, file = DATA_KEY_FILE ∨ file = CHUNK_ID_KEY_FILE → names file p →
     files w !! p = Some f → files w' !! p = Some f) → keeps w w'.
Proof. intros H' file p f Hfile Hp Hf. eauto. Qed.

Lemma moved_keeps file n p f fs :
  names file p → fs !! backup_name state_dir file n = None → fs !! p = Some f →
  ∃ q, names file q ∧ moved (in_state state_dir file) (backup_name state_dir file n) fs !! q = Some f.
Proof.
  intros Hp Hn Hf. destruct (decide (p = in_state state_dir file)) as [->|Hne].
  - exists (backup_name state_dir file n). split; [done|]. by apply moved_to.
  - exists p. split; [done|]. rewrite moved_ne; [done..|]. by intros ->; congruence.
Qed.

Lemma partly_moved_keeps n w w' : slot_free w n → partly_moved n w w' → keeps w w'.
Proof.
  intros [Hd Hc] [_ Hf].
  assert (Hdm : ∀ file p f, file = DATA_KEY_FILE ∨ file = CHUNK_ID_KEY_FILE → names file p →
    files w !! p = Some f → ∃ q, names file q ∧ data_moved n w !! q = Some f).
  { intros file p f [-> | ->] Hp Hpf; [by apply (moved_keeps _ _ p)|].
    exists p. split; [done|]. unfold data_moved. rewrite moved_ne; [done|..];
      apply not_eq_sym, data_chunk_ne; auto. }
  destruct Hf as [Hf|[Hf|Hf]]; intros file p f Hfile Hp Hpf; rewrite Hf; [eauto|by eapply Hdm|].
  destruct (Hdm file p f Hfile Hp Hpf) as (q & Hq & Hqf). destruct Hfile as [-> | ->].
  - exists q. split; [done|]. unfold both_moved. rewrite moved_ne; [done|..]; apply data_chunk_ne; auto.
  - apply (moved_keeps _ _ q); [done| |done]. unfold data_moved.
    rewrite moved_ne; [done|..]; apply not_eq_sym, data_chunk_ne; auto.
Qed.

(** ** Import *)

Lemma wp_existing {A} path (k : option (array 32) → M KeyError A) (Q : outcome KeyError A → World → Prop) w :
  (∀ w', same w w' → wp (k (result_ok (raw_key w path))) Q w') →
  (∀ e w', same w w' → may_fail w → Q (Failed e) w') →
  (∀ w', same w w' → may_crash w → Q Crashed w') →
  wp (r ← outcome_of (load_raw_key path); x ← lift (load_optional r); k x) Q w.
Proof.
  intros HQ HF HC. apply wp_bind, wp_outcome_of. eapply wp_mono; [apply wp_load_raw_key|].
  intros o w' [Hs Ho]. destruct o as [key|e|]; [| |by apply HC].
  - specialize (HQ w' Hs). rewrite Ho in HQ. exact HQ.
  - destruct Ho as [Ho|[Hm ->]]; [|by apply HF].
    specialize (HQ w' Hs). rewrite Ho in HQ. cbn [result_ok] in HQ.
    unfold raw_key in Ho. destruct (files w !! path) as [f|]; [|by injection Ho as <-].
    destruct (array_of_list 32 (content f)); [done|]. cbn in Ho. by injection Ho as <-.
Qed.

(** Both keys are in place, and other files are as in [fs]. *)
Definition written (dk ck : array 32) (fs : gmap FPath File) w' : Prop :=
  files w' !! data_path = Some (settled (vec_to_list dk)) ∧
  files w' !! chunk_path = Some (settled (vec_to_list ck)) ∧
  ∀ q, q ∉ [data_path; chunk_path; tmp_path data_path; tmp_path chunk_path] → files w' !! q = fs !! q.

Lemma key_targets_ok (dk ck : array 32) :
  targets_ok [(data_path, vec_to_list dk); (chunk_path, vec_to_list ck)].
Proof.
  split; cbn [fmap list_fmap fst].
  - apply NoDup_cons_2; [|apply NoDup_singleton]. rewrite list_elem_of_singleton. names_differ.
  - intros p q Hp Hq. rewrite !elem_of_cons, elem_of_nil in Hp, Hq.
    destruct Hp as [->|[->|[]]], Hq as [->|[->|[]]]; names_differ.
Qed.

Lemma wp_write_keys {A} (dk ck : array 32) (r : A) w (Q : outcome KeyError A → World → Prop) :
  files w !! data_path = None → files w !! chunk_path = None →
  (∀ w', later w w' → keeps w w' → written dk ck (files w) w' → Q (Done r) w') →
  (∀ e w', keeps w w' → may_fail w → Q (Failed e) w') →
  (∀ w', keeps w w' → may_crash w → Q Crashed w') →
  wp (enrolled_op (write_atomic data_path (vec_to_list dk) true);;
      enrolled_op (write_atomic chunk_path (vec_to_list ck) true);; mret r) Q w.
Proof.
  intros Hd Hc HQ HF HC. pose proof (key_targets_ok dk ck) as Hok.
  set (all := [(data_path, vec_to_list dk); (chunk_path, vec_to_list ck)]) in *.
  assert (Hkeep : ∀ done w', replaced done all w w' → keeps w w').
  { intros done w' [_ O _ _ _]. apply keeps_other. intros file p f Hfile Hp Hf. rewrite O; [done|..].
    - unfold all. cbn [fmap list_fmap fst]. rewrite !elem_of_cons, elem_of_nil.
      intros [->|[->|[]]]; congruence.
    - unfold all. cbn [fmap list_fmap fst]. rewrite !elem_of_cons, elem_of_nil.
      apply names_prefix in Hp as [rest ->]. rewrite !tmp_in_state.
      destruct Hfile as [-> | ->]; intros [[=]|[[=]|[]]]. }
  unfold enrolled_op, write_atomic.
  assert (Hs : same w w) by reflexivity. pose proof (replaced_start all _ _ Hs) as Hr.
  apply wp_bind, wp_with_error. eapply wp_replace; [exact Hok|by repeat constructor|exact Hr|..];
    [clear Hr|by intros; eauto..]. intros w1 Hr.
  apply wp_bind, wp_with_error. eapply wp_replace; [exact Hok|by repeat constructor|exact Hr|..];
    [clear Hr|by intros; eauto..]. intros w2 Hr.
  apply wp_ret, HQ; [apply Hr|by eapply Hkeep|]. destruct Hr as [_ O _ D _]. split_and!.
  - apply D. by repeat constructor.
  - apply D. by repeat constructor.
  - intros q. rewrite !not_elem_of_cons. intros (? & ? & ? & ? & _). apply O; unfold all; cbn [fmap list_fmap fst];
      rewrite !elem_of_cons, elem_of_nil; tauto.
Qed.

(** The local keys are the ones in hand. *)
Definition current (dk ck : array 32) w : Prop := raw_key w data_path = Ok dk ∧ raw_key w chunk_path = Ok ck.

(** What an import that answers [r] has done. *)
Definition imported (dk ck : array 32) w (r : ImportOutcome) w' : Prop :=
  match r with
  | AlreadyCurrent => current dk ck w ∧ files w' = files w
  | Installed => files w !! data_path = None ∧ files w !! chunk_path = None ∧ written dk ck (files w) w'
  | Replaced old => ¬ current dk ck w ∧
      (is_Some (files w !! data_path) ∨ is_Some (files w !! chunk_path)) ∧
      ∃ n, chosen w n ∧ old = preserved n w ∧ written dk ck (both_moved n w) w'
  end.

(** Why an import is refused, when no fault is. *)
Definition refused (keyfile_path : FPath) (passphrase : bytes) w (e : KeyError) : Prop :=
  match files w !! keyfile_path with
  | None => e = KeyIo IoNotFound
  | Some f =>
      match import_keyfile (content f) passphrase with
      | Err ce => e = KeyCrypto ce
      | Ok (dk, ck) => e = NoBackupSlot state_dir ∧ no_slot w ∧ ¬ current dk ck w
      end
  end.

Lemma keeps_same w w' : files w' = files w → keeps w w'.
Proof. intros Hf. apply keeps_other. intros. by rewrite Hf. Qed.

Lemma both_moved_none n w : both_moved n w !! data_path = None ∧ both_moved n w !! chunk_path = None.
Proof.
  split; unfold both_moved; [|apply moved_from, backup_ne].
  rewrite moved_ne by (apply data_chunk_ne; auto). apply moved_from, backup_ne.
Qed.

Lemma chosen_files w w' n : files w' = files w → chosen w' n ↔ chosen w n.
Proof. unfold chosen, slot_free. by intros ->. Qed.

Lemma no_slot_files w w' : files w' = files w → no_slot w' ↔ no_slot w.
Proof. unfold no_slot, slot_free. by intros ->. Qed.

(** What follows once the keyfile and the local keys have been read. *)
Definition install (dk ck : array 32) : M KeyError ImportOutcome :=
  have_data ← path_exists data_path;
  have_chunk ← path_exists chunk_path;
  result ← (if (have_data : bool) || (have_chunk : bool) then
              backed_up ← back_up_existing_keys state_dir data_path chunk_path;
              mret (Replaced backed_up)
            else create_dir_all (KeyIo IoOther);; mret Installed);
  enrolled_op (write_atomic data_path (vec_to_list dk) true);;
  enrolled_op (write_atomic chunk_path (vec_to_list ck) true);;
  mret result.

Section install.
Context (dk ck : array 32) w (Q : outcome KeyError ImportOutcome → World → Prop).
Context (Hcur : ¬ current dk ck w).
Context (HQ : ∀ r w', keeps w w' → imported dk ck w r w' → Q (Done r) w').
Context (HF : ∀ e w', keeps w w' → may_fail w → Q (Failed e) w').
Context (HN : ∀ w', files w' = files w → no_slot w → Q (Failed (NoBackupSlot state_dir)) w').
Context (HC : ∀ w', keeps w w' → may_crash w → Q Crashed w').

(** The writes, once the way is clear. *)
Lemma wp_install_writes r w1 :
  later w w1 → keeps w w1 → files w1 !! data_path = None → files w1 !! chunk_path = None →
  (∀ w', written dk ck (files w1) w' → imported dk ck w r w') →
  wp (enrolled_op (write_atomic data_path (vec_to_list dk) true);;
      enrolled_op (write_atomic chunk_path (vec_to_list ck) true);; mret r) Q w1.
Proof.
  intros Hl Hk Hd Hc Hr. apply wp_write_keys; [done..| | |].
  - intros w2 _ Hk2 Hw2. apply HQ; [by etrans|auto].
  - intros e w2 Hk2 Hm. apply HF; [by etrans|by eapply may_fail_later].
  - intros w2 Hk2 Hm. apply HC; [by etrans|by eapply may_crash_later].
Qed.

Lemma wp_install_over w1 :
  files w1 = files w → later w w1 → is_Some (files w !! data_path) ∨ is_Some (files w !! chunk_path) →
  wp (backed_up ← back_up_existing_keys state_dir data_path chunk_path; mret (Replaced backed_up))
    (λ o w', match o with
     | Done r => wp (enrolled_op (write_atomic data_path (vec_to_list dk) true);;
         enrolled_op (write_atomic chunk_path (vec_to_list ck) true);; mret r) Q w'
     | Failed e => Q (Failed e) w' | Crashed => Q Crashed w' end) w1.
Proof.
  intros Hf Hl Hex. apply wp_bind. unfold wp at 1.
  destruct (back_up_run w1 data_path chunk_path) as [(n & Hn & ->)|[Hn ->]].
  2: { apply HN; [done|]. by rewrite (no_slot_files w) in Hn. }
  rewrite (chosen_files w) in Hn by done.
  assert (Hfree1 : slot_free w1 n) by (unfold slot_free; rewrite Hf; apply Hn).
  assert (Hk1 : keeps w w1) by by apply keeps_same.
  eapply (wp_mono (back_up_in state_dir data_path chunk_path n)); [apply wp_back_up_in|].
  intros o w2 [Hpm Ho]. pose proof (partly_moved_keeps n w1 w2 Hfree1 Hpm) as Hk2.
  destruct Hpm as [Hl2 _]. assert (later w w2) by by etrans. assert (keeps w w2) by by etrans.
  destruct o as [old|e|].
  - destruct Ho as [Hf2 ->]. unfold both_moved, data_moved in Hf2. rewrite Hf in Hf2.
    fold (data_moved n w) in Hf2. fold (both_moved n w) in Hf2.
    assert (preserved n w1 = preserved n w) as -> by (unfold preserved; by rewrite Hf).
    apply wp_ret. destruct (both_moved_none n w).
    apply wp_install_writes; rewrite ?Hf2; [done..|]. intros w3 Hw3. split_and!; [done..|]. by exists n.
  - destruct Ho as [Hm|Hno]; [apply HF; [done|by apply (may_fail_later w w1)]|].
    rewrite Hf in Hno. destruct Hno as [Hd Hc]. rewrite Hd, Hc in Hex. by destruct Hex as [[? [=]]|[? [=]]].
  - apply HC; [done|by apply (may_crash_later w w1)].
Qed.

Lemma wp_install_keys w1 : files w1 = files w → later w w1 → wp (install dk ck) Q w1.
Proof.
  intros Hf Hl. unfold install. apply wp_bind, wp_path_exists, wp_bind, wp_path_exists. rewrite Hf.
  destruct (decide (is_Some (files w !! data_path) ∨ is_Some (files w !! chunk_path))) as [Hex|Hno].
  - assert ((bool_decide (is_Some (files w !! data_path)) || bool_decide (is_Some (files w !! chunk_path)))%bool
      = true) as ->.
    { destruct (files w !! data_path), (files w !! chunk_path); try done. by destruct Hex as [[? [=]]|[? [=]]]. }
    apply wp_bind. by apply wp_install_over.
  - assert (Hd : files w !! data_path = None) by (apply eq_None_not_Some; tauto).
    assert (Hc : files w !! chunk_path = None) by (apply eq_None_not_Some; tauto).
    rewrite Hd, Hc. apply wp_bind, wp_bind, wp_step_pure.
    2, 3: intros w2 Hm Hs2; pose proof Hs2 as (Hf2 & _).
    2: apply HF; [apply keeps_same; congruence|by eapply may_fail_later].
    2: apply HC; [apply keeps_same; congruence|by eapply may_crash_later].
    intros w2 (Hf2 & _ & Hl2) _. apply wp_ret. rewrite Hf in Hf2.
    apply wp_install_writes; rewrite ?Hf2; [by etrans|by apply keeps_same|done..].
Qed.
End install.

Lemma wp_import_key keyfile_path passphrase w :
  wp (import_key state_dir keyfile_path passphrase) (λ o w', keeps w w' ∧ match o with
    | Done r => ∃ f dk ck, files w !! keyfile_path = Some f ∧
        import_keyfile (content f) passphrase = Ok (dk, ck) ∧ imported dk ck w r w'
    | Failed e => may_fail w ∨ files w' = files w ∧ refused keyfile_path passphrase w e
    | Crashed => may_crash w
    end) w.
Proof.
  unfold import_key. apply wp_bind, wp_step_pure.
  2, 3: intros w1 Hm (Hf & _); split; [by apply keeps_same|auto].
  intros w1 Hs1 _. pose proof Hs1 as (Hf1 & _ & Hl1). rewrite Hf1.
  assert (Href : ∀ e, refused keyfile_path passphrase w e → keeps w w1 ∧
    (may_fail w ∨ files w1 = files w ∧ refused keyfile_path passphrase w e)).
  { intros e He. split; [by apply keeps_same|by right]. }
  unfold refused in Href at 1. apply wp_lift_bind.
  destruct (files w !! keyfile_path) as [f|] eqn:Ef; cbn [fmap option_fmap option_map ok_or]; [|by apply Href].
  apply wp_lift_bind. destruct (import_keyfile (content f) passphrase) as [[dk ck]|ce] eqn:Ei;
    cbn [map_err]; [clear Href|by apply Href].
  assert (Hfail : ∀ (e : KeyError) w2, same w w2 → may_fail w → keeps w w2 ∧
    (may_fail w ∨ files w2 = files w ∧ refused keyfile_path passphrase w e)).
  { intros e w2 (Hf2 & _) Hm. split; [by apply keeps_same|by left]. }
  assert (Hcrash : ∀ w2, same w w2 → may_crash w → keeps w w2 ∧ may_crash w).
  { intros w2 (Hf2 & _) Hm. split; [by apply keeps_same|done]. }
  unfold load_data_key. apply wp_existing.
  2: intros e w2 Hs Hm; apply Hfail; [by etrans|by eapply may_fail_later].
  2: intros w2 Hs Hm; apply Hcrash; [by etrans|by eapply may_crash_later].
  intros w2 Hs2. assert (Hw2 : same w w2) by by etrans. unfold load_chunk_id_key. apply wp_existing.
  2: intros e w3 Hs Hm; apply Hfail; [by etrans|eapply may_fail_later; [apply Hw2|done]].
  2: intros w3 Hs Hm; apply Hcrash; [by etrans|eapply may_crash_later; [apply Hw2|done]].
  intros w3 Hs3. assert (Hw3 : same w w3) by by etrans. destruct Hw3 as (Hf3 & _ & Hl3).
  rewrite (raw_key_files w w1) by by rewrite Hf1.
  rewrite (raw_key_files w w2) by by rewrite (proj1 Hw2).
  destruct (decide _) as [Hcur|Hcur]; [apply wp_ret; split; [by apply keeps_same|]|].
  - exists f, dk, ck. split; [done|]. split; [done|]. split; [|done].
    split; apply result_ok_Some, Hcur.
  - assert (¬ current dk ck w) by (intros [Hd Hc]; apply Hcur; by rewrite Hd, Hc).
    apply (wp_install_keys dk ck w); try done.
    + intros r w4 Hk Hi. split; [done|]. by exists f, dk, ck.
    + intros e w4 Hk Hm. split; [done|by left].
    + intros w4 Hf4 Hn. split; [by apply keeps_same|right]. split; [done|].
      unfold refused. by rewrite Ef, Ei.
Qed.


(** Two imports that both answer have the keys of their keyfiles in place. *)
Lemma imported_keys dk ck w r w' :
  imported dk ck w r w' → raw_key w' data_path = Ok dk ∧ raw_key w' chunk_path = Ok ck.
Proof.
  intros Hi. assert (∀ fs, written dk ck fs w' → raw_key w' data_path = Ok dk ∧ raw_key w' chunk_path = Ok ck)
    as Hw by (intros fs (Hd & Hc & _); split; by apply raw_key_settled).
  destruct r as [| |old]; cbn in Hi.
  - by eapply Hw, Hi.
  - destruct Hi as [[Hd Hc] Hf]. split; (erewrite raw_key_files; [done|by rewrite Hf]).
  - destruct Hi as (_ & _ & n & _ & _ & Hi). by eapply Hw.
Qed.

(** ** Export *)

Lemma wp_export_key output passphrase params (rng : R) w :
  wp (export_key state_dir output passphrase params rng) (λ o w',
    (∀ p f, p ≠ tmp_path output → files w !! p = Some f → files w' !! p = Some f) ∧ match o with
    | Done rng' => ∃ dk ck file, raw_key w data_path = Ok dk ∧ raw_key w chunk_path = Ok ck ∧
        export_keyfile dk ck passphrase params rng = (Ok file, rng') ∧
        files w !! output = None ∧ files w' !! output = Some (settled file)
    | Failed _ | Crashed => True
    end) w.
Proof.
  unfold export_key, enrolled_op, load_data_key, load_chunk_id_key.
  apply wp_bind, wp_with_error. eapply wp_mono; [apply wp_load_raw_key|].
  intros o w1 [(Hf1 & _) Ho]. destruct o as [dk|e|]; [|split; [by rewrite Hf1|done]..].
  apply wp_bind, wp_with_error. eapply wp_mono; [apply wp_load_raw_key|].
  intros o w2 [(Hf2 & _) Ho2]. rewrite Hf1 in Hf2. rewrite (raw_key_files w w1) in Ho2 by by rewrite Hf1.
  destruct o as [ck|e|]; [|split; [by rewrite Hf2|done]..].
  apply wp_bind, wp_path_exists. rewrite Hf2. case_bool_decide as Hex; [apply wp_fail; split; [by rewrite Hf2|done]|].
  destruct (export_keyfile dk ck passphrase params rng) as [file rng'] eqn:Ex.
  apply wp_lift_bind. destruct file as [file|e]; cbn [map_err]; [|split; [by rewrite Hf2|done]].
  assert (Hout : files w !! output = None) by by apply eq_None_not_Some.
  apply wp_bind, wp_with_error. eapply wp_mono; [apply wp_write_atomic|].
  intros o w3 (Hq & _ & Hp). assert (Hkeep : ∀ p f, p ≠ tmp_path output → files w !! p = Some f → files w3 !! p = Some f).
  { intros p f Hne Hf. rewrite Hq, Hf2; [done|by intros ->; congruence|done]. }
  destruct o as [[]|e|]; [|done..]. apply wp_ret. split; [done|]. exists dk, ck, file. split_and!; try done. apply Hp.
Qed.

(** ** Histories *)

(** The commands that write to the state directory, on it and on any keyfile, and
    a restart after which the machine behaves as [l] says. *)
Inductive command (w : World) : World → Prop :=
  | RunSave id : command w (save_identity state_dir id w).2
  | RunEnsure (rng : R) : command w (ensure_data_key state_dir rng w).2
  | RunExport output passphrase params (rng : R) :
      command w (export_key state_dir output passphrase params rng w).2
  | RunImport keyfile_path passphrase : command w (import_key state_dir keyfile_path passphrase w).2
  | RunRestart keep l : command w (set_faults l (reboot keep w)).
Definition history := rtc command.

(** A synced key file of [w] is in [w'], under one of its names. *)
Definition keeps_synced w w' : Prop :=
  ∀ file p f, file = DATA_KEY_FILE ∨ file = CHUNK_ID_KEY_FILE → names file p → synced f = true →
    files w !! p = Some f → ∃ q, names file q ∧ files w' !! q = Some f.

Lemma keeps_keeps_synced w w' : keeps w w' → keeps_synced w w'.
Proof. intros Hk file p f Hfile Hp _ Hf. by eapply Hk. Qed.

(** Names of key files are not those of temporary files, nor of identity files. *)
Lemma names_not_tmp file p path :
  file = DATA_KEY_FILE ∨ file = CHUNK_ID_KEY_FILE → names file p → p ≠ tmp_path path.
Proof. by intros [-> | ->] [rest ->]%names_prefix [=]. Qed.

Lemma save_keeps id w : keeps w (save_identity state_dir id w).2.
Proof.
  pose proof (wp_save_identity state_dir id w) as Hw. unfold wp in Hw.
  destruct (save_identity state_dir id w) as [o w']; cbn [fst snd] in *.
  assert (∃ done, replaced done (identity_files state_dir id) w w') as [done [_ O _ _ _]]
    by (destruct o; naive_solver).
  apply keeps_other. intros file p f Hfile Hp Hf. rewrite O; [done|..].
  - unfold identity_files. cbn [fmap list_fmap fst]. rewrite !elem_of_cons, elem_of_nil.
    apply names_prefix in Hp as [rest ->].
    destruct Hfile as [-> | ->]; intros [[=]|[[=]|[[=]|[[=]|[]]]]].
  - rewrite list_elem_of_fmap. intros (q & Hq & _). by eapply names_not_tmp.
Qed.

Lemma ensure_keeps (rng : R) w : keeps w (ensure_data_key state_dir rng w).2.
Proof.
  pose proof (wp_ensure_data_key state_dir rng w) as [[O K _] _].
  apply keeps_other. intros file p f Hfile Hp Hf.
  destruct (decide (p = data_path ∨ p = chunk_path)) as [Hk|Hno]; [by apply K|].
  rewrite O; [done|]. rewrite !not_elem_of_cons.
  split_and!; [tauto..| | |apply not_elem_of_nil]; by eapply names_not_tmp.
Qed.

Lemma export_keeps output passphrase params (rng : R) w :
  keeps w (export_key state_dir output passphrase params rng w).2.
Proof.
  pose proof (wp_export_key output passphrase params rng w) as [Hk _].
  apply keeps_other. intros file p f Hfile Hp Hf. apply Hk; [by eapply names_not_tmp|done].
Qed.

Lemma reboot_keeps keep l w : keeps_synced w (set_faults l (reboot keep w)).
Proof.
  intros file p f Hfile Hp Hs Hf. exists p. split; [done|]. cbn [set_faults reboot files].
  by rewrite map_lookup_imap, Hf; cbn; rewrite Hs.
Qed.

End keys.

(** ** Migration *)

Section migration.
Context {Redb : RedbPkg Table} `{Blake3Pkg, RcgenPkg, AeadLaws, Argon2Pkg} {R : Type} `{!CryptoRng R}.

End migration.

(** ** Examples *)

Module Examples.
Import Reference IdentityReference.

Definition old_dir : bytes := str "old".
Definition new_dir : bytes := str "new".
Definition pass : bytes := str "pass".
Definition keyfile : FPath := (str "usb", str "keyfile").

(** The old machine, enrolled, and the keyfile that it exports. *)
Definition enrolled (dir : bytes) (rng : Z) (w : World) : World := (ensure_data_key dir rng w).2.
Definition nothing : World := {| files := ∅; disk := ∅; work := ∅; faults := [] |}.
Definition old_machine : World := enrolled old_dir 5 nothing.
Definition exported : outcome KeyError Z * World :=
  export_key old_dir keyfile pass KdfParams_default 7 old_machine.
Definition usb_file : File := default {| content := []; synced := true |} (files exported.2 !! keyfile).

(** The new machine, enrolled as well, with the keyfile at hand. *)
Definition new_machine : World :=
  let w := enrolled new_dir 9 nothing in set_files (<[keyfile := usb_file]> (files w)) w.
Definition imported_there : outcome KeyError ImportOutcome * World :=
  import_key new_dir keyfile pass new_machine.

(** The import moves the fresh keys to the first slot; a second one has nothing to do. *)
Example import_replaces :
  imported_there.1 = Done (Replaced (new_dir, str "data.key.old-1")) ∧
  files imported_there.2 !! (new_dir, str "data.key.old-1") = files new_machine !! (new_dir, str "data.key") ∧
  files imported_there.2 !! (new_dir, str "data.key") = files old_machine !! (old_dir, str "data.key") ∧
  (import_key new_dir keyfile pass imported_there.2).1 = Done AlreadyCurrent.
Proof. split_and!; compute_eq. Qed.

Lemma slot_left : ¬ no_slot new_dir new_machine.
Proof. intros Hn. apply (Hn 1%N); [lia|]. split; compute_eq. Qed.


(** The machine stops while the import moves the second key aside. *)
Definition stops : list Fault := [NoFault; NoFault; NoFault; NoFault; CrashAt 0].
Definition about_to_stop : World := set_faults stops (reboot (λ _, O) new_machine).
Definition stopped : World := (import_key new_dir keyfile pass about_to_stop).2.

(** The key that the new machine drew for itself. *)
Definition fresh_key : File := settled (vec_to_list (fill_bytes 32 (9 : Z)).1).
Lemma fresh_data_key : files new_machine !! in_state new_dir DATA_KEY_FILE = Some fresh_key.
Proof. compute_eq. Qed.

End Examples.
