(* ===== verification/Service.v ===== *)
(** * The daemon's gRPC service ([busyncr-daemon/src/service.rs])

    Every handler of [BusyncrService], over the daemon's two directories: the
    store and the identity.  A handler's answer is what it returns or a status
    code; the messages of statuses are left out.  The transport (TLS, HTTP/2,
    protobuf framing, tokio's tasks) is not modelled: a call carries the
    certificates that the TLS layer verified, a stream is the list of its items,
    and each call runs on its own. *)

From S2P Require Import Prelude External Text Chunking Manifest Retention.
From S2P Require Import StoreIO Store StoreSpec Rpc Identity.

(** ** The daemon *)

Section service.
Context {Redb : RedbPkg Table} `{UlidPkg, Blake3Pkg, RcgenPkg, TomlPkg}.

(** The store and identity directories. *)
Record Daemon := { store_dir : World; identity_dir : World }.

(** [auth] and [auto_prune]; the store is the daemon's. *)
Record BusyncrService := { auth : option DaemonIdentity; auto_prune : bool }.

Definition BusyncrService_new : BusyncrService := {| auth := None; auto_prune := false |}.
Definition with_auth (identity : DaemonIdentity) : BusyncrService :=
  {| auth := Some identity; auto_prune := false |}.
Definition with_auto_prune (svc : BusyncrService) (on : bool) : BusyncrService :=
  {| auth := auth svc; auto_prune := on |}.

(** ** Handlers *)

Definition Handler (A : Type) : Type := Daemon → outcome Code A * Daemon.
#[global] Instance Handler_ret : MRet Handler := λ A a d, (Done a, d).
#[global] Instance Handler_bind : MBind Handler := λ A B f m d,
  match m d with
  | (Done a, d) => f a d
  | (Failed e, d) => (Failed e, d)
  | (Crashed, d) => (Crashed, d)
  end.
Definition refuse {A} (c : Code) : Handler A := λ d, (Failed c, d).
Definition answer {A} (r : result Code A) : Handler A :=
  match r with Ok a => mret a | Err c => refuse c end.

Definition status_from_identity (err : IdentityError) : Code :=
  match err with
  | CsrRejected _ | BadName => InvalidArgument
  | NameTaken _ => AlreadyExists
  | _ => Internal
  end.

Definition status_from_store (err : StoreError) : Code :=
  match err with
  | ChunkNotFound _ | SnapshotNotFound _ => NotFound
  | SnapshotExists _ => AlreadyExists
  | UnknownChunkRef _ _ | StillReferenced _ _ => FailedPrecondition
  | Integrity _ => DataLoss
  | ManifestE _ => InvalidArgument
  | _ => Internal
  end.

Definition map_outcome {E F A} (f : E → F) (o : outcome E A) : outcome F A :=
  match o with Done a => Done a | Failed e => Failed (f e) | Crashed => Crashed end.

(** A store operation on the blocking pool. *)
Definition blocking {A} (op : M StoreError A) : Handler A := λ d,
  let '(o, w) := op (store_dir d) in
  (map_outcome status_from_store o, {| store_dir := w; identity_dir := identity_dir d |}).

(** An identity operation, likewise. *)
Definition identity_task {A} (op : M IdentityError A) : Handler A := λ d,
  let '(o, w) := op (identity_dir d) in
  (map_outcome status_from_identity o, {| store_dir := store_dir d; identity_dir := w |}).

(** The result of a task as a value. *)
Definition attempt {A} (m : Handler A) : Handler (result Code A) := λ d,
  match m d with
  | (Done a, d) => (Done (Ok a), d)
  | (Failed e, d) => (Done (Err e), d)
  | (Crashed, d) => (Crashed, d)
  end.

(** The certificates that a connection presented. *)
Definition peer_fingerprint (peer_certs : option (list bytes)) : option bytes :=
  certs ← peer_certs;
  c ← head certs;
  Some (blake3_hex c).

Definition authenticate (svc : BusyncrService) (fingerprint : option bytes) : Handler unit :=
  match auth svc with
  | None => mret ()
  | Some _ =>
      match fingerprint with
      | None => refuse Unauthenticated
      | Some fingerprint =>
          status ← identity_task (client_status fingerprint);
          match status with
          | Active => mret ()
          | Revoked => refuse PermissionDenied
          | Unknown => refuse Unauthenticated
          end
      end
  end.

(** Wire identities have exactly 32 and 16 bytes. *)
Definition parse_chunk_id (bs : bytes) : result Code ChunkId :=
  ok_or InvalidArgument (array_of_list 32 bs).
Definition parse_snapshot_id (bs : bytes) : result Code Ulid :=
  raw ← ok_or InvalidArgument (array_of_list 16 bs); Ok (Ulid_from_bytes raw).

(** Milliseconds since the epoch; [None] is a clock before it. *)
Definition now_ms (since_epoch : option Z) : Z :=
  match since_epoch with
  | Some d => default i64_max (i64_try_from d)
  | None => 0
  end.

Definition enroll (svc : BusyncrService) (entropy : Entropy) (token csr_pem : bytes) :
    Handler EnrollResponse :=
  match auth svc with
  | None => refuse Unimplemented
  | Some identity =>
      spent ← identity_task (consume_token token);
      if (spent : bool) then
        issued ← identity_task (enroll_client identity entropy csr_pem);
        mret {| resp_cert_pem := issued_pem issued; resp_ca_cert_pem := ca_cert_pem identity |}
      else refuse PermissionDenied
  end.

Section handlers.
Context (svc : BusyncrService) (peer_certs : option (list bytes)).

Definition handle_list_snapshots : Handler (list bytes) :=
  authenticate svc (peer_fingerprint peer_certs);;
  ids ← blocking list_snapshots;
  mret ((λ u, vec_to_list (Ulid_to_bytes u)) <$> ids).

(** The loop body of [has_chunks]. *)
Definition note_missing (missing : list ChunkId) (id : ChunkId) : M StoreError (list ChunkId) :=
  present ← has_chunk id;
  mret (if (present : bool) then missing else missing ++ [id]).

Definition handle_has_chunks (chunk_ids : list bytes) : Handler (list bytes) :=
  authenticate svc (peer_fingerprint peer_certs);;
  ids ← answer (mapM parse_chunk_id chunk_ids);
  missing ← blocking (foldM note_missing [] ids);
  mret ((λ id, vec_to_list id) <$> missing).

(** The loop body of [upload_chunks].  An item of the stream is a message or the
    status that the transport ends it with; with it comes the name that the
    store draws for its temporary file. *)
Definition upload_one (counts : UploadChunksResponse) (item : bytes * result Code ChunkBlob) :
    Handler UploadChunksResponse :=
  let '(ulid, blob) := item in
  blob ← answer blob;
  id ← answer (parse_chunk_id (blob_chunk_id blob));
  newly_stored ← blocking (put_chunk ulid id (blob_data blob));
  mret (if (newly_stored : bool)
        then {| stored := u64_add (stored counts) 1; already_present := already_present counts |}
        else {| stored := stored counts; already_present := u64_add (already_present counts) 1 |}).

Definition handle_upload_chunks (stream : list (bytes * result Code ChunkBlob)) :
    Handler UploadChunksResponse :=
  authenticate svc (peer_fingerprint peer_certs);;
  foldM upload_one {| stored := 0; already_present := 0 |} stream.

(** The client that a snapshot is attributed to, if it can be found. *)
Definition snapshot_owner (fingerprint : option bytes) : Handler (option bytes) :=
  match auth svc, fingerprint with
  | Some _, Some fp =>
      r ← attempt (identity_task (client_name fp));
      mret (match r with Ok name => name | Err _ => None end)
  | _, _ => mret None
  end.

Definition auto_prune_after (clock : option Z) : Handler unit :=
  if auto_prune svc
  then attempt (blocking (prune (now_ms clock) default_grid Auto));; mret ()
  else mret ().

Definition handle_put_manifest (req : PutManifestRequest) (clock : option Z) : Handler unit :=
  let fingerprint := peer_fingerprint peer_certs in
  authenticate svc fingerprint;;
  owner ← snapshot_owner fingerprint;
  snapshot ← answer (parse_snapshot_id (put_snapshot_id req));
  refs ← answer (mapM parse_chunk_id (put_chunk_ids req));
  blocking (put_snapshot_as snapshot (manifest req) refs owner);;
  auto_prune_after clock.

Definition handle_get_manifest (snapshot_id : bytes) : Handler bytes :=
  authenticate svc (peer_fingerprint peer_certs);;
  snapshot ← answer (parse_snapshot_id snapshot_id);
  blocking (get_manifest_blob snapshot).

(** The task behind the response stream of [get_chunks]: it ends after the first
    error, or when the receiver is gone, which takes [room] items. *)
Fixpoint send_chunks (room : nat) (ids : list ChunkId) : Handler (list (result Code ChunkBlob)) :=
  match ids with
  | [] => mret []
  | id :: ids =>
      item ← attempt (blocking (get_chunk id));
      match room with
      | O => mret []
      | S room =>
          match item with
          | Err e => mret [Err e]
          | Ok data =>
              rest ← send_chunks room ids;
              mret (Ok {| blob_chunk_id := vec_to_list id; blob_data := data |} :: rest)
          end
      end
  end.

Definition handle_get_chunks (chunk_ids : list bytes) (room : nat) :
    Handler (list (result Code ChunkBlob)) :=
  authenticate svc (peer_fingerprint peer_certs);;
  ids ← answer (mapM parse_chunk_id chunk_ids);
  send_chunks room ids.
End handlers.

(** The daily timer: one prune per tick of the clock, until the shutdown; a
    failure is only logged. *)
Definition prune_tick (_ : unit) (clock : option Z) : Handler unit :=
  attempt (blocking (prune (now_ms clock) default_grid Auto));; mret ().
Definition run_prune_timer (ticks : list (option Z)) : Handler unit := foldM prune_tick () ticks.
End service.
