(* ===== verification/ServiceTheorems.v ===== *)
(** * What holds of the daemon's service

    No call without an active certificate reaches the store; an enrollment takes
    an outstanding token; and, for an enrolled client, the daemon is a server
    that keeps an abstract store: it implements [Rpc.BusyncrLaws]. *)

From S2P Require Import Prelude External Text Chunking Manifest Retention.
From S2P Require Import StoreIO Store StoreLogic StoreSpec StoreRefine StoreOps Rpc.
From S2P Require Import StoreTheorems AtomicFile Identity IdentityTheorems Service.

(** ** Calls *)

Section calls.
Context {Redb : RedbPkg Table} `{UlidPkg, Blake3Pkg, RcgenPkg, TomlPkg}.
Implicit Types (d : Daemon) (svc : BusyncrService).

(** The calls that need a certificate. *)
Inductive Call :=
  | CallListSnapshots
  | CallHasChunks (chunk_ids : list bytes)
  | CallUploadChunks (stream : list (bytes * result Code ChunkBlob))
  | CallPutManifest (req : PutManifestRequest) (clock : option Z)
  | CallGetManifest (snapshot_id : bytes)
  | CallGetChunks (chunk_ids : list bytes) (room : nat).

Definition drop_answer {A} (m : Handler A) : Handler unit := m;; mret ().

Definition handle svc (peer : option (list bytes)) (c : Call) : Handler unit :=
  match c with
  | CallListSnapshots => drop_answer (handle_list_snapshots svc peer)
  | CallHasChunks ids => drop_answer (handle_has_chunks svc peer ids)
  | CallUploadChunks stream => drop_answer (handle_upload_chunks svc peer stream)
  | CallPutManifest req clock => handle_put_manifest svc peer req clock
  | CallGetManifest id => drop_answer (handle_get_manifest svc peer id)
  | CallGetChunks ids room => drop_answer (handle_get_chunks svc peer ids room)
  end.

(** The standing of a connection: by its first certificate. *)
Definition peer_standing (d : Daemon) (peer : option (list bytes)) : outcome IdentityError ClientStatus :=
  match peer_fingerprint peer with
  | None => Done Unknown
  | Some fp => standing (identity_dir d) fp
  end.

(** The answer to a connection that has no active certificate. *)
Definition refusal (s : outcome IdentityError ClientStatus) : option Code :=
  match s with
  | Done Active => None
  | Done Unknown => Some Unauthenticated
  | Done Revoked => Some PermissionDenied
  | _ => Some Internal
  end.

Lemma standing_outcome w fp :
  match standing w fp with Failed e => status_from_identity e = Internal | Crashed => False | _ => True end.
Proof.
  unfold standing. destruct (files w !! client_path fp) as [f|]; [|done].
  destruct (utf8_valid (content f)); [|done]. by destruct (toml_from_str (content f)).
Qed.

Lemma wp_client_status fp w :
  wp (client_status fp) (λ o w', same w w' ∧
    (o = standing w fp ∨ o = Failed Io ∧ may_fail w ∨ o = Crashed ∧ may_crash w)) w.
Proof.
  unfold client_status, client_record. apply wp_bind, wp_bind, wp_read_to_string; [|by eauto..].
  intros w' Hs. unfold standing. destruct (files w !! client_path fp) as [f|]; [|split; [done|by left]].
  destruct (utf8_valid (content f)); [|split; [done|by left]].
  destruct (toml_from_str (content f)) as [r|]; cbn [ok_or lift]; (split; [done|by left]).
Qed.

(** A call that got past the check, or not: nothing has happened to the store. *)
Definition checked (c : option Code) d (o : outcome Code unit) d' : Prop :=
  store_dir d' = store_dir d ∧ same (identity_dir d) (identity_dir d') ∧
  (o = match c with Some c => Failed c | None => Done () end ∨
   o = Failed Internal ∧ may_fail (identity_dir d) ∨ o = Crashed ∧ may_crash (identity_dir d)).

Lemma authenticate_spec svc identity peer d :
  auth svc = Some identity →
  let '(o, d') := authenticate svc (peer_fingerprint peer) d in
  checked (refusal (peer_standing d peer)) d o d'.
Proof.
  intros Ha. unfold authenticate, peer_standing. rewrite Ha.
  destruct (peer_fingerprint peer) as [fp|].
  2: { split; [done|]. split; [done|]. by left. }
  unfold mbind, Handler_bind, identity_task. pose proof (wp_client_status fp (identity_dir d)) as Hw.
  pose proof (standing_outcome (identity_dir d) fp) as Hst.
  unfold wp in Hw. destruct (client_status fp (identity_dir d)) as [o w].
  destruct Hw as [Hs Ho]. cbn [fst snd] in Hs, Ho. destruct Ho as [->|[[-> Hm]|[-> Hm]]].
  - destruct (standing (identity_dir d) fp) as [[]|e|]; cbn [map_outcome refusal]; [..|done];
      (split; [done|]); (split; [done|]); left; cbn; by rewrite ?Hst.
  - split; [done|]. split; [done|]. right; left. auto.
  - split; [done|]. split; [done|]. right; right. auto.
Qed.

(** Every call begins with the check. *)
Lemma handle_checks svc peer c d :
  let '(o, d') := authenticate svc (peer_fingerprint peer) d in
  match o with
  | Done _ => True
  | _ => handle svc peer c d = (o, d')
  end.
Proof.
  destruct (authenticate svc (peer_fingerprint peer) d) as [[[]|e|] d'] eqn:E; [done|..];
    destruct c; cbn [handle]; unfold drop_answer, handle_list_snapshots, handle_has_chunks,
      handle_upload_chunks, handle_put_manifest, handle_get_manifest, handle_get_chunks;
    unfold mbind, Handler_bind; by rewrite E.
Qed.

(** C21. A call whose connection has no active certificate is refused, whatever
    fails meanwhile, and the store is not even looked at: without a certificate
    or with one that was never enrolled as unauthenticated, with a revoked one as
    denied, and as an internal error when the registry entry is unreadable. *)
Theorem unauthorized_call_is_refused svc identity peer c d code :
  auth svc = Some identity → refusal (peer_standing d peer) = Some code →
  let '(o, d') := handle svc peer c d in
  store_dir d' = store_dir d ∧ files (identity_dir d') = files (identity_dir d) ∧
  (o = Failed code ∨ o = Failed Internal ∧ may_fail (identity_dir d) ∨
   o = Crashed ∧ may_crash (identity_dir d)).
Proof.
  intros Ha Hc. pose proof (authenticate_spec svc identity peer d Ha) as Hs.
  pose proof (handle_checks svc peer c d) as Hh. rewrite Hc in Hs.
  destruct (authenticate svc (peer_fingerprint peer) d) as [o d'].
  destruct Hs as (Hst & (Hf & _) & Ho).
  destruct o as [[]|e|]; [naive_solver|..]; rewrite Hh; by split_and!.
Qed.
(** ** Enrollment *)

Lemma wp_consume_token token w :
  wp (consume_token token) (λ o w',
    (∀ p, p ≠ token_path token → files w' !! p = files w !! p) ∧
    (files w !! token_path token = None → files w' !! token_path token = None) ∧
    match o with
    | Done b => b = bool_decide (is_Some (files w !! token_path token)) ∧
        files w' !! token_path token = None
    | Failed e => e = Io ∧ may_fail w
    | Crashed => may_crash w end) w.
Proof.
  unfold consume_token. apply wp_step.
  - intros w0 (Hf & _) _. cbn. rewrite Hf, lookup_delete_eq.
    split_and!; [|done..]. intros p Hp. by rewrite lookup_delete_ne.
  - intros n w0 Hm (Hf & _) _. unfold untouched. rewrite Hf. by split_and!.
  - intros [|n] w0 Hm (Hf & _) _; cbn; rewrite Hf; [by split_and!|].
    rewrite lookup_delete_eq. split_and!; [|done..]. intros p Hp. by rewrite lookup_delete_ne.
Qed.

(** A certificate is issued only against an outstanding token, which is spent
    by it; without one the request is denied and no file of the identity changes.
    Either way the store is left alone. *)
Theorem enroll_takes_token svc identity entropy token csr d :
  auth svc = Some identity →
  let '(o, d') := enroll svc entropy token csr d in
  let before := files (identity_dir d) in
  let after := files (identity_dir d') in
  store_dir d' = store_dir d ∧
  (∀ r, o = Done r → is_Some (before !! token_path token) ∧ after !! token_path token = None) ∧
  (before !! token_path token = None →
    (∀ p, after !! p = before !! p) ∧
    (o = Failed PermissionDenied ∨ o = Failed Internal ∧ may_fail (identity_dir d) ∨
     o = Crashed ∧ may_crash (identity_dir d))).
Proof.
  intros Ha. unfold enroll. rewrite Ha. unfold mbind, Handler_bind, identity_task.
  pose proof (wp_consume_token token (identity_dir d)) as Hw. unfold wp in Hw.
  destruct (consume_token token (identity_dir d)) as [o w]. destruct Hw as (Hp & Hn & Ho).
  cbn [fst snd] in *.
  assert (Hsame : files (identity_dir d) !! token_path token = None →
    ∀ p, files w !! p = files (identity_dir d) !! p).
  { intros E p. destruct (decide (p = token_path token)) as [->|Hne]; [by rewrite E, Hn|by apply Hp]. }
  destruct o as [b|e|]; cbn [map_outcome].
  - destruct Ho as [-> Hnone]. case_bool_decide as Hb.
    2: { cbn [refuse]. split; [done|]. split; [by intros|]. intros E. split; [by apply Hsame|by left]. }
    pose proof (leaves_enroll_client eq (token_path token) identity entropy csr) as Hl.
    unfold leaves in Hl. specialize (Hl ltac:(
      intros path (? & ? & ? & ? & _ & ->); split; [by intros [=]|by intros [=]]) w).
    cbn [identity_dir store_dir]. destruct (enroll_client identity entropy csr w) as [[r|e|] w2];
      cbn [map_outcome fst snd store_dir identity_dir] in *.
    all: split; [done|]; split; [|by intros E; rewrite E in Hb; destruct Hb].
    all: intros r' [=]. split; [exact Hb|]. cbn [identity_dir mret Handler_ret snd]. congruence.
  - destruct Ho as [-> Hm]. split; [done|]. split; [by intros|]. intros E.
    split; [by apply Hsame|]. right; left. auto.
  - split; [done|]. split; [by intros|]. intros E. split; [by apply Hsame|]. right; right. auto.
Qed.
End calls.

(** ** The daemon, to an enrolled client *)

Section client_view.
Context {Redb : RedbPkg Table} {RedbL : RedbLaws Table} `{UlidLaws, Blake3Pkg, RcgenPkg, TomlPkg}.
(** The running service, a connection to it, the names that its store draws and
    its clock. *)
Context (svc : BusyncrService) (peer : option (list bytes)) (draw : nat → bytes) (clock : option Z).

(** A crashed daemon does not answer. *)
Definition seen {A} (m : Handler A) (d : Daemon) : result Code A * Daemon :=
  match m d with
  | (Done a, d) => (Ok a, d)
  | (Failed c, d) => (Err c, d)
  | (Crashed, d) => (Err Unavailable, d)
  end.

#[local] Instance daemon_busyncr : Busyncr Daemon := {|
  rpc_list_snapshots := seen (handle_list_snapshots svc peer);
  rpc_has_chunks ids := seen (handle_has_chunks svc peer ids);
  rpc_upload_chunks blobs := seen (handle_upload_chunks svc peer (imap (λ i b, (draw i, Ok b)) blobs));
  rpc_put_manifest req := seen (handle_put_manifest svc peer req clock);
  rpc_get_manifest id := seen (handle_get_manifest svc peer id);
  rpc_get_chunks ids := seen (handle_get_chunks svc peer ids (length ids));
|}.

(** The daemon holds [a], the peer is active and no faults lie ahead. *)
Record serving (d : Daemon) (a : AStore) : Prop := {
  sv_store : represents (store_dir d) a;
  sv_store_faults : faults (store_dir d) = [];
  sv_identity_faults : faults (identity_dir d) = [];
  sv_active : peer_standing d peer = Done Active;
}.

Context (identity : DaemonIdentity) (Hauth : auth svc = Some identity) (Hprune : auto_prune svc = false).
Implicit Types (d : Daemon) (a : AStore) (id : ChunkId).

Lemma bind_done {A B} (m : Handler A) (f : A → Handler B) d x d' :
  m d = (Done x, d') → (m ≫= f) d = f x d'.
Proof. unfold mbind, Handler_bind. by intros ->. Qed.

(** The identity may have been read. *)
Lemma serving_same d a d' :
  serving d a → store_dir d' = store_dir d → same (identity_dir d) (identity_dir d') → serving d' a.
Proof.
  intros [Hr Hsf Hif Hac] Hs (Hf & _ & Hl). split.
  - by rewrite Hs.
  - by rewrite Hs.
  - by eapply no_faults.
  - unfold peer_standing in *. destruct (peer_fingerprint peer); [|done].
    unfold standing in *. by rewrite Hf.
Qed.

Lemma authenticate_ok d a :
  serving d a → ∃ d', authenticate svc (peer_fingerprint peer) d = (Done (), d') ∧ serving d' a.
Proof.
  intros Hs. pose proof (authenticate_spec svc identity peer d Hauth) as Ha.
  destruct (authenticate svc (peer_fingerprint peer) d) as [o d'].
  destruct (no_fault_fails _ (sv_identity_faults _ _ Hs)) as [Hnf Hnc].
  destruct Ha as (Hst & Hid & Ho). rewrite (sv_active _ _ Hs) in Ho. cbn in Ho.
  destruct Ho as [->|[[_ Hm]|[_ Hm]]]; [|done..]. exists d'. split; [done|]. by eapply serving_same.
Qed.

(** A store operation that succeeds when there are no faults. *)
Lemma blocking_ok {A} (m : M StoreError A) (P : A → AStore → Prop) d a :
  serving d a →
  wp m (λ o w', later (store_dir d) w' ∧
    (¬ may_fail (store_dir d) → ¬ may_crash (store_dir d) →
     ∃ x a', o = Done x ∧ represents w' a' ∧ P x a')) (store_dir d) →
  ∃ x d' a', blocking m d = (Done x, d') ∧ serving d' a' ∧ P x a'.
Proof.
  intros Hs Hw. unfold wp in Hw. unfold blocking. destruct (m (store_dir d)) as [o w'].
  destruct (no_fault_fails _ (sv_store_faults _ _ Hs)) as [Hnf Hnc].
  destruct Hw as [Hl Hw]. destruct (Hw Hnf Hnc) as (x & a' & Ho & Hr & HP).
  cbn [fst snd] in *. subst o. cbn [map_outcome]. do 3 eexists. split; [done|]. split; [|exact HP].
  destruct Hs as [_ Hsf Hif Hac]. split; [done| |done|done]. exact (no_faults _ _ Hsf Hl).
Qed.

Lemma handle_get_manifest_ok d a (snap : array 16) sn :
  serving d a → a_snaps a !! snap = Some sn →
  ∃ d', seen (handle_get_manifest svc peer (vec_to_list snap)) d = (Ok (s_blob sn), d') ∧ serving d' a.
Proof.
  intros Hs Hsn. destruct (authenticate_ok d a Hs) as (d1 & E1 & Hs1).
  unfold seen, handle_get_manifest. rewrite (bind_done _ _ _ _ _ E1).
  unfold parse_snapshot_id. rewrite array_of_vec. cbn [ok_or mbind result_bind answer].
  destruct (blocking_ok (get_manifest_blob (Ulid_from_bytes snap)) (λ x a', x = s_blob sn ∧ a' = a) d1 a Hs1)
    as (x & d2 & a' & E2 & Hs2 & -> & ->).
  - eapply wp_mono; [by apply get_manifest_blob_sim, Hs1|]. intros o w' [Hsame Ho]. rewrite Ulid_to_from in Ho.
    split; [apply Hsame|]. intros Hnf Hnc.
    destruct o as [b|e|]; [|naive_solver..]. destruct Ho as (sn' & E & ->).
    exists (s_blob sn'), a. split; [done|]. split; [|split; [congruence|done]].
    by eapply represents_same, Hs1.
  - change (mret (Ulid_from_bytes snap) ≫= λ snapshot, blocking (get_manifest_blob snapshot))
      with (blocking (get_manifest_blob (Ulid_from_bytes snap))). rewrite E2. eauto.
Qed.

(** The abstract store that an operation leaves alone. *)
Lemma blocking_read {A} (m : M StoreError A) (P : A → Prop) d a :
  serving d a →
  wp m (λ o w', same (store_dir d) w' ∧
    (¬ may_fail (store_dir d) → ¬ may_crash (store_dir d) → ∃ x, o = Done x ∧ P x)) (store_dir d) →
  ∃ x d', blocking m d = (Done x, d') ∧ serving d' a ∧ P x.
Proof.
  intros Hs Hw. destruct (blocking_ok m (λ x a', a' = a ∧ P x) d a Hs) as (x & d' & a' & E & Hs' & -> & HP);
    [|by eauto].
  eapply wp_mono; [exact Hw|]. intros o w' [Hsame Ho]. split; [apply Hsame|]. intros Hnf Hnc.
  destruct (Ho Hnf Hnc) as (x & -> & HP). exists x, a. split_and!; [done| |done|done].
  by eapply represents_same, Hs.
Qed.

Lemma handle_list_snapshots_ok d a :
  serving d a →
  ∃ ids d', seen (handle_list_snapshots svc peer) d = (Ok ids, d') ∧ serving d' a ∧
    (ids = [] ↔ a_snaps a = ∅).
Proof.
  intros Hs. destruct (authenticate_ok d a Hs) as (d1 & E1 & Hs1).
  unfold seen, handle_list_snapshots. rewrite (bind_done _ _ _ _ _ E1).
  destruct (blocking_read list_snapshots (lists a) d1 a Hs1) as (l & d2 & E2 & Hs2 & Hl).
  { eapply wp_mono; [by apply list_snapshots_sim, Hs1|]. intros [l|e|] w' [Hsame Ho]; naive_solver. }
  rewrite (bind_done _ _ _ _ _ E2). do 2 eexists. split; [done|]. split; [done|].
  destruct Hl as (_ & _ & Hl). split.
  - intros Hnil. assert (l = []) as -> by by destruct l. apply map_eq. intros k. rewrite lookup_empty. apply eq_None_not_Some. intros Hk.
    assert (Ulid_from_bytes k ∈ ([] : list Ulid)) as Hin by (apply Hl; by rewrite Ulid_to_from).
    by apply elem_of_nil in Hin.
  - intros He. destruct l as [|u l]; [done|]. destruct (proj1 (Hl u)) as [s Hsn]; [by left|].
    by rewrite He, lookup_empty in Hsn.
Qed.

Lemma parse_chunk_ids_ok ids : mapM parse_chunk_id (wire_id <$> ids) = Ok ids.
Proof.
  apply mapM_Ok. induction ids as [|id ids IH]; constructor; [|done].
  unfold parse_chunk_id, wire_id. by rewrite array_of_vec.
Qed.

Lemma wp_note_missing a ids missing w :
  represents w a →
  wp (foldM note_missing missing ids) (λ o w', same w w' ∧ (¬ may_fail w → ¬ may_crash w →
    ∃ x, o = Done x ∧ x = missing ++ filter (λ id, a_chunks a !! id = None) ids)) w.
Proof.
  intros Hr. revert missing w Hr; induction ids as [|id ids IH]; intros missing w Hr; cbn [foldM].
  { apply wp_ret. split; [done|]. intros _ _. rewrite filter_nil, app_nil_r. eauto. }
  apply wp_bind, wp_bind, wp_bind. eapply wp_mono; [by apply chunk_entry_sim|].
  intros [e|e|] w1 [Hs1 Ho]; [|by (split; [done|]; naive_solver)..].
  apply wp_ret, wp_ret. eapply wp_mono; [apply IH; by eapply represents_same|].
  intros o w2 [Hs2 Ho2]. split; [by etrans|]. intros Hnf Hnc.
  destruct Ho2 as (x & -> & ->).
  { intros Hm. eapply Hnf, may_fail_later; [apply Hs1|done]. }
  { intros Hm. eapply Hnc, may_crash_later; [apply Hs1|done]. }
  eexists. split; [done|]. rewrite filter_cons. subst e.
  destruct (a_chunks a !! id); cbn; [done|]. by rewrite <- app_assoc.
Qed.

Lemma handle_has_chunks_ok d a ids :
  serving d a →
  ∃ d', serving d' a ∧ seen (handle_has_chunks svc peer (wire_id <$> ids)) d =
    (Ok (wire_id <$> filter (λ id, a_chunks a !! id = None) ids), d').
Proof.
  intros Hs. destruct (authenticate_ok d a Hs) as (d1 & E1 & Hs1).
  unfold seen, handle_has_chunks. rewrite (bind_done _ _ _ _ _ E1), parse_chunk_ids_ok.
  destruct (blocking_read (foldM note_missing [] ids)
    (λ x, x = filter (λ id, a_chunks a !! id = None) ids) d1 a Hs1) as (l & d2 & E2 & Hs2 & ->).
  { apply (wp_note_missing a ids []), Hs1. }
  exists d2. split; [done|].
  rewrite (bind_done (answer (Ok ids)) _ d1 ids d1) by done. by rewrite (bind_done _ _ _ _ _ E2).
Qed.

(** One blob of an upload. *)
Lemma upload_one_ok d a counts ulid id data :
  serving d a → len data ≤ u64_max →
  ∃ counts' d', upload_one counts (ulid, Ok (wire_blob (id, data))) d = (Done counts', d') ∧
    serving d' (a_put_chunk id data a).2 ∧
    u64_add (stored counts') (already_present counts') =
      u64_add (u64_add (stored counts) (already_present counts)) 1.
Proof.
  intros Hs Hlen. destruct (no_fault_fails _ (sv_store_faults _ _ Hs)) as [Hnf Hnc].
  destruct (blocking_ok (put_chunk ulid id data)
    (λ _ a', a' = (a_put_chunk id data a).2) d a Hs) as (b & d' & a' & E & Hs' & ->).
  { eapply wp_mono; [apply put_chunk_sim; [apply Hs|done|by right]|].
    intros [b|e|] w' [Hl Ho]; (split; [done|]); naive_solver. }
  unfold upload_one. rewrite (bind_done (answer _) _ d (wire_blob (id, data)) d) by done.
  rewrite (bind_done (answer _) _ d id d).
  2: { unfold parse_chunk_id, wire_blob, wire_id. cbn [blob_chunk_id fst]. by rewrite array_of_vec. }
  cbn [blob_data wire_blob snd]. rewrite (bind_done _ _ _ _ _ E). do 2 eexists.
  split; [done|]. split; [done|]. destruct b; cbn [stored already_present]; unfold u64_add.
  - rewrite Zplus_mod_idemp_l, Zplus_mod_idemp_l. f_equal. lia.
  - rewrite Zplus_mod_idemp_r, Zplus_mod_idemp_l. f_equal. lia.
Qed.

Lemma upload_all_ok blobs (f : nat → nat) d a counts :
  serving d a → Forall (λ b, len b.2 ≤ u64_max) blobs →
  ∃ counts' d', foldM upload_one counts (imap (λ i b, (draw (f i), Ok b)) (wire_blob <$> blobs)) d =
      (Done counts', d') ∧
    serving d' (a_put_chunks blobs a) ∧
    u64_add (stored counts') (already_present counts') mod 2 ^ 64 =
      (u64_add (stored counts) (already_present counts) + len blobs) mod 2 ^ 64.
Proof.
  revert f d a counts. induction blobs as [|[id data] blobs IH]; intros f d a counts Hs Hlen.
  { do 2 eexists. split; [done|]. split; [done|]. unfold len; cbn. by rewrite Z.add_0_r. }
  apply Forall_cons in Hlen as [Hlen Hlens]. rewrite fmap_cons, imap_cons. cbn [foldM].
  destruct (upload_one_ok d a counts (draw (f 0%nat)) id data Hs Hlen) as (c1 & d1 & E1 & Hs1 & Hc1).
  rewrite (bind_done _ _ _ _ _ E1). destruct (IH (f ∘ S) d1 _ c1 Hs1 Hlens) as (c2 & d2 & E2 & Hs2 & Hc2).
  exists c2, d2. split; [exact E2|]. split; [done|]. rewrite Hc2, Hc1. unfold u64_add, len in *.
  cbn [length]. rewrite Nat2Z.inj_succ, Zplus_mod_idemp_l. f_equal. lia.
Qed.

Lemma handle_upload_chunks_ok d a blobs :
  serving d a → Forall (λ b, len b.2 ≤ u64_max) blobs →
  ∃ resp d', rpc_upload_chunks (wire_blob <$> blobs) d = (Ok resp, d') ∧
    u64_add (stored resp) (already_present resp) = len blobs mod 2 ^ 64 ∧
    serving d' (a_put_chunks blobs a).
Proof.
  intros Hs Hlen. destruct (authenticate_ok d a Hs) as (d1 & E1 & Hs1).
  cbn [rpc_upload_chunks daemon_busyncr]. unfold seen, handle_upload_chunks.
  rewrite (bind_done _ _ _ _ _ E1).
  destruct (upload_all_ok blobs id d1 a {| stored := 0; already_present := 0 |} Hs1 Hlen)
    as (c & d2 & E2 & Hs2 & Hc).
  change (imap (λ i b, (draw (id i), Ok b)) (wire_blob <$> blobs)) with
    (imap (λ i b, (draw i, Ok b : result Code ChunkBlob)) (wire_blob <$> blobs)) in E2.
  rewrite E2. do 2 eexists. split; [done|]. split; [|done].
  cbn [stored already_present] in Hc. unfold u64_add in *. rewrite Z.mod_mod in Hc by done. exact Hc.
Qed.

Lemma snapshot_owner_ok d a fp :
  serving d a → ∃ owner d', snapshot_owner svc fp d = (Done owner, d') ∧ serving d' a.
Proof.
  intros Hs. unfold snapshot_owner. rewrite Hauth. destruct fp as [fp|]; [|by eexists _, d].
  assert (wp (client_name fp) (λ o w', same (identity_dir d) w' ∧
    (o = Crashed → may_crash (identity_dir d))) (identity_dir d)) as Hw.
  { unfold client_name, client_record. apply wp_bind, wp_bind, wp_read_to_string;
      [|intros w' Hm Hsame; by split..].
    intros w' Hsame. destruct (files (identity_dir d) !! client_path fp) as [f|]; [|by split].
    destruct (utf8_valid (content f)); [|by split]. by destruct (toml_from_str (content f)). }
  destruct (no_fault_fails _ (sv_identity_faults _ _ Hs)) as [Hnf Hnc].
  unfold wp in Hw. unfold mbind, Handler_bind, attempt, identity_task.
  destruct (client_name fp (identity_dir d)) as [o w]. destruct Hw as [Hsame Hc].
  destruct o as [n|e|]; cbn [map_outcome]; [..|by destruct (Hnc (Hc eq_refl))];
    (do 2 eexists; split; [reflexivity|]); by eapply serving_same.
Qed.

Lemma handle_put_manifest_ok d a m (snap : array 16) ids :
  serving d a → a_snaps a !! snap = None → Forall (λ id, is_Some (a_chunks a !! id)) ids →
  len ids + len (a_refs a) ≤ u64_max →
  ∃ owner d', rpc_put_manifest {| manifest := m; put_snapshot_id := vec_to_list snap;
                                  put_chunk_ids := wire_id <$> ids |} d = (Ok (), d') ∧
    serving d' (a_put_snapshot snap {| s_blob := m; s_refs := ids; s_owner := owner |} a).
Proof.
  intros Hs Hn Hall Hlen. destruct (authenticate_ok d a Hs) as (d1 & E1 & Hs1).
  cbn [rpc_put_manifest daemon_busyncr]. unfold seen, handle_put_manifest.
  rewrite (bind_done _ _ _ _ _ E1).
  destruct (snapshot_owner_ok d1 a (peer_fingerprint peer) Hs1) as (owner & d2 & E2 & Hs2).
  rewrite (bind_done _ _ _ _ _ E2). cbn [put_snapshot_id put_chunk_ids manifest].
  unfold parse_snapshot_id. rewrite array_of_vec, parse_chunk_ids_ok.
  rewrite (bind_done (answer _) _ d2 (Ulid_from_bytes snap) d2) by done.
  rewrite (bind_done (answer _) _ d2 ids d2) by done.
  destruct (blocking_ok (put_snapshot_as (Ulid_from_bytes snap) m ids owner) (λ _ a',
    a' = a_put_snapshot snap {| s_blob := m; s_refs := ids; s_owner := owner |} a) d2 a Hs2)
    as (u & d3 & a' & E3 & Hs3 & ->).
  { pose proof (put_snapshot_as_sim (Ulid_from_bytes snap) m ids owner _ a (sv_store _ _ Hs2) Hlen) as Hw.
    cbn zeta in Hw. rewrite Ulid_to_from in Hw. eapply wp_mono; [exact Hw|].
    intros [b|e|] w' [Hl Ho]; (split; [done|]); intros Hnf Hnc; [naive_solver| |naive_solver].
    destruct Ho as [_ [[_ ?]|[[_ [? ?]]|(_ & pre & c & post & -> & _ & Hc & _)]]]; [done|congruence|].
    apply Forall_app in Hall as [_ Hall]. apply Forall_cons in Hall as [[? ?] _]. congruence. }
  rewrite (bind_done _ _ _ _ _ E3). unfold auto_prune_after. rewrite Hprune. eauto.
Qed.

Lemma send_chunks_ok ids blobs d a :
  serving d a → Forall2 (λ id b, a_chunks a !! id = Some b) ids blobs →
  ∃ d', serving d' a ∧ send_chunks (length ids) ids d =
    (Done ((λ b, Ok (wire_blob b)) <$> zip ids blobs), d').
Proof.
  intros Hs Hall. revert d Hs. induction Hall as [|id b ids blobs Hb _ IH]; intros d Hs; [by exists d|].
  cbn [send_chunks length].
  destruct (blocking_read (get_chunk id) (λ x, x = b) d a Hs) as (x & d1 & E1 & Hs1 & ->).
  { eapply wp_mono; [by apply get_chunk_sim, Hs|]. intros [x|e|] w' [Hsame Ho]; naive_solver. }
  unfold attempt at 1. unfold mbind at 1, Handler_bind at 1. rewrite E1.
  destruct (IH d1 Hs1) as (d2 & Hs2 & E2). rewrite (bind_done _ _ _ _ _ E2). by exists d2.
Qed.

Lemma handle_get_chunks_ok d a ids blobs :
  serving d a → Forall2 (λ id b, a_chunks a !! id = Some b) ids blobs →
  ∃ d', serving d' a ∧ rpc_get_chunks (wire_id <$> ids) d =
    (Ok ((λ b, Ok (wire_blob b)) <$> zip ids blobs), d').
Proof.
  intros Hs Hall. destruct (authenticate_ok d a Hs) as (d1 & E1 & Hs1).
  cbn [rpc_get_chunks daemon_busyncr]. unfold seen, handle_get_chunks.
  rewrite (bind_done _ _ _ _ _ E1), parse_chunk_ids_ok.
  rewrite (bind_done (answer _) _ d1 ids d1) by done. rewrite length_fmap.
  destruct (send_chunks_ok ids blobs d1 a Hs1 Hall) as (d2 & Hs2 & ->). eauto.
Qed.

(** The daemon implements the interface that the client's pipelines use. *)
#[local] Instance daemon_laws : BusyncrLaws Daemon := {|
  serves := serving;
  serves_ok d a Hs := rep_ok _ _ (sv_store _ _ Hs);
  list_snapshots_law := handle_list_snapshots_ok;
  has_chunks_law := handle_has_chunks_ok;
  upload_chunks_law := handle_upload_chunks_ok;
  put_manifest_law := handle_put_manifest_ok;
  get_manifest_law := handle_get_manifest_ok;
  get_chunks_law := handle_get_chunks_ok;
|}.

End client_view.

(** ** Concrete calls *)

Module Examples.
Import Reference IdentityReference.
Import StoreTheorems.Examples(c0, data0, one_chunk, a_one_chunk, one_chunk_represents).
Import IdentityTheorems.Examples(daemon, laptop, two_clients, after_revoke, tok, fresh, play).

Definition service : BusyncrService := with_auth daemon.
Definition running : Daemon := {| store_dir := one_chunk; identity_dir := two_clients |}.
Definition after : Daemon := {| store_dir := one_chunk; identity_dir := after_revoke |}.

(** A revoked client asks for the snapshots. *)
Lemma unauthorized_call_is_refused_witness :
  let '(o, d') := handle service (Some [laptop]) CallListSnapshots after in
  store_dir d' = one_chunk ∧
  (o = Failed PermissionDenied ∨ o = Failed Internal ∧ may_fail after_revoke ∨
   o = Crashed ∧ may_crash after_revoke).
Proof.
  assert (refusal (peer_standing after (Some [laptop])) = Some PermissionDenied) as Hr by compute_eq.
  pose proof (unauthorized_call_is_refused service daemon (Some [laptop]) CallListSnapshots after
    PermissionDenied eq_refl Hr) as Hu.
  destruct (handle service (Some [laptop]) CallListSnapshots after) as [o d'].
  destruct Hu as (Hs & _ & Ho). exact (conj Hs Ho).
Defined.

(** A request with a token that was never minted. *)
Lemma enroll_takes_token_witness :
  let '(o, d') := enroll service (str "r3") tok (str "phone") running in
  store_dir d' = one_chunk ∧ (o = Failed PermissionDenied ∨ o = Failed Internal ∧ may_fail two_clients ∨
    o = Crashed ∧ may_crash two_clients).
Proof.
  pose proof (enroll_takes_token service daemon (str "r3" : @Entropy rcgen) tok (str "phone") running
    eq_refl) as He.
  destruct (enroll service (str "r3" : @Entropy rcgen) tok (str "phone") running) as [o d'].
  destruct He as (Hs & _ & Hn). split; [exact Hs|]. apply Hn. compute_eq.
Defined.

Lemma running_serving : serving (Some [laptop]) running a_one_chunk.
Proof. split; [exact one_chunk_represents|compute_eq..]. Qed.

End Examples.
