(* ===== verification/Enrollment.v ===== *)
(** * Enrollment, from the client's request to its first authenticated call

    The client's half ([Enroll]) against the daemon's handler ([Service]): a
    request with an outstanding token and a free name ends with an identity on the
    client's disk that the daemon lets in, under the name that was asked for. *)

From S2P Require Import Prelude External Text Base64 StoreIO StoreLogic AtomicFile Identity IdentityTheorems.
From S2P Require Import Rpc Enroll EnrollTheorems Service ServiceTheorems.

(** [rcgen]: what is read of a request is what was put there; certificates come
    in PEM armor. *)
Class RcgenCsrLaws `{RcgenCsrPkg} : Prop := {
  csr_subject params key pem : serialize_request params key = Ok pem →
    ∃ params' pk, CSR_from_pem pem = Ok (params', pk) ∧ common_name_attr params' = common_name_attr params;
  cert_armor entropy params pk issuer cert : CSR_signed_by entropy params pk issuer = Ok cert →
    pem_to_der (cert_pem cert) = Some (cert_der cert) ∧ utf8_valid (cert_pem cert) = true ∧
    trim (cert_pem cert) ≠ [];
}.

Section enrollment.
Context {Redb : RedbPkg Table} `{Blake3Pkg, RcgenPkg, !RcgenCsrPkg, !RcgenCsrLaws, TomlLaws}.
(** A daemon with its identity, and what it draws for the next certificate. *)
Context (svc : BusyncrService) (identity : DaemonIdentity) (entropy : Entropy).
Context (Hauth : auth svc = Some identity).

(** A handshake succeeds exactly against the CA that the server's certificate is
    signed by. *)
#[local] Instance daemon_enroll : EnrollServer Daemon := {|
  connect _ ca _ := bool_decide (ca = ca_cert_pem identity);
  rpc_enroll token csr := seen (enroll svc entropy token csr);
|}.

(** ** The token *)

Lemma consume_token_outstanding token w :
  faults w = [] → is_Some (files w !! token_path token) →
  ∃ w', consume_token token w = (Done true, w') ∧ files w' = delete (token_path token) (files w) ∧ faults w' = [].
Proof.
  intros Hf Ht. exists (set_files (delete (token_path token) (files w)) (set_faults [] w)).
  unfold consume_token, remove_file, step. rewrite Hf. cbn. by rewrite bool_decide_true.
Qed.

Lemma consume_token_spent token w :
  faults w = [] → files w !! token_path token = None → ∃ w', consume_token token w = (Done false, w').
Proof.
  intros Hf Ht. eexists. unfold consume_token, remove_file, step. rewrite Hf. cbn.
  by rewrite Ht, bool_decide_false by (by intros []).
Qed.

(** Spending a token leaves the registry alone. *)
Section spent.
Context (token : bytes) (w w' : World).
Context (Hfiles : files w' = delete (token_path token) (files w)).

Lemma spent_files p : p.1 = CLIENTS_DIR → files w' !! p = files w !! p.
Proof. intros Hp. rewrite Hfiles. apply lookup_delete_ne. intros <-. discriminate Hp. Qed.

Lemma spent_record p : p.1 = CLIENTS_DIR → record_at w' p = record_at w p.
Proof. intros Hp. unfold record_at. by rewrite spent_files. Qed.

Lemma spent_parses : registry_parses w → registry_parses w'.
Proof.
  intros Hp p (Hx & Hd & Hs)%elem_of_registry_files. rewrite spent_record by done. apply Hp.
  apply elem_of_registry_files. split_and!; [done..|]. by rewrite <- spent_files.
Qed.

Lemma spent_taken n : taken n w' → taken n w.
Proof.
  intros (p & r & (Hx & Hd & Hr)%elem_of_registry & Hn). exists p, r. split; [|done].
  apply elem_of_registry. split_and!; [done..|]. by rewrite <- spent_record.
Qed.
End spent.

(** ** A request that should be granted *)

Context (req : EnrollmentRequest) (client_entropy : Entropy).
Abbreviation n := (req_name req).

(** The steps that only [rcgen] and [toml] could refuse: the client's key and
    request, the CA's signature under the daemon's profile, the registry entry. *)
Record granted (key : KeyPair) (csr : bytes) (cert : Certificate) (body : bytes) : Prop := {
  gr_key : KeyPair_generate client_entropy = Ok key;
  gr_csr : ∃ params, CertificateParams_new [] = Ok params ∧
    serialize_request (push_common_name n params) key = Ok csr;
  gr_cert params pk : CSR_from_pem csr = Ok (params, pk) → ∃ ca issuer,
    KeyPair_from_pem (ca_key_pem identity) = Ok ca ∧
    Issuer_from_ca_cert_pem (ca_cert_pem identity) ca = Ok issuer ∧
    CSR_signed_by entropy (client_profile params) pk issuer = Ok cert;
  gr_body : toml_to_string_pretty (enrolled n cert) = Some body;
}.

(** The name is one that the daemon accepts. *)
Definition acceptable : Prop := ∀ params, common_name (push_common_name n params) = Some n.

(** The daemon, before: the token is outstanding, the name is free, every entry of
    the registry can be read, and no faults lie ahead. *)
Record expects (d : Daemon) : Prop := {
  ex_faults : faults (identity_dir d) = [];
  ex_parses : registry_parses (identity_dir d);
  ex_free : ¬ taken n (identity_dir d);
  ex_token : is_Some (files (identity_dir d) !! token_path (token req));
}.

Context (key : KeyPair) (csr : bytes) (cert : Certificate) (body : bytes).
Context (Hgranted : granted key csr cert body) (Hname : acceptable).
Abbreviation fp := (blake3_hex (cert_der cert)).

Lemma csr_read : ∃ params pk, CSR_from_pem csr = Ok (params, pk) ∧ common_name params = Some n.
Proof.
  destruct Hgranted as [_ (params & _ & Hs) _ _].
  destruct (csr_subject _ _ _ Hs) as (params' & pk & Hr & Hc). exists params', pk. split; [done|].
  rewrite <- (Hname params). unfold common_name. by rewrite Hc.
Qed.

Lemma cert_read : pem_to_der (cert_pem cert) = Some (cert_der cert) ∧ utf8_valid (cert_pem cert) = true ∧
  trim (cert_pem cert) ≠ [].
Proof.
  destruct csr_read as (params & pk & Hr & _). destruct (gr_cert _ _ _ _ Hgranted _ _ Hr) as (? & ? & _ & _ & Hc).
  by eapply cert_armor.
Qed.

(** The daemon's side. *)
Lemma enroll_grants d :
  expects d → ∃ d', enroll svc entropy (token req) csr d =
      (Done {| resp_cert_pem := cert_pem cert; resp_ca_cert_pem := ca_cert_pem identity |}, d') ∧
    faults (identity_dir d') = [] ∧ files (identity_dir d') !! token_path (token req) = None ∧
    files (identity_dir d') !! client_path fp = Some (settled body).
Proof.
  intros [Hf Hp Hfree Ht]. unfold enroll. rewrite Hauth. unfold mbind, Handler_bind, identity_task.
  destruct (consume_token_outstanding _ _ Hf Ht) as (w1 & -> & Hw1 & Hf1). cbn [map_outcome identity_dir].
  destruct csr_read as (params & pk & Hr & Hn).
  destruct (gr_cert _ _ _ _ Hgranted _ _ Hr) as (ca & issuer & Hca & Hi & Hc).
  pose proof (wp_enroll_client_ok identity entropy csr w1 params pk n ca issuer cert body Hf1
    (spent_parses _ _ _ Hw1 Hp) Hr Hn Hca Hi Hc (gr_body _ _ _ _ Hgranted)) as [_ Hw].
  destruct (enroll_client identity entropy csr w1) as [o w2]; cbn [fst snd] in Hw.
  destruct Hw as (-> & Hoth & Hl & Hplaced & _); [by intros ?%(spent_taken _ _ _ Hw1)|].
  eexists. split; [done|]. cbn [identity_dir mret Handler_ret snd]. split_and!; [by eapply no_faults| |done].
  rewrite Hoth; [rewrite Hw1; apply lookup_delete_eq|intros [=]|intros [=]].
Qed.

(** The client's side. *)
Lemma request_runs d r d' :
  req_ca_cert_pem req = ca_cert_pem identity → seen (enroll svc entropy (token req) csr) d = (r, d') →
  request_enrollment req client_entropy d =
    match r with
    | Ok response =>
        if decide (trim (resp_cert_pem response) = []) then (Err (BadResponse "empty certificate"), d')
        else (Ok {| id_cert_pem := resp_cert_pem response; id_key_pem := KeyPair_serialize_pem key;
                    id_ca_cert_pem := req_ca_cert_pem req; id_name := n |}, d')
    | Err c => (Err (EnrollRpc c), d')
    end.
Proof.
  intros Hca Hr. destruct Hgranted as [Hk (params & Hp & Hs) _ _].
  unfold request_enrollment, enroll_rpc, lift_result, gets, mbind, SE_bind. rewrite Hk; cbn [map_err].
  rewrite Hp; cbn [map_err]. rewrite Hs; cbn [map_err connect daemon_enroll rpc_enroll].
  rewrite bool_decide_true by done. cbn [mret SE_ret]. rewrite Hr.
  destruct r as [response|c]; cbn [map_err]; [|done]. by destruct (decide _).
Qed.

(** The entry, read back. *)
Lemma client_record_entry w :
  faults w = [] → files w !! client_path fp = Some (settled body) →
  ∃ w', client_record fp w = (Done (Some (enrolled n cert)), w').
Proof.
  intros Hf He. destruct (no_fault_fails w Hf) as [Hnf Hnc].
  assert (wp (client_record fp) (λ o _, o = Done (Some (enrolled n cert))) w) as Hw.
  { unfold client_record. apply wp_bind, wp_read_to_string; [|done..]. intros w' _. rewrite He.
    cbn [content settled]. rewrite (toml_utf8 _ _ (gr_body _ _ _ _ Hgranted)). apply wp_lift_bind.
    by rewrite (toml_from_to _ _ (gr_body _ _ _ _ Hgranted)). }
  unfold wp in Hw. destruct (client_record fp w) as [o w']. exists w'. by rewrite <- Hw.
Qed.

End enrollment.

(** ** Example *)

Module Examples.
Import Reference IdentityReference.
Import IdentityTheorems.Examples(fresh, play, daemon, tok, one_client).

(** A request is its common name. *)
#[export] Instance csr : RcgenCsrPkg := λ params key,
  match common_name_attr params with
  | Some (Utf8String (b :: s)) => Ok (b :: s)
  | _ => Err ()
  end.

Lemma is_text_ascii b : is_text b → is_ascii_byte b.
Proof.
  intros Hb. assert (forallb (λ b, bool_decide (byte_to_Z b < 128)) (x3d :: ALPHABET) = true) as Ha
    by (vm_compute; reflexivity).
  by apply (forallb_elem _ _ Ha), bool_decide_eq_true in Hb.
Qed.

Lemma pem_of_text der : utf8_valid (pem_of der) = true ∧ trim (pem_of der) ≠ [].
Proof.
  assert (Hlit : ∀ l, forallb (λ b, bool_decide (byte_to_Z b < 128)) l = true → Forall is_ascii_byte l).
  { intros l Hl. apply Forall_forall. intros b Hb. by apply (forallb_elem _ _ Hl), bool_decide_eq_true in Hb. }
  split.
  - unfold utf8_valid. rewrite utf8_decode_ascii; [by apply bool_decide_eq_true; eexists|].
    unfold pem_of, pem_armor. rewrite bind_singleton. rewrite !Forall_app.
    repeat apply conj; lazymatch goal with
    | |- Forall _ (base64_encode _) => eapply Forall_impl; [apply base64_encode_text|apply is_text_ascii]
    | _ => apply Hlit; vm_compute; reflexivity
    end.
  - assert (x2d ∈ trim (pem_of der)) as Hd; [|intros E; rewrite E in Hd; by apply elem_of_nil in Hd].
    apply trim_elem; [apply (bool_decide_unpack _); vm_compute; done|]. by left.
Qed.

#[export] Instance csr_laws : RcgenCsrLaws.
Proof.
  split.
  - intros params key pem. unfold serialize_request, csr.
    destruct (common_name_attr params) as [[[|b s]|s|]|] eqn:E; intros [= <-].
    cbn [CSR_from_pem rcgen]. by eexists _, _.
  - intros entropy params pk issuer cert [= <-]. cbn [cert_pem cert_der].
    destruct (pem_of_text (entropy ++ pk)). split_and!; [|done..].
    apply pem_to_der_armor; [apply (bool_decide_unpack _); vm_compute; done..|apply app_nil_r].
Qed.

(** The daemon has minted a token; a laptop is enrolled already. *)
Definition minted : World := (play (IdMint 7 :: one_client) fresh).2.
Definition expecting : Daemon := {| store_dir := fresh; identity_dir := minted |}.
Definition request : EnrollmentRequest := {|
  daemon_url := str "https://backup:47820"; req_ca_cert_pem := str "ca"; token := tok; req_name := str "desk" |}.
Definition desk : Certificate := {| cert_der := str "r2desk"; cert_pem := pem_of (str "r2desk") |}.

Lemma registry_minted : registry minted = registry (play one_client fresh).2.
Proof. compute_eq. Qed.

Lemma expecting_expects : expects request expecting.
Proof.
  split.
  - compute_eq.
  - intros p Hp. assert (registry_files minted = [client_path (blake3_hex (str "r1laptop"))]) as E by compute_eq.
    change (p ∈ registry_files minted) in Hp. rewrite E in Hp. apply list_elem_of_singleton in Hp as ->. vm_compute. by eexists.
  - intros (p & r & Hin & [Hname _]). change (identity_dir expecting) with minted in Hin.
    assert (registry minted = [(client_path (blake3_hex (str "r1laptop")),
      {| name := str "laptop"; fingerprint := blake3_hex (str "r1laptop"); revoked := false |})]) as E by compute_eq.
    rewrite E in Hin. apply list_elem_of_singleton in Hin as [= _ ->]. vm_compute in Hname. discriminate Hname.
  - vm_compute. by eexists.
Qed.

Lemma desk_granted :
  granted daemon (str "r2" : @Entropy rcgen) request (str "key" : @Entropy rcgen) (str "key" : @KeyPair rcgen)
    (str "desk") desk (x30 :: str "desk" ++ [x0a] ++ blake3_hex (str "r2desk")).
Proof.
  split.
  - reflexivity.
  - by eexists.
  - intros params pk [= <- <-]. eexists _, _. split_and!; reflexivity.
  - compute_eq.
Qed.

Definition request_run :=
  @request_enrollment _ csr Daemon (daemon_enroll (with_auth daemon) daemon (str "r2" : @Entropy rcgen))
    request (str "key" : @Entropy rcgen) expecting.

End Examples.
