(* ===== verification/Snapshots.v ===== *)
(** * Listing snapshots ([busyncr-client/src/snapshots.rs])

    The listing, over any server ([Rpc]), and the date that is printed with an
    entry.  The calendar arithmetic is compared with the proleptic Gregorian
    calendar, defined by the day that follows a day. *)

From stdpp Require Import pretty.
From S2P Require Import Prelude External Text Rpc.

(** ** The listing *)

Inductive ListError := ListRpc (c : Code) | BadSnapshotId (found : Z).

Section listing.
Context `{UlidPkg} {S : Type} `{!Busyncr S}.

Record SnapshotEntry := { entry_id : Ulid; timestamp_ms : Z }.

(** The order of the pairs [(timestamp_ms, id)]. *)
Definition entry_le (a b : SnapshotEntry) : Prop :=
  timestamp_ms a < timestamp_ms b ∨
  timestamp_ms a = timestamp_ms b ∧ bytes_le (Ulid_to_bytes (entry_id a)) (Ulid_to_bytes (entry_id b)).
#[global] Instance entry_le_dec : RelDecision entry_le.
Proof. intros a b. unfold entry_le. apply _. Defined.

(** The loop body over the answer. *)
Definition push_entry (entries : list SnapshotEntry) (raw : bytes) : result ListError (list SnapshotEntry) :=
  bs ← ok_or (BadSnapshotId (len raw)) (array_of_list 16 raw);
  let id := Ulid_from_bytes bs in
  Ok (entries ++ [{| entry_id := id; timestamp_ms := Ulid_timestamp_ms id |}]).

(** [list_snapshots], once connected. *)
Definition list_snapshots (server : S) : result ListError (list SnapshotEntry) * S :=
  let '(response, server) := rpc_list_snapshots server in
  (ids ← map_err ListRpc response;
   entries ← foldM push_entry [] ids;
   Ok (merge_sort entry_le entries), server).
End listing.

(** ** Dates *)

(** Rust's [/] and [%] on [i64] truncate; [as u32] wraps. *)
Definition to_u32 (z : Z) : Z := z mod 4294967296.

Definition civil_from_days (z : Z) : Z * Z * Z :=
  let z := z + 719468 in
  let era := Z.quot (if decide (0 ≤ z) then z else z - 146096) 146097 in
  let doe := z - era * 146097 in
  let yoe := Z.quot (doe - Z.quot doe 1460 + Z.quot doe 36524 - Z.quot doe 146096) 365 in
  let year := yoe + era * 400 in
  let doy := doe - (365 * yoe + Z.quot yoe 4 - Z.quot yoe 100) in
  let mp := Z.quot (5 * doy + 2) 153 in
  let day := to_u32 (doy - Z.quot (153 * mp + 2) 5 + 1) in
  let month := to_u32 (if decide (mp < 10) then mp + 3 else mp - 9) in
  (year + (if decide (month ≤ 2) then 1 else 0), month, day).

(** [format!("{n:0w}")] of a non-negative integer. *)
Definition padded (w : nat) (n : Z) : bytes :=
  let digits := str (pretty (Z.to_N n)) in
  replicate (w - length digits) x30 ++ digits.

Definition format_utc_ms (timestamp_ms : Z) : bytes :=
  let secs := timestamp_ms / 1000 in
  let days := secs / 86400 in
  let rem := secs mod 86400 in
  let '(year, month, day) := civil_from_days days in
  let '(hour, minute, second) := (rem / 3600, rem mod 3600 / 60, rem mod 60) in
  padded 4 year ++ str "-" ++ padded 2 month ++ str "-" ++ padded 2 day ++ str " " ++
  padded 2 hour ++ str ":" ++ padded 2 minute ++ str ":" ++ padded 2 second ++ str " UTC".

(** ** The calendar *)

Definition leap (year : Z) : bool :=
  bool_decide (year mod 4 = 0 ∧ (year mod 100 ≠ 0 ∨ year mod 400 = 0)).

Definition month_length (year month : Z) : Z :=
  if decide (month = 2) then (if leap year then 29 else 28)
  else if decide (month ∈ [4; 6; 9; 11]) then 30 else 31.

(** The day after a day. *)
Definition next_day (date : Z * Z * Z) : Z * Z * Z :=
  let '(year, month, day) := date in
  if decide (day < month_length year month) then (year, month, day + 1)
  else if decide (month < 12) then (year, month + 1, 1)
  else (year + 1, 1, 1).

Definition in_calendar (date : Z * Z * Z) : Prop :=
  let '(year, month, day) := date in 1 ≤ month ≤ 12 ∧ 1 ≤ day ≤ month_length year month.

(** ** The algorithm, by 400-year cycles *)

(** The date of a day of the cycle that begins on the first of March of year 0. *)
Definition civil_of_doe (doe : Z) : Z * Z * Z := civil_from_days (doe - 719468).

Definition add_years (k : Z) (date : Z * Z * Z) : Z * Z * Z :=
  let '(year, month, day) := date in (year + k, month, day).

Lemma era_floor (z : Z) : Z.quot (if decide (0 ≤ z) then z else z - 146096) 146097 = z / 146097.
Proof.
  destruct (decide _).
  - by apply Z.quot_div_nonneg.
  - apply (Z.div_unique_pos _ _ _ (Z.rem (z - 146096) 146097 + 146096)).
    + pose proof (Z.rem_bound_pos_neg (z - 146096) 146097 ltac:(lia) ltac:(lia)). lia.
    + pose proof (Z.quot_rem' (z - 146096) 146097). lia.
Qed.

Lemma civil_cycles (z : Z) :
  civil_from_days z = add_years (400 * ((z + 719468) / 146097)) (civil_of_doe ((z + 719468) mod 146097)).
Proof.
  unfold civil_of_doe, civil_from_days. rewrite Z.sub_add. rewrite !era_floor.
  set (q := (z + 719468) / 146097). set (doe := (z + 719468) mod 146097).
  assert (doe / 146097 = 0) as -> by (apply Z.div_small; unfold doe; by apply Z.mod_pos_bound).
  assert (z + 719468 - q * 146097 = doe) as -> by (unfold q, doe; rewrite Z.mod_eq by lia; lia).
  rewrite Z.mul_0_l, Z.sub_0_r. cbn [add_years]. f_equal. f_equal. lia.
Qed.

Lemma leap_cycle year k : leap (year + 400 * k) = leap year.
Proof.
  unfold leap. apply bool_decide_ext.
  assert ((year + 400 * k) mod 4 = year mod 4) as ->.
  { replace (400 * k) with (100 * k * 4) by lia. by rewrite Z.mod_add. }
  assert ((year + 400 * k) mod 100 = year mod 100) as ->.
  { replace (400 * k) with (4 * k * 100) by lia. by rewrite Z.mod_add. }
  assert ((year + 400 * k) mod 400 = year mod 400) as ->.
  { replace (400 * k) with (k * 400) by lia. by rewrite Z.mod_add. }
  done.
Qed.

Lemma next_day_cycle k date : next_day (add_years (400 * k) date) = add_years (400 * k) (next_day date).
Proof.
  destruct date as [[year month] day]. cbn [add_years next_day]. unfold month_length.
  rewrite leap_cycle. repeat case_decide; cbn [add_years]; f_equal; f_equal; lia.
Qed.

(** The first day of a year of the cycle, years beginning in March, and its
    length; it ends with the February of the next calendar year. *)
Definition year_start (y : Z) : Z := 365 * y + y / 4 - y / 100 + y / 400.
Definition year_days (y : Z) : Z := if leap (y + 1) then 366 else 365.

Lemma year_start_next y : year_start (y + 1) = year_start y + year_days y.
Proof.
  unfold year_start, year_days, leap. case_bool_decide; Z.to_euclidean_division_equations; lia.
Qed.

(** Every day of the cycle is a day of one of its years. *)
Lemma day_of_year doe : 0 ≤ doe < 146097 → ∃ y doy, 0 ≤ y < 400 ∧ 0 ≤ doy < year_days y ∧ doe = year_start y + doy.
Proof.
  intros Hd. assert (H : ∀ n : nat, doe < year_start (Z.of_nat n) →
    ∃ y doy, 0 ≤ y < Z.of_nat n ∧ 0 ≤ doy < year_days y ∧ doe = year_start y + doy).
  { induction n as [|n IH]; [change (year_start (Z.of_nat 0)) with 0; lia|]. replace (Z.of_nat (S n)) with (Z.of_nat n + 1) by lia.
    rewrite year_start_next. intros Hn. destruct (decide (doe < year_start (Z.of_nat n))) as [Hlt|Hge].
    - destruct (IH Hlt) as (y & doy & Hy & Hr). exists y, doy. split; [lia|done].
    - exists (Z.of_nat n), (doe - year_start (Z.of_nat n)). lia. }
  destruct (H 400%nat) as (y & doy & Hy & Hr); [change (year_start (Z.of_nat 400)) with 146097; lia|].
  exists y, doy. split; [lia|done].
Qed.

(** The year, as the code computes it. *)
Definition yoe_of (doe : Z) : Z := Z.quot (doe - Z.quot doe 1460 + Z.quot doe 36524 - Z.quot doe 146096) 365.

Lemma yoe_of_mono a b : 0 ≤ a ≤ b → yoe_of a ≤ yoe_of b.
Proof.
  intros Hab. unfold yoe_of. apply Z.quot_le_mono; [lia|].
  rewrite (Z.quot_div_nonneg a 1460), (Z.quot_div_nonneg a 36524), (Z.quot_div_nonneg a 146096),
    (Z.quot_div_nonneg b 1460), (Z.quot_div_nonneg b 36524), (Z.quot_div_nonneg b 146096) by lia.
  assert (a / 36524 ≤ b / 36524) by (apply Z.div_le_mono; lia).
  assert (Hd : b / 1460 - a / 1460 + (b / 146096 - a / 146096) ≤ b - a + (b / 36524 - a / 36524)).
  { assert (b / 146096 = b / 36524 / 4) as -> by by rewrite Z.div_div.
    assert (a / 146096 = a / 36524 / 4) as -> by by rewrite Z.div_div.
    Z.to_euclidean_division_equations. lia. }
  lia.
Qed.

Definition year_ok (y : Z) : bool :=
  (yoe_of (year_start y) =? y) && (yoe_of (year_start y + year_days y - 1) =? y).

Lemma yoe_of_day y doy : 0 ≤ y < 400 → 0 ≤ doy < year_days y → yoe_of (year_start y + doy) = y.
Proof.
  intros Hy Hd. assert (forallb year_ok (seqZ 0 400) = true) as Hall by (vm_compute; reflexivity).
  assert (year_ok y = true) as [Ha%Z.eqb_eq Hb%Z.eqb_eq]%andb_true_iff.
  { apply (forallb_elem _ _ Hall). apply elem_of_seqZ. lia. }
  assert (0 ≤ year_start y) by (unfold year_start; Z.to_euclidean_division_equations; lia).
  pose proof (yoe_of_mono (year_start y) (year_start y + doy)).
  pose proof (yoe_of_mono (year_start y + doy) (year_start y + year_days y - 1)). lia.
Qed.

(** The month and day of a day of a year, and whether it is in the next calendar
    year. *)
Definition month_day (doy : Z) : Z * Z * Z :=
  let mp := Z.quot (5 * doy + 2) 153 in
  let month := to_u32 (if decide (mp < 10) then mp + 3 else mp - 9) in
  (if decide (month ≤ 2) then 1 else 0, month, to_u32 (doy - Z.quot (153 * mp + 2) 5 + 1)).

Lemma civil_of_day y doy : 0 ≤ y < 400 → 0 ≤ doy < year_days y →
  civil_of_doe (year_start y + doy) = add_years y (month_day doy).
Proof.
  intros Hy Hd. pose proof (yoe_of_day y doy Hy Hd) as Hyoe. unfold civil_of_doe, civil_from_days.
  rewrite Z.sub_add, era_floor.
  assert (Hr : 0 ≤ year_start y + doy < 146097).
  { unfold year_start, year_days, leap in *. revert Hd. case_bool_decide; Z.to_euclidean_division_equations; lia. }
  rewrite (Z.div_small _ 146097) by lia. rewrite Z.mul_0_l, Z.sub_0_r, Z.add_0_r.
  unfold yoe_of in Hyoe. rewrite Hyoe.
  assert (year_start y + doy - (365 * y + Z.quot y 4 - Z.quot y 100) = doy) as ->.
  { rewrite !Z.quot_div_nonneg by lia. unfold year_start. rewrite (Z.div_small y 400) by lia. lia. }
  unfold month_day. cbn [add_years]. f_equal. f_equal. lia.
Qed.

(** The calendar within a year, the two kinds of years apart. *)
Definition next_in (lp : bool) (date : Z * Z * Z) : Z * Z * Z :=
  let '(c, month, day) := date in
  let days := if decide (month = 2) then (if lp then 29 else 28)
              else if decide (month ∈ [4; 6; 9; 11]) then 30 else 31 in
  if decide (day < days) then (c, month, day + 1)
  else if decide (month < 12) then (c, month + 1, 1) else (c + 1, 1, 1).

Definition doy_ok (lp : bool) (doy : Z) : bool :=
  let last : Z := if lp then 365 else 364 in
  bool_decide (next_in lp (month_day doy) = if decide (doy < last) then month_day (doy + 1) else (1, 3, 1)).

Lemma month_day_next (lp : bool) (doy : Z) : 0 ≤ doy < (if lp then 366 else 365 : Z) →
  next_in lp (month_day doy) =
    if decide (doy < (if lp then 365 else 364 : Z)) then month_day (doy + 1) else (1, 3, 1).
Proof.
  intros Hd. assert (forallb (doy_ok true) (seqZ 0 366) && forallb (doy_ok false) (seqZ 0 365) = true)
    as [Ht Hf]%andb_true_iff by (vm_compute; reflexivity).
  assert (doy_ok lp doy = true) as Hok; [|by apply bool_decide_eq_true in Hok].
  destruct lp; [apply (forallb_elem _ _ Ht)|apply (forallb_elem _ _ Hf)]; apply elem_of_seqZ; lia.
Qed.

Lemma next_day_in y doy :
  next_day (add_years y (month_day doy)) = add_years y (next_in (leap (y + 1)) (month_day doy)).
Proof.
  unfold month_day. set (m := to_u32 (if decide _ then _ else _)). set (d := to_u32 _).
  cbn [add_years next_day next_in]. unfold month_length.
  destruct (decide (m ≤ 2)) as [Hm|Hm].
  - rewrite (Z.add_comm 1 y). repeat case_decide; cbn [add_years]; try lia; f_equal; f_equal; try lia.
  - rewrite (decide_False (P := m = 2)) by lia. repeat case_decide; cbn [add_years]; try lia; f_equal; f_equal; try lia.
Qed.

(** The day after a day of the cycle. *)
Lemma civil_of_next doe : 0 ≤ doe < 146097 →
  next_day (civil_of_doe doe) =
    if decide (doe < 146096) then civil_of_doe (doe + 1) else add_years 400 (civil_of_doe 0).
Proof.
  intros (y & doy & Hy & Hd & ->)%day_of_year. pose proof (year_start_next y) as Hnext.
  rewrite civil_of_day, next_day_in by done. unfold year_days in *.
  rewrite month_day_next by (destruct (leap (y + 1)); lia).
  destruct (decide (doy < (if leap (y + 1) then 365 else 364 : Z))) as [Hlt|Hge].
  - assert (year_start y + doy < 146096) as Hin.
    { assert (year_start y + doy + 1 < year_start (y + 1)) by (destruct (leap (y + 1)); lia).
      assert (year_start (y + 1) ≤ 146097); [|lia]. unfold year_start. Z.to_euclidean_division_equations. lia. }
    rewrite decide_True by done. rewrite <- Z.add_assoc, civil_of_day; [done..|].
    unfold year_days. destruct (leap (y + 1)); lia.
  - assert (Hlast : year_start y + doy + 1 = year_start (y + 1)) by (destruct (leap (y + 1)); lia).
    destruct (decide (y = 399)) as [->|Hne].
    + rewrite decide_False; [reflexivity|]. change (year_start (399 + 1)) with 146097 in Hlast. lia.
    + rewrite decide_True, Hlast.
      * rewrite <- (Z.add_0_r (year_start (y + 1))), civil_of_day; [|lia|clear; unfold year_days; destruct (leap _); lia].
        change (month_day 0) with (0, 3, 1). cbn [add_years]. f_equal. f_equal. lia.
      * assert (year_start (y + 1) ≤ year_start 399 + 1); [|change (year_start 399) with 145731 in *; lia].
        unfold year_start. Z.to_euclidean_division_equations. lia.
Qed.

Lemma civil_next z : civil_from_days (z + 1) = next_day (civil_from_days z).
Proof.
  rewrite (civil_cycles z), (civil_cycles (z + 1)), next_day_cycle.
  set (x := z + 719468). replace (z + 1 + 719468) with (x + 1) by (unfold x; lia).
  pose proof (Z.mod_pos_bound x 146097 ltac:(lia)) as Hr. rewrite civil_of_next by done.
  pose proof (Z.div_mod x 146097 ltac:(lia)) as Hx. destruct (decide _) as [Hlt|Hge].
  - assert ((x + 1) / 146097 = x / 146097) as ->.
    { symmetry. apply (Z.div_unique_pos _ _ _ (x mod 146097 + 1)); lia. }
    assert ((x + 1) mod 146097 = x mod 146097 + 1) as ->; [|done].
    symmetry. apply (Z.mod_unique_pos _ _ (x / 146097)); lia.
  - assert ((x + 1) / 146097 = x / 146097 + 1) as ->.
    { symmetry. apply (Z.div_unique_pos _ _ _ 0); lia. }
    assert ((x + 1) mod 146097 = 0) as ->.
    { symmetry. apply (Z.mod_unique_pos _ _ (x / 146097 + 1)); lia. }
    destruct (civil_of_doe 0) as [[y m] d]. cbn [add_years]. f_equal. f_equal. lia.
Qed.

Lemma next_day_calendar date : in_calendar date → in_calendar (next_day date).
Proof.
  destruct date as [[y m] d]. intros [Hm Hd]. cbn [next_day].
  destruct (decide (d < month_length y m)); [split; [done|lia]|].
  destruct (decide (m < 12)); (split; [lia|]).
  - unfold month_length. repeat case_decide; try case_match; lia.
  - unfold month_length. repeat case_decide; try case_match; lia.
Qed.

(** Counting days from the epoch. *)
Definition days_after (n : nat) (date : Z * Z * Z) : Z * Z * Z := Nat.iter n next_day date.

Lemma civil_counts n : civil_from_days (Z.of_nat n) = days_after n (1970, 1, 1) ∧
  in_calendar (days_after n (1970, 1, 1)).
Proof.
  induction n as [|n [IH Hc]]; [split; [reflexivity|by vm_compute]|].
  unfold days_after in *. rewrite Nat.iter_succ. split; [|by apply next_day_calendar].
  replace (Z.of_nat (S n)) with (Z.of_nat n + 1) by lia. by rewrite civil_next, IH.
Qed.

(** C39. The text of a timestamp is the date that the calendar reaches when it counts
    the days since the first of January 1970, followed by the time of that day;
    both are well-formed, over the whole range of 64-bit milliseconds. *)
Theorem format_utc_ms_spec ms : in_u64 ms →
  let '(year, month, day) := days_after (Z.to_nat (ms / 86400000)) (1970, 1, 1) in
  ∃ hour minute second,
    in_calendar (year, month, day) ∧ 0 ≤ hour < 24 ∧ 0 ≤ minute < 60 ∧ 0 ≤ second < 60 ∧
    ms / 1000 = 86400 * (ms / 86400000) + 3600 * hour + 60 * minute + second ∧
    format_utc_ms ms = padded 4 year ++ str "-" ++ padded 2 month ++ str "-" ++ padded 2 day ++ str " " ++
      padded 2 hour ++ str ":" ++ padded 2 minute ++ str ":" ++ padded 2 second ++ str " UTC".
Proof.
  intros Hms. destruct (civil_counts (Z.to_nat (ms / 86400000))) as [Hc Hok].
  rewrite Z2Nat.id in Hc by (apply Z.div_pos; [apply Hms|lia]). rewrite <- Hc in *.
  assert (Hdd : ms / 1000 / 86400 = ms / 86400000) by by rewrite Z.div_div.
  destruct (civil_from_days (ms / 86400000)) as [[year month] day] eqn:E.
  set (rem := (ms / 1000) mod 86400).
  exists (rem / 3600), (rem mod 3600 / 60), (rem mod 60).
  assert (0 ≤ rem < 86400) by (unfold rem; by apply Z.mod_pos_bound).
  assert (ms / 1000 = 86400 * (ms / 86400000) + rem) as Hsecs.
  { unfold rem. rewrite <- Hdd. by apply Z.div_mod. }
  split; [done|]. split; [Z.to_euclidean_division_equations; lia|].
  split; [Z.to_euclidean_division_equations; lia|]. split; [Z.to_euclidean_division_equations; lia|].
  split; [Z.to_euclidean_division_equations; lia|].
  unfold format_utc_ms. fold rem. by rewrite Hdd, E.
Qed.

(** ** What the listing answers *)

Section listing_theorems.
Context `{UlidLaws} {S : Type} `{!Busyncr S}.

#[global] Instance entry_le_total : Total entry_le.
Proof.
  intros a b. unfold entry_le. destruct (Z.lt_trichotomy (timestamp_ms a) (timestamp_ms b)) as [?|[?|?]]; auto.
  destruct (bytes_le_total (Ulid_to_bytes (entry_id a)) (Ulid_to_bytes (entry_id b))); auto.
Qed.
#[global] Instance entry_le_trans : Transitive entry_le.
Proof.
  intros a b c [Hab|[Hab Hab']] [Hbc|[Hbc Hbc']]; [left; lia..|right]. split; [lia|by etrans].
Qed.

(** An entry, from its identity. *)
Definition entry_of (id : Ulid) : SnapshotEntry := {| entry_id := id; timestamp_ms := Ulid_timestamp_ms id |}.

Lemma push_entry_eq entries raw :
  push_entry entries raw =
    match array_of_list 16 raw with
    | Some b => Ok (entries ++ [entry_of (Ulid_from_bytes b)])
    | None => Err (BadSnapshotId (len raw))
    end.
Proof. unfold push_entry. by destruct (array_of_list 16 raw). Qed.

Lemma push_entries ids entries :
  foldM push_entry entries ids =
    match mapM (array_of_list 16) ids with
    | Some bs => Ok (entries ++ ((λ b, entry_of (Ulid_from_bytes b)) <$> bs))
    | None => Err (BadSnapshotId (default 0 (len <$> find (λ raw, negb (length raw =? 16)%nat) ids)))
    end.
Proof.
  revert entries; induction ids as [|raw ids IH]; intros entries.
  { cbn. by rewrite app_nil_r. }
  change (foldM push_entry entries (raw :: ids)) with (push_entry entries raw ≫= λ e, foldM push_entry e ids).
  change (mapM (array_of_list 16) (raw :: ids)) with
    (array_of_list 16 raw ≫= λ b, mapM (array_of_list 16) ids ≫= λ bs, Some (b :: bs)).
  cbn [find]. rewrite push_entry_eq.
  destruct (array_of_list 16 raw) as [b|] eqn:E; cbn [mbind result_bind option_bind].
  - apply array_of_list_Some in E as E'. rewrite IH.
    assert (length raw = 16%nat) as -> by (rewrite <- E'; apply length_vec_to_list). cbn [Nat.eqb negb].
    destruct (mapM _ ids); cbn [option_bind]; [by rewrite <- app_assoc|done].
  - apply array_of_list_None in E. by rewrite (proj2 (Nat.eqb_neq _ _) E).
Qed.

(** The listing is the server's: an entry for each of its identities, with the
    time inside it, in chronological order, which is the order of the identities;
    the server's refusal is passed on, and an identity that is not 16 bytes long is
    reported with its length. *)
Theorem list_snapshots_spec (server : S) :
  let '(r, server') := list_snapshots server in
  let '(response, server1) := rpc_list_snapshots server in
  server' = server1 ∧
  match response with
  | Err c => r = Err (ListRpc c)
  | Ok ids =>
      match mapM (array_of_list 16) ids with
      | Some bs => ∃ entries, r = Ok entries ∧
          Permutation entries ((λ b, entry_of (Ulid_from_bytes b)) <$> bs) ∧
          StronglySorted (λ a b, timestamp_ms a ≤ timestamp_ms b ∧
            bytes_le (Ulid_to_bytes (entry_id a)) (Ulid_to_bytes (entry_id b))) entries
      | None => ∃ raw, raw ∈ ids ∧ length raw ≠ 16%nat ∧ r = Err (BadSnapshotId (len raw))
      end
  end.
Proof.
  unfold list_snapshots. destruct (rpc_list_snapshots server) as [[ids|c] server']; cbn [map_err]; [|done].
  split; [done|]. cbn [mbind result_bind]. rewrite push_entries.
  destruct (mapM (array_of_list 16) ids) as [bs|] eqn:E; cbn [mbind result_bind app].
  - eexists. split; [done|]. split; [apply merge_sort_Permutation|].
    set (l := (λ b, entry_of (Ulid_from_bytes b)) <$> bs).
    assert (Hts : Forall (λ e, timestamp_ms e = Ulid_timestamp_ms (entry_id e)) (merge_sort entry_le l)).
    { rewrite merge_sort_Permutation. unfold l. apply Forall_fmap, Forall_true. by intros b. }
    assert (Hsort : StronglySorted entry_le (merge_sort entry_le l)) by (apply StronglySorted_merge_sort; apply _).
    revert Hts. induction Hsort as [|a k Hk IH Ha]; intros Hts; [constructor|].
    inversion Hts as [|? ? Hta Htk]; subst. constructor; [by apply IH|].
    rewrite Forall_forall in *. intros b Hb. specialize (Ha b Hb) as [Hlt|[Heq Hle]]; [|split; [lia|done]].
    split; [lia|]. destruct (bytes_le_total (Ulid_to_bytes (entry_id a)) (Ulid_to_bytes (entry_id b))) as [|Hge]; [done|].
    exfalso. apply Ulid_timestamp_mono in Hge. rewrite Hta, (Htk b Hb) in Hlt. lia.
  - destruct (find (λ raw, negb (length raw =? 16)%nat) ids) as [raw|] eqn:Ef.
    + apply find_some in Ef as [Hin Hl]. exists raw. split; [by apply list_elem_of_In|].
      split; [|done]. intros Hl'. by rewrite Hl' in Hl.
    + exfalso. assert (∀ raw, raw ∈ ids → is_Some (array_of_list 16 raw)) as Hall.
      { intros raw Hr. apply list_elem_of_In in Hr. apply (find_none _ _ Ef) in Hr.
        destruct (array_of_list 16 raw) eqn:En; [by eexists|]. apply array_of_list_None in En.
        by rewrite (proj2 (Nat.eqb_neq _ _) En) in Hr. }
      assert (is_Some (mapM (array_of_list 16) ids)) as [? ?]; [|congruence].
      apply mapM_is_Some, Forall_forall. exact Hall.
Qed.
End listing_theorems.

(** ** Examples *)

Module Examples.
Import Reference.

Example formats :
  (λ ms, String.string_of_list_byte (format_utc_ms ms)) <$> [0; 999; 1700000000000; 1709208000000; u64_max] =
  ["1970-01-01 00:00:00 UTC"; "1970-01-01 00:00:00 UTC"; "2023-11-14 22:13:20 UTC"; "2024-02-29 12:00:00 UTC";
   "584556019-04-03 14:25:51 UTC"]%string.
Proof. vm_compute. reflexivity. Qed.

Lemma format_utc_ms_spec_witness :
  days_after (Z.to_nat (951782400000 / 86400000)) (1970, 1, 1) = (2000, 2, 29) ∧
  ∃ hour minute second, 0 ≤ hour < 24 ∧ format_utc_ms 951782400000 =
    str "2000-02-29 " ++ padded 2 hour ++ str ":" ++ padded 2 minute ++ str ":" ++ padded 2 second ++ str " UTC".
Proof.
  assert (E : days_after (Z.to_nat (951782400000 / 86400000)) (1970, 1, 1) = (2000, 2, 29)) by (vm_compute; reflexivity).
  pose proof (format_utc_ms_spec 951782400000 ltac:(unfold in_u64, u64_max; lia)) as Hf. rewrite E in Hf.
  destruct Hf as (h & m & s & _ & Hh & _ & _ & _ & Ht). split; [exact E|]. exists h, m, s.
  split; [exact Hh|]. rewrite Ht. reflexivity.
Defined.
End Examples.
