(* ===== verification/Backup.v ===== *)
(** * The backup pipeline ([busyncr-client/src/backup.rs])

    The walk over the folder trees, the chunk batches with their dedup rounds and
    uploads, the manifest and the running report, over any server ([Rpc]).  The
    sources are values: what the operating system answers when they are listed,
    stat'ed, opened and read.  The two keys and the connection, which [enroll.rs]
    loads, are arguments; the paths inside errors are left out. *)

From S2P Require Import Prelude External Text Chunking Manifest Compression Crypto Rpc.

Definition BATCH_MAX_CHUNKS : Z := 64.
Definition BATCH_MAX_BYTES : Z := 32 * 1024 * 1024.

Inductive BackupError :=
  | BackupIo
  | BadRoot
  | DuplicateRootName (name : bytes)
  | NonUtf8Path
  | BackupChunking (e : ChunkingError)
  | BackupCrypto (e : CryptoError)
  | BackupManifest (e : ManifestError)
  | BackupRpc (c : Code)
  | BackupBadResponse.

(** ** Sources *)

(** [fs::Metadata]: the modification time is [None] where the platform has
    none, and otherwise what [duration_since(UNIX_EPOCH)] answers. *)
Record Metadata := {
  md_len : Z;
  md_modified : option (result Duration Duration);
  md_mode : Z;
}.

(** A regular file: [None] is an error of the system. *)
Record SourceFile := { sf_metadata : option Metadata; sf_content : option Source }.

(** A directory entry; the entries of a directory in the order of [read_dir],
    [None] when it fails.  [NodeUnknown] has no readable type. *)
#[warnings="-register-all"]
Inductive Node :=
  | NodeFile (f : SourceFile)
  | NodeDir (entries : option (list (bytes * Node)))
  | NodeOther
  | NodeUnknown.

(** A configured root: its path and what is there, links followed. *)
Record Root := { root_path : bytes; root_node : option Node }.

(** [FileSpec]: [abs] stands for the file itself. *)
Record FileSpec := { abs : SourceFile; rel : bytes }.

Definition name_le {A} (a b : bytes * A) : Prop := bytes_le a.1 b.1.
#[global] Instance name_le_dec {A} : RelDecision (@name_le A).
Proof. intros a b. unfold name_le. apply _. Defined.
#[global] Instance name_le_total {A} : Total (@name_le A).
Proof. intros a b. apply bytes_le_total. Qed.
#[global] Instance name_le_trans {A} : Transitive (@name_le A).
Proof. intros a b c. apply bytes_le_trans. Qed.

(** The loop body of [walk_dir]; [walk] is what its branch on the entry's type
    does, given the entry's manifest path. *)
Definition walk_entry (rel_prefix : bytes) (out : list FileSpec)
    (entry : bytes * (bytes → result BackupError (list FileSpec))) :
    result BackupError (list FileSpec) :=
  let '(name, walk) := entry in
  if utf8_valid name then
    specs ← walk (rel_prefix ++ SLASH :: name);
    Ok (out ++ specs)
  else Err NonUtf8Path.

(** [walk_dir], on any node: a directory's entries are taken in the order of
    their names. *)
Fixpoint walk_node (node : Node) (rel : bytes) : result BackupError (list FileSpec) :=
  match node with
  | NodeFile f => Ok [{| abs := f; rel := rel |}]
  | NodeOther => Ok []
  | NodeUnknown | NodeDir None => Err BackupIo
  | NodeDir (Some entries) =>
      foldM (walk_entry rel) []
        (merge_sort name_le ((λ '(name, child), (name, walk_node child)) <$> entries))
  end.

(** The loop body of [collect_files]. *)
Definition collect_root (acc : gset bytes * list FileSpec) (root : Root) :
    result BackupError (gset bytes * list FileSpec) :=
  let '(root_names, specs) := acc in
  match root_node root with
  | Some (NodeDir entries) =>
      name ← ok_or BadRoot (n ← file_name (root_path root); if utf8_valid n then Some n else None);
      if decide (name ∈ root_names) then Err (DuplicateRootName name)
      else
        found ← walk_node (NodeDir entries) name;
        Ok ({[name]} ∪ root_names, specs ++ found)
  | _ => Err BadRoot
  end.

Definition collect_files (roots : list Root) : result BackupError (list FileSpec) :=
  '(_, specs) ← foldM collect_root (∅, []) roots;
  Ok specs.

(** [as i64] on a [u64], and arithmetic that wraps. *)
Definition to_i64 (z : Z) : Z := (z + 2 ^ 63) mod 2 ^ 64 - 2 ^ 63.

Definition mtime_parts (metadata : Metadata) : Z * Z :=
  match md_modified metadata with
  | None => (0, 0)
  | Some (Ok after) => (to_i64 (after / 1000000000), after mod 1000000000)
  | Some (Err before) =>
      let secs := to_i64 (before / 1000000000) in
      let nanos := before mod 1000000000 in
      if decide (nanos = 0) then (to_i64 (- secs), 0)
      else (to_i64 (- to_i64 (secs + 1)), 1000000000 - nanos)
  end.

(** [st_mode], on Unix. *)
Definition file_mode (metadata : Metadata) : Z := md_mode metadata.

(** ** The run *)

Record BackupTotals := { total_files : Z; total_bytes : Z }.

Section backup.
Context `{UlidPkg, Blake3Pkg, FastCdcPkg, ZstdPkg, AeadPkg} {S : Type} `{!Busyncr S}
  {R : Type} `{!CryptoRng R}.

Record BackupReport := {
  report_snapshot_id : Ulid;
  report_files : Z;
  source_bytes : Z;
  chunks_total : Z;
  chunks_unique : Z;
  chunks_uploaded : Z;
  chunks_deduped : Z;
  upload_bytes : Z;
  manifest_bytes : Z;
  compression : PolicyCounters;
}.

(** What [run_backup] is asked for, the sources and keys included. *)
Record BackupRequest := {
  roots : list Root;
  chunker : ChunkerConfig;
  policy : PolicyConfig;
  req_snapshot_id : Ulid;
  req_created_at : Z;
  key : DataKey;
  chunk_id_key : ChunkIdKey;
}.

(** The connection, the source of randomness, the counters, the report, and the
    calls of [on_progress] so far. *)
Record Session := {
  client : S;
  session_rng : R;
  counters : PolicyCounters;
  report : BackupReport;
  ticks : list (BackupReport * BackupTotals * bool);
}.
Abbreviation Run := (SE Session BackupError).

Definition set_client (c : S) (s : Session) : Session :=
  {| client := c; session_rng := session_rng s; counters := counters s; report := report s; ticks := ticks s |}.
Definition set_rng (g : R) (s : Session) : Session :=
  {| client := client s; session_rng := g; counters := counters s; report := report s; ticks := ticks s |}.
Definition set_counters (c : PolicyCounters) (s : Session) : Session :=
  {| client := client s; session_rng := session_rng s; counters := c; report := report s; ticks := ticks s |}.
Definition set_report (r : BackupReport) (s : Session) : Session :=
  {| client := client s; session_rng := session_rng s; counters := counters s; report := r; ticks := ticks s |}.

(** Additions to fields of the report. *)
Record Delta := {
  d_files : Z; d_source : Z; d_total : Z; d_unique : Z; d_uploaded : Z; d_deduped : Z; d_upload : Z;
}.
Definition add_report (d : Delta) (r : BackupReport) : BackupReport := {|
  report_snapshot_id := report_snapshot_id r;
  report_files := u64_add (report_files r) (d_files d);
  source_bytes := u64_add (source_bytes r) (d_source d);
  chunks_total := u64_add (chunks_total r) (d_total d);
  chunks_unique := u64_add (chunks_unique r) (d_unique d);
  chunks_uploaded := u64_add (chunks_uploaded r) (d_uploaded d);
  chunks_deduped := u64_add (chunks_deduped r) (d_deduped d);
  upload_bytes := u64_add (upload_bytes r) (d_upload d);
  manifest_bytes := manifest_bytes r;
  compression := compression r;
|}.
Definition set_manifest_bytes (n : Z) (r : BackupReport) : BackupReport := {|
  report_snapshot_id := report_snapshot_id r; report_files := report_files r;
  source_bytes := source_bytes r; chunks_total := chunks_total r; chunks_unique := chunks_unique r;
  chunks_uploaded := chunks_uploaded r; chunks_deduped := chunks_deduped r;
  upload_bytes := upload_bytes r; manifest_bytes := n; compression := compression r |}.
Definition set_compression (c : PolicyCounters) (r : BackupReport) : BackupReport := {|
  report_snapshot_id := report_snapshot_id r; report_files := report_files r;
  source_bytes := source_bytes r; chunks_total := chunks_total r; chunks_unique := chunks_unique r;
  chunks_uploaded := chunks_uploaded r; chunks_deduped := chunks_deduped r;
  upload_bytes := upload_bytes r; manifest_bytes := manifest_bytes r; compression := c |}.
Definition delta (files source total unique uploaded deduped upload : Z) : Delta := {|
  d_files := files; d_source := source; d_total := total; d_unique := unique;
  d_uploaded := uploaded; d_deduped := deduped; d_upload := upload |}.
Definition count (d : Delta) : Run unit := modify (λ s, set_report (add_report d (report s)) s).

(** An RPC. *)
Definition call {A} (rpc : S → result Code A * S) : Run A := λ s,
  let '(r, c) := rpc (client s) in (map_err BackupRpc r, set_client c s).

(** Encryption draws a nonce. *)
Definition draw {A} (f : R → result CryptoError A * R) : Run A := λ s,
  let '(r, g) := f (session_rng s) in (map_err BackupCrypto r, set_rng g s).

Definition on_progress (totals : BackupTotals) (final : bool) : Run unit :=
  modify (λ s, {| client := client s; session_rng := session_rng s; counters := counters s;
                  report := report s; ticks := ticks s ++ [(report s, totals, final)] |}).

Section session.
Context (req : BackupRequest) (phase : Phase).

(** The loop body over [pending.drain(..)]. *)
Definition flush_one (missing : gset ChunkId) (blobs : list ChunkBlob) (chunk : ChunkId * bytes) :
    Run (list ChunkBlob) :=
  let '(id, data) := chunk in
  if decide (id ∈ missing) then
    before ← gets counters;
    let '((codec, payload), after) := choose_codec data phase (policy req) before in
    modify (set_counters after);;
    let framed := frame codec payload in
    ciphertext ← draw (encrypt_chunk (key req) id framed);
    count (delta 0 0 0 0 1 0 (len ciphertext));;
    mret (blobs ++ [{| blob_chunk_id := vec_to_list id; blob_data := ciphertext |}])
  else
    count (delta 0 0 0 0 0 1 0);;
    mret blobs.

Definition parse_missing (raw : bytes) : result BackupError ChunkId :=
  ok_or BackupBadResponse (array_of_list 32 raw).

(** [Session::flush]; [pending] is empty afterwards. *)
Definition flush (pending : list (ChunkId * bytes)) : Run unit :=
  match pending with
  | [] => mret ()
  | _ =>
      let asked := (λ c, vec_to_list c.1) <$> pending in
      missing_wire ← call (rpc_has_chunks asked);
      missing ← lift_result (mapM parse_missing missing_wire);
      blobs ← foldM (flush_one (list_to_set missing)) [] pending;
      match blobs with
      | [] => mret ()
      | _ =>
          let expected := len blobs in
          outcome ← call (rpc_upload_chunks blobs);
          if decide (u64_add (stored outcome) (already_present outcome) ≠ expected)
          then throw BackupBadResponse else mret ()
      end
  end.

(** Chunks handled this run, and those that await a round. *)
Record Batch := {
  seen : gset ChunkId;
  pending : list (ChunkId * bytes);
  pending_bytes : Z;
}.

(** The loop body over a file's chunks: the batch, the file's chunk list and its
    length so far. *)
Definition take_chunk (totals : BackupTotals) (acc : Batch * (list ChunkId * Z))
    (item : result ChunkingError Chunk) : Run (Batch * (list ChunkId * Z)) :=
  let '(b, (chunk_ids, content_len)) := acc in
  chunk ← lift_result (map_err BackupChunking item);
  let id := Chunk_id chunk in
  let file := (chunk_ids ++ [id], u64_add content_len (Chunk_len chunk)) in
  count (delta 0 0 1 0 0 0 0);;
  if decide (id ∈ seen b) then mret (b, file)
  else
    count (delta 0 0 0 1 0 0 0);;
    let pending := pending b ++ [(id, Chunk_data chunk)] in
    let pending_bytes := u64_add (pending_bytes b) (Chunk_len chunk) in
    let seen := {[id]} ∪ seen b in
    if decide (BATCH_MAX_CHUNKS ≤ len pending ∨ BATCH_MAX_BYTES ≤ pending_bytes) then
      flush pending;;
      on_progress totals false;;
      mret ({| seen := seen; pending := []; pending_bytes := 0 |}, file)
    else mret ({| seen := seen; pending := pending; pending_bytes := pending_bytes |}, file).

(** The loop body over the files. *)
Definition backup_file (totals : BackupTotals) (acc : Batch * list FileEntry) (spec : FileSpec) :
    Run (Batch * list FileEntry) :=
  let '(b, files) := acc in
  source ← lift_result (ok_or BackupIo (sf_content (abs spec)));
  metadata ← lift_result (ok_or BackupIo (sf_metadata (abs spec)));
  '(b, (chunk_ids, content_len)) ← foldM (take_chunk totals) (b, ([], 0))
    (ChunkStream_items (chunk_reader_keyed source (chunker req) (chunk_id_key req)));
  let '(mtime_secs, mtime_nanos) := mtime_parts metadata in
  count (delta 1 content_len 0 0 0 0 0);;
  on_progress totals false;;
  mret (b, files ++ [{| path := rel spec; size := content_len; mtime_secs := mtime_secs;
                        mtime_nanos := mtime_nanos; mode := file_mode metadata;
                        chunks := chunk_ids |}]).
End session.

Definition totals_of (specs : list FileSpec) : BackupTotals := {|
  total_files := len specs;
  total_bytes := foldl u64_add 0 (md_len <$> omap (λ s, sf_metadata (abs s)) specs);
|}.

Definition empty_report (id : Ulid) : BackupReport := {|
  report_snapshot_id := id; report_files := 0; source_bytes := 0; chunks_total := 0;
  chunks_unique := 0; chunks_uploaded := 0; chunks_deduped := 0; upload_bytes := 0;
  manifest_bytes := 0; compression := PolicyCounters_default |}.

Definition start (server : S) (rng : R) (id : Ulid) : Session := {|
  client := server; session_rng := rng; counters := PolicyCounters_default;
  report := empty_report id; ticks := [] |}.

(** Encoding, sealing and storing the manifest. *)
Definition put_manifest (req : BackupRequest) (files : list FileEntry) : Run unit :=
  let manifest := {| snapshot_id := req_snapshot_id req; created_at := req_created_at req;
                     Manifest.files := files |} in
  encoded ← lift_result (map_err BackupManifest (encode manifest));
  sealed ← draw (encrypt_manifest (key req) (req_snapshot_id req) encoded);
  modify (λ s, set_report (set_manifest_bytes (len sealed) (report s)) s);;
  call (rpc_put_manifest {|
    Rpc.manifest := sealed; put_snapshot_id := vec_to_list (Ulid_to_bytes (req_snapshot_id req));
    put_chunk_ids := (λ id, vec_to_list id) <$> chunk_refs manifest |}).

(** [run_backup_with_progress], once connected; the session starts as [start]. *)
Definition run_backup_with_progress (req : BackupRequest) : Run BackupReport :=
  existing ← call rpc_list_snapshots;
  let phase := match existing with [] => InitialFull | _ => Incremental end in
  specs ← lift_result (collect_files (roots req));
  let totals := totals_of specs in
  '(b, files) ← foldM (backup_file req phase totals)
    ({| seen := ∅; pending := []; pending_bytes := 0 |}, []) specs;
  flush req phase (pending b);;
  on_progress totals true;;
  modify (λ s, set_report (set_compression (counters s) (report s)) s);;
  put_manifest req files;;
  gets report.

Definition run_backup (req : BackupRequest) (server : S) (rng : R) :
    result BackupError BackupReport * Session :=
  run_backup_with_progress req (start server rng (req_snapshot_id req)).
End backup.
