(* ===== verification/Records.v ===== *)
(** * Records in one TOML file ([busyncr-daemon/src/config.rs], [busyncr-client/src/status.rs])

    The daemon's configuration and the client's last-backup record: each is one TOML
    file, written in place with [fs::write] and read whole.  The TOML library is a
    parameter on each of the two types. *)

From S2P Require Import Prelude External Text Chunking Compression Crypto StoreIO StoreLogic AtomicFile Rpc Backup.

(** [toml::to_string_pretty] and [toml::from_str] on a type; [default_fields] is what
    an empty file reads as. *)
Class TomlRecord (T : Type) := {
  to_toml : T → option bytes;
  from_toml : bytes → option T;
}.

Class TomlRecordLaws (T : Type) `{TomlRecord T} : Prop := {
  from_to_toml t s : to_toml t = Some s → from_toml s = Some t;
  toml_is_utf8 t s : to_toml t = Some s → utf8_valid s = true;
}.

Section files.
Context {Redb : RedbPkg Table} {E : Type} (io parse encode : E) {T : Type} `{TomlRecord T}.

(** [fs::write]. *)
Definition fs_write (path : FPath) (data : bytes) : M E unit :=
  file_create io path;;
  write_all io path data.

Definition save_record (path : FPath) (t : T) : M E unit :=
  create_dir_all io;;
  body ← lift (ok_or encode (to_toml t));
  fs_write path body.

(** [missing]: what [ErrorKind::NotFound] comes to. *)
Definition load_record {A} (path : FPath) (found : T → A) (missing : M E A) : M E A :=
  text ← read_to_string io path;
  match text with
  | Some text => t ← lift (ok_or parse (from_toml text)); mret (found t)
  | None => missing
  end.
End files.

(** ** The daemon's configuration *)

Inductive DaemonConfigError := DaemonConfigIo | DaemonConfigParse | DaemonConfigEncode.

Record DaemonConfig := { auto_prune : bool }.

Definition DaemonConfig_default : DaemonConfig := {| auto_prune := true |}.
Definition DAEMON_CONFIG_FILE : bytes := str "daemon.toml".

Section daemon_config.
Context {Redb : RedbPkg Table} `{TomlRecord DaemonConfig} (store_root : bytes).
Definition daemon_config_path : FPath := (store_root, DAEMON_CONFIG_FILE).

Definition DaemonConfig_save (config : DaemonConfig) : M DaemonConfigError unit :=
  save_record DaemonConfigIo DaemonConfigEncode daemon_config_path config.

Definition load_or_init : M DaemonConfigError DaemonConfig :=
  load_record DaemonConfigIo DaemonConfigParse daemon_config_path id
    (let config := DaemonConfig_default in DaemonConfig_save config;; mret config).
End daemon_config.

(** ** The last backup *)

Inductive StatusError := StatusIo | StatusParse | StatusEncode.

Record LastBackupRecord := {
  lb_snapshot_id : bytes;
  lb_created_at : Z;
  lb_files : Z;
  lb_upload_bytes : Z;
  lb_duration_ms : Z;
}.

Definition LAST_BACKUP_FILE : bytes := str "last-backup.toml".

Definition from_report `{UlidPkg} (report : BackupReport) (created_at duration_ms : Z) : LastBackupRecord := {|
  lb_snapshot_id := Ulid_to_string (report_snapshot_id report);
  lb_created_at := created_at;
  lb_files := report_files report;
  lb_upload_bytes := upload_bytes report;
  lb_duration_ms := duration_ms;
|}.

Section last_backup.
Context {Redb : RedbPkg Table} `{TomlRecord LastBackupRecord} (state_dir : bytes).
Definition last_backup_path : FPath := (state_dir, LAST_BACKUP_FILE).

Definition LastBackupRecord_save (r : LastBackupRecord) : M StatusError unit :=
  save_record StatusIo StatusEncode last_backup_path r.

Definition LastBackupRecord_load : M StatusError (option LastBackupRecord) :=
  load_record StatusIo StatusParse last_backup_path Some (mret None).
End last_backup.

(** ** Writing in place *)

Section writing.
Context {Redb : RedbPkg Table} {E : Type} (io parse encode : E) {T : Type} `{!TomlRecord T}.
Implicit Types (w : World) (path : FPath).

(** The file at [path] has [data], or is as it was or has a beginning of [data]. *)
Definition unsynced (data : bytes) : File := {| content := data; synced := false |}.
Definition written path (data : bytes) w (o : outcome E unit) w' : Prop :=
  (∀ q, q ≠ path → files w' !! q = files w !! q) ∧ later w w' ∧
  match o with
  | Done _ => files w' !! path = Some (unsynced data)
  | Failed _ | Crashed =>
      (if o is Crashed then may_crash w else may_fail w) ∧
      (files w' !! path = files w !! path ∨ ∃ n, files w' !! path = Some (unsynced (take n data)))
  end.

Lemma wp_fs_write path data w : wp (fs_write io path data) (written path data w) w.
Proof.
  set (created w0 := set_files (<[path := unsynced []]> (files w0)) w0).
  assert (∀ w0, same w w0 → (∀ q, q ≠ path → files (created w0) !! q = files w !! q) ∧ later w (created w0) ∧
    files (created w0) !! path = Some (unsynced [])) as Hcr.
  { intros w0 (Hf & _ & Hl). cbn. rewrite Hf. split_and!; [|done|by rewrite lookup_insert_eq].
    intros q Hq. by rewrite lookup_insert_ne. }
  assert (∀ w0, same w w0 → files w0 = files w ∧ later w w0) as Hsame by (intros w0 (? & _ & ?); done).
  unfold fs_write. apply wp_bind, wp_step; cbn [fst snd].
  - intros w0 Hs _. destruct (Hcr w0 Hs) as (Ho & Hl & Hp).
    change (set_files _ w0) with (created w0). apply wp_step; cbn [fst snd]; [|intros n w1 Hm Hs1 _..];
      [intros w1 Hs1 _|..]; destruct Hs1 as (Hf1 & _ & Hl1); unfold written; cbn [append set_files files].
    all: split; [intros q Hq; rewrite lookup_alter_ne by done; rewrite Hf1; by apply Ho|].
    all: split; [by etrans|]; rewrite Hf1, lookup_alter_eq, Hp; cbn.
    + done.
    + split; [by eapply may_fail_later|]. right. by exists n.
    + split; [by eapply may_crash_later|]. right. by exists n.
  - intros n w0 Hm Hs _. destruct (Hsame w0 Hs) as [Hf Hl]. unfold untouched, written. rewrite Hf. auto.
  - intros [|n] w0 Hm Hs _; [destruct (Hsame w0 Hs) as [Hf Hl]; unfold written; rewrite Hf; auto|].
    destruct (Hcr w0 Hs) as (Ho & Hl & Hp). split; [done|]. split; [done|]. split; [done|]. right. by exists 0%nat.
Qed.

Lemma wp_save_record path (t : T) w :
  wp (save_record io encode path t) (λ o w', match to_toml t with
    | Some body => written path body w o w'
    | None => (∀ q, files w' !! q = files w !! q) ∧ later w w' ∧
        match o with Done _ => False | Failed e => e = encode ∨ may_fail w | Crashed => may_crash w end
    end) w.
Proof.
  unfold save_record. apply wp_bind, wp_step_pure.
  - intros w1 (Hf & _ & Hl) _. apply wp_lift_bind. destruct (to_toml t) as [body|]; cbn [ok_or].
    + eapply wp_mono; [apply wp_fs_write|]. intros o w2 (Ho & Hl2 & Hw). unfold written. rewrite Hf in Ho, Hw.
      split; [done|]. split; [by etrans|].
      destruct o; [done|..]; destruct Hw as [Hm Hw]; (split; [|done]); [by eapply may_fail_later|by eapply may_crash_later].
    + split_and!; [by intros; rewrite Hf|done|by left].
  - intros w1 Hm (Hf & _ & Hl). destruct (to_toml t); unfold written; rewrite Hf; auto.
  - intros w1 Hm (Hf & _ & Hl). destruct (to_toml t); unfold written; rewrite Hf; auto.
Qed.

Lemma wp_load_record {A} path (found : T → A) (missing : M E A) (Q : outcome E A → World → Prop) w :
  (∀ w1, same w w1 → match files w !! path with
     | Some f =>
         if utf8_valid (content f)
         then match from_toml (content f) with Some t => Q (Done (found t)) w1 | None => Q (Failed parse) w1 end
         else Q (Failed io) w1
     | None => wp missing Q w1 end) →
  (∀ w1, may_fail w → same w w1 → Q (Failed io) w1) → (∀ w1, may_crash w → same w w1 → Q Crashed w1) →
  wp (load_record io parse path found missing) Q w.
Proof.
  intros HQ Hf Hc. unfold load_record. apply wp_bind, wp_read_to_string; [|done..].
  intros w1 Hs. specialize (HQ w1 Hs). destruct (files w !! path) as [f|]; [|done].
  destruct (utf8_valid (content f)); [|done]. apply wp_lift_bind. by destruct (from_toml (content f)).
Qed.
End writing.

(** ** What holds of the two records *)

Section records.
Context {Redb : RedbPkg Table} `{!TomlRecord DaemonConfig, !TomlRecord LastBackupRecord, !TomlRecordLaws LastBackupRecord}.
Implicit Types (w : World).

(** What [load_or_init] comes to. *)
Definition config_choice (path : FPath) w (o : outcome DaemonConfigError DaemonConfig) w' : Prop :=
  match files w !! path with
  | Some f => files w' !! path = Some f ∧
      match o with
      | Done config => utf8_valid (content f) = true ∧ from_toml (content f) = Some config
      | Failed DaemonConfigParse => utf8_valid (content f) = true ∧ from_toml (T := DaemonConfig) (content f) = None
      | Failed e => e = DaemonConfigIo ∧ (utf8_valid (content f) = false ∨ may_fail w)
      | Crashed => may_crash w
      end
  | None =>
      match o with
      | Done config => config = DaemonConfig_default ∧
          ∃ body, to_toml config = Some body ∧ files w' !! path = Some (unsynced body)
      | _ => files w' !! path = None ∨
          ∃ body n, to_toml DaemonConfig_default = Some body ∧ files w' !! path = Some (unsynced (take n body))
      end
  end.

(** The operator's choice survives: starting a daemon whose store has a
    configuration never changes a file and takes exactly what the file says, or
    fails when it does not parse or is not text.  A store without one gets the
    default, in the file as well; when that write is interrupted the file is absent
    or begins like the default's text, and no other file changes. *)
Theorem daemon_config_survives store_root w :
  let '(o, w') := load_or_init store_root w in
  (∀ q, q ≠ daemon_config_path store_root → files w' !! q = files w !! q) ∧
  config_choice (daemon_config_path store_root) w o w'.
Proof.
  set (path := daemon_config_path store_root).
  set (Q o w' := (∀ q, q ≠ path → files w' !! q = files w !! q) ∧ config_choice path w o w').
  enough (wp (load_or_init store_root) Q w) as Hw.
  { unfold wp in Hw. destruct (load_or_init store_root w) as [o w']. exact Hw. }
  unfold load_or_init. apply wp_load_record.
  - intros w1 (Hf & _ & Hl). unfold Q, config_choice. fold path. destruct (files w !! path) as [f|] eqn:Ef.
    + destruct (utf8_valid (content f)) eqn:Eu; [destruct (from_toml (content f)) as [c|] eqn:Et|].
      all: rewrite Hf, Ef; auto.
    + apply wp_bind. eapply wp_mono; [apply wp_save_record|]. fold path. intros o w2 Ho.
      destruct (to_toml DaemonConfig_default) as [body|] eqn:Eb.
      * destruct Ho as (Hq & _ & Ho). fold path in Hq, Ho. rewrite Hf in Hq, Ho. destruct o as [[]|e|].
        -- apply wp_ret. split; [exact Hq|]. split; [done|]. by exists body.
        -- split; [exact Hq|]. destruct Ho as [_ [Ho|[n Ho]]]; [left; by rewrite Ho|right; by exists body, n].
        -- split; [exact Hq|]. destruct Ho as [_ [Ho|[n Ho]]]; [left; by rewrite Ho|right; by exists body, n].
      * destruct Ho as (Hq & _ & Ho). rewrite Hf in Hq. destruct o as [[]|e|]; [done| |].
        -- split; [intros q _; apply Hq|]. left. by rewrite Hq.
        -- split; [intros q _; apply Hq|]. left. by rewrite Hq.
  - intros w1 Hm (Hf & _ & Hl). unfold Q, config_choice. rewrite Hf. split; [done|].
    destruct (files w !! path); auto.
  - intros w1 Hm (Hf & _ & Hl). unfold Q, config_choice. rewrite Hf. split; [done|].
    destruct (files w !! path); auto.
Qed.

(** The record of a backup is what the next [status] shows: saved on a machine
    without faults it loads as it was, with the report's snapshot, files and bytes,
    whatever record was there before; and before any backup there is none. *)
Theorem last_backup_round_trip `{UlidPkg} state_dir (report : BackupReport) created_at duration_ms body w :
  faults w = [] → to_toml (from_report report created_at duration_ms) = Some body →
  ∃ w', LastBackupRecord_save state_dir (from_report report created_at duration_ms) w = (Done (), w') ∧
    (∀ q, q ≠ last_backup_path state_dir → files w' !! q = files w !! q) ∧
    (LastBackupRecord_load state_dir w').1 = Done (Some {|
      lb_snapshot_id := Ulid_to_string (report_snapshot_id report); lb_created_at := created_at;
      lb_files := report_files report; lb_upload_bytes := upload_bytes report; lb_duration_ms := duration_ms |}) ∧
    (files w !! last_backup_path state_dir = None → (LastBackupRecord_load state_dir w).1 = Done None).
Proof.
  intros Hf Hb. set (r := from_report report created_at duration_ms) in *.
  pose proof (wp_save_record StatusIo StatusEncode (last_backup_path state_dir) r w) as Hw.
  unfold wp in Hw. rewrite Hb in Hw. unfold LastBackupRecord_save.
  destruct (no_fault_fails w Hf) as [Hnf Hnc].
  assert (∀ w1, faults w1 = [] → wp (LastBackupRecord_load state_dir) (λ o _,
    match files w1 !! last_backup_path state_dir with
    | None => o = Done None
    | Some f => utf8_valid (content f) = true → ∀ t, from_toml (content f) = Some t → o = Done (Some t) end) w1) as Hload.
  { intros w1 Hf1. destruct (no_fault_fails w1 Hf1). apply wp_load_record; [|done..].
    intros w2 _. destruct (files w1 !! _) as [f|]; [|done].
    destruct (utf8_valid (content f)); [|done]. destruct (from_toml (content f)); [|done]. by intros _ t [= <-]. }
  destruct (save_record _ _ _ _ w) as [[[]|e|] w']; cbn [fst snd] in Hw; destruct Hw as (Hq & Hl & Hw); [|naive_solver..].
  exists w'. split; [done|]. split; [done|]. split.
  - specialize (Hload w' (no_faults _ _ Hf Hl)). unfold wp in Hload. rewrite Hw in Hload. cbn [content unsynced] in Hload.
    apply Hload; [by apply (toml_is_utf8 r)|by apply (from_to_toml r)].
  - intros Hn. specialize (Hload w Hf). unfold wp in Hload. by rewrite Hn in Hload.
Qed.
End records.

(** ** Examples *)

Module Examples.
Import Reference.

#[export] Instance toml_daemon : TomlRecord DaemonConfig := {|
  to_toml c := Some (str (if auto_prune c then "auto_prune = true" else "auto_prune = false"));
  from_toml s :=
    if decide (s = str "auto_prune = false") then Some {| auto_prune := false |}
    else if decide (s = str "auto_prune = true" ∨ s = []) then Some {| auto_prune := true |} else None |}.

Definition report : BackupReport := {|
  report_snapshot_id := (vreplicate 16 x41 : @Ulid ulid); report_files := 3; source_bytes := 90; chunks_total := 4;
  chunks_unique := 4; chunks_uploaded := 4; chunks_deduped := 0; upload_bytes := 250; manifest_bytes := 200;
  compression := PolicyCounters_default |}.

(** A codec that knows one record. *)
Definition known : LastBackupRecord := from_report report 1700000000 1500.
#[export] Instance LastBackupRecord_eq_dec : EqDecision LastBackupRecord.
Proof. solve_decision. Defined.
#[export] Instance toml_last_backup : TomlRecord LastBackupRecord := {|
  to_toml r := if decide (r = known) then Some (str "files = 3") else None;
  from_toml s := if decide (s = str "files = 3") then Some known else None |}.
#[export] Instance toml_last_backup_laws : TomlRecordLaws LastBackupRecord.
Proof.
  split; intros t s; cbn [to_toml from_toml toml_last_backup]; (destruct (decide (t = known)) as [->|]; [|discriminate]);
    intros [= <-]; reflexivity.
Defined.

Definition machine : World := {|
  files := {[ last_backup_path (str "state") := {| content := str "old"; synced := true |} ]};
  disk := ∅; work := ∅; faults := [] |}.

Lemma last_backup_round_trip_witness : ∃ w',
  LastBackupRecord_save (str "state") known machine = (Done (), w') ∧
  (LastBackupRecord_load (str "state") w').1 = Done (Some known).
Proof.
  assert (to_toml (from_report report 1700000000 1500) = Some (str "files = 3")) as Hb by compute_eq.
  destruct (last_backup_round_trip (str "state") report 1700000000 1500 (str "files = 3") machine eq_refl Hb)
    as (w' & Hs & _ & Hl & _).
  exists w'. exact (conj Hs Hl).
Defined.

(** The default is written once; an operator's edit is kept. *)
Example first_start :
  let '(o, w) := load_or_init (str "store") machine in
  o = Done {| auto_prune := true |} ∧
  content <$> files w !! daemon_config_path (str "store") = Some (str "auto_prune = true").
Proof. vm_compute. done. Qed.
End Examples.
