(* ===== verification/DaemonCli.v ===== *)
(** * The daemon's command line ([busyncr-daemon/src/main.rs])

    What each subcommand does to the store root, up to the printing: the order in which
    the identity, the store and the configuration are opened, the operations that follow,
    and what is printed, as a value.  [serve] ends where the transport takes over: with
    the service that answers, and the timer beside it. *)

From S2P Require Import Prelude External Text Base64 Chunking Retention StoreIO Store StoreLogic.
From S2P Require Import StoreSpec StoreRefine StoreOps Rpc StoreTheorems AtomicFile Identity IdentityTheorems.
From S2P Require Import Service ServiceTheorems Records.

(** The contexts that [anyhow] puts around the errors. *)
Inductive DaemonError `{UlidPkg, RcgenPkg} :=
  | OpeningIdentity (e : IdentityError)
  | OpeningStore (e : StoreError)
  | LoadingConfig (e : DaemonConfigError)
  | Binding
  | MintingToken (e : IdentityError)
  | Revoking (e : IdentityError)
  | NoActiveClient (client : bytes)
  | Pruning (e : StoreError)
  | Collecting (e : StoreError)
  | ReadingStatus (e : StoreError).

(** Daily. *)
Definition AUTO_PRUNE_INTERVAL : Duration := Duration_from_secs (24 * 60 * 60).

Section commands.
Context {Redb : RedbPkg Table} `{UlidPkg, Blake3Pkg, HashOrder, RcgenPkg, TomlPkg, TomlRecord DaemonConfig}.

(** ** Commands *)

(** A command works in the store root: the store, the configuration beside it, and the
    identity directory. *)
Definition Cmd (A : Type) : Type := Daemon → outcome DaemonError A * Daemon.
#[global] Instance Cmd_ret : MRet Cmd := λ A a d, (Done a, d).
#[global] Instance Cmd_bind : MBind Cmd := λ A B f m d,
  match m d with
  | (Done a, d) => f a d
  | (Failed e, d) => (Failed e, d)
  | (Crashed, d) => (Crashed, d)
  end.
Definition stop {A} (e : DaemonError) : Cmd A := λ d, (Failed e, d).

(** [op.context(..)?] on the store's and on the identity's directory. *)
Definition in_store {E A} (context : E → DaemonError) (op : M E A) : Cmd A := λ d,
  let '(o, w) := op (store_dir d) in
  (map_outcome context o, {| store_dir := w; identity_dir := identity_dir d |}).
Definition in_identity {A} (context : IdentityError → DaemonError) (op : M IdentityError A) : Cmd A := λ d,
  let '(o, w) := op (identity_dir d) in
  (map_outcome context o, {| store_dir := store_dir d; identity_dir := w |}).

(** The randomness of the bootstrap. *)
Definition Seed : Type := (Entropy * Entropy) * (Entropy * Entropy).

Definition open_identity (seed : Seed) : Cmd DaemonIdentity :=
  in_identity OpeningIdentity (open_or_init seed.1 seed.2).

Definition open_store : Cmd unit := in_store OpeningStore Store_open.

(** The service and the interval of the timer beside it. *)
Record Serving := { service : BusyncrService; prune_timer : option Duration }.

(** [bound]: whether the listener got its address. *)
Definition serve (seed : Seed) (bound : bool) : Cmd Serving :=
  identity ← open_identity seed;
  open_store;;
  config ← in_store LoadingConfig (load_or_init []);
  if bound
  then mret {| service := with_auto_prune (with_auth identity) (Records.auto_prune config);
               prune_timer := if Records.auto_prune config then Some AUTO_PRUNE_INTERVAL else None |}
  else stop Binding.

(** The token, and the CA's fingerprint. *)
Definition daemon_enroll_token {R} `{!CryptoRng R} (seed : Seed) (rng : R) : Cmd (bytes * bytes) :=
  identity ← open_identity seed;
  token ← in_identity MintingToken (mint_token rng).2;
  mret (token, ca_fingerprint identity).

Definition daemon_revoke (seed : Seed) (client : bytes) : Cmd Z :=
  open_identity seed;;
  count ← in_identity Revoking (revoke client);
  if decide (0 < count) then mret count else stop (NoActiveClient client).

Definition daemon_prune (clock : option Z) : Cmd PruneOutcome :=
  open_store;;
  in_store Pruning (prune (now_ms clock) default_grid Manual).

Definition daemon_gc (clock : option Z) (grace_secs : Z) : Cmd GcOutcome :=
  open_store;;
  in_store Collecting (gc (now_ms clock) (Duration_from_secs grace_secs)).

Definition PruneMode_to_string (m : PruneMode) : bytes :=
  match m with Manual => str "manual" | Auto => str "auto" end.

Record StatusJson := {
  json_snapshots_total : Z;
  json_snapshots_by_client : gmap bytes Z;
  json_chunks_unique : Z;
  json_store_bytes : Z;
  json_zero_ref_chunks : Z;
  json_last_prune_at_ms : option Z;
  json_last_prune_mode : option bytes;
  json_last_gc_at_ms : option Z;
  json_ca_fingerprint : option bytes;
}.

Definition daemon_status (seed : Seed) : Cmd StatusJson :=
  identity_bootstrapped ← in_identity OpeningIdentity (is_file CA_CERT_FILE);
  ca ← (if identity_bootstrapped : bool
        then identity ← open_identity seed; mret (Some (ca_fingerprint identity))
        else mret None);
  open_store;;
  status ← in_store ReadingStatus status;
  mret {| json_snapshots_total := snapshots_total status;
          json_snapshots_by_client := snapshots_by_client status;
          json_chunks_unique := chunks_unique status;
          json_store_bytes := store_bytes status;
          json_zero_ref_chunks := zero_ref status;
          json_last_prune_at_ms := prune_at_ms <$> last_prune status;
          json_last_prune_mode := (λ p, PruneMode_to_string (event_mode p)) <$> last_prune status;
          json_last_gc_at_ms := gc_at_ms <$> last_gc status;
          json_ca_fingerprint := ca |}.
End commands.

(** ** Maintenance *)

Section maintenance.
Context {Redb : RedbPkg Table} {RedbL : RedbLaws Table} `{UlidLaws, Blake3Pkg, HashOrderLaws, RcgenPkg, TomlPkg, TomlRecord DaemonConfig}.
Implicit Types (d : Daemon) (a : AStore).

(** A second collection, [grace_ms] after the first, leaves what is referenced. *)
Lemma a_gc_twice t1 t2 grace_ms a :
  (∀ id m, a_marks a !! id = Some m → m ≤ t1) → grace_ms ≤ i64_saturating_sub t2 t1 →
  let a' := a_gc t2 grace_ms (a_gc t1 grace_ms a) in
  a_snaps a' = a_snaps a ∧ a_marks a' = ∅ ∧
  ∀ id, a_chunks a' !! id = if decide (id ∈ a_refs a) then a_chunks a !! id else None.
Proof.
  intros Hm Hg. set (a1 := a_gc t1 grace_ms a). cbv zeta. set (a2 := a_gc t2 grace_ms a1).
  assert (Hex : ∀ id b, a_chunks a1 !! id = Some b → occ id (a_refs a1) = 0 → expired t2 grace_ms a1 id).
  { intros id b Hb Ho. split; [done|]. split; [by exists b|].
    apply map_lookup_filter_Some in Hb as [Hb Hne]. cbn [fst] in Hne.
    exists (default t1 (a_marks a !! id)). cbn [a1 a_gc a_marks]. rewrite map_lookup_imap, Hb. cbn.
    rewrite decide_True by (by split). split; [done|].
    assert (H' : default t1 (a_marks a !! id) ≤ t1) by (destruct (a_marks a !! id) eqn:E; cbn; [eauto|lia]).
    revert Hg H'. generalize (default t1 (a_marks a !! id)). clear. ints. lia. }
  split; [done|]. split.
  - apply map_empty. intros id. cbn [a2 a_gc a_marks]. rewrite map_lookup_imap.
    destruct (a_chunks a1 !! id) as [b|] eqn:Hb; [|done]. cbn. rewrite decide_False; [done|].
    intros [Ho Hne]. by eapply Hne, Hex.
  - intros id. destruct (decide (id ∈ a_refs a)) as [Hin|Hout].
    + apply occ_pos in Hin as Hp.
      assert (∀ t b, occ id (a_refs b) = occ id (a_refs a) → ¬ expired t grace_ms b id) as Hne
        by (intros t b Hb (Ho & _); lia).
      cbn [a2 a1 a_gc a_chunks]. destruct (a_chunks a !! id) as [blob|] eqn:Hb.
      * apply map_lookup_filter_Some. split; [|by apply Hne]. apply map_lookup_filter_Some. split; [done|by apply Hne].
      * apply map_lookup_filter_None. left. apply map_lookup_filter_None. by left.
    + cbn [a2 a_gc a_chunks]. apply map_lookup_filter_None. destruct (a_chunks a1 !! id) as [b|] eqn:Hb; [right|by left].
      intros b' _ Hne. apply Hne, (Hex id b Hb). change (occ id (a_refs a) = 0).
      pose proof (occ_nonneg id (a_refs a)). destruct (decide (0 < occ id (a_refs a))) as [?%occ_pos|]; [done|lia].
Qed.

Lemma now_ms_range clock : in_i64 (now_ms clock).
Proof. unfold now_ms, i64_try_from. destruct clock; [|done]. by case_decide. Qed.

(** On a disk without faults a command that opens the store finds it as it was. *)
Lemma opened {E A} (context : E → DaemonError) (op : M E A) (Q : A → AStore → Prop) d a :
  represents (store_dir d) a → faults (store_dir d) = [] →
  (∀ w, represents w a → faults w = [] → wp op (λ o w', later w w' ∧ ∃ x a', o = Done x ∧ represents w' a' ∧ Q x a') w) →
  ∃ x a' d', (open_store;; in_store context op) d = (Done x, d') ∧ Q x a' ∧
    represents (store_dir d') a' ∧ faults (store_dir d') = [] ∧ identity_dir d' = identity_dir d.
Proof.
  intros Hr Hf Hop. unfold open_store, in_store, mbind, Cmd_bind. cbn [store_dir identity_dir].
  pose proof (Store_open_sim (store_dir d)) as Hw. unfold wp in Hw. destruct (no_fault_fails _ Hf) as [Hnf Hnc].
  destruct (Store_open (store_dir d)) as [[[]|e|] w1]; destruct Hw as [Hs Ho]; [|naive_solver..].
  cbn [map_outcome snd] in *. pose proof Hs as (_ & Hl & _).
  specialize (Hop w1 (represents_swept _ _ _ Hs Hr) (no_faults _ _ Hf Hl)). unfold wp in Hop. cbn [store_dir].
  destruct (op w1) as [o w2]. cbn [fst snd] in Hop. destruct Hop as (Hl2 & x & a' & -> & Hr' & HQ). exists x, a'. eexists. split; [done|].
  split_and!; [done|done| |done]. cbn. eapply no_faults; [|exact Hl2]. by eapply no_faults.
Qed.

Lemma daemon_prune_ok clock d a :
  represents (store_dir d) a → faults (store_dir d) = [] →
  ∃ r a' d', daemon_prune clock d = (Done r, d') ∧
    (∃ p, prune_result (now_ms clock) default_grid a p ∧ a' = delete_all (dropped p) a ∧
      r = {| kept := keep p; pruned := dropped p; prune_mode := Manual |}) ∧
    represents (store_dir d') a' ∧ faults (store_dir d') = [] ∧ identity_dir d' = identity_dir d.
Proof.
  intros Hr Hf. apply (opened Pruning (prune (now_ms clock) default_grid Manual) (λ r a', ∃ p,
    prune_result (now_ms clock) default_grid a p ∧ a' = delete_all (dropped p) a ∧
    r = {| kept := keep p; pruned := dropped p; prune_mode := Manual |}) d a Hr Hf).
  intros w Hw Hfw. destruct (no_fault_fails _ Hfw). eapply wp_mono; [by apply prune_sim|].
  intros [r|e|] w' [Hl Ho]; [|naive_solver..]. split; [done|]. destruct Ho as (p & Hp & -> & Hr'). eauto 10.
Qed.

Lemma daemon_gc_ok clock grace_secs d a :
  represents (store_dir d) a → faults (store_dir d) = [] → in_i64 (now_ms clock) →
  ∃ r a' d', daemon_gc clock grace_secs d = (Done r, d') ∧
    a' = a_gc (now_ms clock) (default i64_max (i64_try_from (Duration_as_millis (Duration_from_secs grace_secs)))) a ∧
    represents (store_dir d') a' ∧ faults (store_dir d') = [] ∧ identity_dir d' = identity_dir d.
Proof.
  intros Hr Hf Hi. apply (opened Collecting (gc (now_ms clock) (Duration_from_secs grace_secs)) (λ _ a', a' = _) d a Hr Hf).
  intros w Hw Hfw. destruct (no_fault_fails _ Hfw). eapply wp_mono; [by apply gc_sim|].
  intros [r|e|] w' [Hl Ho]; [|naive_solver..]. split; [done|]. destruct Ho as (Hr' & _). eauto 10.
Qed.

Lemma delete_all_rest us a : a_chunks (delete_all us a) = a_chunks a ∧ a_marks (delete_all us a) = a_marks a ∧
  a_snaps (delete_all us a) ⊆ a_snaps a.
Proof.
  revert a; induction us as [|u us IH]; intros a; [done|].
  destruct (IH (a_delete_snapshot (Ulid_to_bytes u) a)) as (Hc & Hm & Hs). split_and!; [done..|].
  etrans; [exact Hs|]. apply delete_subseteq.
Qed.

End maintenance.

(** ** Revoking *)

Section revoking.
Context {Redb : RedbPkg Table} `{UlidPkg, Blake3Pkg, RcgenPkg, TomlLaws}.
Implicit Types (d : Daemon).

(** The identity is opened first; that leaves the registry alone. *)
Lemma open_identity_registry seed d fp o d' : open_identity seed d = (o, d') →
  files (identity_dir d') !! client_path fp = files (identity_dir d) !! client_path fp ∧ store_dir d' = store_dir d.
Proof.
  unfold open_identity, in_identity.
  pose proof (leaves_open_or_init eq (client_path fp) seed.1 seed.2 ltac:(done) (identity_dir d)) as Hl.
  destruct (open_or_init _ _ (identity_dir d)) as [o' w]. intros [= _ <-]. split; [|done].
  symmetry. exact Hl.
Qed.

(** C18. Revoking is effective where it matters: when the [revoke] command has said that it
    revoked somebody, every call on a connection whose certificate was enrolled under
    that name is denied from then on, before the store is looked at, whichever call it
    is and whatever the other state of the daemon. *)
Theorem revoke_locks_out seed n d count d1 cert chain r svc identity c store fl :
  daemon_revoke seed n d = (Done count, d1) →
  (∀ f, files (identity_dir d) !! client_path (blake3_hex cert) = Some f → synced f = true) →
  record_at (identity_dir d) (client_path (blake3_hex cert)) = Some r → name r = n →
  auth svc = Some identity →
  let w := set_faults fl (identity_dir d1) in
  let '(o, d2) := handle svc (Some (cert :: chain)) c {| store_dir := store; identity_dir := w |} in
  0 < count ∧ store_dir d2 = store ∧ files (identity_dir d2) = files w ∧
  (o = Failed PermissionDenied ∨ o = Failed Internal ∧ may_fail w ∨ o = Crashed ∧ may_crash w).
Proof.
  intros E Hsy Hrec Hn Ha w. unfold daemon_revoke, mbind, Cmd_bind in E.
  destruct (open_identity seed d) as [[id0|e|] d0] eqn:E0; [|done..].
  destruct (open_identity_registry seed d (blake3_hex cert) _ _ E0) as [Hf _].
  unfold in_identity in E. destruct (revoke n (identity_dir d0)) as [[k|e|] w1] eqn:E1; cbn [map_outcome] in E; [|done..].
  destruct (decide (0 < k)) as [Hk|]; [|done]. injection E as <- <-. cbn [identity_dir] in w.
  assert (revoked_at w1 (blake3_hex cert)) as (_ & r' & Hr' & Hrev).
  { eapply (revoke_revokes n (identity_dir d0)); [exact E1|by rewrite Hf| |exact Hn].
    unfold record_at in *. by rewrite Hf. }
  set (d2 := {| store_dir := store; identity_dir := w |}).
  pose proof (authenticate_spec svc identity (Some (cert :: chain)) d2 Ha) as Hs.
  pose proof (handle_checks svc (Some (cert :: chain)) c d2) as Hh.
  assert (peer_standing d2 (Some (cert :: chain)) = Done Revoked) as Hst.
  { unfold peer_standing. cbn [peer_fingerprint mbind option_bind head]. unfold standing.
    change (files (identity_dir d2)) with (files w1). unfold record_at in Hr'.
    destruct (files w1 !! _) as [f|]; [|done]. cbn in Hr'. destruct (utf8_valid _); [|done]. by rewrite Hr', Hrev. }
  rewrite Hst in Hs. destruct (authenticate svc _ d2) as [o d3]. destruct Hs as (Hsd & (Hfs & _) & Ho).
  cbn [refusal] in Ho. destruct o as [[]|e|]; [naive_solver|..]; rewrite Hh; by split_and!.
Qed.
End revoking.

(** ** Status *)

Section status.
Context {Redb : RedbPkg Table} {RedbL : RedbLaws Table} `{UlidLaws, Blake3Pkg, HashOrderLaws, RcgenPkg, TomlPkg}.
Implicit Types (d : Daemon) (w : World) (a : AStore).

(** The file at [p] reads as [s]. *)
Definition reads_as w p (s : bytes) : Prop := content <$> files w !! p = Some s ∧ utf8_valid s = true.

(** A bootstrap that was completed. *)
Record identity_on_disk w (id : DaemonIdentity) : Prop := {
  on_ca_cert : reads_as w CA_CERT_FILE (ca_cert_pem id);
  on_ca_key : reads_as w CA_KEY_FILE (ca_key_pem id);
  on_server_cert : reads_as w SERVER_CERT_FILE (server_cert_pem id);
  on_server_key : reads_as w SERVER_KEY_FILE (server_key_pem id);
  on_der : pem_to_der (ca_cert_pem id) = Some (ca_cert_der id);
}.

Lemma reads_as_same w w' p s : same w w' → reads_as w p s → reads_as w' p s.
Proof. unfold reads_as. by intros (-> & _). Qed.

(** What a program that only reads comes to. *)
Definition only_reads {A} (x : A) w (o : outcome IdentityError A) w' : Prop :=
  same w w' ∧ match o with Done y => y = x | Failed _ => may_fail w | Crashed => may_crash w end.

Lemma wp_reads_bind {A B} (m : M IdentityError A) (f : A → M IdentityError B) x y w :
  wp m (only_reads x w) w → (∀ w1, same w w1 → wp (f x) (only_reads y w1) w1) →
  wp (m ≫= f) (only_reads y w) w.
Proof.
  intros Hm Hf. apply wp_bind. eapply wp_mono; [exact Hm|]. intros o w1 [Hs Ho].
  pose proof Hs as (_ & _ & Hl). destruct o as [x'|e|]; [subst x'|done..].
  eapply wp_mono; [by apply Hf|]. intros o w2 [Hs2 Ho]. split; [by etrans|].
  destruct o; [done|by eapply may_fail_later|by eapply may_crash_later].
Qed.

Lemma wp_reads_ret {A} (x : A) w : wp (mret x : M IdentityError A) (only_reads x w) w.
Proof. by apply wp_ret. Qed.

Lemma wp_is_file w p s : reads_as w p s → wp (is_file p) (only_reads true w) w.
Proof.
  intros [Hf _]. split; [done|]. cbn. apply bool_decide_eq_true. by destruct (files w !! p).
Qed.

Lemma wp_read_string w p s : reads_as w p s → wp (read_string p) (only_reads s w) w.
Proof.
  intros [Hf Hu]. unfold read_string. apply wp_bind, wp_read_to_string; [|done..].
  intros w1 Hs. destruct (files w !! p) as [f|]; [|done]. injection Hf as <-. rewrite Hu. done.
Qed.

Lemma wp_make_dir w : wp (create_dir_all Io : M IdentityError unit) (only_reads () w) w.
Proof. apply wp_step_pure; by intros. Qed.

Lemma identity_on_disk_same w w' id : same w w' → identity_on_disk w id → identity_on_disk w' id.
Proof. intros Hs []. split; by try eapply reads_as_same. Qed.

(** A pair of files that is there is not made anew. *)
Lemma wp_read_pair p q s t (make : M IdentityError (bytes * bytes)) w :
  reads_as w p s → reads_as w q t →
  wp (have_cert ← is_file p; have_key ← is_file q;
      if (have_cert : bool) && (have_key : bool)
      then cert ← read_string p; key ← read_string q; mret (cert, key)
      else make) (only_reads (s, t) w) w.
Proof.
  intros Hp Hq.
  eapply wp_reads_bind; [by eapply wp_is_file|]. intros w1 Hs1. eapply reads_as_same in Hp, Hq; [|done..].
  eapply wp_reads_bind; [by eapply wp_is_file|]. intros w2 Hs2. eapply reads_as_same in Hp, Hq; [|done..].
  eapply wp_reads_bind; [by apply wp_read_string|]. intros w3 Hs3. eapply reads_as_same in Hp, Hq; [|done..].
  eapply wp_reads_bind; [by apply wp_read_string|]. intros w4 _. apply wp_reads_ret.
Qed.

(** A complete identity is read as it is. *)
Lemma wp_open_or_init id ca server w :
  identity_on_disk w id → wp (open_or_init ca server) (only_reads id w) w.
Proof.
  intros Hid. unfold open_or_init.
  do 3 (eapply wp_reads_bind; [apply wp_make_dir|]; intros ? Hs; eapply identity_on_disk_same in Hid; [|exact Hs]; clear Hs).
  eapply wp_reads_bind; [apply wp_read_pair; apply Hid|]. intros w4 Hs4. eapply identity_on_disk_same in Hid; [|exact Hs4].
  apply wp_lift_bind. rewrite (on_der _ _ Hid). cbn [ok_or].
  eapply wp_reads_bind; [apply wp_read_pair; apply Hid|]. intros w5 Hs5. destruct id. apply wp_reads_ret.
Qed.

(** What [status] looks at of the identity. *)
Lemma status_identity seed d ca :
  faults (identity_dir d) = [] →
  match ca with Some id => identity_on_disk (identity_dir d) id | None => files (identity_dir d) !! CA_CERT_FILE = None end →
  ∃ d', (identity_bootstrapped ← in_identity OpeningIdentity (is_file CA_CERT_FILE);
         if identity_bootstrapped : bool
         then identity ← open_identity seed; mret (Some (ca_fingerprint identity))
         else mret None) d = (Done (ca_fingerprint <$> ca), d') ∧
    store_dir d' = store_dir d ∧ files (identity_dir d') = files (identity_dir d).
Proof.
  intros Hf Hca. unfold mbind, Cmd_bind, in_identity, is_file, path_exists. cbn [map_outcome].
  destruct ca as [id|]; [|rewrite Hca; by eexists].
  destruct (on_ca_cert _ _ Hca) as [Hc _]. rewrite bool_decide_eq_true_2 by by destruct (files (identity_dir d) !! CA_CERT_FILE).
  unfold open_identity, in_identity. cbn [identity_dir store_dir].
  pose proof (wp_open_or_init id seed.1 seed.2 (identity_dir d) Hca) as Hw. unfold wp in Hw.
  destruct (no_fault_fails _ Hf). destruct (open_or_init _ _ (identity_dir d)) as [[id'|e|] w]; destruct Hw as [(Hfs & _) Ho];
    [cbn in Ho; subst id'|naive_solver..].
  eexists. split; [done|]. split; [done|exact Hfs].
Qed.

(** The numbers of a report. *)
Definition counted a (total unique bytes zero : Z) : Prop :=
  total = Z.of_nat (base.size (a_snaps a)) mod 2 ^ 64 ∧
  unique = Z.of_nat (base.size (a_chunks a)) mod 2 ^ 64 ∧
  bytes = sum_by (λ kv, len kv.2) (map_to_list (a_chunks a)) mod 2 ^ 64 ∧
  zero = sum_by (λ kv, if decide (occ kv.1 (a_refs a) = 0) then 1 else 0) (map_to_list (a_chunks a)) mod 2 ^ 64.

Lemma wp_status a w : represents w a → faults w = [] →
  wp status (λ o w', later w w' ∧ ∃ st a', o = Done st ∧ represents w' a' ∧
    a' = a ∧ counted a (snapshots_total st) (chunks_unique st) (store_bytes st) (zero_ref st)) w.
Proof.
  intros Hr Hf. destruct (no_fault_fails _ Hf).
  assert (wp status (λ _ w', same w w') w) as Hs.
  { apply wp_in_read; [|done..]. intros w' Hs.
    by destruct (foldl (count_snapshot _) _ _), (foldl count_chunk _ _) as [[? ?] ?]. }
  destruct (status_counts w a Hr Hf) as (st & E & Ht & Hu & Hb & Hz & _).
  unfold wp in *. split; [apply Hs|]. exists st, a. split; [exact E|].
  split; [by eapply represents_same|]. split; [done|]. by split_and!.
Qed.

(** [status] answers, on a sound disk, with what there is, and changes nothing of it: the
    numbers of snapshots, of distinct chunks and of their bytes are those of the store
    (in a [u64]), the chunks it calls reclaimable are those without a reference, and
    the fingerprint is that of the CA on disk.  Where no daemon has been set up there
    is no fingerprint, and asking does not set one up. *)
Theorem status_report `{!TomlRecord DaemonConfig} seed d a ca :
  represents (store_dir d) a → faults (store_dir d) = [] → faults (identity_dir d) = [] →
  match ca with Some id => identity_on_disk (identity_dir d) id | None => files (identity_dir d) !! CA_CERT_FILE = None end →
  ∃ st d', daemon_status seed d = (Done st, d') ∧
    represents (store_dir d') a ∧ files (identity_dir d') = files (identity_dir d) ∧
    json_ca_fingerprint st = ca_fingerprint <$> ca ∧
    counted a (json_snapshots_total st) (json_chunks_unique st) (json_store_bytes st) (json_zero_ref_chunks st).
Proof.
  intros Hr Hf Hfi Hca. destruct (status_identity seed d ca Hfi Hca) as (d1 & E1 & Hs1 & Hi1).
  rewrite <- Hs1 in Hr, Hf.
  destruct (opened ReadingStatus status (λ st a', a' = a ∧
    counted a (snapshots_total st) (chunks_unique st) (store_bytes st) (zero_ref st)) d1 a Hr Hf)
    as (st & a' & d2 & E2 & [-> Hc] & Hr2 & _ & Hi2); [intros w; apply wp_status|].
  unfold mbind, Cmd_bind in E1, E2. unfold daemon_status, mbind, Cmd_bind.
  destruct (in_identity _ _ d) as [[b|e|] d0]; [|done..]. rewrite E1.
  destruct (open_store d1) as [[[]|e|] d3]; [|done..]. rewrite E2.
  eexists _, d2. split; [done|]. rewrite Hi2. by split_and!.
Qed.
End status.

(** ** Closed examples *)

Module Examples.
Import Reference IdentityReference IdentityTheorems.Examples StoreTheorems.Examples Records.Examples.

Definition seed : Seed := ((str "k1", str "ca1"), (str "k2", str "srv1")).
(** A store with one chunk that nothing refers to, beside two enrolled clients. *)
Definition root : Daemon := {| store_dir := one_chunk; identity_dir := two_clients |}.


Example maintenance_reclaims_the_chunk :
  ((daemon_prune (Some 50);; daemon_gc (Some 100) 1;; daemon_gc (Some 1100) 1) root).1 =
    Done {| reclaimed := [c0]; bytes_reclaimed := 3; pending := 0 |}.
Proof. compute_eq. Qed.

(** The laptop is revoked; then its calls are denied, under a disk that fails. *)
Lemma revoke_locks_out_witness :
  let '(o, d1) := daemon_revoke seed (str "laptop") root in
  o = Done 1 ∧
  let '(o2, _) := handle (with_auth daemon) (Some [laptop]) CallListSnapshots
    {| store_dir := one_chunk; identity_dir := set_faults [FailAt 0] (identity_dir d1) |} in
  o2 = Failed PermissionDenied ∨ o2 = Failed Internal ∨ o2 = Crashed.
Proof.
  assert ((daemon_revoke seed (str "laptop") root).1 = Done 1) as E by compute_eq.
  destruct (daemon_revoke seed (str "laptop") root) as [o d1] eqn:Er. cbn [fst] in E. subst o. split; [done|].
  pose proof (revoke_locks_out seed (str "laptop") root 1 d1 laptop [] {| name := str "laptop"; fingerprint := blake3_hex laptop; revoked := false |}
    (with_auth daemon) daemon CallListSnapshots one_chunk [FailAt 0] Er) as Hl. cbv zeta in Hl.
  destruct (handle (with_auth daemon) (Some [laptop]) CallListSnapshots _) as [o2 d2]. destruct Hl as (_ & _ & _ & Ho).
  - intros f Hf. assert (synced <$> files (identity_dir root) !! client_path (blake3_hex laptop) = Some true) as E by compute_eq.
    rewrite Hf in E. by injection E.
  - compute_eq.
  - reflexivity.
  - reflexivity.
  - destruct Ho as [->|[[-> _]|[-> _]]]; auto.
Defined.

Lemma status_report_witness : ∃ st d', daemon_status seed root = (Done st, d') ∧
  json_ca_fingerprint st = None ∧ json_chunks_unique st = 1 ∧ json_zero_ref_chunks st = 1 ∧
  files (identity_dir d') = files two_clients.
Proof.
  destruct (status_report seed root a_one_chunk None one_chunk_represents) as (st & d' & E & _ & Hi & Hca & _ & Hu & _ & Hz).
  - compute_eq.
  - compute_eq.
  - compute_eq.
  - exists st, d'. split; [exact E|]. split; [exact Hca|]. split; [rewrite Hu; compute_eq|]. split; [rewrite Hz; compute_eq|exact Hi].
Defined.

(** [serve] on an empty root sets the daemon up, with automatic pruning; when it is started
    again the CA is the same. *)
Definition fresh_root : Daemon := {| store_dir := StoreTheorems.fresh; identity_dir := fresh |}.
Definition seed2 : Seed := ((str "k3", str "ca2"), (str "k4", str "srv2")).
Definition fingerprint_of (s : Serving) : option bytes := ca_fingerprint <$> auth (service s).

Example serve_twice :
  let '(o1, d1) := serve seed true fresh_root in
  let '(o2, _) := serve seed2 true d1 in
  match o1, o2 with
  | Done s1, Done s2 => fingerprint_of s1 = fingerprint_of s2 ∧ prune_timer s1 = Some AUTO_PRUNE_INTERVAL
  | _, _ => False
  end.
Proof. vm_compute. split; reflexivity. Qed.

(** The machine stops during the first [serve], when the CA's certificate is in place and its
    key is not: the next [status] makes a new CA. *)
Definition half_made : Daemon := {|
  store_dir := StoreTheorems.fresh;
  identity_dir := reboot (λ _, O)
    (open_or_init seed.1 seed.2 (set_faults (replicate 7 NoFault ++ [CrashAt 0]) fresh)).2 |}.

Example status_replaces_a_ca_without_a_key :
  let before := content <$> files (identity_dir half_made) !! CA_CERT_FILE in
  let '(o, d') := daemon_status seed2 half_made in
  is_Some before ∧ files (identity_dir half_made) !! CA_KEY_FILE = None ∧
  (if o is Done st then is_Some (json_ca_fingerprint st) else False) ∧
  content <$> files (identity_dir d') !! CA_CERT_FILE ≠ before.
Proof. vm_compute. split_and!; try (eexists; reflexivity); done. Qed.
End Examples.
