(* ===== verification/WalkTheorems.v ===== *)
(** * What the walk over the source folders finds

    [collect_files] lists exactly the regular files below the roots, each one
    once, under the path made of the root's name and the names on the way to it,
    in the order of those names. *)

From S2P Require Import Prelude Text Backup.

(** Trees nest through lists of entries. *)
Section Node_induction.
Variable P : Node → Prop.
Hypothesis P_file : ∀ f, P (NodeFile f).
Hypothesis P_failed : P (NodeDir None).
Hypothesis P_dir : ∀ entries, Forall (λ e, P e.2) entries → P (NodeDir (Some entries)).
Hypothesis P_other : P NodeOther.
Hypothesis P_unknown : P NodeUnknown.

Fixpoint Node_nested_ind (node : Node) : P node :=
  match node with
  | NodeFile f => P_file f
  | NodeDir None => P_failed
  | NodeDir (Some entries) => P_dir entries
      ((fix go es := match es return Forall (λ e, P e.2) es with
        | [] => Forall_nil_2 _
        | e :: es => Forall_cons_2 _ _ _ (Node_nested_ind e.2) (go es)
        end) entries)
  | NodeOther => P_other
  | NodeUnknown => P_unknown
  end.
End Node_induction.

(** A regular file below a node, by the names on the way. *)
Inductive reachable : Node → list bytes → SourceFile → Prop :=
  | reach_file f : reachable (NodeFile f) [] f
  | reach_entry entries name child names f :
      (name, child) ∈ entries → reachable child names f →
      reachable (NodeDir (Some entries)) (name :: names) f.

(** Names as a file system has them: no two of a directory alike. *)
#[warnings="-register-all"]
Inductive node_wf : Node → Prop :=
  | wf_file f : node_wf (NodeFile f)
  | wf_failed : node_wf (NodeDir None)
  | wf_dir entries :
      NoDup entries.*1 → Forall name_wf entries.*1 → Forall (λ e, node_wf e.2) entries →
      node_wf (NodeDir (Some entries))
  | wf_other : node_wf NodeOther
  | wf_unknown : node_wf NodeUnknown.

(** The manifest path of a file below [base]. *)
Definition path_below (base : bytes) (names : list bytes) : bytes :=
  base ++ (names ≫= λ name, SLASH :: name).

Lemma path_below_cons base name names :
  path_below base (name :: names) = path_below (base ++ SLASH :: name) names.
Proof. unfold path_below. cbn. by rewrite <- app_assoc. Qed.

Lemma path_below_join name names : path_below name names = join_slash (name :: names).
Proof.
  revert name; induction names as [|n names IH]; intros name; [apply app_nil_r|].
  specialize (IH n). unfold path_below in *. cbn [mbind list_bind].
  transitivity (name ++ SLASH :: join_slash (n :: names)); [|done]. by rewrite <- IH.
Qed.

(** The order of the walk: by the names, from the root down. *)
Fixpoint names_lt (l k : list bytes) : Prop :=
  match l, k with
  | [], _ :: _ => True
  | a :: l, b :: k => (a ≠ b ∧ bytes_le a b) ∨ (a = b ∧ names_lt l k)
  | _, [] => False
  end.

Lemma names_lt_irrefl l : ¬ names_lt l l.
Proof. induction l as [|a l IH]; cbn; naive_solver. Qed.

Lemma sorted_NoDup l : StronglySorted names_lt l → NoDup l.
Proof.
  induction 1 as [|x l _ IH Hx]; constructor; [|done].
  intros Hin. by apply (names_lt_irrefl x), (proj1 (Forall_forall _ _) Hx).
Qed.

(** [found] lists the files below a node. *)
Record lists (node : Node) (found : list (list bytes * SourceFile)) : Prop := {
  lists_reachable names f : (names, f) ∈ found ↔ reachable node names f;
  lists_sorted : StronglySorted names_lt found.*1;
}.

Definition spec_below (base : bytes) (at_ : list bytes * SourceFile) : FileSpec :=
  {| abs := at_.2; rel := path_below base at_.1 |}.

Lemma walk_entries base entries acc out :
  foldM (walk_entry base) acc ((λ '(name, child), (name, walk_node child)) <$> entries) = Ok out ↔
  ∃ groups, out = acc ++ mjoin groups ∧ Forall2 (λ e g,
    utf8_valid e.1 = true ∧ walk_node e.2 (base ++ SLASH :: e.1) = Ok g) entries groups.
Proof.
  revert acc; induction entries as [|[name child] es IH]; intros acc.
  - split; [intros [= <-]; exists []; by rewrite app_nil_r|].
    intros (groups & -> & ->%Forall2_nil_inv_l). cbn. by rewrite app_nil_r.
  - cbn [fmap list_fmap foldM]. rewrite bind_Ok. unfold walk_entry at 1. split.
    + intros (acc' & Hw & Ho). destruct (utf8_valid name) eqn:Eu; [|done].
      apply bind_Ok in Hw as (g & Hg & [= <-]). apply IH in Ho as (groups & -> & Hf).
      exists (g :: groups). cbn. rewrite <- app_assoc. split; [done|]. by constructor.
    + intros (groups & -> & Hf). inversion Hf as [|? g ? gs [Hu Hg] Hgs]; subst. cbn in Hu, Hg.
      exists (acc ++ g). rewrite Hu, Hg. split; [done|]. apply IH. exists gs. cbn. by rewrite <- app_assoc.
Qed.

(** The entries in the order of the walk. *)
Lemma sorted_entries {A} (f : Node → A) (entries : list (bytes * Node)) :
  ∃ sorted, merge_sort name_le ((λ '(name, child), (name, f child)) <$> entries) =
      (λ '(name, child), (name, f child)) <$> sorted ∧
    sorted ≡ₚ entries ∧
    (NoDup entries.*1 → StronglySorted (λ a b, a ≠ b ∧ bytes_le a b) sorted.*1).
Proof.
  set (g := λ '(name, child), (name, f child)).
  pose proof (merge_sort_Permutation name_le (g <$> entries)) as Hp.
  pose proof (StronglySorted_merge_sort name_le (g <$> entries)) as Hs.
  apply Permutation_map_inv in Hp as (sorted & Heq & Hp).
  exists sorted. split; [exact Heq|]. split; [by symmetry|]. rewrite Hp. intros Hnd.
  rewrite Heq in Hs. clear Heq Hp. induction sorted as [|[n c] sorted IH]; [constructor|].
  cbn in *. inversion Hs as [|? ? Hs' Hall]; subst. apply NoDup_cons in Hnd as [Hn Hnd].
  constructor; [by apply IH|]. apply Forall_forall. intros m Hm. split; [congruence|].
  apply list_elem_of_fmap in Hm as ([m' c'] & -> & Hm).
  change (map g sorted) with (g <$> sorted) in Hall. rewrite Forall_fmap in Hall.
  by apply (proj1 (Forall_forall _ _) Hall) in Hm.
Qed.

(** One entry's files, under its name. *)
Definition under (name : bytes) (found : list (list bytes * SourceFile)) :=
  (λ x, (name :: x.1, x.2)) <$> found.

Lemma under_names name found : (under name found).*1 = cons name <$> found.*1.
Proof. unfold under. by rewrite <- !list_fmap_compose. Qed.

Lemma spec_below_under base name found :
  spec_below base <$> under name found = spec_below (base ++ SLASH :: name) <$> found.
Proof.
  unfold under. rewrite <- list_fmap_compose. apply list_fmap_ext. intros _ [names f] _.
  unfold spec_below; cbn. by rewrite path_below_cons.
Qed.

Lemma under_sorted name found :
  StronglySorted names_lt found.*1 → StronglySorted names_lt (under name found).*1.
Proof.
  rewrite under_names. induction 1 as [|x l _ IH Hx]; cbn; constructor; [done|].
  apply Forall_fmap. eapply Forall_impl; [exact Hx|]. intros y Hy. by right.
Qed.

(** The listings of the entries, put together. *)
Definition gather (entries : list (bytes * Node)) (founds : list (list (list bytes * SourceFile))) :=
  mjoin (zip_with (λ e found, under e.1 found) entries founds).

Lemma elem_of_gather entries founds names f :
  Forall2 (λ e found, lists e.2 found) entries founds →
  (names, f) ∈ gather entries founds ↔
    ∃ name child rest, names = name :: rest ∧ (name, child) ∈ entries ∧ reachable child rest f.
Proof.
  unfold gather. induction 1 as [|[name child] found entries founds Hc _ IH]; cbn [zip_with mjoin list_join].
  - split; [by intros ?%elem_of_nil|]. by intros (? & ? & ? & _ & ?%elem_of_nil & _).
  - rewrite elem_of_app, IH. split.
    + intros [([rest f'] & [= -> ->] & Hin)%list_elem_of_fmap|(n & c & rest & -> & Hin & Hr)].
      * exists name, child, rest. split_and!; [done|by left|by apply Hc].
      * exists n, c, rest. split_and!; [done|by right|done].
    + intros (n & c & rest & -> & [[= -> ->]|Hin]%elem_of_cons & Hr); [left|right; by eauto 10].
      apply list_elem_of_fmap. exists (rest, f). split; [done|by apply Hc].
Qed.

Lemma lists_gather entries founds :
  StronglySorted (λ a b, a ≠ b ∧ bytes_le a b) entries.*1 →
  Forall2 (λ e found, lists e.2 found) entries founds →
  lists (NodeDir (Some entries)) (gather entries founds).
Proof.
  intros Hs Hf. split.
  - intros names f. rewrite elem_of_gather by done. split.
    + intros (name & child & rest & -> & ? & ?). by econstructor.
    + inversion 1; subst. by eauto 10.
  - induction Hf as [|[name child] found entries founds Hc Hf IH]; [constructor|].
    cbn in Hs. apply StronglySorted_cons in Hs as [Hx Hs].
    change (gather ((name, child) :: entries) (found :: founds)) with (under name found ++ gather entries founds).
    rewrite fmap_app. apply StronglySorted_app_2; [|by apply under_sorted, Hc|by apply IH].
    intros l k Hl Hk. rewrite under_names in Hl. apply list_elem_of_fmap in Hl as (l' & -> & _).
    apply list_elem_of_fmap in Hk as ([k' f] & -> & Hk). apply elem_of_gather in Hk; [|done].
    destruct Hk as (n & c & rest & Hn & Hin & _). cbn in Hn. subst k'. left.
    apply (proj1 (Forall_forall _ _) Hx). apply list_elem_of_fmap. by exists (n, c).
Qed.

Lemma lists_permuted entries entries' found :
  entries ≡ₚ entries' → lists (NodeDir (Some entries)) found → lists (NodeDir (Some entries')) found.
Proof.
  intros Hp [Hr Hs]. split; [|done]. intros names f. rewrite Hr.
  split; inversion 1; subst; econstructor; try done; [by rewrite <- Hp|by rewrite Hp].
Qed.

Lemma utf8_valid_below base name :
  utf8_valid base = true → utf8_valid name = true → utf8_valid (base ++ SLASH :: name) = true.
Proof. intros Hb Hn. apply utf8_valid_app; [done|]. by apply (utf8_valid_app [SLASH]). Qed.

Lemma walk_lists node base specs :
  node_wf node → utf8_valid base = true → walk_node node base = Ok specs →
  ∃ found, specs = spec_below base <$> found ∧ lists node found ∧
    Forall (λ spec, utf8_valid (rel spec) = true) specs.
Proof.
  revert base specs. induction node as [f| |entries IH| |] using Node_nested_ind;
    intros base specs Hwf Hu; cbn [walk_node]; try done.
  - intros [= <-]. exists [([], f)]. split_and!; [|split|by constructor].
    + unfold spec_below, path_below. cbn. by rewrite app_nil_r.
    + intros names f'. rewrite list_elem_of_singleton. split; [intros [= -> ->]; constructor|].
      by inversion 1.
    + repeat constructor.
  - inversion Hwf as [| |? Hnd _ Hch | |]; subst.
    destruct (sorted_entries walk_node entries) as (sorted & -> & Hp & Hs).
    specialize (Hs Hnd).
    intros (groups & -> & Hf)%walk_entries. rewrite <- Hp in IH, Hch.
    assert (∃ founds, Forall2 (λ e found, lists e.2 found) sorted founds ∧
      mjoin groups = spec_below base <$> gather sorted founds ∧
      Forall (λ spec, utf8_valid (rel spec) = true) (mjoin groups)) as (founds & Hl & Hj & Hall).
    { clear Hnd Hwf Hp Hs. induction Hf as [|[name child] g sorted groups [Hn Hg] _ IHf]; [by exists []|].
      apply Forall_cons in IH as [IHc IH]. apply Forall_cons in Hch as [Hc Hch]. cbn in *.
      destruct (IHf IH Hch) as (founds & Hl & Hj & Hall).
      destruct (IHc _ g Hc (utf8_valid_below _ _ Hu Hn) Hg) as (found & -> & Hfound & Hag).
      exists (found :: founds). split; [by constructor|]. cbn. split; [|by apply Forall_app].
      unfold gather. cbn. rewrite fmap_app, spec_below_under. f_equal. exact Hj. }
    exists (gather sorted founds). split; [exact Hj|]. split; [|done].
    eapply lists_permuted; [exact Hp|]. by apply lists_gather.
  - intros [= <-]. exists []. split_and!; [done| |constructor]. split; [|constructor].
    intros names f. split; [by intros ?%elem_of_nil|inversion 1].
Qed.

(** ** Roots *)

(** The name a root goes by. *)
Definition root_name (root : Root) : option bytes :=
  n ← file_name (root_path root); if utf8_valid n then Some n else None.

Lemma root_name_wf root name : root_name root = Some name → name_wf name ∧ utf8_valid name = true.
Proof.
  unfold root_name. destruct (file_name (root_path root)) as [n|] eqn:E; [|done]. cbn.
  destruct (utf8_valid n) eqn:Eu; [|done]. intros [= <-]. split; [by eapply file_name_wf|done].
Qed.

Lemma reachable_names node names f : node_wf node → reachable node names f → Forall name_wf names.
Proof.
  intros Hwf Hr. induction Hr as [|entries name child names f Hin _ IH]; [constructor|].
  inversion Hwf as [| |? _ Hn Hch | |]; subst. constructor.
  - apply (proj1 (Forall_forall _ _) Hn), list_elem_of_fmap. by exists (name, child).
  - apply IH. by apply (proj1 (Forall_forall _ _) Hch) in Hin.
Qed.

Definition root_wf (root : Root) : Prop := ∀ node, root_node root = Some node → node_wf node.

(** A root as an entry among the roots. *)
Definition root_entry (root : Root) (entry : bytes * Node) : Prop :=
  root_name root = Some entry.1 ∧ root_node root = Some entry.2.

Definition file_at (x : list bytes * SourceFile) : FileSpec := {| abs := x.2; rel := join_slash x.1 |}.

Lemma file_at_under name found : file_at <$> under name found = spec_below name <$> found.
Proof.
  unfold under. rewrite <- list_fmap_compose. apply list_fmap_ext. intros _ [names f] _.
  unfold file_at, spec_below. cbn [compose fst snd]. by rewrite path_below_join.
Qed.

Lemma collect_root_Ok names acc root names' out :
  collect_root (names, acc) root = Ok (names', out) →
  ∃ entry found, root_entry root entry ∧ (entry.1 ∉ names) ∧ names' = {[entry.1]} ∪ names ∧
    walk_node entry.2 entry.1 = Ok found ∧ out = acc ++ found.
Proof.
  unfold collect_root. destruct (root_node root) as [[| entries | |]|] eqn:En; try done.
  rewrite bind_Ok. intros (name & Hn%ok_or_Ok & Hr).
  destruct (decide (name ∈ names)) as [|Hni]; [done|].
  apply bind_Ok in Hr as (found & Hw & [= <- <-]). by exists (name, NodeDir entries), found.
Qed.

Lemma collect_roots names acc roots names' out :
  foldM collect_root (names, acc) roots = Ok (names', out) → Forall root_wf roots →
  ∃ entries founds, Forall2 root_entry roots entries ∧ NoDup entries.*1 ∧
    (∀ name, name ∈ entries.*1 → ¬ name ∈ names) ∧
    Forall2 (λ e found, lists e.2 found) entries founds ∧
    out = acc ++ (file_at <$> gather entries founds) ∧
    Forall (λ spec, utf8_valid (rel spec) = true) (file_at <$> gather entries founds).
Proof.
  revert names acc; induction roots as [|root roots IH]; intros names acc.
  { intros [= <- <-] _. exists [], []. split_and!; try constructor; [by intros ? ?%elem_of_nil|].
    by rewrite app_nil_r. }
  cbn [foldM]. intros ([names1 acc1] & H1%collect_root_Ok & Hrest)%bind_Ok [Hwf Hwfs]%Forall_cons.
  destruct H1 as ([name node] & specs & [Hn Hnode] & Hni & -> & Hw & ->). cbn in *.
  destruct (root_name_wf _ _ Hn) as [_ Hu].
  destruct (walk_lists node name specs (Hwf _ Hnode) Hu Hw) as (found & -> & Hfound & Hag).
  destruct (IH _ _ Hrest Hwfs) as (entries & founds & He & Hnd & Hdis & Hl & -> & Hall).
  exists ((name, node) :: entries), (found :: founds).
  change (gather ((name, node) :: entries) (found :: founds)) with (under name found ++ gather entries founds).
  rewrite fmap_app, file_at_under, app_assoc. split_and!; try done; [by constructor|..].
  - cbn. constructor; [|done]. intros Hin%Hdis. set_solver.
  - intros n. cbn. rewrite elem_of_cons. intros [->|Hin%Hdis]; set_solver.
  - by constructor.
  - by apply Forall_app.
Qed.

Lemma gather_NoDup entries founds :
  NoDup entries.*1 → Forall2 (λ e found, lists e.2 found) entries founds →
  NoDup (gather entries founds).*1.
Proof.
  intros Hnd Hf. induction Hf as [|[name child] found entries founds Hc Hf IH]; [constructor|].
  apply NoDup_cons in Hnd as [Hn Hnd].
  change (gather ((name, child) :: entries) (found :: founds)) with (under name found ++ gather entries founds).
  rewrite fmap_app. apply NoDup_app. split_and!; [by apply sorted_NoDup, under_sorted, Hc| |by apply IH].
  intros l Hl Hk. rewrite under_names in Hl. apply list_elem_of_fmap in Hl as (l' & -> & _).
  apply list_elem_of_fmap in Hk as ([k' f] & Heq & Hk). apply elem_of_gather in Hk; [|done].
  destruct Hk as (n & c & rest & -> & Hin & _). injection Heq as -> _.
  apply Hn, list_elem_of_fmap. by exists (n, c).
Qed.

(** What the listing of the roots is: [found] has the files below them, each
    under the names on its way, the root's name first. *)
Record lists_roots (roots : list Root) (found : list (list bytes * SourceFile)) : Prop := {
  roots_reachable names f : (names, f) ∈ found ↔
    ∃ root name node rest, root ∈ roots ∧ root_entry root (name, node) ∧
      reachable node rest f ∧ names = name :: rest;
  roots_distinct : NoDup found.*1;
  roots_names : Forall (Forall name_wf) found.*1;
}.

Lemma collect_files_lists roots specs :
  Forall root_wf roots → collect_files roots = Ok specs →
  ∃ found, specs = file_at <$> found ∧ lists_roots roots found ∧
    Forall (λ spec, utf8_valid (rel spec) = true) specs.
Proof.
  unfold collect_files. intros Hwf ([names out] & Hr & [= <-])%bind_Ok.
  destruct (collect_roots _ _ _ _ _ Hr Hwf) as (entries & founds & He & Hnd & _ & Hl & -> & Hall).
  exists (gather entries founds). split; [done|]. split; [|done].
  assert (∀ names f, (names, f) ∈ gather entries founds ↔ ∃ root name node rest, root ∈ roots ∧
    root_entry root (name, node) ∧ reachable node rest f ∧ names = name :: rest) as Hreach.
  { intros ns f. rewrite elem_of_gather by done. split.
    - intros (name & node & rest & -> & Hin & Hrc).
      destruct (Forall2_elem_r _ _ _ _ He Hin) as (root & ? & ?). by exists root, name, node, rest.
    - intros (root & name & node & rest & Hin & Hre & Hrc & ->). exists name, node, rest. split_and!; [done| |done].
      destruct (Forall2_elem_l _ _ _ _ He Hin) as ([name' node'] & Hin' & [Hn' Hd']).
      destruct Hre as [Hn Hd]. cbn in *. by simplify_eq. }
  split; [exact Hreach|by apply gather_NoDup|].
  apply Forall_fmap, Forall_forall. intros [ns f] Hin. apply Hreach in Hin as (root & name & node & rest & Hin & [Hn Hd] & Hrc & ->).
  cbn in *. constructor; [by apply (root_name_wf _ _ Hn)|].
  apply (reachable_names node _ f); [|done]. by apply (proj1 (Forall_forall _ _) Hwf root).
Qed.

(** ** When the walk succeeds *)

(** Nothing below the node fails: directories list, entries have a type and a
    name in UTF-8. *)
#[warnings="-register-all"]
Inductive readable : Node → Prop :=
  | read_file f : readable (NodeFile f)
  | read_other : readable NodeOther
  | read_entries entries :
      Forall (λ e, utf8_valid e.1 = true ∧ readable e.2) entries → readable (NodeDir (Some entries)).

Lemma walk_readable node base : is_ok (walk_node node base) = true ↔ readable node.
Proof.
  revert base. induction node as [f| |entries IH| |] using Node_nested_ind; intros base;
    cbn [walk_node]; try by split; [done|inversion 1]. { by split; [constructor|]. } 2: by split; [constructor|].
  destruct (sorted_entries walk_node entries) as (sorted & -> & Hp & _).
  transitivity (∃ out, foldM (walk_entry base) [] ((λ '(name, child), (name, walk_node child)) <$> sorted) = Ok out).
  { destruct (foldM _ _ _); naive_solver. }
  transitivity (Forall (λ e, utf8_valid e.1 = true ∧ readable e.2) sorted).
  2: { rewrite Hp. split; [by constructor|by inversion 1]. }
  rewrite <- Hp in IH. setoid_rewrite walk_entries. split.
  - intros (out & groups & _ & Hf). clear Hp. revert IH. induction Hf as [|e g sorted groups [Hu Hg] _ IHf]; [constructor|].
    intros [He Hes]%Forall_cons. constructor; [|by apply IHf]. split; [done|].
    apply (He (base ++ SLASH :: e.1)). by rewrite Hg.
  - intros Hr. assert (∃ groups, Forall2 (λ e g, utf8_valid e.1 = true ∧
      walk_node e.2 (base ++ SLASH :: e.1) = Ok g) sorted groups) as [groups Hg]; [|by exists ([] ++ mjoin groups), groups].
    clear Hp. induction Hr as [|e sorted [Hu He] _ IHr]; [by exists []|].
    apply Forall_cons in IH as [IHe IH]. destruct (IHr IH) as [groups Hg].
    apply (IHe (base ++ SLASH :: e.1)) in He. destruct (walk_node _ _) as [g|] eqn:E; [|done].
    exists (g :: groups). by constructor.
Qed.

(** What a walk that fails reports. *)
Definition walk_error (e : BackupError) : Prop :=
  match e with BackupIo | BadRoot | DuplicateRootName _ | NonUtf8Path => True | _ => False end.

Lemma foldM_Err {E A B} (P : E → Prop) (f : B → A → result E B) b l e :
  (∀ b x e, x ∈ l → f b x = Err e → P e) → foldM f b l = Err e → P e.
Proof.
  revert b; induction l as [|x l IH]; intros b Hf; [done|]. cbn [foldM]. intros [Hx|(b' & _ & Hl)]%bind_Err.
  - by eapply Hf; [left|].
  - eapply IH; [|exact Hl]. intros. by eapply Hf; [right|].
Qed.

Lemma walk_node_Err node base e : walk_node node base = Err e → walk_error e.
Proof.
  revert base e. induction node as [f| |entries IH| |] using Node_nested_ind; intros base e;
    cbn [walk_node]; try done; try by intros [= <-].
  destruct (sorted_entries walk_node entries) as (sorted & -> & Hp & _). rewrite <- Hp in IH. clear Hp.
  apply foldM_Err. intros acc x e' Hx. apply list_elem_of_fmap in Hx as ([name child] & -> & Hin).
  pose proof (proj1 (Forall_forall _ _) IH _ Hin) as Hc. unfold walk_entry.
  destruct (utf8_valid name); [|by intros [= <-]]. intros [Hw|(? & _ & [=])]%bind_Err. by eapply Hc.
Qed.

Lemma collect_files_Err roots e : collect_files roots = Err e → walk_error e.
Proof.
  unfold collect_files. intros [Hr|([? ?] & _ & [=])]%bind_Err. revert Hr. apply foldM_Err.
  intros [names acc] root e' _. unfold collect_root.
  destruct (root_node root) as [[| entries | |]|]; try by intros [= <-].
  destruct (root_name root) as [name|] eqn:En; unfold root_name in En; rewrite En; cbn [ok_or mbind result_bind];
    [|by intros [= <-]].
  destruct (decide _); [by intros [= <-]|]. intros [Hw|(? & _ & [=])]%bind_Err. by eapply walk_node_Err.
Qed.

(** A root that can be listed, and goes by a name. *)
Definition root_readable (root : Root) : Prop :=
  is_Some (root_name root) ∧
  ∃ entries, root_node root = Some (NodeDir entries) ∧ readable (NodeDir entries).

Lemma collect_root_total names acc root :
  is_ok (collect_root (names, acc) root) = true ↔
  root_readable root ∧ ∀ name, root_name root = Some name → ¬ name ∈ names.
Proof.
  unfold collect_root, root_readable.
  destruct (root_node root) as [[| entries | |]|]; try by split; [done|intros [[_ (? & ? & _)] _]].
  change (n ← file_name (root_path root); if utf8_valid n then Some n else None) with (root_name root).
  destruct (root_name root) as [name|]; cbn [ok_or mbind result_bind].
  2: { split; [done|]. by intros [[[? ?] _] _]. }
  destruct (decide (name ∈ names)) as [Hin|Hin].
  - split; [done|]. intros [_ Hni]. by destruct (Hni name eq_refl).
  - destruct (walk_node (NodeDir entries) name) as [found|] eqn:Ew; cbn.
    + split; [intros _|done]. split; [|by intros ? [= <-]]. split; [done|]. exists entries.
      split; [done|]. apply (walk_readable _ name). by rewrite Ew.
    + split; [done|]. intros [[_ (es & [= <-] & Hr%(walk_readable _ name))] _]. by rewrite Ew in Hr.
Qed.

Lemma collect_roots_total names acc roots :
  is_ok (foldM collect_root (names, acc) roots) = true ↔
  Forall root_readable roots ∧ NoDup (omap root_name roots) ∧
  ∀ name, name ∈ omap root_name roots → ¬ name ∈ names.
Proof.
  revert names acc; induction roots as [|root roots IH]; intros names acc.
  { split; [|done]. intros _. split_and!; [constructor..|by intros ? ?%elem_of_nil]. }
  cbn [foldM]. pose proof (collect_root_total names acc root) as Ht.
  destruct (collect_root (names, acc) root) as [[names1 acc1]|e] eqn:E; cbn [mbind result_bind].
  - destruct (collect_root_Ok _ _ _ _ _ E) as ([name node] & _ & [Hn _] & Hni & -> & _ & _).
    rewrite IH. clear IH. cbn in Hn, Hni. destruct (proj1 Ht eq_refl) as [Hr _].
    cbn [omap list_omap]. rewrite Hn, Forall_cons, NoDup_cons. split.
    + intros (Hrs & Hnd & Hd). split_and!; [done..| |done|].
      * intros Hin%Hd. set_solver.
      * intros n [->|Hin%Hd]%elem_of_cons; set_solver.
    + intros ([_ Hrs] & [Hn' Hnd] & Hd). split_and!; [done..|]. intros n Hin.
      specialize (Hd n (list_elem_of_further _ _ _ Hin)). set_solver.
  - split; [done|]. intros ([Hr _]%Forall_cons & Hnd & Hd). apply Ht. split; [done|].
    intros n Hn. apply Hd. cbn [omap list_omap]. rewrite Hn. by left.
Qed.

Lemma collect_files_total roots :
  is_ok (collect_files roots) = true ↔ Forall root_readable roots ∧ NoDup (omap root_name roots).
Proof.
  transitivity (is_ok (foldM collect_root (∅, []) roots) = true).
  { unfold collect_files. by destruct (foldM collect_root (∅, []) roots) as [[? ?]|]. }
  rewrite collect_roots_total. set_solver.
Qed.

Lemma join_slash_inj l k :
  l ≠ [] → k ≠ [] → Forall name_wf l → Forall name_wf k → join_slash l = join_slash k → l = k.
Proof.
  intros Hl Hk Wl Wk Heq. rewrite <- (split_join_slash l), <- (split_join_slash k), Heq; try done;
    (eapply Forall_impl; [eassumption|]); by intros n (_ & _ & _ & ?).
Qed.

Lemma file_at_NoDup roots found : lists_roots roots found → NoDup (rel <$> (file_at <$> found)).
Proof.
  intros [Hr Hd Hn]. rewrite <- list_fmap_compose.
  assert (Forall (λ names, names ≠ []) found.*1) as Hne.
  { apply Forall_fmap, Forall_forall. intros [ns f] (root & n & nd & rest & _ & _ & _ & ->)%Hr. done. }
  clear Hr. induction found as [|[ns f] found IH]; [constructor|]. cbn in *.
  apply NoDup_cons in Hd as [Hni Hd]. apply Forall_cons in Hn as [Hns Hn]. apply Forall_cons in Hne as [Hne Hnes].
  constructor; [|by apply IH]. intros ([ks g] & Heq & Hin)%list_elem_of_fmap. cbn in Heq.
  assert (ks ∈ found.*1) as Hks by (apply list_elem_of_fmap; by exists (ks, g)).
  apply join_slash_inj in Heq; [congruence|done| |done|]; by eapply Forall_forall in Hks; [exact Hks|].
Qed.

(** C22. A backup takes exactly the regular files below its roots, each one
    once, under the path made of its root's name and the names on the way.  The
    walk succeeds exactly when every root is a directory that goes by a name of
    its own and nothing below a root fails: directories list, entries have a type
    and a name in UTF-8. *)
Theorem collect_files_spec roots :
  Forall root_wf roots →
  (is_ok (collect_files roots) = true ↔
     Forall root_readable roots ∧ NoDup (omap root_name roots)) ∧
  ∀ specs, collect_files roots = Ok specs →
    NoDup (rel <$> specs) ∧
    ∀ spec, spec ∈ specs ↔ ∃ root name node names,
      root ∈ roots ∧ root_name root = Some name ∧ root_node root = Some node ∧
      reachable node names (abs spec) ∧ rel spec = join_slash (name :: names).
Proof.
  intros Hwf. split.
  - apply collect_files_total.
  - intros specs Hc. destruct (collect_files_lists _ _ Hwf Hc) as (found & -> & Hl & _).
    split; [by eapply file_at_NoDup|]. destruct Hl as [Hr _ _]. intros [f r]. rewrite list_elem_of_fmap. split.
    + intros ([ns g] & [= -> ->] & (root & name & node & rest & ? & [? ?] & ? & ->)%Hr). cbn. by exists root, name, node, rest.
    + intros (root & name & node & rest & ? & ? & ? & ? & Hrel). cbn in Hrel. subst r.
      exists (name :: rest, f). split; [done|]. apply Hr. by exists root, name, node, rest.
Qed.

(** ** Examples *)

Module Examples.

Definition file (s : string) : Node := NodeFile {|
  sf_metadata := Some {| md_len := 1; md_modified := None; md_mode := 33188 |};
  sf_content := Some {| External.src_data := str s; External.src_error := None |} |}.

(** [data/b.txt], [data/a.txt], [data/sub/c.txt] and a symbolic link. *)
Definition data : Root := {| root_path := str "/home/u/data/."; root_node := Some (NodeDir (Some [
  (str "b.txt", file "b"); (str "link", NodeOther); (str "sub", NodeDir (Some [(str "c.txt", file "c")]));
  (str "a.txt", file "a")])) |}.

Lemma root_wf_data : root_wf data.
Proof.
  intros node [= <-]. repeat first
    [ apply wf_file | apply wf_other | apply wf_dir | apply Forall_cons_2 | apply Forall_nil_2
    | apply (bool_decide_unpack _); reflexivity ].
Qed.

Example walk_in_order :
  (match collect_files [data] with Ok specs => rel <$> specs | Err _ => [] end) =
  [str "data/a.txt"; str "data/b.txt"; str "data/sub/c.txt"].
Proof. vm_compute. reflexivity. Qed.

Example same_name_twice : collect_files [data; {| root_path := str "/data/"; root_node := root_node data |}] =
  Err (DuplicateRootName (str "data")).
Proof. vm_compute. reflexivity. Qed.

Lemma collect_files_spec_witness :
  is_ok (collect_files [data]) = true ∧ Forall root_readable [data] ∧ NoDup (omap root_name [data]).
Proof.
  destruct (collect_files_spec [data]) as [[Hok _] _]; [constructor; [apply root_wf_data|constructor]|].
  assert (is_ok (collect_files [data]) = true) as H by reflexivity. split; [exact H|]. exact (Hok H).
Defined.

End Examples.
