(* ===== verification/Bench.v ===== *)
(** * The chunk-size benchmark ([busyncr-core/src/bench.rs])

    The walk over a tree, the chunking of its files under every candidate size, and
    the report: what is measured of the chunks, and what a backup would cost in
    bookkeeping, which is exact arithmetic over the layouts of [Index] and
    [Manifest]. *)

From S2P Require Import Prelude External Text Index Chunking Manifest Retention Float Backup WalkTheorems FanOut.

(** ** Retained snapshots *)

(** First age and cell width, in hours. *)
Definition RETENTION_TIERS : list (Z * Z) := [(0, 3); (24, 24); (96, 96); (384, 384)].
Definition DEFAULT_PROJECTION_HORIZON_DAYS : Z := 365.

Definition div_ceil (a b : Z) : Z := (a + b - 1) / b.

(** The loop body over the tiers. *)
Definition tier_cells (horizon_hours : Z) (cells : Z) (it : nat * (Z * Z)) : Z :=
  let '(i, (start, width)) := it in
  let stop := match RETENTION_TIERS !! S i with Some (next_start, _) => next_start | None => u64_max end in
  let upper := Z.min stop horizon_hours in
  if decide (start < upper) then u64_add cells (div_ceil (upper - start) width) else cells.

Definition steady_state_snapshots (horizon_days : Z) : Z :=
  foldl (tier_cells (u64_saturating_mul horizon_days 24)) 0 (enumerate RETENTION_TIERS).

(** ** Chunking *)

(** Paths are left out of the I/O errors. *)
Inductive BenchError :=
  | BenchChunking (rel_path : bytes) (e : ChunkingError)
  | BenchIo
  | NotADirectory
  | BenchNonUtf8Path
  | CandidateMismatch (rel_path : bytes) (got expected : Z).

Record FileChunking := {
  rel_path : bytes;
  file_bytes : Z;
  per_candidate : list (list ChunkMeta);
}.

(** [collect_files] on any node: [parts] are the components of the path below the
    root.  A symbolic link is a [NodeOther]. *)
Fixpoint bench_walk (node : Node) (parts : list bytes) : result BenchError (list (bytes * SourceFile)) :=
  match node with
  | NodeFile f =>
      if forallb (λ p, utf8_valid p) parts then Ok [(join_slash parts, f)] else Err BenchNonUtf8Path
  | NodeOther => Ok []
  | NodeUnknown | NodeDir None => Err BenchIo
  | NodeDir (Some entries) =>
      foldM (λ out entry, found ← entry.2 (parts ++ [entry.1]); Ok (out ++ found)) []
        ((λ '(name, child), (name, bench_walk child)) <$> entries)
  end.

Section chunk.
Context `{Blake3Pkg, FastCdcPkg}.

Definition chunk_source (configs : list ChunkerConfig) (rel : bytes) (source : Source) :
    result BenchError FileChunking :=
  fan ← map_err (λ e, match e with Io _ => BenchIo | other => BenchChunking rel other end)
    (fan_out_chunks source configs);
  Ok {| rel_path := rel; file_bytes := bytes_read fan; per_candidate := fan_per_candidate fan |}.

Definition chunk_sources (sources : list (bytes * Source)) (configs : list ChunkerConfig) :
    result BenchError (list FileChunking) :=
  mapM (λ '(rel, reader), chunk_source configs rel reader) sources.

(** [files.sort()]: no two files have the same path. *)
Definition chunk_tree (root : option Node) (configs : list ChunkerConfig) :
    result BenchError (list FileChunking) :=
  match root with
  | Some (NodeDir entries) =>
      files ← bench_walk (NodeDir entries) [];
      mapM (λ '(rel, file), source ← ok_or BenchIo (sf_content file); chunk_source configs rel source)
        (merge_sort name_le files)
  | _ => Err NotADirectory
  end.
End chunk.

(** ** The report *)

Record BaselineOverlap := {
  baseline_unique_chunks : Z;
  shared_unique_chunks : Z;
  overlap_percent : f64;
}.

Record CandidateReport := {
  cr_target_size : Z;
  cr_min_size : Z;
  cr_max_size : Z;
  total_chunks : Z;
  unique_chunks : Z;
  cr_total_bytes : Z;
  unique_bytes : Z;
  dedup_ratio : f64;
  mean_chunk_size : f64;
  median_chunk_size : Z;
  p95_chunk_size : Z;
  index_bytes : Z;
  manifest_bytes_per_snapshot : Z;
  projected_bookkeeping_bytes : Z;
  baseline : option BaselineOverlap;
}.

Record BenchReport := {
  report_root : bytes;
  baseline_root : option bytes;
  files_scanned : Z;
  bench_total_bytes : Z;
  snapshots_projected : Z;
  candidates : list CandidateReport;
}.

Definition nearest_rank (sorted : list Z) (p : Z) : Z :=
  match sorted with
  | [] => 0
  | _ => let rank := Z.max (div_ceil (u64_mul (len sorted) p) 100) 1 in
         nth (Z.to_nat (rank - 1)) sorted 0
  end.

(** The chunks of candidate [ci]; no file lacks them once the counts are checked. *)
Definition metas_of (ci : nat) (file : FileChunking) : list ChunkMeta := nth ci (per_candidate file) [].

Definition unique_ids (files : list FileChunking) (ci : nat) : gset ChunkId :=
  foldl (λ set file, foldl (λ set meta, {[meta_id meta]} ∪ set) set (metas_of ci file)) ∅ files.

Definition check_candidate_counts (files : list FileChunking) (expected : Z) : result BenchError () :=
  foldM (λ _ file, if decide (len (per_candidate file) = expected) then Ok ()
                   else Err (CandidateMismatch (rel_path file) (len (per_candidate file)) expected)) () files.

(** What the loops over the files accumulate. *)
Record Measure := {
  ms_lens : list Z;
  ms_unique : gset ChunkId;
  ms_unique_bytes : Z;
  ms_manifest_bytes : Z;
}.

Definition measure_chunk (m : Measure) (meta : ChunkMeta) : Measure := {|
  ms_lens := ms_lens m ++ [meta_len meta];
  ms_unique := {[meta_id meta]} ∪ ms_unique m;
  ms_unique_bytes :=
    if decide (meta_id meta ∈ ms_unique m) then ms_unique_bytes m else u64_add (ms_unique_bytes m) (meta_len meta);
  ms_manifest_bytes := ms_manifest_bytes m;
|}.

Definition measure_file (ci : nat) (m : Measure) (file : FileChunking) : Measure :=
  let metas := metas_of ci file in
  foldl measure_chunk {|
    ms_lens := ms_lens m; ms_unique := ms_unique m; ms_unique_bytes := ms_unique_bytes m;
    ms_manifest_bytes := u64_add (ms_manifest_bytes m)
      (u64_add (u64_add MANIFEST_FILE_FIXED_BYTES (len (rel_path file))) (u64_mul ChunkId_LEN (len metas)))
  |} metas.

Definition measure (ci : nat) (files : list FileChunking) : Measure :=
  foldl (measure_file ci)
    {| ms_lens := []; ms_unique := ∅; ms_unique_bytes := 0; ms_manifest_bytes := MANIFEST_HEADER_BYTES |} files.

Definition u64_sum (l : list Z) : Z := foldl u64_add 0 l.

Definition overlap (unique : gset ChunkId) (ci : nat) (baseline_files : list FileChunking) : BaselineOverlap :=
  let baseline_set := unique_ids baseline_files ci in
  let shared := Z.of_nat (base.size (unique ∩ baseline_set)) in {|
    baseline_unique_chunks := Z.of_nat (base.size baseline_set);
    shared_unique_chunks := shared;
    overlap_percent :=
      if decide (unique = ∅) then f64_zero
      else f64_mul (f64_div (f64_of_Z shared) (f64_of_Z (Z.of_nat (base.size unique)))) (f64_of_Z 100);
  |}.

(** The loop body over the candidates. *)
Definition candidate_report (files : list FileChunking) (snapshots : Z)
    (baseline_files : option (list FileChunking)) (ci : nat) (cfg : ChunkerConfig) : CandidateReport :=
  let m := measure ci files in
  let total_chunks := len (ms_lens m) in
  let total_bytes := u64_sum (ms_lens m) in
  let lens := merge_sort Z.le (ms_lens m) in
  let index_bytes := u64_mul (Z.of_nat (base.size (ms_unique m))) WIRE_SIZE in {|
    cr_target_size := target_size cfg;
    cr_min_size := min_size cfg;
    cr_max_size := max_size cfg;
    total_chunks := total_chunks;
    unique_chunks := Z.of_nat (base.size (ms_unique m));
    cr_total_bytes := total_bytes;
    unique_bytes := ms_unique_bytes m;
    dedup_ratio :=
      if decide (ms_unique_bytes m = 0) then f64_one
      else f64_div (f64_of_Z total_bytes) (f64_of_Z (ms_unique_bytes m));
    mean_chunk_size :=
      if decide (total_chunks = 0) then f64_zero else f64_div (f64_of_Z total_bytes) (f64_of_Z total_chunks);
    median_chunk_size := nearest_rank lens 50;
    p95_chunk_size := nearest_rank lens 95;
    index_bytes := index_bytes;
    manifest_bytes_per_snapshot := ms_manifest_bytes m;
    projected_bookkeeping_bytes := u64_add index_bytes (u64_mul snapshots (ms_manifest_bytes m));
    baseline := overlap (ms_unique m) ci <$> baseline_files;
  |}.

Definition build_report (root : bytes) (files : list FileChunking) (configs : list ChunkerConfig)
    (snapshots : Z) (baseline : option (bytes * list FileChunking)) : result BenchError BenchReport :=
  check_candidate_counts files (len configs);;
  (match baseline with
   | Some (_, baseline_files) => check_candidate_counts baseline_files (len configs)
   | None => Ok ()
   end);;
  Ok {|
    report_root := root;
    baseline_root := fst <$> baseline;
    files_scanned := len files;
    bench_total_bytes := u64_sum (file_bytes <$> files);
    snapshots_projected := snapshots;
    candidates := imap (candidate_report files snapshots (snd <$> baseline)) configs;
  |}.

(** [Iterator::min_by_key]: the first of the least. *)
Definition min_by_key {A K} (lt : K → K → Prop) `{!RelDecision lt} (key : A → K) (l : list A) : option A :=
  match l with
  | [] => None
  | x :: l => Some (foldl (λ best y, if decide (lt (key y) (key best)) then y else best) x l)
  end.

Definition pair_lt (a b : Z * Z) : Prop := a.1 < b.1 ∨ a.1 = b.1 ∧ a.2 < b.2.
#[global] Instance pair_lt_dec : RelDecision pair_lt.
Proof. intros a b. unfold pair_lt. apply _. Defined.

Definition cost (c : CandidateReport) : Z := u64_add (unique_bytes c) (projected_bookkeeping_bytes c).

Definition recommend (report : BenchReport) : option Z :=
  cr_target_size <$> min_by_key pair_lt (λ c, (cost c, cr_target_size c)) (candidates report).

(** ** What the figures mean *)

(** The age at which a cell of the grid starts, in hours. *)
Definition starts_cell (h : Z) : bool :=
  existsb (λ '(i, (start, width)),
    bool_decide (start ≤ h ∧ (h - start) mod width = 0 ∧
      h < match RETENTION_TIERS !! S i with Some (next_start, _) => next_start | None => u64_max end))
    (enumerate RETENTION_TIERS).

Lemma div_ceil_succ a b : 0 < b → 0 ≤ a → div_ceil (a + 1) b = div_ceil a b + (if decide (a mod b = 0) then 1 else 0).
Proof.
  intros Hb Ha. unfold div_ceil. pose proof (Z.div_mod a b ltac:(lia)) as Hd. pose proof (Z.mod_pos_bound a b Hb) as Hm.
  set (q := a / b) in *. set (r := a mod b) in *.
  replace (a + 1 + b - 1) with (q * b + (r + b)) by lia. rewrite Z.div_add_l by lia.
  replace (a + b - 1) with (q * b + (r + b - 1)) by lia. rewrite Z.div_add_l by lia.
  replace ((r + b) / b) with 1 by (apply (Z.div_unique _ _ _ r); lia).
  destruct (decide (r = 0)) as [->|Hr].
  - replace ((0 + b - 1) / b) with 0 by (symmetry; apply Z.div_small; lia). lia.
  - replace ((r + b - 1) / b) with 1 by (apply (Z.div_unique _ _ _ (r - 1)); lia). lia.
Qed.

(** The cells of one tier below a horizon, an hour later. *)
Definition cells_below (start width stop h : Z) : Z :=
  if decide (start < Z.min stop h) then div_ceil (Z.min stop h - start) width else 0.

Lemma cells_below_succ start width stop h : 0 < width → 0 ≤ start < stop → 0 ≤ h →
  cells_below start width stop (h + 1) = cells_below start width stop h +
    (if decide (start ≤ h ∧ (h - start) mod width = 0 ∧ h < stop) then 1 else 0).
Proof.
  intros Hw Hs Hh. unfold cells_below.
  destruct (decide (h < start)) as [H1|H1].
  { rewrite !decide_False by lia. lia. }
  destruct (decide (stop ≤ h)) as [H2|H2].
  { replace (Z.min stop (h + 1)) with stop by lia. replace (Z.min stop h) with stop by lia.
    rewrite decide_True by lia. rewrite (decide_False (P := _ ∧ _)) by lia. lia. }
  replace (Z.min stop (h + 1) - start) with (h - start + 1) by lia. rewrite decide_True by lia.
  rewrite div_ceil_succ by lia. destruct (decide (start < Z.min stop h)) as [H3|H3].
  - replace (Z.min stop h - start) with (h - start) by lia.
    destruct (decide ((h - start) mod width = 0)); [rewrite decide_True by lia|rewrite decide_False by lia]; lia.
  - replace (h - start) with 0 by lia. rewrite Z.mod_0_l by lia. rewrite !decide_True by lia.
    unfold div_ceil. rewrite Z.div_small by lia. lia.
Qed.

Lemma cells_below_bound start width stop h : 0 < width → start ≤ stop →
  0 ≤ cells_below start width stop h ≤ Z.max 0 (Z.min stop h - start).
Proof.
  intros Hw Hs. unfold cells_below. destruct (decide _) as [Hlt|]; [|lia].
  set (a := Z.min stop h - start) in *. unfold div_ceil. split; [apply Z.div_pos; lia|].
  rewrite Z.max_r by lia. assert ((a + width - 1) / width < a + 1); [|lia]. apply Z.div_lt_upper_bound; [lia|]. nia.
Qed.

(** The sum over the tiers, which does not overflow. *)
Lemma tier_cells_sum h : 0 ≤ h ≤ u64_max →
  foldl (tier_cells h) 0 (enumerate RETENTION_TIERS) =
  cells_below 0 3 24 h + cells_below 24 24 96 h + cells_below 96 96 384 h + cells_below 384 384 u64_max h.
Proof.
  intros Hh.
  assert (∀ cells start width stop, 0 ≤ cells → 0 < width → start ≤ stop →
    cells + Z.max 0 (Z.min stop h - start) ≤ u64_max →
    (if decide (start < Z.min stop h) then u64_add cells (div_ceil (Z.min stop h - start) width) else cells) =
    cells + cells_below start width stop h) as Hstep.
  { intros cells start width stop Hc Hw Hs Hb. pose proof (cells_below_bound start width stop h Hw Hs) as Hcb.
    unfold cells_below in *. destruct (decide _); [|lia]. unfold u64_add. apply Z.mod_small. unfold u64_max in *. lia. }
  pose proof (cells_below_bound 0 3 24 h ltac:(lia) ltac:(lia)).
  pose proof (cells_below_bound 24 24 96 h ltac:(lia) ltac:(lia)).
  pose proof (cells_below_bound 96 96 384 h ltac:(lia) ltac:(lia)).
  change (enumerate RETENTION_TIERS) with [(0%nat, (0, 3)); (1%nat, (24, 24)); (2%nat, (96, 96)); (3%nat, (384, 384))].
  cbn [foldl tier_cells RETENTION_TIERS lookup list_lookup].
  rewrite (Hstep 0 0 3 24) by (unfold u64_max in *; lia). rewrite Z.add_0_l.
  rewrite (Hstep _ 24 24 96) by (unfold u64_max in *; lia). rewrite (Hstep _ 96 96 384) by (unfold u64_max in *; lia).
  by rewrite (Hstep _ 384 384 u64_max) by (unfold u64_max in *; lia).
Qed.

Lemma steady_hours n : Z.of_nat n ≤ u64_max →
  foldl (tier_cells (Z.of_nat n)) 0 (enumerate RETENTION_TIERS) = len (filter (λ h, starts_cell h) (seqZ 0 (Z.of_nat n))).
Proof.
  induction n as [|n IH]; intros Hn; [by vm_compute|]. specialize (IH ltac:(lia)).
  rewrite tier_cells_sum in IH |- * by (unfold u64_max in *; lia).
  replace (Z.of_nat (S n)) with (Z.of_nat n + 1) in * by lia. set (h := Z.of_nat n) in *.
  rewrite !cells_below_succ by (unfold u64_max in *; lia).
  rewrite seqZ_app by lia. rewrite filter_app. unfold len in *. rewrite length_app, Nat2Z.inj_add, <- IH.
  change (seqZ (0 + h) 1) with [0 + h]. rewrite Z.add_0_l.
  assert (Z.of_nat (length (filter (λ h, starts_cell h) [h])) =
    (if decide (0 ≤ h ∧ (h - 0) mod 3 = 0 ∧ h < 24) then 1 else 0) +
    (if decide (24 ≤ h ∧ (h - 24) mod 24 = 0 ∧ h < 96) then 1 else 0) +
    (if decide (96 ≤ h ∧ (h - 96) mod 96 = 0 ∧ h < 384) then 1 else 0) +
    (if decide (384 ≤ h ∧ (h - 384) mod 384 = 0 ∧ h < u64_max) then 1 else 0)) as ->; [|lia].
  rewrite filter_cons, filter_nil. unfold starts_cell.
  change (enumerate RETENTION_TIERS) with [(0%nat, (0, 3)); (1%nat, (24, 24)); (2%nat, (96, 96)); (3%nat, (384, 384))].
  cbn [existsb RETENTION_TIERS lookup list_lookup].
  repeat case_bool_decide; cbn [orb]; destruct (decide _) as [Hd|Hd]; try (by destruct Hd); cbn [length];
    repeat first [rewrite decide_True by lia|rewrite decide_False by lia]; try lia.
Qed.

(** *** Percentiles *)

(** The number of elements below, or up to, a value. *)
Definition count_lt (x : Z) (l : list Z) : Z := len (filter (λ y, y < x) l).
Definition count_le (x : Z) (l : list Z) : Z := len (filter (λ y, y ≤ x) l).

Lemma filter_none {A} (P : A → Prop) `{!∀ x, Decision (P x)} l : Forall (λ x, ¬ P x) l → filter P l = [].
Proof. induction 1; [done|by rewrite filter_cons_False]. Qed.

Lemma filter_every {A} (P : A → Prop) `{!∀ x, Decision (P x)} l : Forall P l → filter P l = l.
Proof. induction 1; [done|rewrite filter_cons_True by done; by f_equal]. Qed.

Lemma sorted_counts l i x : StronglySorted Z.le l → l !! i = Some x →
  count_lt x l ≤ Z.of_nat i < count_le x l.
Proof.
  intros Hs Hi. rewrite <- (take_drop_middle _ _ _ Hi) in Hs |- *.
  pose proof (lookup_lt_Some _ _ _ Hi) as Hlt. apply StronglySorted_app in Hs as (Hcross & Hs1 & Hs2).
  apply StronglySorted_cons in Hs2 as [Hx _]. unfold count_lt, count_le, len. rewrite !filter_app, !length_app.
  assert (∀ y, y ∈ take i l → y ≤ x) as Hle by (intros y Hy; apply Hcross; [done|by left]). split.
  - assert (filter (λ y, y < x) (x :: drop (S i) l) = []) as ->.
    { rewrite filter_cons_False by lia. apply filter_none. eapply Forall_impl; [exact Hx|]. cbn. lia. }
    pose proof (length_filter (λ y, y < x) (take i l)) as Hf. rewrite length_take in Hf. cbn [length]. lia.
  - rewrite (filter_every _ (take i l)) by (apply Forall_forall; exact Hle).
    rewrite filter_cons_True by lia. rewrite length_take. cbn [length]. lia.
Qed.

Lemma nearest_rank_spec l p : StronglySorted Z.le l → l ≠ [] → 0 < p ≤ 100 → len l * p ≤ u64_max →
  let x := nearest_rank l p in
  x ∈ l ∧ 100 * count_lt x l < p * len l ≤ 100 * count_le x l.
Proof.
  intros Hs Hne Hp Hb. cbn zeta. unfold nearest_rank. destruct l as [|y l]; [done|]. set (k := y :: l) in *.
  assert (0 < len k) as Hk by (unfold k, len; cbn; lia).
  unfold u64_mul. rewrite Z.mod_small by (unfold u64_max in *; lia).
  set (r := div_ceil (len k * p) 100).
  assert (100 * (r - 1) < len k * p ≤ 100 * r) as Hr.
  { unfold r, div_ceil. pose proof (Z.div_mod (len k * p + 100 - 1) 100 ltac:(lia)).
    pose proof (Z.mod_pos_bound (len k * p + 100 - 1) 100 ltac:(lia)). lia. }
  assert (0 < len k * p ≤ len k * 100) as Hkp by (split; [apply Z.mul_pos_pos|apply Z.mul_le_mono_nonneg_l]; lia).
  assert (1 ≤ r ≤ len k) as Hr' by lia. rewrite Z.max_l by lia.
  destruct (lookup_lt_is_Some_2 k (Z.to_nat (r - 1))) as [x Hx]; [unfold len in *; lia|].
  rewrite (nth_lookup_Some _ _ _ _ Hx). split; [by eapply list_elem_of_lookup_2|].
  pose proof (sorted_counts _ _ _ Hs Hx). lia.
Qed.

(** *** Measures *)

(** The first chunk of every identity. *)
Fixpoint firsts (seen : gset ChunkId) (metas : list ChunkMeta) : list ChunkMeta :=
  match metas with
  | [] => []
  | m :: metas =>
      if decide (meta_id m ∈ seen) then firsts seen metas else m :: firsts ({[meta_id m]} ∪ seen) metas
  end.

Lemma union_shuffle (i : ChunkId) (A B : gset ChunkId) : {[i]} ∪ A ∪ B = A ∪ ({[i]} ∪ B).
Proof. set_solver. Qed.

Lemma firsts_seen seen metas : let u := firsts seen metas in
  NoDup (meta_id <$> u) ∧ (∀ m, m ∈ u → m ∈ metas ∧ meta_id m ∉ seen) ∧
  list_to_set (meta_id <$> u) ∪ seen = list_to_set (meta_id <$> metas) ∪ seen.
Proof.
  cbn zeta. revert seen. induction metas as [|m metas IH]; intros seen; cbn [firsts].
  { split_and!; [constructor|by intros x Hx%elem_of_nil|done]. }
  destruct (decide (meta_id m ∈ seen)) as [Hm|Hm].
  - destruct (IH seen) as (Hnd & Hin & Heq). split_and!; [done|intros x Hx; destruct (Hin x Hx); split; [by right|done]|].
    rewrite Heq. cbn [fmap list_fmap list_to_set]. rewrite union_shuffle.
    by rewrite (subseteq_union_1_L {[meta_id m]} seen) by by apply singleton_subseteq_l.
  - destruct (IH ({[meta_id m]} ∪ seen)) as (Hnd & Hin & Heq). split_and!.
    + cbn [fmap list_fmap]. constructor; [|done]. intros (x & Hx & Hxin)%list_elem_of_fmap.
      destruct (Hin x Hxin) as [_ Hn]. apply Hn, elem_of_union_l, elem_of_singleton. by rewrite Hx.
    + intros x [->|Hx]%elem_of_cons; [split; [by left|done]|]. destruct (Hin x Hx) as [? Hn].
      split; [by right|]. intros Hs. by apply Hn, elem_of_union_r.
    + cbn [fmap list_fmap list_to_set]. rewrite !union_shuffle. exact Heq.
Qed.

(** The exact sum. *)
Definition sum_Z (l : list Z) : Z := foldr Z.add 0 l.

#[global] Instance sum_Z_proper : Proper ((≡ₚ) ==> (=)) sum_Z.
Proof. unfold sum_Z. intros l k Hp. induction Hp; cbn; lia. Qed.

Lemma u64_sum_eq l : u64_sum l = sum_Z l mod 2 ^ 64.
Proof.
  unfold u64_sum. assert (∀ n, foldl u64_add (n mod 2 ^ 64) l = (n + sum_Z l) mod 2 ^ 64) as Hn; [|by apply (Hn 0)].
  induction l as [|x l IH]; intros n; cbn [foldl sum_Z foldr]; [by rewrite Z.add_0_r|].
  unfold u64_add at 2. rewrite Zplus_mod_idemp_l, IH. by rewrite <- Z.add_assoc.
Qed.

(** The chunks of candidate [ci], file after file. *)
Definition all_metas (ci : nat) (files : list FileChunking) : list ChunkMeta := files ≫= metas_of ci.

Lemma measure_chunks m metas :
  let m' := foldl measure_chunk m metas in
  ms_lens m' = ms_lens m ++ (meta_len <$> metas) ∧
  ms_unique m' = ms_unique m ∪ list_to_set (meta_id <$> metas) ∧
  ms_unique_bytes m' = foldl u64_add (ms_unique_bytes m) (meta_len <$> firsts (ms_unique m) metas) ∧
  ms_manifest_bytes m' = ms_manifest_bytes m.
Proof.
  cbn zeta. revert m. induction metas as [|x metas IH]; intros m.
  { cbn. by rewrite app_nil_r, union_empty_r_L. }
  cbn [foldl]. destruct (IH (measure_chunk m x)) as (-> & -> & -> & ->).
  cbn [measure_chunk ms_lens ms_unique ms_unique_bytes ms_manifest_bytes fmap list_fmap list_to_set firsts].
  split_and!; [by rewrite <- app_assoc|by rewrite (comm_L (∪) {[meta_id x]}), (assoc_L (∪))| |done].
  destruct (decide (meta_id x ∈ ms_unique m)) as [Hx|Hx]; [|done].
  by rewrite (subseteq_union_1_L {[meta_id x]} (ms_unique m)) by by apply singleton_subseteq_l.
Qed.

Lemma firsts_app seen l k : firsts seen (l ++ k) = firsts seen l ++ firsts (seen ∪ list_to_set (meta_id <$> l)) k.
Proof.
  revert seen. induction l as [|x l IH]; intros seen; cbn [app firsts fmap list_fmap list_to_set].
  { by rewrite union_empty_r_L. }
  rewrite (assoc_L (∪)), (comm_L (∪) seen). destruct (decide (meta_id x ∈ seen)) as [Hx|Hx]; [|by rewrite IH].
  by rewrite (subseteq_union_1_L {[meta_id x]} seen), IH by by apply singleton_subseteq_l.
Qed.

Lemma measure_files ci m files :
  let m' := foldl (measure_file ci) m files in
  ms_lens m' = ms_lens m ++ (meta_len <$> all_metas ci files) ∧
  ms_unique m' = ms_unique m ∪ list_to_set (meta_id <$> all_metas ci files) ∧
  ms_unique_bytes m' = foldl u64_add (ms_unique_bytes m) (meta_len <$> firsts (ms_unique m) (all_metas ci files)).
Proof.
  cbn zeta. revert m. induction files as [|f files IH]; intros m.
  { cbn. by rewrite app_nil_r, union_empty_r_L. }
  cbn [foldl]. destruct (IH (measure_file ci m f)) as (-> & -> & ->). unfold measure_file.
  destruct (measure_chunks {| ms_lens := ms_lens m; ms_unique := ms_unique m; ms_unique_bytes := ms_unique_bytes m;
    ms_manifest_bytes := u64_add (ms_manifest_bytes m) (u64_add (u64_add MANIFEST_FILE_FIXED_BYTES (len (rel_path f)))
      (u64_mul ChunkId_LEN (len (metas_of ci f)))) |} (metas_of ci f)) as (-> & -> & -> & _).
  cbn [ms_lens ms_unique ms_unique_bytes]. unfold all_metas. cbn [mbind list_bind].
  rewrite !fmap_app, list_to_set_app_L, firsts_app, fmap_app, foldl_app.
  split_and!; [by rewrite <- app_assoc|by rewrite (assoc_L (∪))|done].
Qed.

Section rows.
Context `{UlidPkg}.

(** The manifest of a snapshot of the tree, chunked as candidate [ci] does. *)
Definition manifest_of (ci : nat) (files : list FileChunking) (m : Manifest) : Prop :=
  Forall2 (λ f e, path e = rel_path f ∧ chunks e = meta_id <$> metas_of ci f) files (Manifest.files m).

Lemma measure_manifest ci files (m : Manifest) : manifest_of ci files m →
  ms_manifest_bytes (measure ci files) = encoded_len m.
Proof.
  unfold manifest_of, measure, encoded_len. generalize MANIFEST_HEADER_BYTES.
  assert (∀ ms, Forall2 (λ f e, path e = rel_path f ∧ chunks e = meta_id <$> metas_of ci f) files (Manifest.files m) →
    ms_manifest_bytes (foldl (measure_file ci) ms files) = foldl (λ total file,
      u64_add total (u64_add (u64_add MANIFEST_FILE_FIXED_BYTES (len (path file)))
        (u64_mul ChunkId_LEN (len (chunks file))))) (ms_manifest_bytes ms) (Manifest.files m)) as Hall.
  2: { intros n HF. by rewrite Hall. }
  intros ms HF. revert ms. induction HF as [|f e fs es [Hp Hc] _ IH]; intros ms; [done|]. cbn [foldl].
  rewrite IH. f_equal. unfold measure_file.
  match goal with |- ms_manifest_bytes (foldl _ ?m _) = _ => destruct (measure_chunks m (metas_of ci f)) as (_ & _ & _ & ->) end.
  cbn [ms_manifest_bytes]. rewrite Hp, Hc. unfold len. by rewrite length_fmap.
Qed.

Lemma check_candidate_counts_spec files n :
  match check_candidate_counts files n with
  | Ok _ => Forall (λ f, len (per_candidate f) = n) files
  | Err e => ∃ f, f ∈ files ∧ len (per_candidate f) ≠ n ∧ e = CandidateMismatch (rel_path f) (len (per_candidate f)) n
  end.
Proof.
  unfold check_candidate_counts. induction files as [|f files IH]; [constructor|]. cbn [foldM].
  destruct (decide (len (per_candidate f) = n)) as [Hf|Hf]; cbn [mbind result_bind].
  - destruct (foldM _ _ files); [by constructor|]. destruct IH as (g & Hg & ? & ->). exists g. split; [by right|done].
  - exists f. split; [by left|done].
Qed.

(** What a candidate's row says of the chunks [metas] that the files have under it. *)
Record row_of (files : list FileChunking) (snapshots : Z) (ci : nat) (cfg : ChunkerConfig)
    (metas : list ChunkMeta) (c : CandidateReport) : Prop := {
  row_sizes : cr_min_size c = min_size cfg ∧ cr_target_size c = target_size cfg ∧ cr_max_size c = max_size cfg;
  row_total : total_chunks c = len metas ∧ cr_total_bytes c = sum_Z (meta_len <$> metas) mod 2 ^ 64;
  row_unique : ∃ uniq, (∀ m, m ∈ uniq → m ∈ metas) ∧ NoDup (meta_id <$> uniq) ∧
    (∀ m, m ∈ metas → meta_id m ∈ meta_id <$> uniq) ∧
    unique_chunks c = len uniq ∧ unique_bytes c = sum_Z (meta_len <$> uniq) mod 2 ^ 64;
  row_manifest m : manifest_of ci files m → manifest_bytes_per_snapshot c = encoded_len m;
  row_projection : projected_bookkeeping_bytes c =
    (unique_chunks c * WIRE_SIZE + snapshots * manifest_bytes_per_snapshot c) mod 2 ^ 64;
  row_percentiles : metas ≠ [] → len metas * 95 ≤ u64_max →
    Forall (λ '(p, x), x ∈ meta_len <$> metas ∧
      100 * count_lt x (meta_len <$> metas) < p * len metas ≤ 100 * count_le x (meta_len <$> metas))
    [(50, median_chunk_size c); (95, p95_chunk_size c)];
}.

Lemma count_perm x l k : l ≡ₚ k → count_lt x l = count_lt x k ∧ count_le x l = count_le x k.
Proof. intros Hp. unfold count_lt, count_le, len. split; f_equal; by rewrite Hp. Qed.

Lemma percentile_of l p : 0 < p ≤ 100 → l ≠ [] → len l * p ≤ u64_max →
  let x := nearest_rank (merge_sort Z.le l) p in
  x ∈ l ∧ 100 * count_lt x l < p * len l ≤ 100 * count_le x l.
Proof.
  intros Hp Hne Hb. pose proof (merge_sort_Permutation Z.le l) as Hperm. cbn zeta.
  assert (len (merge_sort Z.le l) = len l) as Hl by (unfold len; by rewrite Hperm).
  destruct (nearest_rank_spec (merge_sort Z.le l) p) as (Hin & Hlt & Hle); [|by intros E; rewrite E in Hperm; apply Hne; symmetry; apply Permutation_nil_l|done|by rewrite Hl|].
  { apply (StronglySorted_merge_sort Z.le). }
  destruct (count_perm (nearest_rank (merge_sort Z.le l) p) _ _ Hperm) as [E1 E2]. rewrite E1 in Hlt. rewrite E2 in Hle.
  rewrite Hl in *. split; [|done]. by apply (elem_of_Permutation_proper _ _ _ Hperm).
Qed.

Lemma candidate_row files snapshots base ci cfg :
  row_of files snapshots ci cfg (all_metas ci files) (candidate_report files snapshots base ci cfg).
Proof.
  destruct (measure_files ci {| ms_lens := []; ms_unique := ∅; ms_unique_bytes := 0;
    ms_manifest_bytes := MANIFEST_HEADER_BYTES |} files) as (Hl & Hu & Hb). cbn [ms_lens ms_unique ms_unique_bytes app] in *.
  fold (measure ci files) in Hl, Hu, Hb. set (metas := all_metas ci files) in *.
  destruct (firsts_seen ∅ metas) as (Hnd & Hin & Heq). set (uniq := firsts ∅ metas) in *.
  rewrite union_empty_l_L in Hu. rewrite !union_empty_r_L in Heq.
  assert (Z.of_nat (base.size (ms_unique (measure ci files))) = len uniq) as Hsize.
  { rewrite Hu, <- Heq, size_list_to_set by done. unfold len. by rewrite length_fmap. }
  split; unfold candidate_report; cbn.
  - done.
  - rewrite Hl. split; [unfold len; by rewrite length_fmap|apply u64_sum_eq].
  - exists uniq. split_and!; [by intros m Hm; apply Hin|done| |exact Hsize|rewrite Hb; apply u64_sum_eq].
    intros m Hm. apply (elem_of_list_to_set (C := gset ChunkId)). rewrite Heq.
    by apply elem_of_list_to_set, list_elem_of_fmap_2.
  - intros m. apply measure_manifest.
  - unfold u64_add, u64_mul. by rewrite <- Zplus_mod.
  - intros Hne Hlen. rewrite Hl. assert (len (meta_len <$> metas) = len metas) as Hlm by (unfold len; by rewrite length_fmap).
    assert (meta_len <$> metas ≠ []) by by destruct metas.
    rewrite <- Hlm in *. assert (0 ≤ len (meta_len <$> metas)) by (unfold len; lia).
    repeat (apply Forall_cons; split; [apply percentile_of; [lia|done|lia]|]). constructor.
Qed.

(** C34. The report has a row for every candidate, in order, and each row is exact: its
    chunk and byte counts are those of all chunks and of the distinct ones, its
    manifest size is the length of the manifest that a snapshot of the tree would
    have, the bookkeeping is the index and that many manifests, and the median and
    95th percentile are lengths of chunks that so many chunks are up to and fewer
    are below.  A file without a result per candidate, of either tree, is the only
    error. *)
Theorem build_report_spec root files configs snapshots base :
  match build_report root files configs snapshots base with
  | Ok report =>
      files_scanned report = len files ∧
      bench_total_bytes report = sum_Z (file_bytes <$> files) mod 2 ^ 64 ∧
      length (candidates report) = length configs ∧
      ∀ ci cfg, configs !! ci = Some cfg → ∃ c, candidates report !! ci = Some c ∧
        row_of files snapshots ci cfg (all_metas ci files) c
  | Err e => ∃ f, f ∈ files ++ default [] (snd <$> base) ∧ len (per_candidate f) ≠ len configs ∧
      e = CandidateMismatch (rel_path f) (len (per_candidate f)) (len configs)
  end.
Proof.
  unfold build_report. pose proof (check_candidate_counts_spec files (len configs)) as Hf.
  destruct (check_candidate_counts files (len configs)) as [|e]; cbn [mbind result_bind].
  2: { destruct Hf as (f & Hin & Hf). exists f. by split; [apply elem_of_app; left|]. }
  destruct base as [[r bfiles]|]; cbn [fmap option_fmap option_map fst snd default].
  - pose proof (check_candidate_counts_spec bfiles (len configs)) as Hb.
    destruct (check_candidate_counts bfiles (len configs)) as [|e]; cbn [mbind result_bind].
    2: { destruct Hb as (f & Hin & Hb). exists f. by split; [apply elem_of_app; right|]. }
    cbn [files_scanned bench_total_bytes candidates]. split_and!; [done|apply u64_sum_eq|by rewrite length_imap|].
    intros ci cfg Hcfg. rewrite list_lookup_imap, Hcfg. eexists. split; [done|]. apply candidate_row.
  - cbn [mbind result_bind files_scanned bench_total_bytes candidates]. split_and!; [done|apply u64_sum_eq|by rewrite length_imap|].
    intros ci cfg Hcfg. rewrite list_lookup_imap, Hcfg. eexists. split; [done|]. apply candidate_row.
Qed.
End rows.

(** *** The recommendation *)

(** The first of the least, in a strict weak order. *)
Section min_by.
Context {A K : Type} (lt : K → K → Prop) `{!RelDecision lt} (key : A → K).
Context (Hirr : ∀ a, ¬ lt a a) (Htr : ∀ a b c, lt a b → lt b c → lt a c).
Context (Hweak : ∀ a b c, lt a b → ¬ lt c b → lt a c).

Definition first_least (l : list A) (i : nat) (x : A) : Prop :=
  l !! i = Some x ∧ (∀ y, y ∈ l → ¬ lt (key y) (key x)) ∧
  ∀ k y, (k < i)%nat → l !! k = Some y → lt (key x) (key y).

Lemma min_by_key_spec (l : list A) :
  match min_by_key lt key l with None => l = [] | Some x => ∃ i, first_least l i x end.
Proof.
  destruct l as [|x l]; [done|]. cbn [min_by_key]. induction l as [|z l IH] using rev_ind.
  { cbn [foldl]. exists 0%nat. split; [done|]. split; [|intros; lia].
    intros y ->%list_elem_of_singleton. apply Hirr. }
  rewrite foldl_app. cbn [foldl]. set (b := foldl _ x l) in *. destruct IH as (i & Hi & Hmin & Hfirst).
  change (x :: l ++ [z]) with ((x :: l) ++ [z]). destruct (decide (lt (key z) (key b))) as [Hz|Hz].
  - exists (S (length l)). split_and!.
    + by apply list_lookup_middle.
    + intros y [Hy|Hy%list_elem_of_singleton]%elem_of_app; [|subst; apply Hirr].
      intros Hlt. apply (Hmin y Hy). by eapply Htr.
    + intros k y Hk Hy. rewrite lookup_app_l in Hy by (cbn; lia).
      eapply Hweak; [exact Hz|]. apply Hmin. by eapply list_elem_of_lookup_2.
  - exists i. split_and!.
    + by apply lookup_app_l_Some.
    + intros y [Hy|Hy%list_elem_of_singleton]%elem_of_app; [by apply Hmin|by subst].
    + intros k y Hk Hy. apply (Hfirst k y Hk). rewrite lookup_app_l in Hy; [done|].
      apply lookup_lt_Some in Hi. lia.
Qed.
End min_by.

(** The recommended size is that of a candidate whose cost (the bytes of the
    distinct chunks and the bookkeeping) is the least; among equals, the smaller
    target, and then the earlier candidate.  Only a report without candidates has
    none. *)
Theorem recommend_spec report :
  match recommend report with
  | None => candidates report = []
  | Some size => ∃ i c, candidates report !! i = Some c ∧ cr_target_size c = size ∧
      (∀ d, d ∈ candidates report → cost c < cost d ∨ cost c = cost d ∧ size ≤ cr_target_size d) ∧
      ∀ k d, (k < i)%nat → candidates report !! k = Some d →
        cost c < cost d ∨ cost c = cost d ∧ size < cr_target_size d
  end.
Proof.
  unfold recommend. pose proof (min_by_key_spec pair_lt (λ c, (cost c, cr_target_size c))
    ltac:(unfold pair_lt; lia) ltac:(unfold pair_lt; lia) ltac:(unfold pair_lt; lia) (candidates report)) as Hm.
  destruct (min_by_key _ _ _) as [c|]; cbn [fmap option_fmap option_map]; [|done].
  destruct Hm as (i & Hi & Hmin & Hfirst). exists i, c. split_and!; [done..| |].
  - intros d Hd. specialize (Hmin d Hd). unfold pair_lt in Hmin. cbn in Hmin. lia.
  - intros k d Hk Hd. exact (Hfirst k d Hk Hd).
Qed.

(** The projected number of snapshots is the number of the grid's cells that start
    below the horizon: every age in hours at which a tier's cell starts is counted
    once. *)
Theorem steady_state_counts_cells days :
  0 ≤ days → days * 24 ≤ u64_max →
  steady_state_snapshots days = len (filter (λ h, starts_cell h) (seqZ 0 (days * 24))).
Proof.
  intros Hd Hb. unfold steady_state_snapshots, u64_saturating_mul. rewrite Z.min_r by lia.
  rewrite <- (Z2Nat.id (days * 24)) by lia. apply steady_hours. lia.
Qed.

(** *** The tree *)

Lemma bench_walk_spec node parts out : bench_walk node parts = Ok out →
  ∀ q f, (q, f) ∈ out ↔ ∃ names, reachable node names f ∧ q = join_slash (parts ++ names).
Proof.
  revert parts out. induction node as [g| |entries IH| |] using Node_nested_ind; intros parts out; cbn [bench_walk]; try done.
  - destruct (forallb _ parts); [|done]. intros [= <-] q f. rewrite list_elem_of_singleton. split.
    + intros [= -> ->]. exists []. split; [constructor|by rewrite app_nil_r].
    + intros (names & Hr & ->). inversion Hr; subst. by rewrite app_nil_r.
  - enough (∀ acc, foldM (λ out entry, found ← entry.2 (parts ++ [entry.1]); Ok (out ++ found)) acc
        ((λ '(name, child), (name, bench_walk child)) <$> entries) = Ok out →
      ∀ q f, (q, f) ∈ out ↔ (q, f) ∈ acc ∨ ∃ name child names,
        (name, child) ∈ entries ∧ reachable child names f ∧ q = join_slash (parts ++ name :: names)) as Hall.
    { intros Hw q f. rewrite (Hall [] Hw). rewrite elem_of_nil. split.
      - intros [[]|(name & child & names & Hin & Hr & ->)]. exists (name :: names). split; [by econstructor|done].
      - intros (names & Hr & ->). right. inversion Hr; subst. by eauto 10. }
    induction IH as [|[name child] entries Hc _ IHe]; intros acc; cbn [fmap list_fmap foldM fst snd].
    + intros [= <-] q f. split; [by left|]. intros [?|(? & ? & ? & []%elem_of_nil & _)]; done.
    + intros (acc' & (found & Hf & [= <-])%bind_Ok & Hw)%bind_Ok q f. rewrite (IHe _ Hw), elem_of_app.
      cbn [snd] in Hc. rewrite (Hc _ _ Hf). split.
      * intros [[?|(names & Hr & ->)]|(n & c & names & Hin & Hr & ->)]; [by left|right..].
        -- exists name, child, names. split; [by left|]. by rewrite <- app_assoc.
        -- exists n, c, names. split; [by right|done].
      * intros [?|(n & c & names & [[= -> ->]|Hin]%elem_of_cons & Hr & ->)]; [by left; left|left; right|right].
        -- exists names. by rewrite <- app_assoc.
        -- by exists n, c, names.
  - intros [= <-] q f. rewrite elem_of_nil. split; [done|]. intros (names & Hr & _). inversion Hr.
Qed.

Section tree.
Context `{Blake3Pkg, FastCdcLaws}.

Definition meta_of (c : Chunk) : ChunkMeta := {| meta_id := Chunk_id c; meta_len := Chunk_len c |}.

(** The chunks of [chunk_bytes], without their bytes. *)
Lemma worker_clean d cfg : worker d cfg = Ok (meta_of <$> chunk_bytes d cfg).
Proof.
  unfold worker, chunk_reader. rewrite StreamCDC_clean. rewrite (clean_stream ChunkId_of) by done.
  fold (chunk_bytes d cfg). by induction (chunk_bytes d cfg) as [|c cs IH]; cbn; [|rewrite IH].
Qed.

Lemma finish_clean read_err n (chunkss : list (list ChunkMeta)) :
  finish read_err n (Ok <$> chunkss) =
    match read_err with
    | Some e => Err (Io e)
    | None => Ok {| fan_per_candidate := chunkss; bytes_read := n |}
    end.
Proof.
  unfold finish. assert (∀ acc, foldl join_worker (acc, None) (Ok <$> chunkss) = (acc ++ chunkss, None)) as ->.
  { induction chunkss as [|c cs IH]; intros acc; cbn; [by rewrite app_nil_r|]. by rewrite IH, <- app_assoc. }
  by destruct read_err.
Qed.

Lemma fan_out_clean source configs :
  fan_out_chunks source configs =
    match src_error source with
    | Some e => Err (Io e)
    | None => Ok {| fan_per_candidate := (λ cfg, meta_of <$> chunk_bytes (src_data source) cfg) <$> configs;
                    bytes_read := len (src_data source) mod 2 ^ 64 |}
    end.
Proof.
  destruct configs as [|cfg configs]; [done|]. unfold fan_out_chunks.
  assert (worker (src_data source) <$> cfg :: configs =
    Ok <$> ((λ cfg, meta_of <$> chunk_bytes (src_data source) cfg) <$> cfg :: configs)) as ->.
  { rewrite <- list_fmap_compose. apply list_fmap_ext. intros i c _. apply worker_clean. }
  apply finish_clean.
Qed.

(** What the benchmark holds of a file with the bytes [d] at [rel]. *)
Definition benched (configs : list ChunkerConfig) (rel d : bytes) : FileChunking := {|
  rel_path := rel; file_bytes := len d mod 2 ^ 64;
  per_candidate := (λ cfg, meta_of <$> chunk_bytes d cfg) <$> configs |}.

Lemma chunk_source_clean configs rel source :
  chunk_source configs rel source =
    match src_error source with Some _ => Err BenchIo | None => Ok (benched configs rel (src_data source)) end.
Proof. unfold chunk_source. rewrite fan_out_clean. by destruct (src_error source). Qed.

End tree.

(** ** Examples *)

Module Examples.
Import Reference FanOut.Examples.
Import WalkTheorems.Examples(data).

Lemma steady_state_counts_cells_witness :
  steady_state_snapshots 365 = 36 ∧ len (filter (λ h, starts_cell h) (seqZ 0 (365 * 24))) = 36.
Proof.
  split; [vm_compute; reflexivity|].
  rewrite <- (steady_state_counts_cells 365 ltac:(lia) ltac:(unfold u64_max; lia)). vm_compute. reflexivity.
Defined.

(** The daemon's grid aligns its cells with the epoch and not with the ages, so a
    tier may span one cell more: of snapshots taken every hour for a day, nine stay
    where the projection counts eight. *)
Definition hourly : list (Z * Z) := (λ i, (1700000000000 - 3600000 * i, i)) <$> seqZ 0 24.
Lemma grid_keeps_more_than_projected :
  steady_state_snapshots 1 = 8 ∧
  (λ p, length (keep p)) <$> plan 1700000000000 hourly default_grid = Some 9%nat.
Proof. vm_compute. split; reflexivity. Qed.

End Examples.
