(* ===== verification/PolicyBench.v ===== *)
(** * The compression policy benchmark ([busyncr-core/src/policy_bench.rs])

    The five simulated policies, each the real [choose_codec] over the distinct
    chunks of a tree, the per-class diagnostics, and the projections of backup times
    from measured rates.  What is measured with the wall clock is an argument. *)

From S2P Require Import Prelude External Text Chunking Compression Crypto Float FloatTheorems Backup WalkTheorems FanOut Bench.

Definition MIB : f64 := f64_of_Z (1024 * 1024).

(** ** Rates *)

(** [mbps], and [throughput_mbps]. *)
Definition mbps (bytes : Z) (wall : Duration) : f64 :=
  let secs := Duration_as_secs_f64 wall in
  if bool_decide (bytes = 0) || f64_leb secs f64_zero then f64_infinity
  else f64_div (f64_div (f64_of_Z bytes) MIB) secs.

Definition seconds_for (bytes : Z) (rate_mbps : f64) : f64 :=
  if decide (bytes = 0) then f64_zero
  else if negb (f64_is_finite rate_mbps) || f64_leb rate_mbps f64_zero then f64_zero
  else f64_div (f64_div (f64_of_Z bytes) MIB) rate_mbps.

Definition harmonic_rate (threads : Z) (rates : list f64) : f64 :=
  let sum := foldl f64_add (S754_zero true)
    ((λ r, f64_div f64_one r) <$> filter (λ r, f64_is_finite r && f64_gtb r f64_zero) rates) in
  if f64_leb sum f64_zero then f64_infinity
  else f64_mul (f64_div f64_one sum) (f64_of_Z (Z.max threads 1)).

(** ** Policies *)

Inductive PolicyKind := RawOnly | Zstd3Always | Zstd3 | ProbeZstd3 | Zstd3Escalate.

#[global] Instance PolicyKind_eq_dec : EqDecision PolicyKind.
Proof. solve_decision. Defined.

Module PolicyKind.
Definition ALL : list PolicyKind := [RawOnly; Zstd3Always; Zstd3; ProbeZstd3; Zstd3Escalate].

Definition name (k : PolicyKind) : bytes :=
  match k with
  | RawOnly => str "raw-only"
  | Zstd3Always => str "zstd3-always"
  | Zstd3 => str "zstd3"
  | ProbeZstd3 => str "probe+zstd3"
  | Zstd3Escalate => str "zstd3+escalate"
  end.

Definition from_name (n : bytes) : option PolicyKind := snd <$> list_find (λ k, name k = n) ALL.

(** [PolicyConfig { keep_threshold, ..default }]. *)
Definition with_keep_threshold (t : f64) : PolicyConfig := {|
  use_probe := use_probe PolicyConfig_default; escalate := escalate PolicyConfig_default;
  zstd_level := zstd_level PolicyConfig_default; escalate_level := escalate_level PolicyConfig_default;
  keep_threshold := t; probe_threshold := probe_threshold PolicyConfig_default;
  escalate_ratio := escalate_ratio PolicyConfig_default |}.

Definition with_switches (probe esc : bool) : PolicyConfig := {|
  use_probe := probe; escalate := esc;
  zstd_level := zstd_level PolicyConfig_default; escalate_level := escalate_level PolicyConfig_default;
  keep_threshold := keep_threshold PolicyConfig_default; probe_threshold := probe_threshold PolicyConfig_default;
  escalate_ratio := escalate_ratio PolicyConfig_default |}.

Definition config (k : PolicyKind) : PolicyConfig :=
  match k with
  | RawOnly => with_keep_threshold f64_zero
  | Zstd3Always => with_keep_threshold f64_infinity
  | Zstd3 => PolicyConfig_default
  | ProbeZstd3 => with_switches true (escalate PolicyConfig_default)
  | Zstd3Escalate => with_switches (use_probe PolicyConfig_default) true
  end.
End PolicyKind.

Record PolicyStoredStats := {
  chunk_count : Z;
  st_bytes_in : Z;
  st_bytes_out : Z;
  framed_bytes : Z;
  stored_bytes : Z;
  ratio : f64;
  raw_chunks : Z;
  zstd3_chunks : Z;
  escalated_chunks : Z;
  st_escalation_attempts : Z;
  wall : Duration;
}.

Definition compress_mbps (s : PolicyStoredStats) : f64 := mbps (st_bytes_in s) (wall s).

Section simulate.
Context `{ZstdPkg}.

(** [elapsed]: how long the loop took. *)
Definition simulate_policy (chunks : list bytes) (kind : PolicyKind) (phase : Phase) (elapsed : Duration) :
    PolicyStoredStats :=
  let cfg := PolicyKind.config kind in
  let counters := foldl (λ counters chunk, (choose_codec chunk phase cfg counters).2) PolicyCounters_default chunks in
  let count := Compression.total counters in
  let framed := u64_add (bytes_out counters) count in
  let stored := u64_add framed (u64_mul count BLOB_OVERHEAD) in {|
    chunk_count := count;
    st_bytes_in := bytes_in counters;
    st_bytes_out := bytes_out counters;
    framed_bytes := framed;
    stored_bytes := stored;
    ratio := if decide (stored = 0) then f64_one else f64_div (f64_of_Z (bytes_in counters)) (f64_of_Z stored);
    raw_chunks := raw counters;
    zstd3_chunks := zstd3 counters;
    escalated_chunks := escalated counters;
    st_escalation_attempts := escalation_attempts counters;
    wall := elapsed;
  |}.
End simulate.

(** ** Stage rates, and chunks with their bytes *)

Record StageRates := { read_mbps : f64; cdc_mbps : f64; blake3_mbps : f64; encrypt_mbps : f64 }.

(** The rates that the three in-memory measurements report after [elapsed]. *)
Definition measure_cdc_mbps (data : bytes) (elapsed : Duration) : f64 :=
  match data with [] => f64_infinity | _ => mbps (len data) elapsed end.
Definition measure_blake3_mbps (data : bytes) (elapsed : Duration) : f64 :=
  match data with [] => f64_infinity | _ => mbps (len data) elapsed end.
Definition measure_encrypt_mbps (elapsed : Duration) : f64 := mbps (1024 * 1024 * 16) elapsed.

Record FileChunkingFull := { full_rel_path : bytes; full_chunks : list Chunk }.

Section tree.
Context `{Blake3Pkg, FastCdcPkg}.

(** [io_time]: the time inside the reads of each file, by its path. *)
Definition chunk_tree_with_bytes (root : option Node) (config : ChunkerConfig) (io_time : bytes → Duration) :
    result BenchError (list FileChunkingFull * Duration) :=
  match root with
  | Some (NodeDir entries) =>
      files ← bench_walk (NodeDir entries) [];
      foldM (λ acc file,
          let '(out, io) := acc in
          let '(rel, f) := file in
          source ← ok_or BenchIo (sf_content f);
          chunks ← mapM (map_err (λ e, match e with Io _ => BenchIo | other => BenchChunking rel other end))
            (ChunkStream_items (chunk_reader source config));
          Ok (out ++ [{| full_rel_path := rel; full_chunks := chunks |}], io + io_time rel))
        ([], 0) (merge_sort name_le files)
  | _ => Err NotADirectory
  end.
End tree.

(** ** File classes *)

Inductive FileClass := DbSqlite | OfficeZip | Pdf | Image | TextCode | OtherClass.

#[global] Instance FileClass_eq_dec : EqDecision FileClass.
Proof. solve_decision. Defined.

(** [str::rsplit_once] on an ASCII character. *)
Definition rsplit_once (c : byte) (s : bytes) : option (bytes * bytes) :=
  '(i, _) ← list_find (λ b, b = c) (reverse s);
  Some (reverse (drop (S i) (reverse s)), reverse (take i (reverse s))).

Definition ascii_lowercase (b : byte) : byte :=
  if decide (65 ≤ byte_to_Z b ≤ 90) then byte_of_Z (byte_to_Z b + 32) else b.

Module FileClass.
Definition ALL : list FileClass := [DbSqlite; OfficeZip; Pdf; Image; TextCode; OtherClass].

Definition label (c : FileClass) : bytes :=
  match c with
  | DbSqlite => str "db/sqlite"
  | OfficeZip => str "office-zip"
  | Pdf => str "pdf"
  | Image => str "image"
  | TextCode => str "text/code"
  | OtherClass => str "other"
  end.

(** The arms of the match on the extension. *)
Definition extensions : list (FileClass * list bytes) := [
  (DbSqlite, [str "db"; str "sqlite"; str "sqlite3"]);
  (OfficeZip, [str "docx"; str "xlsx"; str "pptx"; str "odt"; str "ods"; str "zip"; str "jar"]);
  (Pdf, [str "pdf"]);
  (Image, [str "jpg"; str "jpeg"; str "png"; str "gif"; str "webp"; str "bmp"; str "tiff"]);
  (TextCode, [str "txt"; str "md"; str "rs"; str "py"; str "js"; str "ts"; str "c"; str "h"; str "cpp"; str "hpp";
    str "json"; str "toml"; str "yaml"; str "yml"; str "csv"; str "log"; str "xml"; str "html"; str "css"; str "go";
    str "java"; str "sql"])].

Definition classify (rel_path : bytes) : FileClass :=
  let file_name := default rel_path (last (split_slash rel_path)) in
  match rsplit_once x2e file_name with
  | None | Some (_, []) => OtherClass
  | Some (_, ext) =>
      match list_find (λ arm, (ascii_lowercase <$> ext) ∈ arm.2) extensions with
      | Some (_, (c, _)) => c
      | None => OtherClass
      end
  end.
End FileClass.

Record FileClassRow := {
  row_class : bytes;
  row_bytes_in : Z;
  row_bytes_out : Z;
  share_of_savings_percent : f64;
}.

Section diagnostics.
Context `{ZstdPkg}.

(** The totals of a class: [None] until it has a chunk. *)
Abbreviation PerClass := (FileClass → option (Z * Z)).

(** The loop body: [entry(class).or_default()], and the additions to it. *)
Definition add_class (cfg : PolicyConfig) (per_class : PerClass) (chunk : FileClass * bytes) : PerClass :=
  let '(class, data) := chunk in
  let '((_, payload), _) := choose_codec data InitialFull cfg PolicyCounters_default in
  let '(i, o) := default (0, 0) (per_class class) in
  λ c, if decide (c = class) then Some (u64_add i (len data), u64_add o (len payload)) else per_class c.

(** [i64] subtraction of two counts. *)
Definition saved (io : Z * Z) : Z := to_i64 (to_i64 io.1 - to_i64 io.2).

Definition file_class_diagnostics (chunks : list (FileClass * bytes)) (policy : PolicyKind) : list FileClassRow :=
  let cfg := PolicyKind.config policy in
  let per_class := foldl (add_class cfg) (λ _, None) chunks in
  let total_saved := foldl (λ t io, to_i64 (t + saved io)) 0 (omap per_class FileClass.ALL) in
  omap (λ class,
    '(i, o) ← per_class class;
    Some {| row_class := FileClass.label class; row_bytes_in := i; row_bytes_out := o;
            share_of_savings_percent :=
              if decide (0 < total_saved)
              then f64_mul (f64_div (f64_of_Z (saved (i, o))) (f64_of_Z total_saved)) (f64_of_Z 100)
              else f64_zero |}) FileClass.ALL.
End diagnostics.

(** ** Projections *)

Record BandwidthPoint := { net_mbit : f64; seconds : f64 }.

Definition bandwidth_projection (cpu_bound_seconds : f64) (stored_bytes : Z) (net_mbps : list f64) :
    list BandwidthPoint :=
  (λ net_mbit,
    let net_mbps_bytes := f64_max (f64_div net_mbit (f64_of_Z 8)) f64_MIN_POSITIVE in
    let transfer_seconds := f64_div (f64_div (f64_of_Z stored_bytes) MIB) net_mbps_bytes in
    {| net_mbit := net_mbit; seconds := f64_max cpu_bound_seconds transfer_seconds |}) <$> net_mbps.

Record SpeedProjection := { cpu_bound_seconds : f64; at_bandwidth : list BandwidthPoint }.

Inductive ChurnSource := Measured | Assumed (percent : f64).

Record IncrementalProjection := {
  churn_source : ChurnSource;
  inc_delta : PolicyStoredStats;
  scan_seconds : f64;
  inc_cpu_bound_seconds : f64;
  inc_at_bandwidth : list BandwidthPoint;
}.

Record PolicyRow := {
  row_policy : bytes;
  row_stored : PolicyStoredStats;
  initial_backup : SpeedProjection;
  incremental : option IncrementalProjection;
  projected_steady_state_bytes : Z;
}.

Record BuildInputs := {
  unique_chunk_data : list bytes;
  delta_chunks : option (list bytes);
  assume_churn_percent : option f64;
  in_total_bytes : Z;
  stage_rates : StageRates;
  threads : Z;
  net_mbps : list f64;
  bookkeeping_bytes : Z;
}.

Record CompressionReport := {
  policies : list PolicyRow;
  report_stage_rates : StageRates;
  report_threads : Z;
  report_net_mbps : list f64;
}.

(** [None] when [Duration::from_secs_f64] panics. *)
Definition scale_stats (stats : PolicyStoredStats) (scale : f64) : option PolicyStoredStats :=
  let scale_u64 v := f64_to_u64 (f64_round (f64_mul (f64_of_Z v) scale)) in
  scaled_wall ← Duration_from_secs_f64 (f64_mul (Duration_as_secs_f64 (wall stats)) scale);
  Some {|
    chunk_count := scale_u64 (chunk_count stats);
    st_bytes_in := scale_u64 (st_bytes_in stats);
    st_bytes_out := scale_u64 (st_bytes_out stats);
    framed_bytes := scale_u64 (framed_bytes stats);
    stored_bytes := scale_u64 (stored_bytes stats);
    ratio := ratio stats;
    raw_chunks := scale_u64 (raw_chunks stats);
    zstd3_chunks := scale_u64 (zstd3_chunks stats);
    escalated_chunks := scale_u64 (escalated_chunks stats);
    st_escalation_attempts := scale_u64 (st_escalation_attempts stats);
    wall := scaled_wall;
  |}.

(** The rate of the four stages, no faster than the disk. *)
Definition pipeline_rate (inputs : BuildInputs) (stats : PolicyStoredStats) : f64 :=
  let rates := stage_rates inputs in
  f64_min (read_mbps rates)
    (harmonic_rate (threads inputs) [cdc_mbps rates; blake3_mbps rates; compress_mbps stats; encrypt_mbps rates]).

Section build.
Context `{ZstdPkg}.
(** How long [simulate_policy] takes on given chunks. *)
Context (timer : PolicyKind → Phase → list bytes → Duration).

Definition simulate (chunks : list bytes) (kind : PolicyKind) (phase : Phase) : PolicyStoredStats :=
  simulate_policy chunks kind phase (timer kind phase chunks).

(** The whole result is [None] on a panic, the inner one is the function's. *)
Definition build_incremental (kind : PolicyKind) (inputs : BuildInputs) : option (option IncrementalProjection) :=
  let scan := seconds_for (in_total_bytes inputs) (read_mbps (stage_rates inputs)) in
  let project (delta : PolicyStoredStats) (source : ChurnSource) :=
    let cpu := f64_add scan (seconds_for (st_bytes_in delta) (pipeline_rate inputs delta)) in
    Some {| churn_source := source; inc_delta := delta; scan_seconds := scan; inc_cpu_bound_seconds := cpu;
            inc_at_bandwidth := bandwidth_projection cpu (stored_bytes delta) (net_mbps inputs) |} in
  match delta_chunks inputs with
  | Some chunks => Some (project (simulate chunks kind Incremental) Measured)
  | None =>
      match assume_churn_percent inputs with
      | None => Some None
      | Some percent =>
          let whole := simulate (unique_chunk_data inputs) kind Incremental in
          let scale := f64_clamp (f64_div percent (f64_of_Z 100)) f64_zero f64_one in
          delta ← scale_stats whole scale;
          Some (project delta (Assumed percent))
      end
  end.

Definition build_policy_row (kind : PolicyKind) (inputs : BuildInputs) : option PolicyRow :=
  let stored := simulate (unique_chunk_data inputs) kind InitialFull in
  let initial_cpu_bound := seconds_for (st_bytes_in stored) (pipeline_rate inputs stored) in
  inc ← build_incremental kind inputs;
  Some {|
    row_policy := PolicyKind.name kind;
    row_stored := stored;
    initial_backup := {|
      cpu_bound_seconds := initial_cpu_bound;
      at_bandwidth := bandwidth_projection initial_cpu_bound (stored_bytes stored) (net_mbps inputs) |};
    incremental := inc;
    projected_steady_state_bytes := u64_add (stored_bytes stored) (bookkeeping_bytes inputs);
  |}.

Definition build_compression_report (inputs : BuildInputs) : option CompressionReport :=
  rows ← mapM (λ kind, build_policy_row kind inputs) PolicyKind.ALL;
  Some {| policies := rows; report_stage_rates := stage_rates inputs; report_threads := threads inputs;
          report_net_mbps := net_mbps inputs |}.
End build.

(** [min_by] on the projected sizes. *)
Definition recommend_policy (rows : list PolicyRow) : option bytes :=
  '(_, zstd3) ← list_find (λ r, row_policy r = PolicyKind.name Zstd3) rows;
  let bound := f64_mul (cpu_bound_seconds (initial_backup zstd3)) (f64_lit 3 2) in
  row_policy <$> min_by_key Z.lt projected_steady_state_bytes
    (filter (λ r, f64_leb (cpu_bound_seconds (initial_backup r)) bound) rows).

(** ** The simulation is a backup *)

Section simulation.
Context `{ZstdPkg, AeadLaws} {R : Type} `{!CryptoRng R}.
Implicit Types (chunk : bytes) (phase : Phase) (cfg : PolicyConfig) (c : PolicyCounters).

Definition payload_of phase cfg chunk : bytes := (outcome_stored chunk (outcome chunk phase cfg)).2.

Lemma u64_add_three (a b d a' b' d' : Z) :
  u64_add (u64_add (u64_add a a') (u64_add b b')) (u64_add d d') = u64_add (u64_add (u64_add a b) d) (a' + b' + d').
Proof.
  unfold u64_add. transitivity ((a + b + d + (a' + b' + d')) mod 2 ^ 64).
  - rewrite <- (Zplus_mod (a + a')), <- Zplus_mod. f_equal. lia.
  - rewrite (Zplus_mod_idemp_l (_ + d)), <- (Z.add_assoc (_ mod _)), Zplus_mod_idemp_l. f_equal. lia.
Qed.

Lemma choose_codec_totals chunk phase cfg c :
  let c' := (choose_codec chunk phase cfg c).2 in
  Compression.total c' = u64_add (Compression.total c) 1 ∧ bytes_in c' = u64_add (bytes_in c) (len chunk) ∧
  bytes_out c' = u64_add (bytes_out c) (len (payload_of phase cfg chunk)).
Proof.
  rewrite choose_codec_eq. unfold payload_of. destruct (outcome chunk phase cfg) as [|z3 a|z3 z9];
    cbn [snd outcome_counts outcome_stored]; unfold Compression.total, add_counts; cbn [raw zstd3 escalated bytes_in bytes_out];
    split_and!; try done; apply u64_add_three.
Qed.

Lemma choose_codec_initial chunk cfg c :
  let c' := (choose_codec chunk InitialFull cfg c).2 in
  escalated c' = u64_add (escalated c) 0 ∧ escalation_attempts c' = u64_add (escalation_attempts c) 0.
Proof.
  rewrite choose_codec_eq. unfold outcome. destruct (decide _); [done|]. destruct (use_probe cfg && _); [done|].
  destruct (compress_zstd _ _); [|done]. destruct (f64_gtb _ _); [done|].
  rewrite bool_decide_false, andb_false_r by done. done.
Qed.

Lemma simulate_totals chunks phase cfg c :
  let c' := foldl (λ c chunk, (choose_codec chunk phase cfg c).2) c chunks in
  Compression.total c' = foldl u64_add (Compression.total c) ((λ _, 1) <$> chunks) ∧
  bytes_in c' = foldl u64_add (bytes_in c) (len <$> chunks) ∧
  bytes_out c' = foldl u64_add (bytes_out c) ((λ x, len (payload_of phase cfg x)) <$> chunks).
Proof.
  cbn zeta. revert c; induction chunks as [|x chunks IH]; intros c; [done|]. cbn [foldl fmap list_fmap].
  destruct (choose_codec_totals x phase cfg c) as (Ht & Hi & Ho). rewrite <- Ht, <- Hi, <- Ho. apply IH.
Qed.

Lemma simulate_initial chunks cfg c : escalated c = 0 → escalation_attempts c = 0 →
  let c' := foldl (λ c chunk, (choose_codec chunk InitialFull cfg c).2) c chunks in
  escalated c' = 0 ∧ escalation_attempts c' = 0.
Proof.
  cbn zeta. revert c; induction chunks as [|x chunks IH]; intros c He Ha; [done|]. cbn [foldl].
  destruct (choose_codec_initial x cfg c) as [He' Ha']. rewrite He in He'. rewrite Ha in Ha'. by apply IH.
Qed.

Lemma sum_Z_plus {A} (f g : A → Z) l : sum_Z ((λ x, f x + g x) <$> l) = sum_Z (f <$> l) + sum_Z (g <$> l).
Proof. unfold sum_Z. induction l as [|x l IH]; cbn; [done|]. cbn in IH. lia. Qed.

Lemma sum_Z_const {A} (n : Z) (l : list A) : sum_Z ((λ _, n) <$> l) = n * len l.
Proof.
  unfold sum_Z, len. induction l as [|x l IH]; cbn [fmap list_fmap foldr length]; [lia|].
  cbn [fmap] in IH. rewrite IH. lia.
Qed.

(** The blob that a backup under a policy uploads for a chunk. *)
Definition uploaded (key : DataKey) phase cfg chunk (blob : bytes) : Prop :=
  ∃ id (rng rng' : R) c, let '((codec, payload), _) := choose_codec chunk phase cfg c in
    encrypt_chunk key id (frame codec payload) rng = (Ok blob, rng').

Lemma uploaded_len key phase cfg chunk blob :
  uploaded key phase cfg chunk blob → len blob = len (payload_of phase cfg chunk) + (1 + BLOB_OVERHEAD).
Proof.
  intros (id & rng & rng' & c & Hb). rewrite choose_codec_eq in Hb. unfold payload_of.
  destruct (outcome_stored chunk (outcome chunk phase cfg)) as [codec payload]. cbn [snd].
  apply seal_Ok in Hb as [Hs _]. apply sealed_length in Hs. rewrite Hs. unfold frame. len_lia.
Qed.

(** C33. The simulation of a policy reports what a backup under that policy stores: as
    many chunks and source bytes as the distinct chunks have and, in the stored
    bytes, the lengths of exactly the blobs that the backup would upload for them,
    whatever the key, the identities and the random source.  Before there is a
    history, no policy escalates. *)
Theorem simulate_policy_is_backup chunks kind phase elapsed key (blobs : list bytes) :
  Forall2 (uploaded key phase (PolicyKind.config kind)) chunks blobs →
  let s := simulate_policy chunks kind phase elapsed in
  chunk_count s = len chunks mod 2 ^ 64 ∧
  st_bytes_in s = sum_Z (len <$> chunks) mod 2 ^ 64 ∧
  stored_bytes s = sum_Z (len <$> blobs) mod 2 ^ 64 ∧
  chunk_count s = u64_add (u64_add (raw_chunks s) (zstd3_chunks s)) (escalated_chunks s) ∧
  (phase = InitialFull → escalated_chunks s = 0 ∧ st_escalation_attempts s = 0).
Proof.
  intros Hb. cbn zeta. unfold simulate_policy. cbn [chunk_count st_bytes_in stored_bytes raw_chunks zstd3_chunks
    escalated_chunks st_escalation_attempts]. set (cfg := PolicyKind.config kind) in *.
  destruct (simulate_totals chunks phase cfg PolicyCounters_default) as (-> & -> & ->).
  change (Compression.total PolicyCounters_default) with 0. change (bytes_in PolicyCounters_default) with 0.
  change (bytes_out PolicyCounters_default) with 0. fold (u64_sum ((λ _, 1) <$> chunks)).
  fold (u64_sum (len <$> chunks)) (u64_sum ((λ x, len (payload_of phase cfg x)) <$> chunks)).
  rewrite !u64_sum_eq, sum_Z_const, Z.mul_1_l.
  assert (sum_Z (len <$> blobs) = sum_Z ((λ x, len (payload_of phase cfg x)) <$> chunks) + (1 + BLOB_OVERHEAD) * len chunks) as ->.
  { rewrite <- sum_Z_const, <- sum_Z_plus. f_equal. induction Hb as [|x b xs bs Hxb _ IH]; [done|].
    cbn [fmap list_fmap]. f_equal; [by apply (uploaded_len key)|exact IH]. }
  split_and!; [done..| | |].
  - unfold u64_add, u64_mul. rewrite Zmult_mod_idemp_l, <- (Zplus_mod (sum_Z _)), <- Zplus_mod. f_equal. lia.
  - destruct (simulate_totals chunks phase cfg PolicyCounters_default) as (Ht & _ & _).
    unfold Compression.total in Ht. rewrite Ht. unfold Compression.total.
    change (foldl u64_add _ ((λ _, 1) <$> chunks)) with (u64_sum ((λ _, 1) <$> chunks)).
    by rewrite u64_sum_eq, sum_Z_const, Z.mul_1_l.
  - intros ->. by apply simulate_initial.
Qed.
End simulation.

(** ** Names, diagnostics, recommendation *)

(** A policy is found under its own name and under no other. *)
Theorem policy_names_round_trip n k : PolicyKind.from_name n = Some k ↔ n = PolicyKind.name k.
Proof.
  unfold PolicyKind.from_name. split.
  - destruct (list_find _ _) as [[i k']|] eqn:E; [|done]. intros [= <-].
    by apply list_find_Some in E as (_ & ? & _).
  - intros ->. by destruct k.
Qed.

Section class_rows.
Context `{ZstdPkg}.
Context (cfg : PolicyConfig).

(** The chunks of a class, in order. *)
Definition of_class (c : FileClass) (chunks : list (FileClass * bytes)) : list bytes :=
  (filter (λ x, x.1 = c) chunks).*2.

Definition class_totals (ds : list bytes) : Z * Z :=
  (u64_sum (len <$> ds), u64_sum ((λ d, len (payload_of InitialFull cfg d)) <$> ds)).

Lemma add_class_eq (per_class : FileClass → option (Z * Z)) class data c :
  add_class cfg per_class (class, data) c =
    if decide (c = class)
    then let '(i, o) := default (0, 0) (per_class class) in
         Some (u64_add i (len data), u64_add o (len (payload_of InitialFull cfg data)))
    else per_class c.
Proof.
  unfold add_class. rewrite choose_codec_eq. unfold payload_of.
  destruct (outcome_stored data (outcome data InitialFull cfg)) as [codec payload].
  by destruct (default (0, 0) (per_class class)).
Qed.

Lemma per_class_spec chunks c :
  foldl (add_class cfg) (λ _, None) chunks c =
    if decide (c ∈ chunks.*1) then Some (class_totals (of_class c chunks)) else None.
Proof.
  induction chunks as [|[class data] chunks IH] using rev_ind; [done|].
  rewrite foldl_app. cbn [foldl]. rewrite add_class_eq. unfold of_class. rewrite filter_app, !fmap_app.
  destruct (decide (c = class)) as [->|Hne].
  - rewrite filter_cons_True by done. rewrite (decide_True (P := class ∈ _)) by (rewrite elem_of_app; right; by left).
    unfold class_totals, u64_sum. cbn [fmap list_fmap snd]. rewrite !fmap_app, !foldl_app. cbn [fmap list_fmap foldl].
    rewrite IH. destruct (decide (class ∈ chunks.*1)) as [Hin|Hn]; [done|].
    assert (filter (λ x, x.1 = class) chunks = []) as ->; [|done].
    apply filter_none, Forall_forall. intros x Hx Hc. apply Hn. rewrite <- Hc. by apply list_elem_of_fmap_2.
  - rewrite filter_cons_False by done. rewrite filter_nil, app_nil_r. rewrite IH.
    apply decide_ext. rewrite elem_of_app. cbn. rewrite list_elem_of_singleton. naive_solver.
Qed.
End class_rows.

(** The diagnostics have one row for each class that occurs, in the order of the
    table: the source bytes of the class's chunks, and the bytes that the policy
    stores for them in a first backup. *)
Theorem file_class_diagnostics_spec `{ZstdPkg} (chunks : list (FileClass * bytes)) (policy : PolicyKind) :
  (λ r, (row_class r, row_bytes_in r, row_bytes_out r)) <$> file_class_diagnostics chunks policy =
  (λ c, let ds := of_class c chunks in
    (FileClass.label c, sum_Z (len <$> ds) mod 2 ^ 64,
     sum_Z ((λ d, len (payload_of InitialFull (PolicyKind.config policy) d)) <$> ds) mod 2 ^ 64)) <$>
    filter (λ c, c ∈ chunks.*1) FileClass.ALL.
Proof.
  unfold file_class_diagnostics. set (cfg := PolicyKind.config policy).
  generalize (foldl (λ t io, to_i64 (t + saved io)) 0 (omap (foldl (add_class cfg) (λ _, None) chunks) FileClass.ALL)).
  intros saved_total. induction FileClass.ALL as [|c cs IH]; [done|]. cbn [omap list_omap].
  rewrite per_class_spec. destruct (decide (c ∈ chunks.*1)) as [Hc|Hc].
  - rewrite filter_cons_True by done. unfold class_totals at 1. cbn [mbind option_bind fmap list_fmap row_class row_bytes_in row_bytes_out].
    rewrite !u64_sum_eq. f_equal. exact IH.
  - rewrite filter_cons_False by done. cbn [mbind option_bind]. exact IH.
Qed.

(** The recommended policy is the first of the least projected store among those
    whose first backup takes at most one and a half times as long as the one of
    [zstd3]; there is none only when there is no row of [zstd3] or no row within
    that bound. *)
Theorem recommend_policy_spec rows :
  let zstd3 := list_find (λ r, row_policy r = PolicyKind.name Zstd3) rows in
  let fast z := filter (λ r, f64_leb (cpu_bound_seconds (initial_backup r))
                  (f64_mul (cpu_bound_seconds (initial_backup z)) (f64_lit 3 2))) rows in
  match recommend_policy rows with
  | None => zstd3 = None ∨ ∃ i z, zstd3 = Some (i, z) ∧ fast z = []
  | Some n => ∃ i z k r, zstd3 = Some (i, z) ∧ n = row_policy r ∧
      first_least Z.lt projected_steady_state_bytes (fast z) k r
  end.
Proof.
  cbn zeta. unfold recommend_policy.
  destruct (list_find _ rows) as [[i z]|] eqn:E; cbn [mbind option_bind]; [|by left].
  match goal with |- context [min_by_key _ _ ?l] =>
    pose proof (min_by_key_spec Z.lt projected_steady_state_bytes ltac:(lia) ltac:(lia) ltac:(lia) l) as Hm;
    destruct (min_by_key Z.lt projected_steady_state_bytes l) as [r|] end; cbn [fmap option_fmap option_map].
  - destruct Hm as (k & Hk). by exists i, z, k, r.
  - right. by exists i, z.
Qed.

(** ** The report *)

Section report.
Context `{ZstdPkg} (timer : PolicyKind → Phase → list bytes → Duration) (inputs : BuildInputs).
(** No simulation takes longer than [2^62] seconds. *)
Context (Htimer : ∀ kind phase chunks, 0 ≤ timer kind phase chunks < 2 ^ 62 * 1000000000).

Lemma mul_nan x : f64_mul x S754_nan = S754_nan.
Proof. by destruct x as [| | |[]]. Qed.

Lemma scale_stats_panics stats : scale_stats stats S754_nan = None.
Proof. unfold scale_stats. by rewrite (mul_nan (Duration_as_secs_f64 _)). Qed.

Lemma scale_stats_ok chunks kind phase x : x ≠ S754_nan →
  is_Some (scale_stats (simulate timer chunks kind phase) (f64_clamp (f64_div x (f64_of_Z 100)) f64_zero f64_one)).
Proof.
  intros Hx. unfold scale_stats, simulate, simulate_policy. cbn [wall].
  assert (f64_of_Z 100 = S754_finite false 7036874417766400 (-46)) as -> by (vm_compute; reflexivity).
  destruct (f64_div_rounded x 7036874417766400 (-46) Hx) as [s Hs]. apply clamp_unit in Hs.
  pose proof (as_secs_at_most 62 (timer kind phase chunks) ltac:(lia) (Htimer kind phase chunks)) as Hw.
  destruct (from_secs_at_most 63 _ ltac:(lia) (f64_mul_at_most (62 + 1) 0 _ _ ltac:(lia) Hw Hs)) as (d & -> & _).
  by eexists.
Qed.

Lemma build_incremental_spec kind :
  match build_incremental timer kind inputs with
  | None => delta_chunks inputs = None ∧ assume_churn_percent inputs = Some S754_nan
  | Some inc => (delta_chunks inputs = None → assume_churn_percent inputs ≠ Some S754_nan) ∧
      (inc = None ↔ delta_chunks inputs = None ∧ assume_churn_percent inputs = None) ∧
      ∀ i ds, inc = Some i → delta_chunks inputs = Some ds → inc_delta i = simulate timer ds kind Incremental ∧ churn_source i = Measured
  end.
Proof.
  unfold build_incremental. destruct (delta_chunks inputs) as [ds|].
  { split; [done|]. split; [split; [done|by intros [? _]]|]. intros i ds' [= <-] [= <-]. done. }
  destruct (assume_churn_percent inputs) as [x|]; [|by split; [|split; [split|]]].
  destruct (decide (x = S754_nan)) as [->|Hx].
  - change (f64_clamp (f64_div S754_nan _) f64_zero f64_one) with S754_nan. by rewrite scale_stats_panics.
  - destruct (scale_stats_ok (unique_chunk_data inputs) kind Incremental x Hx) as [d ->]. cbn [mbind option_bind].
    split; [by intros _ [= ?]|]. split; [split; [done|by intros [_ ?]]|done].
Qed.

(** The report has the five policies in the order of the table, each one's first
    backup being the simulation over all distinct chunks and its projected store
    that and the bookkeeping; the incremental projection is there exactly when a
    baseline was measured or a churn assumed, and simulates the new chunks.  The one
    input on which it panics is an assumed churn that is not a number. *)
Theorem build_compression_report_spec :
  match build_compression_report timer inputs with
  | None => delta_chunks inputs = None ∧ assume_churn_percent inputs = Some S754_nan
  | Some report =>
      (delta_chunks inputs = None → assume_churn_percent inputs ≠ Some S754_nan) ∧
      Forall2 (λ kind row,
        row_policy row = PolicyKind.name kind ∧
        row_stored row = simulate timer (unique_chunk_data inputs) kind InitialFull ∧
        projected_steady_state_bytes row = u64_add (stored_bytes (row_stored row)) (bookkeeping_bytes inputs) ∧
        (incremental row = None ↔ delta_chunks inputs = None ∧ assume_churn_percent inputs = None) ∧
        ∀ i ds, incremental row = Some i → delta_chunks inputs = Some ds →
          inc_delta i = simulate timer ds kind Incremental ∧ churn_source i = Measured)
      PolicyKind.ALL (policies report)
  end.
Proof.
  unfold build_compression_report. destruct (mapM _ PolicyKind.ALL) as [rows|] eqn:E; cbn [mbind option_bind policies].
  - apply mapM_Some in E. split.
    + destruct rows as [|row rows]; inversion E as [|? ? ? ? Hr _]; subst. unfold build_policy_row in Hr.
      pose proof (build_incremental_spec RawOnly) as Hi. destruct (build_incremental timer RawOnly inputs); [apply Hi|done].
    + eapply Forall2_impl; [exact E|]. intros kind row Hr. unfold build_policy_row in Hr.
      pose proof (build_incremental_spec kind) as Hi. destruct (build_incremental timer kind inputs) as [inc|]; [|done].
      cbn [mbind option_bind] in Hr. injection Hr as <-. cbn [row_policy row_stored projected_steady_state_bytes incremental].
      split_and!; [done..|apply Hi|apply Hi].
  - apply mapM_None, Exists_exists in E as (kind & _ & Hr). unfold build_policy_row in Hr.
    pose proof (build_incremental_spec kind) as Hi. by destruct (build_incremental timer kind inputs).
Qed.
End report.

(** ** Examples *)

Module Examples.
Import Reference.

Definition key : DataKey := vreplicate 32 x41.
Definition chunks : list bytes := [str "aaaaaaaaaaaaaaaa"; str "b"].

(** The blob that a backup makes of a chunk. *)
Definition blob_of (phase : Phase) (kind : PolicyKind) (chunk : bytes) : bytes :=
  let '((codec, payload), _) := choose_codec chunk phase (PolicyKind.config kind) PolicyCounters_default in
  default [] (result_ok (encrypt_chunk key (vreplicate 32 x01) (frame codec payload) 7).1).

Lemma simulate_policy_is_backup_witness :
  let s := simulate_policy chunks Zstd3 InitialFull 5 in
  chunk_count s = 2 ∧ st_bytes_in s = 17 ∧
  stored_bytes s = sum_Z (len <$> (blob_of InitialFull Zstd3 <$> chunks)) mod 2 ^ 64 ∧ escalated_chunks s = 0.
Proof.
  assert (Forall2 (uploaded key InitialFull (PolicyKind.config Zstd3)) chunks (blob_of InitialFull Zstd3 <$> chunks)) as Hb.
  { repeat constructor; eexists (vreplicate 32 x01 : ChunkId), 7, 8, PolicyCounters_default; vm_compute; reflexivity. }
  destruct (simulate_policy_is_backup chunks Zstd3 InitialFull 5 key _ Hb) as (Hc & Hi & Hs & _ & He).
  exact (conj Hc (conj Hi (conj Hs (proj1 (He eq_refl))))).
Defined.

Definition inputs (churn : option f64) : BuildInputs := {|
  unique_chunk_data := chunks; delta_chunks := None; assume_churn_percent := churn; in_total_bytes := 17;
  stage_rates := {| read_mbps := f64_of_Z 100; cdc_mbps := f64_of_Z 800; blake3_mbps := f64_of_Z 900; encrypt_mbps := f64_of_Z 500 |};
  threads := 4; net_mbps := [f64_of_Z 10; f64_of_Z 1000]; bookkeeping_bytes := 500 |}.
Definition timer : PolicyKind → Phase → list bytes → Duration := λ _ _ _, 1000000.

Lemma build_compression_report_spec_witness : ∃ report,
  build_compression_report timer (inputs (Some (f64_of_Z 5))) = Some report ∧
  Forall2 (λ kind row, row_policy row = PolicyKind.name kind ∧
    row_stored row = simulate timer chunks kind InitialFull) PolicyKind.ALL (policies report).
Proof.
  pose proof (build_compression_report_spec timer (inputs (Some (f64_of_Z 5))) ltac:(intros; unfold timer; lia)) as Hr.
  destruct (build_compression_report timer (inputs (Some (f64_of_Z 5)))) as [report|].
  - exists report. split; [reflexivity|]. destruct Hr as [_ Hf].
    eapply Forall2_impl; [exact Hf|]. intros kind row (Hn & Hs & _). exact (conj Hn Hs).
  - destruct Hr as [_ Hn]. exfalso. vm_compute in Hn. discriminate Hn.
Defined.

(** [--assume-churn nan] *)
Lemma nan_churn_panics : build_compression_report timer (inputs (Some S754_nan)) = None.
Proof. compute_eq. Qed.

Example classes :
  FileClass.classify <$> [str "a/b.JPG"; str "x.tar.zip"; str "Makefile"; str "dir.rs/noext"; str "end."; str "m.rs"] =
  [Image; OfficeZip; OtherClass; OtherClass; OtherClass; TextCode].
Proof. vm_compute. reflexivity. Qed.
End Examples.
