(* ===== verification/BenchCmd.v ===== *)
(** * The bench command ([busyncr-client/src/bench_cmd.rs])

    What [bench-chunking] measures and recommends, up to the printing: the candidate
    sizes, the one pass over the tree that serves both reports when policies are
    simulated ([Bench], [PolicyBench]), and the inputs of the simulation. *)

From S2P Require Import Prelude External Text Base64 Number ClientConfig Chunking Manifest Compression Crypto Float.
From S2P Require Import FloatTheorems Backup WalkTheorems FanOut Bench PolicyBench.

(** ** Sizes *)

Definition size_label (n : Z) : bytes :=
  let mib := 1024 * 1024 in
  let kib := 1024 in
  if decide (mib ≤ n ∧ n mod mib = 0) then decimal (n / mib) ++ str "M"
  else if decide (kib ≤ n ∧ n mod kib = 0) then decimal (n / kib) ++ str "K"
  else decimal n ++ str "B".

(** [anyhow] errors, the texts left out. *)
Inductive BenchCmdError :=
  | BadSize (reason : string)
  | UnusableSize (raw : bytes) (e : ChunkingError)
  | NoCandidates
  | NotOneCandidate (got : Z)
  | MeasureFailed (e : BenchError)
  | BaselineFailed (e : BenchError)
  | ReportFailed (e : BenchError)
  | Panicked.

Section candidates.
Context `{FastCdcPkg}.

(** The loop body over the sizes: the targets seen, and the configurations. *)
Definition add_candidate (acc : list Z * list ChunkerConfig) (raw : bytes) :
    result BenchCmdError (list Z * list ChunkerConfig) :=
  let '(seen, configs) := acc in
  target ← map_err BadSize (bench_parse_size raw);
  if decide (target ∈ seen) then Ok (seen, configs)
  else
    config ← map_err (UnusableSize raw) (ChunkerConfig_with_target target);
    Ok (seen ++ [target], configs ++ [config]).

Definition candidate_configs (sizes : list bytes) : result BenchCmdError (list ChunkerConfig) :=
  '(_, configs) ← foldM add_candidate ([], []) sizes;
  match configs with [] => Err NoCandidates | _ => Ok configs end.
End candidates.

(** ** One run *)

(** The arguments that decide the result; [--json] chooses how it is printed. *)
Record BenchArgs := {
  arg_path : bytes;
  arg_sizes : list bytes;
  arg_baseline : option bytes;
  arg_snapshots : option Z;
  arg_compression : bool;
  arg_threads : option Z;
  arg_net_mbps : list f64;
  arg_assume_churn : option f64;
}.

(** What the clock and the machine answer. *)
Record Machine := {
  io_times : bytes → Duration;
  cdc_time : Duration;
  blake3_time : Duration;
  encrypt_time : Duration;
  simulation_time : PolicyKind → Phase → list bytes → Duration;
  available_parallelism : option Z;
}.

Definition file_chunking_meta (f : FileChunkingFull) : FileChunking :=
  let metas := (λ c, {| meta_id := Chunk_id c; meta_len := Chunk_len c |}) <$> full_chunks f in {|
    rel_path := full_rel_path f;
    file_bytes := u64_sum (meta_len <$> metas);
    per_candidate := [metas];
  |}.

Definition default_threads (m : Machine) : Z := default 1 ((λ n, n mod 2 ^ 32) <$> available_parallelism m).

(** The locals of [build_compression]'s loop: [unique] in the order of insertion. *)
Record Gathered := {
  g_unique : list (ChunkId * bytes);
  g_class_chunks : list (FileClass * bytes);
  g_total_bytes : Z;
  g_all_bytes : bytes;
}.

Definition gather_chunk (class : FileClass) (g : Gathered) (c : Chunk) : Gathered :=
  let fresh := bool_decide (Chunk_id c ∉ (g_unique g).*1) in {|
    g_unique := if fresh then g_unique g ++ [(Chunk_id c, Chunk_data c)] else g_unique g;
    g_class_chunks := if fresh then g_class_chunks g ++ [(class, Chunk_data c)] else g_class_chunks g;
    g_total_bytes := u64_add (g_total_bytes g) (Chunk_len c);
    g_all_bytes := g_all_bytes g ++ Chunk_data c;
  |}.

Definition gather_file (g : Gathered) (f : FileChunkingFull) : Gathered :=
  foldl (gather_chunk (FileClass.classify (full_rel_path f))) g (full_chunks f).

Definition gather (full : list FileChunkingFull) : Gathered :=
  foldl gather_file {| g_unique := []; g_class_chunks := []; g_total_bytes := 0; g_all_bytes := [] |} full.

Record CompressionOutput := {
  co_report : CompressionReport;
  co_recommended : option bytes;
  co_diagnostics : list FileClassRow;
}.

Record BenchOutput := {
  out_report : BenchReport;
  out_recommended : option Z;
  out_compression : option CompressionOutput;
}.

Section run.
Context `{Blake3Pkg, FastCdcPkg, ZstdPkg}.
(** The order in which a [HashMap] is walked. *)
Context (hash_order : list (ChunkId * bytes) → list (ChunkId * bytes)).

Definition baseline_ids (files : list FileChunking) : list ChunkId :=
  files ≫= λ f, meta_id <$> nth 0 (per_candidate f) [].

Definition delta_of (unique : list (ChunkId * bytes)) (files : list FileChunking) : list bytes :=
  snd <$> filter (λ c, c.1 ∉ baseline_ids files) unique.

Definition build_inputs (m : Machine) (cfg : ChunkerConfig) (args : BenchArgs) (g : Gathered) (io_time : Duration)
    (bookkeeping : Z) (baseline_files : option (list FileChunking)) : BuildInputs :=
  let unique := hash_order (g_unique g) in {|
    unique_chunk_data := unique.*2;
    delta_chunks := delta_of unique <$> baseline_files;
    assume_churn_percent := match baseline_files with Some _ => None | None => arg_assume_churn args end;
    in_total_bytes := g_total_bytes g;
    stage_rates := {|
      read_mbps := mbps (g_total_bytes g) io_time;
      cdc_mbps := measure_cdc_mbps (g_all_bytes g) (cdc_time m);
      blake3_mbps := measure_blake3_mbps (g_all_bytes g) (blake3_time m);
      encrypt_mbps := measure_encrypt_mbps (encrypt_time m) |};
    threads := default (default_threads m) (arg_threads args);
    net_mbps := arg_net_mbps args;
    bookkeeping_bytes := bookkeeping;
  |}.

(** [None] on a panic. *)
Definition build_compression (m : Machine) (cfg : ChunkerConfig) (args : BenchArgs) (full : list FileChunkingFull)
    (io_time : Duration) (bookkeeping : Z) (baseline_files : option (list FileChunking)) : option CompressionOutput :=
  let g := gather full in
  report ← build_compression_report (simulation_time m) (build_inputs m cfg args g io_time bookkeeping baseline_files);
  let recommended := recommend_policy (policies report) in
  let diagnostics := match recommended ≫= PolicyKind.from_name with
    | Some kind => file_class_diagnostics (g_class_chunks g) kind
    | None => []
    end in
  Some {| co_report := report; co_recommended := recommended; co_diagnostics := diagnostics |}.

(** The two ways to read the tree: the chunks' bytes are kept only for [--compression]. *)
Definition read_tree (m : Machine) (args : BenchArgs) (root : option Node) (configs : list ChunkerConfig) (cfg : ChunkerConfig) :
    result BenchCmdError (list FileChunking * option (list FileChunkingFull * Duration)) :=
  if arg_compression args then
    match chunk_tree_with_bytes root cfg (io_times m) with
    | Ok (full, io_time) => Ok (file_chunking_meta <$> full, Some (full, io_time))
    | Err e => Err (MeasureFailed e)
    end
  else
    match chunk_tree root configs with
    | Ok files => Ok (files, None)
    | Err e => Err (MeasureFailed e)
    end.

(** [run], up to the printing; [trees] is the file system. *)
Definition run_bench (m : Machine) (trees : bytes → option Node) (args : BenchArgs) : result BenchCmdError BenchOutput :=
  configs ← candidate_configs (arg_sizes args);
  let snapshots := default (steady_state_snapshots DEFAULT_PROJECTION_HORIZON_DAYS) (arg_snapshots args) in
  match configs with
  | [] => Err NoCandidates
  | cfg :: _ =>
      if arg_compression args && negb (bool_decide (length configs = 1%nat)) then Err (NotOneCandidate (len configs))
      else
        '(files, source) ← read_tree m args (trees (arg_path args)) configs cfg;
        baseline_files ← match arg_baseline args with
          | Some path => Some <$> map_err BaselineFailed (chunk_tree (trees path) configs)
          | None => Ok None
          end;
        let baseline := label ← arg_baseline args; files ← baseline_files; Some (label, files) in
        report ← map_err ReportFailed (build_report (arg_path args) files configs snapshots baseline);
        compression ← match source with
          | None => Ok None
          | Some (full, io_time) =>
              match candidates report with
              | [] => Err Panicked
              | first :: _ =>
                  Some <$> ok_or Panicked (build_compression m cfg args full io_time
                    (projected_bookkeeping_bytes first) baseline_files)
              end
          end;
        Ok {| out_report := report; out_recommended := recommend report; out_compression := compression |}
  end.
End run.

(** ** The candidates *)

Section candidate_theorems.
Context `{FastCdcLaws}.

(** The targets of the sizes so far. *)
Record collected (targets seen : list Z) (configs : list ChunkerConfig) : Prop := {
  col_seen : target_size <$> configs = seen;
  col_distinct : NoDup seen;
  col_order : seen `sublist_of` targets;
  col_all : ∀ t, t ∈ targets → t ∈ seen;
  col_wf : Forall ChunkerConfig_wf configs;
}.

Definition size_refused (raw : bytes) (e : BenchCmdError) : Prop :=
  (∃ reason, bench_parse_size raw = Err reason ∧ e = BadSize reason) ∨
  (∃ t ce, bench_parse_size raw = Ok t ∧ ChunkerConfig_with_target t = Err ce ∧ e = UnusableSize raw ce).

Lemma collected_again targets seen configs t : collected targets seen configs → t ∈ seen →
  collected (targets ++ [t]) seen configs.
Proof.
  intros Hc Hin. split; try apply Hc; [apply sublist_inserts_r, Hc|].
  intros t' [Ht'|Ht']%elem_of_app; [by apply (col_all _ _ _ Hc)|]. apply list_elem_of_singleton in Ht'. by subst.
Qed.

Lemma collected_new targets seen configs t cfg : collected targets seen configs → t ∉ seen →
  ChunkerConfig_with_target t = Ok cfg → collected (targets ++ [t]) (seen ++ [t]) (configs ++ [cfg]).
Proof.
  intros Hc Hnew (Hwf & Ht & _)%with_target_Ok. split.
  - rewrite fmap_app, (col_seen _ _ _ Hc). cbn. by rewrite Ht.
  - apply NoDup_app. split; [apply Hc|]. split; [|apply NoDup_singleton].
    intros x Hx Hx'. apply list_elem_of_singleton in Hx'. by subst.
  - apply sublist_app; [apply Hc|done].
  - intros t' [Ht'|Ht']%elem_of_app; apply elem_of_app; [left; by apply (col_all _ _ _ Hc)|by right].
  - apply Forall_app. split; [apply Hc|by apply Forall_singleton].
Qed.

Lemma add_candidates sizes targets seen configs : collected targets seen configs →
  match foldM add_candidate (seen, configs) sizes with
  | Ok (seen', configs') => ∃ more, mapM bench_parse_size sizes = Ok more ∧ collected (targets ++ more) seen' configs'
  | Err e => ∃ raw, raw ∈ sizes ∧ size_refused raw e
  end.
Proof.
  revert targets seen configs. induction sizes as [|raw sizes IH]; intros targets seen configs Hc; cbn [foldM].
  { exists []. by rewrite app_nil_r. }
  assert (Hgo : ∀ t seen' configs', bench_parse_size raw = Ok t → collected (targets ++ [t]) seen' configs' →
    match foldM add_candidate (seen', configs') sizes with
    | Ok (seen', configs') => ∃ more, mapM bench_parse_size (raw :: sizes) = Ok more ∧ collected (targets ++ more) seen' configs'
    | Err e => ∃ raw', raw' ∈ raw :: sizes ∧ size_refused raw' e
    end).
  { intros t seen' configs' Ht Hc'. specialize (IH _ _ _ Hc').
    destruct (foldM add_candidate (seen', configs') sizes) as [[seen2 configs2]|e].
    - destruct IH as (more & Hm & Hc2). exists (t :: more). rewrite <- app_assoc in Hc2. split; [|exact Hc2].
      cbn [mapM]. rewrite Ht. cbn [mbind result_bind]. by rewrite Hm.
    - destruct IH as (raw' & Hin & ?). exists raw'. split; [by right|done]. }
  unfold add_candidate at 2. destruct (bench_parse_size raw) as [t|reason] eqn:Et; cbn [map_err mbind result_bind].
  2: { exists raw. split; [by left|]. left. by exists reason. }
  destruct (decide (t ∈ seen)) as [Hin|Hnew]; cbn [mbind result_bind].
  - by apply (Hgo t), collected_again.
  - destruct (ChunkerConfig_with_target t) as [cfg|ce] eqn:Ecfg; cbn [map_err mbind result_bind].
    + by apply (Hgo t), collected_new.
    + exists raw. split; [by left|]. right. by exists t, ce.
Qed.

Lemma candidate_configs_Ok sizes configs : candidate_configs sizes = Ok configs → Forall ChunkerConfig_wf configs.
Proof.
  assert (collected [] [] []) as Hc by (split; try constructor; by intros t Ht%not_elem_of_nil).
  unfold candidate_configs. pose proof (add_candidates sizes _ _ _ Hc) as Hf.
  destruct (foldM add_candidate ([], []) sizes) as [[seen configs']|e]; cbn [mbind result_bind]; [|done].
  destruct Hf as (targets & _ & Hcol). destruct configs'; [done|]. intros [= <-]. apply Hcol.
Qed.

(** The candidates are well-formed chunker configurations, one for each target size
    that is asked for, in the order of their first mention and none twice; there is at
    least one.  Otherwise a size does not parse or is out of range, or none is given. *)
Theorem candidate_configs_well_formed sizes :
  match candidate_configs sizes with
  | Ok configs => ∃ targets, mapM bench_parse_size sizes = Ok targets ∧ configs ≠ [] ∧ Forall ChunkerConfig_wf configs ∧
      NoDup (target_size <$> configs) ∧ (target_size <$> configs) `sublist_of` targets ∧
      ∀ t, t ∈ targets → t ∈ target_size <$> configs
  | Err e => sizes = [] ∧ e = NoCandidates ∨ ∃ raw, raw ∈ sizes ∧ size_refused raw e
  end.
Proof.
  assert (collected [] [] []) as Hc by (split; try constructor; by intros t Ht%not_elem_of_nil).
  unfold candidate_configs. pose proof (add_candidates sizes _ _ _ Hc) as Hf.
  destruct (foldM add_candidate ([], []) sizes) as [[seen configs]|e] eqn:Ef; cbn [mbind result_bind]; [|by right].
  destruct Hf as (targets & Hm & [E1 E2 E3 E4 E5]). cbn [app] in *. rewrite <- E1 in E2, E3, E4. clear E1.
  destruct configs as [|cfg configs].
  - left. split; [|done]. cbn [fmap list_fmap] in *. destruct sizes as [|raw sizes]; [done|]. apply mapM_Ok in Hm. inversion Hm as [|? t ? ? Ht]; subst.
    exfalso. apply (not_elem_of_nil t), E4. by left.
  - exists targets. by split_and!.
Qed.
End candidate_theorems.

(** ** One pass serves both reports *)

Section one_pass.
Context `{Blake3Pkg, FastCdcLaws, ZstdPkg}.

Lemma chunk_lens d cfg : ChunkerConfig_wf cfg → u64_sum (Chunk_len <$> chunk_bytes d cfg) = len d mod 2 ^ 64.
Proof.
  intros Hwf. destruct (chunk_bytes_keyed_spec d cfg (vreplicate 32 x00) Hwf) as [Hd _].
  rewrite chunk_bytes_keyed_eq, <- list_fmap_compose in Hd.
  assert (mjoin (Chunk_data <$> chunk_bytes d cfg) = d) as Hj by exact Hd. clear Hd.
  rewrite <- Hj at 2. rewrite u64_sum_eq. f_equal. clear Hj.
  induction (chunk_bytes d cfg) as [|c cs IH]; [done|]. cbn. rewrite len_app. f_equal. exact IH.
Qed.

Lemma meta_of_full q d cfg : ChunkerConfig_wf cfg →
  file_chunking_meta {| full_rel_path := q; full_chunks := chunk_bytes d cfg |} = benched [cfg] q d.
Proof.
  intros Hwf. unfold file_chunking_meta, benched. cbn [full_rel_path full_chunks]. f_equal.
  rewrite <- list_fmap_compose. by apply chunk_lens.
Qed.

Lemma with_bytes_agrees root cfg io_times out : ChunkerConfig_wf cfg → chunk_tree root [cfg] = Ok out →
  ∃ full io, chunk_tree_with_bytes root cfg io_times = Ok (full, io) ∧ file_chunking_meta <$> full = out.
Proof.
  intros Hwf. unfold chunk_tree, chunk_tree_with_bytes. destruct root as [[|entries| |]|]; try done.
  destruct (bench_walk _ _) as [files|]; [|done]. cbn [mbind result_bind].
  generalize (merge_sort name_le files). intros l Hm%mapM_Ok.
  match goal with |- ∃ full io, foldM ?f _ _ = _ ∧ _ =>
    enough (∀ acc io, ∃ full io', foldM f (acc, io) l = Ok (acc ++ full, io') ∧ file_chunking_meta <$> full = out) as Hall
  end.
  { destruct (Hall [] 0) as (full & io & Hf & Hr). by exists full, io. }
  induction Hm as [|[q f] o l out Ho _ IH]; intros acc io; cbn [foldM].
  { exists [], io. by rewrite app_nil_r. }
  apply bind_Ok in Ho as (source & Hs & Ho). rewrite chunk_source_clean in Ho. rewrite Hs. cbn [mbind result_bind].
  destruct source as [d [err|]]; cbn [src_error src_data] in Ho; [done|]. injection Ho as <-.
  assert (ChunkStream_items (chunk_reader {| src_data := d; src_error := None |} cfg) = Ok <$> chunk_bytes d cfg) as ->.
  { unfold chunk_reader, chunk_bytes. rewrite StreamCDC_clean. by apply clean_stream. }
  assert (∀ (g : ChunkingError → BenchError) (cs : list Chunk), mapM (map_err g) (Ok <$> cs) = Ok cs) as ->.
  { intros g cs. induction cs as [|c cs IHc]; [done|]. cbn. by rewrite IHc. }
  cbn [mbind result_bind].
  destruct (IH (acc ++ [{| full_rel_path := q; full_chunks := chunk_bytes d cfg |}]) (io + io_times q)) as (full & io' & Hf & Hr).
  eexists (_ :: full), io'. rewrite Hf. split; [by rewrite <- app_assoc|]. rewrite fmap_cons, Hr. f_equal. by apply meta_of_full.
Qed.

(** *** The distinct chunks *)

Definition meta_of_entry (e : ChunkId * bytes) : ChunkMeta := {| meta_id := e.1; meta_len := len e.2 |}.

Lemma gather_chunks class cs g : let g' := foldl (gather_chunk class) g cs in
  meta_of_entry <$> g_unique g' =
    (meta_of_entry <$> g_unique g) ++ firsts (list_to_set (g_unique g).*1) (meta_of <$> cs).
Proof.
  cbn zeta. revert g. induction cs as [|c cs IH]; intros g; cbn [foldl fmap list_fmap firsts]; [by rewrite app_nil_r|].
  rewrite IH. unfold gather_chunk. cbn [g_unique]. cbn [meta_id meta_of].
  assert (Chunk_id c ∈ (list_to_set (g_unique g).*1 : gset ChunkId) ↔ Chunk_id c ∈ (g_unique g).*1) as Hs by apply elem_of_list_to_set.
  destruct (decide (Chunk_id c ∈ (g_unique g).*1)) as [Hin|Hnew].
  - rewrite bool_decide_false by tauto. rewrite decide_True by by apply Hs. done.
  - rewrite bool_decide_true by done. rewrite decide_False by by rewrite Hs.
    rewrite fmap_app, <- app_assoc. f_equal. change (meta_of_entry <$> [(Chunk_id c, Chunk_data c)]) with [meta_of c].
    cbn [app]. f_equal. f_equal. rewrite fmap_app, list_to_set_app_L, union_comm_L. f_equal.
    cbn. by rewrite union_empty_r_L.
Qed.

Lemma entries_ids (u : list (ChunkId * bytes)) : meta_id <$> (meta_of_entry <$> u) = u.*1.
Proof. by rewrite <- list_fmap_compose. Qed.

Lemma gather_files full g : meta_of_entry <$> g_unique (foldl gather_file g full) =
  (meta_of_entry <$> g_unique g) ++
    firsts (list_to_set (g_unique g).*1) (all_metas 0 (file_chunking_meta <$> full)).
Proof.
  revert g. induction full as [|f full IH]; intros g; cbn [foldl]; [by rewrite app_nil_r|].
  rewrite IH. unfold gather_file at 1. set (cs := full_chunks f).
  change (all_metas 0 (file_chunking_meta <$> f :: full)) with
    ((meta_of <$> cs) ++ all_metas 0 (file_chunking_meta <$> full)).
  rewrite firsts_app, app_assoc, <- (gather_chunks (FileClass.classify (full_rel_path f)) cs g). f_equal. f_equal.
  change (gather_file g f) with (foldl (gather_chunk (FileClass.classify (full_rel_path f))) g cs).
  rewrite <- entries_ids, gather_chunks, fmap_app, entries_ids, list_to_set_app_L.
  destruct (firsts_seen (list_to_set (g_unique g).*1) (meta_of <$> cs)) as (_ & _ & Heq).
  by rewrite !(comm_L (∪) (list_to_set (g_unique g).*1)), Heq.
Qed.

(** ** The two reports of one run *)

Definition with_compression (args : BenchArgs) : BenchArgs := {|
  arg_path := arg_path args; arg_sizes := arg_sizes args; arg_baseline := arg_baseline args;
  arg_snapshots := arg_snapshots args; arg_compression := true; arg_threads := arg_threads args;
  arg_net_mbps := arg_net_mbps args; arg_assume_churn := arg_assume_churn args |}.

Context (hash_order : list (ChunkId * bytes) → list (ChunkId * bytes)).
Context (hash_order_perm : ∀ l, hash_order l ≡ₚ l).

Lemma row_stored_simulates timer inputs report : build_compression_report timer inputs = Some report →
  Forall (λ row, ∃ kind, row_stored row = simulate timer (unique_chunk_data inputs) kind InitialFull) (policies report).
Proof.
  unfold build_compression_report. destruct (mapM _ _) as [rows|] eqn:E; [|done]. intros [= <-]. cbn [policies].
  apply mapM_Some in E. apply Forall_forall. intros row (kind & _ & Hr)%(Forall2_elem_r _ _ _ _ E).
  unfold build_policy_row in Hr. destruct (build_incremental timer kind inputs); [|done]. injection Hr as <-. by exists kind.
Qed.

(** What the policies are simulated on is what the size report counts as unique. *)
Lemma simulated_chunks full timer kind snapshots base cfg :
  let s := simulate timer (hash_order (g_unique (gather full))).*2 kind InitialFull in
  let row := candidate_report (file_chunking_meta <$> full) snapshots base 0 cfg in
  st_bytes_in s = unique_bytes row ∧ chunk_count s = unique_chunks row mod 2 ^ 64.
Proof.
  cbn zeta. set (u := g_unique (gather full)). set (metas := all_metas 0 (file_chunking_meta <$> full)).
  assert (meta_of_entry <$> u = firsts ∅ metas) as Hu by (unfold u, gather; by rewrite gather_files).
  destruct (measure_files 0 {| ms_lens := []; ms_unique := ∅; ms_unique_bytes := 0;
    ms_manifest_bytes := MANIFEST_HEADER_BYTES |} (file_chunking_meta <$> full)) as (_ & Hids & Hbytes).
  cbn [ms_unique ms_unique_bytes] in *. fold (measure 0 (file_chunking_meta <$> full)) metas in Hids, Hbytes.
  unfold simulate, simulate_policy, candidate_report. cbn [st_bytes_in chunk_count unique_bytes unique_chunks].
  destruct (simulate_totals (hash_order u).*2 InitialFull (PolicyKind.config kind) PolicyCounters_default) as (-> & -> & _).
  change (Compression.total PolicyCounters_default) with 0. change (bytes_in PolicyCounters_default) with 0.
  fold (u64_sum (len <$> (hash_order u).*2)) (u64_sum ((λ _, 1) <$> (hash_order u).*2)).
  rewrite Hbytes, Hids, <- Hu. fold (u64_sum (meta_len <$> (meta_of_entry <$> u))). rewrite !u64_sum_eq, sum_Z_const, Z.mul_1_l.
  destruct (firsts_seen ∅ metas) as (Hnd & _ & Heq). rewrite !union_empty_r_L in Heq. rewrite <- Hu in Hnd, Heq.
  split; f_equal.
  - rewrite <- !list_fmap_compose. by rewrite (hash_order_perm u).
  - rewrite union_empty_l_L, <- Heq, size_list_to_set by done. unfold len. by rewrite !length_fmap, (hash_order_perm u).
Qed.

Lemma build_report_one root files cfg snapshots base report : build_report root files [cfg] snapshots base = Ok report →
  candidates report = [candidate_report files snapshots (snd <$> base) 0 cfg].
Proof.
  unfold build_report. destruct (check_candidate_counts files _); [|done]. cbn [mbind result_bind].
  destruct (match base with Some _ => _ | None => _ end); [|done]. by intros [= <-].
Qed.

End one_pass.

(** ** Labels *)

(** A size that is printed with a unit is read back. *)
Lemma size_label_parses n : in_u64 n → 1024 ≤ n → n mod 1024 = 0 → bench_parse_size (size_label n) = Ok n.
Proof.
  intros Hn Hge Hmod. unfold size_label, bench_parse_size.
  assert (Hunits : Forall (λ u, is_text u.1 ∧ digit u.1 = None) size_units).
  { repeat constructor; apply (bool_decide_unpack _); vm_compute; done. }
  assert (Hnd : NoDup size_units.*1) by (apply (bool_decide_unpack _); vm_compute; done).
  assert (Hunit : ∀ u m, (u, m) ∈ size_units → 0 < m → n mod m = 0 →
    bench_parse_size (decimal (n / m) ++ [u]) = Ok n).
  { intros u m Hin Hm Hd. unfold bench_parse_size, in_u64 in *.
    assert (n = m * (n / m)) as E by (rewrite <- (Z.add_0_r (m * _)), <- Hd; apply Z.div_mod; lia).
    assert (0 ≤ n / m ≤ n) by (split; [apply Z.div_pos; lia|apply Z.div_le_upper_bound; nia]).
    match goal with |- parse_quantity ?a ?b ?c _ _ = _ =>
      destruct (parse_quantity_decimal a b c size_units (n / m)) as [_ Hq] end; [unfold in_u64; lia|done|done|].
    rewrite (Hq u m Hin). rewrite decide_True; [f_equal; lia|lia]. }
  unfold bench_parse_size in Hunit. repeat destruct (decide _); [..|tauto]; apply Hunit.
  all: try lia; try (apply (bool_decide_unpack _); vm_compute; done). all: destruct_and?; done.
Qed.

(** ** On concrete inputs *)

Module Examples.
Import Reference.
Import WalkTheorems.Examples(data).

Definition machine : Machine := {|
  io_times _ := 1000000; cdc_time := 1000000; blake3_time := 1000000; encrypt_time := 1000000;
  simulation_time _ _ _ := 1000000; available_parallelism := Some 4 |}.

Definition args : BenchArgs := {|
  arg_path := root_path data; arg_sizes := [str "1K"; str "1024"]; arg_baseline := None; arg_snapshots := Some 36;
  arg_compression := false; arg_threads := None; arg_net_mbps := [f64_of_Z 50]; arg_assume_churn := None |}.

Definition trees (path : bytes) : option Node := if decide (path = root_path data) then root_node data else None.

Lemma candidate_configs_well_formed_witness :
  candidate_configs [str "1K"; str "1024"; str "256"] = Ok [
    {| min_size := 256; target_size := 1024; max_size := 4096 |}; {| min_size := 64; target_size := 256; max_size := 1024 |}] ∧
  ∃ raw, raw ∈ [str "32M"] ∧ size_refused raw (UnusableSize (str "32M") (InvalidConfig (MinOutside 8388608))).
Proof.
  split; [vm_compute; reflexivity|].
  destruct (candidate_configs_well_formed [str "32M"]) as [[? _]|Hr]; [done|exact Hr].
Defined.

End Examples.
