(* ===== verification/BackupTheorems.v ===== *)
(** * What holds of the backup pipeline

    Over any server that keeps the laws of [Rpc]: a run that succeeds has stored
    a snapshot whose manifest describes every source file and whose chunks all
    open, decode and hash to the files' bytes; a run that fails has stored no
    snapshot. *)

From S2P Require Import Prelude External Text Chunking Manifest Compression Crypto StoreSpec Rpc Backup WalkTheorems.

(** ** What a run does to its session, step by step *)

Section session_steps.
Context `{UlidPkg, Blake3Pkg, FastCdcPkg, ZstdPkg, AeadPkg} {S : Type} `{!Busyncr S} {R : Type} `{!CryptoRng R}.
Abbreviation Session := (Backup.Session (S := S) (R := R)).

(** A preorder that every update of the session before the final tick is in. *)
Record session_moves (P : relation Session) : Prop := {
  mv_order : PreOrder P;
  mv_client c s : P s (set_client c s);
  mv_rng g s : P s (set_rng g s);
  mv_counters c s : P s (set_counters c s);
  mv_count d s : P s (set_report (add_report d (report s)) s);
  mv_tick totals s : P s (on_progress totals false s).2;
}.

Context (P : relation Session) (Hp : session_moves P).
#[local] Instance moves_order : PreOrder P := mv_order P Hp.

Lemma steps_call {A} (rpc : S → result Code A * S) : steps P (call rpc).
Proof. intros s. unfold call. destruct (rpc _). apply Hp. Qed.
Lemma steps_draw {A} (f : R → result CryptoError A * R) : steps P (draw f).
Proof. intros s. unfold draw. destruct (f _). apply Hp. Qed.
Lemma steps_count d : steps P (count d).
Proof. intros s. apply Hp. Qed.
Lemma steps_counters c : steps P (modify (set_counters c) : SE Session BackupError unit).
Proof. intros s. apply Hp. Qed.
Lemma steps_tick totals : steps P (on_progress totals false).
Proof. intros s. apply Hp. Qed.
#[local] Hint Resolve steps_call steps_draw steps_count steps_counters steps_tick : steps.

Lemma steps_flush req phase pending : steps P (flush req phase pending).
Proof. unfold flush, flush_one. steps. Qed.
#[local] Hint Resolve steps_flush : steps.

Lemma steps_backup_file req phase totals acc spec : steps P (backup_file req phase totals acc spec).
Proof. unfold backup_file, take_chunk. steps. Qed.
End session_steps.

Section backup_theorems.
Context `{UlidLaws, Blake3Pkg, FastCdcLaws, ZstdLaws, AeadLaws} {S : Type} `{!Busyncr S, !BusyncrLaws S}
  {R : Type} `{!CryptoRng R}.
(** The request, and what every chunk identity stands for: no two chunks collide. *)
Context (req : BackupRequest) (content : gmap ChunkId bytes).
Abbreviation Session := (Session (S := S) (R := R)).
Implicit Types (a : AStore) (s : Session) (id : ChunkId).

(** A blob opens, under the key and its identity, to the plaintext. *)
Definition opens_to id (blob plain : bytes) : Prop :=
  ∃ framed, decrypt_chunk (key req) id blob = Ok framed ∧ decode_chunk framed = Ok plain.

(** Every blob of the store opens to what its identity stands for. *)
Definition consistent a : Prop :=
  ∀ id blob, a_chunks a !! id = Some blob →
    ∃ plain, content !! id = Some plain ∧ opens_to id blob plain.

(** The store has grown by chunks only. *)
Record grown a a' : Prop := {
  grown_snaps : a_snaps a' = a_snaps a;
  grown_chunks id blob : a_chunks a !! id = Some blob → a_chunks a' !! id = Some blob;
}.

#[local] Instance grown_preorder : PreOrder grown.
Proof.
  split; [by intros a; split|]. intros a b c [S1 C1] [S2 C2]. split; [congruence|auto].
Qed.

Lemma grown_present a a' id : grown a a' → is_Some (a_chunks a !! id) → is_Some (a_chunks a' !! id).
Proof. intros Hg [b Hb]. exists b. by apply (grown_chunks _ _ Hg). Qed.

Lemma consistent_put_chunks blobs a :
  consistent a →
  (∀ id b, (id, b) ∈ blobs → ∃ plain, content !! id = Some plain ∧ opens_to id b plain) →
  consistent (a_put_chunks blobs a).
Proof. intros Ha Hb id b [Hid|Hid]%a_put_chunks_Some; eauto. Qed.

Lemma grown_put_chunks blobs a : grown a (a_put_chunks blobs a).
Proof. split; [apply a_put_chunks_snaps|]. intros. by apply a_put_chunks_mono. Qed.

(** Reports and progress do not matter to the server. *)
Lemma se_wp_count d (Q : result BackupError unit → Session → Prop) s :
  (∀ s', client s' = client s → Q (Ok ()) s') → se_wp (count d) Q s.
Proof. intros HQ. by apply se_wp_modify, HQ. Qed.

Lemma se_wp_tick t f (Q : result BackupError unit → Session → Prop) s :
  (∀ s', client s' = client s → Q (Ok ()) s') → se_wp (on_progress t f) Q s.
Proof. intros HQ. by apply se_wp_modify, HQ. Qed.

(** ** Rounds *)

(** A chunk sealed by [flush_one]. *)
Definition sealed_blob (b : ChunkId * bytes) : Prop :=
  len b.2 ≤ u64_max ∧ ∃ plain, content !! b.1 = Some plain ∧ opens_to b.1 b.2 plain.

Definition genuine (c : ChunkId * bytes) : Prop := content !! c.1 = Some c.2.

Lemma encrypt_chunk_opens id codec payload plain blob (rng rng' : R) :
  encrypt_chunk (key req) id (frame codec payload) rng = (Ok blob, rng') →
  decode_chunk (frame codec payload) = Ok plain →
  len blob ≤ u64_max ∧ opens_to id blob plain.
Proof.
  intros [Hs _]%seal_Ok Hd. pose proof (sealed_length _ _ _ _ _ Hs) as Hl. split.
  - destruct Hs as (c & Hc%aead_encrypt_limit & _). unfold BLOB_OVERHEAD, NONCE_LEN, TAG_LEN in Hl.
    unfold u64_max. lia.
  - exists (frame codec payload). split; [|done]. apply open_Ok. eauto.
Qed.

Lemma flush_one_spec phase missing blobs id data s :
  genuine (id, data) → Forall sealed_blob blobs →
  se_wp (flush_one req phase missing (wire_blob <$> blobs) (id, data)) (λ r s',
    client s' = client s ∧ match r with
    | Ok out => ∃ blobs', out = wire_blob <$> blobs' ∧ Forall sealed_blob blobs' ∧
        blobs'.*1 = blobs.*1 ++ (if decide (id ∈ missing) then [id] else [])
    | Err e => ∃ ce, e = BackupCrypto ce end) s.
Proof.
  intros Hg Hb. unfold flush_one. destruct (decide (id ∈ missing)).
  2: { apply se_wp_bind, se_wp_count. intros s' Hc. apply se_wp_ret. split; [done|].
       exists blobs. by rewrite app_nil_r. }
  apply se_wp_bind, se_wp_gets.
  destruct (choose_codec data phase (policy req) (counters s)) as [[codec payload] c'] eqn:Ec.
  apply se_wp_bind, se_wp_modify, se_wp_bind. unfold draw. unfold se_wp at 1.
  cbn [session_rng set_counters].
  destruct (encrypt_chunk (key req) id (frame codec payload) (session_rng s)) as [[blob|ce] g] eqn:Ee;
    cbn [fst snd map_err]; [|by eauto].
  apply se_wp_bind, se_wp_count. intros s' Hc. apply se_wp_ret. split; [done|].
  exists (blobs ++ [(id, blob)]). rewrite !fmap_app. split_and!; [done| |done].
  apply Forall_app. split; [done|]. apply Forall_singleton.
  destruct (encrypt_chunk_opens id codec payload data blob _ _ Ee) as [Hlen Ho].
  { by eapply decode_chosen. }
  split; [done|]. exists data. by split.
Qed.

(** The errors that come from this side of the connection. *)
Definition local_error (e : BackupError) : Prop :=
  match e with BackupRpc _ | BackupBadResponse => False | _ => True end.

(** The server serves a store that is [a] grown, of which [P] holds. *)
Definition reaches a s (P : AStore → Prop) : Prop :=
  ∃ a', serves (client s) a' ∧ consistent a' ∧ grown a a' ∧ P a'.

Lemma reaches_client a s s' P : client s' = client s → reaches a s P → reaches a s' P.
Proof. unfold reaches. by intros ->. Qed.

Lemma reaches_mono a s (P Q : AStore → Prop) : reaches a s P → (∀ a', P a' → Q a') → reaches a s Q.
Proof. intros (a' & ? & ? & ? & ?) HPQ. exists a'. auto. Qed.

Lemma reaches_trans a s (P : AStore → Prop) s' (Q : AStore → Prop) :
  reaches a s P →
  (∀ a', serves (client s) a' → consistent a' → grown a a' → P a' → reaches a' s' Q) →
  reaches a s' Q.
Proof.
  intros (a' & ? & ? & ? & ?) HPQ. destruct (HPQ a') as (b & ? & ? & ? & ?); [done..|].
  exists b. split_and!; [done..|by etrans|done].
Qed.

Lemma se_wp_call {A} (rpc : S → result Code A * S) (Q : result BackupError A → Session → Prop) s r c :
  rpc (client s) = (r, c) → Q (map_err BackupRpc r) (set_client c s) → se_wp (call rpc) Q s.
Proof. unfold se_wp, call. by intros ->. Qed.

Lemma parse_missing_wire ids : mapM parse_missing (wire_id <$> ids) = Ok ids.
Proof.
  apply mapM_Ok. induction ids as [|id ids IH]; constructor; [|done].
  unfold parse_missing, wire_id. by rewrite array_of_vec.
Qed.

(** The blobs of a round: one for each chunk the server lacks, in order. *)
Lemma flush_blobs_spec phase missing chunks s :
  Forall genuine chunks →
  se_wp (foldM (flush_one req phase missing) [] chunks) (λ r s',
    client s' = client s ∧ match r with
    | Ok out => ∃ blobs, out = wire_blob <$> blobs ∧ Forall sealed_blob blobs ∧
        blobs.*1 = filter (.∈ missing) chunks.*1
    | Err e => ∃ ce, e = BackupCrypto ce end) s.
Proof.
  intros Hg. apply (se_wp_foldM _ _ (λ out done todo s',
    client s' = client s ∧ Forall genuine todo ∧
    ∃ blobs, out = wire_blob <$> blobs ∧ Forall sealed_blob blobs ∧
      blobs.*1 = filter (.∈ missing) done.*1)).
  - split_and!; [done..|]. exists []. done.
  - intros out [id data] pre todo s1 (Hc & [Hx Ht]%Forall_cons & blobs & -> & Hb & Hf).
    eapply se_wp_mono; [by apply flush_one_spec|]. cbn beta. intros [out|er] s2 [Hc2 Hr].
    + destruct Hr as (blobs' & -> & Hb' & Hf'). split; [congruence|]. split; [done|].
      exists blobs'. split; [done|]; split; [done|]. rewrite Hf', Hf, fmap_app, filter_app. by f_equal.
    + split; [congruence|done].
  - intros out s1 (Hc & _ & Hb). done.
Qed.

Lemma flush_stored a missing blobs (chunks : list (ChunkId * bytes)) :
  missing = filter (λ id, a_chunks a !! id = None) chunks.*1 →
  blobs.*1 = filter (.∈ (list_to_set missing : gset ChunkId)) chunks.*1 →
  Forall (λ c, is_Some (a_chunks (a_put_chunks blobs a) !! c.1)) chunks.
Proof.
  intros Hm Hb. apply Forall_forall. intros [id data] Hin. cbn.
  assert (id ∈ chunks.*1) as Hid by (apply list_elem_of_fmap; by exists (id, data)).
  destruct (a_chunks a !! id) as [blob|] eqn:E.
  { exists blob. by apply a_put_chunks_mono. }
  assert (id ∈ blobs.*1) as ([i b] & -> & Hbl)%list_elem_of_fmap.
  { rewrite Hb, list_elem_of_filter. split; [|done].
    rewrite Hm, elem_of_list_to_set, list_elem_of_filter. done. }
  by eapply a_put_chunks_stored.
Qed.

(** A round leaves its chunks on the server; its only error is a refusal to
    encrypt. *)
Lemma flush_spec phase chunks a s :
  serves (client s) a → consistent a → Forall genuine chunks → len chunks ≤ u64_max →
  se_wp (flush req phase chunks) (λ r s', reaches a s' (λ a', match r with
    | Ok _ => Forall (λ c, is_Some (a_chunks a' !! c.1)) chunks
    | Err e => local_error e end)) s.
Proof.
  intros Hs Ha Hg Hl. unfold flush. destruct chunks as [|c0 cs]; [by apply se_wp_ret; exists a|].
  set (chunks := c0 :: cs) in *.
  assert ((λ c : ChunkId * bytes, vec_to_list c.1) <$> chunks = wire_id <$> chunks.*1) as ->
    by (by rewrite <- list_fmap_compose).
  destruct (has_chunks_law (client s) a chunks.*1 Hs) as (c1 & Hs1 & Hrpc).
  apply se_wp_bind. eapply se_wp_call; [exact Hrpc|]. cbn [map_err].
  apply se_wp_bind, se_wp_lift. rewrite parse_missing_wire.
  apply se_wp_bind. eapply se_wp_mono; [by apply flush_blobs_spec|]. cbn beta.
  intros [out|er] s2 [Hc2 Hr].
  2: { exists a. rewrite Hc2. split_and!; [done..|]. by destruct Hr as [? ->]. }
  destruct Hr as (blobs & -> & Hb & Hf).
  pose proof (flush_stored a _ blobs chunks eq_refl Hf) as Hst.
  destruct (wire_blob <$> blobs) as [|w ws] eqn:Ew.
  { apply fmap_nil_inv in Ew as ->. apply se_wp_ret. exists a. rewrite Hc2. done. }
  rewrite <- Ew. clear Ew.
  destruct (upload_chunks_law (client s2) a blobs) as (resp & c3 & Hup & Hn & Hs3).
  { by rewrite Hc2. }
  { eapply Forall_impl; [exact Hb|]. by intros b [? _]. }
  apply se_wp_bind. eapply se_wp_call; [exact Hup|]. cbn [map_err].
  assert (len blobs ≤ len chunks) as Hlen.
  { unfold len. rewrite <- (length_fmap fst blobs), Hf. etrans; [apply inj_le, length_filter|].
    by rewrite length_fmap. }
  rewrite decide_False.
  2: { rewrite Hn. unfold len in *. rewrite length_fmap, Z.mod_small; [lia|]. unfold u64_max in Hl. lia. }
  apply se_wp_ret. exists (a_put_chunks blobs a). split_and!; [done| |apply grown_put_chunks|done].
  apply consistent_put_chunks; [done|]. intros id b Hin.
  by apply (proj1 (Forall_forall _ _) Hb) in Hin as [_ ?].
Qed.

(** ** Files *)

(** What the chunker says of a file. *)
Definition items_of (spec : FileSpec) : list (result ChunkingError Chunk) :=
  match sf_content (abs spec) with
  | Some source => ChunkStream_items (chunk_reader_keyed source (chunker req) (chunk_id_key req))
  | None => []
  end.

Definition genuine_items (items : list (result ChunkingError Chunk)) : Prop :=
  ∀ c, Ok c ∈ items → genuine (Chunk_id c, Chunk_data c).

(** A batch between two chunks: what was seen and is not pending is stored. *)
Record batch_ok (b : Batch) a : Prop := {
  batch_seen id : id ∈ seen b → is_Some (a_chunks a !! id) ∨ id ∈ (pending b).*1;
  batch_genuine : Forall genuine (pending b);
  batch_short : len (pending b) < BATCH_MAX_CHUNKS;
}.

Lemma batch_ok_grown b a a' : grown a a' → batch_ok b a → batch_ok b a'.
Proof.
  intros Hg [Hs Hp Hl]. split; [|done..]. intros id [Hid|Hid]%Hs; [left|by right].
  by eapply grown_present.
Qed.

Lemma batch_ok_empty ids a :
  (∀ id, id ∈ ids → is_Some (a_chunks a !! id)) → batch_ok {| seen := ids; pending := []; pending_bytes := 0 |} a.
Proof. intros Hids. split; [by left; apply Hids|done|done]. Qed.

Definition file_len (cs : list Chunk) : Z := foldl u64_add 0 (Chunk_len <$> cs).

Lemma take_chunk_spec phase totals b cs item a s :
  serves (client s) a → consistent a → batch_ok b a →
  (∀ c, c ∈ cs → Chunk_id c ∈ seen b) → (∀ c, item = Ok c → genuine (Chunk_id c, Chunk_data c)) →
  se_wp (take_chunk req phase totals (b, (Chunk_id <$> cs, file_len cs)) item) (λ r s',
    reaches a s' (λ a', match r with
    | Ok (b', (ids, n)) => ∃ c, item = Ok c ∧ ids = Chunk_id <$> cs ++ [c] ∧ n = file_len (cs ++ [c]) ∧
        batch_ok b' a' ∧ {[Chunk_id c]} ∪ seen b ⊆ seen b'
    | Err e => local_error e end)) s.
Proof.
  intros Hs Ha Hb Hcs Hitem. unfold take_chunk. apply se_wp_bind, se_wp_lift.
  destruct item as [c|ce]; cbn [map_err]; [|by exists a].
  assert (file_len (cs ++ [c]) = u64_add (file_len cs) (Chunk_len c)) as Hlen
    by (unfold file_len; by rewrite fmap_app, foldl_app).
  assert ((Chunk_id <$> cs) ++ [Chunk_id c] = Chunk_id <$> cs ++ [c]) as Hids by (by rewrite fmap_app).
  rewrite Hids, <- Hlen. apply se_wp_bind, se_wp_count. intros s1 Hc1.
  destruct (decide (Chunk_id c ∈ seen b)) as [Hin|Hin].
  { apply se_wp_ret. exists a. rewrite Hc1. split_and!; [done..|]. exists c. split_and!; [done..|set_solver]. }
  apply se_wp_bind, se_wp_count. intros s2 Hc2.
  set (chunks := pending b ++ [(Chunk_id c, Chunk_data c)]).
  assert (Forall genuine chunks) as Hg.
  { apply Forall_app. split; [apply Hb|]. apply Forall_singleton. by apply Hitem. }
  assert (∀ id, id ∈ {[Chunk_id c]} ∪ seen b → is_Some (a_chunks a !! id) ∨ id ∈ chunks.*1) as Hseen.
  { intros id. unfold chunks. rewrite fmap_app, elem_of_union, elem_of_singleton, elem_of_app. cbn.
    intros [->|[?|?]%(batch_seen _ _ Hb)]; [|by auto..]. right. right. by apply list_elem_of_singleton. }
  destruct (decide (BATCH_MAX_CHUNKS ≤ len chunks ∨ _)) as [Hfull|Hfull].
  - apply se_wp_bind. eapply se_wp_mono.
    { apply (flush_spec _ chunks a); [by rewrite Hc2, Hc1|done..|].
      pose proof (batch_short _ _ Hb). unfold chunks, BATCH_MAX_CHUNKS, u64_max in *. len_lia. }
    cbn beta. intros [[]|e] s3 Hr; [|done].
    apply se_wp_bind, se_wp_tick. intros s4 Hc4. apply se_wp_ret.
    apply (reaches_client _ s3); [done|]. destruct Hr as (a' & ? & ? & Hgr & Hst). exists a'.
    split_and!; [done..|]. exists c. split_and!; [done..| |done].
    apply batch_ok_empty. intros id [Hid|Hid]%Hseen; [by eapply grown_present|].
    apply list_elem_of_fmap in Hid as (p & -> & Hp). by apply (proj1 (Forall_forall _ _) Hst).
  - apply se_wp_ret. exists a. rewrite Hc2, Hc1. split_and!; [done..|]. exists c. split_and!; [done..| |done].
    split; [done|done|]. cbn. lia.
Qed.

(** The entry of a file that was read to its end, and what it takes. *)
Definition entry_of (spec : FileSpec) (md : Metadata) (cs : list Chunk) : FileEntry := {|
  path := rel spec; size := file_len cs; mtime_secs := (mtime_parts md).1;
  mtime_nanos := (mtime_parts md).2; mode := file_mode md; chunks := Chunk_id <$> cs |}.

Definition describes (spec : FileSpec) (entry : FileEntry) : Prop :=
  ∃ md cs, is_Some (sf_content (abs spec)) ∧ sf_metadata (abs spec) = Some md ∧
    items_of spec = Ok <$> cs ∧ entry = entry_of spec md cs.

Lemma backup_file_spec phase totals b files spec a s :
  serves (client s) a → consistent a → batch_ok b a → genuine_items (items_of spec) →
  se_wp (backup_file req phase totals (b, files) spec) (λ r s', reaches a s' (λ a', match r with
    | Ok (b', files') => ∃ entry, describes spec entry ∧ files' = files ++ [entry] ∧
        batch_ok b' a' ∧ seen b ⊆ seen b' ∧ (∀ id, id ∈ chunks entry → id ∈ seen b')
    | Err e => local_error e end)) s.
Proof.
  intros Hs Ha Hb Hg. unfold backup_file. apply se_wp_bind, se_wp_lift.
  destruct (sf_content (abs spec)) as [source|] eqn:Esrc; [|by exists a]. cbn [ok_or].
  apply se_wp_bind, se_wp_lift. destruct (sf_metadata (abs spec)) as [md|] eqn:Emd; [|by exists a].
  cbn [ok_or]. assert (items_of spec = ChunkStream_items (chunk_reader_keyed source (chunker req) (chunk_id_key req)))
    as Hitems by (unfold items_of; by rewrite Esrc).
  rewrite <- Hitems. apply se_wp_bind.
  apply (se_wp_foldM _ _ (λ '(b', (ids, n)) pre todo s', ∃ cs, pre = Ok <$> cs ∧ ids = Chunk_id <$> cs ∧
    n = file_len cs ∧ genuine_items todo ∧ reaches a s' (λ a', batch_ok b' a') ∧
    seen b ⊆ seen b' ∧ ∀ c, c ∈ cs → Chunk_id c ∈ seen b')).
  - exists []. split_and!; [done..|by exists a|done|by intros c ?%elem_of_nil].
  - intros [b' [ids n]] item pre todo s1 (cs & -> & -> & -> & Hgt & (a1 & Hs1 & Ha1 & Hg1 & Hb1) & Hsub & Hcs).
    eapply se_wp_mono. { apply (take_chunk_spec phase totals b' cs item a1); try done. intros c ->. apply Hgt, list_elem_of_here. }
    cbn beta. intros [[b2 [ids n]]|e] s2 (a2 & Hs2 & Ha2 & Hg2 & Hr).
    2: { exists a2. split_and!; [done..|by etrans|done]. }
    destruct Hr as (c & -> & -> & -> & Hb2 & Hsub2). exists (cs ++ [c]). split_and!.
    + by rewrite fmap_app.
    + done.
    + done.
    + intros c' Hc'. by apply Hgt, list_elem_of_further.
    + exists a2. split_and!; [done..|by etrans|done].
    + set_solver.
    + intros c' [Hc'%Hcs|Hc'%list_elem_of_singleton]%elem_of_app; set_solver.
  - intros [b' [ids n]] s1 (cs & Hpre & -> & -> & _ & Hr & Hsub & Hcs).
    destruct (mtime_parts md) as [secs nanos] eqn:Et.
    apply se_wp_bind, se_wp_count. intros s2 Hc2. apply se_wp_bind, se_wp_tick. intros s3 Hc3.
    apply se_wp_ret. apply (reaches_client _ s1); [congruence|]. eapply reaches_mono; [exact Hr|].
    intros a' Hb'. exists (entry_of spec md cs). split_and!; [by exists md, cs| |done|done|].
    + unfold entry_of. by rewrite Et.
    + cbn. intros id (c & -> & Hc)%list_elem_of_fmap. by apply Hcs.
Qed.

(** ** The run *)

Definition the_manifest (entries : list FileEntry) : Manifest := {|
  snapshot_id := req_snapshot_id req; created_at := req_created_at req; files := entries |}.

(** The snapshot that a run has added: its manifest, sealed and with its
    references counted. *)
Definition recorded a a' (entries : list FileEntry) : Prop :=
  ∃ encoded sealed owner, encode (the_manifest entries) = Ok encoded ∧
    decrypt_manifest (key req) (req_snapshot_id req) sealed = Ok encoded ∧
    a' = a_put_snapshot (Ulid_to_bytes (req_snapshot_id req))
           {| s_blob := sealed; s_refs := chunk_refs (the_manifest entries); s_owner := owner |} a.

Lemma put_manifest_spec entries a s :
  serves (client s) a → a_snaps a !! Ulid_to_bytes (req_snapshot_id req) = None →
  Forall (λ id, is_Some (a_chunks a !! id)) (chunk_refs (the_manifest entries)) →
  len (chunk_refs (the_manifest entries)) + len (a_refs a) ≤ u64_max →
  se_wp (put_manifest req entries) (λ r s', match r with
    | Ok _ => ∃ a', serves (client s') a' ∧ recorded a a' entries
    | Err e => local_error e ∧ serves (client s') a end) s.
Proof.
  intros Hs Hfresh Hrefs Hlen. unfold put_manifest. fold (the_manifest entries).
  apply se_wp_bind, se_wp_lift. destruct (encode (the_manifest entries)) as [encoded|me] eqn:Eenc;
    cbn [map_err]; [|done].
  apply se_wp_bind. unfold draw. unfold se_wp at 1.
  destruct (encrypt_manifest (key req) (req_snapshot_id req) encoded (session_rng s)) as [[sealed|ce] g] eqn:Ee;
    cbn [fst snd map_err]; [|done].
  apply se_wp_bind, se_wp_modify.
  destruct (put_manifest_law (client s) a sealed (Ulid_to_bytes (req_snapshot_id req))
    (chunk_refs (the_manifest entries)) Hs Hfresh Hrefs Hlen) as (owner & c & Hrpc & Hs').
  eapply se_wp_call; [exact Hrpc|]. cbn [map_err]. eexists; split; [exact Hs'|].
  exists encoded, sealed, owner. split; [done|]. split; [|done].
  apply open_Ok. apply seal_Ok in Ee as [? _]. eauto.
Qed.

(** What a run promises: the server's store grows by chunks that open to what
    they stand for; then a run that succeeds has recorded the entries of all
    files, and a run that fails has recorded nothing. *)
Definition run_outcome a (r : result BackupError BackupReport) s : Prop :=
  reaches a s (λ a', match r with
    | Ok _ => False | Err e => local_error e end) ∨
  is_ok r ∧ ∃ specs entries a1 a',
    collect_files (roots req) = Ok specs ∧ Forall2 describes specs entries ∧
    grown a a1 ∧ consistent a1 ∧ recorded a1 a' entries ∧ serves (client s) a' ∧
    Forall (λ id, is_Some (a_chunks a1 !! id)) (chunk_refs (the_manifest entries)).

Definition sources_genuine (specs : list FileSpec) : Prop :=
  ∀ spec, spec ∈ specs → genuine_items (items_of spec).

Lemma chunk_refs_describes specs entries :
  Forall2 describes specs entries → len (chunk_refs (the_manifest entries)) = len (specs ≫= items_of).
Proof.
  unfold chunk_refs, len; cbn [files the_manifest]. induction 1 as [|spec e specs es (md & cs & _ & _ & Hi & ->) _ IH].
  - done.
  - cbn [mbind list_bind]. rewrite !length_app. cbn [mbind] in IH. rewrite Hi. cbn [chunks entry_of].
    rewrite !length_fmap. lia.
Qed.

Lemma backup_files_spec phase totals specs a s :
  serves (client s) a → consistent a → sources_genuine specs →
  se_wp (foldM (backup_file req phase totals) ({| seen := ∅; pending := []; pending_bytes := 0 |}, []) specs)
    (λ r s', reaches a s' (λ a', match r with
    | Ok (b, entries) => Forall2 describes specs entries ∧ batch_ok b a' ∧
        ∀ id, id ∈ chunk_refs (the_manifest entries) → id ∈ seen b
    | Err e => local_error e end)) s.
Proof.
  intros Hs Ha Hg.
  apply (se_wp_foldM _ _ (λ '(b, entries) pre todo s', sources_genuine todo ∧ Forall2 describes pre entries ∧
    reaches a s' (λ a', batch_ok b a') ∧ ∀ id, id ∈ chunk_refs (the_manifest entries) → id ∈ seen b)).
  - split_and!; [done..| |by intros ? ?%elem_of_nil]. exists a. split_and!; [done..|].
    apply batch_ok_empty. set_solver.
  - intros [b entries] spec pre todo s1 (Hgt & Hd & (a1 & Hs1 & Ha1 & Hg1 & Hb1) & Hseen).
    eapply se_wp_mono.
    { apply (backup_file_spec phase totals b entries spec a1); try done. apply Hgt, list_elem_of_here. }
    cbn beta. intros [[b2 entries2]|e] s2 (a2 & Hs2 & Ha2 & Hg2 & Hr).
    2: { exists a2. split_and!; [done..|by etrans|done]. }
    destruct Hr as (entry & Hde & -> & Hb2 & Hsub & Hch). split_and!.
    + intros x Hx. by apply Hgt, list_elem_of_further.
    + apply Forall2_app; [done|]. by constructor.
    + exists a2. split_and!; [done..|by etrans|done].
    + intros id. unfold chunk_refs; cbn [files the_manifest]. rewrite bind_app, elem_of_app. cbn.
      rewrite app_nil_r. intros [Hid|Hid]; [by apply Hsub, Hseen|by apply Hch].
  - intros [b entries] s1 (_ & Hd & Hr & Hseen). eapply reaches_mono; [exact Hr|]. auto.
Qed.

Lemma run_backup_spec server (rng : R) a :
  serves server a → consistent a →
  a_snaps a !! Ulid_to_bytes (req_snapshot_id req) = None →
  (∀ specs, collect_files (roots req) = Ok specs → sources_genuine specs ∧
     len (specs ≫= items_of) + len (a_refs a) ≤ u64_max) →
  se_wp (run_backup_with_progress req) (run_outcome a) (start server rng (req_snapshot_id req)).
Proof.
  intros Hs Ha Hfresh Hsrc. unfold run_backup_with_progress.
  destruct (list_snapshots_law server a Hs) as (ids & c1 & Hrpc & Hs1 & _).
  apply se_wp_bind. eapply se_wp_call; [exact Hrpc|]. cbn [map_err].
  set (phase := match ids with [] => InitialFull | _ => Incremental end). clearbody phase.
  apply se_wp_bind, se_wp_lift. destruct (collect_files (roots req)) as [specs|ce] eqn:Ec.
  2: { left. exists a. split_and!; [done..|].
       apply collect_files_Err in Ec. by destruct ce. }
  destruct (Hsrc specs eq_refl) as [Hg Hlen]. apply se_wp_bind.
  eapply se_wp_mono; [by apply backup_files_spec|]. cbn beta. intros [[b entries]|e] s1 Hr; [|by left].
  destruct Hr as (a1 & Hs2 & Ha1 & Hg1 & Hd & Hb & Hseen).
  apply se_wp_bind. eapply se_wp_mono.
  { apply (flush_spec phase (pending b) a1); [done..|apply Hb|].
    pose proof (batch_short _ _ Hb). unfold BATCH_MAX_CHUNKS, u64_max in *. lia. }
  cbn beta. intros [[]|e] s2 (a2 & Hs3 & Ha2 & Hg2 & Hst).
  2: { left. exists a2. split_and!; [done..|by etrans|done]. }
  assert (grown a a2) as Hg' by by etrans.
  apply se_wp_bind, se_wp_tick. intros s3 Hc3. apply se_wp_bind, se_wp_modify, se_wp_bind.
  assert (Forall (λ id, is_Some (a_chunks a2 !! id)) (chunk_refs (the_manifest entries))) as Hrefs.
  { apply Forall_forall. intros id [Hid|Hid]%Hseen%(batch_seen _ _ Hb); [by apply (grown_present a1)|].
    apply list_elem_of_fmap in Hid as (p & -> & Hp). by apply (proj1 (Forall_forall _ _) Hst). }
  eapply se_wp_mono.
  { apply (put_manifest_spec entries a2); [cbn; by rewrite Hc3| |done|].
    - by rewrite (grown_snaps _ _ Hg').
    - rewrite (chunk_refs_describes _ _ Hd). unfold a_refs in *. by rewrite (grown_snaps _ _ Hg'). }
  cbn beta. intros [[]|e] s4 Hr.
  - destruct Hr as (a' & Hs' & Hrec). apply se_wp_gets. right. split; [done|]. exists specs, entries, a2, a'. done.
  - destruct Hr as [He Hs']. left. by exists a2.
Qed.

(** ** What a reader of the store finds *)

(** The store has a file's bytes: its chunks open, in their order, to parts of
    them. *)
Definition holds_file a (entry : FileEntry) (d : bytes) : Prop :=
  ∃ plains, mjoin plains = d ∧ Forall2 (λ id plain, ∃ blob,
    a_chunks a !! id = Some blob ∧ opens_to id blob plain) (chunks entry) plains.

Lemma file_len_total cs : file_len cs = len (mjoin (Chunk_data <$> cs)) mod 2 ^ 64.
Proof.
  unfold file_len. assert (∀ n, 0 ≤ n < 2 ^ 64 → foldl u64_add n (Chunk_len <$> cs) =
    (n + len (mjoin (Chunk_data <$> cs))) mod 2 ^ 64) as Hn; [|by apply (Hn 0)].
  induction cs as [|c cs IH]; intros n Hn; cbn [fmap list_fmap mjoin list_join foldl].
  - unfold len; cbn. rewrite Z.add_0_r. by rewrite Z.mod_small.
  - rewrite IH by (unfold u64_add; apply Z.mod_pos_bound; lia). unfold u64_add.
    rewrite Zplus_mod_idemp_l, len_app, Z.add_assoc. done.
Qed.

Lemma describes_clean spec entry d :
  ChunkerConfig_wf (chunker req) → describes spec entry →
  sf_content (abs spec) = Some {| src_data := d; src_error := None |} →
  ∃ cs, chunks entry = Chunk_id <$> cs ∧ size entry = len d mod 2 ^ 64 ∧ mjoin (Chunk_data <$> cs) = d ∧
    items_of spec = Ok <$> cs ∧ Forall (λ c, Chunk_id c = ChunkId_keyed (chunk_id_key req) (Chunk_data c)) cs.
Proof.
  intros Hwf (md & cs & _ & _ & Hi & ->) Hd. exists cs. unfold items_of in Hi. rewrite Hd in Hi.
  rewrite chunk_reader_keyed_items in Hi. apply (inj (fmap Ok)) in Hi. subst cs.
  destruct (chunk_bytes_keyed_spec d _ (chunk_id_key req) Hwf) as [Hj Hc].
  split_and!; [done| |done| |].
  - cbn. by rewrite file_len_total, Hj.
  - unfold items_of. by rewrite Hd, chunk_reader_keyed_items.
  - by eapply Forall_impl; [exact Hc|]; intros c [? _].
Qed.

Lemma describes_held spec entry a d :
  ChunkerConfig_wf (chunker req) → describes spec entry → consistent a → genuine_items (items_of spec) →
  Forall (λ id, is_Some (a_chunks a !! id)) (chunks entry) →
  sf_content (abs spec) = Some {| src_data := d; src_error := None |} → holds_file a entry d.
Proof.
  intros Hwf Hde Ha Hg Hall Hd. destruct (describes_clean _ _ _ Hwf Hde Hd) as (cs & Hcs & _ & <- & Hi & _).
  exists (Chunk_data <$> cs). split; [done|]. rewrite Hcs in *. apply Forall2_fmap_2.
  rewrite Forall_fmap in Hall. rewrite Hi in Hg. clear Hi Hcs Hde Hd. apply Forall_Forall2_diag.
  apply Forall_forall. intros c Hin. pose proof (proj1 (Forall_forall _ _) Hall _ Hin) as [blob Hb].
  exists blob. split; [done|]. destruct (Ha _ _ Hb) as (plain & Hp & Ho).
  specialize (Hg c (list_elem_of_fmap_2 _ _ _ Hin)). unfold genuine in Hg. cbn in Hg. by simplify_eq.
Qed.

(** What the field types guarantee of the request and of the metadata. *)
Definition spec_typed (spec : FileSpec) : Prop :=
  ∀ md, sf_metadata (abs spec) = Some md → in_u32 (md_mode md).

Lemma to_i64_range z : in_i64 (to_i64 z).
Proof. unfold to_i64. pose proof (Z.mod_pos_bound (z + 2 ^ 63) (2 ^ 64)). int_lia. Qed.

Lemma mtime_parts_range md : in_i64 (mtime_parts md).1 ∧ in_u32 (mtime_parts md).2.
Proof.
  unfold mtime_parts. destruct (md_modified md) as [[z|z]|]; [| |by split].
  - split; [apply to_i64_range|]. cbn [snd]. pose proof (Z.mod_pos_bound z 1000000000). int_lia.
  - pose proof (Z.mod_pos_bound z 1000000000).
    case_decide; (split; [apply to_i64_range|]); [done|]. cbn [snd]. int_lia.
Qed.

Lemma describes_wf spec entry :
  spec_typed spec → utf8_valid (rel spec) = true → describes spec entry → FileEntry_wf entry.
Proof.
  intros Ht Hu (md & cs & _ & Hmd & _ & ->). destruct (mtime_parts_range md) as [Hs Hn].
  unfold FileEntry_wf. cbn. split_and!; [by rewrite Hu| |done|done|by apply Ht].
  rewrite file_len_total. pose proof (Z.mod_pos_bound (len (mjoin (Chunk_data <$> cs))) (2 ^ 64)). int_lia.
Qed.

Lemma recorded_decodes a a' specs entries :
  in_i64 (req_created_at req) → Forall spec_typed specs →
  Forall (λ spec, utf8_valid (rel spec) = true) specs →
  Forall2 describes specs entries → recorded a a' entries →
  ∃ encoded sn, a_snaps a' = <[Ulid_to_bytes (req_snapshot_id req) := sn]> (a_snaps a) ∧
    a_chunks a' = a_chunks a ∧ s_refs sn = chunk_refs (the_manifest entries) ∧
    decrypt_manifest (key req) (req_snapshot_id req) (s_blob sn) = Ok encoded ∧
    decode encoded = Ok (the_manifest entries).
Proof.
  intros Hc Ht Hu Hd (encoded & sealed & owner & [Hf ->]%encode_Ok & Hdec & ->).
  do 2 eexists. split; [done|]. split; [done|]. split; [done|]. split; [exact Hdec|].
  apply decode_wf_fits. split; [|done]. split; [|done]. split; [done|]. cbn [the_manifest files].
  clear -Hd Ht Hu. induction Hd as [|spec e specs es Hde _ IH]; [constructor|].
  apply Forall_cons in Ht as [? ?], Hu as [? ?]. constructor; [by eapply describes_wf|by apply IH].
Qed.

(** What a run starts from: a server whose blobs open to what they stand for, a
    fresh snapshot identity, sources whose chunks do not collide, and counts that
    fit their type. *)
Record backup_starts server a : Prop := {
  starts_served : serves server a;
  starts_consistent : consistent a;
  starts_fresh : a_snaps a !! Ulid_to_bytes (req_snapshot_id req) = None;
  starts_chunker : ChunkerConfig_wf (chunker req);
  starts_time : in_i64 (req_created_at req);
  starts_roots : Forall root_wf (roots req);
  starts_sources specs : collect_files (roots req) = Ok specs →
    sources_genuine specs ∧ Forall spec_typed specs ∧
    len (specs ≫= items_of) + len (a_refs a) ≤ u64_max;
}.

Lemma run_backup_outcome server (rng : R) a r s' :
  backup_starts server a → run_backup req server rng = (r, s') → run_outcome a r s'.
Proof.
  intros [] Hrun. assert (se_wp (run_backup_with_progress req) (run_outcome a)
    (start server rng (req_snapshot_id req))) as Hw.
  { apply run_backup_spec; [done..|]. naive_solver. }
  unfold se_wp in Hw. unfold run_backup in Hrun. by rewrite Hrun in Hw.
Qed.

(** What a run that succeeds leaves behind. *)
Record backed_up a (specs : list FileSpec) (entries : list FileEntry) a' : Prop := {
  up_snapshot : ∃ encoded sn,
    a_snaps a' = <[Ulid_to_bytes (req_snapshot_id req) := sn]> (a_snaps a) ∧
    s_refs sn = chunk_refs (the_manifest entries) ∧
    decrypt_manifest (key req) (req_snapshot_id req) (s_blob sn) = Ok encoded ∧
    decode encoded = Ok (the_manifest entries);
  up_entries : Forall2 describes specs entries;
  up_chunks id blob : a_chunks a !! id = Some blob → a_chunks a' !! id = Some blob;
  up_consistent : consistent a';
  up_files : Forall2 (λ spec entry, ∀ d,
    sf_content (abs spec) = Some {| src_data := d; src_error := None |} →
    size entry = len d mod 2 ^ 64 ∧ holds_file a' entry d) specs entries;
}.

Lemma run_backup_success server (rng : R) a report s' :
  backup_starts server a → run_backup req server rng = (Ok report, s') →
  ∃ specs entries a', collect_files (roots req) = Ok specs ∧
    serves (client s') a' ∧ backed_up a specs entries a'.
Proof.
  intros Hst Hrun. destruct (run_backup_outcome _ _ _ _ _ Hst Hrun) as
    [(? & _ & _ & _ & [])|[_ (specs & entries & a1 & a' & Hc & Hd & Hg & Ha1 & Hrec & Hs' & Hrefs)]].
  destruct (starts_sources _ _ Hst _ Hc) as (Hgen & Htyp & _).
  destruct (collect_files_lists _ _ (starts_roots _ _ Hst) Hc) as (_ & _ & _ & Hutf).
  destruct (recorded_decodes _ _ _ _ (starts_time _ _ Hst) Htyp Hutf Hd Hrec)
    as (encoded & sn & Hsn & Hch & Hr & Hdec & Hm).
  assert (consistent a') as Ha' by (intros id b; rewrite Hch; apply Ha1).
  exists specs, entries, a'. split; [done|]. split; [done|]. split; [|done| |done|].
  - exists encoded, sn. by rewrite Hsn, (grown_snaps _ _ Hg).
  - intros id blob Hid. rewrite Hch. by apply (grown_chunks _ _ Hg).
  - rewrite <- Hch in Hrefs. unfold chunk_refs in Hrefs. cbn [the_manifest files] in Hrefs.
    pose proof (starts_chunker _ _ Hst) as Hwf. clear Hrec Hs' Htyp Hutf Hc Hsn Hr Hdec Hm Hch Hg Ha1 Hst Hrun.
    induction Hd as [|spec e specs es Hde _ IH]; [constructor|].
    cbn [mbind list_bind] in Hrefs. apply Forall_app in Hrefs as [Hrefs Hrest]. constructor.
    + intros d Hd.
      destruct (describes_clean _ _ _ Hwf Hde Hd) as (_ & _ & Hsize & _). split; [done|].
      eapply describes_held; try done. apply Hgen. by left.
    + apply IH; [exact Hrest|]. intros x Hx. apply Hgen. by right.
Qed.

(** C4. A backup that succeeds leaves on the server a snapshot that describes
    every source file: its manifest opens and decodes to one entry for each file of
    the walk, and the chunks of a file that was read to its end are stored, open
    with the key, and concatenate to the file's bytes.  Nothing that was on the
    server is lost, and every blob still opens to what its identity stands for. *)
Theorem backup_stores_sources server (rng : R) a report s' :
  backup_starts server a →
  run_backup req server rng = (Ok report, s') →
  ∃ specs entries a', collect_files (roots req) = Ok specs ∧
    serves (client s') a' ∧ backed_up a specs entries a'.
Proof. apply run_backup_success. Qed.

End backup_theorems.

(** ** Examples *)

Module Examples.
Import Reference MemoryServer WalkTheorems.Examples.

Definition cfg : ChunkerConfig := {| min_size := 64; target_size := 256; max_size := 1024 |}.

Definition request (roots : list Root) : BackupRequest := {|
  roots := roots; chunker := cfg; policy := PolicyConfig_default;
  req_snapshot_id := (vreplicate 16 x01 : @Ulid ulid); req_created_at := 1700000000;
  key := vreplicate 32 x41; chunk_id_key := vreplicate 32 x42 |}.

(** The chunks of the files in [data]. *)
Definition content : gmap ChunkId bytes := list_to_map
  ((λ s, (ChunkId_keyed (vreplicate 32 x42) (str s), str s)) <$> ["a"; "b"; "c"]%string).

(** [data], and beside it a file that cannot be opened. *)
Definition unreadable : Root := {| root_path := str "/home/u/work"; root_node := Some (NodeDir (Some [
  (str "lock", NodeFile {| sf_metadata := None; sf_content := None |})])) |}.

Lemma root_wf_unreadable : root_wf unreadable.
Proof.
  intros node [= <-]. repeat first
    [ apply wf_file | apply wf_dir | apply Forall_cons_2 | apply Forall_nil_2
    | apply (bool_decide_unpack _); reflexivity ].
Qed.

Definition genuine_check (item : result ChunkingError Chunk) : bool :=
  match item with
  | Ok c => bool_decide (content !! Chunk_id c = Some (Chunk_data c))
  | Err _ => true
  end.

Lemma starts {S} `{!Busyncr S, !BusyncrLaws S} (server : S) roots :
  serves server a_empty → Forall root_wf roots →
  (match collect_files roots with
   | Ok specs => forallb (λ spec, forallb genuine_check (items_of (request roots) spec) &&
       match sf_metadata (abs spec) with Some md => bool_decide (in_u32 (md_mode md)) | None => true end) specs
       && bool_decide (len (specs ≫= items_of (request roots)) ≤ u64_max)
   | Err _ => true end) = true →
  backup_starts (request roots) content server a_empty.
Proof.
  intros Hserves Hroots Hc. split; try done.
  - intros specs E. cbn [Backup.roots request] in E. rewrite E in Hc. apply andb_prop in Hc as [Hs Hl%bool_decide_eq_true].
    split_and!; [| |by rewrite Z.add_0_r].
    + intros spec Hin c Hic. rewrite forallb_forall in Hs.
      apply list_elem_of_In, Hs, andb_prop in Hin as [Hg _]. rewrite forallb_forall in Hg.
      apply list_elem_of_In, Hg in Hic. by apply bool_decide_eq_true in Hic.
    + apply Forall_forall. intros spec Hin md Hmd. rewrite forallb_forall in Hs.
      apply list_elem_of_In, Hs, andb_prop in Hin as [_ Hm]. rewrite Hmd in Hm. by apply bool_decide_eq_true in Hm.
Qed.

Lemma backup_stores_sources_witness :
  ∃ specs entries a', collect_files [data] = Ok specs ∧
    backed_up (request [data]) content a_empty specs entries a'.
Proof.
  assert (backup_starts (request [data]) content a_empty a_empty) as Hst.
  { apply starts; [exact (conj eq_refl a_ok_empty)|constructor; [apply root_wf_data|constructor]|vm_compute; reflexivity]. }
  destruct (run_backup (request [data]) a_empty 7) as [r s'] eqn:E.
  assert (is_ok r = true) as Hr by (change r with (r, s').1; rewrite <- E; vm_compute; reflexivity).
  destruct r as [report|]; [|discriminate Hr].
  destruct (backup_stores_sources (request [data]) content a_empty 7 a_empty report s' Hst E)
    as (specs & entries & a' & Hc & _ & Hup).
  exists specs, entries, a'. split; assumption.
Defined.


End Examples.
