(* ===== verification/Restore.v ===== *)
(** * The restore pipeline ([busyncr-client/src/restore.rs])

    Fetching a snapshot's manifest and the chunks of every file, verifying each
    one and writing the files below an empty directory, over any server ([Rpc]).
    The target is a tree of directories and regular files, and every operation on
    it takes one entry of a schedule of faults.  The two keys and the connection,
    which [enroll.rs] loads, are arguments. *)

From S2P Require Import Prelude External Text Chunking Manifest Compression Crypto Rpc.

(** ** The target directory *)

(** A regular file: the modification time and permissions that were set last. *)
Record TargetFile := {
  tf_content : bytes;
  tf_mtime : option (Z * Z);
  tf_mode : option Z;
  tf_synced : bool;
}.

Inductive Entry := Directory | Regular (f : TargetFile).

(** What is at and below [target_dir], by the names on the way. *)
Abbreviation Tree := (gmap (list bytes) Entry).

(** A fault of the file system: the operation fails; [write_all] has then written
    the first bytes. *)
Definition IoFault : Type := option nat.

Inductive RestoreError :=
  | RestoreIo
  | TargetNotEmpty
  | UnsafePath (path : bytes)
  | RestoreRpc (c : Code)
  | RestoreBadResponse
  | RestoreManifest (e : ManifestError)
  | RestoreCrypto (e : CryptoError)
  | ChunkIdMismatch (chunk actual : ChunkId)
  | CodecDecode (chunk : ChunkId) (source : CompressionError)
  | SizeMismatch (path : bytes) (expected actual : Z).

(** [fs::create_dir_all]: every name on the way becomes a directory, unless a
    file is there. *)
Definition make_dir (t : Tree) (dir : list bytes) : option Tree :=
  match t !! dir with
  | Some (Regular _) => None
  | Some Directory => Some t
  | None => Some (<[dir := Directory]> t)
  end.
Definition make_dirs (dir : list bytes) (t : Tree) : option Tree :=
  foldM make_dir t ((λ n, take n dir) <$> seq 0 (S (length dir))).

(** [fs::File::create]: needs its directory, and truncates a file. *)
Definition create_file (p : list bytes) (t : Tree) : option Tree :=
  let created mode := Regular {| tf_content := []; tf_mtime := None; tf_mode := mode; tf_synced := false |} in
  match t !! removelast p with
  | Some Directory =>
      match t !! p with
      | Some Directory => None
      | Some (Regular f) => Some (<[p := created (tf_mode f)]> t)
      | None => Some (<[p := created None]> t)
      end
  | _ => None
  end.

Definition update_file (g : TargetFile → TargetFile) (p : list bytes) (t : Tree) : Tree :=
  alter (λ e, match e with Regular f => Regular (g f) | Directory => Directory end) p t.

(** ** Paths *)

(** The loop of [sanitize_path]. *)
Fixpoint safe_parts (parts : list bytes) (rel : bytes) (any : bool) : option (bytes * bool) :=
  match parts with
  | [] => Some (rel, any)
  | part :: parts =>
      if decide (part = [] ∨ part = str "." ∨ part = str "..") then None
      else safe_parts parts (push rel part) true
  end.

Definition is_normal (c : Component) : bool := match c with Normal _ => true | _ => false end.

Definition sanitize_path (path : bytes) : result RestoreError bytes :=
  match safe_parts (split_slash path) [] false with
  | Some (rel, true) => if forallb is_normal (components rel) then Ok rel else Err (UnsafePath path)
  | _ => Err (UnsafePath path)
  end.

(** [target_dir.join(rel)], by its names below the target. *)
Definition names_of (rel : bytes) : list bytes :=
  omap (λ c, match c with Normal name => Some name | _ => None end) (components rel).

(** ** The run *)

Record RestoreTotals := { total_files : Z; total_bytes : Z }.

Section restore.
Context `{UlidPkg, Blake3Pkg, ZstdPkg, AeadPkg} {S : Type} `{!Busyncr S}.

Record RestoreReport := {
  report_snapshot_id : Ulid;
  report_files : Z;
  report_bytes : Z;
  chunks_fetched : Z;
}.

Record RestoreRequest := {
  req_snapshot_id : Ulid;
  key : DataKey;
  chunk_id_key : ChunkIdKey;
}.

(** The connection, the target, the faults to come, the report and the calls of
    [on_progress] so far. *)
Record Session := {
  client : S;
  tree : Tree;
  io_faults : list IoFault;
  report : RestoreReport;
  ticks : list (RestoreReport * RestoreTotals * bool);
}.
Abbreviation Run := (SE Session RestoreError).

Definition set_client (c : S) (s : Session) : Session :=
  {| client := c; tree := tree s; io_faults := io_faults s; report := report s; ticks := ticks s |}.
Definition set_tree (t : Tree) (s : Session) : Session :=
  {| client := client s; tree := t; io_faults := io_faults s; report := report s; ticks := ticks s |}.
Definition set_io_faults (l : list IoFault) (s : Session) : Session :=
  {| client := client s; tree := tree s; io_faults := l; report := report s; ticks := ticks s |}.
Definition set_report (r : RestoreReport) (s : Session) : Session :=
  {| client := client s; tree := tree s; io_faults := io_faults s; report := r; ticks := ticks s |}.

Definition on_progress (totals : RestoreTotals) (final : bool) : Run unit :=
  modify (λ s, {| client := client s; tree := tree s; io_faults := io_faults s; report := report s;
                  ticks := ticks s ++ [(report s, totals, final)] |}).

Definition add_report (files bytes chunks : Z) (r : RestoreReport) : RestoreReport := {|
  report_snapshot_id := report_snapshot_id r;
  report_files := u64_add (report_files r) files;
  report_bytes := u64_add (report_bytes r) bytes;
  chunks_fetched := u64_add (chunks_fetched r) chunks |}.
Definition count (files bytes chunks : Z) : Run unit :=
  modify (λ s, set_report (add_report files bytes chunks (report s)) s).

(** An RPC. *)
Definition call {A} (rpc : S → result Code A * S) : Run A := λ s,
  let '(r, c) := rpc (client s) in (map_err RestoreRpc r, set_client c s).

(** An operation on the target: [op] is what it does, [None] an error of its own;
    [partly] is what is left of it when it fails after some bytes. *)
Definition io {A} (op : Tree → option (A * Tree)) (partly : nat → Tree → Tree) : Run A := λ s,
  let s' := set_io_faults (tail (io_faults s)) s in
  match head (io_faults s) with
  | Some (Some n) => (Err RestoreIo, set_tree (partly n (tree s)) s')
  | _ => match op (tree s) with
         | Some (a, t) => (Ok a, set_tree t s')
         | None => (Err RestoreIo, s')
         end
  end.
Definition io_update (op : Tree → option Tree) : Run unit :=
  io (λ t, pair () <$> op t) (λ _ t, t).
Definition io_read {A} (f : Tree → A) : Run A := io (λ t, Some (f t, t)) (λ _ t, t).

(** Whether anything is below the target. *)
Definition has_entries (t : Tree) : bool := existsb (λ e, bool_decide (e.1 ≠ [])) (map_to_list t).

Definition ensure_empty_target : Run unit :=
  metadata ← io_read (λ t, t !! []);
  match metadata with
  | Some Directory =>
      nonempty ← io_read has_entries;
      if nonempty : bool then throw TargetNotEmpty else mret ()
  | Some (Regular _) => throw TargetNotEmpty
  | None => io_update (make_dirs [])
  end.

Definition parse_chunk_id (raw : bytes) : result RestoreError ChunkId :=
  ok_or RestoreBadResponse (array_of_list 32 raw).

(** A blob of the stream: decrypted, decoded and checked against its identity. *)
Definition verify_blob (req : RestoreRequest) (expected_id : ChunkId) (blob : ChunkBlob) :
    result RestoreError bytes :=
  got_id ← parse_chunk_id (blob_chunk_id blob);
  if decide (got_id ≠ expected_id) then Err RestoreBadResponse
  else
    framed ← map_err RestoreCrypto (decrypt_chunk (key req) expected_id (blob_data blob));
    plaintext ← map_err (CodecDecode expected_id) (decode_chunk framed);
    let actual_id := ChunkId_keyed (chunk_id_key req) plaintext in
    if decide (actual_id ≠ expected_id) then Err (ChunkIdMismatch expected_id actual_id)
    else Ok plaintext.

Section restore_file.
Context (req : RestoreRequest) (totals : RestoreTotals).

(** The loop body over a file's chunks: what the stream still holds, and the
    bytes written so far. *)
Definition fetch_one (out_path : list bytes) (acc : list (result Code ChunkBlob) * Z)
    (expected_id : ChunkId) : Run (list (result Code ChunkBlob) * Z) :=
  let '(stream, written) := acc in
  match stream with
  | [] => throw RestoreBadResponse
  | Err status :: _ => throw (RestoreRpc status)
  | Ok blob :: stream =>
      plaintext ← lift_result (verify_blob req expected_id blob);
      let append n := update_file (λ f, {|
        tf_content := tf_content f ++ take n plaintext; tf_mtime := None;
        tf_mode := tf_mode f; tf_synced := false |}) out_path in
      io (λ t, Some ((), append (length plaintext) t)) append;;
      count 0 (len plaintext) 1;;
      on_progress totals false;;
      mret (stream, u64_add written (len plaintext))
  end.

(** After the loop: [stream.message().await?.is_some()]. *)
Definition end_of_stream (stream : list (result Code ChunkBlob)) : result RestoreError () :=
  match stream with
  | [] => Ok ()
  | Err status :: _ => Err (RestoreRpc status)
  | Ok _ :: _ => Err RestoreBadResponse
  end.

(** [out.sync_all], [filetime::set_file_mtime] and [set_mode], which keeps the
    permission bits. *)
Definition finish_file (out_path : list bytes) (file : FileEntry) : Run unit :=
  let update g := io_update (λ t, Some (update_file g out_path t)) in
  update (λ f, {| tf_content := tf_content f; tf_mtime := tf_mtime f; tf_mode := tf_mode f;
                  tf_synced := true |});;
  update (λ f, {| tf_content := tf_content f; tf_mtime := Some (mtime_secs file, mtime_nanos file);
                  tf_mode := tf_mode f; tf_synced := tf_synced f |});;
  update (λ f, {| tf_content := tf_content f; tf_mtime := tf_mtime f;
                  tf_mode := Some (Z.land (mode file) 4095); tf_synced := tf_synced f |}).

(** The block [if !file.chunks.is_empty()]: the bytes written. *)
Definition fetch_chunks (out_path : list bytes) (ids : list ChunkId) : Run Z :=
  if decide (ids = []) then mret 0
  else
    stream ← call (rpc_get_chunks ((λ id, vec_to_list id) <$> ids));
    '(stream, written) ← foldM (fetch_one out_path) (stream, 0) ids;
    lift_result (end_of_stream stream);;
    mret written.

Definition restore_file (file : FileEntry) : Run Z :=
  rel ← lift_result (sanitize_path (path file));
  let out_path := names_of rel in
  io_update (make_dirs (removelast out_path));;
  io_update (create_file out_path);;
  written ← fetch_chunks out_path (chunks file);
  finish_file out_path file;;
  mret written.

(** The loop body over the files. *)
Definition restore_one (u : unit) (file : FileEntry) : Run unit :=
  written ← restore_file file;
  if decide (written ≠ size file) then throw (SizeMismatch (path file) (size file) written)
  else
    count 1 0 0;;
    on_progress totals false.
End restore_file.

Definition totals_of (m : Manifest) : RestoreTotals := {|
  total_files := len (files m);
  total_bytes := foldl u64_add 0 (size <$> files m) |}.

Definition empty_report (id : Ulid) : RestoreReport :=
  {| report_snapshot_id := id; report_files := 0; report_bytes := 0; chunks_fetched := 0 |}.

Definition start (server : S) (t : Tree) (faults : list IoFault) (id : Ulid) : Session := {|
  client := server; tree := t; io_faults := faults; report := empty_report id; ticks := [] |}.

(** [GetManifest], decrypted and decoded. *)
Definition fetch_manifest (req : RestoreRequest) : Run Manifest :=
  manifest_blob ← call (rpc_get_manifest (vec_to_list (Ulid_to_bytes (req_snapshot_id req))));
  manifest_plaintext ← lift_result (map_err RestoreCrypto
    (decrypt_manifest (key req) (req_snapshot_id req) manifest_blob));
  lift_result (map_err RestoreManifest (decode manifest_plaintext)).

Definition run_restore_with_progress (req : RestoreRequest) : Run RestoreReport :=
  ensure_empty_target;;
  manifest ← fetch_manifest req;
  let totals := totals_of manifest in
  foldM (restore_one req totals) () (files manifest);;
  on_progress totals true;;
  gets report.

Definition run_restore (req : RestoreRequest) (server : S) (t : Tree) (faults : list IoFault) :
    result RestoreError RestoreReport * Session :=
  run_restore_with_progress req (start server t faults (req_snapshot_id req)).
End restore.
