(* ===== verification/RestoreTheorems.v ===== *)
(** * What holds of the restore pipeline

    Whatever the server answers and wherever the file system fails, only verified
    bytes are written, and only below the target; a restore that succeeds has
    written the files of the manifest, whole. *)

From S2P Require Import Prelude External Text Chunking Manifest Compression Crypto Rpc Restore.

(** ** Paths *)

Lemma safe_parts_spec parts rel0 any :
  Forall (λ part, SLASH ∉ part) parts →
  safe_parts parts rel0 any =
    if decide (Forall name_wf parts) then Some (foldl push rel0 parts, any || bool_decide (parts ≠ []))
    else None.
Proof.
  intros Hs. revert rel0 any; induction Hs as [|part parts Hp Hs IH]; intros rel0 any.
  { cbn. by rewrite orb_false_r. }
  cbn [safe_parts]. destruct (decide (part = [] ∨ _)) as [Hd|Hd].
  - rewrite decide_False; [done|]. intros [(? & ? & ? & _) _]%Forall_cons. naive_solver.
  - rewrite IH. assert (name_wf part) as Hw by (unfold name_wf; naive_solver).
    destruct (decide (Forall name_wf parts)) as [Hf|Hf].
    + rewrite decide_True by by constructor. cbn [foldl]. do 2 f_equal.
      rewrite (bool_decide_true (part :: parts ≠ [])) by done. by rewrite orb_true_r.
    + rewrite decide_False; [done|]. by intros [_ ?]%Forall_cons.
Qed.

Lemma sanitize_path_Ok path rel :
  sanitize_path path = Ok rel ↔ Forall name_wf (split_slash path) ∧ rel = path.
Proof.
  unfold sanitize_path. rewrite safe_parts_spec by apply split_slash_parts.
  pose proof (split_slash_ne path) as Hne. destruct (decide (Forall name_wf (split_slash path))) as [Hf|Hf].
  2: { split; [done|]. by intros [? _]. }
  rewrite bool_decide_true by done. cbn [orb]. rewrite fold_push by done.
  rewrite components_join by done. rewrite join_split_slash.
  assert (forallb is_normal (Normal <$> split_slash path) = true) as ->.
  { apply forallb_forall. intros c Hc. apply list_elem_of_In, list_elem_of_fmap in Hc as (n & -> & _). done. }
  naive_solver.
Qed.

Lemma names_of_path path :
  Forall name_wf (split_slash path) → names_of path = split_slash path.
Proof.
  intros Hf. unfold names_of. rewrite <- (join_split_slash path) at 1.
  rewrite components_join by (by apply split_slash_ne || done).
  induction (split_slash path) as [|n ns IH]; [done|]. apply Forall_cons in Hf as [_ Hf]. cbn. by rewrite IH.
Qed.

(** C23. Path sanitation accepts exactly the paths whose parts between slashes
    are file names (not empty, neither [.] nor [..]), and leaves them as they are:
    joined to the target directory such a path names a file below it, one name for
    each part. *)
Theorem sanitize_path_spec path :
  match sanitize_path path with
  | Ok rel => Forall name_wf (split_slash path) ∧ rel = path ∧ components rel = Normal <$> split_slash path ∧
      names_of rel = split_slash path
  | Err e => e = UnsafePath path ∧ ¬ Forall name_wf (split_slash path)
  end.
Proof.
  destruct (sanitize_path path) as [rel|e] eqn:E.
  - apply sanitize_path_Ok in E as [Hf ->]. split_and!; [done..| |by apply names_of_path].
    rewrite <- (join_split_slash path) at 1. apply components_join; [apply split_slash_ne|done].
  - split.
    + unfold sanitize_path in E. destruct (safe_parts _ _ _) as [[rel [|]]|]; try by simplify_eq.
      by destruct (forallb _ _); simplify_eq.
    + intros Hf. assert (sanitize_path path = Ok path) by by apply sanitize_path_Ok. congruence.
Qed.

(** ** Trees *)

Lemma make_dir_Some t d t' q :
  make_dir t d = Some t' → t' !! d = Some Directory ∧
  (t' !! q = t !! q ∨ t !! q = None ∧ q = d).
Proof.
  unfold make_dir. destruct (t !! d) as [[|f]|] eqn:E; [|done|]; intros [= <-]; [by auto|].
  rewrite lookup_insert_eq. split; [done|]. destruct (decide (q = d)) as [->|Hn]; [by right|].
  left. by rewrite lookup_insert_ne.
Qed.

(** Directories have been added, and nothing else has changed. *)
Record dirs_added (t t' : Tree) : Prop := {
  added_regular q f : t' !! q = Some (Regular f) ↔ t !! q = Some (Regular f);
  added_directory q : t !! q = Some Directory → t' !! q = Some Directory;
}.

#[local] Instance dirs_added_preorder : PreOrder dirs_added.
Proof.
  split; [by intros t; split|]. intros a b c [R1 D1] [R2 D2]. split; [|auto].
  intros q f. by rewrite R2.
Qed.

Lemma make_dir_added t d t' : make_dir t d = Some t' → dirs_added t t' ∧ t' !! d = Some Directory.
Proof.
  intros Hm. destruct (make_dir_Some _ _ _ d Hm) as [Hd _]. split; [|done]. split.
  - intros q f. destruct (make_dir_Some _ _ _ q Hm) as [_ [->|[Hn ->]]]; [done|]. split; congruence.
  - intros q Hq. destruct (make_dir_Some _ _ _ q Hm) as [_ [->|[Hn ->]]]; done.
Qed.

Lemma make_dirs_list_added dirs t t' :
  foldM make_dir t dirs = Some t' → dirs_added t t' ∧ Forall (λ d, t' !! d = Some Directory) dirs.
Proof.
  revert t; induction dirs as [|d dirs IH]; intros t; [by intros [= <-]|].
  cbn [foldM]. intros (t1 & Hm & Hr)%bind_Some. apply make_dir_added in Hm as [Hm Hd].
  apply IH in Hr as [Hr Hds]. split; [by etrans|]. constructor; [|done]. by apply (added_directory _ _ Hr).
Qed.

Lemma make_dirs_added dir t t' :
  make_dirs dir t = Some t' → dirs_added t t' ∧ t' !! dir = Some Directory.
Proof.
  intros [Ha Hd]%make_dirs_list_added. split; [done|].
  apply (proj1 (Forall_forall _ _) Hd), list_elem_of_fmap. exists (length dir). split; [by rewrite firstn_all|].
  apply elem_of_seq. lia.
Qed.

Lemma create_file_regular p t t' :
  create_file p t = Some t' →
  (∃ f, t' !! p = Some (Regular f) ∧ tf_content f = []) ∧ ∀ q, q ≠ p → t' !! q = t !! q.
Proof.
  unfold create_file. destruct (t !! removelast p) as [[|]|]; [|done..].
  destruct (t !! p) as [[|f]|]; [done|..]; intros [= <-]; rewrite lookup_insert_eq;
    (split; [by eexists|]); intros; by rewrite lookup_insert_ne.
Qed.

Lemma update_file_lookup g p t q :
  update_file g p t !! q = if decide (q = p) then
    (λ e, match e with Regular f => Regular (g f) | Directory => Directory end) <$> t !! p
  else t !! q.
Proof.
  unfold update_file. destruct (decide (q = p)) as [->|Hn]; [by rewrite lookup_alter_eq|].
  by rewrite lookup_alter_ne.
Qed.

(** ** One file *)

Section restore_theorems.
Context `{UlidLaws, Blake3Pkg, ZstdLaws, AeadLaws} {S : Type} `{!Busyncr S} (req : RestoreRequest).
Abbreviation Session := (Session (S := S)).
Implicit Types (s : Session) (t : Tree) (p q : list bytes) (f g : TargetFile).

(** Bytes made of parts that hash to the given identities. *)
Definition verified (ids : list ChunkId) (d : bytes) : Prop :=
  ∃ plains, mjoin plains = d ∧ Forall2 (λ id plain, ChunkId_keyed (chunk_id_key req) plain = id) ids plains.

(** A file as far as it has been written, and one that is finished. *)
Definition partly (file : FileEntry) f : Prop :=
  ∃ ids d, ids `prefix_of` chunks file ∧ verified ids d ∧ tf_content f `prefix_of` d.

Definition complete (file : FileEntry) f : Prop :=
  verified (chunks file) (tf_content f) ∧ size file = len (tf_content f) mod 2 ^ 64 ∧
  tf_mtime f = Some (mtime_secs file, mtime_nanos file) ∧ tf_mode f = Some (Z.land (mode file) 4095) ∧
  tf_synced f = true.

Lemma verified_app ids id d plain :
  verified ids d → ChunkId_keyed (chunk_id_key req) plain = id → verified (ids ++ [id]) (d ++ plain).
Proof.
  intros (plains & <- & Hf) Hid. exists (plains ++ [plain]). rewrite join_app. cbn. rewrite app_nil_r.
  split; [done|]. apply Forall2_app; [done|]. by constructor.
Qed.

Lemma verified_nil : verified [] [].
Proof. by exists []. Qed.

Lemma complete_partly file f : complete file f → partly file f.
Proof. intros (Hv & _). by exists (chunks file), (tf_content f). Qed.

(** The files have stayed, but for one. *)
Definition others_kept t t' p : Prop :=
  ∀ q g, q ≠ p → t' !! q = Some (Regular g) ↔ t !! q = Some (Regular g).
Definition writes t t' p (P : TargetFile → Prop) : Prop :=
  (∃ f, t' !! p = Some (Regular f) ∧ P f) ∧ others_kept t t' p.

Lemma writes_mono t t' p (P Q : TargetFile → Prop) : writes t t' p P → (∀ f, P f → Q f) → writes t t' p Q.
Proof. intros [(f & ? & ?) ?] HPQ. split; [exists f; auto|done]. Qed.

Lemma writes_update t t' p (P Q : TargetFile → Prop) (g : TargetFile → TargetFile) :
  writes t t' p P → (∀ f, P f → Q (g f)) → writes t (update_file g p t') p Q.
Proof.
  intros [(f & Hf & HP) Ho] HPQ. split.
  - exists (g f). rewrite update_file_lookup, decide_True by done. rewrite Hf. by split; [|apply HPQ].
  - intros q h Hq. rewrite update_file_lookup, decide_False by done. by apply Ho.
Qed.

Lemma writes_create t t1 p t' (P : TargetFile → Prop) :
  dirs_added t t1 → create_file p t1 = Some t' → (∀ f, tf_content f = [] → P f) → writes t t' p P.
Proof.
  intros Ha [(f & Hf & He) Ho]%create_file_regular HP. split; [exists f; auto|].
  intros q g Hq. rewrite Ho by done. apply Ha.
Qed.

(** *** Steps *)

Lemma se_wp_io {A} (op : Tree → option (A * Tree)) cut (Q : result RestoreError A → Session → Prop) s :
  (∀ n s', tree s' = cut n (tree s) → Q (Err RestoreIo) s') →
  (∀ s', tree s' = tree s → Q (Err RestoreIo) s') →
  (∀ a t' s', op (tree s) = Some (a, t') → client s' = client s → tree s' = t' → Q (Ok a) s') →
  se_wp (io op cut) Q s.
Proof.
  intros Hcut Hfail Hok. unfold se_wp, io.
  destruct (head (io_faults s)) as [[n|]|]; [by apply (Hcut n)|..];
    destruct (op (tree s)) as [[a t']|]; try (by eapply Hok); by apply Hfail.
Qed.

Lemma se_wp_io_update (op : Tree → option Tree) (Q : result RestoreError unit → Session → Prop) s :
  (∀ s', tree s' = tree s → Q (Err RestoreIo) s') →
  (∀ t' s', op (tree s) = Some t' → client s' = client s → tree s' = t' → Q (Ok ()) s') →
  se_wp (io_update op) Q s.
Proof.
  intros Hfail Hok. apply se_wp_io; [by auto..|]. intros [] t' s' Hop.
  destruct (op (tree s)) as [t1|] eqn:E; [|done]. cbn in Hop. injection Hop as ->. by eapply Hok.
Qed.

Lemma restore_wp_count n b c (Q : result RestoreError unit → Session → Prop) s :
  (∀ s', tree s' = tree s → client s' = client s → Q (Ok ()) s') → se_wp (count n b c) Q s.
Proof. intros HQ. by apply se_wp_modify, HQ. Qed.

Lemma restore_wp_tick totals final (Q : result RestoreError unit → Session → Prop) s :
  (∀ s', tree s' = tree s → client s' = client s → Q (Ok ()) s') → se_wp (on_progress totals final) Q s.
Proof. intros HQ. by apply se_wp_modify, HQ. Qed.

Lemma restore_wp_call {A} (rpc : S → result Code A * S) (Q : result RestoreError A → Session → Prop) s :
  (∀ r c s', rpc (client s) = (r, c) → client s' = c → tree s' = tree s → Q (map_err RestoreRpc r) s') →
  se_wp (call rpc) Q s.
Proof. intros HQ. unfold se_wp, call. destruct (rpc (client s)) as [r c] eqn:E. by eapply HQ. Qed.

Lemma verify_blob_Ok id blob plain :
  verify_blob req id blob = Ok plain → ChunkId_keyed (chunk_id_key req) plain = id.
Proof.
  unfold verify_blob. intros (got & _ & Hv)%bind_Ok. destruct (decide (got ≠ id)); [done|].
  apply bind_Ok in Hv as (framed & _ & Hv). apply bind_Ok in Hv as (pl & _ & Hv).
  destruct (decide (_ ≠ id)) as [|Hn]; [done|]. injection Hv as ->. by apply dec_stable in Hn.
Qed.

(** The bytes of some chunks, and their number in the machine's word. *)
Definition written_so_far (ids : list ChunkId) (n : Z) f : Prop :=
  verified ids (tf_content f) ∧ n = len (tf_content f) mod 2 ^ 64.

Lemma written_partly file ids n f : ids `prefix_of` chunks file → written_so_far ids n f → partly file f.
Proof. intros Hp [Hv _]. by exists ids, (tf_content f). Qed.

(** What a step leaves behind, given what it promises of the file when it
    succeeds. *)
Definition file_step {A} t p (file : FileEntry) (P : A → TargetFile → Prop) (r : result RestoreError A) s : Prop :=
  match r with
  | Ok a => writes t (tree s) p (P a)
  | Err _ => writes t (tree s) p (partly file)
  end.

Lemma fetch_one_spec totals t p file pre id post stream n s :
  chunks file = pre ++ id :: post → writes t (tree s) p (written_so_far pre n) →
  se_wp (fetch_one req totals p (stream, n) id)
    (file_step t p file (λ '(_, n'), written_so_far (pre ++ [id]) n')) s.
Proof.
  intros Hids Hw. assert (pre `prefix_of` chunks file) as Hpre by (rewrite Hids; by apply prefix_app_r).
  assert (writes t (tree s) p (partly file)) as Hpart.
  { eapply writes_mono; [exact Hw|]. intros f. by apply written_partly. }
  unfold fetch_one. destruct stream as [|[blob|status] stream]; [by apply se_wp_throw| |by apply se_wp_throw].
  apply se_wp_bind, se_wp_lift. destruct (verify_blob req id blob) as [plain|err] eqn:Ev; [|done].
  apply verify_blob_Ok in Ev. apply se_wp_bind, se_wp_io.
  - intros k s' Ht. cbn [file_step]. rewrite Ht. eapply writes_update; [exact Hw|]. intros f [Hv _].
    exists (pre ++ [id]), (tf_content f ++ plain). cbn. split_and!.
    + rewrite Hids. apply prefix_app, prefix_cons, prefix_nil.
    + by apply verified_app.
    + apply prefix_app. rewrite <- (take_drop k plain) at 2. by apply prefix_app_r.
  - intros s' Ht. cbn [file_step]. by rewrite Ht.
  - intros [] t' s' [= <-] _ Ht. apply se_wp_bind, restore_wp_count. intros s1 Ht1 _.
    apply se_wp_bind, restore_wp_tick. intros s2 Ht2 _. apply se_wp_ret. cbn [file_step].
    rewrite Ht2, Ht1, Ht. eapply writes_update; [exact Hw|]. intros f [Hv ->]. cbn.
    rewrite firstn_all. split; cbn [tf_content]; [by apply verified_app|].
    unfold u64_add. rewrite len_app, Zplus_mod_idemp_l. done.
Qed.

Lemma fetch_all_spec totals t p file stream s :
  writes t (tree s) p (written_so_far [] 0) →
  se_wp (foldM (fetch_one req totals p) (stream, 0) (chunks file))
    (file_step t p file (λ '(_, n), written_so_far (chunks file) n)) s.
Proof.
  intros Hw. apply (se_wp_foldM _ _ (λ '(_, n) pre post s', chunks file = pre ++ post ∧
    writes t (tree s') p (written_so_far pre n))); [done| |].
  - intros [str n] id pre post s1 [Hids Hw1]. eapply se_wp_mono; [by eapply fetch_one_spec|].
    intros [[str' n']|err] s2 Hs2; [|done]. split; [by rewrite <- app_assoc|exact Hs2].
  - intros [str n] s1 [_ Hw1]. exact Hw1.
Qed.

Lemma finish_file_spec t p file n s :
  writes t (tree s) p (written_so_far (chunks file) n) →
  se_wp (finish_file p file) (file_step t p file (λ _ f,
    written_so_far (chunks file) n f ∧ tf_mtime f = Some (mtime_secs file, mtime_nanos file) ∧
    tf_mode f = Some (Z.land (mode file) 4095) ∧ tf_synced f = true)) s.
Proof.
  intros Hw. assert (∀ P : TargetFile → Prop, (∀ f, P f → written_so_far (chunks file) n f) →
    ∀ t', writes t t' p P → writes t t' p (partly file)) as Hpart.
  { intros P HP t' Hw'. eapply writes_mono; [exact Hw'|]. intros f Hf. by eapply written_partly, HP. }
  unfold finish_file. apply se_wp_bind, se_wp_io_update; [by intros s' Ht; cbn [file_step]; rewrite Ht; eapply Hpart, Hw; auto|].
  intros t1 s1 [= <-] _ Ht1. eapply (writes_update _ _ _ _ (λ f, written_so_far (chunks file) n f ∧ tf_synced f = true)) in Hw;
    [rewrite <- Ht1 in Hw|by intros f [? ?]].
  apply se_wp_bind, se_wp_io_update; [by intros s' Ht; cbn [file_step]; rewrite Ht; eapply Hpart, Hw; naive_solver|].
  intros t2 s2 [= <-] _ Ht2. eapply (writes_update _ _ _ _ (λ f, written_so_far (chunks file) n f ∧ tf_synced f = true ∧
    tf_mtime f = Some (mtime_secs file, mtime_nanos file))) in Hw;
    [rewrite <- Ht2 in Hw|by intros f [[? ?] ?]].
  apply se_wp_io_update; [by intros s' Ht; cbn [file_step]; rewrite Ht; eapply Hpart, Hw; naive_solver|].
  intros t3 s3 [= <-] _ Ht3. cbn [file_step]. rewrite Ht3. eapply writes_update; [exact Hw|].
  by intros f ([? ?] & ? & ?).
Qed.


Definition same_files t t' : Prop := ∀ q g, t' !! q = Some (Regular g) ↔ t !! q = Some (Regular g).

(** Where a file goes. *)
Definition place (file : FileEntry) : list bytes := split_slash (path file).

Lemma restore_file_spec totals file s :
  se_wp (restore_file req totals file) (λ r s', match r with
    | Ok n => Forall name_wf (place file) ∧ writes (tree s) (tree s') (place file) (λ f,
        written_so_far (chunks file) n f ∧ tf_mtime f = Some (mtime_secs file, mtime_nanos file) ∧
        tf_mode f = Some (Z.land (mode file) 4095) ∧ tf_synced f = true)
    | Err _ => same_files (tree s) (tree s') ∨
        Forall name_wf (place file) ∧ writes (tree s) (tree s') (place file) (partly file)
    end) s.
Proof.
  unfold restore_file. apply se_wp_bind, se_wp_lift.
  destruct (sanitize_path (path file)) as [rel|err] eqn:Ep; [|by left].
  apply sanitize_path_Ok in Ep as [Hp ->]. rewrite names_of_path by done. fold (place file) in *.
  apply se_wp_bind, se_wp_io_update; [by intros s' ->; left|]. intros t1 s1 [Ha _]%make_dirs_added _ Ht1.
  apply se_wp_bind, se_wp_io_update; [intros s' ->; left; rewrite Ht1; intros q g; apply Ha|].
  intros t2 s2 Hcr _ Ht2. rewrite Ht1 in Hcr.
  assert (writes (tree s) (tree s2) (place file) (written_so_far [] 0)) as Hw.
  { rewrite Ht2. eapply writes_create; [done..|]. intros f Hf. unfold written_so_far. rewrite Hf. by split; [exists []|]. }
  apply se_wp_bind. apply (se_wp_mono _ (file_step (tree s) (place file) file (written_so_far (chunks file)))).
  - unfold fetch_chunks. destruct (decide (chunks file = [])) as [Hn|Hn]; [apply se_wp_ret; by rewrite Hn|].
    apply se_wp_bind, restore_wp_call. intros r c s3 _ _ Ht3. destruct r as [stream|code]; cbn [map_err].
    2: { cbn [file_step]. rewrite Ht3. eapply writes_mono; [exact Hw|]. intros f. apply written_partly, prefix_nil. }
    apply se_wp_bind. eapply se_wp_mono; [by apply fetch_all_spec; rewrite Ht3|].
    intros [[str n]|err] s4 Hs4; [|exact Hs4]. apply se_wp_bind, se_wp_lift.
    destruct (end_of_stream str) as [[]|err]; [apply se_wp_ret; exact Hs4|].
    eapply writes_mono; [exact Hs4|]. intros f. by apply written_partly.
  - intros [n|err] s3 Hs3; [|by right]. apply se_wp_bind. eapply se_wp_mono; [by eapply finish_file_spec|].
    intros [[]|err] s4 Hs4; [|by right]. apply se_wp_ret. split; [done|exact Hs4].
Qed.

Lemma restore_one_spec totals u file s :
  se_wp (restore_one req totals u file) (λ r s', match r with
    | Ok _ => Forall name_wf (place file) ∧ writes (tree s) (tree s') (place file) (complete file)
    | Err _ => same_files (tree s) (tree s') ∨
        Forall name_wf (place file) ∧ writes (tree s) (tree s') (place file) (partly file)
    end) s.
Proof.
  unfold restore_one. apply se_wp_bind. eapply se_wp_mono; [apply restore_file_spec|].
  intros [n|err] s1 Hs1; [|exact Hs1]. destruct Hs1 as [Hp Hw]. destruct (decide (n ≠ size file)) as [Hn|Hn%dec_stable].
  - apply se_wp_throw. right. split; [done|]. eapply writes_mono; [exact Hw|]. intros f [? _]. by eapply written_partly.
  - apply se_wp_bind, restore_wp_count. intros s2 Ht2 _. apply restore_wp_tick. intros s3 Ht3 _. rewrite Ht3, Ht2.
    split; [done|]. eapply writes_mono; [exact Hw|]. intros f ([Hv ->] & Hm & Hmo & Hsy). done.
Qed.

(** ** All files *)

(** The last entry for a place is the one that stays. *)
Definition last_at (entries : list FileEntry) q : option FileEntry :=
  last (filter (λ e, place e = q) entries).

Definition holds (entries : list FileEntry) t : Prop := ∀ q,
  match last_at entries q with
  | Some e => Forall name_wf q ∧ ∃ f, t !! q = Some (Regular f) ∧ complete e f
  | None => ∀ f, t !! q ≠ Some (Regular f)
  end.

(** Every file is some entry's, verified as far as it goes. *)
Definition holds_partly (entries : list FileEntry) t : Prop := ∀ q f,
  t !! q = Some (Regular f) → ∃ e, e ∈ entries ∧ place e = q ∧ Forall name_wf q ∧ partly e f.

Lemma last_at_elem entries q e : last_at entries q = Some e → e ∈ entries ∧ place e = q.
Proof. intros H'%last_Some_elem_of. apply list_elem_of_filter in H'. naive_solver. Qed.

Lemma last_at_snoc entries e q :
  last_at (entries ++ [e]) q = if decide (place e = q) then Some e else last_at entries q.
Proof.
  unfold last_at. rewrite filter_app, filter_cons, filter_nil. destruct (decide (place e = q)).
  - by rewrite last_snoc.
  - by rewrite app_nil_r.
Qed.

Lemma holds_holds_partly entries more t : holds entries t → holds_partly (entries ++ more) t.
Proof.
  intros Hh q f Hf. specialize (Hh q). destruct (last_at entries q) as [e|] eqn:E; [|by destruct (Hh f)].
  apply last_at_elem in E as [He Hq]. destruct Hh as (Hw & g & Hg & Hc). exists e.
  split_and!; [by apply elem_of_app; left|done|done|]. replace f with g by congruence. by apply complete_partly.
Qed.

Lemma holds_snoc entries e t t' :
  Forall name_wf (place e) → holds entries t → writes t t' (place e) (complete e) → holds (entries ++ [e]) t'.
Proof.
  intros Hp Hh [Hf Ho] q. rewrite last_at_snoc. destruct (decide (place e = q)) as [<-|Hq]; [done|].
  specialize (Hh q). destruct (last_at entries q) as [e'|].
  - destruct Hh as (Hw & f & Hf' & Hc). split; [done|]. exists f. split; [|done]. by apply Ho.
  - intros f Hf'. apply (Hh f). by apply Ho.
Qed.

Lemma holds_partly_step entries e t t' :
  Forall name_wf (place e) → holds_partly entries t → e ∈ entries → writes t t' (place e) (partly e) →
  holds_partly entries t'.
Proof.
  intros Hp Hh He [(f & Hf & Hpf) Ho] q g Hg. destruct (decide (q = place e)) as [->|Hq].
  - exists e. replace g with f by congruence. done.
  - apply Hh. by apply Ho.
Qed.

Lemma restore_all_spec totals entries s :
  holds [] (tree s) →
  se_wp (foldM (restore_one req totals) () entries) (λ r s', match r with
    | Ok _ => holds entries (tree s')
    | Err _ => holds_partly entries (tree s')
    end) s.
Proof.
  intros Hh. apply (se_wp_foldM _ _ (λ _ pre post s', entries = pre ++ post ∧ holds pre (tree s'))); [done| |].
  - intros u e pre post s1 [He Hh1]. eapply se_wp_mono; [apply restore_one_spec|]. cbn beta.
    intros [[]|err] s2 Hs2.
    + destruct Hs2 as [Hp Hw]. split; [by rewrite <- app_assoc|]. by eapply holds_snoc.
    + apply (holds_holds_partly _ (e :: post)) in Hh1. rewrite <- He in Hh1.
      destruct Hs2 as [Hsame|[Hp Hw]]; [intros q f Hf; by apply Hh1, Hsame|].
      eapply holds_partly_step; [done..| |exact Hw]. rewrite He. apply elem_of_app. right. by left.
  - by intros u s1 [_ ?].
Qed.

(** ** The run *)

(** Below a directory that is missing there is nothing. *)
Definition tree_wf t : Prop := t !! [] = None → t = ∅.
(** Nothing is there, but for the directory itself. *)
Definition empty_target t : Prop := ∀ q, t !! q = None ∨ q = [] ∧ t !! q = Some Directory.

Lemma has_entries_false t : has_entries t = false ↔ ∀ q, q ≠ [] → t !! q = None.
Proof.
  unfold has_entries. rewrite <- not_true_iff_false, existsb_exists. split.
  - intros Hn q Hq. destruct (t !! q) as [e|] eqn:E; [|done]. destruct Hn. exists (q, e).
    split; [by apply list_elem_of_In, elem_of_map_to_list|]. by apply bool_decide_eq_true.
  - intros Hq ([q e] & Hin & Hb%bool_decide_eq_true). apply list_elem_of_In, elem_of_map_to_list in Hin.
    specialize (Hq _ Hb). cbn in *. congruence.
Qed.

Lemma ensure_empty_target_spec s :
  tree_wf (tree s) →
  se_wp ensure_empty_target (λ r s', match r with
    | Ok _ => empty_target (tree s) ∧ client s' = client s ∧ tree s' = <[[] := Directory]> (tree s)
    | Err _ => tree s' = tree s
    end) s.
Proof.
  intros Hwf. unfold ensure_empty_target, io_read. apply se_wp_bind, se_wp_io; [done..|].
  intros m t1 s1 [= <- <-] Hc1 Ht1. rewrite <- Ht1 in *. clear Ht1. destruct (tree s1 !! []) as [[|g]|] eqn:E.
  - apply se_wp_bind, se_wp_io; [done..|]. intros ne t2 s2 [= <- <-] Hc2 Ht2.
    destruct (has_entries (tree s1)) eqn:Eh; [by apply se_wp_throw|]. apply se_wp_ret. rewrite has_entries_false in Eh.
    split_and!; [|congruence|by rewrite Ht2, insert_id].
    intros q. destruct (decide (q = [])) as [->|Hq]; [by right|left; auto].
  - by apply se_wp_throw.
  - apply se_wp_io_update; [done|]. intros t2 s2 Hm Hc2 Ht2. specialize (Hwf E). split_and!; [|congruence|].
    + intros q. left. by rewrite Hwf.
    + rewrite Ht2. unfold make_dirs in Hm. cbn in Hm. unfold make_dir in Hm. rewrite E in Hm. by injection Hm as <-.
Qed.

(** What the server answers when asked for the manifest. *)
Definition manifest_of (server : S) (m : Manifest) : Prop :=
  ∃ blob c plain, rpc_get_manifest (vec_to_list (Ulid_to_bytes (req_snapshot_id req))) server = (Ok blob, c) ∧
    decrypt_manifest (key req) (req_snapshot_id req) blob = Ok plain ∧ decode plain = Ok m.

Lemma fetch_manifest_spec s :
  se_wp (fetch_manifest req) (λ r s', tree s' = tree s ∧
    match r with Ok m => manifest_of (client s) m | Err _ => True end) s.
Proof.
  unfold fetch_manifest. apply se_wp_bind, restore_wp_call. intros r c s1 Hr _ Ht. destruct r as [blob|]; [|done].
  apply se_wp_bind, se_wp_lift. destruct (decrypt_manifest _ _ _) as [plain|] eqn:Ed; [|done].
  apply se_wp_lift. destruct (decode plain) as [m|] eqn:Em; [|done]. split; [done|]. by exists blob, c, plain.
Qed.

Lemma run_restore_spec server t faults :
  tree_wf t →
  se_wp (run_restore_with_progress req) (λ r s', match r with
    | Ok _ => empty_target t ∧ ∃ m, manifest_of server m ∧ holds (files m) (tree s')
    | Err _ => tree s' = t ∨ empty_target t ∧
        ((∀ q g, tree s' !! q ≠ Some (Regular g)) ∨ ∃ m, manifest_of server m ∧ holds_partly (files m) (tree s'))
    end) (start server t faults (req_snapshot_id req)).
Proof.
  intros Hwf. unfold run_restore_with_progress. apply se_wp_bind.
  eapply se_wp_mono; [by apply ensure_empty_target_spec|]. cbn beta. intros [[]|err] s1; [|by left].
  cbn [tree client start]. intros (Hempty & Hc & Ht).
  assert (∀ q g, tree s1 !! q ≠ Some (Regular g)) as Hno.
  { intros q g. rewrite Ht. intros [[_ [=]]|[_ Hq]]%lookup_insert_Some. destruct (Hempty q) as [?|[_ ?]]; congruence. }
  apply se_wp_bind. eapply se_wp_mono; [apply fetch_manifest_spec|]. cbn beta. rewrite Hc.
  intros [m|err] s2 [Ht2 Hm]; [|right; split; [done|left; by rewrite Ht2]].
  apply se_wp_bind. eapply se_wp_mono; [apply restore_all_spec; rewrite Ht2; exact Hno|].
  intros [[]|err] s3 Hh; [|by right; split; [done|]; right; exists m].
  apply se_wp_bind, restore_wp_tick. intros s4 Ht4 _. apply se_wp_gets. split; [done|]. exists m. by rewrite Ht4.
Qed.

(** C5. Whatever the server answers and wherever the file system fails: a
    restore that succeeds has found the target empty and written the files of the
    snapshot's manifest below it, each with its declared size, made of parts that
    hash to its chunk identities, with its modification time and permissions, and
    no other file.  One that fails has left the target as it was, or found it
    empty, and then every file in it is at the place of a manifest entry and holds
    nothing but verified bytes of it, from the start on. *)
Theorem restore_is_verified server t faults r s' :
  tree_wf t → run_restore req server t faults = (r, s') →
  match r with
  | Ok _ => empty_target t ∧ ∃ m, manifest_of server m ∧ holds (files m) (tree s')
  | Err _ => tree s' = t ∨ empty_target t ∧
      ((∀ q g, tree s' !! q ≠ Some (Regular g)) ∨ ∃ m, manifest_of server m ∧ holds_partly (files m) (tree s'))
  end.
Proof.
  intros Hwf Hr. pose proof (run_restore_spec server t faults Hwf) as Hw. unfold se_wp in Hw.
  unfold run_restore in Hr. by rewrite Hr in Hw.
Qed.
End restore_theorems.

(** ** Examples *)

Module Examples.
Import Reference MemoryServer.

Lemma sanitize_path_examples :
  sanitize_path <$> [str "data/sub/file.txt"; str "../etc/passwd"; str "/etc/passwd"; str "data/../../escape";
                     str ""; str "data//double"] =
  [Ok (str "data/sub/file.txt"); Err (UnsafePath (str "../etc/passwd")); Err (UnsafePath (str "/etc/passwd"));
   Err (UnsafePath (str "data/../../escape")); Err (UnsafePath []); Err (UnsafePath (str "data//double"))].
Proof. vm_compute. reflexivity. Qed.

Definition request : RestoreRequest := {|
  req_snapshot_id := (vreplicate 16 x01 : @Ulid ulid); key := vreplicate 32 x41;
  chunk_id_key := vreplicate 32 x42 |}.

(** A snapshot with the file [a/b] of one chunk, and the blob that a server
    hands out for it. *)
Definition id : ChunkId := ChunkId_keyed (vreplicate 32 x42) (str "hello").
Definition entry : FileEntry := {|
  path := str "a/b"; size := 5; mtime_secs := 7; mtime_nanos := 8; mode := 33188; chunks := [id] |}.
Definition sealed (r : result CryptoError bytes * Z) : bytes := default [] (result_ok r.1).
Definition manifest_blob : bytes := sealed (encrypt_manifest (vreplicate 32 x41) (vreplicate 16 x01 : @Ulid ulid)
  (default [] (result_ok (encode {| snapshot_id := (vreplicate 16 x01 : @Ulid ulid); created_at := 3;
                                    files := [entry] |}))) 1).
Definition server (plain : bytes) : StoreSpec.AStore := {|
  StoreSpec.a_chunks := {[ id := sealed (encrypt_chunk (vreplicate 32 x41) id (frame Raw plain) 2) ]};
  StoreSpec.a_snaps := {[ vreplicate 16 x01 := {| StoreSpec.s_blob := manifest_blob;
    StoreSpec.s_refs := [id]; StoreSpec.s_owner := None |} ]};
  StoreSpec.a_marks := ∅ |}.

Lemma tree_wf_empty : tree_wf ∅.
Proof. done. Qed.

(** The file is there and whole; a server with other bytes under the same
    identity is found out. *)
Lemma restore_is_verified_witness :
  (∃ m, manifest_of request (server (str "hello")) m ∧
     holds request (files m) (tree (run_restore request (server (str "hello")) ∅ []).2)) ∧
  (run_restore request (server (str "jello")) ∅ []).1 =
    Err (ChunkIdMismatch id (ChunkId_keyed (vreplicate 32 x42) (str "jello"))).
Proof.
  split; [|vm_compute; reflexivity].
  assert (is_ok (run_restore request (server (str "hello")) ∅ []).1 = true) as Hok by (vm_compute; reflexivity).
  destruct (run_restore request (server (str "hello")) ∅ []) as [r s'] eqn:E. cbn [fst snd] in *.
  pose proof (restore_is_verified request (server (str "hello")) ∅ [] r s' tree_wf_empty E) as Hv.
  destruct r as [report|]; [|discriminate Hok]. exact (proj2 Hv).
Defined.
End Examples.
