(* ===== verification/RestoreLawful.v ===== *)
(** * Restoring from a server without faults

    Over a server that keeps the laws of [Rpc], on a file system that does not
    fail, a restore of a snapshot whose chunks all open writes every file of its
    manifest: no file is in the way of another, and the bytes are those that the
    blobs open to. *)

From S2P Require Import Prelude External Text Chunking Manifest Compression Crypto StoreSpec Rpc Restore RestoreTheorems.

(** ** Trees without obstacles *)

(** A directory on the way to [p]. *)
Definition above (q p : list bytes) : Prop := ∃ n, (n < length p)%nat ∧ q = take n p.

Lemma above_cons q p : above q p ↔ ∃ k, k ≠ [] ∧ p = q ++ k.
Proof.
  split.
  - intros (n & Hn & ->). exists (drop n p). rewrite take_drop. split; [|done].
    intros Hd. apply (f_equal length) in Hd. rewrite length_drop in Hd. cbn in Hd. lia.
  - intros (k & Hk & ->). exists (length q). rewrite take_app_length, length_app. split; [|done].
    destruct k; [done|]. cbn. lia.
Qed.

Lemma make_dirs_list_total (dirs : list (list bytes)) (t : Tree) :
  Forall (λ d, ∀ f, t !! d ≠ Some (Regular f)) dirs →
  ∃ t', foldM make_dir t dirs = Some t' ∧ ∀ q, t' !! q = Some Directory → t !! q = Some Directory ∨ q ∈ dirs.
Proof.
  revert t; induction dirs as [|d dirs IH]; intros t; [by exists t; auto|].
  intros [Hd Hds]%Forall_cons. cbn [foldM].
  destruct (make_dir t d) as [t1|] eqn:E.
  - destruct (make_dir_added _ _ _ E) as [Ha _]. destruct (IH t1) as (t' & Ht' & Hq).
    { eapply Forall_impl; [exact Hds|]. intros x Hx f Hf. by apply (Hx f), Ha. }
    exists t'. split; [done|]. intros q [Hq1|Hin]%Hq; [|by right; right].
    destruct (make_dir_Some _ _ _ q E) as [_ [<-|[_ ->]]]; [by left|right; by left].
  - unfold make_dir in E. destruct (t !! d) as [[|f]|] eqn:El; [done| |done]. by destruct (Hd f).
Qed.

Lemma make_dirs_total (dir : list bytes) (t : Tree) :
  (∀ n f, (n ≤ length dir)%nat → t !! take n dir ≠ Some (Regular f)) →
  ∃ t', make_dirs dir t = Some t' ∧
    ∀ q, t' !! q = Some Directory → t !! q = Some Directory ∨ ∃ n, (n ≤ length dir)%nat ∧ q = take n dir.
Proof.
  intros Hd. destruct (make_dirs_list_total ((λ n, take n dir) <$> seq 0 (S (length dir))) t) as (t' & Ht' & Hq).
  { apply Forall_fmap, Forall_forall. intros n Hn f. apply elem_of_seq in Hn. apply Hd. lia. }
  exists t'. split; [exact Ht'|]. intros q [?|Hin]%Hq; [by left|]. right.
  apply list_elem_of_fmap in Hin as (n & -> & Hn). apply elem_of_seq in Hn. exists n. split; [lia|done].
Qed.

(** Nothing is in the way of a file at [p]. *)
Definition clear_for (t : Tree) (p : list bytes) : Prop :=
  p ≠ [] ∧ t !! p ≠ Some Directory ∧ ∀ q f, above q p → t !! q ≠ Some (Regular f).

Lemma take_removelast {A} n (p : list A) : (n ≤ length (removelast p))%nat → take n (removelast p) = take n p.
Proof.
  destruct p as [|y l _] using rev_ind; [done|]. rewrite removelast_last. intros Hn.
  symmetry. by apply take_app_le.
Qed.

Lemma length_removelast {A} (p : list A) : p ≠ [] → (length (removelast p) < length p)%nat.
Proof.
  destruct p as [|y l _] using rev_ind; [done|]. intros _. rewrite removelast_last, length_app. cbn. lia.
Qed.

Lemma clear_for_create t p :
  clear_for t p →
  ∃ t1 t2, make_dirs (removelast p) t = Some t1 ∧ create_file p t1 = Some t2 ∧ dirs_added t t1 ∧
    ∀ q, t2 !! q = Some Directory → t !! q = Some Directory ∨ above q p.
Proof.
  intros (Hne & Hnd & Hup). pose proof (length_removelast p Hne) as Hlen.
  destruct (make_dirs_total (removelast p) t) as (t1 & Ht1 & Hq).
  { intros n f Hn. rewrite take_removelast by done. apply Hup. exists n. split; [lia|done]. }
  assert (∀ q, t1 !! q = Some Directory → t !! q = Some Directory ∨ above q p) as Hq'.
  { intros q [?|(n & Hn & ->)]%Hq; [by left|right]. rewrite take_removelast by done. exists n. split; [lia|done]. }
  destruct (make_dirs_added _ _ _ Ht1) as [Ha Hpar].
  assert (t1 !! p ≠ Some Directory) as Hnd1.
  { intros [?|(n & Hn & Heq)]%Hq'; [done|]. apply (f_equal length) in Heq. rewrite length_take in Heq. lia. }
  exists t1. unfold create_file. rewrite Hpar. destruct (t1 !! p) as [[|g]|] eqn:E; [done|..];
    (eexists; split_and!; [done..|]; intros q; destruct (decide (q = p)) as [->|Hqp];
     [by rewrite lookup_insert_eq|rewrite lookup_insert_ne by done; apply Hq']).
Qed.

(** ** Runs without faults *)

Section lawful.
Context `{UlidLaws, Blake3Pkg, ZstdLaws, AeadLaws} {S : Type} `{!Busyncr S, !BusyncrLaws S}
  (req : RestoreRequest) (a : AStore).
Abbreviation Session := (Session (S := S)).
Implicit Types (s : Session) (t : Tree) (p q : list bytes) (f : TargetFile).

Definition healthy s : Prop := io_faults s = [] ∧ serves (client s) a.

Lemma se_wp_io_ok {A} (op : Tree → option (A * Tree)) cut (Q : result RestoreError A → Session → Prop) s x t :
  healthy s → op (tree s) = Some (x, t) → (∀ s', healthy s' → tree s' = t → Q (Ok x) s') →
  se_wp (io op cut) Q s.
Proof. intros [Hf Hs] Hop HQ. unfold se_wp, io. rewrite Hf. cbn. rewrite Hop. by apply HQ. Qed.

Lemma se_wp_io_update_ok (op : Tree → option Tree) (Q : result RestoreError unit → Session → Prop) s t :
  healthy s → op (tree s) = Some t → (∀ s', healthy s' → tree s' = t → Q (Ok ()) s') →
  se_wp (io_update op) Q s.
Proof. intros Hs Hop HQ. eapply se_wp_io_ok; [done|by rewrite Hop|done]. Qed.

Lemma se_wp_count_ok n b c (Q : result RestoreError unit → Session → Prop) s :
  healthy s → (∀ s', healthy s' → tree s' = tree s → Q (Ok ()) s') → se_wp (count n b c) Q s.
Proof. intros Hs HQ. by apply se_wp_modify, HQ. Qed.

Lemma se_wp_tick_ok totals final (Q : result RestoreError unit → Session → Prop) s :
  healthy s → (∀ s', healthy s' → tree s' = tree s → Q (Ok ()) s') → se_wp (on_progress totals final) Q s.
Proof. intros Hs HQ. by apply se_wp_modify, HQ. Qed.

(** An RPC that a law says succeeds. *)
Lemma se_wp_call_ok {A} (rpc : S → result Code A * S) (Q : result RestoreError A → Session → Prop) s x c :
  healthy s → rpc (client s) = (Ok x, c) → serves c a →
  (∀ s', healthy s' → tree s' = tree s → Q (Ok x) s') → se_wp (call rpc) Q s.
Proof. intros [Hf Hs] Hrpc Hc HQ. unfold se_wp, call. rewrite Hrpc. by apply HQ. Qed.

(** A chunk that the store has and that opens to [plain]. *)
Definition delivers id (bp : bytes * bytes) : Prop :=
  a_chunks a !! id = Some bp.1 ∧ ChunkId_keyed (chunk_id_key req) bp.2 = id ∧
  ∃ framed, decrypt_chunk (key req) id bp.1 = Ok framed ∧ decode_chunk framed = Ok bp.2.

Lemma verify_blob_delivers id bp : delivers id bp → verify_blob req id (wire_blob (id, bp.1)) = Ok bp.2.
Proof.
  intros (_ & Hid & framed & Hd & Hp). unfold verify_blob, parse_chunk_id. cbn [wire_blob blob_chunk_id blob_data fst snd].
  unfold wire_id. rewrite array_of_vec. cbn [ok_or mbind result_bind]. rewrite decide_False by naive_solver.
  rewrite Hd. cbn [map_err mbind result_bind]. rewrite Hp. cbn [map_err mbind result_bind].
  by rewrite decide_False by naive_solver.
Qed.

Lemma update_file_insert (g : TargetFile → TargetFile) p t f :
  t !! p = Some (Regular f) → update_file g p t = <[p := Regular (g f)]> t.
Proof.
  intros Hp. apply map_eq. intros q. rewrite update_file_lookup. destruct (decide (q = p)) as [->|Hq].
  - by rewrite Hp, lookup_insert_eq.
  - by rewrite lookup_insert_ne.
Qed.

(** The chunks of a file, appended in order. *)
Lemma fetch_all_ok totals p ids bps n s f :
  healthy s → tree s !! p = Some (Regular f) → Forall2 delivers ids bps → 0 ≤ n < 2 ^ 64 →
  se_wp (foldM (fetch_one req totals p) ((λ b, Ok (wire_blob b)) <$> zip ids bps.*1, n) ids) (λ r s',
    r = Ok ([], (n + len (mjoin bps.*2)) mod 2 ^ 64) ∧ healthy s' ∧ ∃ f', tf_content f' = tf_content f ++ mjoin bps.*2 ∧
    tree s' = <[p := Regular f']> (tree s)) s.
Proof.
  intros Hs Hp Hall. revert n s f Hs Hp. induction Hall as [|id bp ids bps Hb _ IH]; intros n s f Hs Hp Hn.
  { apply se_wp_ret. cbn. rewrite Z.add_0_r, Z.mod_small by done. split_and!; [done..|].
    exists f. rewrite app_nil_r. split; [done|]. by rewrite insert_id. }
  cbn [foldM fmap list_fmap zip zip_with]. apply se_wp_bind. unfold fetch_one at 1. cbn [fst].
  apply se_wp_bind, se_wp_lift. rewrite (verify_blob_delivers _ _ Hb).
  apply se_wp_bind. eapply se_wp_io_ok; [done|done|]. intros s1 Hs1 Ht1. cbn beta in Ht1.
  apply se_wp_bind, se_wp_count_ok; [done|]. intros s2 Hs2 Ht2.
  apply se_wp_bind, se_wp_tick_ok; [done|]. intros s3 Hs3 Ht3. apply se_wp_ret.
  rewrite (update_file_insert _ _ _ _ Hp) in Ht1. rewrite firstn_all in Ht1.
  assert (tree s3 !! p = Some (Regular {| tf_content := tf_content f ++ bp.2; tf_mtime := None;
    tf_mode := tf_mode f; tf_synced := false |})) as Hp3 by (by rewrite Ht3, Ht2, Ht1, lookup_insert_eq).
  assert (0 ≤ u64_add n (len bp.2) < 2 ^ 64) as Hn3 by (apply Z.mod_pos_bound; done).
  eapply se_wp_mono; [by apply (IH _ s3 _ Hs3 Hp3 Hn3)|]. cbn beta. intros r s4 (-> & Hs4 & f' & Hf' & Ht4).
  split_and!; [|done|].
  - unfold u64_add. rewrite Zplus_mod_idemp_l. cbn [mjoin list_join]. rewrite len_app. by rewrite Z.add_assoc.
  - exists f'. cbn [tf_content] in Hf'. split; [rewrite Hf'; cbn; by rewrite <- app_assoc|].
    by rewrite Ht4, Ht3, Ht2, Ht1, insert_insert_eq.
Qed.

(** An entry whose chunks the store has, and which make up [d]. *)
Definition deliverable (e : FileEntry) (d : bytes) : Prop :=
  Forall name_wf (place e) ∧ size e = len d mod 2 ^ 64 ∧
  ∃ bps, Forall2 delivers (chunks e) bps ∧ mjoin bps.*2 = d.

(** The file as it was, its permissions included. *)
Definition restored (e : FileEntry) (d : bytes) f : Prop :=
  tf_content f = d ∧ tf_mtime f = Some (mtime_secs e, mtime_nanos e) ∧
  tf_mode f = Some (Z.land (mode e) 4095) ∧ tf_synced f = true.

Definition placed t t' (e : FileEntry) (d : bytes) : Prop :=
  (∃ f, t' !! place e = Some (Regular f) ∧ restored e d f) ∧ others_kept t t' (place e) ∧
  ∀ q, t' !! q = Some Directory → t !! q = Some Directory ∨ above q (place e).

Lemma finish_file_ok p e f s :
  healthy s → tree s !! p = Some (Regular f) →
  se_wp (finish_file p e) (λ r s', r = Ok () ∧ healthy s' ∧ ∃ f', restored e (tf_content f) f' ∧
    tree s' = <[p := Regular f']> (tree s)) s.
Proof.
  intros Hs Hp. unfold finish_file. apply se_wp_bind. eapply se_wp_io_update_ok; [done..|]. intros s1 Hs1 Ht1.
  apply se_wp_bind. eapply se_wp_io_update_ok; [done..|]. intros s2 Hs2 Ht2.
  eapply se_wp_io_update_ok; [done..|]. intros s3 Hs3 Ht3. split_and!; [done..|].
  rewrite (update_file_insert _ _ _ _ Hp) in Ht1.
  assert (∀ g, tree s1 = <[p := Regular g]> (tree s) → tree s1 !! p = Some (Regular g)) as Hg1
    by (intros g ->; apply lookup_insert_eq).
  rewrite (update_file_insert _ _ _ _ (Hg1 _ Ht1)), Ht1, insert_insert_eq in Ht2.
  assert (∀ g, tree s2 = <[p := Regular g]> (tree s) → tree s2 !! p = Some (Regular g)) as Hg2
    by (intros g ->; apply lookup_insert_eq).
  rewrite (update_file_insert _ _ _ _ (Hg2 _ Ht2)), Ht2, insert_insert_eq in Ht3.
  eexists. split; [|exact Ht3]. done.
Qed.

(** The bytes of the chunks, into an empty file. *)
Lemma fetch_chunks_ok totals p ids bps s f :
  healthy s → tree s !! p = Some (Regular f) → tf_content f = [] → Forall2 delivers ids bps →
  se_wp (fetch_chunks req totals p ids) (λ r s', r = Ok (len (mjoin bps.*2) mod 2 ^ 64) ∧ healthy s' ∧ ∃ f', tf_content f' = mjoin bps.*2 ∧
      tree s' = <[p := Regular f']> (tree s)) s.
Proof.
  intros Hs Hp Hf Hall. unfold fetch_chunks. destruct (decide (ids = [])) as [->|Hne].
  { apply Forall2_nil_inv_l in Hall as ->. apply se_wp_ret. split_and!; [done..|].
    exists f. split; [done|]. by rewrite insert_id. }
  destruct (get_chunks_law (client s) a ids bps.*1) as (c & Hc & Hrpc); [apply Hs| |].
  { apply Forall2_fmap_r. eapply Forall2_impl; [exact Hall|]. by intros x bp [? _]. }
  apply se_wp_bind. eapply se_wp_call_ok; [done|exact Hrpc|done|]. intros s1 Hs1 Ht1.
  apply se_wp_bind. rewrite <- Ht1 in Hp. eapply se_wp_mono; [by apply (fetch_all_ok totals p ids bps 0 s1 f)|].
  cbn beta. intros r s2 (-> & Hs2 & f' & Hf' & Ht2). apply se_wp_bind, se_wp_lift. cbn [end_of_stream].
  apply se_wp_ret. split_and!; [done..|]. exists f'. by rewrite Hf', Hf, Ht2, Ht1.
Qed.

Lemma restore_one_ok totals u e d s :
  healthy s → clear_for (tree s) (place e) → deliverable e d →
  se_wp (restore_one req totals u e) (λ r s', r = Ok () ∧ healthy s' ∧ placed (tree s) (tree s') e d) s.
Proof.
  intros Hs Hc (Hw & Hsize & bps & Hall & Hd). unfold restore_one, restore_file. apply se_wp_bind.
  apply se_wp_bind, se_wp_lift. rewrite (proj2 (sanitize_path_Ok (path e) (path e)) (conj Hw eq_refl)).
  rewrite names_of_path by done. fold (place e).
  destruct (clear_for_create _ _ Hc) as (t1 & t2 & Hm & Hcr & Ha & Hdirs).
  apply se_wp_bind. eapply se_wp_io_update_ok; [done|exact Hm|]. intros s1 Hs1 Ht1. rewrite <- Ht1 in Hcr.
  apply se_wp_bind. eapply se_wp_io_update_ok; [done|exact Hcr|]. intros s2 Hs2 Ht2.
  destruct (create_file_regular _ _ _ Hcr) as [(f & Hf & He) Ho]. rewrite <- Ht2 in Hf.
  apply se_wp_bind. eapply se_wp_mono; [by apply (fetch_chunks_ok totals (place e) (chunks e) bps s2 f)|].
  cbn beta. intros r s3 (-> & Hs3 & f3 & Hf3 & Ht3).
  assert (tree s3 !! place e = Some (Regular f3)) as Hp3 by (by rewrite Ht3, lookup_insert_eq).
  apply se_wp_bind. eapply se_wp_mono; [by apply finish_file_ok|]. cbn beta.
  intros r s4 (-> & Hs4 & f4 & Hf4 & Ht4). apply se_wp_ret.
  rewrite decide_False by (rewrite Hsize, Hd; naive_solver).
  apply se_wp_bind, se_wp_count_ok; [done|]. intros s5 Hs5 Ht5. apply se_wp_tick_ok; [done|]. intros s6 Hs6 Ht6.
  split_and!; [done..|]. assert (tree s6 = <[place e := Regular f4]> t2) as ->.
  { by rewrite Ht6, Ht5, Ht4, Ht3, insert_insert_eq, Ht2. }
  split_and!.
  - exists f4. rewrite lookup_insert_eq. split; [done|]. by rewrite Hf3, Hd in Hf4.
  - intros q g Hq. rewrite lookup_insert_ne by done. rewrite Ho by done. rewrite Ht1. apply Ha.
  - intros q. destruct (decide (q = place e)) as [->|Hq]; [by rewrite lookup_insert_eq|].
    rewrite lookup_insert_ne by done. apply Hdirs.
Qed.

(** ** All files *)

(** No two entries have the same place, and none is a directory for another. *)
Record compatible (entries : list FileEntry) : Prop := {
  compatible_distinct : NoDup (place <$> entries);
  compatible_apart e e' : e ∈ entries → e' ∈ entries → ¬ above (place e) (place e');
}.

(** What is below the target after some files: those files, and directories on
    the way to them. *)
Record built (eds : list (FileEntry * bytes)) t : Prop := {
  built_files : Forall (λ ed, ∃ f, t !! place ed.1 = Some (Regular f) ∧ restored ed.1 ed.2 f) eds;
  built_only q f : t !! q = Some (Regular f) → q ∈ place <$> eds.*1;
  built_dirs q : t !! q = Some Directory → q = [] ∨ ∃ e, e ∈ eds.*1 ∧ above q (place e);
}.

Lemma place_ne e : place e ≠ [].
Proof. apply split_slash_ne. Qed.

Lemma built_clear eds e d more t :
  compatible (eds ++ (e, d) :: more).*1 → built eds t → clear_for t (place e).
Proof.
  rewrite fmap_app. cbn [fmap list_fmap fst]. intros [_ Hap] [_ Ho Hd].
  assert (e ∈ eds.*1 ++ e :: more.*1) as He by (apply elem_of_app; right; by left).
  assert (∀ e', e' ∈ eds.*1 → e' ∈ eds.*1 ++ e :: more.*1) as Hin by (intros; apply elem_of_app; by left).
  split_and!; [apply place_ne| |].
  - intros [Hn|(e' & He' & Hab)]%Hd; [by apply place_ne in Hn|]. by apply (Hap e e'); auto.
  - intros q f Hab Hq. apply Ho, list_elem_of_fmap in Hq as (e' & -> & He'). by apply (Hap e' e); auto.
Qed.

Lemma built_placed eds e d more t t' :
  compatible (eds ++ (e, d) :: more).*1 → built eds t → placed t t' e d → built (eds ++ [(e, d)]) t'.
Proof.
  intros [Hnd _] [Hf Ho Hd] (Hp & Hk & Hdir). rewrite fmap_app in Hnd. cbn [fmap list_fmap fst] in Hnd.
  rewrite fmap_app in Hnd. apply NoDup_app in Hnd as (_ & Hnd & _). split.
  - apply Forall_app. split; [|by apply Forall_singleton]. apply Forall_forall. intros [e' d'] Hin.
    destruct (proj1 (Forall_forall _ _) Hf _ Hin) as (f & Hf' & Hr). cbn in *. exists f. split; [|done].
    apply Hk; [|done]. intros Heq. apply (Hnd (place e')).
    + apply list_elem_of_fmap. exists e'. split; [done|]. apply list_elem_of_fmap. by exists (e', d').
    + rewrite Heq. by left.
  - intros q f Hq. rewrite !fmap_app, elem_of_app. destruct (decide (q = place e)) as [->|Hne]; [right; by left|].
    left. apply (Ho q f). by apply Hk.
  - intros q [[->|(e' & He' & Hab)]%Hd|Hab]%Hdir; [by left|right..].
    + exists e'. split; [|done]. rewrite fmap_app. apply elem_of_app. by left.
    + exists e. split; [|done]. rewrite fmap_app. apply elem_of_app. right. by left.
Qed.

Lemma restore_all_ok totals eds s :
  healthy s → built [] (tree s) → compatible eds.*1 → Forall (λ ed, deliverable ed.1 ed.2) eds →
  se_wp (foldM (restore_one req totals) () eds.*1) (λ r s', r = Ok () ∧ healthy s' ∧ built eds (tree s')) s.
Proof.
  intros Hs Hb Hc Hd. apply (se_wp_foldM _ _ (λ _ pre post s', ∃ epre epost, eds = epre ++ epost ∧
    pre = epre.*1 ∧ post = epost.*1 ∧ healthy s' ∧ built epre (tree s'))).
  - by exists [], eds.
  - intros u e pre post s1 (epre & epost & -> & -> & He & Hs1 & Hb1).
    destruct epost as [|[e' d] epost]; [done|]. injection He as <- ->.
    apply Forall_app in Hd as [_ [Hd _]%Forall_cons].
    eapply se_wp_mono; [apply (restore_one_ok totals u e d s1); [done|by eapply built_clear|done]|].
    cbn beta. intros r s2 (-> & Hs2 & Hp). exists (epre ++ [(e, d)]), epost. split_and!; [|by rewrite fmap_app|done..|].
    + by rewrite <- app_assoc.
    + by eapply built_placed.
  - intros u s1 (epre & epost & -> & Hpre & Hpost & Hs1 & Hb1). destruct epost; [|done].
    destruct u. by rewrite app_nil_r.
Qed.

Lemma ensure_empty_target_ok s :
  healthy s → empty_target (tree s) →
  se_wp ensure_empty_target (λ r s', r = Ok () ∧ healthy s' ∧ tree s' = <[[] := Directory]> (tree s)) s.
Proof.
  intros Hs He. unfold ensure_empty_target, io_read. apply se_wp_bind. eapply se_wp_io_ok; [done..|].
  intros s1 Hs1 Ht1. destruct (tree s !! []) as [e|] eqn:E.
  - destruct (He []) as [?|[_ Hd]]; [congruence|]. rewrite Hd in E. injection E as <-.
    apply se_wp_bind. eapply se_wp_io_ok; [done..|]. intros s2 Hs2 Ht2.
    assert (has_entries (tree s1) = false) as ->.
    { apply has_entries_false. intros q Hq. rewrite Ht1. by destruct (He q) as [?|[? _]]. }
    apply se_wp_ret. split_and!; [done..|]. by rewrite Ht2, Ht1, insert_id.
  - assert (make_dirs [] (tree s1) = Some (<[[] := Directory]> (tree s))) as Hm.
    { rewrite Ht1. unfold make_dirs. cbn. unfold make_dir. by rewrite E. }
    eapply se_wp_io_update_ok; [done|exact Hm|]. intros s2 Hs2 Ht2. split; [done|]. split; [done|exact Ht2].
Qed.

(** The server has the snapshot, under the manifest [m] and with the files
    [eds]. *)
Definition has_snapshot (m : Manifest) (eds : list (FileEntry * bytes)) : Prop :=
  ∃ sn plain, a_snaps a !! Ulid_to_bytes (req_snapshot_id req) = Some sn ∧
    decrypt_manifest (key req) (req_snapshot_id req) (s_blob sn) = Ok plain ∧ decode plain = Ok m ∧
    files m = eds.*1 ∧ Forall (λ ed, deliverable ed.1 ed.2) eds.

Lemma run_restore_ok server t m eds :
  serves server a → empty_target t → has_snapshot m eds → compatible (files m) →
  se_wp (run_restore_with_progress req) (λ r s', is_ok r = true ∧ serves (client s') a ∧ built eds (tree s'))
    (start server t [] (req_snapshot_id req)).
Proof.
  intros Hs He (sn & plain & Hsn & Hdec & Hm & Hf & Hd) Hc. rewrite Hf in Hc.
  unfold run_restore_with_progress. apply se_wp_bind.
  eapply se_wp_mono; [by apply ensure_empty_target_ok|]. cbn beta. intros r s1 (-> & Hs1 & Ht1). cbn [tree start] in Ht1.
  apply se_wp_bind. unfold fetch_manifest.
  destruct (get_manifest_law (client s1) a _ sn (proj2 Hs1) Hsn) as (c & Hrpc & Hc1).
  apply se_wp_bind. eapply se_wp_call_ok; [done|exact Hrpc|done|]. intros s2 Hs2 Ht2.
  apply se_wp_bind, se_wp_lift. rewrite Hdec. apply se_wp_lift. cbn [map_err]. rewrite Hm. cbn [map_err].
  apply se_wp_bind. rewrite Hf. assert (built [] (tree s2)) as Hb.
  { rewrite Ht2, Ht1. split; [done| |].
    - intros q f [[_ [=]]|[_ Hq]]%lookup_insert_Some. destruct (He q) as [?|[_ ?]]; congruence.
    - intros q Hq. left. apply lookup_insert_Some in Hq as [[<- _]|[_ Hq]]; [done|].
      by destruct (He q) as [?|[? _]]; [congruence|]. }
  eapply se_wp_mono; [by apply restore_all_ok|]. cbn beta. intros r s3 (-> & Hs3 & Hb3).
  apply se_wp_bind, se_wp_tick_ok; [done|]. intros s4 Hs4 Ht4. apply se_wp_gets. rewrite Ht4. by destruct Hs4.
Qed.
End lawful.
