(* ===== verification/Progress.v ===== *)
(** * Live progress ([busyncr-client/src/progress.rs])

    The reporter turns the counters that backups ([Backup]) and restores ([Restore])
    hand it into the bytes of standard error: lines of JSON, lines of text, or one line
    that is written over in place, at most one every 150 milliseconds.  The clock is an
    argument; [serde_json] is a parameter. *)

From S2P Require Import Prelude External Text Base64 Float Number Chunking Manifest Compression Crypto Rpc StoreSpec Backup WalkTheorems BackupTheorems Restore.

Definition MIN_INTERVAL : Duration := 150 * 1000000.

Inductive Mode := Quiet | Json | Tty | Plain.
#[global] Instance Mode_eq_dec : EqDecision Mode.
Proof. solve_decision. Defined.

(** [Instant]s are readings of one monotone clock, in nanoseconds. *)
Record ProgressReporter := {
  mode : Mode;
  start : Z;
  last_render : option Z;
  last_tty_len : Z;
  seq : Z;
}.

(** What is asked of the clock inside one tick, in this order: [t.elapsed()] and
    [Instant::now()] of [should_render], and [self.start.elapsed()]. *)
Record Instants := { at_check : Z; at_stamp : Z; at_start : Z }.

Definition elapsed (since now : Z) : Duration := Z.max 0 (now - since).

Definition ProgressReporter_new (quiet json is_terminal : bool) (now : Z) : ProgressReporter := {|
  mode := if quiet then Quiet else if json then Json else if is_terminal then Tty else Plain;
  start := now; last_render := None; last_tty_len := 0; seq := 0 |}.

Definition set_render (t : Z) (p : ProgressReporter) : ProgressReporter :=
  {| mode := mode p; start := start p; last_render := Some t; last_tty_len := last_tty_len p; seq := seq p |}.
Definition set_tty_len (n : Z) (p : ProgressReporter) : ProgressReporter :=
  {| mode := mode p; start := start p; last_render := last_render p; last_tty_len := n; seq := seq p |}.
Definition bump_seq (p : ProgressReporter) : ProgressReporter :=
  {| mode := mode p; start := start p; last_render := last_render p; last_tty_len := last_tty_len p;
     seq := u64_add (seq p) 1 |}.

Definition should_render (now : Instants) (final_tick : bool) (p : ProgressReporter) : bool * ProgressReporter :=
  let stamped := (true, set_render (at_stamp now) p) in
  if final_tick then stamped
  else
    match last_render p with
    | Some t => if decide (elapsed t (at_check now) < MIN_INTERVAL) then (false, p) else stamped
    | None => stamped
    end.

(** ** Rates *)

Definition mb_per_sec (bytes : Z) (elapsed : Duration) : f64 :=
  let secs := Duration_as_secs_f64 elapsed in
  if f64_leb secs f64_zero then f64_zero
  else f64_div (f64_div (f64_of_Z bytes) secs) (f64_mul (f64_of_Z 1024) (f64_of_Z 1024)).

Definition eta_secs (total done : Z) (elapsed : Duration) : option f64 :=
  if decide (done = 0 ∨ total ≤ done) then None
  else
    let secs := Duration_as_secs_f64 elapsed in
    if f64_leb secs f64_zero then None
    else
      let rate := f64_div (f64_of_Z done) secs in
      if f64_leb rate f64_zero then None
      else Some (f64_div (f64_of_Z (total - done)) rate).

Definition eta_suffix (eta_secs : option f64) : bytes :=
  match eta_secs with
  | Some secs => str ", ETA ~" ++ f64_integral (f64_max (f64_round secs) f64_zero) ++ str "s"
  | None => []
  end.

(** ** Lines *)

(** Writes one human-readable line: the bytes, and the length that is remembered. *)
Definition emit_line (line : bytes) (final_tick : bool) (p : ProgressReporter) : ProgressReporter * bytes :=
  match mode p with
  | Tty =>
      let pad := Z.to_nat (u64_saturating_sub (last_tty_len p) (len line)) in
      (set_tty_len (len line) p,
       [x0d] ++ line ++ replicate pad x20 ++ (if final_tick then [x0a] else []))
  | _ => (p, line ++ [x0a])
  end.

Definition finish (p : ProgressReporter) : ProgressReporter * bytes :=
  if decide (mode p = Tty ∧ 0 < last_tty_len p) then (set_tty_len 0 p, [x0a]) else (p, []).

(** ** Events *)

Record BackupProgressEvent := {
  be_seq : Z;
  be_elapsed_ms : Z;
  be_files : Z;
  be_total_files : Z;
  be_chunks_hashed : Z;
  be_chunks_to_ship : Z;
  be_chunks_shipped : Z;
  be_bytes_up : Z;
  be_mb_per_sec : f64;
  be_eta_secs : option f64;
}.

Record RestoreProgressEvent := {
  re_seq : Z;
  re_elapsed_ms : Z;
  re_files : Z;
  re_total_files : Z;
  re_chunks_fetched : Z;
  re_bytes_down : Z;
  re_total_bytes : Z;
  re_mb_per_sec : f64;
  re_eta_secs : option f64;
}.

(** [serde_json::to_string] of the two. *)
Class EventJson := {
  backup_event_json : BackupProgressEvent → option bytes;
  restore_event_json : RestoreProgressEvent → option bytes;
}.

Definition emit_json (json : option bytes) : bytes :=
  match json with Some line => line ++ [x0a] | None => [] end.

(** ** Ticks *)

Section ticks.
Context `{UlidPkg, EventJson}.

Definition backup_event (seq : Z) (elapsed : Duration) (report : BackupReport) (totals : Backup.BackupTotals) :
    BackupProgressEvent := {|
  be_seq := seq;
  be_elapsed_ms := elapsed / 1000000;
  be_files := Backup.report_files report;
  be_total_files := Backup.total_files totals;
  be_chunks_hashed := Backup.chunks_total report;
  be_chunks_to_ship := Backup.chunks_unique report;
  be_chunks_shipped := Backup.chunks_uploaded report;
  be_bytes_up := Backup.upload_bytes report;
  be_mb_per_sec := mb_per_sec (Backup.upload_bytes report) elapsed;
  be_eta_secs := eta_secs (Backup.total_files totals) (Backup.report_files report) elapsed;
|}.

Definition backup_line (elapsed : Duration) (report : BackupReport) (totals : Backup.BackupTotals) : bytes :=
  str "backup: " ++ decimal (Backup.report_files report) ++ str "/" ++ decimal (Backup.total_files totals) ++
  str " files, " ++ decimal (Backup.chunks_total report) ++ str " chunks hashed, " ++
  decimal (Backup.chunks_unique report) ++ str " to ship, " ++ decimal (Backup.chunks_uploaded report) ++
  str " shipped, " ++ decimal (Backup.upload_bytes report) ++ str " bytes up, " ++
  f64_fixed2 (mb_per_sec (Backup.upload_bytes report) elapsed) ++ str " MB/s" ++
  eta_suffix (eta_secs (Backup.total_files totals) (Backup.report_files report) elapsed).

Definition backup_tick (now : Instants) (report : BackupReport) (totals : Backup.BackupTotals) (final_tick : bool)
    (p : ProgressReporter) : ProgressReporter * bytes :=
  if decide (mode p = Quiet) then (p, [])
  else
    let '(go, p) := should_render now final_tick p in
    if negb go then (p, [])
    else
      let elapsed := elapsed (start p) (at_start now) in
      match mode p with
      | Json =>
          let p := bump_seq p in
          (p, emit_json (backup_event_json (backup_event (seq p) elapsed report totals)))
      | _ => emit_line (backup_line elapsed report totals) final_tick p
      end.

Definition restore_event (seq : Z) (elapsed : Duration) (report : RestoreReport) (totals : Restore.RestoreTotals) :
    RestoreProgressEvent := {|
  re_seq := seq;
  re_elapsed_ms := elapsed / 1000000;
  re_files := Restore.report_files report;
  re_total_files := Restore.total_files totals;
  re_chunks_fetched := Restore.chunks_fetched report;
  re_bytes_down := Restore.report_bytes report;
  re_total_bytes := Restore.total_bytes totals;
  re_mb_per_sec := mb_per_sec (Restore.report_bytes report) elapsed;
  re_eta_secs := eta_secs (Restore.total_bytes totals) (Restore.report_bytes report) elapsed;
|}.

Definition restore_line (elapsed : Duration) (report : RestoreReport) (totals : Restore.RestoreTotals) : bytes :=
  str "restore: " ++ decimal (Restore.report_files report) ++ str "/" ++ decimal (Restore.total_files totals) ++
  str " files, " ++ decimal (Restore.chunks_fetched report) ++ str " chunks fetched, " ++
  decimal (Restore.report_bytes report) ++ str "/" ++ decimal (Restore.total_bytes totals) ++
  str " bytes down, " ++ f64_fixed2 (mb_per_sec (Restore.report_bytes report) elapsed) ++ str " MB/s" ++
  eta_suffix (eta_secs (Restore.total_bytes totals) (Restore.report_bytes report) elapsed).

Definition restore_tick (now : Instants) (report : RestoreReport) (totals : Restore.RestoreTotals) (final_tick : bool)
    (p : ProgressReporter) : ProgressReporter * bytes :=
  if decide (mode p = Quiet) then (p, [])
  else
    let '(go, p) := should_render now final_tick p in
    if negb go then (p, [])
    else
      let elapsed := elapsed (start p) (at_start now) in
      match mode p with
      | Json =>
          let p := bump_seq p in
          (p, emit_json (restore_event_json (restore_event (seq p) elapsed report totals)))
      | _ => emit_line (restore_line elapsed report totals) final_tick p
      end.

(** ** Calls, and what they leave on standard error *)

Inductive Call :=
  | BackupTick (now : Instants) (report : BackupReport) (totals : Backup.BackupTotals) (final_tick : bool)
  | RestoreTick (now : Instants) (report : RestoreReport) (totals : Restore.RestoreTotals) (final_tick : bool)
  | Finish.

Definition run_call (c : Call) (p : ProgressReporter) : ProgressReporter * bytes :=
  match c with
  | BackupTick now report totals final_tick => backup_tick now report totals final_tick p
  | RestoreTick now report totals final_tick => restore_tick now report totals final_tick p
  | Finish => finish p
  end.

Fixpoint run_calls (cs : list Call) (p : ProgressReporter) : ProgressReporter * bytes :=
  match cs with
  | [] => (p, [])
  | c :: cs =>
      let '(p, out) := run_call c p in
      let '(p, rest) := run_calls cs p in
      (p, out ++ rest)
  end.
End ticks.

(** ** The throttle *)

Section throttle.
Context `{UlidPkg, EventJson}.

Definition tick_of (c : Call) : option (Instants * bool) :=
  match c with
  | BackupTick now _ _ final_tick | RestoreTick now _ _ final_tick => Some (now, final_tick)
  | Finish => None
  end.

(** The call, with the reporter it finds and what it writes. *)
Fixpoint trace (cs : list Call) (p : ProgressReporter) : list (Call * ProgressReporter * bytes) :=
  match cs with
  | [] => []
  | c :: cs => let '(p', out) := run_call c p in (c, p, out) :: trace cs p'
  end.

(** A tick in the middle of the run that wrote something. *)
Definition intermediate (x : Call * ProgressReporter * bytes) : Prop :=
  match tick_of x.1.1 with Some (_, false) => x.2 ≠ [] | _ => False end.
#[global] Instance intermediate_dec x : Decision (intermediate x).
Proof. unfold intermediate. destruct (tick_of _) as [[? []]|]; apply _. Defined.

(** Readings of one clock, from [a] to [b], in the order they are made. *)
Fixpoint clocked (a b : Z) (cs : list Call) : Prop :=
  match cs with
  | [] => a ≤ b
  | c :: cs =>
      match tick_of c with
      | Some (now, _) => a ≤ at_check now ∧ at_check now ≤ at_stamp now ∧ at_stamp now ≤ at_start now ∧
          clocked (at_start now) b cs
      | None => clocked a b cs
      end
  end.

Lemma clocked_le a b cs : clocked a b cs → a ≤ b.
Proof.
  revert a. induction cs as [|c cs IH]; intros a; cbn; [done|]. destruct (tick_of c) as [[now f]|]; [|apply IH].
  intros (? & ? & ? & Hb%IH). lia.
Qed.

(** What a tick writes when it is due. *)
Definition rendering (c : Call) (p : ProgressReporter) : ProgressReporter * bytes :=
  match c with
  | BackupTick now report totals final_tick =>
      let elapsed := elapsed (start p) (at_start now) in
      match mode p with
      | Json => let p := bump_seq p in (p, emit_json (backup_event_json (backup_event (seq p) elapsed report totals)))
      | _ => emit_line (backup_line elapsed report totals) final_tick p
      end
  | RestoreTick now report totals final_tick =>
      let elapsed := elapsed (start p) (at_start now) in
      match mode p with
      | Json => let p := bump_seq p in (p, emit_json (restore_event_json (restore_event (seq p) elapsed report totals)))
      | _ => emit_line (restore_line elapsed report totals) final_tick p
      end
  | Finish => finish p
  end.

(** A tick is due: it is the last one, or nothing was rendered within the interval. *)
Definition due (now : Instants) (final_tick : bool) (p : ProgressReporter) : Prop :=
  mode p ≠ Quiet ∧
  (final_tick = true ∨ ∀ t, last_render p = Some t → MIN_INTERVAL ≤ elapsed t (at_check now)).

Lemma run_tick c now final_tick p : tick_of c = Some (now, final_tick) →
  (due now final_tick p ∧ run_call c p = rendering c (set_render (at_stamp now) p)) ∨
  (¬ due now final_tick p ∧ run_call c p = (p, [])).
Proof.
  intros Hc. assert (run_call c p = if decide (mode p = Quiet) then (p, [])
    else let '(go, p) := should_render now final_tick p in if negb go then (p, []) else rendering c p) as ->.
  { destruct c; simplify_eq/=; done. }
  unfold due, should_render. destruct (decide (mode p = Quiet)) as [Hq|Hq]; [right; split; [by intros [? _]|done]|].
  destruct final_tick; [left; split; [split; [done|by left]|done]|].
  destruct (last_render p) as [t|]; [|left; split; [split; [done|by right]|done]].
  destruct (decide _) as [Hlt|Hge]; [right|left]; (split; [|done]).
  - intros [_ [?|Hd]]; [done|]. specialize (Hd t eq_refl). lia.
  - split; [done|]. right. intros t' [= <-]. lia.
Qed.

Lemma rendering_fields c p : let p' := (rendering c p).1 in
  mode p' = mode p ∧ start p' = start p ∧ last_render p' = last_render p.
Proof.
  destruct c; cbn -[decimal]; [| |unfold finish; by destruct (decide _)].
  all: unfold emit_line; destruct (mode p) eqn:Em; by rewrite ?Em.
Qed.

Lemma filter_step c now f p out l : tick_of c = Some (now, f) →
  len (filter intermediate ((c, p, out) :: l)) ≤ len (filter intermediate l) + (if f then 0 else 1).
Proof.
  intros Et. rewrite filter_cons. destruct (decide _) as [Hi|_]; [|destruct f; lia].
  unfold intermediate in Hi. cbn [fst snd] in Hi. rewrite Et in Hi. destruct f; [done|]. unfold len. rewrite length_cons. lia.
Qed.

Lemma intermediates_bound cs p a b : clocked a b cs →
  let n := len (filter intermediate (trace cs p)) in
  (∀ t, last_render p = Some t → t ≤ a → n * MIN_INTERVAL ≤ b - t) ∧
  (last_render p = None → (n - 1) * MIN_INTERVAL ≤ b - a).
Proof.
  unfold MIN_INTERVAL. revert p a. induction cs as [|c cs IH]; intros p a Hc; cbn zeta.
  { cbn in Hc. change (len (filter intermediate (trace [] p))) with 0. split; intros; lia. }
  cbn [trace clocked] in *. destruct (tick_of c) as [[now f]|] eqn:Et.
  - destruct Hc as (H1 & H2 & H3 & Hc). pose proof (clocked_le _ _ _ Hc).
    destruct (run_tick c now f p Et) as [[[_ Hd] ->]|[_ ->]].
    + pose proof (rendering_fields c (set_render (at_stamp now) p)) as (_ & _ & Hl).
      destruct (rendering c (set_render (at_stamp now) p)) as [p' out]. cbn in Hl.
      destruct (IH p' _ Hc) as [IH' _]. specialize (IH' _ Hl ltac:(lia)).
      pose proof (filter_step c now f p out (trace cs p') Et) as Hn. unfold MIN_INTERVAL, elapsed in Hd.
      destruct Hd as [->|Hd]; [split; intros; lia|]. split; [|intros _; destruct f; lia].
      intros t Ht Hta. specialize (Hd t Ht). destruct f; lia.
    + pose proof (filter_step c now f p [] (trace cs p) Et) as Hn.
      assert (len (filter intermediate ((c, p, []) :: trace cs p)) = len (filter intermediate (trace cs p))) as ->.
      { rewrite filter_cons_False; [done|]. unfold intermediate. cbn [fst snd]. rewrite Et. by destruct f; intros ?. }
      destruct (IH p _ Hc) as [I1 I2]. split; [intros t Ht Hta; apply I1; [done|lia]|].
      intros Ht. specialize (I2 Ht). lia.
  - assert (c = Finish) as -> by by destruct c.
    pose proof (rendering_fields Finish p) as (_ & _ & Hl). cbn [rendering] in Hl. cbn [run_call].
    destruct (finish p) as [p' out]. cbn in Hl.
    rewrite filter_cons_False by by intros ?. destruct (IH p' a Hc) as [I1 I2]. rewrite Hl in I1, I2. done.
Qed.

Lemma emit_line_writes line f p : line ≠ [] → (emit_line line f p).2 ≠ [].
Proof. intros. unfold emit_line. destruct (mode p); by destruct line. Qed.

Lemma run_call_mode c p : mode (run_call c p).1 = mode p.
Proof.
  destruct (tick_of c) as [[now f]|] eqn:Et.
  - destruct (run_tick c now f p Et) as [[_ ->]|[_ ->]]; [|done].
    by pose proof (rendering_fields c (set_render (at_stamp now) p)) as (-> & _).
  - assert (c = Finish) as -> by by destruct c. apply (rendering_fields Finish p).
Qed.

Lemma trace_elem cs p c q out : (c, q, out) ∈ trace cs p → out = (run_call c q).2 ∧ mode q = mode p.
Proof.
  revert p. induction cs as [|c' cs IH]; intros p Hin; [by apply not_elem_of_nil in Hin|]. cbn [trace] in Hin.
  pose proof (run_call_mode c' p) as Hm. destruct (run_call c' p) as [p' out'] eqn:Er. cbn in Hm.
  apply elem_of_cons in Hin as [Hin|[-> ->]%IH]; [|done]. injection Hin as -> -> ->. by rewrite Er.
Qed.

Lemma rendering_writes c now f p : (∀ e, is_Some (backup_event_json e)) → (∀ e, is_Some (restore_event_json e)) →
  tick_of c = Some (now, f) → (rendering c p).2 ≠ [].
Proof.
  intros Hj1 Hj2 Et. destruct c; cbn [rendering]; [| |done].
  all: destruct (mode p); try by apply emit_line_writes.
  all: cbn [snd]; unfold emit_json.
  - destruct (Hj1 (backup_event (seq (bump_seq p)) (elapsed (start p) (at_start now0)) report totals)) as [line ->]. by destruct line.
  - destruct (Hj2 (restore_event (seq (bump_seq p)) (elapsed (start p) (at_start now0)) report totals)) as [line ->]. by destruct line.
Qed.

(** C37. Rendering is throttled and not lost.  Nothing is written in quiet mode.  In a run
    that lasts [b - a], on a clock that does not go back, at most one line or event is
    written for every 150 milliseconds begun, the final ticks apart.  A tick writes
    nothing exactly when it is not the final one and comes within 150 milliseconds of
    the tick rendered before it. *)
Theorem rendering_is_throttled (quiet json is_terminal : bool) (a b : Z) (cs : list Call) :
  (∀ e, is_Some (backup_event_json e)) → (∀ e, is_Some (restore_event_json e)) →
  clocked a b cs →
  let p := ProgressReporter_new quiet json is_terminal a in
  (len (filter intermediate (trace cs p)) - 1) * MIN_INTERVAL ≤ b - a ∧
  ∀ c q out now final_tick, (c, q, out) ∈ trace cs p → tick_of c = Some (now, final_tick) →
    (out = [] ↔ quiet = true ∨
       final_tick = false ∧ ∃ t, last_render q = Some t ∧ elapsed t (at_check now) < MIN_INTERVAL).
Proof.
  intros Hj1 Hj2 Hc p. split; [by apply (intermediates_bound cs p a b)|].
  intros c q out now f [-> Hm]%trace_elem Et.
  assert (mode q = Quiet ↔ quiet = true) as Hq by (rewrite Hm; by destruct quiet, json, is_terminal).
  destruct (run_tick c now f q Et) as [[[Hnq Hd] ->]|[Hnd ->]].
  - split; [by intros Hw%(rendering_writes c now f _ Hj1 Hj2 Et)|]. intros [?%Hq|(-> & t & Ht & Hlt)]; [done|].
    destruct Hd as [?|Hd]; [done|]. specialize (Hd t Ht). lia.
  - split; [intros _|done]. destruct (decide (quiet = true)) as [?|Hnq]; [by left|right].
    assert (mode q ≠ Quiet) as Hmq by by rewrite Hq. unfold due in Hnd. destruct f; [destruct Hnd; auto|].
    split; [done|]. destruct (last_render q) as [t|]; [|destruct Hnd; by split; [|right]].
    exists t. split; [done|]. destruct (decide (elapsed t (at_check now) < MIN_INTERVAL)) as [?|?]; [done|].
    destruct Hnd. split; [done|right]. intros t' [= <-]. lia.
Qed.
End throttle.

(** ** The terminal *)

(** A screen without a right edge: the rows that are finished, the row of the cursor,
    and its column. *)
Record Screen := { finished : list bytes; row : bytes; column : nat }.
Definition blank : Screen := {| finished := []; row := []; column := 0 |}.

Definition show_byte (s : Screen) (b : byte) : Screen :=
  if decide (b = x0d) then {| finished := finished s; row := row s; column := 0 |}
  else if decide (b = x0a) then {| finished := finished s ++ [row s]; row := []; column := 0 |}
  else {| finished := finished s; row := take (column s) (row s) ++ [b] ++ drop (column s + 1) (row s);
          column := column s + 1 |}.
Definition show : Screen → bytes → Screen := foldl show_byte.

(** A line, and spaces after it. *)
Definition shows (line row : bytes) : Prop := ∃ k, row = line ++ replicate k x20.

Definition on_one_line (l : bytes) : Prop := Forall (λ b, b ≠ x0d ∧ b ≠ x0a) l.

Lemma show_text l s : on_one_line l → (column s ≤ length (row s))%nat →
  show s l = {| finished := finished s; row := take (column s) (row s) ++ l ++ drop (column s + length l) (row s);
                column := column s + length l |}.
Proof.
  intros Hl. revert s. induction Hl as [|b l [H1 H2] Hl IH]; intros [fin r c] Hc; cbn [row column finished] in *.
  { cbn. rewrite Nat.add_0_r, take_drop. done. }
  change (show ?s (b :: l)) with (show (show_byte s b) l).
  assert (length (take c r) = c) as Ht by (rewrite length_take; lia).
  unfold show_byte. rewrite !decide_False by done. cbn [row column finished]. rewrite IH; cbn [row column finished].
  - f_equal; [|cbn; lia]. rewrite take_app_ge, Ht by (rewrite Ht; lia).
    replace (c + 1 - c)%nat with 1%nat by lia. change (take 1 ([b] ++ drop (c + 1) r)) with ([b] ++ take 0 (drop (c + 1) r)).
    rewrite take_0, app_nil_r, <- app_assoc. f_equal. change ((b :: l) ++ drop (c + length (b :: l)) r) with ([b] ++ (l ++ drop (c + length (b :: l)) r)).
    f_equal. f_equal. rewrite drop_app_ge by (rewrite Ht; lia). rewrite Ht, drop_app_ge by (cbn; lia).
    cbn [length]. rewrite drop_drop. f_equal. lia.
  - rewrite !length_app, Ht, length_drop. cbn. lia.
Qed.

Lemma digits_on_one_line n : on_one_line (decimal n).
Proof. eapply Forall_impl; [apply decimal_text|]. intros b (_ & _ & ? & ?)%is_text_facts. done. Qed.

Lemma str_on_one_line (s : string) : bool_decide (on_one_line (str s)) = true → on_one_line (str s).
Proof. apply bool_decide_eq_true. Qed.

Lemma f64_sign_on_one_line x : on_one_line (f64_sign x).
Proof. destruct x as [[]|[]| |[] m e]; cbn; repeat constructor; done. Qed.

Lemma on_one_line_app l k : on_one_line l → on_one_line k → on_one_line (l ++ k).
Proof. intros. by apply Forall_app. Qed.

Lemma on_one_line_replicate n b : b ≠ x0d → b ≠ x0a → on_one_line (replicate n b).
Proof. intros. by apply Forall_replicate. Qed.

Lemma on_one_line_nil : on_one_line [].
Proof. constructor. Qed.

Create HintDb one_line.
#[export] Hint Resolve digits_on_one_line f64_sign_on_one_line on_one_line_nil : one_line.
Ltac one_line := repeat simple apply on_one_line_app;
  try first [solve [auto with one_line nocore] | apply str_on_one_line; vm_compute; reflexivity].

Lemma f64_fixed2_on_one_line x : on_one_line (f64_fixed2 x).
Proof.
  destruct x; cbn [f64_fixed2]; one_line. by apply on_one_line_replicate.
Qed.

Lemma f64_integral_on_one_line x : on_one_line (f64_integral x).
Proof. destruct x; cbn [f64_integral]; one_line. Qed.
#[export] Hint Resolve f64_fixed2_on_one_line f64_integral_on_one_line : one_line.

Lemma eta_suffix_on_one_line eta : on_one_line (eta_suffix eta).
Proof. destruct eta; cbn [eta_suffix]; one_line. Qed.
#[export] Hint Resolve eta_suffix_on_one_line : one_line.

Lemma backup_line_on_one_line `{UlidPkg} e r t : on_one_line (backup_line e r t).
Proof. unfold backup_line. one_line. Qed.

Lemma restore_line_on_one_line `{UlidPkg} e r t : on_one_line (restore_line e r t).
Proof. unfold restore_line. one_line. Qed.

Section terminal.
Context `{UlidPkg, EventJson}.

(** What a reader is to see: the lines that are done, and the line that is shown. *)
Record Board := { settled : list bytes; current : bytes }.

Definition line_of (c : Call) (p : ProgressReporter) : bytes :=
  match c with
  | BackupTick now report totals _ => backup_line (elapsed (start p) (at_start now)) report totals
  | RestoreTick now report totals _ => restore_line (elapsed (start p) (at_start now)) report totals
  | Finish => []
  end.

Definition board_call (c : Call) (p : ProgressReporter) (b : Board) : Board :=
  if decide ((run_call c p).2 = []) then b
  else
    match tick_of c with
    | Some (_, false) => {| settled := settled b; current := line_of c p |}
    | Some (_, true) => {| settled := settled b ++ [line_of c p]; current := [] |}
    | None => {| settled := settled b ++ [current b]; current := [] |}
    end.

Fixpoint board (cs : list Call) (p : ProgressReporter) (b : Board) : Board :=
  match cs with
  | [] => b
  | c :: cs => board cs (run_call c p).1 (board_call c p b)
  end.

Record on_screen (p : ProgressReporter) (b : Board) (s : Screen) : Prop := {
  os_settled : Forall2 shows (settled b) (finished s);
  os_column : (column s ≤ length (row s))%nat;
  os_row : row s = [] ∧ current b = [] ∨ shows (current b) (row s) ∧ last_tty_len p = len (current b);
}.

Lemma show_app s l k : show s (l ++ k) = show (show s l) k.
Proof. apply foldl_app. Qed.

Lemma show_newline s : show s [x0a] = {| finished := finished s ++ [row s]; row := []; column := 0 |}.
Proof. done. Qed.

(** Writing over the row leaves the new line and spaces. *)
Lemma show_over p b s line : on_screen p b s → on_one_line line →
  let pad := Z.to_nat (u64_saturating_sub (last_tty_len p) (len line)) in
  let s' := show s ([x0d] ++ line ++ replicate pad x20) in
  finished s' = finished s ∧ (column s' ≤ length (row s'))%nat ∧ shows line (row s').
Proof.
  intros [_ _ Hrow] Hl pad. cbn zeta. rewrite show_app.
  change (show s [x0d]) with {| finished := finished s; row := row s; column := 0 |}.
  rewrite show_text; [|by apply on_one_line_app, on_one_line_replicate|cbn; lia]. cbn [finished row column take].
  set (text := line ++ replicate pad x20). split; [done|]. split; [rewrite !length_app; lia|].
  assert (∃ k, drop (length text) (row s) = replicate k x20) as [k Hk].
  { destruct Hrow as [[-> _]|[[k ->] Hlen]]; [exists 0%nat; by rewrite drop_nil|].
    exists (k - (length text - length (current b)))%nat. rewrite drop_app_ge, drop_replicate; [done|].
    unfold text, pad, u64_saturating_sub, len in *. rewrite length_app, length_replicate, Hlen. lia. }
  exists (pad + k)%nat. change (0 + length text)%nat with (length text). rewrite Hk. unfold text.
  by rewrite replicate_add, <- app_assoc.
Qed.

Lemma rendering_tty c now f p : tick_of c = Some (now, f) → mode p = Tty →
  rendering c p = emit_line (line_of c p) f p ∧ on_one_line (line_of c p) ∧ line_of c p ≠ [].
Proof.
  intros Et Hm. destruct c; simplify_eq/=; rewrite ?Hm; (split; [done|split]); try done;
    [apply backup_line_on_one_line|apply restore_line_on_one_line].
Qed.

Lemma call_on_screen c p b s : mode p = Tty → on_screen p b s →
  on_screen (run_call c p).1 (board_call c p b) (show s (run_call c p).2).
Proof.
  intros Hm Hs. unfold board_call. destruct (tick_of c) as [[now f]|] eqn:Et.
  - destruct (run_tick c now f p Et) as [[_ ->]|[_ ->]]; [|by rewrite decide_True].
    destruct (rendering_tty c now f (set_render (at_stamp now) p) Et Hm) as (-> & Hl & Hne).
    assert (line_of c (set_render (at_stamp now) p) = line_of c p) as El by by destruct c.
    rewrite El in *. set (line := line_of c p) in *. unfold emit_line. cbn [mode set_render]. rewrite Hm. cbn [fst snd].
    rewrite decide_False by done. destruct (show_over p b s line Hs Hl) as (Hf & Hc & Hr). cbn [last_tty_len set_render].
    set (pad := Z.to_nat (u64_saturating_sub (last_tty_len p) (len line))) in *.
    replace ([x0d] ++ line ++ replicate pad x20 ++ (if f then [x0a] else []))
      with (([x0d] ++ line ++ replicate pad x20) ++ (if f then [x0a] else [])) by by rewrite <- !app_assoc.
    rewrite show_app. set (s' := show s ([x0d] ++ line ++ replicate pad x20)) in *.
    destruct f; [rewrite show_newline|]; split; cbn [settled finished row column current set_tty_len last_tty_len].
    + rewrite Hf. apply Forall2_app; [apply Hs|]. by constructor.
    + done.
    + by left.
    + change (show s' []) with s'. rewrite Hf. apply Hs.
    + exact Hc.
    + by right.
  - assert (c = Finish) as -> by by destruct c. cbn [run_call]. unfold finish.
    destruct (decide (mode p = Tty ∧ 0 < last_tty_len p)) as [_|_]; cbn [fst snd]; [|by rewrite decide_True].
    rewrite decide_False, show_newline by done. destruct Hs as [H1 H2 H3].
    split; cbn [settled finished row column current set_tty_len last_tty_len]; [|done|by left].
    apply Forall2_app; [done|]. constructor; [|done].
    destruct H3 as [[-> ->]|[? _]]; [by exists 0%nat|done].
Qed.

End terminal.

(** ** The progress of a backup *)

Section backup_progress.
Context `{UlidPkg, Blake3Pkg, FastCdcPkg, ZstdPkg, AeadPkg} {S : Type} `{!Busyncr S} {R : Type} `{!CryptoRng R}.
Abbreviation Session := (Backup.Session (S := S) (R := R)).

Definition underway (s : Session) : Prop := Forall (λ t, t.2 = false) (Backup.ticks s).

(** Until the final tick. *)
Definition stays_underway (s s' : Session) : Prop := underway s → underway s'.

Lemma underway_moves : session_moves stays_underway.
Proof.
  split; [split; [by intros s Hs|by intros s1 s2 s3 H12 H23 Hs; apply H23, H12]|by intros ? ? Hs..|].
  intros totals s Hs. apply Forall_app. split; [exact Hs|]. by apply Forall_singleton.
Qed.
#[local] Instance stays_underway_order : PreOrder stays_underway := mv_order _ underway_moves.

Lemma underway_flush req phase pending : steps stays_underway (Backup.flush req phase pending).
Proof. apply steps_flush, underway_moves. Qed.
Lemma underway_backup_file req phase totals acc spec : steps stays_underway (Backup.backup_file req phase totals acc spec).
Proof. apply steps_backup_file, underway_moves. Qed.
Lemma underway_call {A} (rpc : S → result Code A * S) : steps stays_underway (Backup.call rpc).
Proof. apply steps_call, underway_moves. Qed.
#[local] Hint Resolve underway_flush underway_backup_file underway_call : steps.

(** The counters that are shown. *)
Definition shown_counts (r : BackupReport) : Z * Z * Z * Z * Z :=
  (Backup.report_files r, Backup.chunks_total r, Backup.chunks_unique r, Backup.chunks_uploaded r, Backup.upload_bytes r).

Definition like (s s' : Session) : Prop :=
  Backup.ticks s' = Backup.ticks s ∧ shown_counts (Backup.report s') = shown_counts (Backup.report s).

Lemma put_manifest_like req files s : se_wp (Backup.put_manifest req files) (λ _, like s) s.
Proof.
  unfold Backup.put_manifest. apply se_wp_bind, se_wp_lift. destruct (map_err _ _) as [encoded|e]; [|done].
  apply se_wp_bind. unfold Backup.draw, se_wp at 1. destruct (encrypt_manifest _ _ _ (session_rng s)) as [[sealed|e] g]; [|done].
  apply se_wp_bind, se_wp_modify. unfold Backup.call, se_wp.
  match goal with |- context [rpc_put_manifest ?q ?c] => by destruct (rpc_put_manifest q c) as [x c'] end.
Qed.

(** The final tick comes once, last, with the counters of the report. *)
Lemma run_backup_ticks req server rng r s : run_backup req server rng = (Ok r, s) →
  ∃ pre last totals, Backup.ticks s = pre ++ [(last, totals, true)] ∧ Forall (λ t, t.2 = false) pre ∧
    shown_counts last = shown_counts r.
Proof.
  unfold run_backup. set (s0 := Backup.start server rng (Backup.req_snapshot_id req)). intros Hrun.
  enough (se_wp (run_backup_with_progress req) (λ res s, ∀ r, res = Ok r →
    ∃ pre last totals, Backup.ticks s = pre ++ [(last, totals, true)] ∧ Forall (λ t, t.2 = false) pre ∧
      shown_counts last = shown_counts r) s0) as Hw by (unfold se_wp in Hw; rewrite Hrun in Hw; by apply Hw).
  assert (underway s0) as Hs0 by constructor. clear Hrun. revert Hs0. generalize s0. clear s0 s r. intros s Hs.
  assert (∀ {A} (m : SE Session BackupError A) (Q : result BackupError A → Session → Prop) s, steps stays_underway m → underway s →
    (∀ e s, Q (Err e) s) → (∀ a s, underway s → Q (Ok a) s) → se_wp m Q s) as Hkeep.
  { intros A m Q s' Hm Hs' He Ha. unfold se_wp. specialize (Hm s' Hs'). destruct (m s') as [[a|e] s2]; [by apply Ha|apply He]. }
  unfold run_backup_with_progress. apply se_wp_bind, Hkeep; [by steps|done|by intros ? ? ? ?|]. intros existing s1 Hu1.
  apply se_wp_bind, Hkeep; [by steps|done|by intros ? ? ? ?|]. intros specs s2 Hu2.
  apply se_wp_bind, Hkeep; [by steps|done|by intros ? ? ? ?|]. intros [b files] s3 Hu3.
  apply se_wp_bind, Hkeep; [by steps|done|by intros ? ? ? ?|]. intros [] s4 Hu4.
  apply se_wp_bind, se_wp_modify, se_wp_bind, se_wp_modify, se_wp_bind.
  unfold se_wp at 1. match goal with |- context [Backup.put_manifest req files ?x] => set (s5 := x) end.
  destruct (put_manifest_like req files s5) as [Ht Hc].
  destruct (Backup.put_manifest req files s5) as [[[]|e] s6]; [|done]. cbn [fst snd] in *.
  apply se_wp_gets. intros r [= <-]. exists (Backup.ticks s4), (Backup.report s4), (Backup.totals_of specs).
  rewrite Ht, Hc. done.
Qed.

(** The calls of [backup_tick] that a run makes, at the times the clock gives. *)
Definition backup_calls (nows : list Instants) (ticks : list (BackupReport * Backup.BackupTotals * bool)) : list Call :=
  zip_with (λ now '(report, totals, final_tick), BackupTick now report totals final_tick) nows ticks.
End backup_progress.

Section json.
Context `{UlidPkg, EventJson}.

Definition json_lines (events : list BackupProgressEvent) : bytes :=
  events ≫= λ e, emit_json (backup_event_json e).

(** The stream of a JSON reporter, from its number on. *)
Lemma json_stream nows ticks p : length nows = length ticks → mode p = Json → 0 ≤ seq p → seq p + len ticks ≤ u64_max →
  ∃ events, (run_calls (backup_calls nows ticks) p).2 = json_lines events ∧
    be_seq <$> events = seqZ (seq p + 1) (len events) ∧ len events ≤ len ticks ∧
    ∀ r t, last ticks = Some (r, t, true) → ∃ e n d, last events = Some e ∧ e = backup_event n d r t.
Proof.
  revert nows p. induction ticks as [|[[r t] f] ticks IH]; intros [|now nows] p Hl Hm Hp0 Hs; try done.
  { exists []. by split_and!. }
  unfold len in Hs |- *. cbn [length] in *. cbn [backup_calls zip_with run_calls].
  change (zip_with _ nows ticks) with (backup_calls nows ticks).
  set (c := BackupTick now r t f).
  assert (∃ p' out events0, run_call c p = (p', out) ∧ mode p' = Json ∧ out = json_lines events0 ∧
    ((f = false ∧ events0 = [] ∧ seq p' = seq p) ∨ (∃ d, events0 = [backup_event (seq p + 1) d r t] ∧ seq p' = seq p + 1)))
    as (p' & out & ev0 & -> & Hm' & -> & Hcase).
  { destruct (run_tick c now f p eq_refl) as [[_ ->]|[Hnd ->]].
    - assert (seq (bump_seq (set_render (at_stamp now) p)) = seq p + 1) as Hb.
      { change (u64_add (seq p) 1 = seq p + 1). unfold u64_add. rewrite Z.mod_small; unfold u64_max in *; lia. }
      unfold c at 1. cbn [rendering]. change (mode (set_render (at_stamp now) p)) with (mode p). rewrite Hm, Hb.
      do 2 eexists. exists [backup_event (seq p + 1) (elapsed (start p) (at_start now)) r t]. split; [reflexivity|].
      split; [exact Hm|]. split; [|by right; eexists].
      unfold json_lines. rewrite bind_singleton. reflexivity.
    - exists p, [], []. split_and!; [done..|]. left. split_and!; [|done..]. destruct f; [|done].
      destruct Hnd. split; [by rewrite Hm|by left]. }
  destruct (IH nows p') as (ev & Hrun & Hseq & Hlen & Hlast); [lia|done|..].
  1,2: destruct Hcase as [(-> & -> & ->)|(d & -> & ->)]; unfold len in *; lia.
  destruct (run_calls (backup_calls nows ticks) p') as [p'' rest]. cbn [snd] in *. exists (ev0 ++ ev).
  split; [rewrite Hrun; unfold json_lines; by rewrite bind_app|].
  assert (be_seq <$> ev0 = seqZ (seq p + 1) (len ev0) ∧ seq p' = seq p + len ev0 ∧ len ev0 ≤ 1) as (Hq0 & Hp' & Hle).
  { destruct Hcase as [(_ & -> & ->)|(d & -> & ->)]; (split; [done|]); unfold len; cbn [length]; lia. }
  split; [|split].
  - rewrite fmap_app, Hq0, Hseq, Hp', length_app, Nat2Z.inj_add, seqZ_app by (unfold len; lia).
    unfold len. f_equal. f_equal. lia.
  - rewrite length_app. unfold len in *. lia.
  - intros r' t' Hl'. destruct ticks as [|x ticks].
    + cbn in Hl'. injection Hl' as <- <- ->. assert (ev = []) as -> by (destruct ev; [done|unfold len in Hlen; cbn [length] in Hlen; lia]).
      destruct Hcase as [(? & _)|(d & -> & _)]; [done|]. rewrite app_nil_r. by exists (backup_event (seq p + 1) d r t), (seq p + 1), d.
    + destruct (Hlast r' t' Hl') as (e & n & d & He & Heq). exists e, n, d. split; [|done].
      by rewrite last_app, He.
Qed.
End json.

Section backup_stream.
Context `{UlidPkg, Blake3Pkg, FastCdcPkg, ZstdPkg, AeadPkg, EventJson} {S : Type} `{!Busyncr S} {R : Type} `{!CryptoRng R}.

(** C38. The JSON stream of a backup ends with its report.  Over any server and whatever the
    times of the ticks, the events of a backup that succeeds are numbered 1, 2, 3, ...,
    and the last one carries the counters of the report. *)
Theorem backup_stream_ends_with_report (req : BackupRequest) (server : S) (rng : R) (report : BackupReport)
    (s : Backup.Session) (nows : list Instants) (is_terminal : bool) (now : Z) :
  run_backup req server rng = (Ok report, s) →
  length nows = length (Backup.ticks s) → len (Backup.ticks s) ≤ u64_max →
  ∃ events e,
    (run_calls (backup_calls nows (Backup.ticks s)) (ProgressReporter_new false true is_terminal now)).2 = json_lines events ∧
    be_seq <$> events = seqZ 1 (len events) ∧ last events = Some e ∧
    be_files e = Backup.report_files report ∧ be_chunks_hashed e = Backup.chunks_total report ∧
    be_chunks_to_ship e = Backup.chunks_unique report ∧ be_chunks_shipped e = Backup.chunks_uploaded report ∧
    be_bytes_up e = Backup.upload_bytes report.
Proof.
  intros Hrun Hl Hmax. destruct (run_backup_ticks req server rng report s Hrun) as (pre & r & t & Ht & _ & Hc).
  destruct (json_stream nows (Backup.ticks s) (ProgressReporter_new false true is_terminal now))
    as (events & Hout & Hseq & _ & Hlast); [done|done|done|done|].
  destruct (Hlast r t) as (e & n & d & He & ->); [by rewrite Ht, last_snoc|].
  exists events, (backup_event n d r t). split; [exact Hout|]. split; [exact Hseq|]. split; [exact He|].
  injection Hc as ? ? ? ? ?. by repeat split.
Qed.
End backup_stream.

(** ** On concrete inputs *)

Module Examples.
Import Reference MemoryServer.
Import WalkTheorems.Examples(data) BackupTheorems.Examples(request).

(** An encoder of the two numbers that matter here. *)
#[local] Instance toy_json : EventJson := {|
  backup_event_json e := Some (decimal (be_seq e) ++ str " " ++ decimal (be_files e));
  restore_event_json e := Some (decimal (re_seq e) ++ str " " ++ decimal (re_files e)) |}.

Definition at_ms (ms : Z) : Instants := {| at_check := ms * 1000000; at_stamp := ms * 1000000; at_start := ms * 1000000 |}.

Definition outcome_of := run_backup (S := AStore) (R := Z) (request [data]) a_empty 7.

Lemma backup_stream_ends_with_report_witness :
  let ticks := Backup.ticks outcome_of.2 in let nows := at_ms <$> seqZ 0 (len ticks) in
  ∃ events e,
    (run_calls (backup_calls nows ticks) (ProgressReporter_new false true true 0)).2 = json_lines events ∧
    be_seq <$> events = seqZ 1 (len events) ∧ last events = Some e ∧ be_files e = 3.
Proof.
  cbn zeta. destruct outcome_of as [r s] eqn:E. cbn [snd].
  assert (match r with Ok report => Backup.report_files report = 3 | Err _ => False end) as Hr.
  { change r with (r, s).1. rewrite <- E. vm_compute. reflexivity. }
  destruct r as [report|]; [|destruct Hr].
  assert (len (Backup.ticks s) ≤ u64_max) as Hmax by (change s with (@Ok BackupError _ report, s).2; rewrite <- E; vm_compute; discriminate).
  destruct (backup_stream_ends_with_report (request [data]) a_empty 7 report s (at_ms <$> seqZ 0 (len (Backup.ticks s))) true 0 E)
    as (events & e & H1 & H2 & H3 & H4 & _); [by rewrite length_fmap, length_seqZ; unfold len; rewrite Nat2Z.id|done|].
  exists events, e. exact (conj H1 (conj H2 (conj H3 (eq_trans H4 Hr)))).
Defined.

(** A hundred milliseconds between the ticks: every other one is shown, and the last. *)
Definition report (n : Z) : BackupReport := {|
  Backup.report_snapshot_id := (vreplicate 16 x01 : @Ulid ulid); Backup.report_files := n; Backup.source_bytes := 0;
  Backup.chunks_total := n; Backup.chunks_unique := n; Backup.chunks_uploaded := 0; Backup.chunks_deduped := n;
  Backup.upload_bytes := 0; Backup.manifest_bytes := 0; Backup.compression := PolicyCounters_default |}.
Definition tick (n : Z) (final_tick : bool) : Call :=
  BackupTick (at_ms (100 * n)) (report n) {| Backup.total_files := 4; Backup.total_bytes := 0 |} final_tick.
Definition calls : list Call := [tick 1 false; tick 2 false; tick 3 false; tick 4 true].

Lemma rendering_is_throttled_witness :
  let p := ProgressReporter_new false true true 0 in
  (len (filter intermediate (trace calls p)) - 1) * MIN_INTERVAL ≤ 400000000 - 0 ∧
  snd <$> trace calls p = [str "1 1" ++ [x0a]; []; str "2 3" ++ [x0a]; str "3 4" ++ [x0a]].
Proof.
  cbn zeta. split; [|vm_compute; reflexivity].
  refine (proj1 (rendering_is_throttled false true true 0 400000000 calls _ _ _)); [by eexists|by eexists|].
  vm_compute. repeat split; discriminate.
Defined.

(** The doc of [finish] calls it a no-op when the last render was the final tick: on a
    terminal it ends another row. *)
Lemma finish_after_final_tick_leaves_a_blank_row :
  row (show blank (run_calls (calls ++ [Finish]) (ProgressReporter_new false false true 0)).2) = [] ∧
  last (finished (show blank (run_calls (calls ++ [Finish]) (ProgressReporter_new false false true 0)).2)) = Some [].
Proof. split; vm_compute; reflexivity. Qed.
End Examples.
