(* ===== verification/Run.v ===== *)
(** * Scheduled runs ([busyncr-client/src/run.rs])

    The loop that backs up, reports the attempt and waits, until the shutdown
    signal.  What the loop does not decide is a sequence of rounds: the clock, the
    new snapshot identity, the state directory, the folder trees, the daemon that is
    reached, and whether the signal wins the race against the sleep. *)

From S2P Require Import Prelude External Float Text Chunking Compression Crypto StoreIO StoreLogic AtomicFile.
From S2P Require Import StoreSpec Rpc Identity Enroll EnrollTheorems Scheduler Backup WalkTheorems BackupTheorems.

Section run.
Context {Redb : RedbPkg Table} `{UlidPkg, Blake3Pkg, RcgenPkg, FastCdcPkg, ZstdPkg, AeadPkg}
  {S : Type} `{!Busyncr S} {R : Type} `{!CryptoRng R, !RandPkg R}.

(** [BackupError], its [Enroll] variant included. *)
Inductive AttemptError :=
  | AttemptEnroll (e : EnrollError)
  | AttemptBackup (e : BackupError).

Record RunRequest := {
  run_daemon_url : bytes;
  run_state_dir : bytes;
  run_roots : list bytes;
  run_chunker : ChunkerConfig;
  run_compression : PolicyConfig;
  schedule : SchedulePolicy;
}.

Record Round := {
  now_ms : Z;
  new_ulid : Ulid;
  state : World;
  trees : bytes → option Node;
  dial : bytes → bytes → bytes → bytes → option S;
  shutdown_wins : bool;
}.

(** What [on_tick] is told, and what the attempt left of the daemon it reached. *)
Record Tick := {
  started_at_ms : Z;
  tick_result : result AttemptError BackupReport;
  tick_server : option S;
}.

Section request.
Context (req : RunRequest).

(** The first lines of [run_backup_with_progress]. *)
Definition open_session (dial : bytes → bytes → bytes → bytes → option S) :
    M EnrollError (DataKey * ChunkIdKey * S) :=
  key ← load_data_key (run_state_dir req);
  chunk_id_key ← load_chunk_id_key (run_state_dir req);
  client ← connect_authenticated (run_state_dir req) dial (run_daemon_url req);
  mret (key, chunk_id_key, client).

Definition backup_request (r : Round) (key : DataKey) (chunk_id_key : ChunkIdKey) : BackupRequest := {|
  Backup.roots := (λ path, {| root_path := path; root_node := trees r path |}) <$> run_roots req;
  Backup.chunker := run_chunker req;
  Backup.policy := run_compression req;
  Backup.req_snapshot_id := new_ulid r;
  Backup.req_created_at := now_ms r / 1000;
  Backup.key := key;
  Backup.chunk_id_key := chunk_id_key;
|}.

(** One attempt: [None] when the machine stops inside it. *)
Definition attempt (r : Round) (rng : R) : option (Tick * R) :=
  match (open_session (dial r) (state r)).1 with
  | Crashed => None
  | Failed e => Some ({| started_at_ms := now_ms r; tick_result := Err (AttemptEnroll e);
                         tick_server := None |}, rng)
  | Done (key, chunk_id_key, server) =>
      let '(result, s) := run_backup (backup_request r key chunk_id_key) server rng in
      Some ({| started_at_ms := now_ms r; tick_result := map_err AttemptBackup result;
               tick_server := Some (client s) |}, session_rng s)
  end.

(** What happens, in order. *)
Inductive Event :=
  | OnTick (t : Tick)
  | Slept (d : Duration).

Inductive RunEnd := Shutdown | StillRunning | Panicked | Stopped.

(** The first [fuel] turns of the loop, from round [n] on. *)
Fixpoint run_scheduler (rounds : nat → Round) (fuel n : nat) (rng : R) : list Event * RunEnd :=
  match fuel with
  | 0%nat => ([], StillRunning)
  | Datatypes.S fuel =>
      match attempt (rounds n) rng with
      | None => ([], Stopped)
      | Some (tick, rng) =>
          match next_delay (schedule req) rng with
          | (None, _) => ([OnTick tick], Panicked)
          | (Some delay, rng) =>
              if shutdown_wins (rounds n) then ([OnTick tick], Shutdown)
              else
                let '(events, e) := run_scheduler rounds fuel (Datatypes.S n) rng in
                (OnTick tick :: Slept delay :: events, e)
          end
      end
  end.
End request.

Definition ticks_of (events : list Event) : list Tick :=
  omap (λ e, match e with OnTick t => Some t | Slept _ => None end) events.

(** ** The cadence *)

(** A backup, then a sleep of at most [bound] and so on, up to a backup; every one of
    them an attempt at its round. *)
Inductive cadence (req : RunRequest) (rounds : nat → Round) (bound : Duration) : nat → list Event → Prop :=
  | cadence_last n rng t rng' :
      attempt req (rounds n) rng = Some (t, rng') → cadence req rounds bound n [OnTick t]
  | cadence_more n rng t rng' d events :
      attempt req (rounds n) rng = Some (t, rng') → 0 ≤ d ≤ bound →
      cadence req rounds bound (Datatypes.S n) events →
      cadence req rounds bound n (OnTick t :: Slept d :: events).

Lemma cadence_tick req rounds bound n events i :
  cadence req rounds bound n events → (i < length (ticks_of events))%nat →
  ∃ rng t rng', ticks_of events !! i = Some t ∧ attempt req (rounds (n + i)%nat) rng = Some (t, rng').
Proof.
  intros Hc. revert i. induction Hc as [n rng t rng' Ha|n rng t rng' d events Ha _ _ IH]; intros i Hi.
  all: destruct i as [|i]; [exists rng, t, rng'; rewrite Nat.add_0_r; by split|].
  - apply Nat.succ_lt_mono in Hi. by apply Nat.nlt_0_r in Hi.
  - destruct (IH i) as (g & u & g' & Hu & Hau); [apply Nat.succ_lt_mono, Hi|]. exists g, u, g'. split; [exact Hu|].
    by rewrite Nat.add_succ_r.
Qed.

Section laws.
Context `{!RandLaws R}.
Context (req : RunRequest) (rounds : nat → Round) (k : Z).
(** The schedule is one that [SchedulePolicy::new] makes ([new_wf]), of less than
    [2^k] seconds. *)
Context (Hpolicy : policy_wf (schedule req)).
Context (Hk : 1 ≤ k ≤ 61) (Hinterval : 0 ≤ interval (schedule req) < 2 ^ k * 1000000000).
Abbreviation longest := (2 ^ (k + 2) * 1000000000).

Lemma open_session_crashes d w : (open_session req d w).1 = Crashed → may_crash w.
Proof.
  set (Q := λ (o : outcome EnrollError (DataKey * ChunkIdKey * S)) (_ : World), o = Crashed → may_crash w).
  enough (Hw : wp (open_session req d) Q w) by exact Hw.
  assert (∀ w', later w w' → may_crash w' → may_crash w) as Hlater by (intros; by eapply may_crash_later).
  unfold open_session, load_data_key, load_chunk_id_key, connect_authenticated.
  apply wp_bind. eapply wp_mono; [apply wp_load_raw_key|]. intros o w1 [(_ & _ & Hl1) Ho].
  destruct o as [key|e|]; [|done|by unfold Q].
  apply wp_bind. eapply wp_mono; [apply wp_load_raw_key|]. intros o w2 [(_ & _ & Hl2) Ho2].
  assert (later w w2) by by etrans. destruct o as [ck|e|]; [|done|intros _; eauto].
  do 2 apply wp_bind. eapply wp_mono; [apply wp_read_text|]. intros o w3 [(_ & _ & Hl3) Ho3].
  assert (later w w3) by by etrans. destruct o as [ca|e|]; [|done|intros _; eauto].
  apply wp_bind. eapply wp_mono; [apply wp_read_text|]. intros o w4 [(_ & _ & Hl4) Ho4].
  assert (later w w4) by by etrans. destruct o as [cert|e|]; [|done|intros _; eauto].
  apply wp_bind. eapply wp_mono; [apply wp_read_text|]. intros o w5 [(_ & _ & Hl5) Ho5].
  destruct o as [pem|e|]; [|done|intros _; eauto]. by destruct (ok_or _ _).
Qed.

Lemma attempt_ends r rng : ¬ may_crash (state r) →
  ∃ t rng', attempt req r rng = Some (t, rng') ∧ started_at_ms t = now_ms r.
Proof.
  intros Hc. unfold attempt. pose proof (open_session_crashes (dial r) (state r)) as Ho.
  destruct (open_session req (dial r) (state r)).1 as [[[key ck] server]|e|]; [|by eauto|by destruct Hc; auto].
  destruct (run_backup _ server rng) as [res s]. eauto.
Qed.

(** One turn of the loop, and the turns after it. *)
Lemma run_turn fuel n rng : ¬ may_crash (state (rounds n)) →
  ∃ t rng1 d rng2, attempt req (rounds n) rng = Some (t, rng1) ∧ started_at_ms t = now_ms (rounds n) ∧
    0 ≤ d ≤ longest ∧
    run_scheduler req rounds (Datatypes.S fuel) n rng =
      if shutdown_wins (rounds n) then ([OnTick t], Shutdown)
      else let '(events, e) := run_scheduler req rounds fuel (Datatypes.S n) rng2 in
           (OnTick t :: Slept d :: events, e).
Proof.
  intros Hc. destruct (attempt_ends _ rng Hc) as (t & rng1 & Ha & Ht).
  destruct (next_delay_draws (schedule req) k rng1) as (d & rng2 & Hd & Hb & _); [done..|].
  exists t, rng1, d, rng2. split_and!; [done..|lia|lia|]. cbn [run_scheduler]. by rewrite Ha, Hd.
Qed.

(** The run up to a round in which the signal wins. *)
Lemma run_until m fuel n rng :
  (∀ i, (i ≤ m)%nat → ¬ may_crash (state (rounds (n + i)))) →
  (∀ i, (i < m)%nat → shutdown_wins (rounds (n + i)) = false) →
  shutdown_wins (rounds (n + m)) = true → (m < fuel)%nat →
  ∃ events, run_scheduler req rounds fuel n rng = (events, Shutdown) ∧
    cadence req rounds longest n events ∧
    started_at_ms <$> ticks_of events = (λ i, now_ms (rounds i)) <$> seq n (Datatypes.S m).
Proof.
  revert fuel n rng. induction m as [|m IH]; intros [|fuel] n rng Hc Hs Hm Hf; [lia| |lia|].
  all: assert (Hc0 : ¬ may_crash (state (rounds n))) by (rewrite <- (Nat.add_0_r n); apply Hc; lia).
  all: destruct (run_turn fuel n rng Hc0) as (t & rng1 & d & rng2 & Ha & Ht & Hd & ->).
  - rewrite Nat.add_0_r in Hm. rewrite Hm. exists [OnTick t]. split; [done|]. split; [by econstructor|].
    cbn. by rewrite Ht.
  - assert (shutdown_wins (rounds n) = false) as -> by (rewrite <- (Nat.add_0_r n); apply Hs; lia).
    destruct (IH fuel (Datatypes.S n) rng2) as (events & -> & Hcad & Hst);
      [intros i Hi; rewrite Nat.add_succ_l, <- Nat.add_succ_r; first [apply Hc|apply Hs]; lia..|
       by rewrite Nat.add_succ_l, <- Nat.add_succ_r|lia|].
    eexists. split; [done|]. split; [by econstructor|].
    change (started_at_ms t :: (started_at_ms <$> ticks_of events) =
      now_ms (rounds n) :: ((λ i, now_ms (rounds i)) <$> seq (Datatypes.S n) (Datatypes.S m))).
    by rewrite Ht, Hst.
Qed.

(** The run while the signal does not come. *)
Lemma run_on fuel n rng :
  (∀ i, (i < fuel)%nat → ¬ may_crash (state (rounds (n + i)))) →
  (∀ i, (i < fuel)%nat → shutdown_wins (rounds (n + i)) = false) →
  let '(events, e) := run_scheduler req rounds fuel n rng in
  e = StillRunning ∧ length (ticks_of events) = fuel.
Proof.
  revert n rng. induction fuel as [|fuel IH]; intros n rng Hc Hs; [done|].
  assert (Hc0 : ¬ may_crash (state (rounds n))) by (rewrite <- (Nat.add_0_r n); apply Hc; lia).
  destruct (run_turn fuel n rng Hc0) as (t & rng1 & d & rng2 & Ha & Ht & Hd & ->).
  assert (shutdown_wins (rounds n) = false) as -> by (rewrite <- (Nat.add_0_r n); apply Hs; lia).
  specialize (IH (Datatypes.S n) rng2).
  destruct (run_scheduler req rounds fuel (Datatypes.S n) rng2) as [events e].
  destruct IH as [He Hl]; [intros i Hi; rewrite Nat.add_succ_l, <- Nat.add_succ_r; first [apply Hc|apply Hs]; lia..|].
  split; [done|]. exact (f_equal Datatypes.S Hl).
Qed.

(** A round is reached whatever the attempts before it came to. *)
Lemma run_reaches m fuel n rng :
  (∀ i, (i ≤ m)%nat → ¬ may_crash (state (rounds (n + i)))) →
  (∀ i, (i < m)%nat → shutdown_wins (rounds (n + i)) = false) → (m < fuel)%nat →
  ∃ g t g', ticks_of (run_scheduler req rounds fuel n rng).1 !! m = Some t ∧
    attempt req (rounds (n + m)) g = Some (t, g').
Proof.
  revert fuel n rng. induction m as [|m IH]; intros [|fuel] n rng Hc Hs Hf; [lia| |lia|].
  all: assert (Hc0 : ¬ may_crash (state (rounds n))) by (rewrite <- (Nat.add_0_r n); apply Hc; lia).
  all: destruct (run_turn fuel n rng Hc0) as (t & rng1 & d & rng2 & Ha & Ht & Hd & ->).
  - exists rng, t, rng1. rewrite Nat.add_0_r. split; [|done].
    by destruct (shutdown_wins _); [|destruct (run_scheduler _ _ _ _ _)].
  - assert (shutdown_wins (rounds n) = false) as -> by (rewrite <- (Nat.add_0_r n); apply Hs; lia).
    destruct (IH fuel (Datatypes.S n) rng2) as (g & u & g' & Hu & Hau);
      [intros i Hi; rewrite Nat.add_succ_l, <- Nat.add_succ_r; first [apply Hc|apply Hs]; lia..|lia|].
    exists g, u, g'. rewrite Nat.add_succ_r, <- Nat.add_succ_l. split; [|done].
    by destruct (run_scheduler req rounds fuel (Datatypes.S n) rng2).
Qed.

End laws.

(** ** A daemon that is back *)

Section lawful.
Context `{!UlidLaws, !FastCdcLaws, !ZstdLaws, !AeadLaws, !BusyncrLaws S, !RandLaws R}.

(** The state directory of an enrolled client that has its keys, on a machine
    without faults: [ca], [cert] and [pem] are what it presents. *)
Record enrolled (dir : bytes) (w : World) (key : DataKey) (chunk_id_key : ChunkIdKey) (ca cert pem : bytes) : Prop := {
  en_faults : faults w = [];
  en_key : files w !! in_state dir DATA_KEY_FILE = Some (settled (vec_to_list key));
  en_chunk_id_key : files w !! in_state dir CHUNK_ID_KEY_FILE = Some (settled (vec_to_list chunk_id_key));
  en_pems : Forall (λ '(file, text), files w !! in_state dir file = Some (settled text) ∧ utf8_valid text = true)
    [(CA_CERT_FILE, ca); (CLIENT_CERT_FILE, cert); (CLIENT_KEY_FILE, pem)];
}.

(** Steps of a machine without faults that hold what is read. *)
Lemma wp_load_raw_key_ok w w1 path (key : array 32) (Q : outcome EnrollError (array 32) → World → Prop) :
  faults w = [] → same w w1 → files w !! path = Some (settled (vec_to_list key)) →
  (∀ w2, same w w2 → Q (Done key) w2) → wp (load_raw_key path) Q w1.
Proof.
  intros Hf Hs Hk HQ. destruct (no_fault_fails w1) as [Hnf Hnc]; [by eapply no_faults; [exact Hf|apply Hs]|].
  assert (raw_key w1 path = Ok key) as Hr by (apply raw_key_settled; by rewrite (proj1 Hs)).
  eapply wp_mono; [apply wp_load_raw_key|]. intros o w2 [Hs2 Ho]. assert (same w w2) by by etrans.
  rewrite Hr in Ho. destruct o as [k|e|]; [|naive_solver..]. injection Ho as <-. by apply HQ.
Qed.

Lemma wp_read_text_ok w w1 path text (Q : outcome EnrollError bytes → World → Prop) :
  faults w = [] → same w w1 → files w !! path = Some (settled text) → utf8_valid text = true →
  (∀ w2, same w w2 → Q (Done text) w2) → wp (read_text path) Q w1.
Proof.
  intros Hf Hs Hk Hu HQ. assert (faults w1 = []) as Hf1 by (eapply no_faults; [exact Hf|apply Hs]).
  assert (files w1 !! path = Some (settled text)) as Hk1 by by rewrite (proj1 Hs).
  destruct (read_text_settled path text w1 Hf1 Hk1 Hu) as [w2 Hr].
  pose proof (wp_read_text path w1) as [Hs2 _]. unfold wp. rewrite Hr in *. apply HQ. by etrans.
Qed.

Lemma wp_open_session req d w key chunk_id_key ca cert pem server :
  enrolled (run_state_dir req) w key chunk_id_key ca cert pem → d (run_daemon_url req) ca cert pem = Some server →
  wp (open_session req d) (λ o w', o = Done (key, chunk_id_key, server) ∧ same w w') w.
Proof.
  intros [Hf Hk Hck [[Hca Hca8] [[Hce Hce8] [[Hpe Hpe8] _]%Forall_cons]%Forall_cons]%Forall_cons] Hd.
  unfold open_session, load_data_key, load_chunk_id_key, connect_authenticated.
  apply wp_bind. eapply (wp_load_raw_key_ok w w); [done..|]. intros w1 Hs1.
  apply wp_bind. eapply (wp_load_raw_key_ok w w1); [done..|]. intros w2 Hs2.
  do 2 apply wp_bind. eapply (wp_read_text_ok w w2); [done..|]. intros w3 Hs3.
  apply wp_bind. eapply (wp_read_text_ok w w3); [done..|]. intros w4 Hs4.
  apply wp_bind. eapply (wp_read_text_ok w w4); [done..|]. intros w5 Hs5. by rewrite Hd.
Qed.

Lemma open_session_ok req d w key chunk_id_key ca cert pem server :
  enrolled (run_state_dir req) w key chunk_id_key ca cert pem → d (run_daemon_url req) ca cert pem = Some server →
  (open_session req d w).1 = Done (key, chunk_id_key, server).
Proof. intros He Hd. by apply (wp_open_session req d w key chunk_id_key ca cert pem server He Hd). Qed.

End lawful.
End run.

(** ** Examples *)

Module Examples.
Import Reference IdentityReference MemoryServer Scheduler.Examples.
Import WalkTheorems.Examples(data, root_wf_data) BackupTheorems.Examples(cfg, request, content, starts).

Definition dir : bytes := str "state".
Definition req : RunRequest := {|
  run_daemon_url := str "https://backup:47820"; run_state_dir := dir; run_roots := [root_path data];
  run_chunker := cfg; run_compression := PolicyConfig_default; schedule := default_policy |}.

Definition machine : World := {|
  files := list_to_map [
    (in_state dir DATA_KEY_FILE, settled (replicate 32 x41));
    (in_state dir CHUNK_ID_KEY_FILE, settled (replicate 32 x42));
    (in_state dir CA_CERT_FILE, settled (str "ca"));
    (in_state dir CLIENT_CERT_FILE, settled (str "cert"));
    (in_state dir CLIENT_KEY_FILE, settled (str "pem"))];
  disk := Db_empty; work := Db_empty; faults := [] |}.

(** Every three hours; the daemon is down at first, and the signal comes at the third
    round. *)
Definition rounds (n : nat) : Round := {|
  now_ms := 1700000000000 + 10800000 * (Z.of_nat n - 1); new_ulid := (vreplicate 16 x01 : @Ulid ulid);
  state := machine; trees := λ _, root_node data;
  dial := λ _ _ _ _, match n with 0%nat => None | _ => Some a_empty end;
  shutdown_wins := bool_decide (n = 2%nat) |}.

Lemma rounds_live i : ¬ may_crash (state (rounds i)).
Proof. by apply no_fault_fails. Qed.

Lemma default_wf : policy_wf default_policy.
Proof. split; [done|vm_compute; reflexivity..]. Qed.

Lemma machine_enrolled : enrolled dir machine (vreplicate 32 x41) (vreplicate 32 x42) (str "ca") (str "cert") (str "pem").
Proof.
  split; [done|compute_eq..|]. repeat constructor; compute_eq.
Qed.


End Examples.
