(* ===== verification/ClientCli.v ===== *)
(** * The client's command line ([busyncr-client/src/main.rs])

    What the subcommands do between the command line and the terminal: the files they
    read, the operations they compose, the record of the last backup that [backup] and
    [run] leave for [status], and where a passphrase comes from.  Clocks, the folder
    trees, the connection that [dial] makes and what standard input holds are arguments;
    the texts that are printed are values or are left out. *)

From S2P Require Import Prelude External Float Text Base64 ClientConfig Chunking Compression Crypto StoreIO StoreLogic.
From S2P Require Import AtomicFile StoreSpec Rpc Identity Enroll EnrollTheorems Keys Snapshots.
From S2P Require Import Scheduler Backup WalkTheorems BackupTheorems Records Run.

Section commands.
Context {Redb : RedbPkg Table} `{UlidPkg, Blake3Pkg, RcgenPkg, FastCdcPkg, ZstdPkg, AeadPkg, Argon2Pkg}
  `{ClientConfigToml, TomlRecord LastBackupRecord} {R : Type} `{!CryptoRng R}.

(** [anyhow]'s contexts. *)
Inductive ClientError :=
  | ReadingCaCertificate
  | EnrollmentFailed (e : EnrollError)
  | SavingIdentity (e : EnrollError)
  | CreatingDataKey (e : EnrollError)
  | BadConfig (e : ConfigError)
  | BackupFailed (e : AttemptError)
  | PersistingRecord (e : StatusError)
  | ListingConnection (e : EnrollError)
  | ListingFailed (e : ListError)
  | ReadingPassphraseFile
  | PassphraseFileEmpty
  | ReadingStandardInput
  | EmptyPassphrase
  | ExportFailed (e : KeyError)
  | ImportFailed (e : KeyError)
  | ReadingRecord (e : StatusError)
  | BadIntervalArgument (msg : string)
  | BadSchedule (e : ScheduleError).

Abbreviation M := (StoreIO.M ClientError).

(** [ClientConfig::load]; [shown] is the path as it was given. *)
Definition load_config (config_path : FPath) (shown : bytes) : M ClientConfig :=
  text ← outcome_of (read_to_string () config_path);
  lift (map_err BadConfig (load shown (match text with Ok text => text | Err _ => None end))).

(** ** Enrolling *)

(** Whether a data key was created; with the daemon's half of the machine. *)
Definition run_enroll {S} `{!RcgenCsrPkg, !EnrollServer S} (daemon : bytes) (ca : FPath) (token name state : bytes)
    (entropy : Entropy) (rng : R) (w : World) (s : S) : outcome ClientError (bool * R) * World * S :=
  match read_to_string ReadingCaCertificate ca w with
  | (Done (Some ca_cert_pem), w) =>
      let request := {| daemon_url := daemon; req_ca_cert_pem := ca_cert_pem; token := token; req_name := name |} in
      let '(r, s) := request_enrollment request entropy s in
      (((identity ← lift (map_err EnrollmentFailed r);
         with_error SavingIdentity (save_identity state identity);;
         with_error CreatingDataKey (ensure_data_key state rng)) : M (bool * R)) w, s)
  | (Done None, w) => (Failed ReadingCaCertificate, w, s)
  | (Failed e, w) => (Failed e, w, s)
  | (Crashed, w) => (Crashed, w, s)
  end.

(** ** Backing up *)

(** Seconds since the epoch, or 0 if the clock is before it. *)
Definition seconds_now (clock : option Z) : Z := match clock with Some secs => to_i64 secs | None => 0 end.

Definition command_request (config : ClientConfig) (chunker : ChunkerConfig) (trees : bytes → option Node)
    (id : Ulid) (clock : option Z) (data_key : DataKey) (chunk_id_key : ChunkIdKey) : BackupRequest := {|
  Backup.roots := (λ path, {| root_path := path; root_node := trees path |}) <$> folders config;
  Backup.chunker := chunker;
  Backup.policy := ClientConfig.compression config;
  Backup.req_snapshot_id := id;
  Backup.req_created_at := seconds_now clock;
  Backup.key := data_key;
  Backup.chunk_id_key := chunk_id_key;
|}.

(** Milliseconds in a [u64]. *)
Definition duration_of (elapsed : Z) : Z := if decide (elapsed ≤ u64_max) then elapsed else u64_max.

(** What comes before the first call. *)
Definition prepare_backup {S} (config_path : FPath) (shown state : bytes) (default_chunking : bool)
    (id : Ulid) (clock : option Z) (trees : bytes → option Node)
    (dial : bytes → bytes → bytes → bytes → option S) : M (BackupRequest * S) :=
  config ← load_config config_path shown;
  chunker ← lift (map_err BadConfig (ClientConfig.chunker config default_chunking));
  '(data_key, chunk_id_key, client) ← with_error (λ e, BackupFailed (AttemptEnroll e))
    (data_key ← load_data_key state;
     chunk_id_key ← load_chunk_id_key state;
     client ← connect_authenticated state dial (ClientConfig.daemon config);
     mret (data_key, chunk_id_key, client));
  mret (command_request config chunker trees id clock data_key chunk_id_key, client).

(** The clock is in seconds, [elapsed] in milliseconds; what becomes of the daemon that
    was reached is returned. *)
Definition backup_command {S} `{!Busyncr S} (config_path : FPath) (shown state : bytes) (default_chunking : bool)
    (id : Ulid) (clock : option Z) (elapsed : Z) (trees : bytes → option Node)
    (dial : bytes → bytes → bytes → bytes → option S) (rng : R) (w : World) :
    outcome ClientError BackupReport * World * option S :=
  match prepare_backup config_path shown state default_chunking id clock trees dial w with
  | (Done (request, server), w) =>
      let '(report, s) := run_backup request server rng in
      (((report ← lift (map_err (λ e, BackupFailed (AttemptBackup e)) report);
         with_error PersistingRecord
           (LastBackupRecord_save state (from_report report (seconds_now clock) (duration_of elapsed)));;
         mret report) : M BackupReport) w, Some (client s))
  | (Failed e, w) => (Failed e, w, None)
  | (Crashed, w) => (Crashed, w, None)
  end.

(** [report_tick]: what it persists for a scheduled attempt; a failure is only printed.
    The clock is in milliseconds; both times are after the epoch. *)
Definition report_tick {S} (state : bytes) (tick : Tick (S := S)) (clock : option Z) : StoreIO.M StatusError unit :=
  match tick_result tick with
  | Ok report =>
      let now_ms := match clock with Some ms => to_i64 ms | None => started_at_ms tick end in
      let duration_ms := Z.max (now_ms - started_at_ms tick) 0 in
      let created_at := started_at_ms tick / 1000 in
      ignore (LastBackupRecord_save state (from_report report created_at duration_ms))
  | Err _ => mret ()
  end.

(** [run], up to the loop: what it is to do. *)
Definition run_scheduled (shown state : bytes) (text : option bytes) (default_chunking : bool) (interval : bytes)
    (jitter : f64) : result ClientError RunRequest :=
  config ← map_err BadConfig (load shown text);
  chunker ← map_err BadConfig (ClientConfig.chunker config default_chunking);
  interval ← map_err BadIntervalArgument (parse_duration interval);
  schedule ← map_err BadSchedule (SchedulePolicy_new interval jitter);
  Ok {| run_daemon_url := ClientConfig.daemon config; run_state_dir := state; run_roots := folders config;
        run_chunker := chunker; run_compression := ClientConfig.compression config; schedule := schedule |}.

(** ** Listing *)

Definition run_list {S} `{!Busyncr S} (config_path : FPath) (shown state : bytes)
    (dial : bytes → bytes → bytes → bytes → option S) : M (list (bytes * bytes)) :=
  config ← load_config config_path shown;
  client ← with_error ListingConnection (connect_authenticated state dial (ClientConfig.daemon config));
  entries ← lift (map_err ListingFailed (list_snapshots client).1);
  mret ((λ e, (Ulid_to_string (entry_id e), format_utc_ms (timestamp_ms e))) <$> entries).

(** ** Passphrases *)

(** [trim_end_matches(['\r', '\n'])]. *)
Definition trim_line_end (s : bytes) : bytes :=
  reverse (strip_while (length s) [[x0d]; [x0a]] (reverse s)).

(** [stdin]: what reading a line gave, [None] being an error. *)
Definition resolve_passphrase (passphrase : option bytes) (passphrase_file : option FPath) (stdin : option bytes) :
    M bytes :=
  match passphrase, passphrase_file with
  | Some p, _ => mret p
  | None, Some path =>
      contents ← read_to_string ReadingPassphraseFile path;
      contents ← lift (ok_or ReadingPassphraseFile contents);
      let first := default [] (head (lines contents)) in
      if decide (first = []) then fail PassphraseFileEmpty else mret first
  | None, None =>
      line ← lift (ok_or ReadingStandardInput stdin);
      let trimmed := trim_line_end line in
      if decide (trimmed = []) then fail EmptyPassphrase else mret trimmed
  end.

Definition run_export_key (state : bytes) (output : FPath) (passphrase : option bytes) (passphrase_file : option FPath)
    (stdin : option bytes) (rng : R) : M R :=
  passphrase ← resolve_passphrase passphrase passphrase_file stdin;
  with_error ExportFailed (export_key state output passphrase KdfParams_default rng).

Definition run_import_key (state : bytes) (keyfile : FPath) (passphrase : option bytes) (passphrase_file : option FPath)
    (stdin : option bytes) : M ImportOutcome :=
  passphrase ← resolve_passphrase passphrase passphrase_file stdin;
  with_error ImportFailed (import_key state keyfile passphrase).

(** ** Status *)

Record ClientStatusJson := {
  st_enrolled : bool;
  st_name : option bytes;
  st_cert_fingerprint : option bytes;
  st_daemon_url : option bytes;
  st_chunk_target_size : option bytes;
  st_last_backup : option LastBackupRecord;
  st_recent_snapshots : list (bytes * bytes);
  st_daemon_reachable : bool;
}.

(** The last [limit] entries, oldest first. *)
Definition recent_entries (limit : nat) (entries : list SnapshotEntry) : list (bytes * bytes) :=
  reverse ((λ e, (Ulid_to_string (entry_id e), format_utc_ms (timestamp_ms e))) <$> take limit (reverse entries)).

(** [snapshots::list_snapshots], any failure of which is the same to [status]. *)
Definition fetch_entries {S} `{!Busyncr S} (state url : bytes) (dial : bytes → bytes → bytes → bytes → option S) :
    M (option (list SnapshotEntry)) :=
  client ← outcome_of (connect_authenticated state dial url);
  mret (match client with Ok client => result_ok (list_snapshots client).1 | Err _ => None end).

Definition run_status {S} `{!Busyncr S} (state : bytes) (config_path : option (FPath * bytes)) (limit : nat)
    (dial : bytes → bytes → bytes → bytes → option S) : M ClientStatusJson :=
  name ← outcome_of (load_enrollment_name state);
  cert_fingerprint ← outcome_of (cert_fingerprint state);
  let name := result_ok name in
  let cert_fingerprint := result_ok cert_fingerprint in
  let enrolled := bool_decide (is_Some name ∧ is_Some cert_fingerprint) in
  config ← match config_path with
           | Some (path, shown) => config ← load_config path shown; mret (Some config)
           | None => mret None
           end;
  last_backup ← with_error ReadingRecord (LastBackupRecord_load state);
  fetched ← match config, enrolled with
            | Some config, true => fetch_entries state (ClientConfig.daemon config) dial
            | _, _ => mret None
            end;
  mret {| st_enrolled := enrolled;
          st_name := name;
          st_cert_fingerprint := cert_fingerprint;
          st_daemon_url := ClientConfig.daemon <$> config;
          st_chunk_target_size := config ≫= chunk_target_size;
          st_last_backup := last_backup;
          st_recent_snapshots := match fetched with Some entries => recent_entries limit entries | None => [] end;
          st_daemon_reachable := bool_decide (is_Some fetched) |}.
End commands.

(** ** Passphrases from any source *)

Section passphrases.
Context {Redb : RedbPkg Table} `{UlidPkg, Blake3Pkg, RcgenPkg}.
Implicit Types (w : World) (p : bytes).

(** What may follow a first line. *)
Definition line_ends (rest : bytes) : Prop :=
  rest = [] ∨ (∃ more, rest = x0a :: more) ∨ ∃ more, rest = x0d :: x0a :: more.

Lemma strip_cr_snoc p : strip_cr (p ++ [x0d]) = p.
Proof. unfold strip_cr. by rewrite reverse_snoc, reverse_involutive. Qed.

Lemma lines_from_end cur l : x0a ∉ l → cur ++ l ≠ [] → lines_from cur l = [cur ++ l].
Proof.
  revert cur; induction l as [|b l IH]; intros cur Hl Hne.
  - rewrite app_nil_r in *. by destruct cur.
  - apply not_elem_of_cons in Hl as [Hb Hl]. cbn [lines_from]. rewrite decide_False by congruence.
    rewrite IH by (by rewrite <- app_assoc || done). by rewrite <- app_assoc.
Qed.

Lemma first_line p rest : p ≠ [] → x0a ∉ p → x0d ∉ p → line_ends rest →
  default [] (head (lines (p ++ rest))) = p.
Proof.
  intros Hne Ha Hd [->|[[more ->]|[more ->]]]; unfold lines.
  - rewrite app_nil_r, lines_from_end; done.
  - rewrite lines_from_line by done. cbn. by apply strip_cr_id.
  - change (x0d :: x0a :: more) with ([x0d] ++ x0a :: more). rewrite app_assoc, lines_from_line by set_solver.
    cbn. by apply strip_cr_snoc.
Qed.

(** Carriage returns and newlines go, in any order and number. *)
Lemma strip_line_end q e fuel : Forall (λ b, b = x0d ∨ b = x0a) e → (length e ≤ fuel)%nat →
  match head q with Some b => b ≠ x0d ∧ b ≠ x0a | None => True end →
  strip_while fuel [[x0d]; [x0a]] (e ++ q) = q.
Proof.
  intros He. revert fuel. induction He as [|b e Hb _ IH]; intros fuel Hf Hq; cbn [app].
  - destruct fuel as [|fuel]; [done|]. cbn [strip_while].
    destruct (list_find _ _) as [[i w]|] eqn:E; [|done]. exfalso.
    apply list_find_Some in E as (Hi & [s' ->] & _). apply list_elem_of_lookup_2 in Hi.
    assert (w = [x0d] ∨ w = [x0a]) as [->| ->] by set_solver; cbn in Hq; naive_solver.
  - cbn [length] in Hf. destruct fuel as [|fuel]; [lia|]. cbn [strip_while].
    assert (list_find (λ w : bytes, w `prefix_of` b :: e ++ q) [[x0d]; [x0a]] =
      Some (if decide (b = x0d) then (0%nat, [x0d]) else (1%nat, [x0a]))) as ->.
    { destruct Hb as [->| ->]; cbn; rewrite ?decide_True by (by exists (e ++ q)); [done|].
      rewrite decide_False by (intros [? [=]]). cbn. by rewrite decide_True by (by exists (e ++ q)). }
    destruct (decide (b = x0d)); cbn [length drop]; apply IH; done || lia.
Qed.

Lemma trim_line_end_line p e : x0a ∉ p → x0d ∉ p → Forall (λ b, b = x0d ∨ b = x0a) e → trim_line_end (p ++ e) = p.
Proof.
  intros Ha Hd He. unfold trim_line_end. rewrite reverse_app, strip_line_end, reverse_involutive; [done|..].
  - by apply Forall_reverse.
  - rewrite length_reverse, length_app. lia.
  - destruct (reverse p) as [|b r] eqn:E; [done|]. assert (b ∈ p) by (apply elem_of_reverse; rewrite E; by left).
    cbn. split; by intros ->.
Qed.

(** A passphrase means the same from every source: given on the command line, as the
    first line of a file, whatever ends that line and follows it, and typed on standard
    input, with any end of line, so that a keyfile that was sealed with one of them
    opens with another.  An empty one is refused from a file and from standard input. *)
Theorem passphrase_sources_agree p rest e path f w :
  p ≠ [] → x0a ∉ p → x0d ∉ p → line_ends rest → Forall (λ b, b = x0d ∨ b = x0a) e →
  faults w = [] → files w !! path = Some f → utf8_valid (content f) = true → content f = p ++ rest →
  (∀ file stdin, (resolve_passphrase (Some p) file stdin w).1 = Done p) ∧
  (∀ stdin, (resolve_passphrase None (Some path) stdin w).1 = Done p) ∧
  (resolve_passphrase None None (Some (p ++ e)) w).1 = Done p ∧
  (resolve_passphrase None None (Some e) w).1 = Failed EmptyPassphrase.
Proof.
  intros Hne Ha Hd Hr He Hf Hp Hu Hc. split; [done|]. split; [|split].
  - intros stdin. enough (wp (resolve_passphrase None (Some path) stdin) (λ o _, o = Done p) w) as Hw by exact Hw.
    destruct (no_fault_fails w Hf). unfold resolve_passphrase. apply wp_bind, wp_read_to_string; [|done..].
    intros w1 _. rewrite Hp, Hu. apply wp_lift_bind. cbn [ok_or].
    by rewrite Hc, first_line, decide_False.
  - cbn. unfold mbind, M_bind, lift. cbn. by rewrite trim_line_end_line, decide_False.
  - cbn. unfold mbind, M_bind, lift. cbn. pose proof (trim_line_end_line [] e) as Ht. cbn [app] in Ht.
    rewrite Ht by (done || apply not_elem_of_nil). by rewrite decide_True.
Qed.
End passphrases.

(** ** The record of the last backup *)

Section recording.
Context {Redb : RedbPkg Table} `{UlidPkg, Blake3Pkg, RcgenPkg} `{!TomlRecord LastBackupRecord, !TomlRecordLaws LastBackupRecord}.
Context {S : Type} (state : bytes).
(** Every record can be written. *)
Context (Henc : ∀ r : LastBackupRecord, is_Some (to_toml r)).
Implicit Types (w : World) (r : LastBackupRecord).
Abbreviation path := (last_backup_path state).

Definition recorded r w : Prop := ∃ body, to_toml r = Some body ∧ files w !! path = Some (unsynced body).

Lemma recorded_loads r w : faults w = [] → recorded r w → (LastBackupRecord_load state w).1 = Done (Some r).
Proof.
  intros Hf (body & Hb & Hp). destruct (no_fault_fails w Hf).
  enough (wp (LastBackupRecord_load state) (λ o _, o = Done (Some r)) w) as Hw by exact Hw.
  apply wp_load_record; [|done..]. intros w1 _. rewrite Hp. cbn [content unsynced].
  by rewrite (toml_is_utf8 _ _ Hb), (from_to_toml _ _ Hb).
Qed.

Lemma save_records r w : faults w = [] → ∃ w', LastBackupRecord_save state r w = (Done (), w') ∧
  faults w' = [] ∧ recorded r w' ∧ ∀ q, q ≠ path → files w' !! q = files w !! q.
Proof.
  intros Hf. destruct (Henc r) as [body Hb], (no_fault_fails w Hf).
  pose proof (wp_save_record StatusIo StatusEncode path r w) as Hw. unfold wp in Hw. rewrite Hb in Hw.
  unfold LastBackupRecord_save. destruct (save_record _ _ _ _ w) as [[[]|e|] w']; destruct Hw as (Hq & Hl & Hw); [|naive_solver..].
  exists w'. split; [done|]. split; [by eapply no_faults|]. split; [by exists body|exact Hq].
Qed.

(** The record that an attempt is worth. *)
Definition tick_record (tc : Tick (S := S) * option Z) : option LastBackupRecord :=
  match tick_result tc.1 with
  | Ok report => Some (from_report report (started_at_ms tc.1 / 1000)
      (match tc.2 with Some ms => Z.max (to_i64 ms - started_at_ms tc.1) 0 | None => 0 end))
  | Err _ => None
  end.

Definition report_ticks (ticks : list (Tick (S := S) * option Z)) : StoreIO.M StatusError unit :=
  foldM (λ _ tc, report_tick state tc.1 tc.2) () ticks.

Lemma report_tick_records tc w : faults w = [] → ∃ w', report_tick state tc.1 tc.2 w = (Done (), w') ∧
  faults w' = [] ∧ (∀ q, q ≠ path → files w' !! q = files w !! q) ∧
  match tick_record tc with Some r => recorded r w' | None => w' = w end.
Proof.
  intros Hf. destruct tc as [t clock]. unfold report_tick, tick_record. cbn [fst snd].
  destruct (tick_result t) as [report|e]; [|by exists w].
  set (r := from_report report _ _).
  replace (from_report report (started_at_ms t / 1000) _) with r by (unfold r; destruct clock; [done|]; by rewrite Z.sub_diag).
  destruct (save_records r w Hf) as (w' & Hs & Hf' & Hr & Hq). exists w'. unfold ignore. by rewrite Hs.
Qed.

(** What [status] calls the last backup is the last scheduled attempt that succeeded:
    after any run of the schedule, on a sound disk, whatever attempts failed before or
    after it, the record is that attempt's, with its snapshot, its start and how long
    it took; if none succeeded the record is as it was, and nothing else in the state
    directory has changed. *)
Theorem last_success_is_recorded ticks w : faults w = [] →
  ∃ w', report_ticks ticks w = (Done (), w') ∧
    (∀ q, q ≠ path → files w' !! q = files w !! q) ∧
    match last (omap tick_record ticks) with
    | Some r => (LastBackupRecord_load state w').1 = Done (Some r)
    | None => w' = w
    end.
Proof.
  intros Hf.
  assert (∃ w', report_ticks ticks w = (Done (), w') ∧ faults w' = [] ∧
    (∀ q, q ≠ path → files w' !! q = files w !! q) ∧
    match last (omap tick_record ticks) with Some r => recorded r w' | None => w' = w end) as (w' & E & Hf' & Hq & Hr).
  { revert w Hf. induction ticks as [|tc ticks IH]; intros w Hf; [by exists w|].
    destruct (report_tick_records tc w Hf) as (w1 & E1 & Hf1 & Hq1 & Hr1).
    destruct (IH w1 Hf1) as (w2 & E2 & Hf2 & Hq2 & Hr2). exists w2. split.
    { unfold report_ticks in *. cbn [foldM]. unfold mbind, M_bind. by rewrite E1. }
    split; [done|]. split; [intros q Hne; by rewrite Hq2, Hq1|].
    cbn [omap list_omap]. destruct (tick_record tc) as [r|]; [|by subst w1].
    rewrite last_cons. destruct (last (omap tick_record ticks)) as [r'|]; [done|]. by subst w2. }
  exists w'. split; [done|]. split; [done|]. destruct (last _); [by apply recorded_loads|done].
Qed.
End recording.

(** ** A backup's report is about its snapshot *)

Section report_identity.
Context `{UlidPkg, Blake3Pkg, FastCdcPkg, ZstdPkg, AeadPkg} {S : Type} `{!Busyncr S} {R : Type} `{!CryptoRng R}.
Abbreviation Session := (Backup.Session (S := S) (R := R)).

Definition same_id (s s' : Session) : Prop := report_snapshot_id (report s') = report_snapshot_id (report s).

Lemma same_id_moves : session_moves same_id.
Proof. split; [split; [by intros s|intros s1 s2 s3 H12 H23; unfold same_id in *; congruence]|by intros..]. Qed.
#[local] Instance same_id_order : PreOrder same_id := mv_order _ same_id_moves.

Lemma id_flush req phase pending : steps same_id (flush req phase pending).
Proof. apply steps_flush, same_id_moves. Qed.
Lemma id_backup_file req phase totals acc spec : steps same_id (backup_file req phase totals acc spec).
Proof. apply steps_backup_file, same_id_moves. Qed.
Lemma id_call {A} (rpc : S → result Code A * S) : steps same_id (call rpc).
Proof. apply steps_call, same_id_moves. Qed.
Lemma id_draw {A} (f : R → result CryptoError A * R) : steps same_id (draw f).
Proof. apply steps_draw, same_id_moves. Qed.
Lemma id_tick totals final : steps same_id (on_progress totals final).
Proof. by intros s. Qed.
#[local] Hint Resolve id_flush id_backup_file id_call id_draw id_tick : steps.
#[local] Hint Extern 1 (steps same_id (modify _)) => by intros ? : steps.

Lemma id_put_manifest req files : steps same_id (put_manifest req files).
Proof. unfold put_manifest. steps. Qed.
#[local] Hint Resolve id_put_manifest : steps.

(** What a program answers with names the snapshot that its session is about. *)
Definition answers_id (m : SE Session BackupError BackupReport) : Prop :=
  ∀ s x, (m s).1 = Ok x → report_snapshot_id x = report_snapshot_id (report s).

Lemma answers_bind {A} (m : SE Session BackupError A) (f : A → SE Session BackupError BackupReport) :
  steps same_id m → (∀ a, answers_id (f a)) → answers_id (m ≫= f).
Proof.
  intros Hm Hf s x. unfold mbind, SE_bind. specialize (Hm s). destruct (m s) as [[a|e] s1]; cbn [fst snd] in *; [|done].
  intros Hx. by rewrite (Hf a s1 x Hx).
Qed.
Lemma answers_gets : answers_id (gets report).
Proof. intros s x Hx. by injection Hx as <-. Qed.

Lemma run_backup_report_id req server rng report s :
  run_backup req server rng = (Ok report, s) → report_snapshot_id report = req_snapshot_id req.
Proof.
  intros Hrun. set (s0 := start server rng (req_snapshot_id req)).
  assert (answers_id (run_backup_with_progress req)) as Ha; [|apply (Ha s0); unfold run_backup in Hrun; fold s0 in Hrun; by rewrite Hrun].
  unfold run_backup_with_progress.
  repeat lazymatch goal with
  | |- ∀ _, _ => intros ?
  | |- answers_id (gets _) => apply answers_gets
  | |- answers_id (_ ≫= _) => apply answers_bind
  | |- answers_id (match ?x with _ => _ end) => destruct x
  end; steps.
Qed.
End report_identity.

(** ** The backup command *)

Section backup_command.
Context {Redb : RedbPkg Table} `{UlidLaws, Blake3Pkg, RcgenPkg, FastCdcLaws, ZstdLaws, AeadLaws, ClientConfigToml}
  `{!TomlRecord LastBackupRecord, !TomlRecordLaws LastBackupRecord} {S : Type} `{!Busyncr S, !BusyncrLaws S}
  {R : Type} `{!CryptoRng R}.
Implicit Types (w : World).

(** The configuration that the command reads, and its chunk sizes. *)
Definition configured (config_path : FPath) shown default_chunking w config chunker : Prop :=
  ∃ f, files w !! config_path = Some f ∧ utf8_valid (content f) = true ∧
    load shown (Some (content f)) = Ok config ∧ ClientConfig.chunker config default_chunking = Ok chunker.

Lemma enrolled_same dir w w' key chunk_id_key ca cert pem : same w w' →
  enrolled dir w key chunk_id_key ca cert pem → enrolled dir w' key chunk_id_key ca cert pem.
Proof.
  intros (Hf & _ & Hl) [H1' H2' H3' H4']. split; rewrite ?Hf; [by eapply no_faults|done..].
Qed.

Lemma wp_prepare_backup config_path shown state default_chunking id clock trees
    (dial : bytes → bytes → bytes → bytes → option S) config chunker data_key chunk_id_key ca cert pem server w :
  enrolled state w data_key chunk_id_key ca cert pem →
  configured config_path shown default_chunking w config chunker →
  dial (ClientConfig.daemon config) ca cert pem = Some server →
  wp (prepare_backup config_path shown state default_chunking id clock trees dial)
    (λ o w', o = Done (command_request config chunker trees id clock data_key chunk_id_key, server) ∧ same w w') w.
Proof.
  intros He (f & Hp & Hu & Hl & Hc) Hd. destruct (no_fault_fails w (en_faults _ _ _ _ _ _ _ He)) as [Hnf Hnc].
  unfold prepare_backup, load_config. apply wp_bind, wp_bind, wp_outcome_of, wp_read_to_string; [|done..].
  intros w1 Hs1. rewrite Hp, Hu. unfold wp at 1, lift. rewrite Hl. cbn [map_err fst snd].
  apply wp_lift_bind. rewrite Hc. cbn [map_err].
  pose proof (enrolled_same _ _ _ _ _ _ _ _ Hs1 He) as He1.
  set (req := {| run_daemon_url := ClientConfig.daemon config; run_state_dir := state; run_roots := [];
                 run_chunker := chunker; run_compression := PolicyConfig_default; schedule := default_policy |}).
  apply wp_bind, wp_with_error.
  eapply wp_mono; [exact (wp_open_session req dial w1 _ _ _ _ _ _ He1 Hd)|].
  intros o w2 [-> Hs2]. apply wp_ret. split; [done|by etrans].
Qed.

End backup_command.

(** ** Status *)

Section status.
Context {Redb : RedbPkg Table} `{UlidPkg, Blake3Pkg, RcgenPkg, ClientConfigToml, !TomlRecord LastBackupRecord}
  {S S' : Type} `{!Busyncr S, !Busyncr S'}.
Implicit Types (w : World).

(** The entries that are shown are the last ones, in the order of the listing. *)
Lemma recent_entries_last limit entries :
  recent_entries limit entries =
    (λ e, (Ulid_to_string (entry_id e), format_utc_ms (timestamp_ms e))) <$> drop (length entries - limit) entries.
Proof.
  unfold recent_entries. rewrite <- fmap_reverse. f_equal.
  rewrite <- (take_drop (length entries - limit) entries) at 1. set (k := drop _ _).
  assert (length k ≤ limit)%nat as Hk by (unfold k; rewrite length_drop; lia).
  rewrite reverse_app, take_app, length_reverse, reverse_app.
  rewrite (take_ge (reverse k)) by by rewrite length_reverse. rewrite reverse_involutive.
  destruct (decide (limit ≤ length entries)%nat) as [Hl|Hl].
  - replace (limit - length k)%nat with 0%nat; [done|]. unfold k. rewrite length_drop. lia.
  - replace (length entries - limit)%nat with 0%nat by lia. by rewrite take_0, reverse_nil, take_nil.
Qed.

(** What [status] says of the client alone. *)
Definition local_part (st : ClientStatusJson) : bool * option bytes * option bytes * option bytes * option bytes * option LastBackupRecord :=
  (st_enrolled st, st_name st, st_cert_fingerprint st, st_daemon_url st, st_chunk_target_size st, st_last_backup st).

(** Two programs that do the same to the disk and end alike, up to their answers. *)
Definition alike {E A B} (P : A → B → Prop) (m : StoreIO.M E A) (m' : StoreIO.M E B) : Prop :=
  ∀ w, (m w).2 = (m' w).2 ∧ match (m w).1, (m' w).1 with
    | Done a, Done b => P a b | Failed e, Failed e' => e = e' | Crashed, Crashed => True | _, _ => False end.

Lemma alike_refl {E A} (m : StoreIO.M E A) : alike eq m m.
Proof. intros w. split; [done|]. by destruct (m w).1. Qed.
Lemma alike_ret {E A B} (P : A → B → Prop) a b : P a b → alike (E := E) P (mret a) (mret b).
Proof. by intros HP w. Qed.
Lemma alike_bind {E A A' B B'} (P : A → B → Prop) (Q : A' → B' → Prop) (m : StoreIO.M E A) (m' : StoreIO.M E B) f f' :
  alike P m m' → (∀ a b, P a b → alike Q (f a) (f' b)) → alike Q (m ≫= f) (m' ≫= f').
Proof.
  intros Hm Hf w. unfold mbind, M_bind. specialize (Hm w).
  destruct (m w) as [o w1], (m' w) as [o' w1']. cbn [fst snd] in Hm. destruct Hm as [<- Ho].
  destruct o, o'; try done. by apply Hf.
Qed.

(** Fetching comes to an answer, whoever is at the other end. *)
Lemma fetch_entries_alike state url (dial : bytes → bytes → bytes → bytes → option S)
    (dial' : bytes → bytes → bytes → bytes → option S') :
  alike (λ _ _, True) (fetch_entries state url dial) (fetch_entries state url dial').
Proof.
  intros w. unfold fetch_entries, connect_authenticated, outcome_of, mbind, M_bind, lift.
  destruct (read_text (in_state state CA_CERT_FILE) w) as [[ca|e|] w1]; [|done..].
  destruct (read_text (in_state state CLIENT_CERT_FILE) w1) as [[cert|e|] w2]; [|done..].
  destruct (read_text (in_state state CLIENT_KEY_FILE) w2) as [[key|e|] w3]; [|done..].
  by destruct (dial url ca cert key), (dial' url ca cert key).
Qed.

(** [status] does not depend on the daemon: whatever is at the other end, a daemon that
    answers, one that refuses or none, the command does the same to the disk, ends in
    the same way, and says the same of the client's own state, under every fault. *)
Theorem status_is_local state config_path limit (dial : bytes → bytes → bytes → bytes → option S)
    (dial' : bytes → bytes → bytes → bytes → option S') w :
  let '(o, w1) := run_status state config_path limit dial w in
  let '(o', w1') := run_status state config_path limit dial' w in
  w1 = w1' ∧ match o, o' with
    | Done st, Done st' => local_part st = local_part st'
    | Failed e, Failed e' => e = e'
    | Crashed, Crashed => True
    | _, _ => False
    end.
Proof.
  assert (alike (λ st st', local_part st = local_part st') (run_status state config_path limit dial)
    (run_status state config_path limit dial')) as Hl.
  { unfold run_status. do 4 (eapply alike_bind; [apply alike_refl|]; intros ? ? <-).
    eapply (alike_bind (λ _ _, True)); [|intros; by apply alike_ret].
    repeat case_match; solve [by apply alike_ret|apply fetch_entries_alike]. }
  specialize (Hl w). destruct (run_status _ _ _ dial w), (run_status _ _ _ dial' w). exact Hl.
Qed.
End status.

(** ** Closed examples *)

Module Examples.
Import Reference IdentityReference MemoryServer.
Import WalkTheorems.Examples(data, root_wf_data) BackupTheorems.Examples(cfg, request, content, starts).

(** A codec of all records: the bits of a code number, and a full stop. *)
#[export] Instance LastBackupRecord_eq_dec : EqDecision LastBackupRecord.
Proof. solve_decision. Defined.
#[export] Instance LastBackupRecord_countable : Countable LastBackupRecord.
Proof.
  refine (inj_countable' (λ r, (lb_snapshot_id r, lb_created_at r, lb_files r, lb_upload_bytes r, lb_duration_ms r))
    (λ '(a, b, c, d, e), {| lb_snapshot_id := a; lb_created_at := b; lb_files := c; lb_upload_bytes := d; lb_duration_ms := e |}) _).
  by intros [].
Defined.
Fixpoint bits (p : positive) : bytes :=
  match p with xH => str "." | xO p => x30 :: bits p | xI p => x31 :: bits p end.
Fixpoint unbits (s : bytes) : option positive :=
  match s with
  | x30 :: s => xO <$> unbits s
  | x31 :: s => xI <$> unbits s
  | [x2e] => Some xH
  | _ => None
  end.
#[export] Instance toml_record : TomlRecord LastBackupRecord := {|
  to_toml r := Some (bits (encode r));
  from_toml s := unbits s ≫= decode |}.
Lemma unbits_bits p : unbits (bits p) = Some p.
Proof. induction p as [p IH|p IH|]; cbn; by rewrite ?IH. Qed.
Lemma bits_ascii p : Forall is_ascii_byte (bits p).
Proof. induction p; cbn; constructor; done || by constructor. Qed.
#[export] Instance toml_record_laws : TomlRecordLaws LastBackupRecord.
Proof.
  split; intros t s [= <-].
  - cbn. rewrite unbits_bits. cbn. apply decode_encode.
  - unfold utf8_valid. rewrite utf8_decode_ascii; [|apply bits_ascii]. apply bool_decide_eq_true. by eexists.
Qed.
Lemma records_encode (r : LastBackupRecord) : is_Some (to_toml r).
Proof. by eexists. Qed.

(** The passphrase [hunter2], in a file with Windows line ends, and typed. *)
Definition secret : FPath := (str "usb", str "passphrase").
Definition desk : World := {| files := {[ secret := settled (str "hunter2" ++ [x0d; x0a] ++ str "note") ]};
  disk := ∅; work := ∅; faults := [] |}.

Lemma passphrase_sources_agree_witness :
  (resolve_passphrase None (Some secret) None desk).1 = Done (str "hunter2") ∧
  (resolve_passphrase None None (Some (str "hunter2" ++ [x0a])) desk).1 = Done (str "hunter2").
Proof.
  destruct (passphrase_sources_agree (str "hunter2") ([x0d; x0a] ++ str "note") [x0a] secret
    (settled (str "hunter2" ++ [x0d; x0a] ++ str "note")) desk) as (_ & Hf & Hs & _).
  - discriminate.
  - apply (bool_decide_unpack _). vm_compute. exact I.
  - apply (bool_decide_unpack _). vm_compute. exact I.
  - right; right. eexists. reflexivity.
  - constructor; [by right|constructor].
  - reflexivity.
  - compute_eq.
  - compute_eq.
  - reflexivity.
  - exact (conj (Hf None) Hs).
Defined.

(** Three scheduled attempts, the last of which fails. *)
Definition report_of (n : Z) : BackupReport := {|
  report_snapshot_id := (vreplicate 16 x41 : @Ulid ulid); report_files := n; source_bytes := 90; chunks_total := 4;
  chunks_unique := 4; chunks_uploaded := 4; chunks_deduped := 0; upload_bytes := 250; manifest_bytes := 200;
  Backup.compression := PolicyCounters_default |}.
Definition tick_at (ms : Z) (r : result AttemptError BackupReport) : Tick (S := AStore) :=
  {| started_at_ms := ms; tick_result := r; tick_server := None |}.
Definition attempts : list (Tick (S := AStore) * option Z) := [
  (tick_at 1000 (Ok (report_of 3)), Some 1500);
  (tick_at 5000 (Ok (report_of 4)), Some 7500);
  (tick_at 9000 (Err (AttemptBackup BackupIo)), Some 9500)].

Lemma last_success_is_recorded_witness : ∃ w',
  report_ticks (str "state") attempts desk = (Done (), w') ∧
  (LastBackupRecord_load (str "state") w').1 = Done (Some (from_report (report_of 4) 5 2500)).
Proof.
  destruct (last_success_is_recorded (S := AStore) (str "state") records_encode attempts desk eq_refl) as (w' & E & _ & Hr).
  exists w'. exact (conj E Hr).
Defined.

(** A machine that is enrolled and configured, and a daemon that is reached. *)
Definition dir : bytes := str "state".
Definition config_path : FPath := (str "etc", str "client.toml").
Definition parsed : ClientConfig := {|
  daemon := str "https://backup:47820"; folders := [root_path data]; chunk_target_size := Some (str "256");
  ClientConfig.compression := PolicyConfig_default |}.
#[export] Instance config_toml : ClientConfigToml := λ text, if decide (text = str "config") then Some parsed else None.
Definition machine : World := {|
  files := list_to_map [
    (config_path, settled (str "config"));
    (in_state dir DATA_KEY_FILE, settled (replicate 32 x41));
    (in_state dir CHUNK_ID_KEY_FILE, settled (replicate 32 x42));
    (in_state dir CA_CERT_FILE, settled (str "ca"));
    (in_state dir CLIENT_CERT_FILE, settled (str "cert"));
    (in_state dir CLIENT_KEY_FILE, settled (str "pem"))];
  disk := Db_empty; work := Db_empty; faults := [] |}.

Lemma configured_machine_enrolled : enrolled dir machine (vreplicate 32 x41) (vreplicate 32 x42) (str "ca") (str "cert") (str "pem").
Proof. split; [done|compute_eq..|]. repeat constructor; compute_eq. Qed.

Lemma machine_configured : configured config_path (str "/etc/client.toml") false machine parsed cfg.
Proof. exists (settled (str "config")). split; [compute_eq|]. split; [compute_eq|]. split; compute_eq. Qed.

Definition reached (_ _ _ _ : bytes) : option AStore := Some a_empty.
Definition trees (_ : bytes) : option Node := root_node data.
Definition id0 : Ulid := vreplicate 16 x01.

Definition is_done {E A} (o : outcome E A) : bool := match o with Done _ => true | _ => false end.


(** The machine stops inside the second attempt's write of the record: [status] fails until
    a backup writes it again. *)
Definition torn : World := reboot (λ _, 3%nat)
  (report_ticks (str "state") (take 2 attempts) (set_faults (replicate 4 NoFault ++ [NoFault; CrashAt 9]) desk)).2.

Example torn_record_fails_status :
  (LastBackupRecord_load (str "state") (report_ticks (str "state") (take 1 attempts) desk).2).1 =
    Done (Some (from_report (report_of 3) 1 500)) ∧
  (run_status (S := AStore) (str "state") None 5 reached torn).1 = Failed (ReadingRecord StatusParse).
Proof. split; compute_eq. Qed.
End Examples.
