(* ===== verification/WinService.v ===== *)
(** * The Windows service ([busyncr-client/src/service.rs])

    The service's entry point: what it reports to the service control manager, what it
    writes to the event log, and the scheduled run in between, which is the one of
    [run] ([Run], [ClientCli]).  Calls of the manager may be refused; the other
    commands ([install], [start] and so on) are only such calls and are left out. *)

From S2P Require Import Prelude External Float Number Text Base64 Chunking Compression Crypto StoreIO ClientConfig.
From S2P Require Import StoreSpec Rpc Identity Enroll Scheduler Backup Run ClientCli.

Section service.
Context {Redb : RedbPkg Table} `{UlidPkg, Blake3Pkg, RcgenPkg, FastCdcPkg, ZstdPkg, AeadPkg, ClientConfigToml}
  {S : Type} `{!Busyncr S} {R : Type} `{!CryptoRng R, !RandPkg R}.

Inductive ServiceFailure :=
  | NotConfigured
  | Runtime
  | Interval (e : ServiceError)
  | Schedule (e : ScheduleError)
  | Config (e : ConfigError)
  | Scm.

Record ServiceRunArgs := {
  arg_config : bytes;
  arg_state : bytes;
  arg_default_chunking : bool;
  arg_interval : bytes;
  arg_jitter : f64;
}.

Inductive ServiceState := StartPending | Running | Stopped.

(** What the outside sees. *)
Inductive ServiceEvent :=
  | Registered
  | Reported (s : ServiceState)
  | LoggedStart
  | LoggedTick (t : Tick (S := S))
  | LoggedStopping
  | LoggedError (e : ServiceFailure).

(** The events so far, and whether the next calls of the manager succeed ([true] when the
    list is over). *)
Record Scene := { seen : list ServiceEvent; answers : list bool }.

Abbreviation Svc := (SE Scene ServiceFailure).
Definition emit (e : ServiceEvent) : Svc unit :=
  modify (λ s, {| seen := seen s ++ [e]; answers := answers s |}).

(** A call of the manager. *)
Definition scm (e : ServiceEvent) : Svc unit := λ s,
  let rest := tail (answers s) in
  match head (answers s) with
  | Some false => (Err Scm, {| seen := seen s; answers := rest |})
  | _ => (Ok (), {| seen := seen s ++ [e]; answers := rest |})
  end.

(** [run_args]: what [run] has put aside; [text]: the configuration file; [runtime]: whether
    tokio starts.  The signal is the one of the rounds.  When the loop has not come to
    its end, nothing follows. *)
Definition run_service_body (run_args : option ServiceRunArgs) (text : option bytes) (runtime : bool)
    (rounds : nat → Round) (fuel : nat) (rng : R) : Svc (list Event * RunEnd) :=
  run_args ← lift_result (ok_or NotConfigured run_args);
  scm Registered;;
  scm (Reported StartPending);;
  config ← lift_result (map_err Config (load (arg_config run_args) text));
  chunker ← lift_result (map_err Config (ClientConfig.chunker config (arg_default_chunking run_args)));
  interval ← lift_result (map_err Interval (parse_interval (arg_interval run_args)));
  schedule ← lift_result (map_err Schedule (SchedulePolicy_new interval (arg_jitter run_args)));
  (if runtime then mret () else throw Runtime);;
  scm (Reported Running);;
  emit LoggedStart;;
  let request := {|
    run_daemon_url := ClientConfig.daemon config; run_state_dir := arg_state run_args; run_roots := folders config;
    run_chunker := chunker; run_compression := ClientConfig.compression config; schedule := schedule |} in
  let '(events, ending) := run_scheduler request rounds fuel 0 rng in
  foldM (λ _ t, emit (LoggedTick t)) () (ticks_of events);;
  match ending with
  | Shutdown =>
      emit LoggedStopping;;
      scm (Reported Stopped)
  | _ => mret ()
  end;;
  mret (events, ending).

(** [my_service_main]: an error is logged, and that is all. *)
Definition my_service_main (run_args : option ServiceRunArgs) (text : option bytes) (runtime : bool)
    (rounds : nat → Round) (fuel : nat) (rng : R) (s : Scene) : Scene :=
  match run_service_body run_args text runtime rounds fuel rng s with
  | (Ok _, s) => s
  | (Err e, s) => (emit (LoggedError e) s).2
  end.

(** ** The service and the command *)

(** The two readings of an interval differ in their errors only. *)
Lemma parse_quantity_ok {E F} (e1 e2 e3 : E) (f1 f2 f3 : F) units s :
  result_ok (parse_quantity e1 e2 e3 units s) = result_ok (parse_quantity f1 f2 f3 units s).
Proof.
  unfold parse_quantity. destruct (trim s) as [|b t]; [done|]. destruct (split_unit units (b :: t)) as [digits m].
  destruct (parse_u64 digits) as [value|]; [|done]. cbn. by destruct (u64_checked_mul value m).
Qed.

Lemma parse_interval_duration s : result_ok (parse_interval s) = result_ok (parse_duration s).
Proof.
  unfold parse_interval, parse_duration.
  pose proof (parse_quantity_ok (BadInterval s) (BadInterval s) IntervalOverflow "empty interval"%string
    "not a valid interval (e.g. 3h, 90m, 5400s)"%string "interval overflows"%string time_units s) as Hq.
  destruct (parse_quantity _ _ _ _ s), (parse_quantity _ _ _ _ s); cbn in *; congruence.
Qed.

Lemma emit_ticks l s :
  foldM (λ _ t, emit (LoggedTick t)) () l s =
    (Ok (), {| seen := seen s ++ (LoggedTick <$> l); answers := answers s |}).
Proof.
  revert s; induction l as [|t l IH]; intros s; [destruct s; cbn; by rewrite app_nil_r|].
  cbn [foldM]. unfold mbind at 1, SE_bind at 1, emit at 1, modify at 1. rewrite IH. cbn.
  by rewrite <- app_assoc.
Qed.

End service.

(** ** A configuration that is refused

    The comment in [run_service_body] says that a bad configuration surfaces as an
    immediate [Stopped]; the manager is never told so. *)

Module Examples.
Import Reference IdentityReference MemoryServer Scheduler.Examples Run.Examples ClientCli.Examples.

Definition args (interval : bytes) : ServiceRunArgs := {|
  arg_config := str "/etc/client.toml"; arg_state := str "state"; arg_default_chunking := false;
  arg_interval := interval; arg_jitter := DEFAULT_JITTER |}.

Definition scene_of (interval : bytes) (text : bytes) : list (ServiceEvent (S := AStore)) :=
  seen (my_service_main (S := AStore) (R := Z) (Some (args interval)) (Some text) true Run.Examples.rounds 5 7
    {| seen := []; answers := [] |}).

Example bad_configuration_stays_in_start_pending :
  scene_of (str "3h") (str "nonsense") =
    [Registered; Reported StartPending; LoggedError (Config ConfigParse)].
Proof. compute_eq. Qed.

(** Three rounds, the last of which meets the signal. *)
Example three_attempts :
  (λ e, match e with LoggedTick t => Some (started_at_ms t) | _ => None end) <$> scene_of (str "3h") (str "config") =
    [None; None; None; None; Some 1699989200000; Some 1700000000000; Some 1700010800000; None; None].
Proof. compute_eq. Qed.
End Examples.
