(* ===== verification/EndToEnd.v ===== *)
(** * Backup, then restore

    The two pipelines together, over any server that keeps the laws of [Rpc] and
    over the daemon in particular: what a backup read is what a restore of its
    snapshot writes. *)

From S2P Require Import Prelude External Text Chunking Manifest Compression Crypto StoreSpec Rpc.
From S2P Require Import Backup WalkTheorems BackupTheorems Restore RestoreTheorems RestoreLawful.

(** ** Files of a tree are not in each other's way *)

Lemma NoDup_omap_inj {A B} (f : A → option B) l x x' y :
  NoDup (omap f l) → x ∈ l → x' ∈ l → f x = Some y → f x' = Some y → x = x'.
Proof.
  intros Hnd Hx Hx' Hy Hy'. induction l as [|z l IH]; [by apply elem_of_nil in Hx|].
  assert (∀ w, w ∈ l → f w = Some y → y ∈ omap f l) as Hin by (intros w ? ?; apply list_elem_of_omap; eauto).
  cbn [omap list_omap] in Hnd. apply elem_of_cons in Hx, Hx'.
  destruct Hx as [->|Hx], Hx' as [->|Hx']; [done| | |].
  - rewrite Hy in Hnd. apply NoDup_cons in Hnd as [Hn _]. by destruct Hn; eapply Hin.
  - rewrite Hy' in Hnd. apply NoDup_cons in Hnd as [Hn _]. by destruct Hn; eapply Hin.
  - apply IH; [|done..]. destruct (f z); [by apply NoDup_cons in Hnd as [_ ?]|done].
Qed.

Lemma NoDup_keys_inj {A B} (l : list (A * B)) k v w :
  NoDup l.*1 → (k, v) ∈ l → (k, w) ∈ l → v = w.
Proof.
  intros Hnd Hv Hw. induction l as [|[k' u] l IH]; [by apply elem_of_nil in Hv|].
  apply NoDup_cons in Hnd as [Hn Hnd]. cbn in Hn.
  assert (∀ w, (k, w) ∈ l → k ∈ l.*1) as Hin by (intros x ?; apply list_elem_of_fmap; by exists (k, x)).
  apply elem_of_cons in Hv, Hw. destruct Hv as [[= -> ->]|Hv], Hw as [[= <-]|Hw]; simplify_eq; auto;
    by destruct Hn; eapply Hin.
Qed.

Lemma reachable_apart node names f k g :
  node_wf node → reachable node names f → reachable node (names ++ k) g → k = [].
Proof.
  intros Hwf Hr. revert g. induction Hr as [f|entries name child names f Hin _ IH]; intros g.
  - by inversion 1.
  - inversion Hwf as [| |? Hnd _ Hch | |]; subst. cbn. inversion 1 as [|? ? child' ? ? Hin' Hr']; subst.
    assert (child' = child) as -> by by eapply (NoDup_keys_inj entries name).
    apply (IH (proj1 (Forall_forall _ _) Hch _ Hin) _ Hr').
Qed.

Lemma lists_roots_apart roots found specs names k f g :
  Forall root_wf roots → collect_files roots = Ok specs → lists_roots roots found →
  (names, f) ∈ found → (names ++ k, g) ∈ found → k = [].
Proof.
  intros Hwf Hc [Hr _ _] Hf Hg.
  apply Hr in Hf as (root & name & node & rest & Hin & [Hn Hd] & Hrc & ->). cbn in Hn, Hd.
  apply Hr in Hg as (root' & name' & node' & rest' & Hin' & [Hn' Hd'] & Hrc' & [= -> <-]). cbn in Hn', Hd'.
  assert (NoDup (omap root_name roots)) as Hnd.
  { apply (collect_files_total roots). by rewrite Hc. }
  assert (root' = root) as -> by by eapply NoDup_omap_inj.
  assert (node' = node) as -> by congruence.
  eapply reachable_apart; [|exact Hrc|exact Hrc']. by apply (proj1 (Forall_forall _ _) Hwf root).
Qed.

Section end_to_end.
Context `{UlidLaws, Blake3Pkg, FastCdcLaws, ZstdLaws, AeadLaws} {S : Type} `{!Busyncr S, !BusyncrLaws S}
  {R : Type} `{!CryptoRng R}.
Context (req : BackupRequest) (content : gmap ChunkId bytes).
Implicit Types (a : AStore) (spec : FileSpec).

(** The restore of the snapshot that the backup makes, with the same keys. *)
Definition restore_of : RestoreRequest := {|
  Restore.req_snapshot_id := Backup.req_snapshot_id req;
  Restore.key := Backup.key req;
  Restore.chunk_id_key := Backup.chunk_id_key req |}.

(** A file that is read to its end, with the given bytes. *)
Definition reads (f : SourceFile) (d : bytes) : Prop :=
  sf_content f = Some {| src_data := d; src_error := None |}.

Lemma opens_to_inj id blob p q : opens_to req id blob p → opens_to req id blob q → p = q.
Proof. intros (f & Hf & Hp) (g & Hg & Hq). congruence. Qed.

(** The chunks of an entry, as the restore wants them. *)
Lemma describes_delivers spec entry a d :
  ChunkerConfig_wf (chunker req) → describes req spec entry → consistent req content a →
  genuine_items content (items_of req spec) → reads (abs spec) d → holds_file req a entry d →
  ∃ bps, Forall2 (delivers restore_of a) (chunks entry) bps ∧ mjoin bps.*2 = d.
Proof.
  intros Hwf Hde Ha Hg Hd (plains & Hj & Hall).
  destruct (describes_clean req _ _ _ Hwf Hde Hd) as (cs & Hcs & _ & _ & Hi & Hk).
  rewrite Hcs in Hall. rewrite Hcs. clear Hcs Hde Hd. revert d Hj. rewrite Hi in Hg. clear Hi.
  remember (Chunk_id <$> cs) as ids eqn:Eids. revert cs Eids Hg Hk.
  induction Hall as [|id plain ids plains (blob & Hb & Ho) _ IH]; intros [|c cs]; [|done..|].
  { intros _ _ _ d <-. by exists []. }
  intros [= -> ->] Hg [Hk Hks]%Forall_cons d <-. cbn [fmap list_fmap] in Hg.
  destruct (IH cs eq_refl) with (d := mjoin plains) as (bps & Hbps & Hj); [|done..|].
  { intros x Hx. apply Hg. by right. }
  exists ((blob, plain) :: bps). split; [|cbn; by f_equal]. constructor; [|done]. split; [done|]. split; [|done].
  destruct (Ha _ _ Hb) as (p & Hp & Ho'). specialize (Hg c (list_elem_of_here _ _)). unfold genuine in Hg. cbn in Hg.
  rewrite (opens_to_inj _ _ _ _ Ho Ho'). replace p with (Chunk_data c) by congruence. by symmetry.
Qed.

(** What a source file became below the target. *)
Definition same_file (f : SourceFile) (g : TargetFile) : Prop :=
  reads f (tf_content g) ∧ ∃ md, sf_metadata f = Some md ∧
    tf_mtime g = Some (mtime_parts md) ∧ tf_mode g = Some (Z.land (md_mode md) 4095).

(** The target has every file that the roots have, at its own place, and no
    other. *)
Definition mirrors (t : Tree) : Prop :=
  (∀ root name node names f, root ∈ roots req → root_entry root (name, node) → reachable node names f →
     ∃ g, t !! (name :: names) = Some (Regular g) ∧ same_file f g) ∧
  (∀ q g, t !! q = Some (Regular g) → ∃ root name node names f, root ∈ roots req ∧
     root_entry root (name, node) ∧ reachable node names f ∧ q = name :: names).

(** Every file below the roots is read to its end. *)
Definition sources_read : Prop := ∀ root node names f,
  root ∈ roots req → root_node root = Some node → reachable node names f → ∃ d, reads f d.

Lemma place_file_at x entry :
  x.1 ≠ [] → Forall name_wf x.1 → describes req (file_at x) entry → place entry = x.1.
Proof.
  intros Hne Hw (md & cs & _ & _ & _ & ->). unfold place. cbn. apply split_join_slash; [done|].
  eapply Forall_impl; [exact Hw|]. by intros n (_ & _ & _ & ?).
Qed.

(** The entries of a manifest, with the bytes behind them. *)
Definition entry_for a (x : list bytes * SourceFile) (ed : FileEntry * bytes) : Prop :=
  describes req (file_at x) ed.1 ∧ reads x.2 ed.2 ∧ place ed.1 = x.1 ∧ deliverable restore_of a ed.1 ed.2.

Lemma backed_up_entries server a a' found entries :
  backup_starts req content server a → lists_roots (roots req) found → sources_read →
  sources_genuine req content (file_at <$> found) →
  backed_up req content a (file_at <$> found) entries a' →
  ∃ eds, entries = eds.*1 ∧ Forall2 (entry_for a') found eds.
Proof.
  intros Hst [Hr _ Hn] Hread Hgen Hup. pose proof (starts_chunker _ _ _ _ Hst) as Hwf.
  pose proof (up_consistent _ _ _ _ _ _ Hup) as Ha'. pose proof (up_entries _ _ _ _ _ _ Hup) as Hd.
  pose proof (up_files _ _ _ _ _ _ Hup) as Hfiles. clear Hup Hst.
  assert (∀ x, x ∈ found → x.1 ≠ [] ∧ ∃ d, reads x.2 d) as Hx.
  { intros [ns f] (root & name & node & rest & Hin & [_ Hd'] & Hrc & ->)%Hr. split; [done|]. by eapply Hread. }
  clear Hr Hread. rewrite Forall2_fmap_l in Hd, Hfiles. rewrite Forall_fmap in Hn.
  assert (∀ x, x ∈ found → genuine_items content (items_of req (file_at x))) as Hg.
  { intros x Hin. apply Hgen, list_elem_of_fmap. by exists x. }
  clear Hgen. revert Hn Hx Hg Hfiles. induction Hd as [|x entry fs es Hde _ IH]; intros Hn Hx Hg Hfiles.
  { by exists []. }
  apply Forall_cons in Hn as [Hnx Hn]. inversion Hfiles as [|? ? ? ? Hf Hfs]; subst.
  destruct IH as (eds & -> & Heds); [done|by intros; apply Hx; right|by intros; apply Hg; right|done|].
  destruct (Hx x (list_elem_of_here _ _)) as [Hne [d Hd]]. destruct (Hf d Hd) as [Hsize Hholds].
  assert (place entry = x.1) as Hp by by apply place_file_at.
  exists ((entry, d) :: eds). split; [done|]. constructor; [|done]. split_and!; [done..|]. split; [|split; [done|]].
  - cbn. by rewrite Hp.
  - eapply (describes_delivers (file_at x)); try done. apply Hg. by left.
Qed.

Lemma entries_compatible a found specs eds :
  Forall root_wf (roots req) → collect_files (roots req) = Ok specs → lists_roots (roots req) found →
  Forall2 (entry_for a) found eds → compatible eds.*1.
Proof.
  intros Hwf Hc Hl Hall.
  assert (place <$> eds.*1 = found.*1) as Hp.
  { clear -Hall. induction Hall as [|x ed fs es (_ & _ & Hp & _) _ IH]; [done|]. cbn. by rewrite Hp, IH. }
  split; [rewrite Hp; apply Hl|].
  assert (∀ e, e ∈ eds.*1 → ∃ f, (place e, f) ∈ found) as Hin.
  { intros e He. assert (place e ∈ found.*1) as ([ns f] & -> & Hf)%list_elem_of_fmap.
    { rewrite <- Hp. by apply list_elem_of_fmap_2. } by exists f. }
  intros e e' [f Hf]%Hin [f' Hf']%Hin (k & Hk & Heq)%above_cons. rewrite Heq in Hf'.
  apply Hk. eapply lists_roots_apart; [exact Hwf|exact Hc|exact Hl|exact Hf|exact Hf'].

Qed.

Lemma built_mirrors a found eds t :
  lists_roots (roots req) found → Forall2 (entry_for a) found eds → built eds t → mirrors t.
Proof.
  intros [Hr _ _] Hall [Hf Ho _]. split.
  - intros root name node names f Hin He Hrc.
    assert ((name :: names, f) ∈ found) as Hx by (apply Hr; by exists root, name, node, names).
    destruct (Forall2_elem_l _ _ _ _ Hall Hx) as ([e d] & Hed & Hde & Hd & Hp & _).
    destruct (proj1 (Forall_forall _ _) Hf _ Hed) as (g & Hg & Hc & Hm & Hmo & _). cbn in *.
    exists g. rewrite <- Hp. split; [done|]. split; [by rewrite Hc|].
    destruct Hde as (md & cs & _ & Hmd & _ & ->). exists md. cbn in Hm, Hmo. split; [done|].
    rewrite Hm, Hmo. by destruct (mtime_parts md).
  - intros q g Hg. apply Ho, list_elem_of_fmap in Hg as (e & -> & He).
    apply list_elem_of_fmap in He as ([e' d] & -> & Hed).
    destruct (Forall2_elem_r _ _ _ _ Hall Hed) as ([ns f] & Hx & _ & _ & Hp & _). cbn in Hp. cbn. rewrite Hp.
    apply Hr in Hx as (root & name & node & rest & ? & ? & ? & ->). by exists root, name, node, rest, f.
Qed.

(** A later state of the store that still has the snapshot and its chunks. *)
Definition keeps_snapshot a a' : Prop := ∃ sn,
  a_snaps a !! Ulid_to_bytes (Backup.req_snapshot_id req) = Some sn ∧
  a_snaps a' !! Ulid_to_bytes (Backup.req_snapshot_id req) = Some sn ∧
  ∀ id, id ∈ s_refs sn → a_chunks a' !! id = a_chunks a !! id.

Lemma deliverable_kept a a' e d :
  (∀ id, id ∈ chunks e → a_chunks a' !! id = a_chunks a !! id) →
  deliverable restore_of a e d → deliverable restore_of a' e d.
Proof.
  intros Hk (Hw & Hs & bps & Hall & Hj). split; [done|]. split; [done|]. exists bps. split; [|done].
  clear Hw Hs Hj. induction Hall as [|id bp ids bps [Hb Ho] _ IH]; constructor.
  - split; [|done]. rewrite Hk by (by left). done.
  - apply IH. intros i Hi. apply Hk. by right.
Qed.

Lemma backed_up_restorable server a a' specs entries :
  backup_starts req content server a → collect_files (roots req) = Ok specs → sources_read →
  backed_up req content a specs entries a' →
  ∃ found eds, lists_roots (roots req) found ∧ Forall2 (entry_for a') found eds ∧
    compatible eds.*1 ∧ ∀ a'', keeps_snapshot a' a'' →
      has_snapshot restore_of a'' (the_manifest req entries) eds.
Proof.
  intros Hst Hc Hread Hup. pose proof (starts_roots _ _ _ _ Hst) as Hwf.
  destruct (collect_files_lists _ _ Hwf Hc) as (found & -> & Hl & _).
  destruct (starts_sources _ _ _ _ Hst _ Hc) as (Hgen & _ & _).
  destruct (backed_up_entries _ _ _ _ _ Hst Hl Hread Hgen Hup) as (eds & -> & Hall).
  exists found, eds. split; [done|]. split; [done|]. split; [by eapply entries_compatible|].
  intros a'' (sn & Hsn & Hsn' & Hk). destruct (up_snapshot _ _ _ _ _ _ Hup) as (plain & sn1 & Hs1 & Hrefs & Hdec & Hm).
  rewrite Hs1, lookup_insert_eq in Hsn. injection Hsn as ->. exists sn, plain. split_and!; [done..|].
  assert (∀ ed id, ed ∈ eds → id ∈ chunks ed.1 → a_chunks a'' !! id = a_chunks a' !! id) as Hke.
  { intros ed id Hed Hid. apply Hk. rewrite Hrefs. unfold chunk_refs. cbn. apply list_elem_of_bind.
    exists ed.1. split; [done|]. by apply list_elem_of_fmap_2. }
  apply Forall_forall. intros ed Hed. destruct (Forall2_elem_r _ _ _ _ Hall Hed) as (x & _ & _ & _ & _ & Hdel).
  eapply deliverable_kept; [|exact Hdel]. intros id. by apply Hke.
Qed.

(** What a backup that succeeds promises of every later restore. *)
Lemma backup_then_restore server (rng : R) a report s1 :
  backup_starts req content server a → sources_read → run_backup req server rng = (Ok report, s1) →
  ∃ a', serves (Backup.client s1) a' ∧ keeps_snapshot a' a' ∧
    ∀ server' a'' t, serves server' a'' → keeps_snapshot a' a'' → empty_target t →
      let '(r, s2) := run_restore restore_of server' t [] in is_ok r = true ∧ mirrors (tree s2).
Proof.
  intros Hst Hread Hrun. destruct (run_backup_success _ _ _ _ _ _ _ Hst Hrun) as (specs & entries & a' & Hc & Hs' & Hup).
  destruct (backed_up_restorable _ _ _ _ _ Hst Hc Hread Hup) as (found & eds & Hl & Hall & Hcomp & Hhas).
  exists a'. split; [done|]. split.
  { destruct (up_snapshot _ _ _ _ _ _ Hup) as (? & sn & Hsn & _). exists sn. by rewrite Hsn, lookup_insert_eq. }
  intros server' a'' t Hs'' Hk He. specialize (Hhas a'' Hk).
  assert (files (the_manifest req entries) = eds.*1) as Hf by (by destruct Hhas as (? & ? & _ & _ & _ & ? & _)).
  rewrite <- Hf in Hcomp. pose proof (run_restore_ok restore_of a'' server' t _ eds Hs'' He Hhas Hcomp) as Hw.
  unfold se_wp in Hw. unfold run_restore.
  destruct (run_restore_with_progress restore_of _) as [r s2]. cbn [fst snd] in Hw. destruct Hw as (Hr & _ & Hb).
  split; [exact Hr|]. by eapply built_mirrors.
Qed.

(** C3. What was backed up is what is restored: after a backup that succeeds,
    over a server without faults, a restore of the snapshot into an empty directory
    succeeds and writes every file below the roots at its own place, with its bytes,
    its modification time and its permissions, and no other file; now, or from any
    later state of the store that still has the snapshot and its chunks. *)
Theorem backup_restore_roundtrip server (rng : R) a report s1 :
  backup_starts req content server a → sources_read → run_backup req server rng = (Ok report, s1) →
  (∀ t, empty_target t →
    let '(r, s2) := run_restore restore_of (Backup.client s1) t [] in is_ok r = true ∧ mirrors (tree s2)) ∧
  ∃ a', serves (Backup.client s1) a' ∧ ∀ server' a'' t, serves server' a'' → keeps_snapshot a' a'' →
    empty_target t →
    let '(r, s2) := run_restore restore_of server' t [] in is_ok r = true ∧ mirrors (tree s2).
Proof.
  intros Hst Hread Hrun. destruct (backup_then_restore _ _ _ _ _ Hst Hread Hrun) as (a' & Hs' & Hk & Hall).
  split; [|by exists a']. intros t He. by apply (Hall _ a').
Qed.
End end_to_end.
