(* ===== verification/System.v ===== *)
(** * The client against the daemon

    The daemon keeps the laws of the wire ([ServiceTheorems]), so what holds of
    the pipelines over any such server holds of them over the daemon: the closed
    example backs a small tree up through the daemon's handlers and restores it. *)

From S2P Require Import Prelude External Text Identity IdentityTheorems Service ServiceTheorems.
From S2P Require Import StoreTheorems Compression StoreSpec Rpc Backup WalkTheorems BackupTheorems Restore RestoreTheorems RestoreLawful EndToEnd.

Module Examples.
Import Reference IdentityReference.
Import IdentityTheorems.Examples(daemon, laptop, two_clients).
Import WalkTheorems.Examples(data, root_wf_data).
Import BackupTheorems.Examples(request, content, starts).

Definition service : BusyncrService := with_auth daemon.
Definition names (n : nat) : bytes := str "t" ++ hex_bytes (u32_to_le (Z.of_nat n)).

(** The daemon, as the enrolled laptop sees it. *)
Definition wire : Busyncr Daemon := daemon_busyncr service (Some [laptop]) names (Some 1700000000000).
#[local] Existing Instance wire.
Definition wire_laws : BusyncrLaws Daemon :=
  daemon_laws service (Some [laptop]) names (Some 1700000000000) daemon eq_refl eq_refl.
#[local] Existing Instance wire_laws.

(** A daemon with an empty store. *)
Definition running : Daemon := {| store_dir := fresh; identity_dir := two_clients |}.

Lemma running_serves : serves running a_empty.
Proof. split; [exact fresh_represents|compute_eq..]. Qed.

Lemma sources_read_data : sources_read (request [data]).
Proof.
  intros root node names f Hr%list_elem_of_singleton. subst root. intros [= <-] Hf.
  repeat match goal with
  | H : reachable (WalkTheorems.Examples.file _) _ _ |- _ => unfold WalkTheorems.Examples.file in H
  | H : reachable (NodeDir _) _ _ |- _ => inversion H; clear H; subst
  | H : reachable (NodeFile _) _ _ |- _ => inversion H; clear H; subst
  | H : reachable NodeOther _ _ |- _ => by inversion H
  | H : (_, _) ∈ _ :: _ |- _ => apply elem_of_cons in H as [[= -> ->]|H]
  | H : (_, _) ∈ [] |- _ => by apply elem_of_nil in H
  end; eexists; reflexivity.
Qed.

Definition backup := run_backup (request [data]) running 7.

(** The tree after the restore of that snapshot. *)
Lemma backup_restore_roundtrip_witness :
  is_ok backup.1 = true ∧
  let '(r, s2) := run_restore (restore_of (request [data])) (Backup.client backup.2) ∅ [] in
  is_ok r = true ∧ mirrors (request [data]) (tree s2).
Proof.
  assert (backup_starts (request [data]) content running a_empty) as Hst.
  { apply starts; [exact running_serves|constructor; [apply root_wf_data|constructor]|vm_compute; reflexivity]. }
  assert (is_ok backup.1 = true) as Hok by (vm_compute; reflexivity). split; [exact Hok|].
  destruct backup as [r s1] eqn:E. unfold backup in E. cbn [fst snd] in *. destruct r as [report|]; [|discriminate Hok].
  destruct (backup_restore_roundtrip (request [data]) content running 7 a_empty report s1 Hst sources_read_data E)
    as [Hr _].
  apply Hr. intros q. left. apply lookup_empty.
Defined.

(** What is at a path after that restore. *)
Definition restored_at (p : list string) : option bytes :=
  match tree (run_restore (restore_of (request [data])) (Backup.client backup.2) ∅ []).2 !! (str <$> p) with
  | Some (Regular f) => Some (tf_content f)
  | _ => None
  end.

Example restored_files :
  restored_at <$> [["data"; "a.txt"]; ["data"; "b.txt"]; ["data"; "sub"; "c.txt"]; ["data"; "link"]]%string =
  [Some (str "a"); Some (str "b"); Some (str "c"); None].
Proof. vm_compute. reflexivity. Qed.
End Examples.
